(* ===== verification/_CoqProject ===== *)
-Q . S2P
Prelude.v
Fallible.v
RustFloat.v
RustStr.v
RustText.v
Core.v
Mix64.v
Oracle.v
Client.v
Substrate.v
Net.v
Directory.v
ByteStream.v
Tor.v
Listener.v
StreamBridge.v
BridgeServer.v
UdpFront.v
Selection.v
Gateway.v
Ingress.v
TwoNodes.v
Autopilot.v
NodeRun.v
MetricsWs.v
LiveRun.v
Emulator.v
Striped.v
Rotation.v
Sessions.v
RotateDemo.v
WarmPool.v
Metrics.v
PoolProxy.v
Katzenpost.v
Mixnets.v
Sidecars.v
Probes.v
Uploads.v
Fetch.v
Duplex.v
HoprPath.v
NymPath.v
TorPath.v
RelayPath.v
EmulatedPath.v
StripedPath.v
Loopback.v
Programs.v
