(* ===== verification/Prelude.v ===== *)
(** * QUICMIX: verification development.

    QUICMIX carries HTTP traffic as QUIC over a mix network.  An application
    talks HTTP to a local proxy (the ingress); the proxy opens one QUIC stream
    per request on a connection to a peer's gateway; the connection's datagrams
    travel over a substrate (the internet, Tor, Nym, Katzenpost, HOPR or an
    emulator), through a bounded, paced boundary; the gateway dials the target
    over TCP and splices.  QUIC's congestion control is replaced by one fed from
    an oracle: what is known, or measured, about the substrate.  Every node is
    the same program; one with a public address also serves as a gateway.

    The source is Rust under src/: [crates/quicmix] (the library),
    [crates/quicmix-node] (the binary), [crates/quicmix-eval] (emulator,
    striping, warm pool, metrics) and [substrates/quicmix-*] (one crate per
    network).  This library translates it, file by file, into executable
    definitions and proves what makes each part, and their compositions, correct.

    ** How the code is modelled.

    - Integers are [Z] at the source's width: [uadd], [usub], [umul] answer
      [None] where a checked build panics and wrap where a release build does
      (the [profile] argument); [wrapping_incr] is an atomic counter's step.
    - [f32] and [f64] are the standard library's [spec_float] (RustFloat), so
      that order statistics and window sizes are those of IEEE arithmetic.
    - Strings are their UTF-8 bytes (RustStr, RustText); addresses print and
      parse as [std::net] does (Net).  Durations and instants are nanoseconds.
    - [Result] is [result E A] with stdpp's monad notations; an [async fn] that
      changes a state and uses [?] is a [fallible] computation (Fallible), with
      Hoare triples for both ways out.
    - Concurrent tasks are transition systems: an [exec] function says when one
      atomic step (between two await points or inside one critical section) is
      enabled and what it does, runs close it under any interleaving, and
      invariants are proved by induction over runs.
    - What is not under src/ (tokio, quinn, rustls, hyper, serde, CBOR, hashes,
      the Nym SDK, the operating system, clocks, random draws) appears as its
      answers: an argument of the definition that uses it.

    ** The files, in dependency order, and the code they model.

    Shared vocabulary:
    - Prelude: machine integers, results, durations, list and option lemmas, the
      tactics and hint databases the other files use.
    - Fallible: the state and error monad and its triples.
    - RustFloat, RustStr, RustText, Net: the standard library's floats, strings,
      text decoding and socket addresses, as far as the source uses them.
    - ByteStream: [read_exact] and [write_all] on the halves of a stream.
    - Mix64: the counter-and-mixer two crates draw identifiers from.

    The transport stack, bottom up:
    - Core (lib.rs): [OracleParams], [SubstrateError], and the trait
      [MixTransport] as a class; [MixTransportLaws] is what a substrate promises
      about its lossy methods, and clients are proved against it.
    - Oracle (oracle.rs): the window of round trips, percentiles, estimates.
    - Client (client.rs, sched.rs): window sizing, the fixed-window controller,
      congestion plans, [MeasuredCc].
    - Substrate (substrate.rs): the boundary: send queue, two pumps, live oracle,
      counters.  The record [Substrate] has one field per shared
      object of the code, and [exec] one case per atomic step of a caller or pump.
    - Tor (tor.rs): the framed stream, SOCKS5, targets; StreamBridge
      (stream_bridge.rs): the gateway's end of such a stream, one connection.
    - Listener: an accept loop that spawns a task per connection, for any
      service; BridgeServer ([serve] and [handle] of stream_bridge.rs):
      the bridge's server as an instance of it.
    - UdpFront (relay.rs, [spawn_substrate_front] of front.rs): UDP sockets to
      boundaries and back.
    - Katzenpost, Mixnets (the three substrate crates' lib.rs, with modules
      [Hopr], [Nym] and [TorSubstrate]); Emulator, Striped (quicmix-eval).
    - Sidecars: [TorDaemon], [connect_managed] and the two sidecar programs.

    The node:
    - Directory (directory.rs): announced gateways and the promotion gate.
    - Selection (front.rs, main.rs): which substrate, and the sidecar handshake.
    - Gateway (node.rs): the gateway's streams, the probe, the splice.
    - Ingress (ingress.rs): requests, tunnels, forwarding, header stripping.
    - Autopilot (autopilot.rs): configuration, promotion, certificates over HTTP,
      refresh; NodeRun (main.rs): the program from its environment to the running
      node, an interleaving of its tasks.
    - MetricsWs and LiveRun (metrics_ws.rs): the page fetch, and a whole run as
      the frames it sends.
    - Rotation (rotation.rs), WarmPool, PoolProxy, Metrics (quicmix-eval's
      proxy.rs and metrics.rs): fresh circuits, the pool that keeps them, the
      proxy over the pool, its exported numbers.
    - Sessions (nym_rotate.rs) and RotateDemo (the example rotate.rs): a session
      over fresh circuits.  [IdSource] is how a program names its circuits and
      [DistinctIds] what it must promise of the names; the connector's theorems
      are proved against them, for the counter of one and the draws of the other.
    - Probes (nym_probe.rs, kp_echo.rs, kp_probe.rs,
      hopr_probe.rs, tor_probe.rs): the measurement programs; Uploads (bench.rs,
      multipath.rs, nym_bench.rs): the upload a benchmark times; Fetch (the examples
      selftest.rs and proxy.rs, nym_e2e.rs): the self-tests.
    - Loopback: the machine these programs run on, as the sockets they bind, the
      servers behind them and the fronts before those; Programs: each program's
      set-up on it, and the benchmarks from their arguments to their tables.

    Compositions: TwoNodes (ingress, link and gateway), TorPath (front, boundary,
    framed circuit and bridge), NymPath (the fronts of many clients, the mix, the
    gateway's loop and its reply legs), Fetch (an application, the ingress and a whole
    link), Sidecars (client and sidecar), PoolProxy (pool and ingress), NodeRun
    (directory, certificates and ingress), Sessions (rotation and a server).
    Duplex says what a front accounts for over any transport that only has
    a queue of what it took and one of what has come ([DuplexLaws]: the clients of
    HOPR and Nym, Nym's reply leg); HoprPath and both directions of NymPath are
    proved against it.
    RelayPath puts any substrate whose network satisfies [NetworkLaws] (where its
    datagrams are, and that no step of it duplicates or invents one) behind a
    boundary and a UDP front; EmulatedPath discharges the laws for the emulator,
    and StripedPath for striping over any network that satisfies them.

    ** What the theorems show (the C-numbers are in their comments).

    - Delivery end to end: C1 (application tunnels through two nodes: prefixes
      under every interleaving, a bound on the nodes' work, and completeness when
      idle), C14 (QUIC datagrams over Tor), C39 (one request to the target it
      names), C18 and C13 (stream bridge and framing), C27 (the local front), C33
      (Katzenpost).
    - C37: QUIC over Nym.  Each client has a socket of its own at the gateway, and
      every datagram, either way, is delivered, on its way or lost; what can lose
      one is named, and a failed socket call ends the gateway for everybody.
    - Circuits only delay: C30 (the front over an emulated network) and C23 (over
      striped ones) account for every datagram at every moment of every
      interleaving, and show that what is in transit drains in a bounded number
      of steps; C29 is the exact round robin of the striping.
    - The boundary, whose send pump is cut at each of its await points: C8 (FIFO,
      bounds, counters), C9 (pacing), C10 (receive side),
      C12 (what the trait hides).
    - Measurement drives control: C4, C5 (percentiles, estimates), C2 (the
      oracle-fed plan), C7 (the next circuit is configured from the last 256
      round trips), C6 (the bandwidth probe).
    - Circuits: C26 (fresh), C20, C21 (leases, rotation),
      C3 (requests hold their circuits), C32 (a session over two circuits).
    - What the programs report: C22 (a benchmark's table), C28 (a self-test's
      verdict), C35 (the probe's oracle).
    - The node: C24, C25 (directory and gate), C16 (its own directory over time),
      C40 (what an ingress is pinned to), C38 and C17 (sidecars), C15 (SOCKS5),
      C34 and C36 (Katzenpost and HOPR set-up).
    - Formats: C11 (chunked coding), C19 (live-metrics frames), C31 (Prometheus
      text).

    Several theorems state a behaviour that departs from a comment or from what a
    caller would expect (C3, C11, C12, C16, C17, C19, C22, C25, C28, C35, C36, C37,
    C38, C40): each holds of the code as it is written.

    ** Fuel and bounds.

    Loops that are not structural carry fuel, chosen so that it cannot run out;
    a loop of the code whose end is a claim answers something else when it does
    run out, so that the claim says it never happens.
    The text scanners ([utf8], [split_str], [split_whitespace], [trim],
    [MetricsWs.dechunk], [Fetch.read_until_blank]) get the length of their input,
    or one more, and each turn consumes a byte; [dechunk] would answer [Endless],
    and C11 says it never does; the lemma [read_head] of Fetch states the result
    of its loop.  [show_uint] prints at most 20 digits and [show_hex]
    16, the widths of a 64-bit number; the shortest decimal of an [f64] has at
    most 17 digits; an IPv6 address has 8 groups.  [Gateway.measure] takes a
    turn per chunk and one to spare and would answer [None] for a loop still
    running (C6: never), the Katzenpost reader at most one turn per byte that has
    arrived (C33: it always answers).  Transition systems have no fuel:
    where a run must end, a measure bounds its length ([TwoNodes.link_work] in
    C1, [Uploads.work] in Uploads, for C22).  Counters of machine width are exact up to their
    wrap, which the theorems name.

    ** Not modelled.

    - Printing and logging, Ctrl-C, process exit; tests; the demo site.
    - The insides of QUIC, TLS, HTTP, websocket and JSON: quinn, rustls, hyper,
      tungstenite and serde are arguments.
    - The local UDP sockets of fronts and relays are assumed to work: the error of
      [recv_from], which ends a reading loop, is no step of UdpFront, and a datagram
      counts as put out once it is given to [send_to], as one of Nym's gateway
      counts as forwarded once it is given to [sock.send] (the code ignores both
      answers).
    - Accept loops spawn one task per connection: Listener models the loop once;
      elsewhere the model is the task.
    - Scheduling fairness of tokio: liveness is stated as bounded work and as
      completeness once idle, never as a wall-clock promise. *)

From stdpp Require Export base tactics option list gmap strings.
From Stdlib Require Export ZArith Lia ZifyNat.
From coqutil Require Import Byte Word.LittleEndianList.

Open Scope Z_scope.

(** ** Build profiles.  Integer overflow panics with overflow checks on
    (cargo's [dev] profile) and wraps with them off (cargo's [release]). *)
Inductive profile : Set := Debug | Release.

#[global] Instance profile_eq_dec : EqDecision profile.
Proof. solve_decision. Defined.

(** ** Machine integers: a [w]-bit unsigned integer is a [Z] in range. *)
Definition wrap (w z : Z) : Z := z mod 2 ^ w.
Definition in_u (w z : Z) : Prop := 0 ≤ z < 2 ^ w.

#[global] Instance in_u_dec w z : Decision (in_u w z).
Proof. unfold in_u; apply _. Defined.

(** The value of an unsigned [w]-bit operation whose mathematical result is
    [z]; [None] is the overflow panic of a checked build. *)
Definition uint (pr : profile) (w z : Z) : option Z :=
  if decide (in_u w z) then Some z
  else match pr with Debug => None | Release => Some (wrap w z) end.

Definition uadd (pr : profile) (w a b : Z) : option Z := uint pr w (a + b).
Definition usub (pr : profile) (w a b : Z) : option Z := uint pr w (a - b).
Definition umul (pr : profile) (w a b : Z) : option Z := uint pr w (a * b).

(** [saturating_sub] on unsigned integers. *)
Definition usat_sub (a b : Z) : Z := Z.max 0 (a - b).

(** The wrapping counter step of [AtomicUsize::fetch_add(1)] / [AtomicU64]. *)
Definition wrapping_incr (w c : Z) : Z := wrap w (c + 1).

Lemma wrap_range w z : 0 ≤ w → in_u w (wrap w z).
Proof. intros. unfold in_u, wrap. apply Z.mod_pos_bound. lia. Qed.

Lemma wrap_small w z : in_u w z → wrap w z = z.
Proof. intros. unfold wrap. apply Z.mod_small, H. Qed.

Lemma wrap_add_l w a b : wrap w (wrap w a + b) = wrap w (a + b).
Proof. unfold wrap. apply Zplus_mod_idemp_l. Qed.

Lemma uint_in pr w z : in_u w z → uint pr w z = Some z.
Proof. intros. unfold uint. by rewrite decide_True. Qed.

Lemma uint_range pr w z v : 0 ≤ w → uint pr w z = Some v → in_u w v.
Proof.
  unfold uint. intros Hw H. case_decide; [congruence|].
  destruct pr; [done|]. simplify_eq. by apply wrap_range.
Qed.

Lemma uint_debug w z v : uint Debug w z = Some v ↔ v = z ∧ in_u w z.
Proof. unfold uint. case_decide; naive_solver. Qed.

(** ** Results: Rust's [Result<A, E>], with the monad notations of stdpp. *)
Inductive result (E A : Type) : Type :=
| Ok (a : A)
| Err (e : E).
Arguments Ok {E A} a.
Arguments Err {E A} e.

#[global] Instance result_ret E : MRet (result E) := λ A a, Ok a.
#[global] Instance result_bind E : MBind (result E) := λ A B f r,
  match r with Ok a => f a | Err e => Err e end.
#[global] Instance result_fmap E : FMap (result E) := λ A B f r,
  match r with Ok a => Ok (f a) | Err e => Err e end.

#[global] Instance result_eq_dec `{EqDecision E, EqDecision A} :
  EqDecision (result E A).
Proof. solve_decision. Defined.

Definition ok_or {E A} (o : option A) (e : E) : result E A :=
  match o with Some a => Ok a | None => Err e end.
Definition map_err {E F A} (f : E → F) (r : result E A) : result F A :=
  match r with Ok a => Ok a | Err e => Err (f e) end.
Definition result_ok {E A} (r : result E A) : option A :=
  match r with Ok a => Some a | Err _ => None end.
Definition is_err {E A} (r : result E A) : bool :=
  match r with Ok _ => false | Err _ => true end.

(** What a list of keyed values has for one key. *)
Definition keyed {A} (k : nat) (l : list (nat * A)) : list A :=
  omap (λ x, if decide (x.1 = k) then Some x.2 else None) l.

Lemma keyed_app {A} k (l l' : list (nat * A)) : keyed k (l ++ l') = keyed k l ++ keyed k l'.
Proof. apply omap_app. Qed.
Lemma keyed_same {A} k (l : list A) : keyed k ((k,.) <$> l) = l.
Proof. unfold keyed. induction l as [|x l IH]; [done|]. cbn. rewrite decide_True by done. by f_equal. Qed.
Lemma keyed_other {A} k j (l : list A) : j ≠ k → keyed k ((j,.) <$> l) = [].
Proof. intros Hj. unfold keyed. induction l as [|x l IH]; [done|]. cbn. by rewrite decide_False. Qed.
Lemma keyed_delete {A} k i (l : list (nat * A)) x :
  l !! i = Some x → Permutation (keyed k l) (keyed k [x] ++ keyed k (delete i l)).
Proof.
  intros Hx. rewrite <- keyed_app. cbn [app]. unfold keyed. by rewrite <- (delete_Permutation l i x Hx).
Qed.

Lemma omap_ok {E A} (l : list A) : omap (result_ok (E := E)) (Ok <$> l) = l.
Proof. induction l as [|x l IH]; [done|]. cbn. by f_equal. Qed.

(** ** Durations and instants: a [Duration] is its number of nanoseconds, an
    [Instant] a number of nanoseconds on the monotonic clock. *)
Abbreviation duration := Z (only parsing).
Abbreviation instant := Z (only parsing).
Definition NANOS_PER_SEC : Z := 1000000000.
Definition duration_ok (d : Z) : Prop := 0 ≤ d < 2 ^ 64 * NANOS_PER_SEC.

#[global] Instance duration_ok_dec d : Decision (duration_ok d).
Proof. unfold duration_ok; apply _. Defined.

Definition from_secs (s : Z) : Z := s * NANOS_PER_SEC.
Definition from_millis (ms : Z) : Z := ms * 1000000.
Definition from_nanos (n : Z) : Z := n.

(** [Duration * u32] and [Duration + Duration] panic on overflow in every profile. *)
Definition duration_mul (d k : Z) : option Z :=
  if decide (duration_ok (d * k)) then Some (d * k) else None.
Definition duration_add (a b : Z) : option Z :=
  if decide (duration_ok (a + b)) then Some (a + b) else None.

Lemma duration_mul_Some d k v :
  duration_mul d k = Some v ↔ v = d * k ∧ duration_ok (d * k).
Proof. unfold duration_mul. case_decide; naive_solver. Qed.

(** ** Bytes: [Vec<u8>] and [&[u8]], and the big-endian [u32] length prefix. *)
Abbreviation byte := Init.Byte.byte.
Abbreviation bytes := (list byte).

Definition u32_to_be_bytes (z : Z) : bytes := rev (le_split 4 z).
Definition u32_from_be_bytes (b : bytes) : Z := le_combine (rev b).

Lemma u32_to_be_bytes_length z : length (u32_to_be_bytes z) = 4%nat.
Proof. unfold u32_to_be_bytes. by rewrite length_rev, length_le_split. Qed.

Lemma u32_from_to_be_bytes z : u32_from_be_bytes (u32_to_be_bytes z) = wrap 32 z.
Proof.
  unfold u32_from_be_bytes, u32_to_be_bytes. rewrite rev_involutive.
  apply le_combine_split.
Qed.

Lemma u32_from_be_bytes_range b : length b = 4%nat → in_u 32 (u32_from_be_bytes b).
Proof.
  intros Hb. unfold in_u, u32_from_be_bytes.
  pose proof (le_combine_bound (rev b)) as Hc. rewrite length_rev, Hb in Hc. apply Hc.
Qed.

Lemma u32_to_from_be_bytes b : length b = 4%nat → u32_to_be_bytes (u32_from_be_bytes b) = b.
Proof.
  intros Hb. unfold u32_to_be_bytes, u32_from_be_bytes.
  rewrite <- Hb, <- (length_rev b), split_le_combine. apply rev_involutive.
Qed.

(** ** Lists. *)
Definition last_n {A} (n : nat) (l : list A) : list A := drop (length l - n) l.

Lemma last_n_length {A} n (l : list A) : length (last_n n l) = (n `min` length l)%nat.
Proof. unfold last_n. rewrite length_drop. lia. Qed.

Lemma last_n_all {A} n (l : list A) : (length l ≤ n)%nat → last_n n l = l.
Proof. intros. unfold last_n. by replace (length l - n)%nat with 0%nat by lia. Qed.

(** Pushing onto a full window drops its oldest element. *)
Lemma last_n_snoc_full {A} n (l : list A) x :
  (0 < n)%nat → (n ≤ length l)%nat →
  last_n n (l ++ [x]) = tail (last_n n l) ++ [x].
Proof.
  intros Hn Hl. unfold last_n. rewrite length_app. simpl.
  replace (length l + 1 - n)%nat with (S (length l - n)) by lia.
  rewrite drop_app_le by lia. f_equal.
  destruct (drop (length l - n) l) as [|y k] eqn:E.
  - apply (f_equal length) in E. rewrite length_drop in E. simpl in E. lia.
  - simpl. rewrite <- Nat.add_1_r, <- drop_drop, E. done.
Qed.

Lemma Forall_last_n {A} (P : A → Prop) n l : Forall P l → Forall P (last_n n l).
Proof. intros. by apply Forall_drop. Qed.

(** [Vec::retain] and [Iterator::filter] with a boolean test. *)
Definition retain {A} (f : A → bool) (l : list A) : list A := filter (λ x, f x = true) l.

Lemma retain_cons {A} (f : A → bool) x l :
  retain f (x :: l) = if f x then x :: retain f l else retain f l.
Proof. unfold retain. rewrite filter_cons. destruct (f x) eqn:E; by case_decide. Qed.

Lemma retain_app {A} (f : A → bool) l k : retain f (l ++ k) = retain f l ++ retain f k.
Proof. apply filter_app. Qed.

Lemma elem_of_retain {A} (f : A → bool) l x : x ∈ retain f l ↔ f x = true ∧ x ∈ l.
Proof. unfold retain. by rewrite (list_elem_of_filter (λ x, f x = true)). Qed.

Lemma retain_sublist {A} (f : A → bool) l : retain f l `sublist_of` l.
Proof. apply sublist_filter. Qed.

(** [Option::is_none]. *)
Definition is_none {A} (o : option A) : bool := match o with None => true | Some _ => false end.

(** [Option::is_some]. *)
Definition is_some {A} (o : option A) : bool := negb (is_none o).

Lemma is_none_true {A} (o : option A) : is_none o = true ↔ o = None.
Proof. by destruct o. Qed.

(** A boolean test splits a list. *)
Lemma filter_bool_partition {A} (f : A → bool) (l : list A) :
  (length (filter (λ x, f x = false) l) + length (filter (λ x, f x = true) l))%nat = length l.
Proof.
  induction l as [|x l IH]; [done|]. rewrite !filter_cons.
  destruct (decide (f x = false)), (decide (f x = true)); cbn [length]; try congruence; try lia.
  by destruct (f x).
Qed.

(** ** Automation. *)
Create HintDb quicmix.
#[export] Hint Resolve wrap_range u32_to_be_bytes_length Forall_last_n : quicmix.
Create Rewrite HintDb quicmix.
#[export] Hint Rewrite @last_n_length u32_to_be_bytes_length u32_from_to_be_bytes : quicmix.

(** Case analysis on every [match]/[if] of the goal and hypotheses. *)
Ltac cases := repeat (case_decide || case_match); simplify_eq/=.
Ltac qm := eauto with quicmix; try lia.

(** [lia] with division and remainder by constants. *)
Ltac dlia := repeat rewrite ?Nat2Z.inj_div, ?Nat2Z.inj_mod; Z.to_euclidean_division_equations; lia.
