(* ===== verification/Fallible.v ===== *)
(** * Code that changes a state and may stop at an error ([async fn .. -> Result]
    bodies made of [?]): a state and error monad, and Hoare triples for it.

    A triple has a postcondition for each way out: [Q] for the value, [X] for the
    error. *)

From S2P Require Import Prelude.

Definition fallible (S E A : Type) : Type := S → result E A * S.

Section Fallible.
Context {S E : Type}.
#[local] Abbreviation M := (fallible S E).

#[global] Instance fallible_ret : MRet (fallible S E) := λ A a s, (Ok a, s).
#[global] Instance fallible_bind : MBind (fallible S E) := λ A B f m s,
  match m s with (Ok a, s) => f a s | (Err e, s) => (Err e, s) end.

Definition fail {A} (e : E) : M A := λ s, (Err e, s).
Definition lift {A} (r : result E A) : M A := λ s, (r, s).
Definition guard_ok (b : bool) (e : E) : M () := λ s, (if b then Ok () else Err e, s).

Definition triple {A} (P : S → Prop) (m : M A) (Q : A → S → Prop) (X : E → S → Prop) : Prop :=
  ∀ s, P s → match m s with (Ok a, s') => Q a s' | (Err e, s') => X e s' end.

Lemma triple_ret {A} (P : S → Prop) (a : A) (Q : A → S → Prop) X :
  (∀ s, P s → Q a s) → triple P (mret a) Q X.
Proof. intros H s Hs. by apply H. Qed.

Lemma triple_lift {A} (P : S → Prop) (r : result E A) (X : E → S → Prop) :
  (∀ e s, P s → X e s) → triple P (lift r) (λ _, P) X.
Proof. intros H s Hs. unfold lift. destruct r; [done|by apply H]. Qed.

Lemma triple_guard (P : S → Prop) b e (X : E → S → Prop) :
  (∀ e s, P s → X e s) → triple P (guard_ok b e) (λ _, P) X.
Proof. intros H s Hs. unfold guard_ok. destruct b; [done|by apply H]. Qed.

(** The same, remembering the answer. *)
Lemma triple_check (P : S → Prop) b e (X : E → S → Prop) :
  (b = false → ∀ s, P s → X e s) → triple P (guard_ok b e) (λ _ s, b = true ∧ P s) X.
Proof. intros H s Hs. unfold guard_ok. destruct b; [done|by apply H]. Qed.

Lemma triple_answer {A} (P : S → Prop) (r : result E A) (X : E → S → Prop) :
  (∀ e, r = Err e → ∀ s, P s → X e s) → triple P (lift r) (λ a s, r = Ok a ∧ P s) X.
Proof. intros H s Hs. unfold lift. destruct r; [done|by eapply H]. Qed.

Lemma triple_bind {A B} (P : S → Prop) (m : M A) (f : A → M B) (Q : A → S → Prop) (R : B → S → Prop) X :
  triple P m Q X → (∀ a, triple (Q a) (f a) R X) → triple P (a ← m; f a) R X.
Proof.
  intros Hm Hf s Hs. specialize (Hm s Hs). unfold mbind, fallible_bind.
  destruct (m s) as [[a|e] s']; [|done]. by apply (Hf a).
Qed.

Lemma triple_ret_bind {A B} (P : S → Prop) (a : A) (f : A → M B) (Q : B → S → Prop) X :
  triple P (f a) Q X → triple P (x ← mret a; f x) Q X.
Proof. done. Qed.

Lemma triple_post {A} (P : S → Prop) (m : M A) (Q R : A → S → Prop) X :
  triple P m Q X → (∀ a s, Q a s → R a s) → triple P m R X.
Proof. intros H HQ s Hs. specialize (H s Hs). destruct (m s) as [[a|e] s']; auto. Qed.

Lemma triple_pre {A} (P P' : S → Prop) (m : M A) (Q : A → S → Prop) X :
  (∀ s, P s → P' s) → triple P' m Q X → triple P m Q X.
Proof. intros HP H s Hs. by apply H, HP. Qed.

Lemma triple_both {A} (P : S → Prop) (m : M A) (Q R : A → S → Prop) X :
  triple P m Q X → triple P m R X → triple P m (λ a s, Q a s ∧ R a s) X.
Proof. intros HQ HR s Hs. specialize (HQ s Hs). specialize (HR s Hs). by destruct (m s) as [[a|e] s']. Qed.

(** A fact the precondition carries, out of the triple. *)
Lemma triple_pure {A} (F : Prop) (P : S → Prop) (m : M A) (Q : A → S → Prop) X :
  (F → triple P m Q X) → triple (λ s, F ∧ P s) m Q X.
Proof. intros H s [HF Hs]. by apply H. Qed.
End Fallible.

(** A call whose error is another type's. *)
Definition with_err {S E F A} (f : E → F) (m : fallible S E A) : fallible S F A := λ s,
  let (r, s) := m s in (map_err f r, s).

Lemma triple_with_err {S E F A} (f : E → F) (P : S → Prop) (m : fallible S E A) Q X :
  triple P m Q (λ e, X (f e)) → triple P (with_err f m) Q X.
Proof. intros H s Hs. specialize (H s Hs). unfold with_err. by destruct (m s) as [[a|e] s']. Qed.
