(* ===== verification/RustFloat.v ===== *)
(** * IEEE 754 arithmetic as the source uses it.

    [f32] and [f64] values are the standard library's [spec_float]s at
    precisions (24, 128) and (53, 1024): correctly rounded operations, no
    axioms, and executable by [vm_compute].  This file adds the conversions and
    methods the source calls: [as f64], [as u64], [max], [round], [sqrt],
    [Duration::as_secs_f64] and [Duration::from_secs_f64]. *)

From S2P Require Import Prelude.
From Stdlib Require Export SpecFloat.
Open Scope Z_scope.

(** A binary format. *)
Record format := Format { prec : Z; emax : Z }.
Definition binary32 : format := Format 24 128.
Definition binary64 : format := Format 53 1024.

Abbreviation f32 := spec_float (only parsing).
Abbreviation f64 := spec_float (only parsing).

Section Ops.
Variable F : format.

(** [n as f32] / [n as f64] for an integer [n]: round to nearest, ties to even. *)
Definition of_int (z : Z) : spec_float := binary_normalize (prec F) (emax F) z 0 false.
Definition fadd := SFadd (prec F) (emax F).
Definition fmul := SFmul (prec F) (emax F).
Definition fdiv := SFdiv (prec F) (emax F).
Definition fsqrt := SFsqrt (prec F) (emax F).
(** A decimal literal [n / d]: both integers are exact, so the quotient is
    the literal correctly rounded. *)
Definition lit (n d : Z) : spec_float := fdiv (of_int n) (of_int d).
End Ops.

Definition is_nan (x : spec_float) : bool :=
  match x with S754_nan => true | _ => false end.

(** [f32::max] / [f64::max]: the other operand when one is NaN. *)
Definition fmax (x y : spec_float) : spec_float :=
  if is_nan x then y else if is_nan y then x else if SFltb x y then y else x.

(** Magnitude of a finite value truncated towards zero. *)
Definition trunc_mag (m : positive) (e : Z) : Z :=
  if 0 <=? e then Z.shiftl (Zpos m) e else Z.shiftr (Zpos m) (- e).

(** [x as u64] (also [as usize]): truncation, saturating at the ends, NaN to 0. *)
Definition as_u (w : Z) (x : spec_float) : Z :=
  match x with
  | S754_nan | S754_zero _ | S754_infinity true | S754_finite true _ _ => 0
  | S754_infinity false => 2 ^ w - 1
  | S754_finite false m e => Z.min (trunc_mag m e) (2 ^ w - 1)
  end.

(** [f64::round]: to the nearest integer, halves away from zero. *)
Definition fround (F : format) (x : spec_float) : spec_float :=
  match x with
  | S754_finite s m e =>
      if 0 <=? e then x
      else
        let d := 2 ^ (- e) in
        let q := Z.shiftr (Zpos m) (- e) in
        let r := Zpos m - q * d in
        let n := if d <=? 2 * r then q + 1 else q in
        if n =? 0 then S754_zero s
        else if s then SFopp (of_int F n) else of_int F n
  | _ => x
  end.

(** [Duration::as_secs_f64]: [secs as f64 + nanos as f64 / 1e9]. *)
Definition as_secs_f64 (d : Z) : spec_float :=
  fadd binary64 (of_int binary64 (d / NANOS_PER_SEC))
    (fdiv binary64 (of_int binary64 (d mod NANOS_PER_SEC)) (of_int binary64 NANOS_PER_SEC)).

(** Round half to even of the non-negative rational [n / d]. *)
Definition div_half_even (n d : Z) : Z :=
  let q := n / d in
  let r := n mod d in
  if (2 * r <? d) || ((2 * r =? d) && Z.even q) then q else q + 1.

(** [Duration::from_secs_f64]: the nearest nanosecond (ties to even); panics
    ([None]) on a negative, NaN or overflowing argument. *)
Definition from_secs_f64 (x : spec_float) : option Z :=
  match x with
  | S754_zero _ => Some 0
  | S754_finite false m e =>
      let ns := if 0 <=? e then Zpos m * 2 ^ e * NANOS_PER_SEC
                else div_half_even (Zpos m * NANOS_PER_SEC) (2 ^ (- e)) in
      if decide (duration_ok ns) then Some ns else None
  | _ => None
  end.

(** ** Comparison lemmas. *)

Lemma Pos_compare_cont_opp (p q : positive) :
  Pos.compare_cont Eq q p = CompOpp (Pos.compare_cont Eq p q).
Proof. symmetry. apply (Pos.compare_cont_antisym p q Eq). Qed.

Lemma SFcompare_swap x y :
  SFcompare y x = option_map CompOpp (SFcompare x y).
Proof.
  destruct x as [[]|[]| |[] m e], y as [[]|[]| |[] m' e']; try done; simpl;
    rewrite (Z.compare_antisym e e'), Pos_compare_cont_opp;
    by destruct (e ?= e'), (Pos.compare_cont Eq m m').
Qed.

Lemma SFcompare_None x y : SFcompare x y = None ↔ is_nan x = true ∨ is_nan y = true.
Proof. destruct x as [[]|[]| |[] m e], y as [[]|[]| |[] m' e']; naive_solver. Qed.

Lemma SFleb_refl x : is_nan x = false → SFleb x x = true.
Proof.
  destruct x as [[]|[]| |[] m e]; try done; intros _; unfold SFleb; simpl;
    rewrite Z.compare_refl, Pos.compare_cont_refl; done.
Qed.

(** Without NaN, not-less is at-least. *)
Lemma SFltb_false_leb x y :
  is_nan x = false → is_nan y = false → SFltb x y = false → SFleb y x = true.
Proof.
  unfold SFltb, SFleb. intros Hx Hy H. rewrite SFcompare_swap.
  destruct (SFcompare x y) as [[]|] eqn:E; try done.
  apply SFcompare_None in E. naive_solver congruence.
Qed.

Lemma SFltb_leb x y : SFltb x y = true → SFleb x y = true.
Proof. unfold SFltb, SFleb. by destruct (SFcompare x y) as [[]|]. Qed.

(** [x.max(y)] is a number at least [y] whenever [y] is a number. *)
Lemma fmax_spec x y :
  is_nan y = false → is_nan (fmax x y) = false ∧ SFleb y (fmax x y) = true.
Proof.
  intros Hy. unfold fmax. rewrite Hy.
  destruct (is_nan x) eqn:Hx; [auto using SFleb_refl|].
  destruct (SFltb x y) eqn:E; auto using SFleb_refl, SFltb_false_leb.
Qed.

(** Saturating conversion stays in range. *)
Lemma as_u_range w x : 0 ≤ w → in_u w (as_u w x).
Proof.
  intros Hw. unfold in_u, as_u, trunc_mag.
  destruct x as [|[]| |[] m e]; try lia.
  assert (0 < 2 ^ w) by lia.
  case_match; rewrite ?Z.shiftr_div_pow2, ?Z.shiftl_mul_pow2 by lia.
  - pose proof (Z.pow_nonneg 2 e). nia.
  - pose proof (Z.div_pos (Zpos m) (2 ^ (- e))). lia.
Qed.

#[export] Hint Resolve as_u_range SFleb_refl : quicmix.

Example three_point_one_f32 : lit binary32 31 10 = S754_finite false 13002342 (-22).
Proof. vm_compute. reflexivity. Qed.
