(* ===== verification/RustStr.v ===== *)
(** * Strings as the source uses them.

    A Rust [String]/[&str] is its UTF-8 encoding, a list of bytes; [bs] turns a
    literal into one.  This file models the methods of [str] the repository
    calls: splitting, prefixes, ASCII case, [trim] (Unicode white space on the
    UTF-8 encoding), and decimal printing and parsing of unsigned integers. *)

From S2P Require Import Prelude.
From coqutil Require Import Byte.
From Stdlib Require Import Strings.Byte.
Open Scope Z_scope.

#[global] Instance byte_eqdec : EqDecision byte := Byte.byte_eq_dec.

Abbreviation str := bytes (only parsing).
Definition bs (s : string) : str := String.list_byte_of_string s.
Definition bz (b : byte) : Z := byte.unsigned b.
Definition zb (z : Z) : byte := byte.of_Z z.

Lemma bz_zb z : 0 ≤ z < 256 → bz (zb z) = z.
Proof. intros. unfold bz, zb. rewrite byte.unsigned_of_Z. apply Z.mod_small. lia. Qed.

Lemma bz_range b : 0 ≤ bz b < 256.
Proof. apply byte.unsigned_range. Qed.

#[global] Instance byte_countable : Countable byte.
Proof. refine (inj_countable' bz zb _). intros b. apply byte.of_Z_unsigned. Defined.

(** ** Prefixes and splitting. *)
Fixpoint strip_prefix (p l : str) : option str :=
  match p, l with
  | [], _ => Some l
  | a :: p, b :: l => if decide (a = b) then strip_prefix p l else None
  | _ :: _, [] => None
  end.

Definition starts_with (p l : str) : bool := bool_decide (is_Some (strip_prefix p l)).

(** [split_once(c)] on a one-byte pattern. *)
Fixpoint split_once (c : byte) (l : str) : option (str * str) :=
  match l with
  | [] => None
  | b :: l =>
      if decide (b = c) then Some ([], l)
      else '(x, y) ← split_once c l; Some (b :: x, y)
  end.

(** [rsplit_once(c)]: at the last occurrence. *)
Definition rsplit_once (c : byte) (l : str) : option (str * str) :=
  '(y, x) ← split_once c (rev l); Some (rev x, rev y).

(** [split(c)]: never empty. *)
Fixpoint split (c : byte) (l : str) : list str :=
  match l with
  | [] => [[]]
  | b :: l =>
      if decide (b = c) then [] :: split c l
      else match split c l with w :: ws => (b :: w) :: ws | [] => [[b]] end
  end.

(** First position of the window [p] in [l]: [windows(p.len()).position(|w| w == p)]. *)
Fixpoint find_window (p l : str) : option nat :=
  match strip_prefix p l with
  | Some _ => Some 0%nat
  | None => match l with [] => None | _ :: l => S <$> find_window p l end
  end.

(** ** ASCII. *)
Definition ascii_lower (b : byte) : byte :=
  if (65 <=? bz b) && (bz b <=? 90) then zb (bz b + 32) else b.
Definition to_ascii_lowercase (l : str) : str := ascii_lower <$> l.
Definition eq_ignore_ascii_case (a b : str) : bool :=
  bool_decide (to_ascii_lowercase a = to_ascii_lowercase b).

(** ** [trim]: Unicode [White_Space], on the UTF-8 encoding. *)
Definition is_ascii_ws (b : byte) : bool :=
  ((9 <=? bz b) && (bz b <=? 13)) || (bz b =? 32).

(** Encoded length of the white-space character at the head, [0] if none. *)
Definition ws_len (l : str) : nat :=
  match l with
  | [] => 0%nat
  | b0 :: l =>
      if is_ascii_ws b0 then 1%nat
      else match l with
      | [] => 0%nat
      | b1 :: l =>
          if (bz b0 =? 0xC2) && ((bz b1 =? 0x85) || (bz b1 =? 0xA0)) then 2%nat
          else match l with
          | [] => 0%nat
          | b2 :: _ =>
              let k := (bz b0 * 256 + bz b1) * 256 + bz b2 in
              if (k =? 0xE19A80) || ((0xE28080 <=? k) && (k <=? 0xE2808A))
                 || (k =? 0xE280A8) || (k =? 0xE280A9) || (k =? 0xE280AF)
                 || (k =? 0xE2819F) || (k =? 0xE38080) then 3%nat else 0%nat
          end
      end
  end.

(** The same, for the white-space character at the end of [rev r]. *)
Definition ws_len_rev (r : str) : nat :=
  if decide (ws_len (rev (take 1 r)) = 1%nat) then 1%nat
  else if decide (ws_len (rev (take 2 r)) = 2%nat) then 2%nat
  else if decide (ws_len (rev (take 3 r)) = 3%nat) then 3%nat
  else 0%nat.

Fixpoint trim_by (f : str → nat) (fuel : nat) (l : str) : str :=
  match fuel with
  | O => l
  | S fuel => match f l with O => l | n => trim_by f fuel (drop n l) end
  end.

Definition trim_start (l : str) : str := trim_by ws_len (length l) l.
Definition trim_end (l : str) : str := rev (trim_by ws_len_rev (length l) (rev l)).
Definition trim (l : str) : str := trim_end (trim_start l).

(** ** Unsigned integers in decimal and hexadecimal. *)
Definition digit (radix : Z) (b : byte) : option Z :=
  let v := if (48 <=? bz b) && (bz b <=? 57) then bz b - 48
           else if (97 <=? bz b) && (bz b <=? 122) then bz b - 87
           else if (65 <=? bz b) && (bz b <=? 90) then bz b - 55
           else radix in
  if v <? radix then Some v else None.

Fixpoint parse_digits (radix w acc : Z) (l : str) : option Z :=
  match l with
  | [] => Some acc
  | b :: l =>
      d ← digit radix b;
      let v := acc * radix + d in
      if decide (in_u w v) then parse_digits radix w v l else None
  end.

(** [uN::from_str_radix]: an optional [+], at least one digit, no overflow. *)
Definition from_str_radix (radix w : Z) (l : str) : option Z :=
  match l with
  | [] => None
  | b :: l' =>
      if decide (b = Byte.x2b)
      then match l' with [] => None | _ => parse_digits radix w 0 l' end
      else parse_digits radix w 0 l
  end.

Definition parse_uint (w : Z) (l : str) : option Z := from_str_radix 10 w l.

Fixpoint show_digits (fuel : nat) (n : Z) (acc : str) : str :=
  match fuel with
  | O => acc
  | S fuel =>
      let acc := zb (48 + n mod 10) :: acc in
      if n <? 10 then acc else show_digits fuel (n / 10) acc
  end.

(** [Display] of an unsigned integer of at most 64 bits (20 digits). *)
Definition show_uint (n : Z) : str := show_digits 20 n [].

(** ** Lemmas. *)

Lemma strip_prefix_Some p l r : strip_prefix p l = Some r ↔ l = p ++ r.
Proof.
  revert l. induction p as [|a p IH]; intros l; simpl; [naive_solver|].
  destruct l as [|b l]; [naive_solver|]. case_decide; [|naive_solver].
  subst. rewrite IH. naive_solver.
Qed.

Lemma split_once_app c x y : c ∉ x → split_once c (x ++ c :: y) = Some (x, y).
Proof.
  induction x as [|b x IH]; simpl; intros Hx; [by rewrite decide_True|].
  rewrite not_elem_of_cons in Hx. destruct Hx as [Hb Hx].
  rewrite decide_False, IH by congruence. done.
Qed.

Lemma split_once_None c l : split_once c l = None ↔ c ∉ l.
Proof.
  induction l as [|b l IH]; simpl; [split; [set_solver|done]|].
  rewrite not_elem_of_cons. case_decide as Hb; [naive_solver|].
  destruct (split_once c l) as [[]|]; simpl; naive_solver.
Qed.

Lemma split_once_Some c l x y : split_once c l = Some (x, y) ↔ l = x ++ c :: y ∧ c ∉ x.
Proof.
  split.
  - revert x y. induction l as [|b l IH]; simpl; intros x y; [done|].
    case_decide as Hb; [intros [= <- <-]; subst; split; [done|set_solver]|].
    intros ([x' y'] & H & [= <- <-])%bind_Some. apply IH in H as [-> Hx].
    split; [done|]. apply not_elem_of_cons. auto.
  - intros [-> Hx]. by apply split_once_app.
Qed.

Lemma rsplit_once_app c x y : c ∉ y → rsplit_once c (x ++ c :: y) = Some (x, y).
Proof.
  intros Hy. unfold rsplit_once. rewrite rev_app_distr. simpl.
  rewrite <- app_assoc. simpl. rewrite split_once_app.
  - simpl. by rewrite !rev_involutive.
  - rewrite list_elem_of_In, <- in_rev, <- list_elem_of_In. done.
Qed.

Lemma split_line c l r : c ∉ l → split c (l ++ c :: r) = l :: split c r.
Proof.
  induction l as [|b l IH]; intros Hl; [cbn [app split]; by rewrite decide_True|].
  apply not_elem_of_cons in Hl as [Hb Hl]. cbn [app split]. rewrite decide_False by congruence.
  by rewrite IH.
Qed.

Lemma split_lines c ls :
  Forall (λ l, c ∉ l) ls → split c (concat ((λ l, l ++ [c]) <$> ls)) = ls ++ [[]].
Proof.
  induction 1 as [|l ls Hl Hls IH]; [done|]. rewrite fmap_cons. cbn [concat].
  rewrite <- app_assoc. cbn [app]. by rewrite split_line, IH.
Qed.

Lemma split_ne c l : split c l ≠ [].
Proof. destruct l; cbn; [done|]. case_decide; [done|]. by case_match. Qed.

Lemma digit_dec d : 0 ≤ d < 10 → digit 10 (zb (48 + d)) = Some d.
Proof.
  intros Hd. unfold digit. rewrite bz_zb by lia.
  replace (48 <=? 48 + d) with true by lia. replace (48 + d <=? 57) with true by lia. simpl.
  replace (48 + d - 48) with d by lia. by replace (d <? 10) with true by lia.
Qed.

Lemma parse_show_digits w fuel n acc :
  0 ≤ n < 10 ^ Z.of_nat fuel → in_u w n →
  parse_digits 10 w 0 (show_digits fuel n acc) = parse_digits 10 w n acc.
Proof.
  revert n acc. induction fuel as [|fuel IH]; intros n acc Hn Hw.
  { simpl in Hn. replace n with 0 by lia. done. }
  rewrite Nat2Z.inj_succ, Z.pow_succ_r in Hn by lia. unfold in_u in *.
  pose proof (Z.mod_pos_bound n 10). pose proof (Z.div_mod n 10).
  cbn [show_digits]. destruct (n <? 10) eqn:E.
  - cbn [parse_digits]. rewrite digit_dec by lia. simpl.
    rewrite Z.mod_small, decide_True by (unfold in_u; lia). done.
  - rewrite IH by lia. cbn [parse_digits]. rewrite digit_dec by lia. simpl.
    replace (n / 10 * 10 + n mod 10) with n by lia.
    by rewrite decide_True by (unfold in_u; lia).
Qed.

Lemma parse_digits_range radix w acc l v :
  parse_digits radix w acc l = Some v → in_u w acc → in_u w v.
Proof.
  revert acc. induction l as [|b l IH]; cbn; intros acc; [by intros [= <-]|].
  intros (d & _ & H)%bind_Some _. case_decide; [|done]. eauto.
Qed.

Lemma from_str_radix_range radix w l v : 0 ≤ w → from_str_radix radix w l = Some v → in_u w v.
Proof.
  intros Hw H. assert (in_u w 0) by (unfold in_u; lia). unfold from_str_radix in H.
  repeat case_match; simplify_eq; eauto using parse_digits_range.
Qed.

(** Every byte of a printed number is a decimal digit. *)
Definition is_digit (b : byte) : Prop := 48 ≤ bz b ≤ 57.

Lemma show_digits_digits fuel n acc :
  Forall is_digit acc → Forall is_digit (show_digits fuel n acc).
Proof.
  revert n acc. induction fuel as [|fuel IH]; intros n acc Ha; simpl; [done|].
  assert (is_digit (zb (48 + n mod 10))).
  { unfold is_digit. pose proof (Z.mod_pos_bound n 10). rewrite bz_zb; lia. }
  case_match; [|apply IH]; by constructor.
Qed.

Lemma show_digits_ne fuel n acc : show_digits (S fuel) n acc ≠ [].
Proof.
  revert n acc. induction fuel as [|fuel IH]; intros n acc; cbn; case_match; try done.
  apply IH.
Qed.

Lemma show_uint_digits n : Forall is_digit (show_uint n).
Proof. by apply show_digits_digits. Qed.

Lemma show_uint_ne n : show_uint n ≠ [].
Proof. apply show_digits_ne. Qed.

Lemma is_digit_ne b c : is_digit b → (bz c < 48 ∨ 57 < bz c) → b ≠ c.
Proof. unfold is_digit. intros ? ? ->. lia. Qed.

Lemma show_uint_notin n c : (bz c < 48 ∨ 57 < bz c) → c ∉ show_uint n.
Proof.
  intros Hc Hin. pose proof (show_uint_digits n) as Hd. rewrite Forall_forall in Hd.
  by apply (is_digit_ne c c (Hd _ Hin)).
Qed.

(** Printing then parsing a [w]-bit integer gives it back. *)
Lemma parse_show_uint w n : 0 ≤ w ≤ 64 → in_u w n → parse_uint w (show_uint n) = Some n.
Proof.
  intros Hw Hn. unfold parse_uint, from_str_radix.
  pose proof (show_uint_ne n). destruct (show_uint n) as [|b l] eqn:E; [done|].
  rewrite decide_False.
  - rewrite <- E. unfold show_uint. rewrite parse_show_digits; [done| |done].
    unfold in_u in Hn. pose proof (Z.pow_le_mono_r 2 w 64). 
    change (10 ^ Z.of_nat 20) with 100000000000000000000. lia.
  - pose proof (show_uint_digits n) as Hd. rewrite E in Hd. inversion Hd. subst.
    apply is_digit_ne; [done|]. left. reflexivity.
Qed.

#[export] Hint Resolve show_uint_digits show_uint_ne : quicmix.

Example parse_u16_overflow : parse_uint 16 (bs "65536") = None.
Proof. reflexivity. Qed.
Example parse_u16_plus : parse_uint 16 (bs "+443") = Some 443.
Proof. reflexivity. Qed.
Example trim_ws : trim (bs "  a b
") = bs "a b".
Proof. reflexivity. Qed.
