(* ===== verification/RustText.v ===== *)
(** * Text from bytes: UTF-8 validation, lossy decoding, lines and words.

    What [std] and [tokio] do between raw bytes and [str] in the text protocols
    of the repository: the gateway's target line, a sidecar's announcement, HTTP
    heads and chunk sizes. *)

From S2P Require Import Prelude RustStr.
Open Scope Z_scope.

(** ** UTF-8.  [utf8_step l] looks at the head of a non-empty [l]: whether it is
    a well-formed scalar, and how many bytes it (or the ill-formed prefix that
    [from_utf8_lossy] replaces) has. *)
Definition byte_at (l : str) (i : nat) : Z := default 0 (bz <$> l !! i).
Definition is_cont (z : Z) : bool := (0x80 <=? z) && (z <=? 0xBF).
Definition second_ok (b0 b1 : Z) : bool :=
  if b0 =? 0xE0 then (0xA0 <=? b1) && (b1 <=? 0xBF)
  else if b0 =? 0xED then (0x80 <=? b1) && (b1 <=? 0x9F)
  else if b0 =? 0xF0 then (0x90 <=? b1) && (b1 <=? 0xBF)
  else if b0 =? 0xF4 then (0x80 <=? b1) && (b1 <=? 0x8F)
  else is_cont b1.

Definition utf8_step (l : str) : bool * nat :=
  let b0 := byte_at l 0 in let b1 := byte_at l 1 in
  let b2 := byte_at l 2 in let b3 := byte_at l 3 in
  if b0 <? 0x80 then (true, 1%nat)
  else if b0 <? 0xC2 then (false, 1%nat)
  else if b0 <=? 0xDF then if is_cont b1 then (true, 2%nat) else (false, 1%nat)
  else if b0 <=? 0xEF then
    if negb (second_ok b0 b1) then (false, 1%nat)
    else if is_cont b2 then (true, 3%nat) else (false, 2%nat)
  else if b0 <=? 0xF4 then
    if negb (second_ok b0 b1) then (false, 1%nat)
    else if negb (is_cont b2) then (false, 2%nat)
    else if is_cont b3 then (true, 4%nat) else (false, 3%nat)
  else (false, 1%nat).

Fixpoint utf8_check (fuel : nat) (l : str) : bool :=
  match l, fuel with
  | [], _ => true
  | _, O => false
  | _, S fuel => let (ok, n) := utf8_step l in ok && utf8_check fuel (drop n l)
  end.

(** [str::from_utf8(l).is_ok()]. *)
Definition utf8 (l : str) : bool := utf8_check (length l) l.

Definition REPLACEMENT : str := [zb 0xEF; zb 0xBF; zb 0xBD].

Fixpoint lossy (fuel : nat) (l : str) : str :=
  match l, fuel with
  | [], _ => []
  | _, O => []
  | _, S fuel =>
      let (ok, n) := utf8_step l in
      (if ok then take n l else REPLACEMENT) ++ lossy fuel (drop n l)
  end.
Definition from_utf8_lossy (l : str) : str := lossy (length l) l.

(** ** Lines: [AsyncBufReadExt::read_line] keeps its terminator, [next_line]
    strips it (and a carriage return before it). *)
Definition LF : byte := zb 10.
Definition CR : byte := zb 13.
Definition CRLF : str := [CR; LF].
Definition CRLFCRLF : str := CRLF ++ CRLF.

(** The bytes up to and including the first line feed, and the rest; at the end
    of the stream what is left is the line. *)
Definition read_until_lf (l : str) : str * str :=
  match split_once LF l with Some (x, y) => (x ++ [LF], y) | None => (l, []) end.

Definition strip_cr (l : str) : str :=
  match rev l with b :: r => if decide (b = CR) then rev r else l | [] => l end.

(** The loop [while let Some(line) = lines.next_line().await? { .. }] under a
    time limit.  [found] is the body: [None] goes on to the next line.  The
    pieces are the text seen so far split at line feeds: all but the last are
    complete lines, the last is a line only if the text has [ended].  The errors
    are those of a line that is not UTF-8, of the end, and of the time limit. *)
Section Lines.
Context {E A : Type}.
Variables (bad_line at_end in_time : E) (found : str → option (result E A)).

Definition on_line (raw line : str) (next : result E A) : result E A :=
  if negb (utf8 raw) then Err bad_line else default next (found line).

Fixpoint for_lines (pieces : list str) (ended : bool) : result E A :=
  match pieces with
  | [] => Err at_end
  | [l] =>
      if negb ended then Err in_time
      else if decide (l = []) then Err at_end
      else on_line l l (Err at_end)
  | l :: pieces => on_line l (strip_cr l) (for_lines pieces ended)
  end.
End Lines.

(** ** Words: [split_whitespace]. *)
Fixpoint words_from (fuel : nat) (cur l : str) : list str :=
  let flush := match cur with [] => [] | _ => [rev cur] end in
  match fuel, l with
  | O, _ => flush
  | _, [] => flush
  | S fuel, b :: l' =>
      match ws_len l with
      | O => words_from fuel (b :: cur) l'
      | n => flush ++ words_from fuel [] (drop n l)
      end
  end.
Definition split_whitespace (l : str) : list str := words_from (S (length l)) [] l.

(** [split] on a pattern of several bytes. *)
Fixpoint split_str_from (fuel : nat) (p cur l : str) : list str :=
  match fuel, l with
  | O, _ => [rev cur ++ l]
  | _, [] => [rev cur]
  | S fuel, b :: l' =>
      match strip_prefix p l with
      | Some r => rev cur :: split_str_from fuel p [] r
      | None => split_str_from fuel p (b :: cur) l'
      end
  end.
Definition split_str (p l : str) : list str := split_str_from (S (length l)) p [] l.

(** ** Lemmas. *)

Lemma utf8_step_bounds l :
  l ≠ [] → (utf8_step l).2 ≠ 0%nat ∧ ((utf8_step l).1 = true → (utf8_step l).2 ≤ length l)%nat.
Proof.
  intros Hl. destruct l as [|a l]; [done|]. unfold utf8_step, byte_at.
  destruct l as [|b l]; [|destruct l as [|c l]; [|destruct l as [|d l]]]; cbn;
    repeat case_match; cbn; split; (done || lia).
Qed.

Lemma utf8_lossy l : utf8 l = true → from_utf8_lossy l = l.
Proof.
  unfold utf8, from_utf8_lossy. generalize (length l) as fuel. intros fuel. revert l.
  induction fuel as [|fuel IH]; intros l H; destruct l as [|a l']; try done.
  cbn [utf8_check lossy] in *. destruct (utf8_step (a :: l')) as [ok n].
  destruct ok; [|done]. cbn in H. rewrite (IH _ H). apply take_drop.
Qed.

Definition is_ascii (b : byte) : Prop := bz b < 0x80.

Lemma utf8_ascii l : Forall is_ascii l → utf8 l = true.
Proof.
  unfold utf8. induction 1 as [|b l Hb Hl IH]; [done|]. cbn [length utf8_check].
  assert (utf8_step (b :: l) = (true, 1%nat)) as ->.
  { unfold utf8_step, byte_at. cbn. unfold is_ascii in Hb. by replace (bz b <? 128) with true by lia. }
  done.
Qed.

Lemma is_digit_ascii b : is_digit b → is_ascii b.
Proof. unfold is_digit, is_ascii. lia. Qed.

Lemma read_until_lf_line x y : LF ∉ x → read_until_lf (x ++ LF :: y) = (x ++ [LF], y).
Proof. intros. unfold read_until_lf. by rewrite split_once_app. Qed.

(** ** Lines that the body of a loop passes over. *)
Section LinesLemmas.
Context {E A : Type}.
Variables (bad_line at_end in_time : E) (found : str → option (result E A)).
#[local] Abbreviation loop := (for_lines bad_line at_end in_time found).

Record noise (l : str) : Prop := {
  no_lf : LF ∉ l;
  no_utf8 : utf8 l = true;
  no_find : found (strip_cr l) = None;
}.

Definition as_lines (ls : list str) : bytes := concat ((λ l, l ++ [LF]) <$> ls).

Lemma for_lines_noise ls pieces e :
  Forall noise ls → pieces ≠ [] → loop (ls ++ pieces) e = loop pieces e.
Proof.
  intros Hls Hp. induction Hls as [|l ls [_ Hu Hf] _ IH]; [done|]. rewrite <- IH. cbn [app].
  destruct (ls ++ pieces) as [|l' ls'] eqn:Ep; [by destruct ls|].
  cbn [for_lines]. unfold on_line. by rewrite Hu, Hf.
Qed.

Lemma split_as_lines ls y : Forall noise ls → split LF (as_lines ls ++ y) = ls ++ split LF y.
Proof.
  induction 1 as [|l ls Hl _ IH]; [done|]. unfold as_lines in *. rewrite fmap_cons. cbn [concat].
  rewrite <- !app_assoc. cbn [app]. rewrite split_line by apply Hl. by rewrite IH.
Qed.

(** Nothing but noise: the loop ends with the text, or with the time. *)
Lemma for_lines_nothing ls e :
  Forall noise ls → loop (split LF (as_lines ls)) e = Err (if e then at_end else in_time).
Proof.
  intros Hls. rewrite <- (app_nil_r (as_lines ls)), split_as_lines by done.
  rewrite for_lines_noise by done. by destruct e.
Qed.

(** The first line the body answers decides, whatever follows it. *)
Lemma for_lines_found ls l v after e :
  Forall noise ls → LF ∉ l → utf8 l = true → found (strip_cr l) = Some v →
  loop (split LF (as_lines ls ++ l ++ [LF] ++ after)) e = v.
Proof.
  intros Hls Hlf Hu Hv. rewrite split_as_lines by done. cbn [app].
  rewrite split_line by done. rewrite for_lines_noise by done.
  pose proof (split_ne LF after). destruct (split LF after) as [|s ss]; [done|].
  change (loop (l :: s :: ss) e) with (on_line bad_line found l (strip_cr l) (loop (s :: ss) e)).
  unfold on_line. by rewrite Hu, Hv.
Qed.

(** A line that is not UTF-8 ends the loop. *)
Lemma for_lines_bad ls l after e :
  Forall noise ls → LF ∉ l → utf8 l = false →
  loop (split LF (as_lines ls ++ l ++ [LF] ++ after)) e = Err bad_line.
Proof.
  intros Hls Hlf Hu. rewrite split_as_lines by done. cbn [app].
  rewrite split_line by done. rewrite for_lines_noise by done.
  pose proof (split_ne LF after). destruct (split LF after) as [|s ss]; [done|].
  change (loop (l :: s :: ss) e) with (on_line bad_line found l (strip_cr l) (loop (s :: ss) e)).
  unfold on_line. by rewrite Hu.
Qed.
End LinesLemmas.

(** [str::contains]. *)
Definition contains (p l : str) : bool := is_some (find_window p l).

(** ** Finding a window behind text that cannot contain it. *)
Fixpoint mismatch (p x : str) : bool :=
  match p, x with
  | a :: p, b :: x => negb (bool_decide (a = b)) || mismatch p x
  | _, _ => false
  end.

Definition never_starts (p x : str) : bool :=
  forallb (λ i, mismatch p (drop i x)) (seq 0 (length x)).

Lemma mismatch_strip p x l : mismatch p x = true → strip_prefix p (x ++ l) = None.
Proof.
  revert x. induction p as [|a p IH]; intros [|b x]; cbn; try done.
  intros [Hab%negb_true_iff%bool_decide_eq_false|H]%orb_prop; [by rewrite decide_False|].
  case_decide; [|done]. by apply IH.
Qed.

Lemma find_window_skip p x l :
  never_starts p x = true → find_window p (x ++ l) = Nat.add (length x) <$> find_window p l.
Proof.
  unfold never_starts. rewrite forallb_forall. intros H.
  assert (∀ i, (i < length x)%nat → mismatch p (drop i x) = true) as Hm.
  { intros i Hi. apply H. apply list_elem_of_In, elem_of_seq. lia. }
  clear H. induction x as [|b x IH].
  { cbn [app length]. by destruct (find_window p l). }
  cbn [app find_window]. pose proof (mismatch_strip p (b :: x) l (Hm 0%nat (Nat.lt_0_succ _))) as Hs.
  cbn [app] in Hs. rewrite Hs, IH by (intros i Hi; apply (Hm (S i)); cbn; lia).
  by destruct (find_window p l).
Qed.

Lemma find_window_here p l : find_window p (p ++ l) = Some 0%nat.
Proof. destruct (p ++ l) eqn:E; cbn; rewrite <- E, (proj2 (strip_prefix_Some _ _ _) eq_refl); done. Qed.

Lemma find_window_bound p l i : find_window p l = Some i → (i + length p ≤ length l)%nat.
Proof.
  revert i. induction l as [|b l IH]; intros i; cbn [find_window];
    destruct (strip_prefix p _) as [r|] eqn:E.
  1,3: intros [= <-]; apply strip_prefix_Some, (f_equal length) in E; rewrite length_app in E; lia.
  - done.
  - intros (j & Hj & ->)%fmap_Some. apply IH in Hj. cbn. lia.
Qed.

(** Text without the first byte of the window. *)
Lemma never_starts_notin a p x : a ∉ x → never_starts (a :: p) x = true.
Proof.
  intros Hx. unfold never_starts. apply forallb_forall. intros i Hi%list_elem_of_In%elem_of_seq.
  destruct (drop i x) as [|b y] eqn:E.
  { apply (f_equal length) in E. rewrite length_drop in E. cbn in E. lia. }
  cbn [mismatch]. rewrite bool_decide_eq_false_2; [done|]. intros ->. apply Hx.
  rewrite <- (take_drop i x), E. set_solver.
Qed.

(** A window that is there is found. *)
Lemma find_window_app p x l : is_Some (find_window p (x ++ p ++ l)).
Proof.
  induction x as [|b x IH]; [cbn [app]; rewrite find_window_here; eauto|]. cbn [app find_window].
  destruct (strip_prefix p _); [eauto|]. destruct IH as [i ->]. cbn. eauto.
Qed.

(** A visible byte: no white-space character starts or ends with it. *)
Definition graphic (b : byte) : Prop := 0x21 ≤ bz b ≤ 0x7E.
#[global] Instance graphic_dec b : Decision (graphic b).
Proof. unfold graphic; apply _. Defined.

Lemma contains_app p x l : contains p (x ++ p ++ l) = true.
Proof. unfold contains. by destruct (find_window_app p x l) as [i ->]. Qed.

Lemma ws_len_graphic b l : graphic b → ws_len (b :: l) = 0%nat.
Proof.
  unfold graphic, ws_len, is_ascii_ws. intros Hb.
  replace ((9 <=? bz b) && (bz b <=? 13) || (bz b =? 32)) with false by lia.
  destruct l as [|b1 l]; [done|]. replace (bz b =? 194) with false by lia. cbn [andb].
  destruct l as [|b2 l]; [done|]. pose proof (bz_range b1). pose proof (bz_range b2).
  case_match eqn:E; [|done].
  repeat (apply orb_prop in E as [E|E]); try apply andb_prop in E as [E ?]; lia.
Qed.

Lemma ws_len_2_graphic a b : graphic b → ws_len [a; b] ≠ 2%nat.
Proof.
  unfold graphic. intros Hb. cbn [ws_len]. case_match; [done|].
  by replace ((bz a =? 194) && ((bz b =? 133) || (bz b =? 160))) with false by lia.
Qed.

Lemma ws_len_3_graphic c a b : graphic b → ws_len [c; a; b] ≠ 3%nat.
Proof.
  unfold graphic. intros Hb. cbn [ws_len]. case_match; [done|]. case_match; [done|].
  pose proof (bz_range a). pose proof (bz_range c).
  case_match eqn:E; [|done].
  repeat (apply orb_prop in E as [E|E]); try apply andb_prop in E as [E ?]; lia.
Qed.

Lemma ws_len_rev_graphic b l : graphic b → ws_len_rev (b :: l) = 0%nat.
Proof.
  intros Hb. unfold ws_len_rev. cbn [take rev app].
  rewrite (decide_False (P := ws_len [b] = 1%nat)) by (by rewrite ws_len_graphic).
  destruct l as [|b1 l]; cbn [take rev app].
  { by rewrite !decide_False by (by rewrite ws_len_graphic). }
  rewrite decide_False by by apply ws_len_2_graphic.
  destruct l as [|b2 l]; cbn [take rev app].
  - rewrite decide_False; [done|]. cbn [ws_len]. by repeat case_match.
  - by rewrite decide_False by by apply ws_len_3_graphic.
Qed.

Lemma trim_by_0 f fuel l : f l = 0%nat → trim_by f fuel l = l.
Proof. intros Hf. destruct fuel; cbn; [done|]. by rewrite Hf. Qed.

(** Text that begins and ends with visible bytes is its own [trim]. *)
Lemma trim_graphic a m : graphic a → (∀ b, last (a :: m) = Some b → graphic b) → trim (a :: m) = a :: m.
Proof.
  intros Ha Hb. unfold trim, trim_start.
  rewrite trim_by_0 by by apply ws_len_graphic. unfold trim_end.
  destruct (rev (a :: m)) as [|b r] eqn:E.
  { apply (f_equal (@rev byte)) in E. by rewrite rev_involutive in E. }
  rewrite trim_by_0.
  - by rewrite <- E, rev_involutive.
  - apply ws_len_rev_graphic, Hb. apply (f_equal (@rev byte)) in E. rewrite rev_involutive in E.
    rewrite E. cbn [rev]. apply last_snoc.
Qed.

Lemma trim_all_graphic l : Forall graphic l → trim l = l.
Proof.
  intros Hl. destruct l as [|a m]; [done|]. rewrite Forall_forall in Hl.
  apply trim_graphic; [apply Hl; set_solver|].
  intros b Hb. apply Hl. by apply last_Some_elem_of.
Qed.

(** ... also when ASCII white space follows it. *)
Lemma trim_by_one f fuel b l : f (b :: l) = 1%nat → trim_by f (S fuel) (b :: l) = trim_by f fuel l.
Proof. intros Hf. cbn [trim_by]. by rewrite Hf. Qed.

Lemma ws_len_rev_ascii b l : is_ascii_ws b = true → ws_len_rev (b :: l) = 1%nat.
Proof. intros Hb. unfold ws_len_rev.
  change (rev (take 1 (b :: l))) with [b]. rewrite decide_True; [done|].
  change (ws_len [b]) with (if is_ascii_ws b then 1%nat else 0%nat). by rewrite Hb.
Qed.

Lemma trim_ends a m :
  graphic a → (∀ b, last (a :: m) = Some b → graphic b) → trim ((a :: m) ++ [LF]) = a :: m.
Proof.
  intros Ha Hb. unfold trim, trim_start. cbn [app].
  rewrite trim_by_0 by by apply ws_len_graphic.
  unfold trim_end. change (a :: m ++ [LF]) with ((a :: m) ++ [LF]).
  rewrite rev_app_distr, length_app. cbn [rev app]. rewrite Nat.add_comm. cbn [Nat.add length].
  rewrite trim_by_one by by apply ws_len_rev_ascii.
  destruct (rev m ++ [a]) as [|b r] eqn:E; [by destruct (rev m)|].
  rewrite trim_by_0.
  - rewrite <- E. by rewrite rev_app_distr, rev_involutive.
  - apply ws_len_rev_graphic, Hb. change (rev (a :: m) = b :: r) in E.
    apply (f_equal (@rev byte)) in E. rewrite rev_involutive in E. rewrite E. cbn [rev]. apply last_snoc.
Qed.

Lemma trim_line l : l ≠ [] → Forall graphic l → trim (l ++ [LF]) = l.
Proof.
  intros Hne Hl. destruct l as [|a m]; [done|]. rewrite Forall_forall in Hl.
  apply trim_ends; [apply Hl; set_solver|]. intros b Hb. apply Hl. by apply last_Some_elem_of.
Qed.

Lemma graphic_ne b c : graphic b → (bz c < 0x21 ∨ 0x7E < bz c) → b ≠ c.
Proof. unfold graphic. intros ? ? ->. lia. Qed.

Lemma graphic_notin l c : Forall graphic l → (bz c < 0x21 ∨ 0x7E < bz c) → c ∉ l.
Proof. intros Hl Hc Hin. rewrite Forall_forall in Hl. by apply (graphic_ne c c (Hl _ Hin)). Qed.

Lemma graphic_ascii b : graphic b → is_ascii b.
Proof. unfold graphic, is_ascii. lia. Qed.

Lemma is_digit_graphic b : is_digit b → graphic b.
Proof. unfold is_digit, graphic. lia. Qed.

#[export] Hint Resolve is_digit_ascii is_digit_graphic graphic_ascii : quicmix.

Example lossy_demo : from_utf8_lossy [Byte.x61; zb 0xE2; zb 0x82; Byte.x62] = [Byte.x61] ++ REPLACEMENT ++ [Byte.x62].
Proof. reflexivity. Qed.
Example words_demo : split_whitespace (bs "  prog  --hops 3 ") = [bs "prog"; bs "--hops"; bs "3"].
Proof. reflexivity. Qed.
