(* ===== verification/Core.v ===== *)
(** * The transport seam: [crates/quicmix/src/lib.rs].

    [OracleParams] with its derived quantities, the typed boundary error, and
    the [MixTransport] trait as a type class whose two default methods are
    definitions.  [MixTransportLaws] states what every substrate of the
    repository promises about its lossy methods; clients are proved against it. *)

From S2P Require Import Prelude RustFloat.
Open Scope Z_scope.

Inductive SubstrateKind : Set := Datagram | Stream.

#[global] Instance SubstrateKind_eq_dec : EqDecision SubstrateKind.
Proof. solve_decision. Defined.

(** [hops : u32], [mean_hop_delay], [slot_interval : Duration],
    [drop_prob : f64], [mtu : usize]. *)
Record OracleParams := mkOracleParams {
  hops : Z;
  mean_hop_delay : Z;
  drop_prob : spec_float;
  slot_interval : Z;
  mtu : Z;
}.

#[global] Instance spec_float_eq_dec : EqDecision spec_float.
Proof. solve_decision. Defined.
#[global] Instance OracleParams_eq_dec : EqDecision OracleParams.
Proof. solve_decision. Defined.

(** Values the Rust types admit. *)
Definition oracle_ok (p : OracleParams) : Prop :=
  in_u 32 (hops p) ∧ duration_ok (mean_hop_delay p) ∧
  duration_ok (slot_interval p) ∧ in_u 64 (mtu p).

#[global] Instance oracle_ok_dec p : Decision (oracle_ok p).
Proof. unfold oracle_ok; apply _. Defined.

(** [OracleParams::rtt]; [None] is the panic of [Duration]'s multiplication. *)
Definition rtt (p : OracleParams) : option Z :=
  d ← duration_mul (mean_hop_delay p) (hops p);
  duration_mul d 2.

(** [OracleParams::loss_time_threshold]. *)
Definition loss_time_threshold (pr : profile) (p : OracleParams) : option spec_float :=
  n ← umul pr 32 2 (Z.max (hops p) 1);
  Some (fmax (fadd binary32 (of_int binary32 1)
                (fdiv binary32 (lit binary32 31 10) (fsqrt binary32 (of_int binary32 n))))
             (lit binary32 15 10)).

(** The floor of the threshold, [1.5f32]. *)
Definition threshold_floor : spec_float := lit binary32 15 10.

Inductive SubstrateError : Set :=
| Closed
| Timeout
| Malformed
| AuthFailed
| RemoteRejected
| Backpressure
| Io (msg : string).

#[global] Instance SubstrateError_eq_dec : EqDecision SubstrateError.
Proof. solve_decision. Defined.

(** [impl Display for SubstrateError]. *)
Definition SubstrateError_fmt (e : SubstrateError) : string :=
  match e with
  | Closed => "substrate closed"
  | Timeout => "substrate timeout"
  | Malformed => "malformed substrate frame"
  | AuthFailed => "substrate auth failed"
  | RemoteRejected => "substrate remote rejected"
  | Backpressure => "substrate send queue full (backpressure)"
  | Io e => "substrate io: " +:+ e
  end.

(** An [async fn] either resolves or stays pending in the current state. *)
Inductive poll (A : Type) : Type := Ready (a : A) | Pending.
Arguments Ready {A} a.
Arguments Pending {A}.

#[global] Instance poll_fmap : FMap poll := λ A B f p,
  match p with Ready a => Ready (f a) | Pending => Pending end.

(** The [MixTransport] trait.  [T] is the state behind [&self]; a send is one
    atomic step, a receive may be pending. *)
Class MixTransport (T : Type) := {
  kind : T → SubstrateKind;
  oracle : T → OracleParams;
  send : bytes → T → T;
  recv : T → poll (option bytes * T);
  try_send : bytes → T → result SubstrateError unit * T;
  try_recv : T → poll (result SubstrateError bytes * T);
}.

(** The trait's default methods. *)
Definition default_kind : SubstrateKind := Datagram.

Definition default_try_send {T} (send : bytes → T → T)
    (datagram : bytes) (t : T) : result SubstrateError unit * T :=
  (Ok (), send datagram t).

Definition default_try_recv {T} (recv : T → poll (option bytes * T))
    (t : T) : poll (result SubstrateError bytes * T) :=
  prod_map (λ o, ok_or o Closed) id <$> recv t.

(** [let _ = self.try_send(d).await] and [self.try_recv().await.ok()], the
    lossy methods of the substrates that override the fallible ones. *)
Definition send_of_try_send {T} (ts : bytes → T → result SubstrateError unit * T)
    (datagram : bytes) (t : T) : T := (ts datagram t).2.
Definition recv_of_try_recv {T} (tr : T → poll (result SubstrateError bytes * T))
    (t : T) : poll (option bytes * T) :=
  prod_map result_ok id <$> tr t.

(** What a substrate promises: the lossy methods act on the state exactly as
    the fallible ones and forget only the error. *)
Class MixTransportLaws (T : Type) `{MixTransport T} : Prop := {
  send_try_send : ∀ d t, send d t = (try_send d t).2;
  recv_try_recv : ∀ t, recv t = prod_map result_ok id <$> try_recv t;
}.

Lemma default_recv_law {T} (r : T → poll (option bytes * T)) t :
  r t = prod_map result_ok id <$> default_try_recv r t.
Proof. unfold default_try_recv. by destruct (r t) as [[[] ?]|]. Qed.

(** ** Properties. *)

Lemma rtt_Some p v :
  rtt p = Some v ↔
  v = 2 * hops p * mean_hop_delay p ∧ duration_ok (mean_hop_delay p * hops p) ∧
  duration_ok (2 * hops p * mean_hop_delay p).
Proof.
  unfold rtt. rewrite bind_Some. setoid_rewrite duration_mul_Some.
  split.
  - intros (d & [-> ?] & [-> ?]). replace (2 * hops p * mean_hop_delay p)
      with (mean_hop_delay p * hops p * 2) by lia. auto.
  - intros (-> & ? & ?). exists (mean_hop_delay p * hops p).
    replace (mean_hop_delay p * hops p * 2) with (2 * hops p * mean_hop_delay p) by lia. auto.
Qed.

(** A path short enough for [Duration] has a round trip, and it is twice the
    one-way Erlang mean. *)
Lemma rtt_total p :
  0 ≤ hops p → 0 ≤ mean_hop_delay p →
  2 * hops p * mean_hop_delay p < 2 ^ 64 * NANOS_PER_SEC →
  rtt p = Some (2 * hops p * mean_hop_delay p).
Proof. intros. apply rtt_Some. unfold duration_ok. repeat split; nia. Qed.

Lemma loss_time_threshold_Some pr p :
  in_u 32 (hops p) → pr = Release ∨ hops p < 2 ^ 31 →
  is_Some (loss_time_threshold pr p).
Proof.
  intros Hh Hpr. unfold loss_time_threshold, umul, uint.
  case_decide as Hd; [by eexists|].
  destruct pr; [|by eexists]. exfalso. apply Hd.
  destruct Hpr as [|?]; [done|]. unfold in_u in *. lia.
Qed.

Lemma loss_time_threshold_floor pr p t :
  loss_time_threshold pr p = Some t →
  is_nan t = false ∧ SFleb threshold_floor t = true.
Proof.
  unfold loss_time_threshold. rewrite bind_Some. intros (n & _ & [= <-]).
  by apply fmax_spec.
Qed.

(** ** An in-memory substrate for concrete runs: a queue that hands back what
    was sent and never fails.  Not code of the repository; the witnesses of the
    generic theorems use it as their inner transport. *)
Module Loopback.
Record t := mk { queued : list bytes; params : OracleParams }.

Definition send (d : bytes) (l : t) : t := mk (queued l ++ [d]) (params l).
Definition recv (l : t) : poll (option bytes * t) :=
  match queued l with [] => Pending | d :: q => Ready (Some d, mk q (params l)) end.

#[global] Instance transport : MixTransport t := {
  kind _ := default_kind;
  oracle := params;
  send := send;
  recv := recv;
  try_send := default_try_send send;
  try_recv := default_try_recv recv;
}.

#[global] Instance laws : MixTransportLaws t.
Proof. split; [done|]. apply default_recv_law. Qed.
End Loopback.
