(* ===== verification/Mix64.v ===== *)
(** * Distinct 64-bit values from a counter: the mixer two crates use in place of a
    random generator ([instance_token] of [quicmix-katzenpost/src/lib.rs] and
    [rand_id] of [quicmix-nym/src/bin/nym_rotate.rs]).

    A static counter advanced by an odd step, and a bijection of 64-bit words. *)

From S2P Require Import Prelude Core.
From coqutil Require Import Word.LittleEndianList.
Open Scope Z_scope.

Definition TOKEN_STEP : Z := 0x9E3779B97F4A7C15.
Definition TOKEN_MUL : Z := 0xBF58476D1CE4E5B9.

(** One half of a token from the counter value it fetched. *)
Definition token_mix (x : Z) : Z :=
  let x := Z.lxor x (Z.shiftr x 30) in
  let x := wrap 64 (x * TOKEN_MUL) in
  Z.lxor x (Z.shiftr x 27).

(** ** Injectivity. *)
Lemma xorshift_inj s x y :
  0 < s → in_u 64 x → in_u 64 y →
  Z.lxor x (Z.shiftr x s) = Z.lxor y (Z.shiftr y s) → x = y.
Proof.
  intros Hs Hx Hy E. unfold in_u in *.
  assert (∀ n : nat, ∀ i, 0 ≤ i → 64 - i ≤ Z.of_nat n → Z.testbit x i = Z.testbit y i) as H.
  { induction n as [|n IH]; intros i Hi Hn.
    - assert (∀ z, 0 ≤ z < 2 ^ 64 → Z.testbit z i = false) as Hz.
      { intros z Hz. destruct (Z.eqb_spec z 0) as [->|]; [apply Z.testbit_0_l|].
        apply Z.bits_above_log2; [lia|]. apply Z.log2_lt_pow2; [lia|].
        pose proof (Z.pow_le_mono_r 2 64 i). lia. }
      by rewrite !Hz.
    - apply (f_equal (λ z, Z.testbit z i)) in E. rewrite !Z.lxor_spec, !Z.shiftr_spec in E by lia.
      rewrite (IH (i + s)) in E by lia.
      by destruct (Z.testbit x i), (Z.testbit y i), (Z.testbit y (i + s)). }
  apply Z.bits_inj'. intros i Hi. apply (H (Z.to_nat (64 - i))); lia.
Qed.

Lemma mul_mod_inj (m inv x y : Z) :
  wrap 64 (m * inv) = 1 → in_u 64 x → in_u 64 y → wrap 64 (x * m) = wrap 64 (y * m) → x = y.
Proof.
  intros Hinv Hx Hy E. unfold in_u, wrap in *.
  apply (f_equal (λ z, (z * inv) mod 2 ^ 64)) in E. rewrite !Zmult_mod_idemp_l in E.
  rewrite <- !Z.mul_assoc in E.
  rewrite <- (Zmult_mod_idemp_r (m * inv) x), <- (Zmult_mod_idemp_r (m * inv) y), Hinv, !Z.mul_1_r in E.
  by rewrite !Z.mod_small in E.
Qed.

Lemma lxor_range x y : in_u 64 x → in_u 64 y → in_u 64 (Z.lxor x y).
Proof.
  unfold in_u. intros Hx Hy. assert (0 ≤ Z.lxor x y) as H0 by (apply Z.lxor_nonneg; lia).
  split; [done|]. destruct (Z.eqb_spec (Z.lxor x y) 0) as [->|]; [lia|].
  apply Z.log2_lt_pow2; [lia|]. pose proof (Z.log2_lxor x y ltac:(lia) ltac:(lia)).
  assert (∀ z, 0 ≤ z < 2 ^ 64 → Z.log2 z < 64) as Hl.
  { intros z Hz. destruct (Z.eqb_spec z 0) as [->|]; [by vm_compute|]. apply Z.log2_lt_pow2; lia. }
  pose proof (Hl x Hx). pose proof (Hl y Hy). lia.
Qed.

Lemma shiftr_range x s : 0 ≤ s → in_u 64 x → in_u 64 (Z.shiftr x s).
Proof.
  unfold in_u. intros Hs Hx. rewrite Z.shiftr_div_pow2 by lia.
  pose proof (Z.pow_pos_nonneg 2 s). split; [apply Z.div_pos; lia|].
  apply Z.div_lt_upper_bound; [lia|]. nia.
Qed.

Lemma token_mix_inj x y : in_u 64 x → in_u 64 y → token_mix x = token_mix y → x = y.
Proof.
  intros Hx Hy E. unfold token_mix in E.
  assert (∀ z, in_u 64 (wrap 64 z)) as Hw by (intros; by apply wrap_range).
  apply xorshift_inj in E; [|lia|done|done].
  apply (mul_mod_inj _ 0x96de1b173f119089) in E; [|by vm_compute|apply lxor_range..];
    auto using shiftr_range with lia.
  by apply xorshift_inj in E.
Qed.

Lemma token_mix_range x : in_u 64 x → in_u 64 (token_mix x).
Proof. intros Hx. unfold token_mix. apply lxor_range; [|apply shiftr_range; [lia|]]; by apply wrap_range. Qed.

Lemma le_split_8_inj x y : in_u 64 x → in_u 64 y → le_split 8 x = le_split 8 y → x = y.
Proof.
  intros Hx Hy E%(f_equal le_combine). rewrite !le_combine_split in E.
  change (8 * Z.of_nat 8) with 64 in E. by rewrite !Z.mod_small in E.
Qed.

Lemma step_inj c a b :
  0 ≤ a < 2 ^ 64 → 0 ≤ b < 2 ^ 64 →
  wrap 64 (c + a * TOKEN_STEP) = wrap 64 (c + b * TOKEN_STEP) → a = b.
Proof.
  intros Ha Hb E. apply (mul_mod_inj TOKEN_STEP 0xf1de83e19937733d); [by vm_compute|done|done|].
  unfold wrap in *. apply (f_equal (λ z, (z - c) mod 2 ^ 64)) in E.
  rewrite !Zminus_mod_idemp_l in E. replace (c + a * TOKEN_STEP - c) with (a * TOKEN_STEP) in E by lia.
  by replace (c + b * TOKEN_STEP - c) with (b * TOKEN_STEP) in E by lia.
Qed.

(** A call: the value of the counter mixed, and the counter advanced. *)
Definition mixed (ctr : Z) : bytes * Z := (le_split 8 (token_mix ctr), wrap 64 (ctr + TOKEN_STEP)).

Lemma mixed_inj a b start :
  0 ≤ a < 2 ^ 64 → 0 ≤ b < 2 ^ 64 →
  (mixed (wrap 64 (start + a * TOKEN_STEP))).1 = (mixed (wrap 64 (start + b * TOKEN_STEP))).1 → a = b.
Proof.
  intros Ha Hb E. cbn in E. apply le_split_8_inj in E; [|apply token_mix_range, wrap_range; lia..].
  apply token_mix_inj in E; [|apply wrap_range; lia..]. by apply step_inj in E.
Qed.
