(* ===== verification/Oracle.v ===== *)
(** * Online oracle estimation: [crates/quicmix/src/oracle.rs].

    The bounded window of round-trip samples, its order statistics (with the
    source's floating-point index arithmetic) and the measured parameters. *)

From S2P Require Import Prelude RustFloat Core.
From stdpp Require Import sorting.
Open Scope Z_scope.

Definition MAX_RTT_SAMPLES : nat := 256.

(** [rtt_ns : Vec<u128>], [sent], [lost : u64], [hops : u32], [mtu : usize]. *)
Record OracleEstimator := mkOracleEstimator {
  rtt_ns : list Z;
  sent : Z;
  lost : Z;
  est_hops : Z;
  est_mtu : Z;
  est_slot_interval : Z;
}.

Definition new (hops mtu slot_interval : Z) : OracleEstimator :=
  {| rtt_ns := []; sent := 0; lost := 0; est_hops := Z.max hops 1;
     est_mtu := mtu; est_slot_interval := slot_interval |}.

Definition with_rtt_ns (e : OracleEstimator) (v : list Z) : OracleEstimator :=
  {| rtt_ns := v; sent := sent e; lost := lost e; est_hops := est_hops e;
     est_mtu := est_mtu e; est_slot_interval := est_slot_interval e |}.

Definition record_rtt (rtt : Z) (e : OracleEstimator) : OracleEstimator :=
  let v := if decide (MAX_RTT_SAMPLES ≤ length (rtt_ns e))%nat
           then tail (rtt_ns e)  (* remove(0) *)
           else rtt_ns e in
  with_rtt_ns e (v ++ [rtt]).

Definition record_acks (sent' lost' : Z) (e : OracleEstimator) : OracleEstimator :=
  {| rtt_ns := rtt_ns e; sent := sent'; lost := lost'; est_hops := est_hops e;
     est_mtu := est_mtu e; est_slot_interval := est_slot_interval e |}.

Definition samples (e : OracleEstimator) : nat := length (rtt_ns e).

Definition sorted (e : OracleEstimator) : list Z := merge_sort Z.le (rtt_ns e).

(** The index of the [q]-quantile in a sorted vector of [n > 0] samples:
    [(((v.len() - 1) as f64) * q).round() as usize]. *)
Definition pick_index (n : nat) (q : spec_float) : Z :=
  as_u 64 (fround binary64 (fmul binary64 (of_int binary64 (Z.of_nat n - 1)) q)).

(** [Duration::from_nanos(v[idx] as u64)]; [None] is the index panic. *)
Definition pick (v : list Z) (q : spec_float) : option Z :=
  x ← v !! Z.to_nat (pick_index (length v) q);
  Some (from_nanos (wrap 64 x)).

Definition q50 : spec_float := lit binary64 50 100.
Definition q90 : spec_float := lit binary64 90 100.
Definition q99 : spec_float := lit binary64 99 100.

Definition rtt_percentiles (e : OracleEstimator) : option (Z * Z * Z) :=
  let v := sorted e in
  match v with
  | [] => Some (0, 0, 0)
  | _ => p50 ← pick v q50; p90 ← pick v q90; p99 ← pick v q99; Some (p50, p90, p99)
  end.

(** What [observe_connection] reads of a live [quinn::Connection]. *)
Record PathStats := mkPathStats {
  ps_rtt : Z;
  sent_packets : Z;
  lost_packets : Z;
  lost_bytes : Z;
  congestion_events : Z;
}.

Definition observe_connection (c : PathStats) (e : OracleEstimator) : OracleEstimator :=
  record_acks (sent_packets c) (lost_packets c) (record_rtt (ps_rtt c) e).

(** [0] when empty, otherwise [v[v.len() / 2]]. *)
Definition median_rtt_ns (e : OracleEstimator) : option Z :=
  let v := sorted e in
  match v with [] => Some 0 | _ => v !! (length v / 2)%nat end.

Definition jitter_ratio (e : OracleEstimator) : option spec_float :=
  if decide (length (rtt_ns e) < 2)%nat then Some (S754_zero false)
  else
    let v := sorted e in
    m ← v !! (length v / 2)%nat;
    let med := of_int binary32 m in
    let idx := Z.min (as_u 64 (fmul binary32 (of_int binary32 (Z.of_nat (length v)))
                                 (lit binary32 999 1000)))
                 (Z.of_nat (length v) - 1) in
    x ← v !! Z.to_nat idx;
    let p999 := of_int binary32 x in
    Some (if SFltb (S754_zero false) med
          then fmax (fdiv binary32 p999 med) threshold_floor
          else S754_zero false).

Definition estimate (e : OracleEstimator) : option OracleParams :=
  m ← median_rtt_ns e;
  let one_way_ns := m / 2 in
  (* [u128] division by [hops as u128] panics on zero. *)
  per_hop_ns ← (if est_hops e =? 0 then None else Some (one_way_ns / est_hops e));
  let drop := if 0 <? sent e
              then fdiv binary64 (of_int binary64 (lost e)) (of_int binary64 (sent e))
              else S754_zero false in
  Some {| hops := est_hops e;
          mean_hop_delay := from_nanos (wrap 64 per_hop_ns);
          drop_prob := drop;
          slot_interval := est_slot_interval e;
          mtu := est_mtu e |}.

(** ** The window. *)

(** Invariant: a window of at most [MAX_RTT_SAMPLES] durations, one hop at least. *)
Record estimator_ok (e : OracleEstimator) : Prop := {
  ok_window : (length (rtt_ns e) ≤ MAX_RTT_SAMPLES)%nat;
  ok_samples : Forall duration_ok (rtt_ns e);
  ok_hops : 1 ≤ est_hops e;
}.

Lemma new_ok h m s : estimator_ok (new h m s).
Proof. split; simpl; [unfold MAX_RTT_SAMPLES; lia|constructor|lia]. Qed.

Lemma record_rtt_ok r e : duration_ok r → estimator_ok e → estimator_ok (record_rtt r e).
Proof.
  intros Hr [Hw Hs Hh]. unfold record_rtt.
  split; simpl; [| |done].
  - rewrite length_app. simpl. case_decide.
    + destruct (rtt_ns e) as [|x v]; simpl in *; unfold MAX_RTT_SAMPLES in *; lia.
    + lia.
  - apply Forall_app. split; [|by constructor].
    case_decide; [|done]. destruct Hs; simpl; [constructor|done].
Qed.

Lemma record_acks_ok s l e : estimator_ok e → estimator_ok (record_acks s l e).
Proof. by intros []. Qed.

Lemma observe_connection_ok c e :
  duration_ok (ps_rtt c) → estimator_ok e → estimator_ok (observe_connection c e).
Proof. intros. by apply record_acks_ok, record_rtt_ok. Qed.

#[export] Hint Resolve new_ok record_rtt_ok record_acks_ok observe_connection_ok : quicmix.

Lemma record_rtt_window r e l :
  rtt_ns e = last_n MAX_RTT_SAMPLES l →
  rtt_ns (record_rtt r e) = last_n MAX_RTT_SAMPLES (l ++ [r]).
Proof.
  intros He. unfold record_rtt. simpl. rewrite He, last_n_length.
  case_decide as Hd.
  - rewrite last_n_snoc_full; [done|unfold MAX_RTT_SAMPLES in *; lia|lia].
  - assert (length l < MAX_RTT_SAMPLES)%nat by lia.
    rewrite !last_n_all; [done| |lia]. rewrite length_app. simpl. lia.
Qed.

(** Recording a sequence of round trips, oldest first. *)
Definition record_all (rs : list Z) (e : OracleEstimator) : OracleEstimator :=
  foldl (λ e r, record_rtt r e) e rs.

Lemma record_all_window rs e l :
  rtt_ns e = last_n MAX_RTT_SAMPLES l →
  rtt_ns (record_all rs e) = last_n MAX_RTT_SAMPLES (l ++ rs).
Proof.
  revert e l. induction rs as [|r rs IH]; intros e l He; simpl.
  - by rewrite app_nil_r.
  - rewrite (IH _ (l ++ [r])) by by apply record_rtt_window.
    by rewrite <- app_assoc.
Qed.

Lemma record_all_fields rs e :
  est_hops (record_all rs e) = est_hops e ∧ est_mtu (record_all rs e) = est_mtu e ∧
  est_slot_interval (record_all rs e) = est_slot_interval e ∧
  sent (record_all rs e) = sent e ∧ lost (record_all rs e) = lost e.
Proof.
  revert e. induction rs as [|r rs IH]; intros e; [done|].
  unfold record_all in *. simpl. apply (IH (record_rtt r e)).
Qed.

Lemma record_all_ok rs e :
  Forall duration_ok rs → estimator_ok e → estimator_ok (record_all rs e).
Proof.
  intros Hrs. revert e. induction Hrs; simpl; intros; auto.
  apply IHHrs. by apply record_rtt_ok.
Qed.

(** ** Order statistics. *)

Lemma sorted_perm e : sorted e ≡ₚ rtt_ns e.
Proof. apply merge_sort_Permutation. Qed.

Lemma sorted_length e : length (sorted e) = length (rtt_ns e).
Proof. by rewrite sorted_perm. Qed.

Lemma sorted_mono e i j x y :
  sorted e !! i = Some x → sorted e !! j = Some y → (i ≤ j)%nat → x ≤ y.
Proof.
  intros Hi Hj Hij.
  assert (HS : StronglySorted Z.le (sorted e)) by (apply StronglySorted_merge_sort; apply _).
  revert i j Hi Hj Hij. induction HS as [|z l HS IH Hall]; intros [|i] [|j] Hi Hj Hij;
    simpl in *; simplify_eq; try lia.
  - rewrite Forall_forall in Hall. apply Hall, list_elem_of_lookup. eauto.
  - eapply IH; eauto with lia.
Qed.

Lemma sorted_elem e i x : sorted e !! i = Some x → x ∈ rtt_ns e.
Proof. intros H. rewrite <- sorted_perm. apply list_elem_of_lookup. eauto. Qed.

(** The floating-point indices, checked for every window size. *)
Definition index_table_ok (n : nat) : bool :=
  let k := Z.of_nat n in
  (pick_index n q50 =? k / 2) && (pick_index n q90 =? (9 * (k - 1) + 5) / 10)
  && (pick_index n q99 =? (99 * (k - 1) + 50) / 100).

Lemma index_table_window n :
  (1 ≤ n ≤ MAX_RTT_SAMPLES)%nat → index_table_ok n = true.
Proof.
  intros Hn.
  assert (H : forallb index_table_ok (seq 1 MAX_RTT_SAMPLES) = true)
    by (vm_compute; reflexivity).
  rewrite forallb_forall in H. apply H, in_seq. unfold MAX_RTT_SAMPLES in *. lia.
Qed.

Lemma pick_indices n :
  (1 ≤ n ≤ MAX_RTT_SAMPLES)%nat →
  let k := Z.of_nat n in
  pick_index n q50 = k / 2 ∧ pick_index n q90 = (9 * (k - 1) + 5) / 10 ∧
  pick_index n q99 = (99 * (k - 1) + 50) / 100.
Proof.
  intros H%index_table_window. unfold index_table_ok in H.
  rewrite !andb_true_iff, !Z.eqb_eq in H. naive_solver.
Qed.

(** A quantile whose index is in range is a sample, untruncated below [2^64]. *)
Lemma pick_spec e q i :
  Forall (in_u 64) (rtt_ns e) →
  pick_index (length (sorted e)) q = Z.of_nat i → (i < length (rtt_ns e))%nat →
  ∃ x, pick (sorted e) q = Some x ∧ sorted e !! i = Some x ∧ x ∈ rtt_ns e.
Proof.
  intros Hr Hi Hlt. rewrite <- sorted_length in Hlt.
  destruct (lookup_lt_is_Some_2 _ _ Hlt) as [x Hx].
  pose proof (sorted_elem _ _ _ Hx) as Hin.
  exists x. unfold pick. rewrite Hi, Nat2Z.id, Hx. simpl.
  rewrite Forall_forall in Hr. split; [|auto].
  unfold from_nanos. by rewrite wrap_small by auto.
Qed.

Lemma rtt_ns_pos_length e : rtt_ns e ≠ [] → (1 ≤ length (rtt_ns e))%nat.
Proof. destruct (rtt_ns e); simpl; [done|lia]. Qed.

Lemma sorted_nonempty e : rtt_ns e ≠ [] → ∃ x v, sorted e = x :: v.
Proof.
  intros Hne. destruct (sorted e) as [|x v] eqn:E; [|eauto].
  exfalso. apply (f_equal length) in E. rewrite sorted_length in E.
  destruct (rtt_ns e); done.
Qed.

Lemma median_spec e :
  rtt_ns e ≠ [] →
  ∃ m, median_rtt_ns e = Some m ∧ sorted e !! (length (rtt_ns e) / 2)%nat = Some m
       ∧ m ∈ rtt_ns e.
Proof.
  intros Hne. unfold median_rtt_ns.
  assert (Hlt : (length (rtt_ns e) / 2 < length (sorted e))%nat).
  { rewrite sorted_length. apply Nat.div_lt; [|lia].
    pose proof (rtt_ns_pos_length _ Hne). lia. }
  destruct (lookup_lt_is_Some_2 _ _ Hlt) as [m Hm]. exists m.
  destruct (sorted_nonempty _ Hne) as (x & v & E). rewrite E, <- E, sorted_length.
  eauto using sorted_elem.
Qed.

(** The percentiles of a non-empty window: no index panic, each one an
    observed sample at its exact rank, the median first and in order. *)
Lemma percentiles_at_ranks e :
  estimator_ok e → rtt_ns e ≠ [] → Forall (in_u 64) (rtt_ns e) →
  let n := length (rtt_ns e) in
  ∃ p50 p90 p99,
    rtt_percentiles e = Some (p50, p90, p99) ∧
    sorted e !! (n / 2)%nat = Some p50 ∧
    sorted e !! ((9 * (n - 1) + 5) / 10)%nat = Some p90 ∧
    sorted e !! ((99 * (n - 1) + 50) / 100)%nat = Some p99.
Proof.
  intros [Hw _ _] Hne Hr n.
  pose proof (rtt_ns_pos_length _ Hne) as Hpos.
  assert (length (sorted e) = n) as Hn by apply sorted_length.
  destruct (pick_indices n) as (H50 & H90 & H99); [lia|].
  destruct (pick_spec e q50 (n / 2)) as (p50 & P50 & ? & ?); try done.
  { rewrite Hn, H50. lia. } { fold n. apply Nat.div_lt; lia. }
  destruct (pick_spec e q90 ((9 * (n - 1) + 5) / 10)) as (p90 & P90 & ? & ?); try done.
  { rewrite Hn, H90. lia. } { fold n. apply Nat.Div0.div_lt_upper_bound. lia. }
  destruct (pick_spec e q99 ((99 * (n - 1) + 50) / 100)) as (p99 & P99 & ? & ?); try done.
  { rewrite Hn, H99. lia. } { fold n. apply Nat.Div0.div_lt_upper_bound. lia. }
  exists p50, p90, p99. split; [|done]. unfold rtt_percentiles.
  destruct (sorted_nonempty _ Hne) as (x & v & E). rewrite E, <- E.
  by rewrite P50, P90, P99.
Qed.

(** ** Measured parameters. *)

Lemma estimate_median e m :
  estimator_ok e → in_u 64 m → median_rtt_ns e = Some m →
  ∃ p, estimate e = Some p ∧ hops p = est_hops e ∧ mtu p = est_mtu e ∧
       slot_interval p = est_slot_interval e ∧
       mean_hop_delay p = m / 2 / est_hops e.
Proof.
  intros [_ _ Hh] Hm Hmed. unfold estimate. rewrite Hmed. simpl.
  replace (est_hops e =? 0) with false by lia. simpl. eexists. split; [done|].
  repeat split; simpl. unfold from_nanos. apply wrap_small. unfold in_u in *.
  pose proof (Z.div_pos (m / 2) (est_hops e)).
  pose proof (Z.div_le_upper_bound (m / 2) (est_hops e) (m / 2)). dlia.
Qed.

(** Two floored divisions lose less than one unit per round-trip hop. *)
Lemma two_floors m h : 0 ≤ m → 1 ≤ h → m - 2 * h < 2 * h * (m / 2 / h) ≤ m.
Proof.
  intros Hm Hh. pose proof (Z.div_mod m 2). pose proof (Z.mod_pos_bound m 2).
  pose proof (Z.div_mod (m / 2) h). pose proof (Z.mod_pos_bound (m / 2) h). nia.
Qed.

Lemma jitter_total e :
  ∃ j, jitter_ratio e = Some j ∧
    (j = S754_zero false ∨ is_nan j = false ∧ SFleb threshold_floor j = true).
Proof.
  unfold jitter_ratio. case_decide as Hl; [by eauto|].
  assert (Hlen := sorted_length e).
  destruct (lookup_lt_is_Some_2 (sorted e) (length (sorted e) / 2)) as [m ->].
  { apply Nat.div_lt; lia. }
  simpl.
  match goal with |- context [sorted e !! Z.to_nat ?i] => 
    destruct (lookup_lt_is_Some_2 (sorted e) (Z.to_nat i)) as [x ->] end.
  { match goal with |- context [as_u 64 ?x] => pose proof (as_u_range 64 x) end.
    unfold in_u in *. lia. }
  simpl. eexists. split; [done|]. case_match; [|by left].
  right. by apply fmax_spec.
Qed.

(** ** Properties. *)

(** After any sequence of observed round trips the estimator's buffer is
    exactly the last 256 of them in arrival order, so memory is bounded and
    stale samples are gone; loss counters and structure are untouched. *)
Theorem record_rtt_keeps_recent_window (h m s : Z) (rs : list Z) :
  let e := record_all rs (new h m s) in
  rtt_ns e = last_n MAX_RTT_SAMPLES rs ∧
  samples e = (MAX_RTT_SAMPLES `min` length rs)%nat ∧
  est_hops e = Z.max h 1 ∧ est_mtu e = m ∧ est_slot_interval e = s ∧
  sent e = 0 ∧ lost e = 0.
Proof.
  simpl. unfold samples.
  rewrite (record_all_window rs (new h m s) []), last_n_length by done.
  do 2 (split; [done|]). apply (record_all_fields rs (new h m s)).
Qed.

(** C4: on a non-empty window of round trips below [2^64] ns the percentiles
    never index out of range; each one is an observed sample, at its exact
    nearest rank in sorted order, they are ordered, and p50 is the median that
    [estimate] uses. *)
Theorem rtt_percentiles_are_ordered_samples (e : OracleEstimator) :
  estimator_ok e → rtt_ns e ≠ [] → Forall (in_u 64) (rtt_ns e) →
  let n := length (rtt_ns e) in
  ∃ p50 p90 p99,
    rtt_percentiles e = Some (p50, p90, p99) ∧ median_rtt_ns e = Some p50 ∧
    p50 ≤ p90 ≤ p99 ∧ p50 ∈ rtt_ns e ∧ p90 ∈ rtt_ns e ∧ p99 ∈ rtt_ns e ∧
    sorted e !! ((9 * (n - 1) + 5) / 10)%nat = Some p90 ∧
    sorted e !! ((99 * (n - 1) + 50) / 100)%nat = Some p99.
Proof.
  intros Hok Hne Hr n.
  destruct (percentiles_at_ranks e Hok Hne Hr) as (p50 & p90 & p99 & HP & H50 & H90 & H99).
  destruct (median_spec e Hne) as (m & Hm & Hm' & _).
  pose proof (rtt_ns_pos_length _ Hne) as Hpos. subst n.
  exists p50, p90, p99. simplify_eq.
  assert (p50 ≤ p90) by (eapply sorted_mono; [exact H50|exact H90|lia]).
  assert (p90 ≤ p99) by (eapply sorted_mono; [exact H90|exact H99|lia]).
  split_and!; eauto using sorted_elem.
Qed.

Lemma rtt_percentiles_are_ordered_samples_witness :
  let e := record_all [70; 30; 50; 10] (new 3 1200 1000000) in
  estimator_ok e ∧
  ∃ p50 p90 p99, rtt_percentiles e = Some (p50, p90, p99) ∧ p50 ≤ p90 ≤ p99.
Proof.
  assert (Hok : estimator_ok (record_all [70; 30; 50; 10] (new 3 1200 1000000))).
  { apply record_all_ok; [|apply new_ok]. repeat constructor; done. }
  split; [exact Hok|].
  destruct (rtt_percentiles_are_ordered_samples _ Hok) as (a & b & c & H1 & _ & H2 & _).
  - vm_compute. discriminate.
  - repeat constructor; done.
  - exists a, b, c. exact (conj H1 H2).
Defined.

(** C5: on a non-empty window of round trips below [2^64] ns [estimate]
    succeeds (no division by zero), copies the structural facts, and the round
    trip of the parameters it returns is the median sample up to the flooring
    of the per-hop split: never above it, and less than [2 * hops] ns below. *)
Theorem estimate_tracks_median (e : OracleEstimator) :
  estimator_ok e → rtt_ns e ≠ [] → Forall (in_u 64) (rtt_ns e) →
  ∃ p m r,
    estimate e = Some p ∧ median_rtt_ns e = Some m ∧ m ∈ rtt_ns e ∧
    hops p = est_hops e ∧ mtu p = est_mtu e ∧ slot_interval p = est_slot_interval e ∧
    rtt p = Some r ∧ m - 2 * hops p < r ≤ m.
Proof.
  intros Hok Hne Hr. destruct (median_spec e Hne) as (m & Hm & _ & Hin).
  assert (Hm64 : in_u 64 m) by (rewrite Forall_forall in Hr; auto).
  destruct (estimate_median e m Hok Hm64 Hm) as (p & Hp & Hh & Hmtu & Hs & Hd).
  assert (1 ≤ est_hops e) by apply Hok. unfold in_u in Hm64.
  pose proof (two_floors m (est_hops e)) as Hfl.
  pose proof (Z.div_pos (m / 2) (est_hops e)).
  exists p, m, (2 * hops p * mean_hop_delay p).
  split_and!; try done; rewrite Hh; try (rewrite Hd; lia).
  rewrite <- Hh. apply rtt_total; rewrite ?Hd, ?Hh; unfold NANOS_PER_SEC; dlia.
Qed.

Lemma estimate_tracks_median_witness :
  let e := record_acks 1000 20 (record_all [60000000; 59000000; 61000001] (new 3 1200 1000000)) in
  ∃ p m r, estimate e = Some p ∧ median_rtt_ns e = Some m ∧ rtt p = Some r ∧
           m - 2 * hops p < r ≤ m.
Proof.
  simpl.
  destruct (estimate_tracks_median
    (record_acks 1000 20 (record_all [60000000; 59000000; 61000001] (new 3 1200 1000000))))
    as (p & m & r & H1 & H2 & _ & _ & _ & _ & H3 & H4).
  - apply record_acks_ok, record_all_ok; [|apply new_ok]. repeat constructor; done.
  - vm_compute. discriminate.
  - repeat constructor; done.
  - exists p, m, r. exact (conj H1 (conj H2 (conj H3 H4))).
Defined.

(** The measured jitter ratio is always computed without an index panic,
    and it is either exactly zero (too few samples or a zero median) or a real
    number no smaller than 1.5; with fewer than two samples it is zero. *)
Theorem jitter_ratio_zero_or_tolerant (e : OracleEstimator) :
  ∃ j, jitter_ratio e = Some j ∧
    (j = S754_zero false ∨ is_nan j = false ∧ SFleb threshold_floor j = true) ∧
    ((samples e < 2)%nat → j = S754_zero false).
Proof.
  destruct (jitter_total e) as (j & Hj & Hor). exists j. split_and!; try done.
  unfold samples. intros Hl. unfold jitter_ratio in Hj.
  rewrite decide_True in Hj by done. congruence.
Qed.
