(* ===== verification/Client.v ===== *)
(** * Client-side plugs: [crates/quicmix/src/client.rs] and [sched.rs].

    The oracle-driven controller, the bandwidth-delay sizing rules, the
    congestion plans and the measured congestion control that rebuilds the next
    circuit's transport from live observations. *)

From S2P Require Import Prelude RustFloat Core Oracle.
Open Scope Z_scope.

(** ** [sched.rs]: the fixed-window controller. *)
Module Sched.
Record OracleController := mkOracleController { window : Z }.

(** The calls quinn makes on a [Controller]. *)
Inductive event : Set :=
| OnCongestionEvent (now sent : Z) (is_persistent_congestion : bool) (lost_bytes : Z)
| OnMtuUpdate (new_mtu : Z).

Definition on_congestion_event (now sent : Z) (persistent : bool) (lost_bytes : Z)
    (c : OracleController) : OracleController := c.
Definition on_mtu_update (new_mtu : Z) (c : OracleController) : OracleController := c.
Definition initial_window (c : OracleController) : Z := window c.
Definition clone_box (c : OracleController) : OracleController := c.

Definition on_event (ev : event) (c : OracleController) : OracleController :=
  match ev with
  | OnCongestionEvent now sent p l => on_congestion_event now sent p l c
  | OnMtuUpdate m => on_mtu_update m c
  end.

Record OracleCc := mkOracleCc { cc_window : Z }.

(** [ControllerFactory::build]. *)
Definition build (cc : OracleCc) (now current_mtu : Z) : OracleController :=
  {| window := cc_window cc |}.

Definition run (evs : list event) (c : OracleController) : OracleController :=
  foldl (λ c ev, on_event ev c) c evs.

Lemma run_window evs c : window (run evs c) = window c ∧ initial_window (run evs c) = window c.
Proof. revert c. induction evs as [|[] evs IH]; intros c; simpl; auto; apply (IH c). Qed.
End Sched.

(** ** Sizing. *)

Definition UNCAPPED_WINDOW : Z := 16 * 1024 * 1024.

(** [bdp_bytes]; [None] is a panic ([Duration] overflow, or the [u64] product
    [mtu * 2] with overflow checks on). *)
Definition bdp_bytes (pr : profile) (p : OracleParams) : option Z :=
  r ← rtt p;
  let rtt_s := as_secs_f64 r in
  if slot_interval p =? 0 then Some UNCAPPED_WINDOW
  else
    let rate := fdiv binary64 (of_int binary64 (mtu p)) (as_secs_f64 (slot_interval p)) in
    m2 ← umul pr 64 (mtu p) 2;
    Some (Z.max (as_u 64 (fmul binary64 rate rtt_s)) m2).

Definition bdp_packets (pr : profile) (p : OracleParams) : option Z :=
  b ← bdp_bytes pr p;
  Some (Z.max (b / Z.max (mtu p) 1) 16).

(** ** Transport configuration.  A field the source does not set keeps quinn's
    default, written [None]. *)
Record TransportConfig := mkTransportConfig {
  initial_rtt : option Z;
  packet_threshold : option Z;
  time_threshold : option spec_float;
  max_idle_timeout : option Z;
  congestion_controller_factory : option Sched.OracleCc;
}.

Definition TransportConfig_default : TransportConfig :=
  mkTransportConfig None None None None None.

Section Transport.
Variable pr : profile.
(** quinn's [IdleTimeout::try_from(Duration)]. *)
Variable idle_timeout_try_from : Z → option Z.

Definition tolerant (p : OracleParams) (threshold : spec_float) : option TransportConfig :=
  r ← rtt p;
  r' ← rtt p;
  r40 ← duration_mul r' 40;
  let idle := Z.max (from_secs 30) r40 in
  Some {| initial_rtt := Some r;
          packet_threshold := Some 1000;
          time_threshold := Some threshold;
          max_idle_timeout := idle_timeout_try_from idle;
          congestion_controller_factory := None |}.

Definition set_congestion_controller_factory (t : TransportConfig) (cc : Sched.OracleCc) :
    TransportConfig :=
  {| initial_rtt := initial_rtt t; packet_threshold := packet_threshold t;
     time_threshold := time_threshold t; max_idle_timeout := max_idle_timeout t;
     congestion_controller_factory := Some cc |}.

Definition quicmix_transport_with_jitter (p : OracleParams) (jitter : spec_float) :
    option TransportConfig :=
  threshold ← (if SFleb threshold_floor jitter then Some jitter
               else loss_time_threshold pr p);
  t ← tolerant p threshold;
  w ← bdp_bytes pr p;
  Some (set_congestion_controller_factory t {| Sched.cc_window := w |}).

Inductive Congestion : Set := Stock | Timers | Quicmix.

Definition label (c : Congestion) : string :=
  match c with Stock => "cubic" | Timers => "cubic+timers" | Quicmix => "quicmix" end.

Definition transport (c : Congestion) (p : OracleParams) : option TransportConfig :=
  match c with
  | Stock => Some TransportConfig_default
  | Timers => t ← loss_time_threshold pr p; tolerant p t
  | Quicmix => quicmix_transport_with_jitter p (S754_zero false)
  end.

(** ** [MeasuredCc]: the estimator and the last parameters handed out. *)
Record MeasuredCc := mkMeasuredCc { est : OracleEstimator; last : option OracleParams }.

Definition MeasuredCc_new (hops mtu slot_interval : Z) : MeasuredCc :=
  {| est := Oracle.new hops mtu slot_interval; last := None |}.

Definition observe (c : PathStats) (m : MeasuredCc) : MeasuredCc :=
  {| est := observe_connection c (est m); last := last m |}.
Definition MeasuredCc_record_rtt (r : Z) (m : MeasuredCc) : MeasuredCc :=
  {| est := record_rtt r (est m); last := last m |}.
Definition current (m : MeasuredCc) : option OracleParams := estimate (est m).
Definition MeasuredCc_rtt_percentiles (m : MeasuredCc) : option (Z * Z * Z) :=
  rtt_percentiles (est m).
Definition MeasuredCc_samples (m : MeasuredCc) : nat := samples (est m).

(** The derived [PartialEq] of [OracleParams] (IEEE equality on [drop_prob]). *)
Definition OracleParams_eqb (a b : OracleParams) : bool :=
  (hops a =? hops b) && (mean_hop_delay a =? mean_hop_delay b) &&
  SFeqb (drop_prob a) (drop_prob b) && (slot_interval a =? slot_interval b) &&
  (mtu a =? mtu b).

(** The change report on stderr: both round trips, both drop rates, the
    jitter and the sample count. *)
Record change_log := mkChangeLog {
  old_rtt : Z; new_rtt : Z; old_drop : spec_float; new_drop : spec_float;
  log_jitter : spec_float; log_samples : nat;
}.

(** [MeasuredCc::transport]: the next circuit's configuration, the new state
    and the reported change. *)
Definition MeasuredCc_transport (m : MeasuredCc) :
    option (TransportConfig * MeasuredCc * option change_log) :=
  p ← estimate (est m);
  jitter ← jitter_ratio (est m);
  '(last', log) ←
    (if match last m with Some old => OracleParams_eqb old p | None => false end
     then Some (last m, None)
     else
       log ← match last m with
             | None => Some None
             | Some old =>
                 ro ← rtt old; rn ← rtt p;
                 Some (Some (mkChangeLog ro rn (drop_prob old) (drop_prob p)
                               jitter (samples (est m))))
             end;
       Some (Some p, log));
  t ← quicmix_transport_with_jitter p jitter;
  Some (t, {| est := est m; last := last' |}, log).
End Transport.

(** ** Oracle sources and the client bundle. *)
Inductive OracleSource : Type :=
| FixedOracle (p : OracleParams)
| MeasuredOracle (e : OracleEstimator).

Definition params (o : OracleSource) : option OracleParams :=
  match o with FixedOracle p => Some p | MeasuredOracle e => estimate e end.

Record RotationPolicy := mkRotationPolicy { pool_size : Z }.
Definition RotationPolicy_default : RotationPolicy := {| pool_size := 4 |}.

Record ClientProfile := mkClientProfile {
  cp_oracle : OracleSource;
  cp_congestion : Congestion;
  cp_rotation : RotationPolicy;
}.

Definition ClientProfile_transport (pr : profile) (itf : Z → option Z) (c : ClientProfile) :
    option TransportConfig :=
  p ← params (cp_oracle c); transport pr itf (cp_congestion c) p.

(** ** Lemmas. *)

(** Parameters whose derived quantities stay in range: the standing
    assumption on a path under which nothing below panics. *)
Record path_ok (pr : profile) (p : OracleParams) : Prop := {
  path_hops : in_u 32 (hops p);
  path_hops_debug : pr = Release ∨ hops p < 2 ^ 31;
  path_delay : 0 ≤ mean_hop_delay p;
  path_idle : 2 * hops p * mean_hop_delay p * 40 < 2 ^ 64 * NANOS_PER_SEC;
  path_mtu : 0 ≤ mtu p ∧ 2 * mtu p < 2 ^ 64;
}.

Lemma path_rtt pr p : path_ok pr p → rtt p = Some (2 * hops p * mean_hop_delay p).
Proof.
  intros [Hh _ Hd Hi _]. unfold in_u in Hh. apply rtt_total; [lia|done|].
  pose proof (Z.mul_nonneg_nonneg (hops p) (mean_hop_delay p)). unfold NANOS_PER_SEC in *. lia.
Qed.

Lemma tolerant_total pr itf p thr :
  path_ok pr p →
  tolerant itf p thr =
    Some {| initial_rtt := rtt p; packet_threshold := Some 1000;
            time_threshold := Some thr;
            max_idle_timeout :=
              itf (Z.max (from_secs 30) (40 * (2 * hops p * mean_hop_delay p)));
            congestion_controller_factory := None |}.
Proof.
  intros Hp. unfold tolerant. rewrite (path_rtt _ _ Hp). simpl.
  destruct Hp as [Hh _ Hd Hi _]. unfold in_u in Hh.
  pose proof (Z.mul_nonneg_nonneg (hops p) (mean_hop_delay p)).
  replace (duration_mul (2 * hops p * mean_hop_delay p) 40)
    with (Some (40 * (2 * hops p * mean_hop_delay p))); [done|].
  symmetry. apply duration_mul_Some. unfold duration_ok, NANOS_PER_SEC in *. lia.
Qed.

Lemma bdp_bytes_uncapped pr p :
  path_ok pr p → slot_interval p = 0 → bdp_bytes pr p = Some UNCAPPED_WINDOW.
Proof. intros Hp Hs. unfold bdp_bytes. rewrite (path_rtt _ _ Hp). simpl. by rewrite Hs. Qed.

Lemma bdp_bytes_capped pr p :
  path_ok pr p → slot_interval p ≠ 0 →
  ∃ w, bdp_bytes pr p = Some w ∧ 2 * mtu p ≤ w ∧ in_u 64 w.
Proof.
  intros Hp Hs. unfold bdp_bytes, umul. rewrite (path_rtt _ _ Hp). simpl.
  replace (slot_interval p =? 0) with false by lia.
  destruct Hp as [_ _ _ _ Hm].
  rewrite uint_in by (unfold in_u; lia). simpl. eexists. split; [done|].
  match goal with |- context [as_u 64 ?x] => pose proof (as_u_range 64 x) end.
  unfold in_u in *. lia.
Qed.

Lemma bdp_bytes_total pr p : path_ok pr p → ∃ w, bdp_bytes pr p = Some w ∧ in_u 64 w.
Proof.
  intros Hp. destruct (decide (slot_interval p = 0)) as [Hs|Hs].
  - exists UNCAPPED_WINDOW. by rewrite (bdp_bytes_uncapped _ _ Hp Hs).
  - destruct (bdp_bytes_capped _ _ Hp Hs) as (w & ? & _ & ?). eauto.
Qed.

Lemma threshold_chosen pr p j :
  path_ok pr p →
  ∃ t, (if SFleb threshold_floor j then Some j else loss_time_threshold pr p) = Some t ∧
       is_nan t = false ∧ SFleb threshold_floor t = true ∧
       (SFleb threshold_floor j = true → t = j).
Proof.
  intros Hp. destruct (SFleb threshold_floor j) eqn:E.
  - exists j. split_and!; try done.
    destruct j; try done.
  - destruct (loss_time_threshold_Some pr p) as [t Ht]; [apply Hp|apply Hp|].
    exists t. rewrite Ht. destruct (loss_time_threshold_floor _ _ _ Ht). done.
Qed.

Lemma quicmix_transport_total pr itf p j :
  path_ok pr p →
  ∃ t w, quicmix_transport_with_jitter pr itf p j =
      Some {| initial_rtt := rtt p; packet_threshold := Some 1000;
              time_threshold := Some t;
              max_idle_timeout :=
                itf (Z.max (from_secs 30) (40 * (2 * hops p * mean_hop_delay p)));
              congestion_controller_factory := Some {| Sched.cc_window := w |} |} ∧
    bdp_bytes pr p = Some w ∧ is_nan t = false ∧ SFleb threshold_floor t = true ∧
    (SFleb threshold_floor j = true → t = j).
Proof.
  intros Hp. destruct (threshold_chosen pr p j Hp) as (t & Ht & Hrest).
  destruct (bdp_bytes_total pr p Hp) as (w & Hw & _). exists t, w.
  unfold quicmix_transport_with_jitter. rewrite Ht. simpl.
  rewrite (tolerant_total pr) by done. simpl. rewrite Hw. done.
Qed.

(** ** The measured congestion control. *)

(** Invariant of [MeasuredCc]: a well-formed estimator over round trips below
    [2^64] ns, structural facts in range, and a last oracle with a round trip. *)
Record measured_ok (pr : profile) (m : MeasuredCc) : Prop := {
  mc_est : estimator_ok (est m);
  mc_samples : Forall (in_u 64) (rtt_ns (est m));
  mc_hops : in_u 32 (est_hops (est m));
  mc_hops_debug : pr = Release ∨ est_hops (est m) < 2 ^ 31;
  mc_mtu : 0 ≤ est_mtu (est m) ∧ 2 * est_mtu (est m) < 2 ^ 64;
  mc_last : ∀ old, last m = Some old → is_Some (rtt old);
}.

Lemma median_total e :
  Forall (in_u 64) (rtt_ns e) →
  ∃ m, median_rtt_ns e = Some m ∧ in_u 64 m ∧ (rtt_ns e ≠ [] → m ∈ rtt_ns e).
Proof.
  intros Hr. destruct (decide (rtt_ns e = [])) as [E|Hne].
  - exists 0. unfold median_rtt_ns, sorted. by rewrite E.
  - destruct (median_spec e Hne) as (m & Hm & _ & Hin). exists m.
    split_and!; try done. rewrite Forall_forall in Hr. by apply Hr.
Qed.

(** The current estimate exists, is a path in range, and its round trip is the
    median up to the per-hop flooring. *)
Lemma current_total pr m :
  measured_ok pr m →
  ∃ p med, current m = Some p ∧ path_ok pr p ∧ median_rtt_ns (est m) = Some med ∧
    (rtt_ns (est m) ≠ [] → med ∈ rtt_ns (est m)) ∧ hops p = est_hops (est m) ∧
    med - 2 * hops p < 2 * hops p * mean_hop_delay p ≤ med.
Proof.
  intros [He Hs Hh Hd Hm _]. destruct (median_total _ Hs) as (med & Hmed & Hr & Hin).
  destruct (estimate_median _ _ He Hr Hmed) as (p & Hp & Eh & Em & _ & Ed).
  assert (Hh1 : 1 ≤ est_hops (est m)) by apply He.
  unfold in_u in Hr. pose proof (two_floors med _ (proj1 Hr) Hh1) as Hfl.
  exists p, med. rewrite Eh. split_and!; try done; try (rewrite Ed; lia).
  split; rewrite ?Eh, ?Em, ?Ed; try done.
  - apply Z.div_pos; [|lia]. apply Z.div_pos; lia.
  - unfold NANOS_PER_SEC. lia.
Qed.

Lemma observe_ok pr c m :
  in_u 64 (ps_rtt c) → measured_ok pr m → measured_ok pr (observe c m).
Proof.
  intros Hc [He Hs Hh Hd Hm Hl].
  assert (duration_ok (ps_rtt c)) by (unfold in_u, duration_ok, NANOS_PER_SEC in *; lia).
  split; simpl; try done.
  - by apply (observe_connection_ok c).
  - apply Forall_app. split; [|by constructor].
    case_decide; [|done]. destruct Hs; simpl; [constructor|done].
Qed.

Lemma measured_transport_total pr itf m :
  measured_ok pr m →
  ∃ p j cfg m' log,
    current m = Some p ∧ jitter_ratio (est m) = Some j ∧
    quicmix_transport_with_jitter pr itf p j = Some cfg ∧
    MeasuredCc_transport pr itf m = Some (cfg, m', log) ∧
    est m' = est m ∧ measured_ok pr m' ∧
    (∃ q, last m' = Some q ∧ (q = p ∨ OracleParams_eqb q p = true)) ∧
    (is_Some log ↔ ∃ old, last m = Some old ∧ OracleParams_eqb old p = false).
Proof.
  intros Hok. destruct (current_total _ _ Hok) as (p & med & Hp & Hpath & _).
  destruct (jitter_total (est m)) as (j & Hj & _).
  destruct (quicmix_transport_total pr itf p j Hpath) as (t & w & Ht & _).
  assert (Hr : is_Some (rtt p)) by (rewrite (path_rtt _ _ Hpath); eauto).
  assert (Hok' : measured_ok pr {| est := est m; last := Some p |}).
  { destruct Hok. split; simpl; try done. intros ? [= <-]. done. }
  unfold current in Hp. unfold MeasuredCc_transport. rewrite Hp, Hj. simpl.
  destruct (last m) as [old|] eqn:El; simpl.
  - destruct (OracleParams_eqb old p) eqn:E; simpl.
    + rewrite Ht. simpl. exists p, j. do 3 eexists. split_and!; eauto.
      * destruct Hok as [? ? ? ? ? Hlast]. split; simpl; try done.
        intros o [= <-]. by apply Hlast.
      * split; [intros [? ?]; discriminate|intros (? & ? & ?); congruence].
    + destruct Hok as [_ _ _ _ _ Hlast]. destruct (Hlast old El) as [ro ->]. simpl.
      destruct Hr as [rn ->]. simpl. rewrite Ht. simpl.
      exists p, j. do 3 eexists. split_and!; eauto.
      split; eauto.
  - rewrite Ht. simpl. exists p, j. do 3 eexists. split_and!; eauto.
    split; [intros [? ?]; discriminate|intros (? & ? & ?); discriminate].
Qed.

(** The public operations that change a [MeasuredCc], as commands. *)
Inductive mc_op : Type :=
| OpObserve (c : PathStats)
| OpRecordRtt (r : Z)
| OpTransport.

Definition mc_step (pr : profile) (itf : Z → option Z) (m : MeasuredCc) (o : mc_op) :
    option MeasuredCc :=
  match o with
  | OpObserve c => Some (observe c m)
  | OpRecordRtt r => Some (MeasuredCc_record_rtt r m)
  | OpTransport => '(_, m', _) ← MeasuredCc_transport pr itf m; Some m'
  end.

Definition mc_run (pr : profile) (itf : Z → option Z) (os : list mc_op) (m : MeasuredCc) :
    option MeasuredCc :=
  foldl (λ acc o, m ← acc; mc_step pr itf m o) (Some m) os.

Definition mc_op_ok (o : mc_op) : Prop :=
  match o with
  | OpObserve c => in_u 64 (ps_rtt c)
  | OpRecordRtt r => in_u 64 r
  | OpTransport => True
  end.

(** The round trips a run feeds to the estimator, oldest first. *)
Definition mc_rtts (os : list mc_op) : list Z :=
  omap (λ o, match o with OpObserve c => Some (ps_rtt c) | OpRecordRtt r => Some r
             | OpTransport => None end) os.

Lemma record_rtt_measured_ok pr r m :
  in_u 64 r → measured_ok pr m → measured_ok pr (MeasuredCc_record_rtt r m).
Proof.
  intros Hr Hm. destruct (observe_ok pr (mkPathStats r 0 0 0 0) m Hr Hm) as [H1 H2 H3 H4 H5 H6].
  split; try done. destruct H1. by split.
Qed.

Lemma mc_step_ok pr itf m o hist :
  mc_op_ok o → measured_ok pr m → rtt_ns (est m) = last_n MAX_RTT_SAMPLES hist →
  ∃ m', mc_step pr itf m o = Some m' ∧ measured_ok pr m' ∧
    rtt_ns (est m') = last_n MAX_RTT_SAMPLES (hist ++ mc_rtts [o]).
Proof.
  intros Ho Hm Hw. destruct o as [c|r|]; simpl in *.
  - eexists. split_and!; [done|by apply observe_ok|]. by apply record_rtt_window.
  - eexists. split_and!; [done|by apply record_rtt_measured_ok|]. by apply record_rtt_window.
  - destruct (measured_transport_total pr itf m Hm) as (p & j & cfg & m' & log & _ & _ & _ & HT & He & Hok' & _).
    rewrite HT. simpl. exists m'. by rewrite app_nil_r, He.
Qed.

Lemma mc_run_ok pr itf os m hist :
  Forall mc_op_ok os → measured_ok pr m → rtt_ns (est m) = last_n MAX_RTT_SAMPLES hist →
  ∃ m', mc_run pr itf os m = Some m' ∧ measured_ok pr m' ∧
    rtt_ns (est m') = last_n MAX_RTT_SAMPLES (hist ++ mc_rtts os).
Proof.
  intros Hos. revert m hist. induction Hos as [|o os Ho Hos IH]; intros m hist Hm Hw.
  - exists m. by rewrite app_nil_r.
  - destruct (mc_step_ok pr itf m o hist Ho Hm Hw) as (m1 & H1 & Hm1 & Hw1).
    destruct (IH m1 _ Hm1 Hw1) as (m2 & H2 & Hm2 & Hw2). exists m2.
    unfold mc_run in *. simpl. rewrite H1. split_and!; try done.
    rewrite Hw2, <- app_assoc. f_equal. by destruct o.
Qed.

Lemma MeasuredCc_new_ok pr h mtu s :
  in_u 32 h → pr = Release ∨ h < 2 ^ 31 → 0 ≤ mtu ∧ 2 * mtu < 2 ^ 64 →
  measured_ok pr (MeasuredCc_new h mtu s).
Proof.
  intros Hh Hd Hm. unfold in_u in *.
  split; unfold MeasuredCc_new, new; cbn [est last est_hops est_mtu rtt_ns]; try done.
  - apply new_ok.
  - unfold in_u. lia.
  - destruct Hd; [by left|right; lia].
Qed.

(** ** Properties. *)

(** The bandwidth-delay window is defined for every path in range; an
    uncapped path gets exactly 16 MiB, a rate-capped one at least two cells,
    and the packet queue sized from it holds at least 16 packets and never more
    bytes than the window (or those 16 cells). *)
Theorem bdp_window_bounds (pr : profile) (p : OracleParams) :
  path_ok pr p →
  ∃ w n, bdp_bytes pr p = Some w ∧ bdp_packets pr p = Some n ∧ in_u 64 w ∧
    (slot_interval p = 0 → w = 16 * 1024 * 1024) ∧
    (slot_interval p ≠ 0 → 2 * mtu p ≤ w) ∧
    16 ≤ n ∧ n * mtu p ≤ Z.max w (16 * mtu p).
Proof.
  intros Hp. destruct (bdp_bytes_total pr p Hp) as (w & Hw & Hr).
  exists w, (Z.max (w / Z.max (mtu p) 1) 16). unfold bdp_packets. rewrite Hw.
  split_and!; try done; try lia.
  - intros Hs. rewrite (bdp_bytes_uncapped _ _ Hp Hs) in Hw. by simplify_eq.
  - intros Hs. destruct (bdp_bytes_capped _ _ Hp Hs) as (w' & ? & ? & _). by simplify_eq.
Qed.

Definition example_path : OracleParams :=
  mkOracleParams 3 5000000 (lit binary64 2 100) 1000000 1200.

Lemma example_path_ok : path_ok Debug example_path.
Proof. split; unfold in_u; simpl; unfold NANOS_PER_SEC; try lia; by right. Defined.

Lemma bdp_window_bounds_witness :
  path_ok Debug example_path ∧
  ∃ w n, bdp_bytes Debug example_path = Some w ∧ bdp_packets Debug example_path = Some n ∧
    2400 ≤ w ∧ 16 ≤ n.
Proof.
  split; [exact example_path_ok|].
  destruct (bdp_window_bounds Debug example_path example_path_ok)
    as (w & n & H1 & H2 & _ & _ & H3 & H4 & _).
  exists w, n. split_and!; [exact H1|exact H2| |exact H4]. apply H3. discriminate.
Defined.

(** C2: the oracle-fed plan, for every path in range and every measured
    jitter, builds a configuration whose initial RTT is the oracle's round
    trip, whose idle timeout comes from at least 30 s and 40 round trips, whose
    loss-time threshold is a number no smaller than 1.5 (the measured jitter
    itself when that is at least 1.5), and whose controller keeps a window of
    exactly one bandwidth-delay product through every sequence of congestion
    and MTU events. *)
Theorem quicmix_transport_is_oracle_driven
    (pr : profile) (itf : Z → option Z) (p : OracleParams) (j : spec_float)
    (evs : list Sched.event) (now mtu0 : Z) :
  path_ok pr p →
  ∃ cfg cc thr, quicmix_transport_with_jitter pr itf p j = Some cfg ∧
    initial_rtt cfg = Some (2 * hops p * mean_hop_delay p) ∧
    packet_threshold cfg = Some 1000 ∧
    (∃ idle, max_idle_timeout cfg = itf idle ∧ from_secs 30 ≤ idle ∧
             40 * (2 * hops p * mean_hop_delay p) ≤ idle) ∧
    time_threshold cfg = Some thr ∧ is_nan thr = false ∧
    SFleb threshold_floor thr = true ∧ (SFleb threshold_floor j = true → thr = j) ∧
    congestion_controller_factory cfg = Some cc ∧
    bdp_bytes pr p = Some (Sched.window (Sched.run evs (Sched.build cc now mtu0))).
Proof.
  intros Hp. destruct (quicmix_transport_total pr itf p j Hp)
    as (t & w & Ht & Hw & Hn & Hf & Hj).
  eexists _, _, t. split; [exact Ht|]. simpl. rewrite (path_rtt _ _ Hp).
  split_and!; try done.
  - eexists. split; [done|]. lia.
  - by rewrite (proj1 (Sched.run_window _ _)).
Qed.

Lemma quicmix_transport_is_oracle_driven_witness :
  path_ok Debug example_path ∧
  ∃ cfg, quicmix_transport_with_jitter Debug (λ d, Some d) example_path (S754_zero false) = Some cfg ∧
    initial_rtt cfg = Some 30000000.
Proof.
  split; [exact example_path_ok|].
  destruct (quicmix_transport_is_oracle_driven Debug (λ d, Some d) example_path
    (S754_zero false) [Sched.OnMtuUpdate 1200] 0 1200 example_path_ok)
    as (cfg & _ & _ & H1 & H2 & _).
  exists cfg. exact (conj H1 H2).
Defined.

(** C7: starting from [MeasuredCc::new] on any route whose structure is in
    range, with round trips below 2^64 ns, no interleaving of observations, probes and transport rebuilds ever
    panics; and the next rebuild then configures the circuit from the last 256
    round trips: the initial RTT is their median up to the per-hop flooring,
    the loss threshold is the measured jitter when that is at least 1.5 and
    never below 1.5, the estimator is untouched, and a change is reported
    exactly when the parameters differ from the previous rebuild's. *)
Theorem measured_cc_drives_next_circuit
    (pr : profile) (itf : Z → option Z) (h mtu s : Z) (os : list mc_op) :
  in_u 32 h → pr = Release ∨ h < 2 ^ 31 → 0 ≤ mtu ∧ 2 * mtu < 2 ^ 64 →
  Forall mc_op_ok os →
  ∃ m cfg m' log med r thr j p,
    mc_run pr itf os (MeasuredCc_new h mtu s) = Some m ∧
    rtt_ns (est m) = last_n MAX_RTT_SAMPLES (mc_rtts os) ∧
    MeasuredCc_transport pr itf m = Some (cfg, m', log) ∧ est m' = est m ∧
    median_rtt_ns (est m) = Some med ∧
    (mc_rtts os ≠ [] → med ∈ last_n MAX_RTT_SAMPLES (mc_rtts os)) ∧
    current m = Some p ∧
    initial_rtt cfg = Some r ∧ med - 2 * hops p < r ≤ med ∧
    jitter_ratio (est m) = Some j ∧ time_threshold cfg = Some thr ∧
    SFleb threshold_floor thr = true ∧ (SFleb threshold_floor j = true → thr = j) ∧
    (is_Some log ↔ ∃ old, last m = Some old ∧ OracleParams_eqb old p = false).
Proof.
  intros Hh Hd Hm Hos.
  destruct (mc_run_ok pr itf os (MeasuredCc_new h mtu s) []) as (m & Hrun & Hok & Hw);
    [done|by apply MeasuredCc_new_ok|done|]. simpl in Hw.
  destruct (current_total _ _ Hok) as (p & med & Hp & Hpath & Hmed & Hin & _ & Hr).
  destruct (measured_transport_total pr itf m Hok)
    as (p' & j & cfg & m' & log & Hp' & Hj & Hcfg & HT & He & _ & _ & Hlog).
  assert (p' = p) as -> by congruence.
  destruct (quicmix_transport_total pr itf p j Hpath) as (t & w & Ht & _ & _ & Hf & Htj).
  rewrite Ht in Hcfg. simplify_eq. simpl.
  exists m. do 4 eexists. exists (2 * hops p * mean_hop_delay p), t, j, p.
  split_and!; try done; [|by apply (path_rtt pr)|lia|lia].
  rewrite <- Hw. intros Hne. apply Hin. rewrite Hw. intros E. apply Hne.
  apply (f_equal length) in E. rewrite last_n_length in E. cbn [length] in E.
  apply nil_length_inv. unfold MAX_RTT_SAMPLES in E. lia.
Qed.

Lemma measured_cc_drives_next_circuit_witness :
  let os := [OpRecordRtt 60000000; OpTransport;
             OpObserve (mkPathStats 90000000 1000 20 24000 3); OpRecordRtt 70000000] in
  ∃ m cfg m' log r,
    mc_run Debug (λ d, Some d) os (MeasuredCc_new 3 1200 1000000) = Some m ∧
    MeasuredCc_transport Debug (λ d, Some d) m = Some (cfg, m', log) ∧
    initial_rtt cfg = Some r.
Proof.
  simpl.
  destruct (measured_cc_drives_next_circuit Debug (λ d, Some d) 3 1200 1000000
    [OpRecordRtt 60000000; OpTransport;
     OpObserve (mkPathStats 90000000 1000 20 24000 3); OpRecordRtt 70000000])
    as (m & cfg & m' & log & med & r & thr & j & p & H1 & _ & H2 & _ & _ & _ & _ & H3 & _).
  - done.
  - by right.
  - done.
  - repeat constructor; done.
  - exists m, cfg, m', log, r. exact (conj H1 (conj H2 H3)).
Defined.

Example measured_rebuild_reports_change :
  (m ← mc_run Debug Some [OpRecordRtt 60000000; OpTransport; OpRecordRtt 80000000]
         (MeasuredCc_new 3 1200 1000000);
   '(_, _, log) ← MeasuredCc_transport Debug Some m;
   (λ l, (old_rtt l, new_rtt l, log_samples l)) <$> log) = Some (60000000, 79999998, 2%nat).
Proof. vm_compute. reflexivity. Qed.
