(* ===== verification/Substrate.v ===== *)
(** * The substrate boundary: [crates/quicmix/src/substrate.rs].

    [Substrate] wraps any [MixTransport] with a bounded paced send queue, a
    bounded receive channel, a live oracle and counters.  The two spawned pumps
    and the callers interleave: each command below is one atomic step of one of
    them, [exec] says when it is enabled and what it does, and [steps] closes it
    under arbitrary interleaving.  Ghost-free: histories are read off the
    observations of a run. *)

From S2P Require Import Prelude RustFloat Core.
Open Scope Z_scope.

(** ** Metrics. *)
Record Metrics := mkMetrics {
  m_sent : Z;
  m_received : Z;
  m_send_errors : Z;
  m_dropped : Z;
  m_queue_depth : Z;
  m_enqueue_latency_us : Z;
}.

Definition Metrics_default : Metrics := mkMetrics 0 0 0 0 0 0.

(** [Metrics::snapshot]: six relaxed loads; the copy has the same fields. *)
Record MetricsSnapshot := mkMetricsSnapshot {
  s_sent : Z; s_received : Z; s_send_errors : Z; s_dropped : Z;
  s_queue_depth : Z; s_enqueue_latency_us : Z;
}.

Definition snapshot (m : Metrics) : MetricsSnapshot :=
  mkMetricsSnapshot (m_sent m) (m_received m) (m_send_errors m) (m_dropped m)
    (m_queue_depth m) (m_enqueue_latency_us m).

Definition incr_sent (m : Metrics) : Metrics :=
  mkMetrics (wrapping_incr 64 (m_sent m)) (m_received m) (m_send_errors m) (m_dropped m)
    (m_queue_depth m) (m_enqueue_latency_us m).
Definition incr_received (m : Metrics) : Metrics :=
  mkMetrics (m_sent m) (wrapping_incr 64 (m_received m)) (m_send_errors m) (m_dropped m)
    (m_queue_depth m) (m_enqueue_latency_us m).
Definition incr_send_errors (m : Metrics) : Metrics :=
  mkMetrics (m_sent m) (m_received m) (wrapping_incr 64 (m_send_errors m)) (m_dropped m)
    (m_queue_depth m) (m_enqueue_latency_us m).
Definition incr_dropped (m : Metrics) : Metrics :=
  mkMetrics (m_sent m) (m_received m) (m_send_errors m) (wrapping_incr 64 (m_dropped m))
    (m_queue_depth m) (m_enqueue_latency_us m).
Definition set_gauges (depth latency : Z) (m : Metrics) : Metrics :=
  mkMetrics (m_sent m) (m_received m) (m_send_errors m) (m_dropped m) depth latency.

(** ** State. *)

(** The receive pump: reading the inner transport, holding an item the full
    channel has no room for, or ended. *)
Inductive recv_pump_state : Type :=
| RpReading
| RpBlocked (item : result SubstrateError bytes)
| RpDone.

(** The send pump: at [recv] (or asleep), between taking a datagram and handing
    it on, or awaiting the inner [try_send] it called at [start]. *)
Inductive send_pump_state : Type :=
| SpIdle
| SpTaken (enqueued : Z) (d : bytes)
| SpSending (start : Z) (d : bytes).

Section Boundary.
Context {T : Type} `{MixTransport T}.

Record Substrate := mkSubstrate {
  inner : T;
  depth : nat;
  sub_kind : SubstrateKind;
  (** the [watch] cell shared by [oracle_tx]/[oracle_rx] *)
  oracle_cell : OracleParams;
  metrics : Metrics;
  (** [send_tx]/[send_rx]: timestamped datagrams, oldest first *)
  send_q : list (Z * bytes);
  (** is the send pump task alive (its end of the queue open)? *)
  pump_alive : bool;
  pump_state : send_pump_state;
  (** earliest instant at which the pump takes its next datagram *)
  pump_wake : Z;
  (** [recv_tx]/[recv_rx] *)
  recv_q : list (result SubstrateError bytes);
  recv_pump : recv_pump_state;
  clock : Z;
}.

Definition new (inner : T) (queue_depth : nat) (now : Z) : Substrate :=
  {| inner := inner; depth := Nat.max queue_depth 1; sub_kind := kind inner;
     oracle_cell := oracle inner; metrics := Metrics_default;
     send_q := []; pump_alive := true; pump_state := SpIdle; pump_wake := now;
     recv_q := []; recv_pump := RpReading; clock := now |}.

Definition set_send (s : Substrate) (q : list (Z * bytes)) (wake : Z) (t : T) (m : Metrics)
    (now : Z) : Substrate :=
  {| inner := t; depth := depth s; sub_kind := sub_kind s; oracle_cell := oracle_cell s;
     metrics := m; send_q := q; pump_alive := pump_alive s; pump_state := pump_state s; pump_wake := wake;
     recv_q := recv_q s; recv_pump := recv_pump s; clock := now |}.

Definition set_pump (s : Substrate) (q : list (Z * bytes)) (st : send_pump_state) (wake : Z) (t : T)
    (m : Metrics) (now : Z) : Substrate :=
  {| inner := t; depth := depth s; sub_kind := sub_kind s; oracle_cell := oracle_cell s;
     metrics := m; send_q := q; pump_alive := pump_alive s; pump_state := st; pump_wake := wake;
     recv_q := recv_q s; recv_pump := recv_pump s; clock := now |}.

Definition set_recv (s : Substrate) (q : list (result SubstrateError bytes))
    (rp : recv_pump_state) (t : T) (m : Metrics) : Substrate :=
  {| inner := t; depth := depth s; sub_kind := sub_kind s; oracle_cell := oracle_cell s;
     metrics := m; send_q := send_q s; pump_alive := pump_alive s; pump_state := pump_state s;
     pump_wake := pump_wake s;
     recv_q := q; recv_pump := rp; clock := clock s |}.

(** The datagram carries the time of the call that sent it. *)
Definition enqueue (called now : Z) (d : bytes) (s : Substrate) : Substrate :=
  set_send s (send_q s ++ [(called, d)]) (pump_wake s) (inner s) (metrics s) now.

Definition at_time (now : Z) (s : Substrate) : Substrate :=
  set_send s (send_q s) (pump_wake s) (inner s) (metrics s) now.

Definition abort_pump (s : Substrate) : Substrate :=
  {| inner := inner s; depth := depth s; sub_kind := sub_kind s; oracle_cell := oracle_cell s;
     metrics := metrics s; send_q := []; pump_alive := false; pump_state := SpIdle; pump_wake := pump_wake s;
     recv_q := recv_q s; recv_pump := recv_pump s; clock := clock s |}.

Definition has_room (s : Substrate) : bool := bool_decide (length (send_q s) < depth s)%nat.

(** [mpsc::Sender::try_send]. *)
Inductive TrySendError : Set := TsFull | TsClosed.
Definition mpsc_try_send (now : Z) (d : bytes) (s : Substrate) :
    result TrySendError () * Substrate :=
  if negb (pump_alive s) then (Err TsClosed, at_time now s)
  else if has_room s then (Ok (), enqueue now now d s)
  else (Err TsFull, at_time now s).

(** [mpsc::Sender::send]: pending while the queue is full. *)
Definition mpsc_send (called now : Z) (d : bytes) (s : Substrate) : poll (result () () * Substrate) :=
  if negb (pump_alive s) then Ready (Err (), at_time now s)
  else if has_room s then Ready (Ok (), enqueue called now d s)
  else Pending.

(** [Substrate::send], called at [called] and polled at [now]. *)
Definition Substrate_send (called now : Z) (d : bytes) (s : Substrate) :
    poll (result SubstrateError () * Substrate) :=
  prod_map (map_err (λ _, Closed)) id <$> mpsc_send called now d s.

(** [Substrate::send_timeout]: [timeout] polls the send first, and resolves to
    [Backpressure] once [deadline] has passed with the queue still full. *)
Definition Substrate_send_timeout (called now deadline : Z) (d : bytes) (s : Substrate) :
    poll (result SubstrateError () * Substrate) :=
  match mpsc_send called now d s with
  | Ready (Ok _, s') => Ready (Ok (), s')
  | Ready (Err _, s') => Ready (Err Closed, s')
  | Pending => if deadline <=? now then Ready (Err Backpressure, at_time now s) else Pending
  end.

(** [Substrate::try_send]. *)
Definition Substrate_try_send (now : Z) (d : bytes) (s : Substrate) :
    result SubstrateError () * Substrate :=
  prod_map (map_err (λ e, match e with TsFull => Backpressure | TsClosed => Closed end)) id
    (mpsc_try_send now d s).

(** [<Substrate as MixTransport>::send]: lossy, counts what it drops. *)
Definition Substrate_lossy_send (now : Z) (d : bytes) (s : Substrate) : Substrate :=
  match mpsc_try_send now d s with
  | (Ok _, s') => s'
  | (Err _, s') => set_send s' (send_q s') (pump_wake s') (inner s') (incr_dropped (metrics s')) now
  end.

(** The send pump's turn has three parts, and callers run between them.
    [send_rx.recv()] returns the oldest datagram, once the pump has slept. *)
Definition pump_take (now : Z) (s : Substrate) : option Substrate :=
  if negb (pump_alive s && (pump_wake s <=? now)) then None
  else match pump_state s, send_q s with
  | SpIdle, (enqueued, dg) :: q =>
      Some (set_pump s q (SpTaken enqueued dg) (pump_wake s) (inner s) (metrics s) now)
  | _, _ => None
  end.

(** It sets the gauges, the depth being the queue's length by now, and calls
    the inner [try_send]. *)
Definition pump_begin (now : Z) (s : Substrate) : option Substrate :=
  match pump_state s with
  | SpTaken enqueued dg =>
      let m := set_gauges (Z.of_nat (length (send_q s))) (wrap 64 ((now - enqueued) / 1000)) (metrics s) in
      Some (set_pump s (send_q s) (SpSending now dg) (pump_wake s) (inner s) m now)
  | _ => None
  end.

(** The inner [try_send] returns at [fin]: count the outcome and sleep one live
    slot. *)
Definition send_pump (fin : Z) (s : Substrate) : option (Z * bytes * result SubstrateError () * Substrate) :=
  match pump_state s with
  | SpSending start dg =>
      let (r, t) := try_send dg (inner s) in
      let m := match r with Ok _ => incr_sent (metrics s) | Err _ => incr_send_errors (metrics s) end in
      let slot := slot_interval (oracle_cell s) in
      let wake := if slot =? 0 then fin else fin + slot in
      Some (start, dg, r, set_pump s (send_q s) SpIdle wake t m fin)
  | _ => None
  end.

(** The datagram the pump holds. *)
Definition in_hand (s : Substrate) : list bytes :=
  match pump_state s with SpIdle => [] | SpTaken _ d | SpSending _ d => [d] end.

Definition recv_room (s : Substrate) : bool := bool_decide (length (recv_q s) < depth s)%nat.

(** [recv_tx.send(item).await] and what the pump does next. *)
Definition push_recv (item : result SubstrateError bytes) (s : Substrate) : Substrate :=
  if recv_room s
  then set_recv s (recv_q s ++ [item]) (match item with Ok _ => RpReading | Err _ => RpDone end)
         (inner s) (metrics s)
  else set_recv s (recv_q s) (RpBlocked item) (inner s) (metrics s).

(** One turn of the receive pump: the item read from the inner transport, if
    this turn read one. *)
Definition recv_pump_turn (s : Substrate) :
    option (option (result SubstrateError bytes) * Substrate) :=
  match recv_pump s with
  | RpDone => None
  | RpBlocked item => if recv_room s then Some (None, push_recv item s) else None
  | RpReading =>
      match try_recv (inner s) with
      | Pending => None
      | Ready (r, t) =>
          let m := match r with Ok _ => incr_received (metrics s) | Err _ => metrics s end in
          Some (Some r, push_recv r (set_recv s (recv_q s) RpReading t m))
      end
  end.

(** [mpsc::Receiver::recv] on the receive channel: [None] once it is empty and
    the pump (its only sender) has ended. *)
Definition mpsc_recv (s : Substrate) : poll (option (result SubstrateError bytes) * Substrate) :=
  match recv_q s with
  | r :: q => Ready (Some r, set_recv s q (recv_pump s) (inner s) (metrics s))
  | [] => match recv_pump s with RpDone => Ready (None, s) | _ => Pending end
  end.

(** [Substrate::recv] and the trait's lossy [recv]. *)
Definition Substrate_recv (s : Substrate) : poll (result SubstrateError bytes * Substrate) :=
  prod_map (λ o, default (Err Closed) o) id <$> mpsc_recv s.
Definition Substrate_lossy_recv (s : Substrate) : poll (option bytes * Substrate) :=
  prod_map (λ o, match o with Some (Ok dg) => Some dg | _ => None end) id <$> mpsc_recv s.

Definition update_oracle (p : OracleParams) (s : Substrate) : Substrate :=
  {| inner := inner s; depth := depth s; sub_kind := sub_kind s; oracle_cell := p;
     metrics := metrics s; send_q := send_q s; pump_alive := pump_alive s; pump_state := pump_state s;
     pump_wake := pump_wake s; recv_q := recv_q s; recv_pump := recv_pump s;
     clock := clock s |}.
Definition oracle_watch (s : Substrate) : OracleParams := oracle_cell s.
Definition Substrate_metrics (s : Substrate) : MetricsSnapshot := snapshot (metrics s).

(** The decorator is itself a [MixTransport]; the fallible methods are the
    trait's defaults, which it does not override. *)
#[global] Instance Substrate_MixTransport (now : Z) : MixTransport Substrate | 10 := {
  kind := sub_kind;
  oracle := oracle_cell;
  send d s := Substrate_lossy_send now d s;
  recv s := Substrate_lossy_recv s;
  try_send := default_try_send (Substrate_lossy_send now);
  try_recv := default_try_recv Substrate_lossy_recv;
}.

#[global] Instance Substrate_laws (now : Z) :
  @MixTransportLaws Substrate (Substrate_MixTransport now).
Proof. split; [done|]. apply default_recv_law. Qed.

(** ** Commands and runs. *)
Inductive cmd : Type :=
| CSend (called now : Z) (d : bytes)
| CSendTimeout (called now deadline : Z) (d : bytes)
| CTrySend (now : Z) (d : bytes)
| CLossySend (now : Z) (d : bytes)
| CTake (now : Z)
| CBegin (now : Z)
| CSendPump (fin : Z)
| CRecvPump
| CRecv
| CUpdateOracle (p : OracleParams)
(** the network and other users of the inner transport *)
| CInner (t : T)
(** the send pump task is torn down (runtime shutdown, a panicking inner
    transport): its end of the queue is dropped, with what is queued and what
    it holds *)
| CAbortPump.

(** What a step shows: a refused or accepted send, a hand-off to the inner
    transport, an item read from it, an item returned to the consumer. *)
Inductive obs : Type :=
| ORefused (d : bytes) (e : SubstrateError)
| ODropped (d : bytes)
| OAccepted (d : bytes)
| OHanded (now fin : Z) (slot : Z) (d : bytes) (r : result SubstrateError ())
| ORead (r : result SubstrateError bytes)
| OReturned (r : result SubstrateError bytes)
| OLost (ds : list bytes)
| OSilent.

Definition sent_obs (d : bytes) (r : result SubstrateError ()) : obs :=
  match r with Ok _ => OAccepted d | Err e => ORefused d e end.

Definition of_poll {A B} (f : A → B) (p : poll A) : option B :=
  match p with Ready a => Some (f a) | Pending => None end.

(** One atomic step; [None] when the command is not enabled (pending, or in
    the past). *)
Definition exec (c : cmd) (s : Substrate) : option (obs * Substrate) :=
  match c with
  | CSend called now d =>
      if now <? clock s then None
      else of_poll (λ '(r, s'), (sent_obs d r, s')) (Substrate_send called now d s)
  | CSendTimeout called now deadline d =>
      if now <? clock s then None
      else of_poll (λ '(r, s'), (sent_obs d r, s')) (Substrate_send_timeout called now deadline d s)
  | CTrySend now d =>
      if now <? clock s then None
      else let '(r, s') := Substrate_try_send now d s in Some (sent_obs d r, s')
  | CLossySend now d =>
      if now <? clock s then None
      else Some (if pump_alive s && has_room s then OAccepted d else ODropped d,
                 Substrate_lossy_send now d s)
  | CTake now =>
      if now <? clock s then None else s' ← pump_take now s; Some (OSilent, s')
  | CBegin now =>
      if now <? clock s then None else s' ← pump_begin now s; Some (OSilent, s')
  | CSendPump fin =>
      if fin <? clock s then None
      else '(start, d, r, s') ← send_pump fin s;
           Some (OHanded start fin (slot_interval (oracle_cell s)) d r, s')
  | CRecvPump =>
      '(r, s') ← recv_pump_turn s;
      Some (match r with Some r => ORead r | None => OSilent end, s')
  | CRecv => of_poll (λ '(r, s'), (OReturned r, s')) (Substrate_recv s)
  | CUpdateOracle p => Some (OSilent, update_oracle p s)
  | CInner t => Some (OSilent, set_recv s (recv_q s) (recv_pump s) t (metrics s))
  | CAbortPump => Some (OLost (in_hand s ++ (send_q s).*2), abort_pump s)
  end.

(** Runs: [steps s tr s'] when some sequence of commands takes [s] to [s']
    showing [tr]. *)
Inductive steps (s0 : Substrate) : list obs → Substrate → Prop :=
| steps_refl : steps s0 [] s0
| steps_snoc tr s c o s' :
    steps s0 tr s → exec c s = Some (o, s') → steps s0 (tr ++ [o]) s'.

(** The executable counterpart: run a list of commands. *)
Fixpoint run (cs : list cmd) (s : Substrate) : option (list obs * Substrate) :=
  match cs with
  | [] => Some ([], s)
  | c :: cs =>
      '(o, s1) ← exec c s; '(os, s2) ← run cs s1; Some (o :: os, s2)
  end.

(** ** What a step does, command by command. *)
Inductive effect (s : Substrate) : obs → Substrate → Prop :=
| EffAccept called now d :
    clock s ≤ now → pump_alive s = true → (length (send_q s) < depth s)%nat →
    effect s (OAccepted d) (enqueue called now d s)
| EffRefuse now d e :
    clock s ≤ now →
    e = Closed ∧ pump_alive s = false ∨
    e = Backpressure ∧ pump_alive s = true ∧ (depth s ≤ length (send_q s))%nat →
    effect s (ORefused d e) (at_time now s)
| EffDrop now d :
    clock s ≤ now → pump_alive s = false ∨ (depth s ≤ length (send_q s))%nat →
    effect s (ODropped d)
      (set_send s (send_q s) (pump_wake s) (inner s) (incr_dropped (metrics s)) now)
| EffTake now enq d q :
    clock s ≤ now → pump_alive s = true → pump_wake s ≤ now → pump_state s = SpIdle →
    send_q s = (enq, d) :: q →
    effect s OSilent (set_pump s q (SpTaken enq d) (pump_wake s) (inner s) (metrics s) now)
| EffBegin now enq d m :
    clock s ≤ now → pump_state s = SpTaken enq d →
    m = set_gauges (Z.of_nat (length (send_q s))) (wrap 64 ((now - enq) / 1000)) (metrics s) →
    effect s OSilent (set_pump s (send_q s) (SpSending now d) (pump_wake s) (inner s) m now)
| EffHand start fin d r t :
    clock s ≤ fin → pump_state s = SpSending start d → try_send d (inner s) = (r, t) →
    effect s (OHanded start fin (slot_interval (oracle_cell s)) d r)
      (set_pump s (send_q s) SpIdle (fin + slot_interval (oracle_cell s)) t
         (match r with Ok _ => incr_sent (metrics s) | Err _ => incr_send_errors (metrics s) end) fin)
| EffRead r t rp q m :
    recv_pump s = RpReading → try_recv (inner s) = Ready (r, t) →
    m = (match r with Ok _ => incr_received (metrics s) | Err _ => metrics s end) →
    (length (recv_q s) < depth s)%nat ∧ q = recv_q s ++ [r] ∧
      rp = (match r with Ok _ => RpReading | Err _ => RpDone end) ∨
    (depth s ≤ length (recv_q s))%nat ∧ q = recv_q s ∧ rp = RpBlocked r →
    effect s (ORead r) (set_recv s q rp t m)
| EffUnblock r :
    recv_pump s = RpBlocked r → (length (recv_q s) < depth s)%nat →
    effect s OSilent
      (set_recv s (recv_q s ++ [r]) (match r with Ok _ => RpReading | Err _ => RpDone end)
         (inner s) (metrics s))
| EffReturn r q :
    recv_q s = r :: q →
    effect s (OReturned r) (set_recv s q (recv_pump s) (inner s) (metrics s))
| EffEnded :
    recv_q s = [] → recv_pump s = RpDone → effect s (OReturned (Err Closed)) s
| EffOracle p : effect s OSilent (update_oracle p s)
| EffInner t : effect s OSilent (set_recv s (recv_q s) (recv_pump s) t (metrics s))
| EffAbort : effect s (OLost (in_hand s ++ (send_q s).*2)) (abort_pump s).

Lemma mpsc_try_send_cases now d s :
  (pump_alive s = true ∧ (length (send_q s) < depth s)%nat ∧
     mpsc_try_send now d s = (Ok (), enqueue now now d s)) ∨
  (pump_alive s = false ∧ mpsc_try_send now d s = (Err TsClosed, at_time now s)) ∨
  (pump_alive s = true ∧ (depth s ≤ length (send_q s))%nat ∧
     mpsc_try_send now d s = (Err TsFull, at_time now s)).
Proof.
  unfold mpsc_try_send, has_room. destruct (pump_alive s); simpl; [|by auto].
  case_bool_decide; [by auto|]. right; right. split_and!; try done; lia.
Qed.

Lemma mpsc_send_cases called now d s :
  (pump_alive s = true ∧ (length (send_q s) < depth s)%nat ∧
     mpsc_send called now d s = Ready (Ok (), enqueue called now d s)) ∨
  (pump_alive s = false ∧ mpsc_send called now d s = Ready (Err (), at_time now s)) ∨
  (pump_alive s = true ∧ (depth s ≤ length (send_q s))%nat ∧ mpsc_send called now d s = Pending).
Proof.
  unfold mpsc_send, has_room. destruct (pump_alive s); simpl; [|by auto].
  case_bool_decide; [by auto|]. right; right. split_and!; try done; lia.
Qed.

Lemma exec_effect c s o s' : exec c s = Some (o, s') → effect s o s'.
Proof.
  destruct c as [called now d|called now dl d|now d|now d|now|now|fin| | |p|t|]; simpl.
  - destruct (now <? clock s) eqn:Et; [done|]. apply Z.ltb_ge in Et. unfold Substrate_send.
    destruct (mpsc_send_cases called now d s) as [(?&?&->)|[(?&->)|(?&?&->)]];
      simpl; intros; simplify_eq; constructor; auto.
  - destruct (now <? clock s) eqn:Et; [done|]. apply Z.ltb_ge in Et.
    unfold Substrate_send_timeout.
    destruct (mpsc_send_cases called now d s) as [(?&?&->)|[(?&->)|(?&?&->)]];
      repeat case_match; simpl; intros; simplify_eq/=; constructor; auto.
  - destruct (now <? clock s) eqn:Et; [done|]. apply Z.ltb_ge in Et. unfold Substrate_try_send.
    destruct (mpsc_try_send_cases now d s) as [(?&?&->)|[(?&->)|(?&?&->)]];
      simpl; intros; simplify_eq; constructor; auto.
  - destruct (now <? clock s) eqn:Et; [done|]. apply Z.ltb_ge in Et.
    unfold Substrate_lossy_send, has_room.
    destruct (mpsc_try_send_cases now d s) as [(Ha&?&->)|[(Ha&->)|(Ha&?&->)]];
      rewrite Ha; simpl; try case_bool_decide; try lia; intros [= <- <-];
      first [by apply EffAccept|apply (EffDrop s now d); by auto].
  - destruct (now <? clock s) eqn:Et; [done|]. apply Z.ltb_ge in Et. unfold pump_take.
    destruct (pump_alive s) eqn:Ha, (pump_wake s <=? now) eqn:Hw; try done. apply Z.leb_le in Hw. simpl.
    destruct (pump_state s) eqn:Ep; try done. destruct (send_q s) as [|[enq dg] q] eqn:Eq; [done|].
    intros [= <- <-]. by apply EffTake.
  - destruct (now <? clock s) eqn:Et; [done|]. apply Z.ltb_ge in Et. unfold pump_begin.
    destruct (pump_state s) eqn:Ep; try done. intros [= <- <-]. by eapply EffBegin.
  - destruct (fin <? clock s) eqn:Et; [done|]. apply Z.ltb_ge in Et. unfold send_pump.
    destruct (pump_state s) as [| |start dg] eqn:Ep; try done. destruct (try_send dg (inner s)) as [r t] eqn:Er.
    intros [= <- <-].
    replace (if slot_interval (oracle_cell s) =? 0 then fin else fin + slot_interval (oracle_cell s))
      with (fin + slot_interval (oracle_cell s))
      by (destruct (Z.eqb_spec (slot_interval (oracle_cell s)) 0); lia).
    by apply EffHand.
  - unfold recv_pump_turn, push_recv, recv_room.
    destruct (recv_pump s) as [|item|] eqn:Erp; simpl; [| |done].
    + destruct (try_recv (inner s)) as [[r t]|] eqn:Er; [|done]. simpl.
      case_bool_decide; intros [= <- <-]; (eapply (EffRead s r t); [done..|]).
      * by left.
      * right. split_and!; try done; lia.
    + case_bool_decide; [|done]. simpl. intros [= <- <-]. by apply EffUnblock.
  - unfold Substrate_recv, mpsc_recv.
    destruct (recv_q s) as [|r q] eqn:Eq; [destruct (recv_pump s) eqn:Erp|]; simpl;
      intros; simplify_eq; by constructor.
  - intros [= <- <-]. constructor.
  - intros [= <- <-]. constructor.
  - intros [= <- <-]. constructor.
Qed.

(** ** Histories read off a run. *)
Definition accepted (tr : list obs) : list bytes :=
  omap (λ o, match o with OAccepted d => Some d | _ => None end) tr.
Definition handed (tr : list obs) : list (Z * Z * Z * bytes * result SubstrateError ()) :=
  omap (λ o, match o with OHanded now fin slot d r => Some (now, fin, slot, d, r)
             | _ => None end) tr.
Definition lost (tr : list obs) : list bytes :=
  tr ≫= λ o, match o with OLost ds => ds | _ => [] end.
Definition dropped (tr : list obs) : list bytes :=
  omap (λ o, match o with ODropped d => Some d | _ => None end) tr.
Definition reads (tr : list obs) : list (result SubstrateError bytes) :=
  omap (λ o, match o with ORead r => Some r | _ => None end) tr.
Definition returned (tr : list obs) : list (result SubstrateError bytes) :=
  omap (λ o, match o with OReturned r => Some r | _ => None end) tr.

Definition h_now (h : Z * Z * Z * bytes * result SubstrateError ()) : Z := h.1.1.1.1.
Definition h_fin (h : Z * Z * Z * bytes * result SubstrateError ()) : Z := h.1.1.1.2.
Definition h_slot (h : Z * Z * Z * bytes * result SubstrateError ()) : Z := h.1.1.2.
Definition h_dg (h : Z * Z * Z * bytes * result SubstrateError ()) : bytes := h.1.2.
Definition h_res (h : Z * Z * Z * bytes * result SubstrateError ()) :
    result SubstrateError () := h.2.

(** Hand-offs the inner transport accepted, and those it failed. *)
Definition handed_ok (tr : list obs) : nat :=
  length (filter (λ h, is_err (h_res h) = false) (handed tr)).
Definition handed_err (tr : list obs) : nat :=
  length (filter (λ h, is_err (h_res h) = true) (handed tr)).
Definition reads_ok (tr : list obs) : nat :=
  length (filter (λ r, is_err r = false) (reads tr)).

Lemma accepted_snoc tr o : accepted (tr ++ [o]) = accepted tr ++ accepted [o].
Proof. apply omap_app. Qed.
Lemma handed_snoc tr o : handed (tr ++ [o]) = handed tr ++ handed [o].
Proof. apply omap_app. Qed.
Lemma dropped_snoc tr o : dropped (tr ++ [o]) = dropped tr ++ dropped [o].
Proof. apply omap_app. Qed.
Lemma reads_snoc tr o : reads (tr ++ [o]) = reads tr ++ reads [o].
Proof. apply omap_app. Qed.
Lemma returned_snoc tr o : returned (tr ++ [o]) = returned tr ++ returned [o].
Proof. apply omap_app. Qed.
Lemma lost_snoc tr o : lost (tr ++ [o]) = lost tr ++ lost [o].
Proof. apply bind_app. Qed.
Hint Rewrite accepted_snoc handed_snoc dropped_snoc reads_snoc returned_snoc lost_snoc : trace.

(** Rule induction over runs, one effect at a time. *)
Lemma steps_effect_ind (P : list obs → Substrate → Prop) s0 :
  P [] s0 →
  (∀ tr s o s', P tr s → effect s o s' → P (tr ++ [o]) s') →
  ∀ tr s, steps s0 tr s → P tr s.
Proof. intros H0 Hs tr s Hst. induction Hst; eauto using exec_effect. Qed.

(** ** Invariants. *)
Record fifo_inv (tr : list obs) (s : Substrate) : Prop := {
  fi_order : accepted tr = (h_dg <$> handed tr) ++ lost tr ++ in_hand s ++ (send_q s).*2;
  fi_alive : pump_alive s = true → lost tr = [];
  fi_dead : pump_alive s = false → send_q s = [] ∧ pump_state s = SpIdle;
  fi_depth : (1 ≤ depth s)%nat;
  fi_cap : (length (send_q s) ≤ depth s)%nat;
  fi_rcap : (length (recv_q s) ≤ depth s)%nat;
  fi_gauge : 0 ≤ m_queue_depth (metrics s) ≤ Z.of_nat (depth s);
}.

Lemma fifo_inv_step tr s o s' : fifo_inv tr s → effect s o s' → fifo_inv (tr ++ [o]) s'.
Proof.
  intros [Ho Hal Hde Hd Hc Hrc Hg] He. unfold in_hand in Ho.
  destruct He as [called now d ? Hp Hl|now d e|now d|now enq d q ? Hp ? Hst Hq|now enq d m ? Hst ->
    |start fin d r t ? Hst Ht|r t rp q m ? ? ? Hor|r ? Hroom|r q Hq|Hq ?|p|t|]; split; autorewrite with trace;
    unfold in_hand; cbn; rewrite ?app_nil_r, ?length_app, ?fmap_app; cbn; auto with lia.
  - by rewrite Ho, !app_assoc.
  - congruence.
  - by rewrite Ho, Hst, Hq.
  - congruence.
  - rewrite Hq in Hc. cbn in Hc. lia.
  - by rewrite Ho, Hst.
  - intros Hf. destruct (Hde Hf). congruence.
  - rewrite Ho, Hst. assert (lost tr = []) as ->.
    { destruct (pump_alive s); [auto|]. destruct Hde; [done|congruence]. }
    by rewrite <- app_assoc.
  - intros Hf. split; [|done]. by apply Hde.
  - destruct r; cbn; lia.
  - destruct Hor as [(?&->&?)|(?&->&?)]; rewrite ?length_app; cbn; lia.
  - match goal with Hm : m = _ |- _ => rewrite Hm end. by destruct r.
  - rewrite Hq in Hrc. cbn in Hrc. lia.
Qed.

Record counter_inv (tr : list obs) (s : Substrate) : Prop := {
  ci_sent : m_sent (metrics s) = wrap 64 (Z.of_nat (handed_ok tr));
  ci_errors : m_send_errors (metrics s) = wrap 64 (Z.of_nat (handed_err tr));
  ci_dropped : m_dropped (metrics s) = wrap 64 (Z.of_nat (length (dropped tr)));
  ci_received : m_received (metrics s) = wrap 64 (Z.of_nat (reads_ok tr));
}.

Lemma wrapping_incr_wrap w n : 0 ≤ w → wrapping_incr w (wrap w n) = wrap w (n + 1).
Proof. intros. unfold wrapping_incr, wrap. rewrite Zplus_mod_idemp_l. done. Qed.

Lemma counter_inv_step tr s o s' : counter_inv tr s → effect s o s' → counter_inv (tr ++ [o]) s'.
Proof.
  intros [Hs He Hd Hr] Heff.
  destruct Heff; split; unfold handed_ok, handed_err, reads_ok in *;
    autorewrite with trace; simpl; rewrite ?app_nil_r, ?filter_app, ?length_app; auto;
    subst; try destruct r; simpl; rewrite ?Hs, ?He, ?Hd, ?Hr, ?wrapping_incr_wrap by lia;
    f_equal; lia.
Qed.

(** Consecutive hand-offs are at least one slot apart, and the pump sleeps
    past the last one. *)
Definition paced (hs : list (Z * Z * Z * bytes * result SubstrateError ())) : Prop :=
  ∀ i h h', hs !! i = Some h → hs !! S i = Some h' → h_fin h + h_slot h ≤ h_now h'.

Record pace_inv (tr : list obs) (s : Substrate) : Prop := {
  pi_paced : paced (handed tr);
  pi_order : Forall (λ h, h_now h ≤ h_fin h) (handed tr);
  pi_wake : ∀ hs h, handed tr = hs ++ [h] → h_fin h + h_slot h ≤ pump_wake s;
  pi_held : match pump_state s with
            | SpIdle => True
            | SpTaken _ _ => pump_wake s ≤ clock s
            | SpSending start _ => pump_wake s ≤ start ≤ clock s
            end;
}.

Lemma paced_snoc hs h :
  paced hs → (∀ hs' h', hs = hs' ++ [h'] → h_fin h' + h_slot h' ≤ h_now h) → paced (hs ++ [h]).
Proof.
  intros Hp Hl i a b Ha Hb.
  destruct (decide (S i < length hs)%nat).
  - rewrite lookup_app_l in Ha, Hb by lia. eauto.
  - pose proof (lookup_lt_Some _ _ _ Hb) as Hlt. rewrite length_app in Hlt. simpl in Hlt.
    assert (S i = length hs) as Hi by lia.
    rewrite lookup_app_r, Hi, Nat.sub_diag in Hb by lia. injection Hb as ->.
    rewrite lookup_app_l in Ha by lia.
    destruct (exists_last (l := hs)) as (hs' & h' & ->); [by intros ->|].
    rewrite length_app in Hi. simpl in Hi.
    rewrite lookup_app_r in Ha by lia. replace (i - length hs')%nat with 0%nat in Ha by lia.
    injection Ha as ->. by apply (Hl hs').
Qed.

Lemma pace_inv_step tr s o s' : pace_inv tr s → effect s o s' → pace_inv (tr ++ [o]) s'.
Proof.
  intros [Hp Hf Hw Hh] He.
  destruct He; split; autorewrite with trace; cbn; rewrite ?app_nil_r; auto;
    try (destruct (pump_state s); try done; lia);
    try match goal with Hst : pump_state s = _ |- _ => rewrite Hst in Hh end.
  - apply paced_snoc; [done|]. intros hs' h' E. pose proof (Hw _ _ E). unfold h_now. cbn. lia.
  - apply Forall_app. split; [done|]. constructor; [|done]. unfold h_now, h_fin. cbn. lia.
  - intros hs h [_ [= <-]]%app_inj_tail. unfold h_fin, h_slot. cbn. lia.
Qed.

(** The receive side: what the pump read is what was returned, then what is
    queued, then what it holds; an error ends the stream. *)
Definition held (s : Substrate) : list (result SubstrateError bytes) :=
  match recv_pump s with RpBlocked r => [r] | _ => [] end.

Definition ok_then_err (rs : list (result SubstrateError bytes)) (ended : bool) : Prop :=
  ∃ ds, if ended then ∃ e, rs = (Ok <$> ds) ++ [Err e] else rs = Ok <$> ds.

Definition reading_ended (s : Substrate) : bool :=
  match recv_pump s with RpReading => false | RpBlocked r => is_err r | RpDone => true end.

Record recv_inv (tr : list obs) (s : Substrate) : Prop := {
  ri_order : ∃ k rs, returned tr = rs ++ replicate k (Err Closed) ∧
               reads tr = rs ++ recv_q s ++ held s ∧
               (k ≠ 0%nat → recv_q s = [] ∧ recv_pump s = RpDone);
  ri_shape : ok_then_err (reads tr) (reading_ended s);
}.

Lemma ok_then_err_snoc rs r :
  ok_then_err rs false → ok_then_err (rs ++ [r]) (is_err r).
Proof.
  intros [ds ->]. destruct r as [d|e]; simpl.
  - exists (ds ++ [d]). by rewrite fmap_app.
  - exists ds. eauto.
Qed.

Lemma recv_inv_step tr s o s' : recv_inv tr s → effect s o s' → recv_inv (tr ++ [o]) s'.
Proof.
  intros [(k & rs & Hret & Hread & Hk) Hsh] He.
  assert (Hk0 : recv_q s ≠ [] ∨ recv_pump s ≠ RpDone → k = 0%nat) by (destruct k; naive_solver).
  unfold reading_ended, held in *.
  destruct He as [ | | | | | |r t rp q m Hrp _ _ Hq|r Hrp Hroom|r q Hq|Hq Hrp| | | ];
    split; autorewrite with trace; simpl; rewrite ?app_nil_r; auto; try (exists k, rs; by auto).
  - rewrite Hrp in *. rewrite Hk0 in * by by right. exists 0%nat, rs.
    rewrite app_nil_r in *. destruct Hq as [(_ & -> & ->)|(_ & -> & ->)];
      split_and!; try done; [destruct r|]; by rewrite Hread, ?app_nil_r, <- ?app_assoc.
  - rewrite Hrp in *. destruct Hq as [(_ & _ & ->)|(_ & _ & ->)];
      pose proof (ok_then_err_snoc _ r Hsh) as Hs; by destruct r.
  - rewrite Hrp in *. rewrite Hk0 in * by by right. exists 0%nat, rs.
    split_and!; try done. rewrite Hread. destruct r; by rewrite ?app_nil_r.
  - rewrite Hrp in Hsh. by destruct r.
  - rewrite Hq in *. rewrite Hk0 in * by by left. exists 0%nat, (rs ++ [r]).
    simpl in *. rewrite app_nil_r in *. split_and!; try done.
    + by rewrite Hret.
    + by rewrite Hread, <- app_assoc.
  - exists (S k), rs. rewrite Hret, <- app_assoc, <- replicate_S_end. auto.
Qed.

(** Initial states. *)
Lemma fifo_inv_new t n now : fifo_inv [] (new t n now).
Proof. split; simpl; try done; lia. Qed.
Lemma counter_inv_new t n now : counter_inv [] (new t n now).
Proof. by split. Qed.
Lemma pace_inv_new t n now : pace_inv [] (new t n now).
Proof. split; simpl; [intros i a b H1; done|constructor|by intros []|done]. Qed.
Lemma recv_inv_new t n now : recv_inv [] (new t n now).
Proof. split; simpl; [exists 0%nat, []; naive_solver|by exists []]. Qed.
End Boundary.

Arguments Substrate T : clear implicits.
Arguments cmd T : clear implicits.

(** ** Properties. *)

Section Properties.
Context {T : Type} `{MixTransport T}.
Implicit Types (s : Substrate T) (tr : list obs).

(** Hand-offs of a paced run: at least [n] slots pass over [n] gaps. *)
Lemma paced_gap (hs : list (Z * Z * Z * bytes * result SubstrateError ())) slot :
  paced hs → Forall (λ h, h_now h ≤ h_fin h) hs → Forall (λ h, slot ≤ h_slot h) hs →
  ∀ n i h h', hs !! i = Some h → hs !! (i + n)%nat = Some h' →
    h_now h + Z.of_nat n * slot ≤ h_now h'.
Proof.
  intros Hp Hf Hs. rewrite Forall_lookup in Hf, Hs.
  induction n as [|n IH]; intros i h h' Hi Hj.
  - rewrite Nat.add_0_r in Hj. simplify_eq. lia.
  - destruct (lookup_lt_is_Some_2 hs (S i)) as [h1 H1].
    { pose proof (lookup_lt_Some _ _ _ Hj). lia. }
    rewrite <- Nat.add_succ_comm in Hj. pose proof (IH _ _ _ H1 Hj).
    pose proof (Hp _ _ _ Hi H1). pose proof (Hf _ _ Hi). pose proof (Hs _ _ Hi). lia.
Qed.
End Properties.

(** C8: under every interleaving of callers, pumps and network, the datagrams
    accepted by the boundary are, in order, those handed to the inner transport,
    then the one the pump holds, then those still queued (or, when the pump was
    torn down, those it held and had queued): nothing is otherwise lost, and
    nothing duplicated or reordered.  The queue, the receive channel and the
    depth gauge never exceed the depth, and every hand-off is counted once, as
    sent or as a send error.  (The gauge can equal the depth: callers may refill
    the queue between the pump's [recv] and its [len].) *)
Theorem substrate_send_fifo {T} `{MixTransport T} (t : T) (n : nat) (now : Z)
    (tr : list obs) (s : Substrate T) :
  steps (new t n now) tr s →
  accepted tr = (h_dg <$> handed tr) ++ lost tr ++ in_hand s ++ (send_q s).*2 ∧
  (pump_alive s = true → lost tr = []) ∧
  (length (send_q s) ≤ depth s)%nat ∧ (length (recv_q s) ≤ depth s)%nat ∧
  0 ≤ m_queue_depth (metrics s) ≤ Z.of_nat (depth s) ∧
  m_sent (metrics s) = wrap 64 (Z.of_nat (handed_ok tr)) ∧
  m_send_errors (metrics s) = wrap 64 (Z.of_nat (handed_err tr)) ∧
  (handed_ok tr + handed_err tr)%nat = length (handed tr) ∧
  m_dropped (metrics s) = wrap 64 (Z.of_nat (length (dropped tr))).
Proof.
  intros Hst.
  destruct (steps_effect_ind fifo_inv _ (fifo_inv_new t n now) fifo_inv_step _ _ Hst).
  destruct (steps_effect_ind counter_inv _ (counter_inv_new t n now) counter_inv_step _ _ Hst).
  split_and!; try done; try lia.
  apply filter_bool_partition.
Qed.

(** A run of the executable semantics is a run of the relation. *)
Lemma run_steps {T} `{MixTransport T} (cs : list (cmd T)) (s0 s s' : Substrate T) tr os :
  steps s0 tr s → run cs s = Some (os, s') → steps s0 (tr ++ os) s'.
Proof.
  revert s tr os. induction cs as [|c cs IH]; intros s tr os Hst; simpl.
  - intros [= <- <-]. by rewrite app_nil_r.
  - intros ([o s1] & Hc & ([os2 s2] & Hr & [= <- <-])%bind_Some)%bind_Some.
    change (o :: os2) with ([o] ++ os2). rewrite app_assoc.
    eapply IH; [|done]. by eapply steps_snoc.
Qed.

Definition example_oracle : OracleParams := mkOracleParams 3 5000000 (S754_zero false) 1000 1200.
Definition example_inner : Loopback.t := Loopback.mk [] example_oracle.
Definition byte_a : bytes := [Byte.x61].
Definition byte_b : bytes := [Byte.x62].
Definition byte_c : bytes := [Byte.x63].

Definition example_cmds : list (cmd Loopback.t) :=
  [CTrySend 0 byte_a; CSend 1 1 byte_b; CTrySend 2 byte_c; CTake 3; CBegin 3; CSendPump 4; CLossySend 5 byte_c;
   CTake 1004; CBegin 1004; CSendPump 1010; CRecvPump; CRecvPump; CRecv; CTake 2010; CBegin 2010; CSendPump 2011].

Definition example_run : list obs * Substrate Loopback.t :=
  default ([], new example_inner 2 0) (run example_cmds (new example_inner 2 0)).

Lemma example_run_steps : steps (new example_inner 2 0) example_run.1 example_run.2.
Proof.
  rewrite <- (app_nil_l example_run.1). apply (run_steps example_cmds _ (new example_inner 2 0)); [constructor|].
  vm_compute. reflexivity.
Qed.

Lemma substrate_send_fifo_witness :
  accepted example_run.1 = [byte_a; byte_b; byte_c] ∧
  accepted example_run.1 =
    (h_dg <$> handed example_run.1) ++ lost example_run.1 ++ in_hand example_run.2 ++ (send_q example_run.2).*2.
Proof.
  split; [vm_compute; reflexivity|].
  exact (proj1 (substrate_send_fifo example_inner 2 0 _ _ example_run_steps)).
Defined.

(** C9: constant rate.  Whatever the callers do, two hand-offs to the inner
    transport with [n] gaps between them start at least [n] slots apart, for
    any lower bound [slot] of the live slot intervals in force; so at most one
    cell leaves per slot. *)
Theorem substrate_paces_hand_offs {T} `{MixTransport T} (t : T) (n : nat) (now : Z)
    (tr : list obs) (s : Substrate T) (slot : Z) :
  steps (new t n now) tr s → Forall (λ h, slot ≤ h_slot h) (handed tr) →
  ∀ i j h h', (i ≤ j)%nat → handed tr !! i = Some h → handed tr !! j = Some h' →
    h_now h + Z.of_nat (j - i) * slot ≤ h_now h'.
Proof.
  intros Hst Hs i j h h' Hij Hi Hj.
  destruct (steps_effect_ind pace_inv _ (pace_inv_new t n now) pace_inv_step _ _ Hst).
  eapply paced_gap; eauto. by replace (i + (j - i))%nat with j by lia.
Qed.

Lemma substrate_paces_hand_offs_witness :
  ∃ h h', handed example_run.1 !! 0%nat = Some h ∧ handed example_run.1 !! 2%nat = Some h' ∧
    h_now h + 2 * 1000 ≤ h_now h'.
Proof.
  eexists _, _. split_and!; [vm_compute; reflexivity|vm_compute; reflexivity|].
  refine (substrate_paces_hand_offs example_inner 2 0 _ _ 1000 example_run_steps
            _ 0%nat 2%nat _ _ _ _ _).
  - apply (bool_decide_unpack _). vm_compute. exact I.
  - lia.
  - vm_compute; reflexivity.
  - vm_compute; reflexivity.
Defined.

(** C10: the receive side returns to the consumer exactly what was read from
    the inner transport, in order; an error read from it is delivered once,
    after every datagram read before it, and from then on every receive is
    [Closed]; received datagrams are counted. *)
Theorem substrate_recv_delivers_then_error {T} `{MixTransport T} (t : T) (n : nat) (now : Z)
    (tr : list obs) (s : Substrate T) :
  steps (new t n now) tr s →
  (∃ k rs, returned tr = rs ++ replicate k (Err Closed) ∧
     reads tr = rs ++ recv_q s ++ held s ∧ (k ≠ 0%nat → recv_q s = [] ∧ held s = [])) ∧
  (∃ ds, reads tr = Ok <$> ds ∨ ∃ e, reads tr = (Ok <$> ds) ++ [Err e]) ∧
  m_received (metrics s) = wrap 64 (Z.of_nat (reads_ok tr)).
Proof.
  intros Hst.
  destruct (steps_effect_ind recv_inv _ (recv_inv_new t n now) recv_inv_step _ _ Hst)
    as [(k & rs & H1 & H2 & H3) [ds Hds]].
  destruct (steps_effect_ind counter_inv _ (counter_inv_new t n now) counter_inv_step _ _ Hst).
  split_and!; [|destruct (reading_ended s); eauto|done].
  exists k, rs. split_and!; try done. intros [Hq Hp]%H3. unfold held. by rewrite Hp.
Qed.

Lemma substrate_recv_delivers_then_error_witness :
  reads example_run.1 = [Ok byte_a; Ok byte_b] ∧ returned example_run.1 = [Ok byte_a] ∧
  m_received (metrics example_run.2) = wrap 64 (Z.of_nat (reads_ok example_run.1)).
Proof.
  split_and!; [vm_compute; reflexivity..|].
  exact (proj2 (proj2 (substrate_recv_delivers_then_error example_inner 2 0 _ _ example_run_steps))).
Defined.

(** The outcome of each send method in every state.  [try_send] queues
    exactly when the pump is alive and the queue has room, reports
    [Backpressure] exactly when the queue is full and [Closed] exactly when the
    pump is gone; [send] waits exactly while the queue is full and can fail
    only with [Closed]; [send_timeout] turns a full queue at its deadline into
    [Backpressure]; the lossy send drops exactly what [try_send] refuses and
    counts it.  A refused datagram never changes the queue. *)
Theorem substrate_send_outcomes {T} `{MixTransport T} (called now deadline : Z) (d : bytes)
    (s : Substrate T) :
  (pump_alive s = true → (length (send_q s) < depth s)%nat →
     Substrate_try_send now d s = (Ok (), enqueue now now d s) ∧
     Substrate_send called now d s = Ready (Ok (), enqueue called now d s) ∧
     Substrate_send_timeout called now deadline d s = Ready (Ok (), enqueue called now d s) ∧
     Substrate_lossy_send now d s = enqueue now now d s) ∧
  (pump_alive s = true → (depth s ≤ length (send_q s))%nat →
     Substrate_try_send now d s = (Err Backpressure, at_time now s) ∧
     Substrate_send called now d s = Pending ∧
     Substrate_send_timeout called now deadline d s =
       (if deadline <=? now then Ready (Err Backpressure, at_time now s) else Pending) ∧
     send_q (Substrate_lossy_send now d s) = send_q s ∧
     m_dropped (metrics (Substrate_lossy_send now d s)) =
       wrapping_incr 64 (m_dropped (metrics s))) ∧
  (pump_alive s = false →
     Substrate_try_send now d s = (Err Closed, at_time now s) ∧
     Substrate_send called now d s = Ready (Err Closed, at_time now s) ∧
     Substrate_send_timeout called now deadline d s = Ready (Err Closed, at_time now s) ∧
     send_q (Substrate_lossy_send now d s) = send_q s ∧
     m_dropped (metrics (Substrate_lossy_send now d s)) =
       wrapping_incr 64 (m_dropped (metrics s))).
Proof.
  unfold Substrate_try_send, Substrate_send, Substrate_send_timeout, Substrate_lossy_send.
  destruct (mpsc_try_send_cases now d s) as [(Ha&Hr&->)|[(Ha&->)|(Ha&Hr&->)]],
    (mpsc_send_cases called now d s) as [(Hb&Hq&->)|[(Hb&->)|(Hb&Hq&->)]];
    try congruence; try lia; split_and!; intros; try congruence; try lia; done.
Qed.

(** C12: through the trait the boundary never reports a failed send.  [Substrate]
    overrides only the lossy [send]/[recv], so [MixTransport::try_send] on a
    full boundary answers [Ok] while the datagram is dropped, and a boundary
    stacked on another boundary hands off with result [Ok] every time: its
    [send_errors] stays zero in every run. *)
Theorem stacked_boundary_hides_refusals {T} `{MixTransport T} (now0 : Z) (inner : Substrate T)
    (n : nat) (now : Z) (tr : list obs) (s : Substrate (Substrate T)) :
  @steps _ (Substrate_MixTransport now0) (@new _ (Substrate_MixTransport now0) inner n now) tr s →
  Forall (λ h, h_res h = Ok ()) (handed tr) ∧ m_send_errors (metrics s) = 0 ∧
  ∀ (d : bytes) (t : Substrate T), pump_alive t = true → (depth t ≤ length (send_q t))%nat →
    (@try_send _ (Substrate_MixTransport now0) d t).1 = Ok () ∧
    send_q (@try_send _ (Substrate_MixTransport now0) d t).2 = send_q t ∧
    m_dropped (metrics (@try_send _ (Substrate_MixTransport now0) d t).2) =
      wrapping_incr 64 (m_dropped (metrics t)).
Proof.
  intros Hst.
  assert (Hall : Forall (λ h, h_res h = Ok ()) (handed tr)).
  { pattern tr, s. revert tr s Hst. apply steps_effect_ind; [constructor|].
    intros tr s o s' IH He. rewrite handed_snoc. apply Forall_app. split; [done|].
    destruct He; simpl; constructor; [|constructor].
    match goal with Ht : try_send _ _ = _ |- _ => simpl in Ht; injection Ht as <- _ end.
    done. }
  destruct (steps_effect_ind counter_inv _ (counter_inv_new inner n now) counter_inv_step _ _ Hst)
    as [_ He _ _].
  split_and!; [done| |].
  - rewrite He. unfold handed_err. rewrite (proj2 (length_zero_iff_nil _)); [done|].
    clear He. induction Hall as [|h hs Hh _ IH]; [done|].
    rewrite filter_cons, decide_False; [done|]. by rewrite Hh.
  - intros d t Ha Hf. simpl. unfold Substrate_lossy_send.
    destruct (mpsc_try_send_cases now0 d t) as [(?&?&->)|[(?&->)|(?&?&->)]];
      [lia|congruence|done].
Qed.

Lemma stacked_boundary_hides_refusals_witness :
  let inner := (Substrate_try_send 0 byte_a (new example_inner 1 0)).2 in
  (@try_send _ (Substrate_MixTransport 0) byte_b inner).1 = Ok () ∧
  send_q (@try_send _ (Substrate_MixTransport 0) byte_b inner).2 = send_q inner.
Proof.
  simpl.
  destruct (stacked_boundary_hides_refusals 0
    (Substrate_try_send 0 byte_a (new example_inner 1 0)).2 4 0 [] _ (steps_refl _))
    as (_ & _ & Hd).
  destruct (Hd byte_b (Substrate_try_send 0 byte_a (new example_inner 1 0)).2) as (H1 & H2 & _).
  - reflexivity.
  - vm_compute. lia.
  - exact (conj H1 H2).
Defined.
