(* ===== verification/Net.v ===== *)
(** * IP and socket addresses: the parts of [std::net] the source uses.

    Parsing follows the standard library's recursive-descent parser (IPv4 with
    no octal-looking parts, IPv6 with [::] compression and an embedded IPv4
    tail, scope identifiers), printing its [Display] instances. *)

From S2P Require Import Prelude RustStr.
Open Scope Z_scope.

Inductive IpAddr : Type :=
| V4 (a b c d : Z)
| V6 (segments : list Z).

Inductive SocketAddr : Type :=
| SA4 (ip : IpAddr) (port : Z)
| SA6 (ip : IpAddr) (port scope_id : Z).

#[global] Instance IpAddr_eq_dec : EqDecision IpAddr.
Proof. solve_decision. Defined.
#[global] Instance SocketAddr_eq_dec : EqDecision SocketAddr.
Proof. solve_decision. Defined.

#[global] Instance IpAddr_countable : Countable IpAddr.
Proof.
  refine (inj_countable'
    (λ i, match i with V4 a b c d => inl (a, b, c, d) | V6 s => inr s end)
    (λ x, match x with inl (a, b, c, d) => V4 a b c d | inr s => V6 s end) _).
  by intros [].
Defined.
#[global] Instance SocketAddr_countable : Countable SocketAddr.
Proof.
  refine (inj_countable'
    (λ s, match s with SA4 i p => inl (i, p) | SA6 i p sc => inr (i, p, sc) end)
    (λ x, match x with inl (i, p) => SA4 i p | inr (i, p, sc) => SA6 i p sc end) _).
  by intros [].
Defined.

Definition sa_ip (s : SocketAddr) : IpAddr := match s with SA4 i _ => i | SA6 i _ _ => i end.
Definition sa_port (s : SocketAddr) : Z := match s with SA4 _ p => p | SA6 _ p _ => p end.

(** [SocketAddr::new]. *)
Definition socket_addr (ip : IpAddr) (port : Z) : SocketAddr :=
  match ip with V4 _ _ _ _ => SA4 ip port | V6 _ => SA6 ip port 0 end.

(** ** Parsing: a parser consumes a prefix of its input, or fails. *)
Definition parser (A : Type) := str → option (A * str).

Definition read_given_char (c : byte) : parser () :=
  λ l, match l with b :: l => if decide (b = c) then Some ((), l) else None | [] => None end.

Fixpoint span_digits (radix : Z) (l : str) : list Z * str :=
  match l with
  | [] => ([], [])
  | b :: l' =>
      match digit radix b with
      | Some d => let (ds, r) := span_digits radix l' in (d :: ds, r)
      | None => ([], l)
      end
  end.

Definition number (radix : Z) (ds : list Z) : Z := foldl (λ a d, a * radix + d) 0 ds.

(** [read_number] into a [w]-bit integer, of at most [max] digits if given. *)
Definition read_number (radix : Z) (max : option nat) (allow_zero_prefix : bool) (w : Z) : parser Z :=
  λ l,
    let (ds, r) := span_digits radix l in
    let too_long := match max with Some m => (m <? length ds)%nat | None => false end in
    let zero_prefix := match l with b :: _ => bool_decide (b = zb 48) | [] => false end in
    if (length ds =? 0)%nat || too_long
       || (negb allow_zero_prefix && zero_prefix && (1 <? length ds)%nat)
    then None
    else if decide (in_u w (number radix ds)) then Some (number radix ds, r) else None.

(** The separator comes before every item but the first. *)
Definition read_separator {A} (sep : byte) (index : nat) (p : parser A) : parser A :=
  λ l, match index with
       | O => p l
       | S _ => '(_, l) ← read_given_char sep l; p l
       end.

Definition read_ipv4_addr : parser (Z * Z * Z * Z) :=
  λ l,
    let part i := read_separator (zb 46) i (read_number 10 (Some 3%nat) false 8) in
    '(a, l) ← part 0%nat l;
    '(b, l) ← part 1%nat l;
    '(c, l) ← part 2%nat l;
    '(d, l) ← part 3%nat l;
    Some ((a, b, c, d), l).

(** [read_groups]: groups read from index [i] of [limit], and whether the last
    two came from an IPv4 tail. *)
Fixpoint read_groups (fuel limit i : nat) (l : str) : list Z * bool * str :=
  match fuel with
  | O => ([], false, l)
  | S fuel =>
      let v4 := if (i <? limit - 1)%nat then read_separator (zb 58) i read_ipv4_addr l else None in
      match v4 with
      | Some ((a, b, c, d), r) => ([a * 256 + b; c * 256 + d], true, r)
      | None =>
          match read_separator (zb 58) i (read_number 16 (Some 4%nat) true 16) l with
          | Some (g, r) =>
              let '(gs, v4, r) := read_groups fuel limit (S i) r in (g :: gs, v4, r)
          | None => ([], false, l)
          end
      end
  end.

Definition read_ipv6_addr : parser (list Z) :=
  λ l,
    let '(head, head_v4, l) := read_groups 8 8 0 l in
    if decide (length head = 8%nat) then Some (head, l)
    else if head_v4 then None
    else
      '(_, l) ← read_given_char (zb 58) l;
      '(_, l) ← read_given_char (zb 58) l;
      let limit := (8 - (length head + 1))%nat in
      let '(tail, _, l) := read_groups limit limit 0 l in
      Some (head ++ replicate (8 - length head - length tail) 0 ++ tail, l).

Definition read_port : parser Z :=
  λ l, '(_, l) ← read_given_char (zb 58) l; read_number 10 None true 16 l.

Definition read_scope_id : parser Z :=
  λ l, '(_, l) ← read_given_char (zb 37) l; read_number 10 None true 32 l.

Definition read_socket_addr_v4 : parser SocketAddr :=
  λ l, '((a, b, c, d), l) ← read_ipv4_addr l; '(p, l) ← read_port l; Some (SA4 (V4 a b c d) p, l).

Definition read_socket_addr_v6 : parser SocketAddr :=
  λ l,
    '(_, l) ← read_given_char (zb 91) l;
    '(ip, l) ← read_ipv6_addr l;
    let '(sc, l) := match read_scope_id l with Some (s, r) => (s, r) | None => (0, l) end in
    '(_, l) ← read_given_char (zb 93) l;
    '(p, l) ← read_port l;
    Some (SA6 (V6 ip) p sc, l).

(** [FromStr]: the whole input must be consumed. *)
Definition whole_input {A} (r : option (A * str)) : option A :=
  '(a, l) ← r; match l with [] => Some a | _ => None end.

Definition parse_socket_addr (l : str) : option SocketAddr :=
  whole_input (match read_socket_addr_v4 l with Some r => Some r | None => read_socket_addr_v6 l end).

Definition parse_ip_addr (l : str) : option IpAddr :=
  whole_input (match read_ipv4_addr l with
               | Some ((a, b, c, d), r) => Some (V4 a b c d, r)
               | None => '(s, r) ← read_ipv6_addr l; Some (V6 s, r)
               end).

(** ** Printing. *)
Definition show_v4 (a b c d : Z) : str :=
  show_uint a ++ bs "." ++ show_uint b ++ bs "." ++ show_uint c ++ bs "." ++ show_uint d.

Definition hex_digit (d : Z) : byte := if d <? 10 then zb (48 + d) else zb (87 + d).
Fixpoint show_hex_digits (fuel : nat) (n : Z) (acc : str) : str :=
  match fuel with
  | O => acc
  | S fuel =>
      let acc := hex_digit (n mod 16) :: acc in
      if n <? 16 then acc else show_hex_digits fuel (n / 16) acc
  end.
Definition show_hex (n : Z) : str := show_hex_digits 16 n [].

Definition join (sep : str) (l : list str) : str :=
  match l with [] => [] | x :: l => x ++ concat ((λ y, sep ++ y) <$> l) end.
Definition show_groups (l : list Z) : str := join (bs ":") (show_hex <$> l).

(** The first longest run of zero segments: (start, length). *)
Fixpoint zero_run (l : list Z) (i : nat) (cur best : nat * nat) : nat * nat :=
  match l with
  | [] => best
  | s :: l =>
      let cur := if s =? 0 then (if (snd cur =? 0)%nat then i else fst cur, S (snd cur)) else (0, 0)%nat in
      zero_run l (S i) cur (if (snd best <? snd cur)%nat then cur else best)
  end.

Definition show_v6 (l : list Z) : str :=
  match l with
  | [0; 0; 0; 0; 0; 0xffff; ab; cd] =>
      bs "::ffff:" ++ show_v4 (ab / 256) (ab mod 256) (cd / 256) (cd mod 256)
  | _ =>
      let (start, len) := zero_run l 0 (0, 0)%nat (0, 0)%nat in
      if (1 <? len)%nat
      then show_groups (take start l) ++ bs "::" ++ show_groups (drop (start + len) l)
      else show_groups l
  end.

Definition show_ip (i : IpAddr) : str :=
  match i with V4 a b c d => show_v4 a b c d | V6 s => show_v6 s end.

Definition show_socket_addr (s : SocketAddr) : str :=
  match s with
  | SA4 i p => show_ip i ++ bs ":" ++ show_uint p
  | SA6 i p 0 => bs "[" ++ show_ip i ++ bs "]:" ++ show_uint p
  | SA6 i p sc => bs "[" ++ show_ip i ++ bs "%" ++ show_uint sc ++ bs "]:" ++ show_uint p
  end.

(** ** Properties of [std::net::IpAddr] the source asks for. *)
Definition is_loopback (i : IpAddr) : bool :=
  match i with V4 a _ _ _ => a =? 127 | V6 s => bool_decide (s = [0; 0; 0; 0; 0; 0; 0; 1]) end.
Definition is_unspecified (i : IpAddr) : bool :=
  match i with
  | V4 a b c d => (a =? 0) && (b =? 0) && (c =? 0) && (d =? 0)
  | V6 s => bool_decide (s = [0; 0; 0; 0; 0; 0; 0; 0])
  end.
(** [Ipv4Addr::is_private] and [is_link_local]. *)
Definition v4_is_private (a b c d : Z) : bool :=
  (a =? 10) || ((a =? 172) && (16 <=? b) && (b <=? 31)) || ((a =? 192) && (b =? 168)).
Definition v4_is_link_local (a b c d : Z) : bool := (a =? 169) && (b =? 254).

Definition ip_ok (i : IpAddr) : Prop :=
  match i with
  | V4 a b c d => in_u 8 a ∧ in_u 8 b ∧ in_u 8 c ∧ in_u 8 d
  | V6 s => length s = 8%nat ∧ Forall (in_u 16) s
  end.
#[global] Instance ip_ok_dec i : Decision (ip_ok i).
Proof. destruct i; unfold ip_ok; apply _. Defined.

Example parse_v4 : parse_socket_addr (bs "64.226.93.43:4433") = Some (SA4 (V4 64 226 93 43) 4433).
Proof. vm_compute. reflexivity. Qed.
Example parse_v4_octal : parse_socket_addr (bs "010.0.0.1:80") = None.
Proof. vm_compute. reflexivity. Qed.
Example parse_v6 : parse_socket_addr (bs "[fe80::1%3]:80") = Some (SA6 (V6 [0xfe80; 0; 0; 0; 0; 0; 0; 1]) 80 3).
Proof. vm_compute. reflexivity. Qed.
Example parse_v6_mapped : parse_ip_addr (bs "::ffff:10.0.0.1") = Some (V6 [0; 0; 0; 0; 0; 0xffff; 2560; 1]).
Proof. vm_compute. reflexivity. Qed.
Example show_v6_compressed : show_ip (V6 [0x2001; 0xdb8; 0; 0; 1; 0; 0; 1]) = bs "2001:db8::1:0:0:1".
Proof. vm_compute. reflexivity. Qed.

(** ** Printing then parsing an IPv4 socket address gives it back. *)
Definition stops (radix : Z) (r : str) : Prop :=
  match r with [] => True | c :: _ => digit radix c = None end.

Lemma span_digits_app radix x r ds :
  span_digits radix x = (ds, []) → stops radix r → span_digits radix (x ++ r) = (ds, r).
Proof.
  intros Hx Hr. revert ds Hx. induction x as [|b x IH]; simpl; intros ds.
  - intros [= <-]. destruct r as [|c r]; [done|]. simpl in *. by rewrite Hr.
  - destruct (digit radix b); [|done]. destruct (span_digits radix x) as [ds' r'] eqn:E.
    intros [= <- ->]. by rewrite (IH ds').
Qed.

Lemma read_number_app radix max allow w x n r :
  read_number radix max allow w x = Some (n, []) → stops radix r →
  read_number radix max allow w (x ++ r) = Some (n, r).
Proof.
  unfold read_number. intros H Hr. destruct (span_digits radix x) as [ds r'] eqn:E.
  destruct (_ || _) eqn:Ec in H; [done|]. case_decide as Hd; [|done]. injection H as <- ->.
  rewrite (span_digits_app _ _ _ ds) by done.
  assert (match x ++ r with b :: _ => bool_decide (b = zb 48) | [] => false end
    = match x with b :: _ => bool_decide (b = zb 48) | [] => false end) as ->.
  { destruct x as [|b x]; [|done]. simpl in E. injection E as <-. done. }
  by rewrite Ec, decide_True.
Qed.

(** Checked for every byte. *)
Definition number_reads (max : option nat) (allow : bool) (w n : Z) : bool :=
  bool_decide (read_number 10 max allow w (show_uint n) = Some (n, [])).

Lemma upto (P : Z → bool) (k : nat) n :
  forallb P (Z.of_nat <$> seq 0 k) = true → 0 ≤ n < Z.of_nat k → P n = true.
Proof.
  intros H Hn. rewrite forallb_forall in H. apply H. apply list_elem_of_In, list_elem_of_fmap.
  exists (Z.to_nat n). rewrite Z2Nat.id by lia. split; [done|]. apply elem_of_seq. lia.
Qed.

Lemma octets_read n : in_u 8 n → read_number 10 (Some 3%nat) false 8 (show_uint n) = Some (n, []).
Proof.
  intros Hn. apply (bool_decide_eq_true (_ = _)).
  apply (upto (number_reads (Some 3%nat) false 8) 256); [|unfold in_u in Hn; lia].
  by vm_compute.
Qed.

Lemma parse_digits_span radix w acc l v :
  parse_digits radix w acc l = Some v → in_u w acc →
  ∃ ds, span_digits radix l = (ds, []) ∧ length ds = length l ∧
    foldl (λ a d, a * radix + d) acc ds = v ∧ in_u w v.
Proof.
  revert acc. induction l as [|b l IH]; simpl; intros acc.
  - intros [= <-] ?. by exists [].
  - intros (d & Hd & H)%bind_Some Ha. case_decide; [|done]. rewrite Hd.
    destruct (IH _ H) as (ds & E & ? & ? & ?); [done|]. exists (d :: ds). rewrite E. simpl. auto.
Qed.

Lemma ports_read n : in_u 16 n → read_number 10 None true 16 (show_uint n) = Some (n, []).
Proof.
  intros Hn. pose proof (show_uint_ne n) as Hne.
  assert (parse_digits 10 16 0 (show_uint n) = Some n) as H.
  { unfold show_uint. rewrite parse_show_digits; [done| |done].
    unfold in_u in Hn. change (10 ^ Z.of_nat 20) with 100000000000000000000. lia. }
  apply parse_digits_span in H as (ds & E & Hl & Hv & _); [|by vm_compute].
  unfold read_number. rewrite E. destruct ds; [by destruct (show_uint n)|].
  simpl length. cbn [Nat.eqb orb andb negb]. unfold number. by rewrite Hv, decide_True.
Qed.

Lemma octet_read_dot n r :
  in_u 8 n → read_number 10 (Some 3%nat) false 8 (show_uint n ++ zb 46 :: r) = Some (n, zb 46 :: r).
Proof. intros. by apply read_number_app; [apply octets_read|]. Qed.

Lemma read_show_v4 a b c d r :
  in_u 8 a → in_u 8 b → in_u 8 c → in_u 8 d → stops 10 r →
  read_ipv4_addr (show_v4 a b c d ++ r) = Some ((a, b, c, d), r).
Proof.
  intros Ha Hb Hc Hd Hr. unfold read_ipv4_addr, show_v4. rewrite <- !app_assoc.
  change (bs ".") with [zb 46]. cbn [app read_separator].
  do 3 (rewrite octet_read_dot by done; cbn [mbind option_bind read_given_char];
        rewrite ?decide_True by done; cbn [mbind option_bind]).
  by rewrite (read_number_app _ _ _ _ _ d) by (done || by apply octets_read).
Qed.

Lemma parse_show_socket_addr_v4 a b c d p :
  ip_ok (V4 a b c d) → in_u 16 p →
  parse_socket_addr (show_socket_addr (SA4 (V4 a b c d) p)) = Some (SA4 (V4 a b c d) p).
Proof.
  intros (? & ? & ? & ?) Hp. unfold parse_socket_addr, read_socket_addr_v4, read_port. cbn [show_socket_addr show_ip].
  change (bs ":") with [zb 58]. rewrite read_show_v4 by done. simpl. by rewrite ports_read.
Qed.

Lemma parse_show_ip_v4 a b c d :
  ip_ok (V4 a b c d) → parse_ip_addr (show_ip (V4 a b c d)) = Some (V4 a b c d).
Proof.
  intros (? & ? & ? & ?). unfold parse_ip_addr. cbn [show_ip].
  rewrite <- (app_nil_r (show_v4 a b c d)). by rewrite read_show_v4.
Qed.

(** ** Colons: an address text without brackets has one, before the port. *)
Definition colons (l : str) : nat := length (filter (λ b, b = zb 58) l).

Lemma colons_app l k : colons (l ++ k) = (colons l + colons k)%nat.
Proof. unfold colons. by rewrite filter_app, length_app. Qed.
Lemma colons_elem l : zb 58 ∈ l → (1 ≤ colons l)%nat.
Proof. intros (l1 & l2 & ->)%list_elem_of_split. rewrite colons_app. unfold colons. rewrite filter_cons_True by done. cbn. lia. Qed.

Lemma span_digits_colons radix l ds r : digit radix (zb 58) = None → span_digits radix l = (ds, r) → colons l = colons r.
Proof.
  intros Hc. revert ds r. induction l as [|b l IH]; intros ds r; cbn [span_digits]; [by intros [= <- <-]|].
  destruct (digit radix b) eqn:E; [|by intros [= <- <-]]. destruct (span_digits radix l) as [ds' r'] eqn:Es.
  intros [= <- <-]. rewrite <- (IH _ _ eq_refl). unfold colons. rewrite filter_cons_False; [done|]. intros ->. congruence.
Qed.

Lemma read_number_colons m z w l n r : read_number 10 m z w l = Some (n, r) → colons l = colons r.
Proof.
  unfold read_number. destruct (span_digits 10 l) as [ds r'] eqn:E. destruct (_ || _); [done|].
  case_decide; [|done]. intros [= _ <-]. by apply (span_digits_colons 10 l ds); [vm_compute|].
Qed.

Lemma read_given_char_colons c l r : c ≠ zb 58 → read_given_char c l = Some ((), r) → colons l = colons r.
Proof.
  intros Hc. unfold read_given_char. destruct l as [|b l]; [done|]. case_decide as E; [|done]. intros [= <-]. unfold colons.
  rewrite filter_cons_False; [done|]. congruence.
Qed.

Lemma read_ipv4_colons l x r : read_ipv4_addr l = Some (x, r) → colons l = colons r.
Proof.
  unfold read_ipv4_addr, read_separator. intros H.
  repeat (apply bind_Some in H as ([? ?] & ?%read_number_colons & H) ||
    (apply bind_Some in H as ([? ?] & Hp & H); apply bind_Some in Hp as ([[] ?] & ?%read_given_char_colons & ?%read_number_colons); [|done])).
  injection H as _ <-. congruence.
Qed.

Lemma read_socket_addr_v4_colons l x : read_socket_addr_v4 l = Some (x, []) → colons l = 1%nat.
Proof.
  unfold read_socket_addr_v4, read_port. intros H. apply bind_Some in H as ([[[[a b] c] d] l1] & Ha%read_ipv4_colons & H).
  apply bind_Some in H as ([p l2] & Hp & [= _ ->]). apply bind_Some in Hp as ([[] l3] & Hc & Hp%read_number_colons).
  destruct l1 as [|e l1]; [done|]. cbn in Hc. case_decide as Ee; [|done]. injection Hc as ->. subst e.
  rewrite Ha. unfold colons in *. rewrite filter_cons_True by done. cbn in *. lia.
Qed.

Lemma parse_socket_addr_unbracketed h t :
  zb 58 ∈ h → head h ≠ Some (zb 91) → parse_socket_addr (h ++ zb 58 :: t) = None.
Proof.
  intros Hh Hb. assert (2 ≤ colons (h ++ zb 58 :: t))%nat as Hn.
  { rewrite colons_app. apply colons_elem in Hh. assert (1 ≤ colons (zb 58 :: t))%nat by (apply colons_elem; set_solver). lia. }
  unfold parse_socket_addr, whole_input. destruct (read_socket_addr_v4 _) as [[a [|b r]]|] eqn:E; [|done|].
  - apply read_socket_addr_v4_colons in E. lia.
  - unfold read_socket_addr_v6. destruct h as [|b h]; [by apply not_elem_of_nil in Hh|]. cbn.
    rewrite decide_False; [done|]. intros ->. by apply Hb.
Qed.
