(* ===== verification/Directory.v ===== *)
(** * The gateway directory: [crates/quicmix/src/directory.rs].

    The map of announced gateways with its expiry, and the address gate a node
    passes to promote itself.  The clock and the random choice are arguments. *)

From S2P Require Import Prelude RustStr Net.
Open Scope Z_scope.

Record GatewayInfo := mkGatewayInfo { addr : SocketAddr; cert : bytes; last_seen : Z }.

Record GatewayDirectory := mkGatewayDirectory {
  gateways : gmap SocketAddr GatewayInfo;
  ttl : Z;
}.

Definition new (ttl : Z) : GatewayDirectory := mkGatewayDirectory ∅ ttl.

Definition announce (a : SocketAddr) (c : bytes) (now : Z) (d : GatewayDirectory) : GatewayDirectory :=
  mkGatewayDirectory (<[a := mkGatewayInfo a c now]> (gateways d)) (ttl d).

(** [duration_since(last_seen) < ttl]. *)
Definition fresh_at (now ttl : Z) (v : GatewayInfo) : bool := usat_sub now (last_seen v) <? ttl.

Definition live (now : Z) (d : GatewayDirectory) : list GatewayInfo * GatewayDirectory :=
  let g := filter (λ kv, fresh_at now (ttl d) kv.2 = true) (gateways d) in
  (snd <$> map_to_list g, mkGatewayDirectory g (ttl d)).

(** [SliceRandom::choose]: [rng n] is the index drawn among [n]. *)
Definition choose {A} (rng : nat → nat) (l : list A) : option A :=
  match l with [] => None | _ => l !! (rng (length l) mod length l)%nat end.

Definition sample (rng : nat → nat) (now : Z) (d : GatewayDirectory) :
    option GatewayInfo * GatewayDirectory :=
  let (l, d) := live now d in (choose rng l, d).

Definition is_private (ip : IpAddr) : bool :=
  match ip with
  | V4 a b c d => v4_is_private a b c d || v4_is_link_local a b c d
  | V6 s =>
      let s0 := nth 0 s 0 in
      (Z.land s0 0xfe00 =? 0xfc00) || (Z.land s0 0xffc0 =? 0xfe80)
  end.

Definition qualifies_as_gateway (a : SocketAddr) : bool :=
  let ip := sa_ip a in
  negb (is_loopback ip || is_unspecified ip || is_private ip).

(** ** Histories of announcements and queries. *)
Inductive op : Type :=
| Announce (a : SocketAddr) (c : bytes) (t : Z)
| Query (t : Z).

Definition op_time (o : op) : Z := match o with Announce _ _ t => t | Query t => t end.

Definition exec (d : GatewayDirectory) (o : op) : GatewayDirectory :=
  match o with Announce a c t => announce a c t d | Query t => snd (live t d) end.

Definition run (os : list op) (d : GatewayDirectory) : GatewayDirectory := foldl exec d os.

(** Times never go back, and [now] is not before the last of them. *)
Fixpoint chronological (t0 : Z) (os : list op) (now : Z) : Prop :=
  match os with
  | [] => t0 ≤ now
  | o :: os => t0 ≤ op_time o ∧ chronological (op_time o) os now
  end.

(** The latest announcement of [a]: the specification of the directory. *)
Definition latest (a : SocketAddr) (os : list op) : option GatewayInfo :=
  foldl (λ acc o, match o with
                  | Announce b c t => if decide (b = a) then Some (mkGatewayInfo a c t) else acc
                  | Query _ => acc
                  end) None os.

Definition latest_from (a : SocketAddr) (acc : option GatewayInfo) (os : list op) : option GatewayInfo :=
  foldl (λ acc o, match o with
                  | Announce b c t => if decide (b = a) then Some (mkGatewayInfo a c t) else acc
                  | Query _ => acc
                  end) acc os.

(** The stored entry is the specified one unless that one has expired. *)
Definition tracks (t : Z) (d : GatewayDirectory) (a : SocketAddr) (spec : option GatewayInfo) : Prop :=
  gateways d !! a = spec ∨
  (gateways d !! a = None ∧ ∃ v, spec = Some v ∧ fresh_at t (ttl d) v = false).

Lemma fresh_at_mono t t' l v : t ≤ t' → fresh_at t l v = false → fresh_at t' l v = false.
Proof. unfold fresh_at, usat_sub. lia. Qed.

Lemma live_lookup now d a :
  gateways (snd (live now d)) !! a =
  match gateways d !! a with
  | Some v => if fresh_at now (ttl d) v then Some v else None
  | None => None
  end.
Proof.
  simpl. destruct (gateways d !! a) as [v|] eqn:E.
  - destruct (fresh_at now (ttl d) v) eqn:Ef.
    + by apply map_lookup_filter_Some.
    + apply map_lookup_filter_None. right. intros w Hw. simpl. rewrite E in Hw. injection Hw as <-. congruence.
  - apply map_lookup_filter_None. by left.
Qed.

Lemma exec_ttl os d : ttl (run os d) = ttl d.
Proof. revert d. induction os as [|[] os IH]; intros d; [done|..]; unfold run in *; simpl; by rewrite IH. Qed.

Lemma run_tracks os t0 now d a spec :
  chronological t0 os now → tracks t0 d a spec →
  tracks now (run os d) a (latest_from a spec os).
Proof.
  revert t0 d spec. induction os as [|o os IH]; intros t0 d spec Hc Ht; simpl in Hc.
  - destruct Ht as [?|(? & v & ? & ?)]; [by left|right]. split; [done|]. exists v. eauto using fresh_at_mono.
  - destruct Hc as [Ho Hc]. unfold run, latest_from. simpl. apply (IH (op_time o)); [done|].
    destruct o as [b c t|t]; simpl in *.
    + unfold tracks. simpl. case_decide as Hb.
      * subst. left. by rewrite lookup_insert_eq.
      * rewrite lookup_insert_ne by done.
        destruct Ht as [?|(? & v & ? & ?)]; [by left|right]. split; [done|]. exists v. eauto using fresh_at_mono.
    + unfold tracks. pose proof (live_lookup t d a) as Hl. simpl in Hl. simpl. rewrite Hl.
      destruct Ht as [->|(-> & v & ? & ?)].
      * destruct spec as [v|]; [|by left]. destruct (fresh_at t (ttl d) v) eqn:E; [by left|right]. eauto.
      * right. split; [done|]. exists v. eauto using fresh_at_mono.
Qed.

Lemma elem_of_live now d v :
  v ∈ fst (live now d) ↔ ∃ a, gateways d !! a = Some v ∧ fresh_at now (ttl d) v = true.
Proof.
  simpl. rewrite list_elem_of_fmap. split.
  - intros ([a w] & -> & Hin%elem_of_map_to_list). apply map_lookup_filter_Some in Hin. simpl in Hin. eauto.
  - intros (a & H & Hf). exists (a, v). split; [done|]. apply elem_of_map_to_list, map_lookup_filter_Some. done.
Qed.

Lemma latest_addr a os v : latest_from a None os = Some v → addr v = a.
Proof.
  assert (∀ acc, (∀ w, acc = Some w → addr w = a) → latest_from a acc os = Some v → addr v = a) as H.
  { induction os as [|o os IH]; intros acc Ha; simpl; [apply Ha|]. apply IH.
    destruct o; [|done]. case_decide; [|done]. naive_solver. }
  by apply H.
Qed.

Lemma lookup_announce a c t d k :
  gateways (announce a c t d) !! k =
    if decide (a = k) then Some (mkGatewayInfo a c t) else gateways d !! k.
Proof.
  unfold announce. cbn. case_decide; [subst; by rewrite lookup_insert_eq|by rewrite lookup_insert_ne].
Qed.

Lemma lookup_new t k : gateways (new t) !! k = None.
Proof. done. Qed.

(** Entries are filed under their own address. *)
Definition filed (d : GatewayDirectory) : Prop := ∀ k v, gateways d !! k = Some v → addr v = k.

Lemma run_filed os d : filed d → filed (run os d).
Proof.
  revert d. induction os as [|o os IH]; intros d Hd; [done|]. apply IH. intros k v. destruct o as [b c t|t].
  - cbn [exec]. rewrite lookup_announce. case_decide; [|apply Hd]. by intros [= <-].
  - cbn [exec]. rewrite live_lookup. destruct (gateways d !! k) as [w|] eqn:E; [|done].
    destruct (fresh_at t (ttl d) w); [|done]. intros [= <-]. by apply Hd.
Qed.

(** What a query lists of address [a] after a history that started from [spec]. *)
Lemma listed_latest os t0 now d a spec v :
  chronological t0 os now → filed d → gateways d !! a = spec → addr v = a →
  v ∈ fst (live now (run os d)) ↔
    latest_from a spec os = Some v ∧ fresh_at now (ttl d) v = true.
Proof.
  intros Hc Hf Hs Hv. rewrite elem_of_live, exec_ttl.
  assert (tracks t0 d a spec) as Ht by by left.
  pose proof (run_tracks os t0 now d a spec Hc Ht) as Hr. unfold tracks in Hr. rewrite exec_ttl in Hr.
  split.
  - intros (k & Hk & Hfr). assert (k = a) as -> by (rewrite <- Hv; symmetry; by eapply run_filed).
    destruct Hr as [Hr|[Hr _]]; [|congruence]. split; [congruence|done].
  - intros [Hl Hfr]. exists a. destruct Hr as [->|(_ & w & Hw & Hwf)]; [done|]. congruence.
Qed.

Lemma sample_listed rng now d g : fst (sample rng now d) = Some g → g ∈ fst (live now d).
Proof.
  unfold sample. destruct (live now d) as [l d']. cbn. unfold choose. destruct l; [done|]. apply list_elem_of_lookup_2.
Qed.

(** C24: the directory is its specification: however announcements and queries
    interleave (on a clock that does not go back), a query at [now] returns
    exactly the latest announcement of each address, certificate included,
    provided it is younger than the time to live; a sample is one of those, and
    there is one whenever there are any. *)
Theorem directory_serves_latest_unexpired os ttl now rng v :
  chronological 0 os now →
  (v ∈ fst (live now (run os (new ttl))) ↔
     latest (addr v) os = Some v ∧ now - last_seen v < ttl ∧ (0 < ttl)) ∧
  match fst (sample rng now (run os (new ttl))) with
  | Some g => g ∈ fst (live now (run os (new ttl)))
  | None => fst (live now (run os (new ttl))) = []
  end.
Proof.
  intros Hc. split.
  - rewrite elem_of_live, exec_ttl. simpl. unfold fresh_at, usat_sub. split.
    + intros (a & Ha & Hf). destruct (run_tracks os 0 now (new ttl) a None Hc) as [Ht|(Ht & _)];
        [by left|rewrite Ha in Ht|congruence].
      rewrite (latest_addr a os v) by done. split; [done|lia].
    + intros (Hl & Hlt & ?). exists (addr v).
      destruct (run_tracks os 0 now (new ttl) (addr v) None Hc) as [Ht|(_ & w & Hw & Hf)]; [by left|..].
      * rewrite Ht. split; [done|lia].
      * change (latest_from (addr v) None os) with (latest (addr v) os) in Hw. rewrite Hl in Hw.
        injection Hw as <-. rewrite exec_ttl in Hf. unfold fresh_at, usat_sub in Hf. simpl in Hf. lia.
  - unfold sample. destruct (live now (run os (new ttl))) as [l d] eqn:El. simpl. unfold choose.
    destruct l as [|x l]; [done|]. destruct (_ !! _) eqn:E; [by eapply list_elem_of_lookup_2|].
    apply lookup_ge_None in E. pose proof (Nat.mod_upper_bound (rng (length (x :: l))) (length (x :: l))).
    simpl length in *. lia.
Qed.

Lemma directory_serves_latest_unexpired_witness :
  ∃ g, fst (sample (λ _, 0%nat) 15 (run [Announce (SA4 (V4 8 8 8 8) 443) (bs "old") 1; Query 5;
     Announce (SA4 (V4 8 8 8 8) 443) (bs "new") 9] (new 10))) = Some g ∧ cert g = bs "new".
Proof.
  destruct (directory_serves_latest_unexpired
    [Announce (SA4 (V4 8 8 8 8) 443) (bs "old") 1; Query 5; Announce (SA4 (V4 8 8 8 8) 443) (bs "new") 9]
    10 15 (λ _, 0%nat) (mkGatewayInfo (SA4 (V4 8 8 8 8) 443) (bs "new") 9)) as [_ H].
  - simpl. lia.
  - eexists. split; [by vm_compute|reflexivity].
Defined.

(** ** The promotion gate as address ranges. *)
Definition v4_block (a b c d : Z) : bool :=
  (a =? 127) || (bool_decide (a = 0 ∧ b = 0 ∧ c = 0 ∧ d = 0)) ||
  (a =? 10) || ((a =? 172) && (16 <=? b) && (b <=? 31)) || ((a =? 192) && (b =? 168)) ||
  ((a =? 169) && (b =? 254)).

Lemma land_mask (n : Z) (k : Z) (x : Z) :
  0 ≤ k ≤ 16 → in_u 16 x → Z.land x (2 ^ 16 - 2 ^ k) = x / 2 ^ k * 2 ^ k.
Proof.
  intros Hk Hx. rewrite <- Z.shiftr_div_pow2, <- Z.shiftl_mul_pow2 by lia.
  replace (2 ^ 16 - 2 ^ k) with (Z.shiftl (Z.ones (16 - k)) k).
  2:{ rewrite Z.shiftl_mul_pow2, Z.ones_equiv by lia. rewrite <- Z.sub_1_r, Z.mul_sub_distr_r, <- Z.pow_add_r by lia.
      replace (16 - k + k) with 16 by lia. lia. }
  apply Z.bits_inj'. intros i Hi. rewrite Z.land_spec, !Z.shiftl_spec by lia.
  destruct (Z.ltb_spec i k).
  - rewrite !(Z.testbit_neg_r _ (i - k)) by lia. by rewrite andb_false_r.
  - rewrite Z.shiftr_spec by lia. replace (i - k + k) with i by lia.
    destruct (Z.ltb_spec i 16).
    + rewrite Z.ones_spec_low by lia. apply andb_true_r.
    + rewrite Z.ones_spec_high by lia. rewrite andb_false_r. symmetry.
      destruct (Z.eqb_spec x 0) as [->|]; [apply Z.testbit_0_l|].
      apply Z.bits_above_log2; unfold in_u in Hx; [lia|].
      apply Z.log2_lt_pow2; [lia|]. pose proof (Z.pow_le_mono_r 2 16 i). lia.
Qed.

(** C25: the promotion gate, as address ranges.  An IPv4 address is refused
    exactly in 127/8, 10/8, 172.16/12, 192.168/16, 169.254/16 and at 0.0.0.0; an
    IPv6 address exactly at [::] and [::1] and when its first segment is in
    fc00..fdff or fe80..febf; the port is irrelevant.  So addresses that are not
    publicly routable still pass: carrier-grade NAT, multicast, broadcast and
    documentation addresses, and private IPv4 addresses in their IPv4-mapped
    IPv6 form. *)
Theorem gateway_gate_is_these_ranges :
  (∀ a b c d p, qualifies_as_gateway (SA4 (V4 a b c d) p) = negb (v4_block a b c d)) ∧
  (∀ s0 s p sc, ip_ok (V6 (s0 :: s)) →
     qualifies_as_gateway (SA6 (V6 (s0 :: s)) p sc) =
     negb (bool_decide (s0 :: s = [0; 0; 0; 0; 0; 0; 0; 1]) || bool_decide (s0 :: s = [0; 0; 0; 0; 0; 0; 0; 0])
           || ((0xfc00 <=? s0) && (s0 <=? 0xfdff)) || ((0xfe80 <=? s0) && (s0 <=? 0xfebf)))) ∧
  qualifies_as_gateway (SA4 (V4 100 64 0 1) 443) = true ∧
  qualifies_as_gateway (SA4 (V4 224 0 0 1) 443) = true ∧
  qualifies_as_gateway (SA4 (V4 255 255 255 255) 443) = true ∧
  qualifies_as_gateway (SA6 (V6 [0; 0; 0; 0; 0; 0xffff; 0x0a00; 1]) 443 0) = true.
Proof.
  split_and!; try done.
  - intros a b c d p. unfold qualifies_as_gateway, is_loopback, is_unspecified, is_private, v4_is_private,
      v4_is_link_local, v4_block. cbn [sa_ip]. f_equal.
    destruct (a =? 127), (a =? 10), ((a =? 172) && (16 <=? b) && (b <=? 31)), ((a =? 192) && (b =? 168)),
      ((a =? 169) && (b =? 254)); simpl; rewrite ?orb_true_r, ?orb_false_r; try done.
    case_bool_decide; lia.
  - intros s0 s p sc [_ Hs]. apply Forall_cons in Hs as [H0 _].
    unfold qualifies_as_gateway, is_loopback, is_unspecified, is_private. cbn [sa_ip nth].
    change 0xfe00 with (2 ^ 16 - 2 ^ 9). change 0xffc0 with (2 ^ 16 - 2 ^ 6).
    rewrite !land_mask by (done || lia). f_equal. rewrite <- !orb_assoc. do 2 f_equal.
    unfold in_u in H0. f_equal; change (2 ^ 9) with 512; change (2 ^ 6) with 64;
      Z.to_euclidean_division_equations; lia.
Qed.
