(* ===== verification/ByteStream.v ===== *)
(** * Byte streams: [AsyncReadExt::read_exact] and [AsyncWriteExt::write_all].

    The two halves of a reliable ordered stream (a TCP connection, a Tor
    circuit).  A read may find the bytes, wait for more, or hit the end; framing
    code of several components runs over these. *)

From S2P Require Import Prelude RustStr Core.
Open Scope Z_scope.
From coqutil Require Import Word.LittleEndianList.

(** [u16::to_be_bytes]. *)
Definition u16_to_be_bytes (z : Z) : bytes := rev (le_split 2 z).

Lemma u16_to_be_bytes_inj a b : in_u 16 a → in_u 16 b → u16_to_be_bytes a = u16_to_be_bytes b → a = b.
Proof.
  intros Ha Hb H%(f_equal (λ l, le_combine (rev l))). unfold u16_to_be_bytes in H.
  rewrite !rev_involutive, !le_combine_split in H. change (8 * Z.of_nat 2) with 16 in H.
  unfold in_u in *. by rewrite !Z.mod_small in H.
Qed.

#[global] Opaque u32_to_be_bytes u32_from_be_bytes u16_to_be_bytes.

(** [std::io::Error], as far as the source looks at it. *)
Inductive io_error : Type := UnexpectedEof | OtherIo (msg : string).

#[global] Instance io_error_eq_dec : EqDecision io_error.
Proof. solve_decision. Defined.

(** The read half: bytes that have arrived, and how the stream ends once they
    are consumed ([None]: it is still open). *)
Record reader := mkReader { avail : bytes; ended : option io_error }.

Definition read_exact (n : nat) (r : reader) : poll (result io_error bytes * reader) :=
  if decide (n ≤ length (avail r))%nat
  then Ready (Ok (take n (avail r)), mkReader (drop n (avail r)) (ended r))
  else match ended r with
       | None => Pending
       | Some e => Ready (Err e, mkReader [] (ended r))
       end.

(** The write half: bytes written so far, and whether the stream is broken. *)
Record writer := mkWriter { written : bytes; broken : option io_error }.

Definition write_all (b : bytes) (w : writer) : result io_error () * writer :=
  match broken w with
  | Some e => (Err e, w)
  | None => (Ok (), mkWriter (written w ++ b) None)
  end.
Definition flush (w : writer) : result io_error () * writer :=
  match broken w with Some e => (Err e, w) | None => (Ok (), w) end.

(** ** Length-prefixed frames: [u32] big-endian length, then the payload. *)
Definition frame (d : bytes) : bytes := u32_to_be_bytes (Z.of_nat (length d)) ++ d.
Definition frames (ds : list bytes) : bytes := concat (frame <$> ds).

Lemma read_exact_app n (x y : bytes) e :
  length x = n → read_exact n (mkReader (x ++ y) e) = Ready (Ok x, mkReader y e).
Proof.
  intros <-. unfold read_exact. simpl. rewrite decide_True by (rewrite length_app; lia).
  by rewrite take_app_length, drop_app_length.
Qed.

Lemma read_exact_short n r :
  (length (avail r) < n)%nat →
  read_exact n r = match ended r with None => Pending | Some e => Ready (Err e, mkReader [] (ended r)) end.
Proof. intros. unfold read_exact. by rewrite decide_False by lia. Qed.

Lemma frame_length (d : bytes) : length (frame d) = (4 + length d)%nat.
Proof. unfold frame. by rewrite length_app, u32_to_be_bytes_length. Qed.

Lemma frames_cons d ds : frames (d :: ds) = frame d ++ frames ds.
Proof. done. Qed.

Lemma frames_app ds es : frames (ds ++ es) = frames ds ++ frames es.
Proof. unfold frames. by rewrite fmap_app, concat_app. Qed.

Lemma frame_header (d : bytes) :
  Z.of_nat (length d) < 2 ^ 32 →
  u32_from_be_bytes (u32_to_be_bytes (Z.of_nat (length d))) = Z.of_nat (length d).
Proof.
  intros. rewrite u32_from_to_be_bytes. apply wrap_small. unfold in_u. lia.
Qed.

#[export] Hint Rewrite frame_length : quicmix.
