(* ===== verification/Tor.v ===== *)
(** * Stream substrates: [crates/quicmix/src/tor.rs].

    [StreamDatagram] frames datagrams over one ordered byte stream; the SOCKS5
    client opens that stream through a Tor daemon.  A datagram channel is given
    as an abstract FIFO and the framed stream is shown to implement it. *)

From S2P Require Import Prelude RustFloat RustStr Core ByteStream.
From coqutil Require Import Byte.
Open Scope Z_scope.

Definition map_io (e : io_error) : SubstrateError :=
  match e with UnexpectedEof => Closed | OtherIo m => Io ("tor stream: " +:+ m) end.

(** The largest frame [try_recv] accepts. *)
Definition MAX_FRAME : Z := Z.shiftl 1 20.

Module StreamDatagram.
Record t := mk { read : reader; write : writer; sd_oracle : OracleParams }.

Definition try_send (datagram : bytes) (s : t) : result SubstrateError () * t :=
  let len := u32_to_be_bytes (wrap 32 (Z.of_nat (length datagram))) in
  let (r1, w1) := write_all len (write s) in
  match r1 with
  | Err e => (Err (map_io e), mk (read s) w1 (sd_oracle s))
  | Ok _ =>
      let (r2, w2) := write_all datagram w1 in
      match r2 with
      | Err e => (Err (map_io e), mk (read s) w2 (sd_oracle s))
      | Ok _ =>
          let (r3, w3) := flush w2 in
          (map_err map_io r3, mk (read s) w3 (sd_oracle s))
      end
  end.

Definition try_recv (s : t) : poll (result SubstrateError bytes * t) :=
  match read_exact 4 (read s) with
  | Pending => Pending
  | Ready (Err e, r1) => Ready (Err (map_io e), mk r1 (write s) (sd_oracle s))
  | Ready (Ok len, r1) =>
      let n := u32_from_be_bytes len in
      if MAX_FRAME <? n then Ready (Err Malformed, mk r1 (write s) (sd_oracle s))
      else match read_exact (Z.to_nat n) r1 with
      | Pending => Pending
      | Ready (Err e, r2) => Ready (Err (map_io e), mk r2 (write s) (sd_oracle s))
      | Ready (Ok buf, r2) => Ready (Ok buf, mk r2 (write s) (sd_oracle s))
      end
  end.

#[global] Instance transport : MixTransport t := {
  kind _ := Stream;
  oracle := sd_oracle;
  send := send_of_try_send try_send;
  recv := recv_of_try_recv try_recv;
  try_send := try_send;
  try_recv := try_recv;
}.

#[global] Instance laws : MixTransportLaws t.
Proof. by split. Qed.
End StreamDatagram.

(** ** SOCKS5 CONNECT with remote name resolution. *)

Inductive socks_error : Type :=
| SocksIo (e : io_error)
| NoAuthRejected (sel : bytes)
| HostTooLong
| ConnectFailed (rep : Z)
| BadAtyp (atyp : Z).

Definition socks_greeting : bytes := [zb 5; zb 1; zb 0].

Definition socks_request (host : str) (port : Z) : bytes :=
  [zb 5; zb 1; zb 0; zb 3; zb (Z.of_nat (length host))] ++ host ++ u16_to_be_bytes port.

(** [read_exact] inside a fallible function. *)
Definition read_then {A} (n : nat) (r : reader)
    (k : bytes → reader → poll (result socks_error A * reader)) :
    poll (result socks_error A * reader) :=
  match read_exact n r with
  | Pending => Pending
  | Ready (Err e, r') => Ready (Err (SocksIo e), r')
  | Ready (Ok b, r') => k b r'
  end.

(** Skipping the bound address and port. *)
Definition skip_bound (n : nat) (r : reader) : poll (result socks_error () * reader) :=
  read_then (n + 2) r (λ _ r4, Ready (Ok (), r4)).

(** The connection to the proxy: what arrives on it, and how each [write_all]
    goes, counted from 0 ([None]: it succeeds). *)
Record connection := mkConnection { incoming : reader; write_fails : nat → option io_error }.

(** The conversation after the TCP connection is up: what the writes that
    succeeded wrote, and the outcome with the stream left for the caller.  The
    request is written only past the method check. *)
Definition socks5_connect (host : str) (port : Z) (c : connection) :
    bytes * poll (result socks_error () * reader) :=
  match write_fails c 0 with
  | Some e => ([], Ready (Err (SocksIo e), incoming c))
  | None =>
  match read_exact 2 (incoming c) with
  | Pending => (socks_greeting, Pending)
  | Ready (Err e, r1) => (socks_greeting, Ready (Err (SocksIo e), r1))
  | Ready (Ok sel, r1) =>
      if negb (bool_decide (sel = [zb 5; zb 0]))
      then (socks_greeting, Ready (Err (NoAuthRejected sel), r1))
      else if (255 <? length host)%nat then (socks_greeting, Ready (Err HostTooLong, r1))
      else match write_fails c 1 with
      | Some e => (socks_greeting, Ready (Err (SocksIo e), r1))
      | None =>
        (socks_greeting ++ socks_request host port,
         read_then 4 r1 (λ head r2,
           let rep := bz (nth 1 head Byte.x00) in
           let atyp := bz (nth 3 head Byte.x00) in
           if negb (rep =? 0) then Ready (Err (ConnectFailed rep), r2)
           else if atyp =? 1 then skip_bound 4%nat r2
           else if atyp =? 4 then skip_bound 16%nat r2
           else if atyp =? 3
           then read_then 1 r2 (λ l r3, skip_bound (Z.to_nat (bz (nth 0 l Byte.x00))) r3)
           else Ready (Err (BadAtyp atyp), r2)))
      end
  end
  end.

(** [split_host_port]. *)
Inductive hostport_error : Type := NoColon | BadPort.
Definition split_host_port (s : str) : result hostport_error (str * Z) :=
  '(h, p) ← ok_or (rsplit_once (zb 58) s) NoColon;
  port ← ok_or (parse_uint 16 p) BadPort;
  Ok (h, port).

(** [tor_stream_to] over an established proxy connection. *)
Inductive tor_error : Type := TorHost (e : hostport_error) | TorSocks (e : socks_error).
Definition tor_stream_to (gateway_bridge : str) (oracle : OracleParams) (c : connection) :
    result tor_error (bytes * poll (result tor_error StreamDatagram.t)) :=
  match split_host_port gateway_bridge with
  | Err e => Err (TorHost e)
  | Ok (host, port) =>
      let (w, p) := socks5_connect host port c in
      Ok (w, (λ '(res, r'), match res with
                | Ok _ => Ok (StreamDatagram.mk r' (mkWriter w None) oracle)
                | Err e => Err (TorSocks e)
                end) <$> p)
  end.

(** ** The framed stream implements a FIFO of datagrams. *)

(** Bytes of [ds] a stream carries once they are sent in order. *)
Fixpoint send_all (ds : list bytes) (s : StreamDatagram.t) : list (result SubstrateError ()) * StreamDatagram.t :=
  match ds with
  | [] => ([], s)
  | d :: ds =>
      let (r, s) := StreamDatagram.try_send d s in
      let (rs, s) := send_all ds s in (r :: rs, s)
  end.

(** Receive until the first call that does not return a datagram. *)
Fixpoint recv_upto (fuel : nat) (s : StreamDatagram.t) :
    list bytes * option (poll SubstrateError) :=
  match fuel with
  | O => ([], None)
  | S fuel =>
      match StreamDatagram.try_recv s with
      | Pending => ([], Some Pending)
      | Ready (Err e, _) => ([], Some (Ready e))
      | Ready (Ok d, s) => let (ds, e) := recv_upto fuel s in (d :: ds, e)
      end
  end.

(** What the abstract channel answers once it has nothing whole to deliver. *)
Definition idle (e : option io_error) : poll SubstrateError :=
  match e with None => Pending | Some e => Ready (map_io e) end.

Definition fits (d : bytes) : Prop := Z.of_nat (length d) ≤ MAX_FRAME.

#[global] Instance fits_dec d : Decision (fits d).
Proof. unfold fits; apply _. Defined.

Lemma fits_u32 d : fits d → Z.of_nat (length d) < 2 ^ 32.
Proof. unfold fits, MAX_FRAME. intros H. change (Z.shiftl 1 20) with 1048576 in H. lia. Qed.

Lemma fits_cap d : fits d → (MAX_FRAME <? Z.of_nat (length d)) = false.
Proof. unfold fits. lia. Qed.

Lemma try_send_ok d s :
  broken (StreamDatagram.write s) = None → Z.of_nat (length d) < 2 ^ 32 →
  StreamDatagram.try_send d s
  = (Ok (), StreamDatagram.mk (StreamDatagram.read s)
              (mkWriter (written (StreamDatagram.write s) ++ frame d) None)
              (StreamDatagram.sd_oracle s)).
Proof.
  destruct s as [r [w b] o]; simpl. intros -> Hd.
  unfold StreamDatagram.try_send, write_all, flush. simpl.
  rewrite wrap_small by (unfold in_u; lia). by rewrite <- app_assoc.
Qed.

Lemma send_all_ok ds s :
  broken (StreamDatagram.write s) = None → Forall fits ds →
  send_all ds s
  = ((λ _, Ok ()) <$> ds, StreamDatagram.mk (StreamDatagram.read s)
       (mkWriter (written (StreamDatagram.write s) ++ frames ds) None) (StreamDatagram.sd_oracle s)).
Proof.
  intros Hb Hds. revert s Hb. induction Hds as [|d ds Hd Hds IH]; intros s Hb; simpl.
  - destruct s as [r [w b] o]; simpl in *. subst. unfold frames. simpl. by rewrite app_nil_r.
  - rewrite try_send_ok by auto using fits_u32.
    rewrite IH by done. simpl. rewrite frames_cons, app_assoc. done.
Qed.

Lemma try_recv_frame d y e w o :
  fits d →
  StreamDatagram.try_recv (StreamDatagram.mk (mkReader (frame d ++ y) e) w o)
  = Ready (Ok d, StreamDatagram.mk (mkReader y e) w o).
Proof.
  intros Hd. unfold StreamDatagram.try_recv, frame. simpl. rewrite <- app_assoc.
  rewrite read_exact_app by apply u32_to_be_bytes_length.
  rewrite frame_header, fits_cap by auto using fits_u32. by rewrite Nat2Z.id, read_exact_app.
Qed.

(** A strict prefix of a frame is no datagram. *)
Lemma try_recv_partial d x y e w o :
  fits d → y ≠ [] → frame d = x ++ y →
  StreamDatagram.try_recv (StreamDatagram.mk (mkReader x e) w o) =
  match e with
  | None => Pending
  | Some e' => Ready (Err (map_io e'), StreamDatagram.mk (mkReader [] e) w o)
  end.
Proof.
  intros Hd Hy Hf. pose proof (frame_length d) as Hl. rewrite Hf, length_app in Hl.
  assert (length y ≠ 0%nat) by (by destruct y).
  unfold StreamDatagram.try_recv. simpl.
  destruct (decide (length x < 4)%nat) as [Hx|Hx].
  { rewrite read_exact_short by done. simpl. by destruct e. }
  unfold frame in Hf. apply app_eq_inv in Hf as [(k & Hk & Hd')|(k & Hk & Hd')].
  - apply (f_equal length) in Hk as Hk'. rewrite u32_to_be_bytes_length, length_app in Hk'.
    assert (k = []) as -> by (destruct k; simpl in *; [done|lia]).
    rewrite app_nil_r in Hk. simpl in Hd'. subst y.
    rewrite <- (app_nil_r x), <- Hk, read_exact_app by apply u32_to_be_bytes_length.
    rewrite frame_header, fits_cap by auto using fits_u32.
    rewrite Nat2Z.id, read_exact_short by (simpl; lia). simpl. by destruct e.
  - subst x. rewrite read_exact_app by apply u32_to_be_bytes_length.
    rewrite frame_header, fits_cap by auto using fits_u32.
    rewrite length_app in *. rewrite u32_to_be_bytes_length in *.
    rewrite Nat2Z.id, read_exact_short by (simpl; lia). simpl. by destruct e.
Qed.

(** Number of datagrams of [ds] wholly inside the first [n] bytes of their frames. *)
Fixpoint whole (n : nat) (ds : list bytes) : nat :=
  match ds with
  | [] => 0%nat
  | d :: ds => if decide (4 + length d ≤ n)%nat then S (whole (n - (4 + length d)) ds) else 0%nat
  end.

Lemma recv_upto_S fuel s :
  recv_upto (S fuel) s =
  match StreamDatagram.try_recv s with
  | Pending => ([], Some Pending)
  | Ready (Err e, _) => ([], Some (Ready e))
  | Ready (Ok d, s) => let (ds, e) := recv_upto fuel s in (d :: ds, e)
  end.
Proof. done. Qed.

Lemma recv_upto_prefix ds p q e w o :
  Forall fits ds → frames ds = p ++ q →
  recv_upto (S (length ds)) (StreamDatagram.mk (mkReader p e) w o)
  = (take (whole (length p) ds) ds, Some (idle e)).
Proof.
  intros Hds. revert p. induction Hds as [|d ds Hd Hds IH]; intros p Hp.
  - unfold frames in Hp. simpl in Hp. symmetry in Hp. apply app_nil in Hp as [-> ->].
    simpl. by destruct e.
  - rewrite frames_cons in Hp. pose proof (frame_length d) as Hl. cbn [whole length]. rewrite recv_upto_S.
    case_decide as Hn.
    + apply app_eq_inv in Hp as [(k & Hk & Hq)|(k & Hk & Hq)].
      * assert (k = []) as ->.
        { apply (f_equal length) in Hk. rewrite length_app in Hk. destruct k; simpl in *; [done|lia]. }
        rewrite app_nil_r in Hk. simpl in Hq. rewrite <- Hk, <- (app_nil_r (frame d)).
        rewrite try_recv_frame by done. rewrite (IH []) by done. rewrite app_nil_r, Hl, Nat.sub_diag. done.
      * subst p. rewrite try_recv_frame by done. rewrite (IH k) by done.
        rewrite length_app, Hl. replace (4 + length d + length k - (4 + length d))%nat with (length k) by lia.
        done.
    + apply app_eq_inv in Hp as [(k & Hk & Hq)|(k & Hk & Hq)].
      * rewrite (try_recv_partial d p k) by (done || (intros ->; rewrite app_nil_r in Hk; subst; lia)).
        by destruct e.
      * subst p. rewrite length_app in Hn. lia.
Qed.

Lemma whole_all ds : whole (length (frames ds)) ds = length ds.
Proof.
  induction ds as [|d ds IH]; [done|]. rewrite frames_cons, length_app, frame_length.
  cbn [whole length]. rewrite decide_True by lia.
  replace (4 + length d + length (frames ds) - (4 + length d))%nat with (length (frames ds)) by lia.
  by rewrite IH.
Qed.

(** C13: the framed stream is a FIFO of datagrams whatever has arrived so far.
    Sending datagrams of at most 1 MiB on an unbroken stream succeeds each time.
    When any prefix [p] of the bytes written has arrived at the peer, receiving
    yields exactly the datagrams wholly inside [p], unchanged and in the order
    sent, and then waits (stream open), reports [Closed] (end of stream, also in
    the middle of a frame) or the I/O error; a partial frame never surfaces. *)
Theorem stream_datagram_is_fifo ds s p q e w o :
  broken (StreamDatagram.write s) = None → Forall fits ds →
  written (StreamDatagram.write (snd (send_all ds s))) = written (StreamDatagram.write s) ++ p ++ q →
  fst (send_all ds s) = (λ _, Ok ()) <$> ds ∧
  recv_upto (S (length ds)) (StreamDatagram.mk (mkReader p e) w o)
  = (take (whole (length p) ds) ds, Some (idle e)) ∧
  (q = [] → take (whole (length p) ds) ds = ds).
Proof.
  intros Hb Hds Hp. rewrite send_all_ok in * by done. simpl in *.
  apply app_inv_head in Hp. split_and!; [done| |].
  - by apply recv_upto_prefix with q.
  - intros ->. rewrite app_nil_r in Hp. subst p. by rewrite whole_all, firstn_all.
Qed.

Definition circuit_oracle : OracleParams :=
  mkOracleParams 3 (from_millis 50) (S754_zero false) 0 1200.
Definition stream0 : StreamDatagram.t :=
  StreamDatagram.mk (mkReader [] None) (mkWriter [] None) circuit_oracle.

Lemma stream_datagram_is_fifo_witness :
  recv_upto 3 (StreamDatagram.mk
     (mkReader [Byte.x00; Byte.x00; Byte.x00; Byte.x02; Byte.x61; Byte.x62; Byte.x00] (Some UnexpectedEof))
     (mkWriter [] None) circuit_oracle)
  = ([[Byte.x61; Byte.x62]], Some (Ready Closed)).
Proof.
  destruct (stream_datagram_is_fifo [[Byte.x61; Byte.x62]; [Byte.x63]] stream0
    [Byte.x00; Byte.x00; Byte.x00; Byte.x02; Byte.x61; Byte.x62; Byte.x00]
    [Byte.x00; Byte.x00; Byte.x01; Byte.x63] (Some UnexpectedEof) (mkWriter [] None) circuit_oracle)
    as (_ & H & _); [done| |by vm_compute|exact H].
  apply (bool_decide_unpack _). by vm_compute.
Defined.

(** The 1 MiB cap is only the receiver's.  A datagram above it (and below
    2^32 bytes) is accepted by [try_send], which reports success, and the peer's
    [try_recv] answers [Malformed] with the payload still unread in the stream,
    so the next receive starts inside that payload. *)
Theorem stream_datagram_oversize_rejected_late d s e w o rest :
  broken (StreamDatagram.write s) = None →
  MAX_FRAME < Z.of_nat (length d) < 2 ^ 32 →
  fst (StreamDatagram.try_send d s) = Ok () ∧
  StreamDatagram.try_recv (StreamDatagram.mk
    (mkReader (drop (length (written (StreamDatagram.write s)))
        (written (StreamDatagram.write (snd (StreamDatagram.try_send d s)))) ++ rest) e) w o)
  = Ready (Err Malformed, StreamDatagram.mk (mkReader (d ++ rest) e) w o).
Proof.
  intros Hb Hd. rewrite try_send_ok by (done || lia). simpl. split; [done|].
  rewrite drop_app_length. unfold StreamDatagram.try_recv, frame. simpl. rewrite <- app_assoc.
  rewrite read_exact_app by apply u32_to_be_bytes_length.
  rewrite frame_header by lia. by replace (MAX_FRAME <? Z.of_nat (length d)) with true by lia.
Qed.

Lemma stream_datagram_oversize_rejected_late_witness :
  fst (StreamDatagram.try_send (replicate (Z.to_nat 1048577) Byte.x00) stream0) = Ok ().
Proof.
  destruct (stream_datagram_oversize_rejected_late (replicate (Z.to_nat 1048577) Byte.x00) stream0
    None (mkWriter [] None) circuit_oracle []) as [H _]; [done| |exact H].
  rewrite length_replicate, Z2Nat.id by lia. split; reflexivity.
Defined.

(** ** SOCKS5. *)

(** A successful reply of the proxy (RFC 1928): the method choice, then
    [VER REP RSV ATYP BND.ADDR BND.PORT] with an address of the announced type. *)
Inductive bound_addr : bytes → Prop :=
| BoundV4 a : length a = 4%nat → bound_addr (zb 1 :: a)
| BoundV6 a : length a = 16%nat → bound_addr (zb 4 :: a)
| BoundName a : (length a < 256)%nat → bound_addr (zb 3 :: zb (Z.of_nat (length a)) :: a).

Definition connect_reply (reply : bytes) : Prop :=
  ∃ ver rsv addr prt, bound_addr addr ∧ length prt = 2%nat ∧
    reply = [zb 5; zb 0] ++ [ver; zb 0; rsv] ++ addr ++ prt.

Lemma bz_inj a z : 0 ≤ z < 256 → bz a = z → a = zb z.
Proof. intros Hz <-. unfold bz, zb. by rewrite byte.of_Z_unsigned. Qed.

Lemma read_exact_Ok n r b r' :
  read_exact n r = Ready (Ok b, r') →
  avail r = b ++ avail r' ∧ length b = n ∧ ended r' = ended r.
Proof.
  unfold read_exact. case_decide; [|by destruct (ended r)]. intros [= <- <-].
  simpl. rewrite take_drop, length_take. split_and!; [done|lia|done].
Qed.

Lemma read_then_Ok {A} n r (k : bytes → reader → poll (result socks_error A * reader)) a r' :
  read_then n r k = Ready (Ok a, r') →
  ∃ b r1, avail r = b ++ avail r1 ∧ length b = n ∧ ended r1 = ended r ∧ k b r1 = Ready (Ok a, r').
Proof.
  unfold read_then. destruct (read_exact n r) as [[[b|e] r1]|] eqn:E; try done.
  intros Hk. apply read_exact_Ok in E as (?&?&?). eauto 10.
Qed.

Lemma read_then_app {A} (x y : bytes) e (k : bytes → reader → poll (result socks_error A * reader)) n :
  length x = n → read_then n (mkReader (x ++ y) e) k = k x (mkReader y e).
Proof. intros. unfold read_then. by rewrite read_exact_app. Qed.

Lemma skip_bound_Ok n r r' :
  skip_bound n r = Ready (Ok (), r') →
  ∃ a p, avail r = a ++ p ++ avail r' ∧ length a = n ∧ length p = 2%nat ∧ ended r' = ended r.
Proof.
  intros (b & r1 & Hr & Hb & He & [= ->])%read_then_Ok.
  exists (take n b), (drop n b). rewrite app_assoc, take_drop, length_take, length_drop.
  split_and!; try done; lia.
Qed.

Lemma skip_bound_app a p y e :
  length p = 2%nat →
  skip_bound (length a) (mkReader (a ++ p ++ y) e) = Ready (Ok (), mkReader y e).
Proof.
  intros Hp. unfold skip_bound. rewrite app_assoc.
  by rewrite read_then_app by (rewrite length_app; lia).
Qed.

Lemma length_4 (b : bytes) : length b = 4%nat → ∃ x y z t, b = [x; y; z; t].
Proof. destruct b as [|x [|y [|z [|t [|]]]]]; try done. eauto. Qed.
Lemma length_1 (b : bytes) : length b = 1%nat → ∃ x, b = [x].
Proof. destruct b as [|x [|]]; try done. eauto. Qed.

(** Both writes go through. *)
Definition takes_both (wf : nat → option io_error) : Prop := wf 0%nat = None ∧ wf 1%nat = None.

Lemma socks5_connect_reply host port reply y e wf :
  connect_reply reply → (length host ≤ 255)%nat → takes_both wf →
  socks5_connect host port (mkConnection (mkReader (reply ++ y) e) wf)
  = (socks_greeting ++ socks_request host port, Ready (Ok (), mkReader y e)).
Proof.
  intros (ver & rsv & addr & prt & Ha & Hp & ->) Hh [Hw0 Hw1]. unfold socks5_connect.
  cbn [incoming write_fails]. rewrite Hw0, Hw1, <- !app_assoc, read_exact_app by done. simpl negb.
  rewrite (proj2 (Nat.ltb_ge 255 (length host))) by lia. f_equal.
  destruct Ha as [a Hl|a Hl|a Hl]; rewrite <- ?app_comm_cons; cbn [app].
  - change (?a :: ?b :: ?c :: ?d :: ?l) with ([a; b; c; d] ++ l). rewrite read_then_app by done.
    cbn. rewrite <- Hl. by apply skip_bound_app.
  - change (?a :: ?b :: ?c :: ?d :: ?l) with ([a; b; c; d] ++ l). rewrite read_then_app by done.
    cbn. rewrite <- Hl. by apply skip_bound_app.
  - change (?a :: ?b :: ?c :: ?d :: ?x :: ?l) with ([a; b; c; d] ++ [x] ++ l).
    rewrite read_then_app by done. cbn [nth].
    change (bz (zb 0) =? 0) with true. change (bz (zb 3) =? 1) with false.
    change (bz (zb 3) =? 4) with false. change (bz (zb 3) =? 3) with true. cbn [negb].
    rewrite read_then_app by done. cbn [nth]. rewrite bz_zb, Nat2Z.id by lia.
    by apply skip_bound_app.
Qed.

Lemma socks5_connect_success host port r wf r' w :
  socks5_connect host port (mkConnection r wf) = (w, Ready (Ok (), r')) →
  takes_both wf ∧
  ∃ reply, connect_reply reply ∧ avail r = reply ++ avail r' ∧ ended r' = ended r ∧
    (length host ≤ 255)%nat ∧ w = socks_greeting ++ socks_request host port.
Proof.
  unfold socks5_connect, takes_both. cbn [incoming write_fails]. destruct (wf 0%nat); [done|]. destruct (read_exact 2 r) as [[[sel|e] r1]|] eqn:Esel; try done.
  destruct (bool_decide (sel = [zb 5; zb 0])) eqn:Eb; [simpl|done].
  apply bool_decide_eq_true in Eb as ->.
  destruct (Nat.ltb_spec 255 (length host)) as [|Hh]; [done|].
  destruct (wf 1%nat); [done|]. apply read_exact_Ok in Esel as (Hr & _ & He). intros [= <- H]. split; [done|].
  apply read_then_Ok in H as (head & r2 & Hr1 & Hhead & He2 & H).
  apply length_4 in Hhead as (ver & rep & rsv & atyp & ->). cbn [nth] in H.
  destruct (bz rep =? 0) eqn:Erep; [|done]. cbn [negb] in H.
  apply Z.eqb_eq, bz_inj in Erep as ->; [|lia].
  assert (∃ addr prt, bound_addr (atyp :: addr) ∧ length prt = 2%nat ∧
    avail r2 = addr ++ prt ++ avail r' ∧ ended r' = ended r2) as (addr & prt & Ha & Hp & Hr2 & Hr2e).
  { destruct (bz atyp =? 1) eqn:E1; [|destruct (bz atyp =? 4) eqn:E4;
      [|destruct (bz atyp =? 3) eqn:E3; [|done]]].
    - apply Z.eqb_eq, bz_inj in E1 as ->; [|lia].
      apply skip_bound_Ok in H as (a & p & ? & ? & ? & ?). exists a, p. by split_and!; [constructor|..].
    - apply Z.eqb_eq, bz_inj in E4 as ->; [|lia].
      apply skip_bound_Ok in H as (a & p & ? & ? & ? & ?). exists a, p. by split_and!; [constructor|..].
    - apply Z.eqb_eq, bz_inj in E3 as ->; [|lia].
      apply read_then_Ok in H as (l & r3 & Hr2 & Hl & He3 & H).
      apply length_1 in Hl as (x & ->). cbn [nth] in H. pose proof (bz_range x) as Hx.
      apply skip_bound_Ok in H as (a & p & Hr3 & Hla & ? & ?). exists (x :: a), p.
      split_and!; [|done| |congruence].
      + replace x with (zb (Z.of_nat (length a))); [constructor; lia|].
        symmetry. apply bz_inj; lia.
      + rewrite Hr2, Hr3. done. }
  exists ([zb 5; zb 0] ++ [ver; zb 0; rsv] ++ (atyp :: addr) ++ prt).
  split_and!; [|by rewrite Hr, Hr1, Hr2, <- !app_assoc|congruence|done|done].
  exists ver, rsv, (atyp :: addr), prt. auto.
Qed.

(** C15: the SOCKS5 client, past the TCP connection to the proxy, succeeds
    exactly when both of its writes do, the host has at most 255 bytes, and the
    proxy answers with a well-formed success reply, whatever address type it
    reports; it has then written the greeting and the CONNECT request and
    consumed the reply and nothing more, so the first byte after it is the first
    byte of the circuit.  A greeting that cannot be written is the error, with
    nothing read. *)
Theorem socks5_connect_iff_success host port r wf r' w :
  (socks5_connect host port (mkConnection r wf) = (w, Ready (Ok (), r')) ↔
   ∃ reply, connect_reply reply ∧ r = mkReader (reply ++ avail r') (ended r') ∧
     (length host ≤ 255)%nat ∧ wf 0%nat = None ∧ wf 1%nat = None ∧
     w = socks_greeting ++ socks_request host port) ∧
  (∀ e, wf 0%nat = Some e → socks5_connect host port (mkConnection r wf) = ([], Ready (Err (SocksIo e), r))).
Proof.
  split; [split|].
  - intros ([? ?] & reply & ? & ? & ? & ? & ?)%socks5_connect_success.
    exists reply. destruct r; simpl in *; subst. auto 10.
  - intros (reply & Hr & -> & Hh & H0 & H1 & ->). rewrite socks5_connect_reply by done. by destruct r'.
  - intros e He. unfold socks5_connect. cbn [write_fails incoming]. by rewrite He.
Qed.

(** The request names the host and the port.  Its host field is the length
    byte and the whole host, its port field the two big-endian bytes of the
    port, so two requests (hosts of at most 255 bytes, 16-bit ports) are equal
    only for equal targets. *)
Theorem socks_request_determines_target h1 p1 h2 p2 :
  (length h1 ≤ 255)%nat → (length h2 ≤ 255)%nat → in_u 16 p1 → in_u 16 p2 →
  socks_request h1 p1 = socks_request h2 p2 → h1 = h2 ∧ p1 = p2.
Proof.
  intros Hh1 Hh2 Hp1 Hp2. unfold socks_request. intros [= Hl%(f_equal bz) H].
  rewrite !bz_zb in Hl by lia. apply app_inj_1 in H as [-> H]; [|lia].
  eauto using u16_to_be_bytes_inj.
Qed.

Lemma socks_request_determines_target_witness :
  bs "a" = bs "a" ∧ 443 = 443.
Proof.
  apply (socks_request_determines_target (bs "a") 443 (bs "a") 443);
    try reflexivity; vm_compute; lia || (split; congruence).
Defined.

(** [host:port] targets of the Tor stream bridge.  A printed target is
    split back into its host, which may itself contain colons, and its port; a
    target without a colon and one whose last part is not a 16-bit number are
    rejected. *)
Theorem split_host_port_roundtrip host port s :
  in_u 16 port →
  split_host_port (host ++ zb 58 :: show_uint port) = Ok (host, port) ∧
  (zb 58 ∉ s → split_host_port s = Err NoColon) ∧
  (zb 58 ∉ s → parse_uint 16 s = None → split_host_port (host ++ zb 58 :: s) = Err BadPort).
Proof.
  intros Hp. unfold split_host_port. split_and!.
  - rewrite rsplit_once_app by (apply show_uint_notin; vm_compute; auto). simpl.
    by rewrite parse_show_uint by (done || lia).
  - intros Hs. unfold rsplit_once. rewrite (proj2 (split_once_None _ _)); [done|].
    by rewrite list_elem_of_In, <- in_rev, <- list_elem_of_In.
  - intros Hs E. rewrite rsplit_once_app by done. simpl. by rewrite E.
Qed.

Lemma split_host_port_roundtrip_witness :
  split_host_port (bs "::1:4433") = Ok (bs "::1", 4433).
Proof.
  destruct (split_host_port_roundtrip (bs "::1") 4433 []) as [H _]; [|exact H].
  vm_compute. split; congruence.
Defined.
