(* ===== verification/Listener.v ===== *)
(** * Accept loops: [loop { let Ok((tcp, _)) = listener.accept().await else { continue };
    tokio::spawn(..) }].

    Every server of the program has this shape: a failed [accept] is passed over,
    a connection gets a task of its own, and the tasks share nothing.  Given what
    a task does, the loop and its tasks interleave step by step; whatever the
    interleaving, each task runs as if it were alone. *)

From stdpp Require Import gmap.
From S2P Require Import Prelude.

Section Listener.
Context {S Ev : Type}.
(** The task of the [i]-th connection ([None]: it ends before its first await),
    and its steps. *)
Variable start : nat → option S.
Variable step : Ev → S → option S.

Record listener := mkListener { accepts : nat; tasks : gmap nat S }.

Inductive lcmd : Type :=
| Accept (ok : bool)
| Task (i : nat) (e : Ev).

Definition new_listener : listener := mkListener 0 ∅.

Definition lexec (c : lcmd) (l : listener) : option listener :=
  match c with
  | Accept false => Some l
  | Accept true =>
      let i := accepts l in
      Some (mkListener (i + 1) (match start i with Some s => <[i := s]> (tasks l) | None => tasks l end))
  | Task i e =>
      s ← tasks l !! i; s ← step e s;
      Some (mkListener (accepts l) (<[i := s]> (tasks l)))
  end.

Fixpoint lrun (cs : list lcmd) (l : listener) : option listener :=
  match cs with
  | [] => Some l
  | c :: cs => l ← lexec c l; lrun cs l
  end.

Fixpoint task_run (es : list Ev) (s : S) : option S :=
  match es with
  | [] => Some s
  | e :: es => s ← step e s; task_run es s
  end.

Definition event_of (i : nat) (c : lcmd) : option Ev :=
  match c with Task j e => if decide (i = j) then Some e else None | Accept _ => None end.
(** What happened to one task. *)
Definition events (i : nat) (cs : list lcmd) : list Ev := omap (event_of i) cs.
Definition accepted_in (cs : list lcmd) : nat :=
  length (omap (λ c, match c with Accept true => Some () | _ => None end) cs).

Lemma accepted_in_cons c cs : accepted_in (c :: cs) = (accepted_in [c] + accepted_in cs)%nat.
Proof. by destruct c as [[]|]. Qed.

Lemma task_run_app es fs s : task_run (es ++ fs) s = s' ← task_run es s; task_run fs s'.
Proof. revert s. induction es as [|e es IH]; intros s; [done|]. cbn. destruct (step e s); [apply IH|done]. Qed.

(** Tasks are those of accepted connections. *)
Definition spawned (l : listener) : Prop := ∀ i, is_Some (tasks l !! i) ↔ (i < accepts l)%nat ∧ is_Some (start i).

Lemma new_listener_spawned : spawned new_listener.
Proof. intros i. cbn. rewrite lookup_empty. split; [by intros []|lia]. Qed.

Lemma lexec_spawned c l l' : lexec c l = Some l' → spawned l → spawned l'.
Proof.
  unfold spawned. intros Hx Hl. destruct c as [[]|j e]; cbn in Hx.
  - injection Hx as <-. intros i. cbn. destruct (decide (i = accepts l)) as [->|Hi].
    + destruct (start (accepts l)) as [s|] eqn:Es; [rewrite lookup_insert_eq|rewrite Hl]; [naive_solver lia|].
      split; [lia|by intros [_ []]].
    + destruct (start (accepts l)); [rewrite lookup_insert_ne by done|]; rewrite Hl; naive_solver lia.
  - by injection Hx as <-.
  - apply bind_Some in Hx as (s & Hs & Hx). apply bind_Some in Hx as (s' & _ & [= <-]).
    intros i. cbn. rewrite <- Hl. destruct (decide (i = j)) as [->|Hi].
    + rewrite lookup_insert_eq, Hs. naive_solver.
    + by rewrite lookup_insert_ne.
Qed.

(** The state of a task is that of a run of its own events. *)
Definition isolated (cs : list lcmd) (l : listener) : Prop :=
  ∀ i s, tasks l !! i = Some s → ∃ s0, start i = Some s0 ∧ task_run (events i cs) s0 = Some s.

Lemma lexec_isolated cs c l l' :
  spawned l → (∀ i, (accepts l ≤ i)%nat → events i cs = []) → isolated cs l → lexec c l = Some l' →
  isolated (cs ++ [c]) l' ∧ ∀ i, (accepts l' ≤ i)%nat → events i (cs ++ [c]) = [].
Proof.
  intros Hsp He Hiso Hx.
  assert (∀ i, events i (cs ++ [c]) = events i cs ++ events i [c]) as Happ by (intros; apply omap_app).
  destruct c as [[]|j e]; cbn in Hx.
  - injection Hx as <-. split.
    + intros i s Hi. rewrite Happ, app_nil_r. cbn in Hi. destruct (start (accepts l)) as [s0|] eqn:Es; [|by apply Hiso].
      apply lookup_insert_Some in Hi as [[<- <-]|[_ Hi]]; [|by apply Hiso].
      exists s0. split; [done|]. by rewrite He.
    + intros i Hi. cbn in Hi. rewrite Happ, app_nil_r. apply He. lia.
  - injection Hx as <-. split; intros i *; rewrite Happ, app_nil_r; [by apply Hiso|by apply He].
  - apply bind_Some in Hx as (s & Hs & Hx). apply bind_Some in Hx as (s' & Hst & [= <-]).
    assert (j < accepts l)%nat as Hj by (apply Hsp; eauto). split.
    + intros i s1 Hi. cbn in Hi. rewrite Happ. cbn. apply lookup_insert_Some in Hi as [[<- <-]|[Hne Hi]].
      * rewrite decide_True by done. destruct (Hiso _ _ Hs) as (s0 & H0 & Hr). exists s0. split; [done|].
        rewrite task_run_app, Hr. cbn. by rewrite Hst.
      * rewrite decide_False by done. rewrite app_nil_r. by apply Hiso.
    + intros i Hi. cbn in Hi. rewrite Happ. cbn. rewrite decide_False by lia. rewrite app_nil_r. by apply He.
Qed.

Lemma lexec_accepts c l l' : lexec c l = Some l' → accepts l' = (accepts l + accepted_in [c])%nat.
Proof.
  destruct c as [[]|j e]; cbn; intros H.
  - by injection H as <-.
  - injection H as <-. lia.
  - apply bind_Some in H as (s & _ & H). apply bind_Some in H as (s' & _ & [= <-]). cbn. lia.
Qed.

Lemma lrun_inv cs0 cs l l' :
  spawned l → (∀ i, (accepts l ≤ i)%nat → events i cs0 = []) → isolated cs0 l → lrun cs l = Some l' →
  spawned l' ∧ isolated (cs0 ++ cs) l' ∧ accepts l' = (accepts l + accepted_in cs)%nat.
Proof.
  revert cs0 l. induction cs as [|c cs IH]; intros cs0 l Hs He Hi Hrun; cbn in Hrun.
  - injection Hrun as <-. rewrite app_nil_r. split_and!; [done..|]. cbn. lia.
  - apply bind_Some in Hrun as (l1 & Hx & Hrun).
    destruct (lexec_isolated _ _ _ _ Hs He Hi Hx) as [Hi1 He1].
    destruct (IH (cs0 ++ [c]) l1 (lexec_spawned _ _ _ Hx Hs) He1 Hi1 Hrun) as (Hs' & Hi' & Ha).
    rewrite <- app_assoc in Hi'. split_and!; [done..|].
    rewrite Ha, (lexec_accepts _ _ _ Hx). rewrite (accepted_in_cons c cs). lia.
Qed.

(** Steps of one task move no other. *)
Lemma lrun_own i es s s' l :
  tasks l !! i = Some s → task_run es s = Some s' →
  ∃ l', lrun (Task i <$> es) l = Some l' ∧ tasks l' !! i = Some s' ∧ ∀ j, j ≠ i → tasks l' !! j = tasks l !! j.
Proof.
  revert s l. induction es as [|e es IH]; intros s l Hi Hr; cbn in Hr.
  - injection Hr as <-. by exists l.
  - apply bind_Some in Hr as (s1 & Hs & Hr).
    destruct (IH s1 (mkListener (accepts l) (<[i := s1]> (tasks l)))) as (l' & Hl & Hi' & Hj);
      [cbn; by rewrite lookup_insert_eq|done|].
    exists l'. cbn. rewrite Hi. cbn. rewrite Hs. cbn. split_and!; [done..|].
    intros j Hne. rewrite Hj by done. cbn. by rewrite lookup_insert_ne.
Qed.

(** Every accepted connection has its task (unless it ended before its first
    await), however many accepts failed in between, and its state depends on its
    own events alone. *)
Lemma lrun_isolates cs l :
  lrun cs new_listener = Some l →
  (∀ i, is_Some (tasks l !! i) ↔ (i < accepted_in cs)%nat ∧ is_Some (start i)) ∧ isolated cs l.
Proof.
  intros Hrun. destruct (lrun_inv [] cs _ l new_listener_spawned) as (Hs & Hi & Ha); [done|by intros ? ?|done|].
  split; [|done]. intros i. by rewrite (Hs i), Ha.
Qed.
End Listener.
Arguments lcmd Ev : clear implicits.
Arguments listener S : clear implicits.
