(* ===== verification/StreamBridge.v ===== *)
(** * The gateway's stream bridge: [crates/quicmix/src/stream_bridge.rs].

    One bridged TCP connection: frames read from the stream are injected into
    the local QUIC listener over UDP, UDP replies are framed back.  The two
    loops run under [tokio::select!]; a schedule says which of them is polled. *)

From S2P Require Import Prelude RustFloat RustStr Core ByteStream Tor.
Open Scope Z_scope.

Definition MAX_DATAGRAM : Z := Z.shiftl 1 20.

(** The state [handle] holds.  [udp_send] and [inbox] are the connected UDP
    socket: whether it takes a datagram, and what [recv] finds on it. *)
Record conn := mkConn {
  rd : reader;
  wr : writer;
  udp_send : bytes → bool;
  injected : list bytes;
  inbox : list (result io_error bytes);
}.

(** One iteration of a loop: it waits for its input, goes round, or breaks. *)
Inductive turn : Type := Wait | Next (c : conn) | Break (c : conn).

Definition to_udp (c : conn) : turn :=
  let stop r := Break (mkConn r (wr c) (udp_send c) (injected c) (inbox c)) in
  match read_exact 4 (rd c) with
  | Pending => Wait
  | Ready (Err _, r1) => stop r1
  | Ready (Ok len, r1) =>
      let n := u32_from_be_bytes len in
      if (n =? 0) || (MAX_DATAGRAM <? n) then stop r1
      else match read_exact (Z.to_nat n) r1 with
      | Pending => Wait
      | Ready (Err _, r2) => stop r2
      | Ready (Ok buf, r2) =>
          if udp_send c buf
          then Next (mkConn r2 (wr c) (udp_send c) (injected c ++ [buf]) (inbox c))
          else stop r2
      end
  end.

Definition to_tcp (c : conn) : turn :=
  match inbox c with
  | [] => Wait
  | Err _ :: q => Break (mkConn (rd c) (wr c) (udp_send c) (injected c) q)
  | Ok d :: q =>
      let buf := take (Z.to_nat 65535) d in
      let len := u32_to_be_bytes (wrap 32 (Z.of_nat (length buf))) in
      let next w := mkConn (rd c) w (udp_send c) (injected c) q in
      let (r1, w1) := write_all len (wr c) in
      if is_err r1 then Break (next w1) else
      let (r2, w2) := write_all buf w1 in
      if is_err r2 then Break (next w2) else
      let (r3, w3) := flush w2 in
      if is_err r3 then Break (next w3) else Next (next w3)
  end.

(** [tokio::select!] polls one loop per entry of the schedule ([true]: the
    stream-to-UDP one) until either breaks. *)
Fixpoint select (sched : list bool) (c : conn) : conn * bool :=
  match sched with
  | [] => (c, true)
  | b :: sched =>
      match (if b then to_udp c else to_tcp c) with
      | Wait => select sched c
      | Next c => select sched c
      | Break c => (c, false)
      end
  end.

(** [handle]: a fresh socket, nothing injected yet. *)
Definition handle (tcp_rd : reader) (tcp_wr : writer) (send : bytes → bool)
    (replies : list (result io_error bytes)) (sched : list bool) : conn * bool :=
  select sched (mkConn tcp_rd tcp_wr send [] replies).

(** ** Lemmas. *)

(** A datagram the bridge carries. *)
Definition carried (d : bytes) : Prop := d ≠ [] ∧ fits d.
#[global] Instance carried_dec d : Decision (carried d).
Proof. unfold carried; apply _. Defined.

Definition set_rd (r : reader) (c : conn) : conn :=
  mkConn r (wr c) (udp_send c) (injected c) (inbox c).

Lemma to_udp_frame d y e c :
  carried d → rd c = mkReader (frame d ++ y) e → udp_send c d = true →
  to_udp c = Next (mkConn (mkReader y e) (wr c) (udp_send c) (injected c ++ [d]) (inbox c)).
Proof.
  intros [Hne Hd] Hr Hs. unfold to_udp, frame in *. rewrite Hr, <- app_assoc.
  rewrite read_exact_app by apply u32_to_be_bytes_length.
  rewrite frame_header by auto using fits_u32.
  replace (Z.of_nat (length d) =? 0) with false by (destruct d; [done|simpl; lia]).
  pose proof (fits_cap d Hd) as Hc. unfold MAX_FRAME in Hc. unfold MAX_DATAGRAM. rewrite Hc. simpl.
  by rewrite Nat2Z.id, read_exact_app, Hs.
Qed.

Lemma to_udp_partial d x y e c :
  carried d → y ≠ [] → frame d = x ++ y → rd c = mkReader x e →
  to_udp c = match e with None => Wait | Some _ => Break (set_rd (mkReader [] e) c) end.
Proof.
  intros [Hne Hd] Hy Hf Hr. pose proof (frame_length d) as Hl. rewrite Hf, length_app in Hl.
  assert (length y ≠ 0%nat) by (by destruct y). unfold to_udp. rewrite Hr.
  destruct (decide (length x < 4)%nat) as [Hx|Hx].
  { rewrite read_exact_short by done. simpl. by destruct e. }
  assert (∃ k, x = u32_to_be_bytes (Z.of_nat (length d)) ++ k) as [k ->].
  { unfold frame in Hf. apply app_eq_inv in Hf as [(k & Hk & Hd')|(k & Hk & Hd')]; [|eauto].
    exists []. apply (f_equal length) in Hk as Hk'. rewrite u32_to_be_bytes_length, length_app in Hk'.
    assert (k = []) as -> by (destruct k; simpl in *; [done|lia]). by rewrite !app_nil_r in *. }
  rewrite read_exact_app by apply u32_to_be_bytes_length.
  rewrite frame_header by auto using fits_u32.
  replace (Z.of_nat (length d) =? 0) with false by (destruct d; [done|simpl; lia]).
  pose proof (fits_cap d Hd) as Hc. unfold MAX_FRAME in Hc. unfold MAX_DATAGRAM. rewrite Hc. simpl.
  rewrite length_app in *. rewrite u32_to_be_bytes_length in *.
  rewrite Nat2Z.id, read_exact_short by (simpl; lia). simpl. by destruct e.
Qed.

(** What the loop finds on a prefix [x] of the frames of [ds]. *)
Lemma to_udp_prefix ds x q e c :
  Forall carried ds → frames ds = x ++ q → rd c = mkReader x e →
  (∀ d, d ∈ ds → udp_send c d = true) →
  match whole (length x) ds with
  | O => to_udp c = match e with None => Wait | Some _ => Break (set_rd (mkReader [] e) c) end
  | S k => ∃ d ds' y, ds = d :: ds' ∧ frames ds' = y ++ q ∧ whole (length y) ds' = k ∧
      to_udp c = Next (mkConn (mkReader y e) (wr c) (udp_send c) (injected c ++ [d]) (inbox c))
  end.
Proof.
  intros Hds Hx Hr Hs. destruct ds as [|d ds]; [simpl|].
  { unfold frames in Hx. simpl in Hx. symmetry in Hx. apply app_nil in Hx as [-> ->].
    unfold to_udp. rewrite Hr. by destruct e. }
  apply Forall_cons in Hds as [Hd Hds]. pose proof (frame_length d) as Hl.
  rewrite frames_cons in Hx. cbn [whole]. case_decide as Hn.
  - apply app_eq_inv in Hx as [(k & Hk & Hq)|(k & Hk & Hq)].
    + assert (k = []) as ->.
      { apply (f_equal length) in Hk. rewrite length_app in Hk. destruct k; simpl in *; [done|lia]. }
      rewrite app_nil_r in Hk. subst x. rewrite Hl, Nat.sub_diag.
      exists d, ds, []. split_and!; [done|done|done|].
      apply to_udp_frame; [done|by rewrite app_nil_r|apply Hs; set_solver].
    + subst x. rewrite length_app, Hl.
      replace (4 + length d + length k - (4 + length d))%nat with (length k) by lia.
      exists d, ds, k. split_and!; [done..|]. apply to_udp_frame; [done..|apply Hs; set_solver].
  - apply app_eq_inv in Hx as [(k & Hk & Hq)|(k & Hk & Hq)].
    + apply (to_udp_partial d x k); try done. intros ->. rewrite app_nil_r in Hk. subst. lia.
    + subst x. rewrite length_app in Hn. lia.
Qed.

Lemma to_tcp_cons d rs c :
  inbox c = Ok d :: rs → broken (wr c) = None → (length d ≤ Z.to_nat 65535)%nat →
  to_tcp c = Next (mkConn (rd c) (mkWriter (written (wr c) ++ frame d) None) (udp_send c) (injected c) rs).
Proof.
  destruct c as [r [w b] s i ib]; simpl. intros -> -> Hd. unfold to_tcp, write_all, flush.
  simpl inbox. cbn -[Z.to_nat take].
  rewrite take_ge by done. rewrite wrap_small by (unfold in_u; lia). by rewrite <- app_assoc.
Qed.

Definition polls (b : bool) (sched : list bool) : nat := length (filter (λ x, x = b) sched).

Lemma polls_cons b x sched : polls b (x :: sched) = ((if decide (x = b) then 1 else 0) + polls b sched)%nat.
Proof. unfold polls. rewrite filter_cons. by case_decide. Qed.

(** Every schedule carries a prefix each way. *)
Lemma select_carries sched ds rs x q e c :
  Forall carried ds → frames ds = x ++ q → rd c = mkReader x e →
  (∀ d, d ∈ ds → udp_send c d = true) →
  broken (wr c) = None → inbox c = Ok <$> rs → Forall (λ d, (length d ≤ Z.to_nat 65535)%nat) rs →
  let '(c', running) := select sched c in
  ∃ k m, injected c' = injected c ++ take k ds ∧
    written (wr c') = written (wr c) ++ frames (take m rs) ∧
    (if running
     then k = (polls true sched `min` whole (length x) ds)%nat ∧
          m = (polls false sched `min` length rs)%nat ∧
          (e = None ∨ (polls true sched ≤ whole (length x) ds)%nat)
     else e ≠ None ∧ k = whole (length x) ds ∧ (m ≤ length rs)%nat ∧ (whole (length x) ds < polls true sched)%nat).
Proof.
  revert ds rs x c. induction sched as [|b sched IH]; intros ds rs x c Hds Hx Hr Hs Hb Hi Hrs; simpl.
  { exists 0%nat, 0%nat. unfold frames. simpl. rewrite !app_nil_r. split_and!; try done. right. apply Nat.le_0_l. }
  rewrite !polls_cons. destruct b.
  - pose proof (to_udp_prefix ds x q e c Hds Hx Hr Hs) as Ht.
    destruct (whole (length x) ds) as [|k] eqn:Ek.
    + rewrite Ht. destruct e as [e|].
      * exists 0%nat, 0%nat. unfold frames. simpl. rewrite !app_nil_r. split_and!; try done; lia.
      * pose proof (IH ds rs x c Hds Hx Hr Hs Hb Hi Hrs) as H.
        destruct (select sched c) as [c' []]; rewrite Ek in H.
        -- destruct H as (k & m & ? & ? & ? & ? & ?). exists k, m. split_and!; try done; simpl; lia || auto.
        -- by destruct H as (? & ? & ? & ? & ? & ?).
    + destruct Ht as (d & ds' & y & -> & Hy & Hk & ->).
      apply Forall_cons in Hds as [Hd Hds].
      specialize (IH ds' rs y (mkConn (mkReader y e) (wr c) (udp_send c) (injected c ++ [d]) (inbox c))
        Hds Hy eq_refl). simpl in IH. specialize (IH ltac:(set_solver) Hb Hi Hrs). rewrite Hk in IH.
      destruct (select _ _) as [c' []]; destruct IH as (k' & m & Hin & Hout & H).
      * exists (S k'), m. rewrite Hin, <- app_assoc. split_and!; try done; simpl; try lia.
        all: naive_solver lia.
      * exists (S k'), m. rewrite Hin, <- app_assoc. split_and!; try done; simpl; try lia.
        all: naive_solver lia.
  - destruct rs as [|d rs]; simpl in Hi.
    + unfold to_tcp. rewrite Hi. pose proof (IH ds [] x c Hds Hx Hr Hs Hb Hi Hrs) as H.
      destruct (select sched c) as [c' []]; destruct H as (k & m & ? & ? & ? & H); exists k, m; simpl in *.
      * split_and!; try done; simpl; lia || naive_solver.
      * split_and!; try done; simpl; lia || naive_solver.
    + apply Forall_cons in Hrs as [Hd Hrs]. rewrite (to_tcp_cons d (Ok <$> rs)) by done.
      specialize (IH ds rs x (mkConn (rd c) (mkWriter (written (wr c) ++ frame d) None) (udp_send c)
        (injected c) (Ok <$> rs)) Hds Hx Hr Hs eq_refl eq_refl Hrs). simpl in IH.
      destruct (select _ _) as [c' []]; destruct IH as (k & m & Hin & Hout & H).
      * exists k, (S m). rewrite Hout, <- app_assoc. split_and!; try done; simpl; lia || naive_solver lia.
      * exists k, (S m). rewrite Hout, <- app_assoc. split_and!; try done; simpl; lia || naive_solver lia.
Qed.

Lemma reply_fits d : (length d ≤ Z.to_nat 65535)%nat → fits d.
Proof. unfold fits, MAX_FRAME. change (Z.shiftl 1 20) with 1048576. lia. Qed.

(** The bridge carries datagrams faithfully both ways under every
    interleaving of its two loops.  The stream has delivered any prefix [p] of
    what a client's [StreamDatagram] writes for the non-empty datagrams [ds] of
    at most 1 MiB, and the gateway answers [rs].  Then what reaches the gateway
    is a prefix of [ds], unchanged and in order, and a client that reads the
    framed replies receives a prefix of [rs].  While the connection runs, every
    turn given to a loop makes progress: after enough of them all datagrams
    wholly inside [p] and all replies have been carried.  The connection ends
    only when the stream has ended, and not before everything whole in it has
    been injected. *)
Theorem stream_bridge_carries_both_ways ds rs p q e send sched wend o :
  Forall carried ds → frames ds = p ++ q →
  (∀ d, d ∈ ds → send d = true) → Forall (λ d, (length d ≤ Z.to_nat 65535)%nat) rs →
  let '(c, running) := handle (mkReader p e) (mkWriter [] None) send (Ok <$> rs) sched in
  let K := whole (length p) ds in
  ∃ k m, injected c = take k ds ∧
    recv_upto (S (length (take m rs)))
      (StreamDatagram.mk (mkReader (written (wr c)) wend) (mkWriter [] None) o)
    = (take m rs, Some (idle wend)) ∧
    (if running
     then k = (polls true sched `min` K)%nat ∧ m = (polls false sched `min` length rs)%nat
     else e ≠ None ∧ k = K ∧ (m ≤ length rs)%nat).
Proof.
  intros Hds Hp Hs Hrs. unfold handle.
  pose proof (select_carries sched ds rs p q e (mkConn (mkReader p e) (mkWriter [] None) send [] (Ok <$> rs))
    Hds Hp eq_refl Hs eq_refl eq_refl Hrs) as H.
  destruct (select _ _) as [c running]. destruct H as (k & m & Hin & Hout & H). simpl in Hin, Hout.
  exists k, m. split_and!; [done| |by destruct running; naive_solver].
  rewrite Hout, (recv_upto_prefix (take m rs) _ []).
  - by rewrite whole_all, firstn_all.
  - apply Forall_take. eapply Forall_impl; [done|]. apply reply_fits.
  - by rewrite app_nil_r.
Qed.

Lemma stream_bridge_carries_both_ways_witness :
  ∃ k m, injected (fst (handle (mkReader (frames [bs "ab"; bs "c"]) None) (mkWriter [] None)
      (λ _, true) (Ok <$> [bs "ok"]) [true; false; true])) = take k [bs "ab"; bs "c"] ∧
    k = 2%nat ∧ m = 1%nat.
Proof.
  destruct (stream_bridge_carries_both_ways [bs "ab"; bs "c"] [bs "ok"]
    (frames [bs "ab"; bs "c"]) [] None (λ _, true) [true; false; true] None circuit_oracle)
    as (k & m & Hin & _ & Hk & Hm).
  - apply (bool_decide_unpack _). by vm_compute.
  - by rewrite app_nil_r.
  - done.
  - apply (bool_decide_unpack _). by vm_compute.
  - exists k, m. split; [exact Hin|]. split; [exact Hk|exact Hm].
Defined.

(** The bridge is not the exact inverse of [StreamDatagram].  An empty
    datagram, which [StreamDatagram] frames and receives like any other, breaks
    the bridge's connection: its frame and everything behind it is dropped. *)
Theorem empty_frame_breaks_bridge s rest e w send replies sched o :
  broken (StreamDatagram.write s) = None →
  StreamDatagram.try_send [] s
  = (Ok (), StreamDatagram.mk (StreamDatagram.read s)
       (mkWriter (written (StreamDatagram.write s) ++ frame []) None) (StreamDatagram.sd_oracle s)) ∧
  StreamDatagram.try_recv (StreamDatagram.mk (mkReader (frame [] ++ rest) e) w o)
  = Ready (Ok [], StreamDatagram.mk (mkReader rest e) w o) ∧
  handle (mkReader (frame [] ++ rest) e) w send replies (true :: sched)
  = (mkConn (mkReader rest e) w send [] replies, false).
Proof.
  intros Hb. split_and!.
  - by apply try_send_ok.
  - by apply try_recv_frame.
  - unfold handle. cbn [select]. unfold to_udp, frame. cbn [rd]. rewrite <- app_assoc.
    rewrite read_exact_app by apply u32_to_be_bytes_length. by rewrite frame_header.
Qed.

Lemma empty_frame_breaks_bridge_witness :
  snd (handle (mkReader (frame [] ++ frame (bs "x")) None) (mkWriter [] None) (λ _, true) [] [true]) = false.
Proof.
  destruct (empty_frame_breaks_bridge stream0 (frame (bs "x")) None (mkWriter [] None) (λ _, true) [] []
    circuit_oracle eq_refl) as (_ & _ & ->). reflexivity.
Defined.
