(* ===== verification/BridgeServer.v ===== *)
(** * The stream bridge as a server: [serve] of [crates/quicmix/src/stream_bridge.rs].

    The accept loop (Listener) over the connections of StreamBridge, each with a
    UDP socket of its own: bytes arrive, streams end, the gateway answers and the
    two loops of every connection turn, all interleaving. *)

From S2P Require Import Prelude RustFloat RustStr Core ByteStream Tor Listener StreamBridge.
Open Scope Z_scope.

(** What can happen to a connection. *)
Inductive event : Type :=
| Bytes (b : bytes)                      (* bytes arrive on the stream *)
| Eof (e : io_error)                     (* its read half ends *)
| Broken (e : io_error)                  (* its write half breaks *)
| Reply (r : result io_error bytes)      (* a datagram, or an error, on its UDP socket *)
| Turn (b : bool).                       (* a loop is polled ([true]: stream to UDP) *)

Record task := mkTask { tc : conn; running : bool }.

Lemma whole_app ds ds' x :
  whole (length (frames ds ++ x)) (ds ++ ds') = (length ds + whole (length x) ds')%nat.
Proof.
  induction ds as [|d ds IH]; [done|]. rewrite frames_cons. cbn [whole length app].
  rewrite !length_app, frame_length in *. rewrite decide_True by lia. cbn. f_equal.
  rewrite <- IH. f_equal. lia.
Qed.
Section Serve.
(** Does the [i]-th connection's socket bind and connect; does it take a datagram? *)
Variable bind_ok : nat → bool.
Variable send : bytes → bool.

Definition spawn_handle (i : nat) : option task :=
  if bind_ok i then Some (mkTask (mkConn (mkReader [] None) (mkWriter [] None) send [] []) true) else None.

Definition with_rd (r : reader) (t : task) : task := mkTask (set_rd r (tc t)) (running t).

Definition handle_step (e : event) (t : task) : option task :=
  let c := tc t in
  match e with
  | Bytes b => if ended (rd c) then None else Some (with_rd (mkReader (avail (rd c) ++ b) None) t)
  | Eof e => if ended (rd c) then None else Some (with_rd (mkReader (avail (rd c)) (Some e)) t)
  | Broken e => Some (mkTask (mkConn (rd c) (mkWriter (written (wr c)) (Some e)) (udp_send c) (injected c) (inbox c)) (running t))
  | Reply r => Some (mkTask (mkConn (rd c) (wr c) (udp_send c) (injected c) (inbox c ++ [r])) (running t))
  | Turn b =>
      if running t then
        Some (match (if b then to_udp c else to_tcp c) with
              | Wait => t
              | Next c => mkTask c true
              | Break c => mkTask c false
              end)
      else None
  end.

Definition serve (cs : list (lcmd event)) : option (listener task) :=
  lrun spawn_handle handle_step cs new_listener.

(** ** One connection. *)
Definition stream (es : list event) : bytes := es ≫= λ e, match e with Bytes b => b | _ => [] end.
Definition answers (es : list event) : list (result io_error bytes) :=
  omap (λ e, match e with Reply r => Some r | _ => None end) es.
(** What a 65535-byte buffer holds of the answers. *)
Definition replies (es : list event) : list bytes := take (Z.to_nat 65535) <$> omap result_ok (answers es).

Lemma stream_app es fs : stream (es ++ fs) = stream es ++ stream fs.
Proof. apply bind_app. Qed.
Lemma answers_app es fs : answers (es ++ fs) = answers es ++ answers fs.
Proof. apply omap_app. Qed.
Lemma replies_app es fs : replies (es ++ fs) = replies es ++ replies fs.
Proof. unfold replies. by rewrite answers_app, omap_app, fmap_app. Qed.

Record conn_inv (ds : list bytes) (es : list event) (t : task) : Prop := {
  ci_send : udp_send (tc t) = send;
  ci_in : ∃ ds', ds = injected (tc t) ++ ds';
  ci_read : running t = true → stream es = frames (injected (tc t)) ++ avail (rd (tc t));
  ci_out : ∃ ws, written (wr (tc t)) = frames ws ∧ ws `prefix_of` replies es ∧
    (running t = true → ∃ read, answers es = (Ok <$> read) ++ inbox (tc t) ∧ ws = take (Z.to_nat 65535) <$> read);
}.

Lemma conn_inv_spawn ds i t : spawn_handle i = Some t → conn_inv ds [] t.
Proof.
  unfold spawn_handle. destruct (bind_ok i); [|done]. intros [= <-]. split; cbn; try done.
  - by exists ds.
  - exists []. split_and!; [done|done|]. intros _. by exists [].
Qed.

(** A turn of the UDP-to-stream loop writes one framed answer, or ends the
    connection without writing. *)
Lemma to_tcp_turn c r q :
  inbox c = r :: q →
  (∃ d, r = Ok d ∧ to_tcp c = Next (mkConn (rd c)
     (mkWriter (written (wr c) ++ frame (take (Z.to_nat 65535) d)) None) (udp_send c) (injected c) q)) ∨
  ∃ c', to_tcp c = Break c' ∧ udp_send c' = udp_send c ∧ injected c' = injected c ∧ written (wr c') = written (wr c).
Proof.
  intros Hi. unfold to_tcp. rewrite Hi. destruct r as [d|e]; [|right; by eexists].
  assert (Z.of_nat (length (take (Z.to_nat 65535) d)) < 2 ^ 32) as Hl by (rewrite length_take; lia).
  unfold write_all, flush. destruct (wr c) as [w b]. cbn [broken written].
  destruct b as [e|]; [right; by eexists|]. cbn [broken written is_err].
  rewrite wrap_small by (unfold in_u; lia). left. exists d. split; [done|]. by rewrite <- app_assoc.
Qed.

Section Step.
Variable ds : list bytes.
Hypothesis Hcarried : Forall carried ds.
Hypothesis Hsend : ∀ d, d ∈ ds → send d = true.

Lemma inv_quiet es e t t' :
  conn_inv ds es t → udp_send (tc t') = udp_send (tc t) → injected (tc t') = injected (tc t) →
  written (wr (tc t')) = written (wr (tc t)) →
  (running t' = true → running t = true ∧ avail (rd (tc t')) = avail (rd (tc t)) ++ stream [e] ∧
     inbox (tc t') = inbox (tc t) ++ answers [e]) →
  conn_inv ds (es ++ [e]) t'.
Proof.
  intros [Hs Hi Hr (ws & Hw & Hp & Hq)] Es Ei Ew Hrun. split.
  - by rewrite Es.
  - by rewrite Ei.
  - intros (H1 & H2 & _)%Hrun. rewrite stream_app, Ei, H2, app_assoc. f_equal. by apply Hr.
  - exists ws. rewrite Ew, replies_app. split_and!; [done|by apply prefix_app_r|].
    intros (H1 & _ & H3)%Hrun. destruct (Hq H1) as (read & Ha & ->). exists read.
    rewrite answers_app, Ha, H3, app_assoc. by split.
Qed.

Lemma inv_turn_in es t t' :
  conn_inv ds es t → stream es `prefix_of` frames ds → handle_step (Turn true) t = Some t' →
  conn_inv ds (es ++ [Turn true]) t'.
Proof.
  intros Hinv [q Hq] Hx. pose proof Hinv as [Hs [ds' Hds] Hr Ho]. cbn in Hx.
  destruct (running t) eqn:Hrun; [|done]. specialize (Hr eq_refl). injection Hx as <-.
  assert (Forall carried ds') as Hc by (rewrite Hds in Hcarried; by apply Forall_app in Hcarried as [_ ?]).
  assert (frames ds' = avail (rd (tc t)) ++ q) as Hf.
  { rewrite Hr, Hds, frames_app, <- app_assoc in Hq. by apply app_inv_head in Hq. }
  pose proof (to_udp_prefix ds' (avail (rd (tc t))) q (ended (rd (tc t))) (tc t) Hc Hf) as Ht.
  specialize (Ht ltac:(by destruct (rd (tc t))) ltac:(intros d Hd; rewrite Hs; apply Hsend; set_solver)).
  destruct (whole _ ds') as [|k].
  - rewrite Ht. destruct (ended _).
    + by apply (inv_quiet _ _ t).
    + apply (inv_quiet _ _ t); try done. intros _. cbn. by rewrite !app_nil_r.
  - destruct Ht as (d & ds2 & y & -> & Hy & _ & ->). destruct Ho as (ws & Hw & Hp & Hq').
    split; cbn [tc running injected rd wr udp_send written avail inbox]; [done| | |].
    + exists ds2. by rewrite Hds, <- app_assoc.
    + intros _. rewrite stream_app, Hr, frames_app. cbn. rewrite app_nil_r, <- app_assoc. f_equal.
      rewrite frames_cons, Hy, app_assoc in Hf. apply app_inv_tail in Hf. rewrite <- Hf.
      by rewrite app_nil_r.
    + exists ws. rewrite replies_app, answers_app, !app_nil_r. split_and!; [done..|]. intros _. by apply Hq'.
Qed.

Lemma inv_turn_out es t t' :
  conn_inv ds es t → handle_step (Turn false) t = Some t' → conn_inv ds (es ++ [Turn false]) t'.
Proof.
  intros Hinv Hx. pose proof Hinv as [Hs Hi Hr (ws & Hw & Hp & Hq)]. cbn in Hx.
  destruct (running t) eqn:Hrun; [|done]. injection Hx as <-.
  destruct (inbox (tc t)) as [|r ib] eqn:Ei.
  { unfold to_tcp. rewrite Ei. apply (inv_quiet _ _ t); try done. intros _. cbn. by rewrite !app_nil_r. }
  destruct (to_tcp_turn _ _ _ Ei) as [(d & -> & ->)|(c' & -> & ? & ? & ?)]; [|by apply (inv_quiet _ _ t)].
  destruct (Hq eq_refl) as (read & Ha & ->).
  split; cbn [tc running injected rd wr udp_send written avail inbox]; [done|done| |].
  - intros _. rewrite stream_app, app_nil_r. by apply Hr.
  - exists (take (Z.to_nat 65535) <$> (read ++ [d])). rewrite fmap_app, frames_app, Hw.
    assert (answers es = (Ok <$> (read ++ [d])) ++ ib) as Ha' by (by rewrite Ha, fmap_app, <- app_assoc).
    split_and!.
    + unfold frames at 3. cbn. by rewrite app_nil_r.
    + unfold replies. rewrite answers_app, app_nil_r, Ha', omap_app, omap_ok.
      exists (take (Z.to_nat 65535) <$> omap result_ok ib). by rewrite !fmap_app.
    + intros _. exists (read ++ [d]). rewrite answers_app, app_nil_r. split; [exact Ha'|by rewrite fmap_app].
Qed.

Lemma step_inv es e t t' :
  conn_inv ds es t → stream (es ++ [e]) `prefix_of` frames ds → handle_step e t = Some t' → conn_inv ds (es ++ [e]) t'.
Proof.
  intros Hinv Hp Hx. destruct e as [b|e|e|r|[]].
  - cbn in Hx. destruct (ended _); [done|]. injection Hx as <-. apply (inv_quiet _ _ t); try done.
    intros Hr. cbn. by rewrite !app_nil_r.
  - cbn in Hx. destruct (ended _); [done|]. injection Hx as <-. apply (inv_quiet _ _ t); try done.
    intros Hr. cbn. by rewrite !app_nil_r.
  - injection Hx as <-. apply (inv_quiet _ _ t); try done. intros Hr. cbn. by rewrite !app_nil_r.
  - injection Hx as <-. apply (inv_quiet _ _ t); try done. intros Hr. cbn. by rewrite app_nil_r.
  - eapply inv_turn_in; [done| |done]. by rewrite stream_app, app_nil_r in Hp.
  - by eapply inv_turn_out.
Qed.

Lemma task_inv es es' t t' :
  conn_inv ds es t → stream (es ++ es') `prefix_of` frames ds → task_run handle_step es' t = Some t' →
  conn_inv ds (es ++ es') t'.
Proof.
  revert es t. induction es' as [|e es' IH]; intros es t Hinv Hp Hrun; cbn in Hrun.
  - injection Hrun as <-. by rewrite app_nil_r.
  - apply bind_Some in Hrun as (t1 & Hx & Hrun).
    change (e :: es') with ([e] ++ es') in *. rewrite app_assoc in *.
    apply (IH (es ++ [e]) t1); [|done|done]. eapply step_inv; [done| |done].
    rewrite stream_app in Hp. by eapply prefix_app_l.
Qed.

End Step.

(** Turns of the stream-to-UDP loop of a running connection. *)
Lemma udp_turns n ds' x q t :
  Forall carried ds' → frames ds' = x ++ q → rd (tc t) = mkReader x None →
  (∀ d, d ∈ ds' → udp_send (tc t) d = true) → running t = true →
  ∃ t', task_run handle_step (replicate n (Turn true)) t = Some t' ∧ running t' = true ∧
    injected (tc t') = injected (tc t) ++ take (n `min` whole (length x) ds') ds'.
Proof.
  revert ds' x t. induction n as [|n IH]; intros ds' x t Hc Hf Hr Hs Hrun.
  { exists t. rewrite app_nil_r. done. }
  cbn [replicate task_run handle_step]. rewrite Hrun. cbn [mbind option_bind].
  pose proof (to_udp_prefix ds' x q None (tc t) Hc Hf Hr Hs) as Ht.
  destruct (whole (length x) ds') as [|k] eqn:Ek.
  - rewrite Ht. destruct (IH ds' x t Hc Hf Hr Hs Hrun) as (t' & Hx & Hr' & Hi). exists t'.
    rewrite Ek in Hi. split_and!; [done|done|]. by rewrite Hi, !Nat.min_0_r.
  - destruct Ht as (d & ds2 & y & -> & Hy & Hk & ->). apply Forall_cons in Hc as [_ Hc].
    destruct (IH ds2 y (mkTask (mkConn (mkReader y None) (wr (tc t)) (udp_send (tc t)) (injected (tc t) ++ [d]) (inbox (tc t))) true))
      as (t' & Hx & Hr' & Hi); [done|done|done|set_solver|done|].
    exists t'. split_and!; [exact Hx|done|]. rewrite Hi, Hk. cbn. by rewrite <- app_assoc.
Qed.
End Serve.

(** C18: the bridge serves every connection as if it were the only one.  However
    accepts (also failing ones), arrivals, ends and loop turns of all connections
    interleave, each accepted connection whose socket binds has a task and a UDP
    source of its own, and no other has.  Let every client frame non-empty
    datagrams of at most 1 MiB and every UDP send of them succeed (an empty one,
    or a send that fails, ends its connection's task).  Then what a task injects
    into the gateway is a prefix of the datagrams its own client framed, unchanged
    and in order, and what it writes back is, framed, a prefix of the gateway's
    answers to its own source, each cut at 65535 bytes.  While it runs and its
    stream is open, turns of its own inject every datagram that has wholly
    arrived, whatever the other connections do, and change no other task. *)
Theorem bridge_serves_each_connection bind_ok send cs l ds :
  serve bind_ok send cs = Some l →
  (∀ i, Forall carried (ds i) ∧ stream (events i cs) `prefix_of` frames (ds i) ∧ ∀ d, d ∈ ds i → send d = true) →
  (∀ i, is_Some (tasks l !! i) ↔ (i < accepted_in cs)%nat ∧ bind_ok i = true) ∧
  ∀ i t, tasks l !! i = Some t →
    injected (tc t) `prefix_of` ds i ∧
    (∃ ws, written (wr (tc t)) = frames ws ∧ ws `prefix_of` replies (events i cs)) ∧
    (running t = true → ended (rd (tc t)) = None → ∀ n, (length (ds i) ≤ n)%nat →
     ∃ l' t', lrun (spawn_handle bind_ok send) handle_step (Task i <$> replicate n (Turn true)) l = Some l' ∧
       tasks l' !! i = Some t' ∧ (∀ j, j ≠ i → tasks l' !! j = tasks l !! j) ∧
       injected (tc t') = take (whole (length (stream (events i cs))) (ds i)) (ds i)).
Proof.
  intros Hrun Hds. destruct (lrun_isolates _ _ _ _ Hrun) as [Ht Hiso]. split.
  - intros i. rewrite Ht. unfold spawn_handle. destruct (bind_ok i); naive_solver.
  - intros i t Hi. destruct (Hds i) as (Hc & Hp & Hs). destruct (Hiso _ _ Hi) as (t0 & H0 & Hr).
    pose proof (task_inv send (ds i) Hc Hs [] (events i cs) t0 t
      (conn_inv_spawn bind_ok send (ds i) i t0 H0) Hp Hr) as [Hsd [ds' Hin] Hrd (ws & Hw & Hpre & _)].
    split_and!; [by exists ds'|by exists ws|]. intros Hrn Hend n Hn. specialize (Hrd Hrn). cbn [app] in Hrd, Hpre.
    destruct Hp as [q Hq].
    assert (frames ds' = avail (rd (tc t)) ++ q) as Hf.
    { rewrite Hrd, Hin, frames_app, <- app_assoc in Hq. by apply app_inv_head in Hq. }
    destruct (udp_turns bind_ok send n ds' (avail (rd (tc t))) q t) as (t' & Hx & _ & Hinj); [|done| |intros d Hd; rewrite Hsd; apply Hs; rewrite Hin; set_solver|done|].
    + rewrite Hin in Hc. by apply Forall_app in Hc as [_ ?].
    + destruct (rd (tc t)); cbn in *; by subst.
    + destruct (lrun_own (spawn_handle bind_ok send) handle_step i _ _ _ _ Hi Hx) as (l' & Hl' & Hi' & Hj). exists l', t'. split_and!; [done..|].
      rewrite Hrd, Hinj, Hin, whole_app, take_app_add. apply (f_equal (app _)).
      rewrite <- take_take, (take_ge (take _ _)); [done|].
      rewrite length_take, Hin, length_app in *. lia.
Qed.

(** Two clients, an accept that fails between them, the second one's frame split
    around the first one's end. *)
Definition demo_served : list (lcmd event) :=
  [Accept true; Accept false; Accept true; Task 0 (Bytes (frame (bs "ab")));
   Task 1 (Bytes (take 3 (frame (bs "c")))); Task 1 (Turn true); Task 0 (Turn true); Task 0 (Eof UnexpectedEof);
   Task 1 (Reply (Ok (bs "ok"))); Task 0 (Turn true); Task 1 (Turn false);
   Task 1 (Bytes (drop 3 (frame (bs "c"))))].
Definition demo_clients (i : nat) : list bytes := match i with O => [bs "ab"] | 1%nat => [bs "c"] | _ => [] end.

Lemma bridge_serves_each_connection_witness :
  ∃ l, serve (λ _, true) (λ _, true) demo_served = Some l ∧
    (running <$> tasks l !! 0%nat) = Some false ∧ (injected ∘ tc <$> tasks l !! 1%nat) = Some [] ∧
    ∃ l' t', lrun (spawn_handle (λ _, true) (λ _, true)) handle_step [Task 1 (Turn true)] l = Some l' ∧
      tasks l' !! 1%nat = Some t' ∧ injected (tc t') = [bs "c"].
Proof.
  eexists. split; [by vm_compute|]. split; [by vm_compute|]. split; [by vm_compute|].
  edestruct (bridge_serves_each_connection (λ _, true) (λ _, true) demo_served) as [_ H]; [by vm_compute| |].
  - intros i. instantiate (1 := demo_clients). split_and!; [|by destruct i as [|[|i]]; eexists; vm_compute|done].
    destruct i as [|[|i]]; apply (bool_decide_unpack _); by vm_compute.
  - edestruct (H 1%nat) as (_ & _ & Hall); [by vm_compute|].
    destruct (Hall eq_refl eq_refl 1%nat (le_n 1)) as (l' & t' & Hr & Ht & _ & Hi). exists l', t'. by split_and!.
Defined.
