(* ===== verification/UdpFront.v ===== *)
(** * UDP bridges: [crates/quicmix/src/relay.rs] and [front.rs]'s
    [spawn_substrate_front].

    Both shuttle datagrams between UDP sockets and [Substrate] boundaries with
    the same two loops, modelled once as a [pipe]: one loop reads a socket and
    enqueues (waiting while the queue is full), the other takes what the
    boundary returns and sends it.  Every await point is a step, so the loops,
    the boundary's pumps and arrivals interleave arbitrarily. *)

From S2P Require Import Prelude RustFloat RustStr Core Oracle Client Substrate Net.
Open Scope Z_scope.

(** The reading loop: at [recv_from], suspended in [send], called at [called]
    with this datagram, or ended by the boundary refusing it. *)
Inductive in_loop : Type := Receiving | Sending (called : Z) (d : bytes) | Stopped (d : bytes).

Section Pipe.
Context {T : Type} `{MixTransport T}.

Record pipe := mkPipe {
  inbox : list (SocketAddr * bytes);
  loop : in_loop;
  sub : Substrate T;
  out_alive : bool;
  outbox : list (SocketAddr * bytes);
}.

Definition new_pipe (t : T) (depth : nat) (now : Z) : pipe :=
  mkPipe [] Receiving (Substrate.new t depth now) true [].

(** What a 65535-byte buffer holds of a datagram. *)
Definition buffered (d : bytes) : bytes := take (Z.to_nat 65535) d.

(** [sub.send(..).await], polled once. *)
Definition feed (called now : Z) (d : bytes) (s : Substrate T) : in_loop * Substrate T :=
  match Substrate_send called now d s with
  | Ready (Ok _, s') => (Receiving, s')
  | Ready (Err _, s') => (Stopped d, s')
  | Pending => (Sending called d, s)
  end.

(** One poll of the reading loop; the source of the datagram it read. *)
Definition in_turn (now : Z) (p : pipe) : option (option SocketAddr * pipe) :=
  match loop p with
  | Receiving =>
      match inbox p with
      | [] => None
      | (a, d) :: q =>
          let (l, s) := feed now now (buffered d) (sub p) in
          Some (Some a, mkPipe q l s (out_alive p) (outbox p))
      end
  | Sending called d =>
      let (l, s) := feed called now d (sub p) in
      Some (None, mkPipe (inbox p) l s (out_alive p) (outbox p))
  | Stopped _ => None
  end.

(** One turn of the writing loop towards [dest] (unknown: discard). *)
Definition out_turn (dest : option SocketAddr) (p : pipe) :
    option (option (option SocketAddr * bytes) * pipe) :=
  if negb (out_alive p) then None
  else match Substrate_recv (sub p) with
  | Pending => None
  | Ready (Ok dg, s) =>
      Some (Some (dest, dg),
        mkPipe (inbox p) (loop p) s true
          (outbox p ++ match dest with Some a => [(a, dg)] | None => [] end))
  | Ready (Err _, s) => Some (None, mkPipe (inbox p) (loop p) s false (outbox p))
  end.

(** The boundary's own steps: its pumps, the network, oracle updates. *)
Definition internal (c : cmd T) : bool :=
  match c with
  | CTake _ | CBegin _ | CSendPump _ | CRecvPump | CUpdateOracle _ | CInner _ | CAbortPump => true
  | _ => false
  end.

Inductive pcmd : Type :=
| PArrive (src : SocketAddr) (d : bytes)
| PIn (now : Z)
| POut
| PSub (c : cmd T).

(** The step, the source learnt and the datagram taken off the boundary. *)
Definition pexec (dest : option SocketAddr) (c : pcmd) (p : pipe) :
    option (option SocketAddr * option (option SocketAddr * bytes) * pipe) :=
  match c with
  | PArrive a d =>
      Some (None, None, mkPipe (inbox p ++ [(a, d)]) (loop p) (sub p) (out_alive p) (outbox p))
  | PIn now =>
      if now <? clock (sub p) then None
      else '(src, p') ← in_turn now p; Some (src, None, p')
  | POut => '(o, p') ← out_turn dest p; Some (None, o, p')
  | PSub c =>
      if internal c
      then '(_, s) ← exec c (sub p);
           Some (None, None, mkPipe (inbox p) (loop p) s (out_alive p) (outbox p))
      else None
  end.
End Pipe.
Arguments pipe T : clear implicits.
Arguments pcmd T : clear implicits.

(** ** [spawn_substrate_front]: one boundary, one socket, a learnt peer. *)
Record front (T : Type) := mkFront { fpipe : pipe T; peer : option SocketAddr }.
Arguments mkFront {T}.
Arguments fpipe {T}.
Arguments peer {T}.

Definition spawn_substrate_front {T} `{MixTransport T} (pr : profile) (t : T) (now : Z) :
    option (front T) :=
  depth ← bdp_packets pr (oracle t);
  Some (mkFront (new_pipe t (Z.to_nat depth) now) None).

Definition learn (old src : option SocketAddr) : option SocketAddr :=
  match src with Some a => Some a | None => old end.

Definition fexec {T} `{MixTransport T} (c : pcmd T) (f : front T) :
    option (option (option SocketAddr * bytes) * front T) :=
  '(src, o, p) ← pexec (peer f) c (fpipe f);
  Some (o, mkFront p (learn (peer f) src)).

(** ** [start_relay]: a boundary each way; the server is fixed, the client learnt. *)
Record relay (T : Type) := mkRelay { up : pipe T; down : pipe T; client_addr : option SocketAddr }.
Arguments mkRelay {T}.
Arguments up {T}.
Arguments down {T}.
Arguments client_addr {T}.

Definition start_relay {T} `{MixTransport T} (pr : profile) (tup tdown : T) (now : Z) : option (relay T) :=
  du ← bdp_packets pr (oracle tup);
  dd ← bdp_packets pr (oracle tdown);
  Some (mkRelay (new_pipe tup (Z.to_nat du) now) (new_pipe tdown (Z.to_nat dd) now) None).

Inductive rcmd (T : Type) : Type := RUp (c : pcmd T) | RDown (c : pcmd T).
Arguments RUp {T}.
Arguments RDown {T}.

Definition rexec {T} `{MixTransport T} (server_addr : SocketAddr) (c : rcmd T) (r : relay T) :
    option (option (option SocketAddr * bytes) * relay T) :=
  match c with
  | RUp c =>
      '(src, o, p) ← pexec (Some server_addr) c (up r);
      Some (o, mkRelay p (down r) (learn (client_addr r) src))
  | RDown c =>
      (* the reading loop ignores the source: [Ok((n, _))] *)
      '(_, o, p) ← pexec (client_addr r) c (down r);
      Some (o, mkRelay (up r) p (client_addr r))
  end.

(** ** The invariant of a pipe. *)
Definition held {T} `{MixTransport T} (p : pipe T) : list bytes :=
  match loop p with Receiving => [] | Sending _ d | Stopped d => [d] end.

Definition arrival {T} `{MixTransport T} (c : pcmd T) : list (SocketAddr * bytes) :=
  match c with PArrive a d => [(a, d)] | _ => [] end.

Definition sent_to (outs : list (option SocketAddr * bytes)) : list (SocketAddr * bytes) :=
  omap (λ o, match o.1 with Some a => Some (a, o.2) | None => None end) outs.

Record pipe_inv {T} `{MixTransport T} (s0 : Substrate T) (arrivals : list (SocketAddr * bytes))
    (outs : list (option SocketAddr * bytes)) (p : pipe T) (tr : list obs) : Prop := {
  pi_steps : steps s0 tr (sub p);
  pi_in : accepted tr ++ held p ++ ((λ x, buffered x.2) <$> inbox p) = (λ x, buffered x.2) <$> arrivals;
  pi_read : (∃ read, arrivals = read ++ inbox p);
  pi_out : snd <$> outs = omap result_ok (returned tr);
  pi_outbox : outbox p = sent_to outs;
  pi_loop : ∀ d, loop p = Stopped d → pump_alive (sub p) = false;
  pi_alive : out_alive p = false → ∃ e, Err e ∈ returned tr;
}.

Section PipeLemmas.
Context {T : Type} `{MixTransport T}.

Lemma feed_exec called now d (s : Substrate T) l s' :
  clock s ≤ now → feed called now d s = (l, s') →
  (l = Receiving ∧ exec (CSend called now d) s = Some (OAccepted d, s')) ∨
  (l = Sending called d ∧ s' = s) ∨
  (∃ e, l = Stopped d ∧ exec (CSend called now d) s = Some (ORefused d e, s') ∧ pump_alive s' = false).
Proof.
  intros Ht. unfold feed, exec. replace (now <? clock s) with false by lia.
  unfold Substrate_send. destruct (mpsc_send_cases called now d s) as [(?&?&E)|[(Ha&E)|(?&?&E)]]; rewrite E; simpl.
  - intros [= <- <-]. by left.
  - intros [= <- <-]. right; right. exists Closed. split_and!; try done.
  - intros [= <- <-]. right; left. done.
Qed.

Lemma returned_grows tr (o : obs) :
  (∃ e, Err e ∈ returned tr) → ∃ e, Err e ∈ returned (tr ++ [o]).
Proof. intros [e He]. exists e. rewrite returned_snoc. set_solver. Qed.

(** How a step of a pipe extends the boundary's trace; [foreign] is the inner
    transport the network leaves, if the step is the network's. *)
Definition extends (foreign : option T) (tr tr' : list obs) (s s' : Substrate T) : Prop :=
  (tr' = tr ∧ s' = s) ∨
  ∃ c o, tr' = tr ++ [o] ∧ exec c s = Some (o, s') ∧ ∀ t, c = CInner t → foreign = Some t.

Lemma extends_same fo tr s : extends fo tr tr s s.
Proof. by left. Qed.

Lemma extends_one fo tr c o s s' :
  exec c s = Some (o, s') → (∀ t, c = CInner t → fo = Some t) → extends fo tr (tr ++ [o]) s s'.
Proof. intros. right. eauto. Qed.

Lemma in_turn_inv s0 arr outs p tr now src p' :
  pipe_inv s0 arr outs p tr → clock (sub p) ≤ now → in_turn now p = Some (src, p') →
  (∃ tr', pipe_inv s0 arr outs p' tr' ∧ extends None tr tr' (sub p) (sub p')) ∧
  (∀ a, src = Some a → a ∈ fst <$> arr).
Proof.
  intros [Hst Hin [read Hread] Hout Hob Hlp Hoa] Ht Hturn. unfold in_turn in Hturn.
  destruct (loop p) as [|called d|d] eqn:El; [| |done].
  - destruct (inbox p) as [|[a d] q] eqn:Ei; [done|].
    destruct (feed now now (buffered d) (sub p)) as [l s'] eqn:Ef. injection Hturn as <- <-.
    split; [|intros b [= <-]; rewrite Hread, fmap_app; set_solver].
    unfold held in Hin. rewrite El in Hin. simpl in Hin.
    destruct (feed_exec _ _ _ _ _ _ Ht Ef) as [[-> E]|[[-> ->]|(e & -> & E & Hd)]].
    + exists (tr ++ [OAccepted (buffered d)]). split; [|by eapply extends_one]. split; simpl; try done.
      * by eapply steps_snoc.
      * unfold held. simpl. rewrite accepted_snoc, <- app_assoc. by rewrite <- Hin.
      * exists (read ++ [(a, d)]). by rewrite <- app_assoc.
      * by rewrite returned_snoc, app_nil_r.
      * intros Ho. by apply returned_grows, Hoa.
    + exists tr. split; [|apply extends_same]. split; simpl; try done. exists (read ++ [(a, d)]). by rewrite <- app_assoc.
    + exists (tr ++ [ORefused (buffered d) e]). split; [|by eapply extends_one]. split; simpl; try done.
      * by eapply steps_snoc.
      * unfold held. simpl. by rewrite accepted_snoc, app_nil_r.
      * exists (read ++ [(a, d)]). by rewrite <- app_assoc.
      * by rewrite returned_snoc, app_nil_r.
      * intros Ho. by apply returned_grows, Hoa.
  - destruct (feed called now d (sub p)) as [l s'] eqn:Ef. injection Hturn as <- <-. split; [|done].
    unfold held in Hin. rewrite El in Hin. simpl in Hin.
    destruct (feed_exec _ _ _ _ _ _ Ht Ef) as [[-> E]|[[-> ->]|(e & -> & E & Hd)]].
    + exists (tr ++ [OAccepted d]). split; [|by eapply extends_one]. split; simpl; try done.
      * by eapply steps_snoc.
      * unfold held. simpl. by rewrite accepted_snoc, <- app_assoc.
      * by exists read.
      * by rewrite returned_snoc, app_nil_r.
      * intros Ho. by apply returned_grows, Hoa.
    + exists tr. split; [|apply extends_same]. split; simpl; try done. by exists read.
    + exists (tr ++ [ORefused d e]). split; [|by eapply extends_one]. split; simpl; try done.
      * by eapply steps_snoc.
      * unfold held. simpl. by rewrite accepted_snoc, app_nil_r.
      * by exists read.
      * by rewrite returned_snoc, app_nil_r.
      * intros Ho. by apply returned_grows, Hoa.
Qed.

Lemma out_turn_inv s0 arr outs p tr dest o p' :
  pipe_inv s0 arr outs p tr → out_turn dest p = Some (o, p') →
  (∃ tr', pipe_inv s0 arr (outs ++ match o with Some x => [x] | None => [] end) p' tr' ∧
     extends None tr tr' (sub p) (sub p')) ∧
  (∀ x, o = Some x → x.1 = dest).
Proof.
  intros [Hst Hin Hread Hout Hob Hlp Hoa] Hturn. unfold out_turn in Hturn.
  destruct (out_alive p); [simpl in Hturn|done].
  destruct (Substrate_recv (sub p)) as [[r s]|] eqn:Er; [|by destruct (Substrate_recv (sub p))].
  assert (exec CRecv (sub p) = Some (OReturned r, s)) as Hex by (simpl; by rewrite Er).
  assert (pump_alive s = pump_alive (sub p)) as Hpa.
  { apply exec_effect in Hex. by inversion Hex. }
  assert (accepted (tr ++ [OReturned r]) = accepted tr) as Ha by (by rewrite accepted_snoc, app_nil_r).
  destruct r as [dg|e]; injection Hturn as <- <-; (split; [|by intros x [= <-] || done]).
  - exists (tr ++ [OReturned (Ok dg)]). split; [|by eapply extends_one]. split; simpl; try done.
    + by eapply steps_snoc.
    + by rewrite Ha.
    + by rewrite fmap_app, returned_snoc, omap_app, Hout.
    + unfold sent_to. rewrite omap_app, Hob. simpl. by destruct dest.
    + intros d Hd. rewrite Hpa. eauto.
  - exists (tr ++ [OReturned (Err e)]). split; [|by eapply extends_one]. split; simpl; rewrite ?app_nil_r; try done.
    + by eapply steps_snoc.
    + by rewrite Ha.
    + by rewrite returned_snoc, omap_app, Hout, app_nil_r.
    + intros d Hd. rewrite Hpa. eauto.
    + intros _. exists e. rewrite returned_snoc. set_solver.
Qed.
End PipeLemmas.

Section Runs.
Context {T : Type} `{MixTransport T}.

Lemma internal_obs c (s : Substrate T) o s' :
  internal c = true → exec c s = Some (o, s') →
  accepted [o] = [] ∧ returned [o] = [] ∧ (pump_alive s = false → pump_alive s' = false).
Proof.
  intros Hi He. destruct c; try done; simpl in He.
  - case_match; [done|]. apply bind_Some in He as (s1 & Hp & [= <- <-]).
    unfold pump_take in Hp. repeat case_match; simplify_eq/=; done.
  - case_match; [done|]. apply bind_Some in He as (s1 & Hp & [= <- <-]).
    unfold pump_begin in Hp. repeat case_match; simplify_eq/=; done.
  - case_match; [done|]. apply bind_Some in He as ([[[st d] r] s1] & Hp & [= <- <-]).
    unfold send_pump in Hp. repeat case_match; simplify_eq/=; done.
  - apply bind_Some in He as ([r s1] & Hp & [= <- <-]). unfold recv_pump_turn, push_recv in Hp.
    repeat case_match; simplify_eq/=; done.
  - by simplify_eq/=.
  - by simplify_eq/=.
  - by simplify_eq/=.
Qed.

Definition foreign (c : pcmd T) : option T := match c with PSub (CInner t) => Some t | _ => None end.

(** A step of the pipe itself, not of the network inside it. *)
Definition own (c : pcmd T) : bool := match c with PSub (CInner _) => false | _ => true end.

Lemma own_foreign c : own c = true → foreign c = None.
Proof. by destruct c as [| | |[]]. Qed.

Lemma extends_weaken fo tr tr' (s s' : Substrate T) : extends None tr tr' s s' → extends fo tr tr' s s'.
Proof. intros [?|(c & o & ? & ? & Hc)]; [by left|]. right. exists c, o. split_and!; try done. by intros t ?%Hc. Qed.

Lemma pexec_inv s0 arr outs p tr dest c src o p' :
  pipe_inv s0 arr outs p tr → pexec dest c p = Some (src, o, p') →
  (∃ tr', pipe_inv s0 (arr ++ arrival c) (outs ++ match o with Some x => [x] | None => [] end) p' tr' ∧
     extends (foreign c) tr tr' (sub p) (sub p')) ∧
  (∀ a, src = Some a → a ∈ fst <$> arr) ∧ (∀ x, o = Some x → x.1 = dest).
Proof.
  intros Hinv Hx. destruct c as [a d|now| |c]; simpl in *.
  - injection Hx as <- <- <-. split_and!; try done. rewrite app_nil_r. exists tr.
    split; [|apply extends_same]. destruct Hinv as [? Hin [read Hr] ? ? ? ?]. split; simpl; try done.
    + unfold held in *. simpl. rewrite !fmap_app, !app_assoc. f_equal. by rewrite <- Hin, app_assoc.
    + exists read. by rewrite Hr, app_assoc.
  - destruct (now <? clock (sub p)) eqn:Et; [done|]. apply Z.ltb_ge in Et.
    apply bind_Some in Hx as ([src' p1] & Hturn & [= <- <- <-]).
    rewrite !app_nil_r. destruct (in_turn_inv _ _ _ _ _ _ _ _ Hinv Et Hturn). split_and!; done.
  - apply bind_Some in Hx as ([o' p1] & Hturn & [= <- <- <-]).
    rewrite app_nil_r. destruct (out_turn_inv _ _ _ _ _ _ _ _ Hinv Hturn). split_and!; done.
  - destruct (internal c) eqn:Ei; [|done].
    apply bind_Some in Hx as ([o' s] & Hex & [= <- <- <-]). rewrite !app_nil_r.
    destruct (internal_obs _ _ _ _ Ei Hex) as (Ha & Hr & Hp).
    destruct Hinv as [Hst Hin Hread Hout Hob Hlp Hoa]. split_and!; try done.
    exists (tr ++ [o']). split; [|eapply extends_one; [exact Hex|by intros t ->]]. split; simpl; try done.
    + by eapply steps_snoc.
    + by rewrite accepted_snoc, Ha, app_nil_r.
    + by rewrite returned_snoc, Hr, app_nil_r.
    + eauto.
    + intros Ho. by apply returned_grows, Hoa.
Qed.

(** A command that shows nothing leaves the inner transport alone, the network's
    own steps apart. *)
Lemma silent_inner c (s s' : Substrate T) :
  (∀ t, c ≠ CInner t) → exec c s = Some (OSilent, s') → inner s' = inner s.
Proof.
  intros Hc He. destruct c; cbn in He.
  1-3: case_match; [done|]; unfold of_poll, sent_obs in He; repeat case_match; simplify_eq/=.
  - repeat case_match; simplify_eq/=.
  - case_match; [done|]. apply bind_Some in He as (s1 & Hp & [= ->]). unfold pump_take in Hp.
    repeat case_match; by simplify_eq/=.
  - case_match; [done|]. apply bind_Some in He as (s1 & Hp & [= ->]). unfold pump_begin in Hp.
    repeat case_match; by simplify_eq/=.
  - case_match; [done|]. by apply bind_Some in He as ([[[st d] r] s1] & _ & [=]).
  - apply bind_Some in He as ([r s1] & Hr & [= Hs ->]). unfold recv_pump_turn, push_recv in Hr.
    repeat case_match; by simplify_eq/=.
  - unfold of_poll in He. by repeat case_match; simplify_eq/=.
  - by injection He as <-.
  - by destruct (Hc t).
  - done.
Qed.

(** The network's step on the transport inside a pipe. *)
Definition at_inner (t : T) (p : pipe T) : pipe T :=
  mkPipe (inbox p) (loop p) (set_recv (sub p) (recv_q (sub p)) (recv_pump (sub p)) t (metrics (sub p)))
    (out_alive p) (outbox p).

Lemma pipe_inv_net s0 arr outs p tr t :
  pipe_inv s0 arr outs p tr → pipe_inv s0 arr outs (at_inner t p) (tr ++ [OSilent]).
Proof.
  intros [Hst Hin Hread Hout Hob Hlp Hoa]. split; cbn; try done.
  - by eapply (steps_snoc _ _ _ (CInner t)).
  - by rewrite accepted_snoc, app_nil_r.
  - by rewrite returned_snoc, app_nil_r.
  - intros Ho. by apply returned_grows, Hoa.
Qed.

(** What the transport took, and what was read from it. *)
Definition sent_ok (tr : list obs) : list bytes :=
  omap (λ h, if is_err (h_res h) then None else Some (h_dg h)) (handed tr).
Definition read_ok (tr : list obs) : list bytes := omap result_ok (reads tr).

Lemma sent_ok_snoc tr o : sent_ok (tr ++ [o]) = sent_ok tr ++ sent_ok [o].
Proof. unfold sent_ok. by rewrite handed_snoc, omap_app. Qed.
Lemma read_ok_snoc tr o : read_ok (tr ++ [o]) = read_ok tr ++ read_ok [o].
Proof. unfold read_ok. by rewrite reads_snoc, omap_app. Qed.

(** What was read from the transport was returned, or waits in the boundary. *)
Lemma reads_accounted t n now tr (s : Substrate T) :
  steps (Substrate.new t n now) tr s →
  omap result_ok (reads tr) = omap result_ok (returned tr) ++ omap result_ok (recv_q s ++ Substrate.held s).
Proof.
  intros Hst. destruct (steps_effect_ind recv_inv _ (recv_inv_new t n now) recv_inv_step _ _ Hst)
    as [(k & rs & Hr & Hrd & _) _].
  rewrite Hr, Hrd, !omap_app.
  assert (omap (B := bytes) result_ok (replicate k (Err Closed)) = []) as ->
    by (clear; by induction k as [|k IH]; [|exact IH]).
  by rewrite app_nil_r.
Qed.

Lemma new_pipe_inv t n now : pipe_inv (Substrate.new t n now) [] [] (new_pipe t n now) [].
Proof. split; try done; [constructor|by exists []]. Qed.

(** Running a front, and a relay, over a list of steps. *)
Fixpoint frun (cs : list (pcmd T)) (f : front T) :
    option (list (option SocketAddr * bytes) * front T) :=
  match cs with
  | [] => Some ([], f)
  | c :: cs =>
      '(o, f) ← fexec c f; '(os, f) ← frun cs f;
      Some (match o with Some x => [x] | None => [] end ++ os, f)
  end.

Fixpoint rrun (server : SocketAddr) (cs : list (rcmd T)) (r : relay T) :
    option (list (option SocketAddr * bytes) * relay T) :=
  match cs with
  | [] => Some ([], r)
  | c :: cs =>
      '(o, r) ← rexec server c r; '(os, r) ← rrun server cs r;
      Some (match o with Some x => [x] | None => [] end ++ os, r)
  end.

Definition arrivals (cs : list (pcmd T)) : list (SocketAddr * bytes) := cs ≫= arrival.

(** Once the peer is known it stays known, so discards come first. *)
Definition dests_ok (known : bool) (srcs : list SocketAddr) (outs : list (option SocketAddr * bytes)) : Prop :=
  (∀ x a, x ∈ outs → x.1 = Some a → a ∈ srcs) ∧
  (known = true → ∀ x, x ∈ outs → x.1 ≠ None).

Lemma frun_inv s0 cs f f' os arr outs tr :
  pipe_inv s0 arr outs (fpipe f) tr → frun cs f = Some (os, f') →
  (∀ a, peer f = Some a → a ∈ fst <$> arr) →
  (∃ tr', pipe_inv s0 (arr ++ arrivals cs) (outs ++ os) (fpipe f') tr') ∧
  (∀ x a, x ∈ os → x.1 = Some a → a ∈ fst <$> (arr ++ arrivals cs)) ∧
  (∃ n, Forall (λ x, x.1 = None) (firstn n os) ∧ Forall (λ x, x.1 ≠ None) (skipn n os) ∧
     (is_Some (peer f) → n = 0%nat)).
Proof.
  revert f arr outs tr os. induction cs as [|c cs IH]; intros f arr outs tr os Hinv Hrun Hpeer; simpl in Hrun.
  - injection Hrun as <- <-. unfold arrivals. simpl. rewrite !app_nil_r. split_and!; eauto.
    + intros x a Hx. by apply not_elem_of_nil in Hx.
    + exists 0%nat. split_and!; done || constructor.
  - apply bind_Some in Hrun as ([o f1] & Hx & Hrun). apply bind_Some in Hrun as ([os1 f2] & Hrun & [= <- <-]).
    unfold fexec in Hx. apply bind_Some in Hx as ([[src o'] p] & Hx & [= <- <-]).
    destruct (pexec_inv _ _ _ _ _ _ _ _ _ _ Hinv Hx) as ((tr1 & Hinv1 & _) & Hsrc & Hdst).
    destruct (IH (mkFront p (learn (peer f) src)) _ _ _ _ Hinv1 Hrun) as ((tr' & Hinv') & Hos & (n & Hn1 & Hn2 & Hn3)).
    { simpl. intros a Ha. rewrite fmap_app. apply elem_of_app. left. destruct src; simpl in Ha; [simplify_eq; eauto|auto]. }
    unfold arrivals in *. simpl. rewrite app_assoc. split_and!.
    + exists tr'. by rewrite app_assoc.
    + intros x a [Hx'|Hx']%elem_of_app Ha; [|eauto].
      destruct o' as [y|]; [|by apply not_elem_of_nil in Hx']. apply list_elem_of_singleton in Hx' as ->.
      rewrite (Hdst y eq_refl) in Ha. rewrite !fmap_app. set_solver.
    + destruct o' as [y|]; simpl; [|exists n; split_and!; try done].
      * specialize (Hdst y eq_refl). destruct (peer f) as [a|] eqn:Ep.
        -- exists 0%nat. simpl. split_and!; [constructor| |done]. constructor; [by rewrite Hdst|].
           rewrite Hn3 in Hn2; [done|]. simpl. destruct src; simpl; eauto.
        -- exists (S n). simpl. split_and!; [by constructor|done|]. by intros [].
      * intros Hp. apply Hn3. simpl. destruct src; simpl; eauto.
Qed.
End Runs.

Section RelayRuns.
Context {T : Type} `{MixTransport T}.

Definition up_arrival (c : rcmd T) : list (SocketAddr * bytes) :=
  match c with RUp c => arrival c | RDown _ => [] end.
Definition down_arrival (c : rcmd T) : list (SocketAddr * bytes) :=
  match c with RDown c => arrival c | RUp _ => [] end.

(** A property of a pipe, of what arrived and of what it put out, is kept by a
    step. *)
Abbreviation pipe_prop := (list (SocketAddr * bytes) → list (option SocketAddr * bytes) → pipe T → Prop).
Definition keeps (P : pipe_prop) (c : pcmd T) (p : pipe T) : Prop :=
  ∀ dest arr outs src o p', P arr outs p → pexec dest c p = Some (src, o, p') →
    P (arr ++ arrival c) (outs ++ match o with Some x => [x] | None => [] end) p' ∧
    (∀ a, src = Some a → a ∈ fst <$> arr) ∧ (∀ x, o = Some x → x.1 = dest).
Definition rkeeps (Pu Pd : pipe_prop) (c : rcmd T) (r : relay T) : Prop :=
  match c with RUp c => keeps Pu c (up r) | RDown c => keeps Pd c (down r) end.

Definition plain (s0 : Substrate T) : pipe_prop := λ arr outs p, ∃ tr, pipe_inv s0 arr outs p tr.

Lemma plain_keeps s0 c p : keeps (plain s0) c p.
Proof.
  intros dest arr outs src o p' [tr Hp] Hx.
  destruct (pexec_inv _ _ _ _ _ _ _ _ _ _ Hp Hx) as ((tr1 & Hp1 & _) & ? & ?). split_and!; [by exists tr1|done..].
Qed.

(** Both pipes keep their property, and a reply only goes to a client that has
    sent something. *)
Record relay_inv (server : SocketAddr) (Pu Pd : pipe_prop)
    (ups downs : list (SocketAddr * bytes)) (r : relay T) : Prop := {
  ri_up : ∃ outs, Pu ups outs (up r) ∧ (∀ x, x ∈ outs → x.1 = Some server);
  ri_down : ∃ outs, Pd downs outs (down r) ∧
    (∀ x a, x ∈ outs → x.1 = Some a → a ∈ fst <$> ups);
  ri_client : ∀ a, client_addr r = Some a → a ∈ fst <$> ups;
}.

Lemma rexec_inv server Pu Pd ups downs r c o r' :
  relay_inv server Pu Pd ups downs r → rkeeps Pu Pd c r → rexec server c r = Some (o, r') →
  relay_inv server Pu Pd (ups ++ up_arrival c) (downs ++ down_arrival c) r'.
Proof.
  intros [(ou & Hu & Hud) (od & Hd & Hdd) Hc] Hk Hx. destruct c as [c|c]; simpl in Hx.
  - apply bind_Some in Hx as ([[src o'] p] & Hx & [= <- <-]).
    destruct (Hk _ _ _ _ _ _ Hu Hx) as (Hinv1 & Hsrc & Hdst).
    simpl. rewrite app_nil_r. split; simpl.
    + eexists. split; [exact Hinv1|]. intros x [Hin|Hin]%elem_of_app; [auto|].
      destruct o' as [y|]; [|by apply not_elem_of_nil in Hin]. apply list_elem_of_singleton in Hin as ->. auto.
    + eexists. split; [exact Hd|]. intros x a Hin Ha. rewrite fmap_app. apply elem_of_app. eauto.
    + intros a Ha. rewrite fmap_app. apply elem_of_app. left. destruct src; simpl in Ha; [simplify_eq; eauto|auto].
  - apply bind_Some in Hx as ([[src o'] p] & Hx & [= <- <-]).
    destruct (Hk _ _ _ _ _ _ Hd Hx) as (Hinv1 & _ & Hdst).
    simpl. rewrite app_nil_r. split; simpl; [eauto| |done].
    eexists. split; [exact Hinv1|]. intros x a [Hin|Hin]%elem_of_app Ha; [eauto|].
    destruct o' as [y|]; [|by apply not_elem_of_nil in Hin]. apply list_elem_of_singleton in Hin as ->.
    apply Hc. by rewrite <- (Hdst y eq_refl).
Qed.

Lemma new_relay_inv server (Pu Pd : pipe_prop) pu pd :
  Pu [] [] pu → Pd [] [] pd → relay_inv server Pu Pd [] [] (mkRelay pu pd None).
Proof. intros Hu Hd. split; [exists []|exists []|done]; (split; [done|]); by intros ? *; rewrite elem_of_nil. Qed.

Lemma rrun_inv server su sd cs r os r' ups downs :
  relay_inv server (plain su) (plain sd) ups downs r → rrun server cs r = Some (os, r') →
  relay_inv server (plain su) (plain sd) (ups ++ (cs ≫= up_arrival)) (downs ++ (cs ≫= down_arrival)) r'.
Proof.
  revert r os ups downs. induction cs as [|c cs IH]; intros r os ups downs Hinv Hrun; simpl in Hrun.
  - injection Hrun as <- <-. by rewrite !app_nil_r.
  - apply bind_Some in Hrun as ([o r1] & Hx & Hrun). apply bind_Some in Hrun as ([os1 r2] & Hrun & [= <- <-]).
    simpl. rewrite !app_assoc. eapply IH; [|done]. eapply rexec_inv; [done| |done].
    destruct c; apply plain_keeps.
Qed.

(** What a pipe has made of its arrivals, in order. *)
Lemma pipe_inv_order t n now arr outs (p : pipe T) tr :
  pipe_inv (Substrate.new t n now) arr outs p tr →
  (h_dg <$> handed tr) ++ lost tr ++ in_hand (sub p) ++ (send_q (sub p)).*2 ++ held p ++
    ((λ x, buffered x.2) <$> inbox p) = (λ x, buffered x.2) <$> arr ∧
  (pump_alive (sub p) = true → lost tr = []).
Proof.
  intros [Hst Hin _ _ _ _ _].
  destruct (steps_effect_ind fifo_inv _ (fifo_inv_new t n now) fifo_inv_step _ _ Hst) as [Ho Ha].
  rewrite <- Hin, Ho, <- !app_assoc. done.
Qed.
End RelayRuns.

(** C27: the local front neither loses, duplicates nor reorders.  Over any
    interleaving of arrivals, the two loops and the boundary's pumps, the
    datagrams that arrived on the socket are, in order: those handed to the
    substrate, those lost with an aborted pump, the one the pump holds, those
    queued, the one a suspended [send] holds and those still in the socket.  What
    the substrate delivers goes out in order, except that what comes before the first arrival
    is discarded; every reply is addressed to a peer that has sent something. *)
Theorem spawn_substrate_front_forwards {T} `{MixTransport T} pr (t : T) now cs os f0 f :
  spawn_substrate_front pr t now = Some f0 → frun cs f0 = Some (os, f) →
  ∃ depth tr, bdp_packets pr (oracle t) = Some depth ∧
    steps (Substrate.new t (Z.to_nat depth) now) tr (sub (fpipe f)) ∧
    (h_dg <$> handed tr) ++ lost tr ++ in_hand (sub (fpipe f)) ++ (send_q (sub (fpipe f))).*2 ++ held (fpipe f) ++
      ((λ x, buffered x.2) <$> inbox (fpipe f)) = (λ x, buffered x.2) <$> arrivals cs ∧
    snd <$> os = omap result_ok (returned tr) ∧
    outbox (fpipe f) = sent_to os ∧
    (∀ x, x ∈ outbox (fpipe f) → x.1 ∈ fst <$> arrivals cs) ∧
    (∃ n, Forall (λ x, x.1 = None) (firstn n os) ∧ Forall (λ x, x.1 ≠ None) (skipn n os)).
Proof.
  unfold spawn_substrate_front. intros (depth & Hd & [= <-])%bind_Some Hrun.
  destruct (frun_inv _ cs (mkFront (new_pipe t (Z.to_nat depth) now) None) f os [] [] [] (new_pipe_inv t (Z.to_nat depth) now) Hrun)
    as ((tr & Hinv) & Hdst & (n & Hn1 & Hn2 & _)); [done|]. simpl in Hinv, Hdst.
  destruct (pipe_inv_order _ _ _ _ _ _ _ Hinv) as [Ho _]. destruct Hinv as [Hst _ _ Hout Hob _ _].
  exists depth, tr. split_and!; try done; [|eauto].
  rewrite Hob. intros x Hx. unfold sent_to in Hx. apply list_elem_of_omap in Hx as (y & Hy & Hyx).
  destruct (y.1) as [a|] eqn:Ea; [|done]. injection Hyx as <-. simpl. eauto.
Qed.

(** The relay is two such fronts back to back.  Client datagrams reach the
    server, and server datagrams the client, through their own boundary, each in
    order and without loss or duplication inside the relay; everything the
    upward side emits is addressed to the server, everything the downward side
    emits to a client that has sent something. *)
Theorem relay_forwards_both_ways {T} `{MixTransport T} pr server (tup tdown : T) now cs os r0 r :
  start_relay pr tup tdown now = Some r0 → rrun server cs r0 = Some (os, r) →
  (∃ depth (outs : list (option SocketAddr * bytes)) tr, bdp_packets pr (oracle tup) = Some depth ∧
    steps (Substrate.new tup (Z.to_nat depth) now) tr (sub (up r)) ∧
    (h_dg <$> handed tr) ++ lost tr ++ in_hand (sub (up r)) ++ (send_q (sub (up r))).*2 ++ held (up r) ++
      ((λ x, buffered x.2) <$> inbox (up r)) = (λ x, buffered x.2) <$> (cs ≫= up_arrival) ∧
    snd <$> outs = omap result_ok (returned tr) ∧ outbox (up r) = (server,.) <$> (snd <$> outs)) ∧
  (∃ depth (outs : list (option SocketAddr * bytes)) tr, bdp_packets pr (oracle tdown) = Some depth ∧
    steps (Substrate.new tdown (Z.to_nat depth) now) tr (sub (down r)) ∧
    (h_dg <$> handed tr) ++ lost tr ++ in_hand (sub (down r)) ++ (send_q (sub (down r))).*2 ++ held (down r) ++
      ((λ x, buffered x.2) <$> inbox (down r)) = (λ x, buffered x.2) <$> (cs ≫= down_arrival) ∧
    snd <$> outs = omap result_ok (returned tr) ∧ outbox (down r) = sent_to outs ∧
    (∀ x, x ∈ outbox (down r) → x.1 ∈ fst <$> (cs ≫= up_arrival))).
Proof.
  unfold start_relay. intros (du & Hdu & (dd & Hdd & [= <-])%bind_Some)%bind_Some Hrun.
  destruct (rrun_inv server (Substrate.new tup (Z.to_nat du) now) (Substrate.new tdown (Z.to_nat dd) now)
    cs (mkRelay (new_pipe tup (Z.to_nat du) now) (new_pipe tdown (Z.to_nat dd) now) None) os r [] [])
    as [(ou & (tu & Hu) & Hud) (od & (td & Hd) & Hdst) _]; [|exact Hrun|].
  { apply new_relay_inv; eexists; apply new_pipe_inv. }
  simpl in *. split.
  - destruct (pipe_inv_order _ _ _ _ _ _ _ Hu) as [Ho _]. destruct Hu as [Hst _ _ Hout Hob _ _].
    exists du, ou, tu. split_and!; try done. rewrite Hob. clear Hob Hout. unfold sent_to.
    induction ou as [|x ou IH]; [done|]. simpl. rewrite (Hud x) by set_solver. simpl. f_equal.
    apply IH. intros y Hy. apply Hud. set_solver.
  - destruct (pipe_inv_order _ _ _ _ _ _ _ Hd) as [Ho _]. destruct Hd as [Hst _ _ Hout Hob _ _].
    exists dd, od, td. split_and!; try done. rewrite Hob. intros x Hx. unfold sent_to in Hx.
    apply list_elem_of_omap in Hx as (y & Hy & Hyx).
    destruct (y.1) as [a|] eqn:Ea; [|done]. injection Hyx as <-. simpl. eauto.
Qed.

(** A front over a loopback: one datagram out, its echo back to the sender. *)
Definition demo_peer : SocketAddr := SA4 (V4 127 0 0 1) 40000.
Definition demo_inner : Loopback.t :=
  Loopback.mk [bs "early"] (mkOracleParams 3 (from_millis 5) (S754_zero false) (from_millis 10) 1200).
Definition demo_steps : list (pcmd Loopback.t) :=
  [PSub CRecvPump; POut; PArrive demo_peer (bs "hi"); PIn 5; PSub (CTake 7); PSub (CBegin 7); PSub (CSendPump 8); PSub CRecvPump; POut].

Lemma spawn_substrate_front_forwards_witness :
  ∃ f0 os f, spawn_substrate_front Debug demo_inner 0 = Some f0 ∧ frun demo_steps f0 = Some (os, f) ∧
    outbox (fpipe f) = sent_to os ∧ os = [(None, bs "early"); (Some demo_peer, bs "hi")].
Proof.
  eexists _, _, _. split; [by vm_compute|]. split; [by vm_compute|]. split; [|reflexivity].
  edestruct (spawn_substrate_front_forwards Debug demo_inner 0 demo_steps)
    as (depth & tr & _ & _ & _ & _ & H & _); [by vm_compute|by vm_compute|exact H].
Defined.
