(* ===== verification/Selection.v ===== *)
(** * Which substrate carries the traffic: [crates/quicmix/src/front.rs] and the
    composition binary [crates/quicmix-node/src/main.rs].

    The choice read from the environment, its resolution to the UDP front the
    client dials (directly, through a sidecar process, or through a substrate
    linked into the binary), and the sidecar's announcement protocol.  Time is
    what a 30 s window lets the client see of the sidecar's output. *)

From S2P Require Import Prelude RustFloat RustStr RustText Core Oracle Client Substrate Net UdpFront.
Open Scope Z_scope.

(** [std::env::var]: [None] when unset (or not Unicode). *)
Definition environment := str → option str.

Inductive SubstrateChoice : Type :=
| Direct
| SidecarAt (a : SocketAddr)
| SidecarCmd (name program : str) (args : list str)
| Named (name : str).

#[global] Instance SubstrateChoice_eq_dec : EqDecision SubstrateChoice.
Proof. solve_decision. Defined.

Inductive choice_error : Type := BadSidecarFront | EmptySidecarCmd.

Definition from_env (env : environment) : result choice_error SubstrateChoice :=
  let name := trim (default [] (env (bs "QUICMIX_SUBSTRATE"))) in
  if bool_decide (name = []) || eq_ignore_ascii_case name (bs "direct") then Ok Direct
  else match env (bs "QUICMIX_SIDECAR_FRONT") with
  | Some front => SidecarAt <$> ok_or (parse_socket_addr (trim front)) BadSidecarFront
  | None =>
      match env (bs "QUICMIX_SIDECAR_CMD") with
      | Some cmd =>
          match split_whitespace cmd with
          | [] => Err EmptySidecarCmd
          | program :: args => Ok (SidecarCmd name program args)
          end
      | None => Ok (Named name)
      end
  end.

Definition label (c : SubstrateChoice) : str :=
  match c with
  | Direct => bs "direct quicmix QUIC (1 real hop)"
  | SidecarAt a => bs "sidecar front @ " ++ show_socket_addr a
  | SidecarCmd name _ _ => bs "sidecar:" ++ name
  | Named name => bs "linked:" ++ name
  end.

(** ** The sidecar: [FRONT <ip:port>] on a line of its own. *)
Definition FRONT_LINE : str := bs "FRONT ".
Definition SIDECAR_TARGET_ENV : str := bs "QUICMIX_SIDECAR_TARGET".

Inductive front_error : Type :=
| SpawnFailed | SidecarIo | BadFrontAddr (rest : str) | SidecarExited | NoFrontIn30s
| NotLinked (name : str) (supported : list str)
| MissingVar (var : str)
| SubstrateFailed
| NoBuilder (name : str)
| FrontPanicked | FrontBindFailed.

(** What a line of output announces; other lines pass. *)
Definition announced (line : str) : option (result front_error SocketAddr) :=
  match strip_prefix FRONT_LINE line with
  | Some rest => Some (ok_or (parse_socket_addr (trim rest)) (BadFrontAddr rest))
  | None => None
  end.

Definition await_front (pieces : list str) (ended : bool) : result front_error SocketAddr :=
  for_lines SidecarIo SidecarExited NoFrontIn30s announced pieces ended.

(** A child process: its command line and environment, what it printed within
    the window and whether its output ended in it. *)
Record child := mkChild {
  program : str; args : list str; child_env : list (str * str); stdout : bytes; ended : bool
}.

Section Resolve.
(** [Command::spawn]: what the operating system runs; [None] when it cannot. *)
Variable spawn : str → list str → list (str * str) → option (bytes * bool).

Definition spawn_sidecar (program : str) (args : list str) (gateway : SocketAddr) :
    result front_error (SocketAddr * child) :=
  let env := [(SIDECAR_TARGET_ENV, show_socket_addr gateway)] in
  match spawn program args env with
  | None => Err SpawnFailed
  | Some (out, e) =>
      a ← await_front (split LF out) e;
      Ok (a, mkChild program args env out e)
  end.

(** [Arc<dyn MixTransport>]. *)
Record dyn := mkDyn { dyn_type : Type; dyn_transport : MixTransport dyn_type; dyn_value : dyn_type }.

(** [SubstrateBuilder]. *)
Record SubstrateBuilder := mkBuilder {
  build : str → SocketAddr → result front_error dyn;
  supported : list str;
}.

Inductive FrontGuard : Type :=
| NoGuard
| Child (c : child)
| Bridge (d : dyn) (f : @front (dyn_type d)).

Record Front := mkFrontOf { addr : SocketAddr; keep : FrontGuard }.

(** [spawn_substrate_front] on a linked transport: [bound] is the local address
    the kernel gives the front's socket, [None] if the bind fails. *)
Definition bridge (pr : profile) (d : dyn) (bound : option SocketAddr) (now : Z) :
    result front_error Front :=
  match @spawn_substrate_front (dyn_type d) (dyn_transport d) pr (dyn_value d) now with
  | None => Err FrontPanicked
  | Some f => a ← ok_or bound FrontBindFailed; Ok (mkFrontOf a (Bridge d f))
  end.

Definition resolve (pr : profile) (choice : SubstrateChoice) (gateway : SocketAddr)
    (builder : option SubstrateBuilder) (bound : option SocketAddr) (now : Z) :
    result front_error Front :=
  match choice with
  | Direct => Ok (mkFrontOf gateway NoGuard)
  | SidecarAt a => Ok (mkFrontOf a NoGuard)
  | SidecarCmd _ program args =>
      '(a, c) ← spawn_sidecar program args gateway; Ok (mkFrontOf a (Child c))
  | Named name =>
      b ← ok_or builder (NoBuilder name);
      d ← build b name gateway;
      bridge pr d bound now
  end.
End Resolve.

(** ** [LinkedSubstrates]: the cargo features of the composition binary. *)
Record features := mkFeatures { f_katzenpost : bool; f_hopr : bool }.

Section Linked.
Variable ft : features.
Variable env : environment.
(** [KatzenpostSubstrate::connect_service] at a daemon, and
    [HoprSubstrate::connect] at an API with a token, a destination, the hops of
    the path and the session's target, against the running daemons. *)
Variable kp_connect : str → str → result front_error dyn.
Variable hopr_connect : str → str → str → Z → str → result front_error dyn.

Definition linked_supported : list str :=
  (if f_katzenpost ft then [bs "katzenpost"] else []) ++ (if f_hopr ft then [bs "hopr"] else []).

Definition need (v : string) : result front_error str := ok_or (env (bs v)) (MissingVar (bs v)).

Definition build_katzenpost : result front_error dyn :=
  daemon ← need "QUICMIX_KP_DAEMON";
  kp_connect daemon (default (bs "quicmix") (env (bs "QUICMIX_KP_CAPABILITY"))).

Definition hopr_hops : Z := default 1 (env (bs "QUICMIX_HOPR_HOPS") ≫= parse_uint 8).

Definition build_hopr (gateway : SocketAddr) : result front_error dyn :=
  api ← need "QUICMIX_HOPR_API";
  token ← need "QUICMIX_HOPR_TOKEN";
  destination ← need "QUICMIX_HOPR_DESTINATION";
  hopr_connect api token destination hopr_hops (show_socket_addr gateway).

Definition linked_build (name : str) (gateway : SocketAddr) : result front_error dyn :=
  let n := to_ascii_lowercase name in
  if f_katzenpost ft && (bool_decide (n = bs "katzenpost") || bool_decide (n = bs "kp"))
  then build_katzenpost
  else if f_hopr ft && bool_decide (n = bs "hopr") then build_hopr gateway
  else Err (NotLinked n linked_supported).

Definition substrate_builder : option SubstrateBuilder :=
  if f_katzenpost ft || f_hopr ft then Some (mkBuilder linked_build linked_supported) else None.
End Linked.

(** ** The announcement protocol. *)

Lemma show_v4_addr_graphic a b c d p : Forall graphic (show_socket_addr (SA4 (V4 a b c d) p)).
Proof.
  assert (∀ n, Forall graphic (show_uint n)) as Hn
    by (intros n; eapply Forall_impl; [apply show_uint_digits|apply is_digit_graphic]).
  cbn [show_socket_addr show_ip]. unfold show_v4.
  repeat (apply Forall_app; split); try apply Hn;
    (constructor; [by vm_compute|constructor]).
Qed.

Lemma show_addr_last a b c d p : ∃ x b0, show_socket_addr (SA4 (V4 a b c d) p) = x ++ [b0] ∧ is_digit b0.
Proof.
  pose proof (show_uint_ne p) as Hne. pose proof (show_uint_digits p) as Hd.
  destruct (exists_last Hne) as (y & b0 & E).
  exists (show_ip (V4 a b c d) ++ bs ":" ++ y), b0. cbn [show_socket_addr]. rewrite E, <- !app_assoc.
  split; [done|]. rewrite E in Hd. apply Forall_app in Hd as [_ Hd]. by inversion Hd.
Qed.

Lemma strip_cr_snoc x b : b ≠ CR → strip_cr (x ++ [b]) = x ++ [b].
Proof. intros. unfold strip_cr. rewrite rev_app_distr. cbn [rev app]. by rewrite decide_False. Qed.

(** The announcing line is read as the address it prints. *)
Lemma front_line_announces a b c d p :
  ip_ok (V4 a b c d) → in_u 16 p →
  let l := FRONT_LINE ++ show_socket_addr (SA4 (V4 a b c d) p) in
  LF ∉ l ∧ utf8 l = true ∧ announced (strip_cr l) = Some (Ok (SA4 (V4 a b c d) p)).
Proof.
  intros Hip Hp l. pose proof (show_v4_addr_graphic a b c d p) as Hg.
  assert (Forall is_ascii FRONT_LINE) as Ha by (repeat constructor; by vm_compute).
  split_and!.
  - unfold l. rewrite not_elem_of_app. split; [by apply (bool_decide_unpack (LF ∉ FRONT_LINE)); vm_compute|].
    apply graphic_notin; [done|]. left. by vm_compute.
  - unfold l. apply utf8_ascii, Forall_app. split; [done|]. eapply Forall_impl; [done|apply graphic_ascii].
  - assert (strip_cr l = l) as ->.
    { unfold l. destruct (show_addr_last a b c d p) as (x & b0 & -> & Hb).
      rewrite app_assoc. apply strip_cr_snoc, is_digit_ne; [done|]. left. by vm_compute. }
    unfold announced, l. rewrite (proj2 (strip_prefix_Some _ _ _) eq_refl).
    by rewrite trim_all_graphic, parse_show_socket_addr_v4.
Qed.

(** A [FRONT] line that holds no address. *)
Lemma bad_front_line rest :
  Forall graphic rest → parse_socket_addr rest = None →
  let l := FRONT_LINE ++ rest in
  LF ∉ l ∧ utf8 l = true ∧ announced (strip_cr l) = Some (Err (BadFrontAddr rest)).
Proof.
  intros Hg Hp l. assert (Forall is_ascii FRONT_LINE) as Ha by (repeat constructor; by vm_compute).
  split_and!.
  - unfold l. rewrite not_elem_of_app. split; [by apply (bool_decide_unpack (LF ∉ FRONT_LINE)); vm_compute|].
    apply graphic_notin; [done|]. left. by vm_compute.
  - unfold l. apply utf8_ascii, Forall_app. split; [done|]. eapply Forall_impl; [done|apply graphic_ascii].
  - assert (strip_cr l = l) as ->.
    { unfold l. destruct rest as [|x rest _] using rev_ind; [by vm_compute|].
      apply Forall_app in Hg as [_ [Hx _]%Forall_cons]. rewrite app_assoc. apply strip_cr_snoc.
      intros ->. revert Hx. apply (bool_decide_unpack (¬ graphic CR)). by vm_compute. }
    unfold announced, l. rewrite (proj2 (strip_prefix_Some _ _ _) eq_refl).
    by rewrite trim_all_graphic, Hp.
Qed.

(** A whole line that is not the announcement. *)
Definition log_line (l : str) : Prop := LF ∉ l ∧ utf8 l = true ∧ ¬ FRONT_LINE `prefix_of` strip_cr l.

Lemma log_line_noise l : log_line l → noise announced l.
Proof.
  intros (? & ? & Hp). split; [done..|]. unfold announced.
  destruct (strip_prefix FRONT_LINE (strip_cr l)) as [r|] eqn:Hr; [|done].
  apply strip_prefix_Some in Hr. destruct Hp. by exists r.
Qed.

(** C38: a spawned sidecar is told its gateway (IPv4 here, as the front is) in
    text that reads back as the gateway, and the client dials exactly the address
    the sidecar announces on its first [FRONT] line, whatever lines of UTF-8 it
    printed before and whatever it printed after.  A sidecar that announces
    nothing is an error (exit or timeout), never a wrong address; so is one that
    prints a line that is not UTF-8 first, even if it announces later, one whose
    [FRONT] line holds no address, and a command that cannot be run. *)
Theorem sidecar_handshake (spawn : str → list str → list (str * str) → option (bytes * bool))
    (program : str) (args : list str) (a b c d p g1 g2 g3 g4 gp : Z)
    (before : list str) (after : bytes) (e : bool) :
  let front := SA4 (V4 a b c d) p in
  let gateway := SA4 (V4 g1 g2 g3 g4) gp in
  let env := [(SIDECAR_TARGET_ENV, show_socket_addr gateway)] in
  ip_ok (V4 a b c d) → in_u 16 p → ip_ok (V4 g1 g2 g3 g4) → in_u 16 gp →
  Forall log_line before →
  parse_socket_addr (show_socket_addr gateway) = Some gateway ∧
  (spawn program args env =
     Some (as_lines before ++ FRONT_LINE ++ show_socket_addr front ++ [LF] ++ after, e) →
   fst <$> spawn_sidecar spawn program args gateway = Ok front) ∧
  (spawn program args env = Some (as_lines before, e) →
   fst <$> spawn_sidecar spawn program args gateway =
     Err (if e then SidecarExited else NoFrontIn30s)) ∧
  (∀ bad, LF ∉ bad → utf8 bad = false →
   spawn program args env = Some (as_lines before ++ bad ++ [LF] ++ after, e) →
   fst <$> spawn_sidecar spawn program args gateway = Err SidecarIo) ∧
  (∀ rest, Forall graphic rest → parse_socket_addr rest = None →
   spawn program args env = Some (as_lines before ++ FRONT_LINE ++ rest ++ [LF] ++ after, e) →
   fst <$> spawn_sidecar spawn program args gateway = Err (BadFrontAddr rest)) ∧
  (spawn program args env = None →
   fst <$> spawn_sidecar spawn program args gateway = Err SpawnFailed).
Proof.
  intros front gateway env Hip Hp Hg Hgp Hb. subst front gateway env.
  pose proof (Forall_impl _ _ _ Hb log_line_noise) as Hn.
  split; [by apply parse_show_socket_addr_v4|]. unfold spawn_sidecar, await_front.
  destruct (front_line_announces a b c d p Hip Hp) as (Hlf & Hu & Hon).
  split_and!; [intros ->|intros ->|intros bad|intros rest|intros ->].
  - replace (FRONT_LINE ++ show_socket_addr (SA4 (V4 a b c d) p) ++ [LF] ++ after)
      with ((FRONT_LINE ++ show_socket_addr (SA4 (V4 a b c d) p)) ++ [LF] ++ after)
      by (by rewrite <- !app_assoc).
    by erewrite for_lines_found by done.
  - by rewrite for_lines_nothing.
  - intros Hnu Hu'. intros ->. by erewrite for_lines_bad by done.
  - intros Hg' Hpa. intros ->. destruct (bad_front_line rest Hg' Hpa) as (Hlf' & Hu' & Hbad).
    replace (FRONT_LINE ++ rest ++ [LF] ++ after) with ((FRONT_LINE ++ rest) ++ [LF] ++ after)
      by (by rewrite <- !app_assoc).
    by erewrite for_lines_found by done.
  - done.
Qed.

Definition demo_spawn (out : bytes) (program : str) (args : list str) (env : list (str * str)) :
    option (bytes * bool) := Some (out, false).

Lemma sidecar_handshake_witness :
  fst <$> spawn_sidecar
    (demo_spawn (as_lines [bs "tor: bootstrapped"] ++ FRONT_LINE ++
      show_socket_addr (SA4 (V4 127 0 0 1) 7000) ++ [LF] ++ bs "log"))
    (bs "tor_sidecar") [] (SA4 (V4 64 226 93 43) 4433)
  = Ok (SA4 (V4 127 0 0 1) 7000).
Proof.
  refine (proj1 (proj2 (sidecar_handshake _ (bs "tor_sidecar") [] 127 0 0 1 7000 64 226 93 43 4433
    [bs "tor: bootstrapped"] (bs "log") false _ _ _ _ _)) _).
  - by vm_compute.
  - by vm_compute.
  - by vm_compute.
  - by vm_compute.
  - constructor; [|constructor].
    split; [apply (bool_decide_unpack (LF ∉ _)); by vm_compute|split; [reflexivity|]].
    apply (bool_decide_unpack (¬ _)); by vm_compute.
  - reflexivity.
Defined.

Example from_env_spawns :
  from_env (λ v, if decide (v = bs "QUICMIX_SUBSTRATE") then Some (bs "tor")
                 else if decide (v = bs "QUICMIX_SIDECAR_CMD") then Some (bs "quicmix-tor-sidecar --hops 3")
                 else None)
  = Ok (SidecarCmd (bs "tor") (bs "quicmix-tor-sidecar") [bs "--hops"; bs "3"]).
Proof. vm_compute. reflexivity. Qed.
