(* ===== verification/Gateway.v ===== *)
(** * The gateway role: [crates/quicmix/src/node.rs].

    One QUIC stream of a peer: the target line, the bandwidth probe, and the
    splice between the stream and the dialled TCP connection.  [Node]'s own
    fields are its identity and the transport its congestion plan gives. *)

From S2P Require Import Prelude RustFloat RustStr RustText Core Oracle Client ByteStream.
Open Scope Z_scope.

(** ** [Node]: one transport for both roles. *)
Record Node := mkNode { cert : bytes; key : bytes; node_transport : TransportConfig }.

Section New.
Variable pr : profile.
Variable idle_timeout_from : Z → option Z.
(** [make_cert]: [rcgen]'s certificate and key, [None] if it fails. *)
Variable make_cert : option (bytes * bytes).

Inductive node_error : Type := CertFailed | TransportPanicked.

Definition with_congestion (p : OracleParams) (cc : Congestion) : result node_error Node :=
  '(c, k) ← ok_or make_cert CertFailed;
  t ← ok_or (transport pr idle_timeout_from cc p) TransportPanicked;
  Ok (mkNode c k t).

Definition new (p : OracleParams) : result node_error Node := with_congestion p Quicmix.
End New.

(** ** [AsyncBufReadExt::read_line]. *)
Inductive line_error : Type := LineIo (e : io_error) | NotUtf8.

Definition as_line (raw : str) : result line_error str := if utf8 raw then Ok raw else Err NotUtf8.

Definition read_line (r : reader) : poll (result line_error str * reader) :=
  match split_once LF (avail r), ended r with
  | Some (x, y), e => Ready (as_line (x ++ [LF]), mkReader y e)
  | None, None => Pending
  | None, Some UnexpectedEof => Ready (as_line (avail r), mkReader [] (ended r))
  | None, Some e => Ready (Err (LineIo e), mkReader [] (ended r))
  end.

(** ** The bandwidth probe. *)
Definition MEASURE_PREFIX : str := bs "@measure ".
Definition MEASURE_MAX : Z := 64 * 1024 * 1024.
Definition CHUNK : Z := 64 * 1024.

Definition measure_bytes (rest : str) : Z := Z.min (default 0 (parse_uint 64 (trim rest))) MEASURE_MAX.

(** [while left > 0]; one turn writes at most a chunk.  [None]: still running
    after so many turns. *)
Fixpoint measure_loop (fuel : nat) (left : Z) (w : writer) : option writer :=
  match fuel with
  | O => None
  | S fuel =>
      if left <=? 0 then Some w
      else
        let k := Z.min left CHUNK in
        match write_all (repeat (zb 0) (Z.to_nat k)) w with
        | (Err _, w) => Some w
        | (Ok _, w) => measure_loop fuel (left - k) w
        end
  end.
(** A turn per chunk, one for the rest and one to leave. *)
Definition measure_turns (n : Z) : nat := S (S (Z.to_nat (n / CHUNK))).
Definition measure (n : Z) (w : writer) : option writer := measure_loop (measure_turns n) n w.

(** ** [gateway_stream]: what the first line makes of the stream. *)
Inductive gw_stream : Type :=
| Ignored                                (* an empty target: the task returns *)
| Probed (sent : writer)                 (* the probe, then [finish] *)
| Dial (target : str) (rest : reader)    (* connect, then splice *)
| Failed (e : line_error).

Definition gateway_stream (recv : reader) (send : writer) : poll gw_stream :=
  match read_line recv with
  | Pending => Pending
  | Ready (Err e, _) => Ready (Failed e)
  | Ready (Ok line, br) =>
      let target := trim line in
      if decide (target = []) then Ready Ignored
      else match strip_prefix MEASURE_PREFIX target with
      | Some rest =>
          match measure (measure_bytes rest) send with Some send => Ready (Probed send) | None => Pending end
      | None => Ready (Dial target br)
      end
  end.

(** ** The splice: [join!(up, down)], each [copy] followed by the shutdown of the
    side it wrote to.  A turn of a [copy] moves what has arrived; [None]: it
    waits.  The result of a copy is ignored, so an error ends that direction. *)
Record direction := mkDirection { src : reader; dst : writer; finished : bool }.

Definition copy_turn (n : nat) (d : direction) : option direction :=
  if finished d then None
  else match take n (avail (src d)) with
  | [] =>
      match avail (src d), ended (src d) with
      | [], Some _ => Some (mkDirection (src d) (dst d) true)
      | _, _ => None
      end
  | chunk =>
      match write_all chunk (dst d) with
      | (Ok _, w) => Some (mkDirection (mkReader (drop n (avail (src d))) (ended (src d))) w false)
      | (Err _, w) =>
          Some (mkDirection (mkReader (drop n (avail (src d))) (ended (src d))) w true)
      end
  end.

Record splice := mkSplice { up : direction; down : direction }.

Inductive splice_step : Type :=
| UpTurn (n : nat) | DownTurn (n : nat)
| FromPeer (b : bytes) | FromTarget (b : bytes)
| PeerEnds (e : io_error) | TargetEnds (e : io_error)       (* a read half ends *)
| PeerBreaks (e : io_error) | TargetBreaks (e : io_error).  (* a write half breaks *)

Definition arrive (b : bytes) (d : direction) : option direction :=
  match ended (src d) with
  | Some _ => None
  | None => Some (mkDirection (mkReader (avail (src d) ++ b) None) (dst d) (finished d))
  end.

Definition end_source (e : io_error) (d : direction) : option direction :=
  match ended (src d) with
  | Some _ => None
  | None => Some (mkDirection (mkReader (avail (src d)) (Some e)) (dst d) (finished d))
  end.
Definition break_sink (e : io_error) (d : direction) : direction :=
  mkDirection (src d) (mkWriter (written (dst d)) (Some e)) (finished d).

Definition splice_exec (s : splice) (c : splice_step) : option splice :=
  match c with
  | UpTurn n => d ← copy_turn n (up s); Some (mkSplice d (down s))
  | DownTurn n => d ← copy_turn n (down s); Some (mkSplice (up s) d)
  | FromPeer b => d ← arrive b (up s); Some (mkSplice d (down s))
  | FromTarget b => d ← arrive b (down s); Some (mkSplice (up s) d)
  | PeerEnds e => d ← end_source e (up s); Some (mkSplice d (down s))
  | TargetEnds e => d ← end_source e (down s); Some (mkSplice (up s) d)
  | PeerBreaks e => Some (mkSplice (up s) (break_sink e (down s)))
  | TargetBreaks e => Some (mkSplice (break_sink e (up s)) (down s))
  end.

Fixpoint splice_run (cs : list splice_step) (s : splice) : option splice :=
  match cs with [] => Some s | c :: cs => s ← splice_exec s c; splice_run cs s end.

(** The tunnel once the target is dialled: what was buffered behind the target
    line goes first; [tcp] is the read half of the TCP connection. *)
Definition start_splice (rest : reader) (tcp : reader) (tcp_w quic_w : writer) : splice :=
  mkSplice (mkDirection rest tcp_w false) (mkDirection tcp quic_w false).

(** ** The probe streams what was asked for, at most [MEASURE_MAX]. *)
Lemma measure_loop_all fuel n w :
  0 ≤ n → (Z.to_nat (n / CHUNK) + 1 < fuel)%nat → broken w = None →
  measure_loop fuel n w = Some (mkWriter (written w ++ repeat (zb 0) (Z.to_nat n)) None).
Proof.
  revert n w. induction fuel as [|fuel IH]; intros n [wr br] Hn Hf Hb; [lia|]. cbn in Hb. subst br.
  cbn [measure_loop]. unfold CHUNK in *. destruct (n <=? 0) eqn:E.
  { replace n with 0 by lia. cbn. by rewrite app_nil_r. }
  unfold write_all. cbn [broken written].
  destruct (decide (n <= 65536)).
  - rewrite Z.min_l by lia. rewrite Z.sub_diag. destruct fuel; [lia|]. done.
  - rewrite Z.min_r by lia.
    assert (n / 65536 = (n - 65536) / 65536 + 1) by (Z.to_euclidean_division_equations; lia).
    assert (0 ≤ (n - 65536) / 65536) by (apply Z.div_pos; lia).
    rewrite IH by (cbn; (done || lia)). cbn [written]. rewrite <- app_assoc, <- repeat_app.
    do 4 f_equal. lia.
Qed.

(** A broken stream ends the loop at its first write. *)
Definition zeros (n : Z) (w : writer) : writer :=
  match broken w with
  | None => mkWriter (written w ++ repeat (zb 0) (Z.to_nat n)) None
  | Some _ => w
  end.

Lemma measure_all n w : 0 ≤ n → measure n w = Some (zeros n w).
Proof.
  intros Hn. unfold measure, measure_turns, zeros. destruct (broken w) as [e|] eqn:Hb.
  - cbn [measure_loop]. destruct (n <=? 0); [done|]. unfold write_all. by rewrite Hb.
  - apply measure_loop_all; [done| |done].
    assert (0 ≤ n / CHUNK) by (apply Z.div_pos; unfold CHUNK; lia). lia.
Qed.

(** ** The splice carries bytes in order.  [inn]: every byte that has entered the
    direction. *)
Record carries (inn : bytes) (d : direction) : Prop := {
  ca_sent : written (dst d) `prefix_of` inn;
  ca_flow : finished d = false → written (dst d) ++ avail (src d) = inn;
  ca_done : finished d = true → broken (dst d) = None →
    avail (src d) = [] ∧ is_Some (ended (src d)) ∧ written (dst d) = inn;
}.

Lemma carries_start d : finished d = false → carries (written (dst d) ++ avail (src d)) d.
Proof. intros. split; [by eexists|done|congruence]. Qed.

Lemma copy_turn_carries inn n d d' : copy_turn n d = Some d' → carries inn d → carries inn d'.
Proof.
  intros Ht [Hs Hp _]. unfold copy_turn in Ht. destruct (finished d) eqn:Ef; [done|].
  specialize (Hp eq_refl). destruct (take n (avail (src d))) as [|b bs'] eqn:Et.
  - destruct (avail (src d)) eqn:Ea; [|done]. destruct (ended (src d)) eqn:Ee; [|done].
    injection Ht as <-. rewrite app_nil_r in Hp. split; cbn; [done|done|]. by rewrite Ea, Ee.
  - unfold write_all in Ht. destruct (broken (dst d)) eqn:Eb; injection Ht as <-.
    + split; cbn; [done|intros; congruence..].
    + split; cbn; [|intros _|done]; rewrite <- Hp, <- Et.
      * apply prefix_app. by eexists; rewrite take_drop.
      * by rewrite <- app_assoc, take_drop.
Qed.

Lemma arrive_carries inn b d d' : arrive b d = Some d' → carries inn d → carries (inn ++ b) d'.
Proof.
  intros Ha [Hs Hp Hd]. unfold arrive in Ha. destruct (ended (src d)) eqn:Ee; [done|].
  injection Ha as <-. split; cbn.
  - by apply prefix_app_r.
  - intros H. by rewrite app_assoc, Hp.
  - intros Hf Hb. destruct (Hd Hf Hb) as (_ & [? [=]] & _).
Qed.

Lemma end_source_carries inn e d d' : end_source e d = Some d' → carries inn d → carries inn d'.
Proof.
  intros Ha [Hs Hp Hd]. unfold end_source in Ha. destruct (ended (src d)) eqn:Ee; [done|].
  injection Ha as <-. split; cbn; [done|done|]. intros Hf Hb. destruct (Hd Hf Hb) as (? & _ & ?). by split_and!.
Qed.

Lemma break_sink_carries inn e d : carries inn d → carries inn (break_sink e d).
Proof. intros [Hs Hp Hd]. split; cbn; [done|done|]. by intros ? [=]. Qed.

Definition peer_bytes (cs : list splice_step) : bytes :=
  cs ≫= λ c, match c with FromPeer b => b | _ => [] end.
Definition target_bytes (cs : list splice_step) : bytes :=
  cs ≫= λ c, match c with FromTarget b => b | _ => [] end.

Lemma splice_run_carries cs s s' :
  splice_run cs s = Some s' → ∀ iu id,
  carries iu (up s) → carries id (down s) →
  carries (iu ++ peer_bytes cs) (up s') ∧ carries (id ++ target_bytes cs) (down s').
Proof.
  unfold peer_bytes, target_bytes. revert s.
  induction cs as [|c cs IH]; cbn [splice_run]; intros s H iu id Hu Hd.
  { injection H as <-. by rewrite !app_nil_r. }
  apply bind_Some in H as (s1 & Hc & H). rewrite !bind_cons, !app_assoc.
  apply (IH s1); [done| |]; destruct c; cbn in Hc;
    first [apply bind_Some in Hc as (x & Hx & [= <-])|injection Hc as <-]; cbn;
    rewrite ?app_nil_r; eauto using copy_turn_carries, arrive_carries, end_source_carries, break_sink_carries.
Qed.

(** Once a direction's source has ended, two turns of its copy finish it, and
    everything is delivered unless its writer broke. *)
Definition finishes (inn : bytes) (d : direction) : Prop :=
  is_Some (ended (src d)) → finished d = false → ∀ n m, (length (avail (src d)) ≤ n)%nat → (0 < n)%nat →
  ∃ d', (copy_turn n d = Some d' ∨ ∃ d1, copy_turn n d = Some d1 ∧ copy_turn m d1 = Some d') ∧ finished d' = true ∧
    (broken (dst d) = None → written (dst d') = inn).

Lemma carries_finishes inn d : carries inn d → finishes inn d.
Proof.
  intros [Hs Hp _] [e He] Hf n m Hn H0. unfold copy_turn. rewrite Hf, take_ge, drop_ge by lia. specialize (Hp Hf).
  destruct (avail (src d)) as [|b l] eqn:Ea.
  - rewrite He. eexists. split; [by left|]. split; [done|]. intros _. cbn. by rewrite app_nil_r in Hp.
  - unfold write_all. destruct (broken (dst d)) as [e'|] eqn:Eb.
    + eexists. split; [by left|]. by split.
    + eexists. split; [right; eexists; split; [done|]; cbn; rewrite take_nil, He; done|]. by split.
Qed.

Lemma probe_line_read t rest e w :
  t ≠ [] → Forall graphic t →
  gateway_stream (mkReader (MEASURE_PREFIX ++ t ++ LF :: rest) e) w =
    Ready (Probed (zeros (Z.min (default 0 (parse_uint 64 t)) MEASURE_MAX) w)).
Proof.
  intros Hne Hd.
  assert (Forall is_ascii (MEASURE_PREFIX ++ t)) as Ha.
  { apply Forall_app. split; [repeat constructor; by vm_compute|].
    eapply Forall_impl; [done|]. unfold graphic, is_ascii. lia. }
  unfold gateway_stream, read_line. cbn [avail ended]. rewrite app_assoc, split_once_app.
  2:{ rewrite not_elem_of_app. split; [by apply (bool_decide_unpack (LF ∉ MEASURE_PREFIX)); vm_compute|].
      apply (graphic_notin t LF); [done|]. left. by vm_compute. }
  unfold as_line. rewrite utf8_ascii by (apply Forall_app; split; [done|repeat constructor; by vm_compute]).
  assert (trim ((MEASURE_PREFIX ++ t) ++ [LF]) = MEASURE_PREFIX ++ t) as ->.
  { apply (trim_ends _ (bs "measure " ++ t)); [by vm_compute|].
    intros b Hb. destruct (exists_last Hne) as (y & b0 & E). rewrite E in Hb, Hd.
    change (list.last ((MEASURE_PREFIX ++ y ++ [b0])) = Some b) in Hb. rewrite app_assoc, last_snoc in Hb.
    injection Hb as <-. apply Forall_app in Hd as [_ Hd]. by inversion Hd. }
  rewrite decide_False by done. rewrite (proj2 (strip_prefix_Some _ _ _) eq_refl).
  unfold measure_bytes. rewrite trim_all_graphic by done.
  rewrite measure_all; [done|]. destruct (parse_uint 64 t) eqn:E; cbn; [|done].
  apply from_str_radix_range in E; [|done]. unfold in_u in E. unfold MEASURE_MAX. lia.
Qed.


