(* ===== verification/Ingress.v ===== *)
(** * The ingress proxy: [crates/quicmix/src/ingress.rs].

    One HTTP request: which circuit carries it, the QUIC stream it opens (the
    target line, then opaque bytes), the response status on every path, and the
    hop-by-hop headers removed in both directions.  Parsing and serialising HTTP
    is [hyper]'s: requests arrive parsed, and what its client sends on a stream
    is a function of the request it is given. *)

From S2P Require Import Prelude RustFloat RustStr RustText Core Oracle Client Net ByteStream Gateway.
Open Scope Z_scope.

(** A [HeaderMap] in iteration order; its names are lower case. *)
Abbreviation headers := (list (str * str)).

Record request := mkRequest {
  is_connect : bool;
  method : str;
  authority : option str;
  uri_host : option str;
  uri_port : option Z;
  path_and_query : option str;
  req_headers : headers;
  req_body : bytes;
}.

Record response := mkResponse { status : Z; resp_headers : headers; body : bytes }.

Definition status_response (code : Z) (msg : string) : response := mkResponse code [] (bs msg).
Definition empty_response : response := mkResponse 200 [] [].

Definition HOP_BY_HOP : list str := bs <$>
  ["connection"; "keep-alive"; "proxy-connection"; "proxy-authenticate"; "proxy-authorization";
   "te"; "trailer"; "transfer-encoding"; "content-length"; "upgrade"]%string.

(** [headers.remove(h)] removes every value of [h]. *)
Definition remove_header (h : str) (hs : headers) : headers := retain (λ x, negb (bool_decide (x.1 = h))) hs.
Definition strip_hop_by_hop (hs : headers) : headers := foldl (λ hs h, remove_header h hs) hs HOP_BY_HOP.

(** ** The stream to the gateway. *)
Definition target_line (target : str) : bytes := target ++ [LF].
Definition host_port (host : str) (port : Z) : str := host ++ bs ":" ++ show_uint port.

(** The request [hyper]'s client is given: origin form, end-to-end headers. *)
Definition origin_form (r : request) : request :=
  mkRequest (is_connect r) (method r) None None None
    (Some (default (bs "/") (path_and_query r))) (strip_hop_by_hop (req_headers r)) (req_body r).

Inductive forward_error : Type :=
| NoHost | OpenFailed | WriteFailed | HandshakeTimedOut | HandshakeFailed | BuildFailed | SendFailed.

(** What a circuit does: a stream may open, take the target line, and carry one
    exchange of [hyper]'s client (or one opaque tunnel). *)
Record circuit := mkCircuit {
  opens : bool;
  takes : bytes → bool;
  handshake : option bool;                      (* [None]: not within 10 s *)
  builds : request → bool;                      (* [Request::builder().body(..)] *)
  exchange : str → request → option response;   (* the target's answer *)
}.

(** What happened: the bytes that head each stream, tunnels left running. *)
Inductive effect : Type :=
| Opened (head : bytes)
| Exchanged (target : str) (r : request).

Definition forward (r : request) (c : circuit) : result forward_error response * list effect :=
  match uri_host r with
  | None => (Err NoHost, [])
  | Some host =>
      let target := host_port host (default 80 (uri_port r)) in
      if negb (opens c) then (Err OpenFailed, [])
      else if negb (takes c (target_line target)) then (Err WriteFailed, [])
      else
        let opened := [Opened (target_line target)] in
        match handshake c with
        | None => (Err HandshakeTimedOut, opened)
        | Some false => (Err HandshakeFailed, opened)
        | Some true =>
            let up := origin_form r in
            if negb (builds c up) then (Err BuildFailed, opened)
            else match exchange c target up with
            | None => (Err SendFailed, opened ++ [Exchanged target up])
            | Some resp =>
                (Ok (mkResponse (status resp) (strip_hop_by_hop (resp_headers resp)) (body resp)),
                 opened ++ [Exchanged target up])
            end
        end
  end.

(** [tunnel], run once the client's side is upgraded. *)
Definition tunnel_head (authority : str) (c : circuit) : list effect :=
  if opens c && takes c (target_line authority) then [Opened (target_line authority)] else [].

Definition proxy (r : request) (c : circuit) (upgraded : bool) : response * list effect :=
  if is_connect r then
    match authority r with
    | None => (status_response 400 "CONNECT requires host:port", [])
    | Some a => (empty_response, if upgraded then tunnel_head a c else [])
    end
  else
    match forward r c with
    | (Ok resp, es) => (resp, es)
    | (Err _, es) => (status_response 502 "quicmix upstream error", es)
    end.

(** [serve_with]'s service: one circuit per request from the provider. *)
Definition serve (provider : option circuit) (r : request) (upgraded : bool) : response * list effect :=
  match provider with
  | None => (status_response 503 "no warm circuit available", [])
  | Some c => proxy r c upgraded
  end.

(** ** Headers. *)
Lemma elem_of_remove_header h hs x : x ∈ remove_header h hs ↔ x ∈ hs ∧ x.1 ≠ h.
Proof.
  unfold remove_header. rewrite elem_of_retain, negb_true_iff, bool_decide_eq_false. naive_solver.
Qed.

Lemma elem_of_strip_hop_by_hop hs x : x ∈ strip_hop_by_hop hs ↔ x ∈ hs ∧ x.1 ∉ HOP_BY_HOP.
Proof.
  unfold strip_hop_by_hop. generalize HOP_BY_HOP as l. intros l. revert hs.
  induction l as [|h l IH]; intros hs; cbn [foldl]; [set_solver|].
  rewrite IH, elem_of_remove_header, not_elem_of_cons. naive_solver.
Qed.

Lemma strip_hop_by_hop_sublist hs : strip_hop_by_hop hs `sublist_of` hs.
Proof.
  unfold strip_hop_by_hop. generalize HOP_BY_HOP as l. intros l. revert hs.
  induction l as [|h l IH]; intros hs; cbn [foldl]; [done|].
  etrans; [apply IH|]. apply retain_sublist.
Qed.

(** ** The target line names one target to the gateway. *)
Definition target_ok (t : str) : Prop := t ≠ [] ∧ Forall graphic t.

Lemma read_target_line t rest e :
  target_ok t → read_line (mkReader (target_line t ++ rest) e) = Ready (Ok (target_line t), mkReader rest e).
Proof.
  intros [Hne Hg]. unfold read_line, target_line. cbn [avail ended]. rewrite <- app_assoc. cbn [app].
  rewrite split_once_app by (apply graphic_notin; [done|left; by vm_compute]).
  unfold as_line. rewrite utf8_ascii; [done|]. apply Forall_app.
  split; [eapply Forall_impl; [done|apply graphic_ascii]|repeat constructor; by vm_compute].
Qed.

Lemma target_line_dials t rest e w :
  target_ok t → gateway_stream (mkReader (target_line t ++ rest) e) w = Ready (Dial t (mkReader rest e)).
Proof.
  intros Ht. unfold gateway_stream. rewrite read_target_line by done. destruct Ht as [Hne Hg].
  unfold target_line. rewrite trim_line, decide_False by done.
  destruct (strip_prefix MEASURE_PREFIX t) as [r|] eqn:E; [|done]. exfalso.
  apply strip_prefix_Some in E. rewrite E in Hg. apply Forall_app in Hg as [Hg _].
  apply (graphic_notin MEASURE_PREFIX (zb 32)) in Hg; [|left; by vm_compute].
  apply Hg. apply (bool_decide_unpack (zb 32 ∈ MEASURE_PREFIX)). by vm_compute.
Qed.

Lemma host_port_ok h p : Forall graphic h → target_ok (host_port h p).
Proof.
  intros Hh. unfold host_port. split; [by destruct h|].
  repeat (apply Forall_app; split); [done|repeat constructor; by vm_compute|].
  eapply Forall_impl; [apply show_uint_digits|apply is_digit_graphic].
Qed.

(** What the origin and the client receive are the end-to-end headers. *)
Lemma forward_headers r c resp es :
  forward r c = (Ok resp, es) →
  (∀ x, x ∈ resp_headers resp → x.1 ∉ HOP_BY_HOP) ∧
  (∀ t up, Exchanged t up ∈ es →
     (∀ x, x ∈ req_headers up ↔ x ∈ req_headers r ∧ x.1 ∉ HOP_BY_HOP) ∧
     method up = method r ∧ req_body up = req_body r).
Proof.
  unfold forward. intros H. repeat case_match; simplify_eq/=. split.
  - intros x Hx. by apply elem_of_strip_hop_by_hop in Hx as [_ ?].
  - intros t up Hin. rewrite !elem_of_cons, elem_of_nil in Hin.
    destruct Hin as [?|[[= -> ->]|[]]]; [done|]. split_and!; [|done|done].
    intros x. apply elem_of_strip_hop_by_hop.
Qed.

(** A header the message's own [Connection] field nominates survives: only the
    fixed list is removed. *)
Example nominated_header_survives :
  strip_hop_by_hop [(bs "connection", bs "x-hop"); (bs "x-hop", bs "1")] = [(bs "x-hop", bs "1")].
Proof. reflexivity. Qed.

(** The target a request names, and the streams opened for it. *)
Definition names_target (r : request) (target : str) : Prop :=
  if is_connect r then authority r = Some target
  else ∃ host, uri_host r = Some host ∧ target = host_port host (default 80 (uri_port r)).
Definition opened (es : list effect) : list bytes :=
  omap (λ x, match x with Opened head => Some head | _ => None end) es.
Definition exchanged (es : list effect) : list (str * request) :=
  omap (λ x, match x with Exchanged t up => Some (t, up) | _ => None end) es.

(** Does the circuit take the exchange of this request to its end? *)
Definition carried_through (r : request) (c : circuit) : bool :=
  bool_decide (handshake c = Some true) && builds c (origin_form r).
Definition bad_gateway : response := status_response 502 "quicmix upstream error".

Lemma serve_connect r c upgraded target :
  is_connect r = true → authority r = Some target →
  serve (Some c) r upgraded =
    (empty_response, if upgraded && opens c && takes c (target_line target) then [Opened (target_line target)] else []).
Proof. intros Hc Ha. unfold serve, proxy, tunnel_head. rewrite Hc, Ha. by destruct upgraded. Qed.

Lemma serve_forward r c upgraded target :
  is_connect r = false → names_target r target →
  serve (Some c) r upgraded =
    if opens c && takes c (target_line target) then
      if carried_through r c then
        (match exchange c target (origin_form r) with
         | Some a => mkResponse (status a) (strip_hop_by_hop (resp_headers a)) (body a)
         | None => bad_gateway
         end, [Opened (target_line target); Exchanged target (origin_form r)])
      else (bad_gateway, [Opened (target_line target)])
    else (bad_gateway, []).
Proof.
  intros Hc Hn. unfold names_target in Hn. rewrite Hc in Hn. destruct Hn as (host & Hh & ->).
  unfold serve, proxy, forward, carried_through. rewrite Hc, Hh. destruct (opens c); [|done].
  destruct (takes c _); [cbn [negb andb]|done]. destruct (handshake c) as [[]|]; [|done..].
  destruct (builds c _); [cbn|done]. by destruct (exchange c _ _).
Qed.

(** What a splice has done with one direction, [sent] being all the bytes that
    entered it: never anything else, and all of it unless its writer broke. *)
Definition delivers (d : direction) (before sent : bytes) : Prop :=
  written (dst d) `prefix_of` before ++ sent ∧
  (broken (dst d) = None →
   written (dst d) ++ avail (src d) = before ++ sent ∧
   (finished d = true → written (dst d) = before ++ sent)).

Lemma carries_delivers before sent d : carries (before ++ sent) d → delivers d before sent.
Proof.
  intros [Hs Hp Hd]. split; [done|]. intros Hb. destruct (finished d).
  - destruct (Hd eq_refl Hb) as (-> & _ & ->). by rewrite app_nil_r.
  - by rewrite Hp by done.
Qed.


Definition demo_request : request :=
  mkRequest false (bs "GET") None (Some (bs "example.com")) (Some 443) None [(bs "te", bs "x"); (bs "a", bs "b")] [].
Definition demo_circuit : circuit :=
  mkCircuit true (λ _, true) (Some true) (λ _, true) (λ _ _, Some (mkResponse 200 [] (bs "ok"))).
Definition demo_steps : list splice_step :=
  [UpTurn 2; FromTarget (bs "pong"); FromPeer (bs "!"); TargetEnds UnexpectedEof; DownTurn 9; UpTurn 5].
Definition demo_splice : splice :=
  mkSplice (mkDirection (mkReader [] None) (mkWriter (bs "ping!") None) false)
    (mkDirection (mkReader [] (Some UnexpectedEof)) (mkWriter (bs "pong") None) false).

