(* ===== verification/TwoNodes.v ===== *)
(** * Two nodes and the link between them: an application's CONNECT tunnels from
    the ingress of one node to the targets the gateway of the other dials
    ([tunnel] of [crates/quicmix/src/ingress.rs], [serve_gateway_at],
    [connect_via] and [gateway_stream] of [crates/quicmix/src/node.rs]).

    A link is one QUIC connection; each tunnel is one of its bidirectional
    streams.  QUIC's own part (moving what was written on one half of a stream to
    the reader at the other end, in order, and closing it) is a set of events,
    interleaved in any way with the turns of the code's copy loops and with what
    the application and the target do. *)

From S2P Require Import Prelude RustFloat RustStr RustText Core Oracle Client Net ByteStream Gateway Ingress.
Open Scope Z_scope.

(** ** Establishing a link. *)
Record ServerConfig := mkServerConfig { chain : list bytes; server_key : bytes; server_transport : TransportConfig }.
Record ClientConfig := mkClientConfig { roots : list bytes; client_transport : TransportConfig }.

Definition LOOPBACK_0 : SocketAddr := SA4 (V4 127 0 0 1) 0.

Inductive link_error : Type := BadCert | RootRejected | VerifierFailed | BindFailed | ConnectFailed | HandshakeFailed.

Section Endpoints.
(** What [rustls] and [quinn] answer. *)
Variable single_cert_ok : list bytes → bytes → bool.                (* [with_single_cert] *)
Variable root_ok : bytes → bool.                                     (* [RootCertStore::add] *)
Variable verifier_ok : list bytes → bool.                            (* [with_root_certificates] *)
Variable bound : SocketAddr → option SocketAddr.                     (* bind, then [local_addr] *)
Variable connects : SocketAddr → string → option (ClientConfig → bool).  (* [connect], then the handshake *)

(** [serve_gateway_at] up to its accept loop: the endpoint's configuration. *)
Definition serve_gateway_at (n : Node) (bind : SocketAddr) : result link_error (ServerConfig * SocketAddr) :=
  if single_cert_ok [cert n] (key n)
  then a ← ok_or (bound bind) BindFailed; Ok (mkServerConfig [cert n] (key n) (node_transport n), a)
  else Err BadCert.
Definition serve_gateway (n : Node) : result link_error (ServerConfig * SocketAddr) := serve_gateway_at n LOOPBACK_0.

Definition connect_via (n : Node) (bind front : SocketAddr) (peer_cert : bytes) : result link_error ClientConfig :=
  if negb (root_ok peer_cert) then Err RootRejected
  else if negb (verifier_ok [peer_cert]) then Err VerifierFailed
  else
    let cc := mkClientConfig [peer_cert] (node_transport n) in
    match bound bind with
    | None => Err BindFailed
    | Some _ =>
        match connects front "localhost" with
        | None => Err ConnectFailed
        | Some handshake => if handshake cc then Ok cc else Err HandshakeFailed
        end
    end.
Definition connect (n : Node) (front : SocketAddr) (peer_cert : bytes) : result link_error ClientConfig :=
  connect_via n LOOPBACK_0 front peer_cert.
End Endpoints.

(** Two nodes built for the same path under the same plan: the client pins the
    gateway's own certificate and both ends run one transport. *)
Lemma link_ends_agree pr itf mk1 mk2 p plan a b sc bind ok root ver bnd con lbind addr front cc :
  with_congestion pr itf mk1 p plan = Ok a → with_congestion pr itf mk2 p plan = Ok b →
  serve_gateway_at ok bnd b bind = Ok (sc, addr) →
  connect_via root ver bnd con a lbind front (cert b) = Ok cc →
  roots cc = chain sc ∧ client_transport cc = server_transport sc.
Proof.
  unfold with_congestion, serve_gateway_at, connect_via. intros Ha Hb Hs Hc.
  destruct mk1 as [[c1 k1]|], mk2 as [[c2 k2]|]; try done. cbn in Ha, Hb.
  destruct (transport pr itf plan p) as [t|]; [|done]. cbn in Ha, Hb. injection Ha as <-. injection Hb as <-.
  repeat case_match; simplify_eq/=. destruct (bnd bind); [|done]. cbn in Hs. by injection Hs as <- _.
Qed.

(** ** One tunnel. *)

(** The gateway's task for the stream ([gateway_stream]). *)
Inductive served : Type :=
| Reading (recv : reader) (send : writer)                 (* in [read_line] *)
| Dialling (target : str) (rest : reader) (send : writer) (* in [TcpStream::connect] *)
| Spliced (s : splice)
| Over (recv : reader) (send : writer).                   (* returned: both halves dropped *)

Definition recv_of (g : served) : reader :=
  match g with Reading r _ | Dialling _ r _ | Over r _ => r | Spliced s => src (up s) end.
Definition send_of (g : served) : writer :=
  match g with Reading _ w | Dialling _ _ w | Over _ w => w | Spliced s => dst (down s) end.
Definition on_src (r : reader) (d : direction) : direction := mkDirection r (dst d) (finished d).
Definition on_dst (w : writer) (d : direction) : direction := mkDirection (src d) w (finished d).
Definition set_recv (r : reader) (g : served) : served :=
  match g with
  | Reading _ w => Reading r w | Dialling t _ w => Dialling t r w | Over _ w => Over r w
  | Spliced s => Spliced (mkSplice (on_src r (up s)) (down s))
  end.
Definition set_send (w : writer) (g : served) : served :=
  match g with
  | Reading r _ => Reading r w | Dialling t r _ => Dialling t r w | Over r _ => Over r w
  | Spliced s => Spliced (mkSplice (up s) (on_dst w (down s)))
  end.
(** [send.finish()], or the half dropped. *)
Definition send_closed (g : served) : bool :=
  match g with Over _ _ => true | Spliced s => finished (down s) | _ => false end.

(** The ingress's side: [copy_bidirectional] while [a_live]; [carried_*]: how
    much of each half QUIC has moved. *)
Record tunnel := mkTunnel {
  a_up : direction; a_down : direction; a_live : bool;
  carried_up : nat; gw : served; carried_down : nat;
}.

(** The stream once its head is written; [early]: bytes the application sent
    right behind its request. *)
Definition open_tunnel (head early : bytes) : tunnel :=
  mkTunnel (mkDirection (mkReader early None) (mkWriter head None) false)
    (mkDirection (mkReader [] None) (mkWriter [] None) false) true
    0 (Reading (mkReader [] None) (mkWriter [] None)) 0.

(** *** QUIC, one half of a stream: [k] bytes of [w] are already at [r]. *)
Definition carry (n : nat) (w : writer) (k : nat) (r : reader) : option (nat * reader) :=
  match ended r, take n (drop k (written w)) with
  | None, (_ :: _) as b => Some ((k + length b)%nat, mkReader (avail r ++ b) None)
  | _, _ => None
  end.
Definition close (closed : bool) (w : writer) (k : nat) (r : reader) : option reader :=
  match ended r, broken w with
  | None, None => if closed && (k =? length (written w))%nat then Some (mkReader (avail r) (Some UnexpectedEof)) else None
  | _, _ => None
  end.
Definition ends (e : io_error) (r : reader) : option reader :=
  match ended r with None => Some (mkReader (avail r) (Some e)) | Some _ => None end.
Definition LOST : io_error := OtherIo "connection lost".
Definition lose_reader (r : reader) : reader := default r (ends LOST r).
Definition lose_writer (e : io_error) (w : writer) : writer :=
  match broken w with None => mkWriter (written w) (Some e) | Some _ => w end.

(** [copy_bidirectional] returns at the first error, of a read or of a write. *)
Definition sound (d : direction) : bool :=
  negb (finished d) || (bool_decide (ended (src d) = Some UnexpectedEof) && bool_decide (broken (dst d) = None)).

Inductive event : Type :=
| ClientSends (b : bytes) | ClientEnds (e : io_error)
| TunnelUp (n : nat) | TunnelDown (n : nat)
| CarryUp (n : nat) | CloseUp | CarryDown (n : nat) | CloseDown
| StopUp | StopDown                                   (* the receiver dropped its half *)
| Poll | Connected (ok : bool)
| SpliceUp (n : nat) | SpliceDown (n : nat)
| TargetSends (b : bytes) | TargetEnds (e : io_error).

Definition set_a (u d : direction) (live : bool) (t : tunnel) : tunnel :=
  mkTunnel u d live (carried_up t) (gw t) (carried_down t).
Definition set_gw (g : served) (t : tunnel) : tunnel :=
  mkTunnel (a_up t) (a_down t) (a_live t) (carried_up t) g (carried_down t).

(** [gateway_stream], up to the dial. *)
Definition poll_gateway (g : served) : option served :=
  match g with
  | Reading recv send =>
      match gateway_stream recv send with
      | Pending => None
      | Ready (Dial target rest) => Some (Dialling target rest send)
      | Ready (Probed send) => Some (Over recv send)
      | Ready Ignored | Ready (Failed _) => Some (Over recv send)
      end
  | _ => None
  end.

Definition connected (ok : bool) (g : served) : option served :=
  match g with
  | Dialling _ rest send =>
      Some (if ok then Spliced (start_splice rest (mkReader [] None) (mkWriter [] None) send) else Over rest send)
  | _ => None
  end.

Definition in_splice (f : splice → option splice) (g : served) : option served :=
  match g with Spliced s => Spliced <$> f s | _ => None end.

(** The target closes its half of the TCP connection. *)
Definition target_ends (e : io_error) (s : splice) : option splice :=
  r ← ends e (src (down s)); Some (mkSplice (up s) (on_src r (down s))).

Definition exec (t : tunnel) (c : event) : option tunnel :=
  match c with
  | ClientSends b => u ← arrive b (a_up t); Some (set_a u (a_down t) (a_live t) t)
  | ClientEnds e => r ← ends e (src (a_up t)); Some (set_a (on_src r (a_up t)) (a_down t) (a_live t) t)
  | TunnelUp n => if a_live t then u ← copy_turn n (a_up t); Some (set_a u (a_down t) (sound u) t) else None
  | TunnelDown n => if a_live t then d ← copy_turn n (a_down t); Some (set_a (a_up t) d (sound d) t) else None
  | CarryUp n =>
      '(k, r) ← carry n (dst (a_up t)) (carried_up t) (recv_of (gw t));
      Some (mkTunnel (a_up t) (a_down t) (a_live t) k (set_recv r (gw t)) (carried_down t))
  | CloseUp =>
      r ← close (finished (a_up t) || negb (a_live t)) (dst (a_up t)) (carried_up t) (recv_of (gw t));
      Some (set_gw (set_recv r (gw t)) t)
  | CarryDown n =>
      '(k, r) ← carry n (send_of (gw t)) (carried_down t) (src (a_down t));
      Some (mkTunnel (a_up t) (on_src r (a_down t)) (a_live t) (carried_up t) (gw t) k)
  | CloseDown =>
      r ← close (send_closed (gw t)) (send_of (gw t)) (carried_down t) (src (a_down t));
      Some (set_a (a_up t) (on_src r (a_down t)) (a_live t) t)
  | StopUp =>
      match gw t with
      | Over _ _ => Some (set_a (on_dst (lose_writer (OtherIo "stopped") (dst (a_up t))) (a_up t)) (a_down t) (a_live t) t)
      | _ => None
      end
  | StopDown => if a_live t then None else Some (set_gw (set_send (lose_writer (OtherIo "stopped") (send_of (gw t))) (gw t)) t)
  | Poll => g ← poll_gateway (gw t); Some (set_gw g t)
  | Connected ok => g ← connected ok (gw t); Some (set_gw g t)
  | SpliceUp n => g ← in_splice (λ s, splice_exec s (UpTurn n)) (gw t); Some (set_gw g t)
  | SpliceDown n => g ← in_splice (λ s, splice_exec s (DownTurn n)) (gw t); Some (set_gw g t)
  | TargetSends b => g ← in_splice (λ s, splice_exec s (FromTarget b)) (gw t); Some (set_gw g t)
  | TargetEnds e => g ← in_splice (target_ends e) (gw t); Some (set_gw g t)
  end.

(** The connection is lost: every half of the stream fails. *)
Definition lose (t : tunnel) : tunnel :=
  mkTunnel (on_dst (lose_writer LOST (dst (a_up t))) (a_up t)) (on_src (lose_reader (src (a_down t))) (a_down t))
    (a_live t) (carried_up t)
    (set_recv (lose_reader (recv_of (gw t))) (set_send (lose_writer LOST (send_of (gw t))) (gw t))) (carried_down t).

(** ** A link: the tunnels of one connection, in the order they were opened,
    with what each was opened for and what entered it. *)
Record session := mkSession { want : str; sent : bytes; back : bytes; dials : list str; tun : tunnel }.

Definition new_dial (c : event) (t : tunnel) : list str :=
  match c, gw t with Poll, Dialling target _ _ => [target] | _, _ => [] end.
Definition session_exec (s : session) (c : event) : option session :=
  t ← exec (tun s) c;
  Some (mkSession (want s) (sent s ++ match c with ClientSends b => b | _ => [] end)
    (back s ++ match c with TargetSends b => b | _ => [] end) (dials s ++ new_dial c t) t).

Inductive link_event : Type :=
| Open (r : request) (early : bytes)     (* the ingress serves a CONNECT over the link *)
| Within (k : nat) (c : event)
| Lost.

(** [accept_bi] yields the streams as they are opened, a task for each. *)
Definition link_exec (c : circuit) (l : list session) (e : link_event) : option (list session) :=
  match e with
  | Open r early =>
      if is_connect r then
        match (Ingress.serve (Some c) r true).2 with
        | [Opened head] => Some (l ++ [mkSession (default [] (authority r)) early [] [] (open_tunnel head early)])
        | _ => Some l
        end
      else None
  | Within k ev => s ← l !! k; s' ← session_exec s ev; Some (<[k := s']> l)
  | Lost => Some ((λ s, mkSession (want s) (sent s) (back s) (dials s) (lose (tun s))) <$> l)
  end.

Fixpoint link_run (c : circuit) (es : list link_event) (l : list session) : option (list session) :=
  match es with [] => Some l | e :: es => l ← link_exec c l e; link_run c es l end.

(** What has come out at either end. *)
Definition target_got (s : session) : bytes :=
  match gw (tun s) with Spliced sp => written (dst (up sp)) | _ => [] end.
Definition client_got (s : session) : bytes := written (dst (a_down (tun s))).
Definition target_eof (s : session) : bool := match gw (tun s) with Spliced sp => finished (up sp) | _ => false end.
Definition client_eof (s : session) : bool := finished (a_down (tun s)).

(** The steps the two nodes and QUIC take by themselves when nothing fails. *)
Definition system (c : event) : bool :=
  match c with
  | TunnelUp _ | TunnelDown _ | CarryUp _ | CloseUp | CarryDown _ | CloseDown | Poll | Connected true
  | SpliceUp _ | SpliceDown _ => true
  | _ => false
  end.
(** Those, and an application and a target that send and then close. *)
Definition gentle (c : event) : bool :=
  system c || match c with ClientSends _ | TargetSends _ => true
              | ClientEnds e | TargetEnds e => bool_decide (e = UnexpectedEof) | _ => false end.
Definition gentle_link (e : link_event) : bool :=
  match e with Open _ _ => true | Within _ c => gentle c | Lost => false end.

(** ** What always holds of a tunnel. *)

(** Where the gateway's task is, once QUIC has brought it [taken]. *)
Definition gateway_at (want : str) (back : bytes) (dials : list str) (g : served) (taken : bytes) : Prop :=
  match g with
  | Reading recv send => taken = avail recv ∧ written send = [] ∧ back = [] ∧ dials = []
  | Dialling t rest send =>
      taken = target_line want ++ avail rest ∧ written send = [] ∧ back = [] ∧ t = want ∧ dials = [want]
  | Spliced sp =>
      (∃ inn, taken = target_line want ++ inn ∧ carries inn (up sp)) ∧ carries back (down sp) ∧ dials = [want]
  | Over _ send => written send = [] ∧ back = [] ∧ dials `prefix_of` [want]
  end.

Record invariant (s : session) : Prop := {
  i_ok : target_ok (want s);
  i_up : carries (target_line (want s) ++ sent s) (a_up (tun s));
  i_head : target_line (want s) `prefix_of` written (dst (a_up (tun s)));
  i_carried : (carried_up (tun s) ≤ length (written (dst (a_up (tun s)))))%nat;
  i_gateway : gateway_at (want s) (back s) (dials s) (gw (tun s)) (take (carried_up (tun s)) (written (dst (a_up (tun s)))));
  i_closed : ended (recv_of (gw (tun s))) = Some UnexpectedEof →
    carried_up (tun s) = length (written (dst (a_up (tun s)))) ∧ (finished (a_up (tun s)) = true ∨ a_live (tun s) = false);
  i_brought : (carried_down (tun s) ≤ length (written (send_of (gw (tun s)))))%nat;
  i_down : carries (take (carried_down (tun s)) (written (send_of (gw (tun s))))) (a_down (tun s));
}.

(** *** Directions whose ends change. *)
Lemma carries_on_src inn e d r : ends e (src d) = Some r → carries inn d → carries inn (on_src r d).
Proof.
  unfold ends. intros He [Hs Hf Hd]. destruct (ended (src d)) eqn:Ee; [done|]. injection He as <-.
  split; cbn; [done|done|]. intros Hfin Hb. destruct (Hd Hfin Hb) as (_ & [? [=]] & _).
Qed.

Lemma carries_lose_reader inn d : carries inn d → carries inn (on_src (lose_reader (src d)) d).
Proof.
  intros Hc. unfold lose_reader. destruct (ends LOST (src d)) eqn:E; cbn.
  - by eapply carries_on_src.
  - by destruct d.
Qed.

Lemma carries_lose_writer inn e d : carries inn d → carries inn (on_dst (lose_writer e (dst d)) d).
Proof. intros [Hs Hf Hd]. unfold lose_writer, on_dst. destruct (broken (dst d)) eqn:E; by split; cbn; rewrite ?E. Qed.

Lemma carries_carried inn b d :
  ended (src d) = None → carries inn d → carries (inn ++ b) (on_src (mkReader (avail (src d) ++ b) None) d).
Proof.
  intros He. apply arrive_carries. unfold arrive. by rewrite He.
Qed.

Lemma copy_turn_grows n d d' :
  copy_turn n d = Some d' →
  finished d = false ∧ written (dst d) `prefix_of` written (dst d') ∧ ended (src d') = ended (src d).
Proof.
  unfold copy_turn, write_all. intros H. repeat case_match; simplify_eq/=; (split; [done|split]); try done.
  by eexists.
Qed.

Lemma take_prefix {A} k (x y : list A) : x `prefix_of` y → (k ≤ length x)%nat → take k y = take k x.
Proof. intros [z ->] Hk. by apply take_app_le. Qed.

Lemma lose_writer_written e w : written (lose_writer e w) = written w.
Proof. unfold lose_writer. by destruct (broken w). Qed.
Lemma lose_reader_avail r : avail (lose_reader r) = avail r.
Proof. unfold lose_reader, ends. by destruct r as [? []]. Qed.

#[local] Hint Rewrite lose_writer_written lose_reader_avail : link.

Lemma recv_set_recv r g : recv_of (set_recv r g) = r.
Proof. by destruct g. Qed.
Lemma send_set_recv r g : send_of (set_recv r g) = send_of g.
Proof. by destruct g. Qed.
Lemma recv_set_send w g : recv_of (set_send w g) = recv_of g.
Proof. by destruct g. Qed.
Lemma send_set_send w g : send_of (set_send w g) = w.
Proof. by destruct g. Qed.
#[local] Hint Rewrite recv_set_recv send_set_recv recv_set_send send_set_send : link.

Lemma take_length_of {A} n (l b : list A) : take n l = b → take (length b) l = b.
Proof.
  intros <-. destruct (decide (n ≤ length l)%nat); [by rewrite length_take, Nat.min_l by done|].
  by rewrite !(take_ge l) by (rewrite ?length_take; lia).
Qed.

Lemma carry_Some n w k r k' r' :
  carry n w k r = Some (k', r') →
  ∃ b, b ≠ [] ∧ take k' (written w) = take k (written w) ++ b ∧ k' = (k + length b)%nat ∧
    (k' ≤ length (written w))%nat ∧ ended r = None ∧ r' = mkReader (avail r ++ b) None.
Proof.
  unfold carry. destruct (ended r); [done|]. intros H. destruct (take n (drop k (written w))) as [|b0 b] eqn:E; [done|].
  injection H as <- <-. exists (b0 :: b).
  assert (length (b0 :: b) ≤ length (written w) - k)%nat as Hl by (rewrite <- E, length_take, length_drop; lia).
  cbn [length] in Hl. split_and!; try done; [|cbn [length]; lia].
  rewrite <- take_take_drop. f_equal. exact (take_length_of n _ (b0 :: b) E).
Qed.

(** *** The head of the stream, as it arrives. *)
Lemma line_prefix t (taken x : bytes) :
  target_ok t → taken `prefix_of` target_line t ++ x →
  LF ∉ taken ∧ ¬ target_line t `prefix_of` taken ∨ ∃ rest, taken = target_line t ++ rest.
Proof.
  intros [_ Hg] [y Hy]. unfold target_line in *.
  assert (LF ∉ t) as Ht by (apply graphic_notin; [done|left; by vm_compute]).
  apply app_eq_inv in Hy as [(k & Hk & _)|(k & -> & _)]; [|right; by exists k].
  destruct k as [|b k]; [rewrite app_nil_r in Hk; subst; right; exists []; by rewrite app_nil_r|].
  left. assert (∃ k', t = taken ++ k') as [k' ->].
  { destruct (exists_last (l := b :: k)) as (k' & b' & E); [done|]. rewrite E, app_assoc in Hk.
    apply app_inj_tail in Hk as [-> _]. by eexists. }
  split; [set_solver|]. intros [z Hz]. apply (f_equal length) in Hz. rewrite !length_app in Hz. cbn in Hz. lia.
Qed.

Lemma gateway_reads_head t taken x e w :
  target_ok t → taken `prefix_of` target_line t ++ x →
  (e = Some UnexpectedEof → target_line t `prefix_of` taken) →
  gateway_stream (mkReader taken e) w = Pending ∧ ¬ target_line t `prefix_of` taken ∧ e = None ∨
  (∃ er, gateway_stream (mkReader taken e) w = Ready (Failed er) ∧ e ≠ None ∧ e ≠ Some UnexpectedEof) ∨
  (∃ rest, taken = target_line t ++ rest ∧ gateway_stream (mkReader taken e) w = Ready (Dial t (mkReader rest e))).
Proof.
  intros Hok Hp He. destruct (line_prefix _ _ _ Hok Hp) as [[Hlf Hn]|(rest & ->)].
  - unfold gateway_stream, read_line. cbn [avail ended]. rewrite (proj2 (split_once_None LF taken) Hlf).
    destruct e as [[|m]|]; [by destruct Hn; apply He|right; left; by eexists|by left].
  - right. right. exists rest. split; [done|]. by apply target_line_dials.
Qed.

(** *** The three sides of a tunnel keep the invariant. *)
Definition with_tun (sent' back' : bytes) (ds : list str) (t : tunnel) (s : session) : session :=
  mkSession (want s) sent' back' ds t.

Lemma taken_prefix s :
  invariant s → take (carried_up (tun s)) (written (dst (a_up (tun s)))) `prefix_of` target_line (want s) ++ sent s.
Proof.
  intros Hi. etrans; [|apply (ca_sent _ _ (i_up _ Hi))]. eexists. symmetry. apply take_drop.
Qed.

(** The ingress's upward direction. *)
Lemma invariant_a_up s u live sent' :
  invariant s → carries (target_line (want s) ++ sent') u →
  written (dst (a_up (tun s))) `prefix_of` written (dst u) →
  (finished (a_up (tun s)) = true ∨ a_live (tun s) = false →
     written (dst u) = written (dst (a_up (tun s))) ∧ (finished u = true ∨ live = false)) →
  invariant (with_tun sent' (back s) (dials s) (set_a u (a_down (tun s)) live (tun s)) s).
Proof.
  intros [Hok Hu Hh Hk Hg Hc Hb Hd] Hu' Hw Hcl. split; cbn; try done.
  - by etrans.
  - pose proof (prefix_length _ _ Hw). lia.
  - by rewrite (take_prefix _ _ _ Hw Hk).
  - intros He. destruct (Hc He) as [-> Hf]. by destruct (Hcl Hf) as [-> ?].
Qed.

(** The ingress's downward direction, and what QUIC has brought it. *)
Lemma invariant_a_down s d live k :
  invariant s → (k ≤ length (written (send_of (gw (tun s)))))%nat →
  carries (take k (written (send_of (gw (tun s))))) d →
  (a_live (tun s) = false → live = false) →
  invariant (with_tun (sent s) (back s) (dials s)
    (mkTunnel (a_up (tun s)) d live (carried_up (tun s)) (gw (tun s)) k) s).
Proof.
  intros [Hok Hu Hh Hk Hg Hc Hb Hd] Hk' Hd' Hl. split; cbn; try done.
  intros He. destruct (Hc He) as [? [?|?]]; auto.
Qed.

(** The gateway's task, and what QUIC has brought it. *)
Lemma invariant_gw s g k back' ds :
  invariant s → (k ≤ length (written (dst (a_up (tun s)))))%nat →
  gateway_at (want s) back' ds g (take k (written (dst (a_up (tun s))))) →
  (ended (recv_of g) = Some UnexpectedEof →
     k = length (written (dst (a_up (tun s)))) ∧ (finished (a_up (tun s)) = true ∨ a_live (tun s) = false)) →
  written (send_of (gw (tun s))) `prefix_of` written (send_of g) →
  invariant (with_tun (sent s) back' ds
    (mkTunnel (a_up (tun s)) (a_down (tun s)) (a_live (tun s)) k g (carried_down (tun s))) s).
Proof.
  intros [Hok Hu Hh Hk Hg Hc Hb Hd] Hk' Hg' Hc' Hw. split; cbn; try done.
  - pose proof (prefix_length _ _ Hw). lia.
  - by rewrite (take_prefix _ _ _ Hw Hb).
Qed.

Lemma arrive_keeps b d d' : arrive b d = Some d' → written (dst d') = written (dst d) ∧ finished d' = finished d.
Proof. unfold arrive. intros. case_match; by simplify_eq. Qed.

Definition enters (c : event) : bytes := match c with ClientSends b => b | _ => [] end.
Definition returns (c : event) : bytes := match c with TargetSends b => b | _ => [] end.

Lemma session_exec_Some s c s' :
  session_exec s c = Some s' →
  ∃ t, exec (tun s) c = Some t ∧
    s' = with_tun (sent s ++ enters c) (back s ++ returns c) (dials s ++ new_dial c t) t s.
Proof. unfold session_exec. intros (t & Ht & [= <-])%bind_Some. by exists t. Qed.

(** Open the step of [session_exec] the hypothesis [H] takes. *)
Ltac step H :=
  apply session_exec_Some in H as (?t' & H & ->); cbn [exec] in H;
  repeat match type of H with
    | _ ≫= _ = Some _ => apply bind_Some in H as (? & ? & H)
    | (let '(_, _) := ?p in _) = Some _ => destruct p
    end; try injection H as <-;
  cbn [enters returns new_dial]; rewrite ?app_nil_r.

Lemma client_invariant s s' c :
  match c with ClientSends _ | ClientEnds _ | StopUp => True | _ => False end →
  session_exec s c = Some s' → invariant s → invariant s'.
Proof.
  intros Hc H Hi. pose proof (i_up _ Hi) as Hu. destruct c; try done; clear Hc.
  - step H. match goal with Ha : arrive _ _ = Some _ |- _ => destruct (arrive_keeps _ _ _ Ha) as [Hw Hf] end.
    apply invariant_a_up; [done| |by rewrite Hw|by rewrite Hw, Hf; intros []; auto].
    rewrite app_assoc. by eapply arrive_carries.
  - step H. apply invariant_a_up; [done|by eapply carries_on_src|done|intros []; auto].
  - step H. destruct (gw (tun s)) eqn:Eg; try done. injection H as <-.
    apply invariant_a_up; cbn [on_dst dst finished]; rewrite ?lose_writer_written;
      [done|by apply carries_lose_writer|done|intros []; auto].
Qed.

Lemma tunnel_up_invariant s s' n : session_exec s (TunnelUp n) = Some s' → invariant s → invariant s'.
Proof.
  intros H Hi. apply session_exec_Some in H as (t & H & ->). cbn [exec] in H.
  destruct (a_live (tun s)) eqn:El; [|done]. apply bind_Some in H as (u & Hu & [= <-]).
  cbn [enters returns new_dial]. rewrite !app_nil_r.
  destruct (copy_turn_grows _ _ _ Hu) as (Hf & Hw & _).
  apply invariant_a_up; [done|eapply copy_turn_carries; [done|apply (i_up _ Hi)]|done|].
  intros [?|?]; congruence.
Qed.

Lemma down_invariant s s' c :
  match c with TunnelDown _ | CarryDown _ | CloseDown => True | _ => False end →
  session_exec s c = Some s' → invariant s → invariant s'.
Proof.
  intros Hc H Hi. pose proof (i_down _ Hi) as Hd. pose proof (i_brought _ Hi) as Hb.
  destruct c; try done; clear Hc.
  - apply session_exec_Some in H as (t & H & ->). cbn [exec] in H.
    destruct (a_live (tun s)) eqn:El; [|done]. apply bind_Some in H as (d & Ht & [= <-]).
    cbn [enters returns new_dial]. rewrite !app_nil_r.
    apply invariant_a_down; [done..|by eapply copy_turn_carries|congruence].
  - step H. match goal with Hx : carry _ _ _ _ = Some _ |- _ => apply carry_Some in Hx as (b & _ & Ht & _ & Hk & He & ->) end.
    apply invariant_a_down; [done|done| |done]. rewrite Ht. by apply carries_carried.
  - step H. apply (invariant_a_down s _ _ (carried_down (tun s))); [done|done| |done].
    unfold close in *. repeat case_match; simplify_eq.
    eapply carries_on_src; [|done]. unfold ends. by rewrite H.
Qed.

(** *** The gateway's task. *)
Lemma gateway_at_more w b ds g taken y :
  ended (recv_of g) = None → gateway_at w b ds g taken →
  gateway_at w b ds (set_recv (mkReader (avail (recv_of g) ++ y) None) g) (taken ++ y).
Proof.
  intros He. destruct g as [r sd|t r sd|sp|r sd]; cbn in *.
  - naive_solver.
  - intros (-> & ?). by rewrite app_assoc.
  - intros ((inn & -> & Hc) & ? & ?). split_and!; [|done..]. exists (inn ++ y).
    split; [by rewrite app_assoc|]. by apply carries_carried.
  - done.
Qed.

Lemma gateway_at_ends w b ds g taken e r :
  ends e (recv_of g) = Some r → gateway_at w b ds g taken → gateway_at w b ds (set_recv r g) taken.
Proof.
  intros He. assert (avail r = avail (recv_of g)) as Ha by (unfold ends in He; case_match; by simplify_eq).
  destruct g as [r0 sd|t r0 sd|sp|r0 sd]; cbn in *; rewrite ?Ha; [done..| |done].
  intros ((inn & -> & Hc) & ? & ?). split_and!; [|done..]. exists inn. split; [done|]. by eapply carries_on_src.
Qed.

Lemma gateway_at_stop w b ds g taken e :
  gateway_at w b ds g taken → gateway_at w b ds (set_send (lose_writer e (send_of g)) g) taken.
Proof.
  destruct g as [r sd|t r sd|sp|r sd]; cbn; rewrite ?lose_writer_written; [done..| |done].
  intros (? & ? & ?). split_and!; [done| |done]. by apply carries_lose_writer.
Qed.

(** The reading task either waits for the rest of the line, or dials exactly the
    target the tunnel was opened for, or has lost the connection. *)
Lemma reading_polls s recv send g :
  invariant s → gw (tun s) = Reading recv send → poll_gateway (Reading recv send) = Some g →
  g = Over recv send ∧ ended recv ≠ None ∧ ended recv ≠ Some UnexpectedEof ∨
  ∃ rest, g = Dialling (want s) (mkReader rest (ended recv)) send ∧
    take (carried_up (tun s)) (written (dst (a_up (tun s)))) = target_line (want s) ++ rest ∧
    avail recv = target_line (want s) ++ rest.
Proof.
  intros Hi Eg Hp. pose proof (i_gateway _ Hi) as Hg. pose proof (taken_prefix _ Hi) as Ht.
  pose proof (i_closed _ Hi) as Hc. rewrite Eg in Hg, Hc. cbn in Hg, Hc, Hp. destruct Hg as (E & _).
  destruct recv as [av e]. cbn in E, Hc, Hp. rewrite <- E in Hp |- *.
  destruct (gateway_reads_head _ _ _ e send (i_ok _ Hi) Ht) as [(H & _)|[(er & H & ?)|(rest & Hr & H)]];
    [|rewrite H in Hp; simplify_eq..].
  - intros He. destruct (Hc He) as [-> _]. rewrite take_ge by done. apply (i_head _ Hi).
  - by left.
  - right. by exists rest.
Qed.

Lemma poll_invariant s s' : session_exec s Poll = Some s' → invariant s → invariant s'.
Proof.
  intros H Hi. apply session_exec_Some in H as (t & H & ->). cbn [exec] in H.
  apply bind_Some in H as (g & Hg & [= <-]). cbn [enters returns]. rewrite !app_nil_r.
  destruct (gw (tun s)) as [recv send|?|?|?] eqn:Eg; try done.
  pose proof (i_closed _ Hi) as Hc. pose proof (i_gateway _ Hi) as Ha. rewrite Eg in Hc, Ha. cbn in Ha.
  destruct Ha as (Ht & Hw & Hb & Hd).
  destruct (reading_polls _ _ _ _ Hi Eg Hg) as [(-> & _)|(rest & -> & Hr & Hav)];
    (apply invariant_gw; [done|apply (i_carried _ Hi)| |exact Hc|by rewrite Eg]); cbn.
  - rewrite Hd. split_and!; [done..|]. apply prefix_nil.
  - rewrite Hd. by split_and!.
Qed.

Lemma connected_invariant s s' ok : session_exec s (Connected ok) = Some s' → invariant s → invariant s'.
Proof.
  intros H Hi. step H. destruct (gw (tun s)) as [?|t rest send|?|?] eqn:Eg; try done.
  pose proof (i_closed _ Hi) as Hc. pose proof (i_gateway _ Hi) as Ha. rewrite Eg in Hc, Ha. cbn in Ha.
  destruct Ha as (Ht & Hw & Hb & -> & Hd). cbn in H0. injection H0 as <-.
  destruct ok; (apply invariant_gw; [done|apply (i_carried _ Hi)| |exact Hc|by rewrite Eg]); cbn.
  - pose proof (carries_start (mkDirection (mkReader [] None) send false) eq_refl) as Hs. cbn in Hs. rewrite Hw in Hs.
    rewrite Hb, Hd. split_and!; [|exact Hs|done].
    exists (avail rest). split; [done|]. by apply (carries_start (mkDirection rest (mkWriter [] None) false)).
  - by rewrite Hd.
Qed.

Lemma in_splice_Some f g g' : in_splice f g = Some g' → ∃ sp sp', g = Spliced sp ∧ f sp = Some sp' ∧ g' = Spliced sp'.
Proof. destruct g; cbn; try done. intros (sp' & H & ->)%fmap_Some. eauto. Qed.

(** Both directions of the gateway's splice, one step of it. *)
Lemma splice_invariant s s' c :
  match c with SpliceUp _ | SpliceDown _ | TargetSends _ | TargetEnds _ => True | _ => False end →
  session_exec s c = Some s' → invariant s → invariant s'.
Proof.
  intros Hk H Hi. pose proof (i_closed _ Hi) as Hc. pose proof (i_gateway _ Hi) as Ha.
  destruct c; try done; clear Hk; step H;
    match goal with Hg : in_splice _ _ = Some _ |- _ =>
      apply in_splice_Some in Hg as (sp & sp' & Eg & Hs & ->) end;
    rewrite Eg in Hc, Ha; cbn in Hs, Ha; destruct Ha as ((inn & Ht & Hu) & Hd & Hdl);
    apply bind_Some in Hs as (x & Hx & [= <-]);
    (apply invariant_gw; [done|apply (i_carried _ Hi)| | |rewrite Eg]); cbn; try done.
  - rewrite Hdl. split_and!; [|done|done]. exists inn. split; [done|]. by eapply copy_turn_carries.
  - destruct (copy_turn_grows _ _ _ Hx) as (_ & _ & ->). exact Hc.
  - rewrite Hdl. split_and!; [by eexists|by eapply copy_turn_carries|done].
  - by destruct (copy_turn_grows _ _ _ Hx) as (_ & ? & _).
  - rewrite Hdl. split_and!; [by eexists|by eapply arrive_carries|done].
  - by destruct (arrive_keeps _ _ _ Hx) as [-> _].
  - rewrite Hdl. split_and!; [by eexists|by eapply carries_on_src|done].
Qed.

Lemma quic_up_invariant s s' c :
  match c with CarryUp _ | CloseUp | StopDown => True | _ => False end →
  session_exec s c = Some s' → invariant s → invariant s'.
Proof.
  intros Hk H Hi. pose proof (i_closed _ Hi) as Hc. pose proof (i_gateway _ Hi) as Ha.
  destruct c; try done; clear Hk; step H.
  - match goal with Hx : carry _ _ _ _ = Some _ |- _ => apply carry_Some in Hx as (b & _ & Ht & _ & Hk & He & ->) end.
    apply invariant_gw; [done|done| |by rewrite recv_set_recv|by rewrite send_set_recv].
    rewrite Ht. by apply gateway_at_more.
  - match goal with Hx : close _ _ _ _ = Some _ |- _ => unfold close in Hx; repeat case_match; simplify_eq end.
    apply invariant_gw; [done|apply (i_carried _ Hi)| | |by rewrite send_set_recv].
    + eapply gateway_at_ends; [|done]. unfold ends. by rewrite H.
    + intros _. rewrite andb_true_iff, orb_true_iff, negb_true_iff, Nat.eqb_eq in *. tauto.
  - destruct (a_live (tun s)) eqn:El; [done|]. injection H as <-.
    apply (invariant_gw s _ (carried_up (tun s))); [done|apply (i_carried _ Hi)|by apply gateway_at_stop|rewrite recv_set_send, El; exact Hc|].
    by rewrite send_set_send, lose_writer_written.
Qed.

Lemma session_exec_invariant s c s' : session_exec s c = Some s' → invariant s → invariant s'.
Proof.
  intros H. destruct c;
    match type of H with session_exec _ ?c = _ =>
      first [ exact (client_invariant s s' c I H) | exact (tunnel_up_invariant _ _ _ H) | exact (down_invariant s s' c I H)
            | exact (poll_invariant _ _ H) | exact (connected_invariant _ _ _ H) | exact (splice_invariant s s' c I H)
            | exact (quic_up_invariant s s' c I H) ] end.
Qed.

Lemma gateway_at_lose w b ds g taken :
  gateway_at w b ds g taken → gateway_at w b ds (set_recv (lose_reader (recv_of g)) g) taken.
Proof.
  intros Hg. unfold lose_reader. destruct (ends LOST (recv_of g)) as [r|] eqn:E; cbn.
  - by eapply gateway_at_ends.
  - by destruct g as [| |[[]]|].
Qed.

Lemma lose_invariant s :
  invariant s → invariant (mkSession (want s) (sent s) (back s) (dials s) (lose (tun s))).
Proof.
  intros [Hok Hu Hh Hk Hg Hc Hb Hd]. unfold lose.
  split; cbn; autorewrite with link; try done.
  - by apply carries_lose_writer.
  - apply (gateway_at_stop _ _ _ _ _ LOST), gateway_at_lose in Hg. by rewrite recv_set_send in Hg.
  - unfold lose_reader, ends. by destruct (ended (recv_of (gw (tun s)))) eqn:E; cbn; rewrite ?E.
  - by apply carries_lose_reader.
Qed.

(** *** A link keeps every tunnel's invariant. *)
Definition opens_well (e : link_event) : Prop :=
  match e with Open r _ => ∃ a, authority r = Some a ∧ target_ok a | _ => True end.

Lemma open_invariant w early : target_ok w → invariant (mkSession w early [] [] (open_tunnel (target_line w) early)).
Proof.
  intros Hok. split; cbn; rewrite ?take_0; try done; try lia.
  by apply (carries_start (mkDirection (mkReader early None) (mkWriter (target_line w) None) false)).
Qed.

Lemma link_exec_invariant c e l l' :
  opens_well e → link_exec c l e = Some l' → Forall invariant l → Forall invariant l'.
Proof.
  intros Ho H Hl. destruct e as [r early|k ev|]; cbn in H.
  - destruct (is_connect r) eqn:Ec; [|done]. destruct Ho as (a & Ha & Hok).
    unfold Ingress.serve, Ingress.proxy in H. rewrite Ec, Ha in H. cbn in H. unfold tunnel_head in H.
    destruct (opens c && takes c (target_line a)); injection H as <-; [|done].
    apply Forall_app. split; [done|]. constructor; [by apply open_invariant|done].
  - apply bind_Some in H as (s & Hs & (s' & He & [= <-])%bind_Some).
    apply Forall_insert; [done|]. eapply session_exec_invariant; [done|]. by eapply Forall_lookup_1.
  - injection H as <-. apply Forall_fmap. eapply Forall_impl; [done|]. apply lose_invariant.
Qed.

Lemma link_run_invariant c es l l' :
  Forall opens_well es → link_run c es l = Some l' → Forall invariant l → Forall invariant l'.
Proof.
  intros Hes. revert l. induction Hes as [|e es He Hes IH]; intros l; cbn [link_run].
  { by intros [= <-]. }
  intros (l1 & H1 & H)%bind_Some Hl. eapply IH; [done|]. by eapply link_exec_invariant.
Qed.

(** *** Nothing is invented, reordered or sent elsewhere. *)
Record faithful (s : session) : Prop := {
  f_dials : dials s `prefix_of` [want s];
  f_up : target_got s `prefix_of` sent s;
  f_down : client_got s `prefix_of` back s;
}.

Lemma invariant_faithful s : invariant s → faithful s.
Proof.
  intros Hi. pose proof (i_gateway _ Hi) as Hg. pose proof (taken_prefix _ Hi) as Ht.
  assert (client_got s `prefix_of` written (send_of (gw (tun s)))) as Hd.
  { etrans; [apply (ca_sent _ _ (i_down _ Hi))|]. eexists. symmetry. apply take_drop. }
  split.
  - destruct (gw (tun s)); cbn in Hg; destruct_and! Hg; simplify_eq; try done;
      match goal with Hd : dials s = _ |- _ => rewrite Hd end; [apply prefix_nil|done..].
  - unfold target_got. destruct (gw (tun s)) as [| |sp|]; try apply prefix_nil. cbn in Hg.
    destruct Hg as ((inn & E & Hc) & _). rewrite E in Ht. apply prefix_app_inv in Ht.
    etrans; [apply (ca_sent _ _ Hc)|done].
  - etrans; [exact Hd|]. destruct (gw (tun s)); cbn in Hg |- *;
      [destruct Hg as (_ & -> & _)|destruct Hg as (_ & -> & _)|destruct Hg as (_ & Hc & _); exact (ca_sent _ _ Hc)|destruct Hg as (-> & _)];
      apply prefix_nil.
Qed.

(** ** The work left to the two nodes and QUIC. *)
Definition unless (b : bool) : nat := if b then 0 else 1.
Definition open_reader (r : reader) : nat := match ended r with None => 1 | Some _ => 0 end.
Definition held (r : reader) : nat := length (avail r).

Definition gateway_work (g : served) : nat :=
  match g with
  | Reading _ _ => 4 | Dialling _ _ _ => 3 | Over _ _ => 0
  | Spliced sp => 3 * held (src (down sp)) + unless (finished (up sp)) + unless (finished (down sp))
  end.
Definition work (t : tunnel) : nat :=
  3 * held (src (a_up t)) + unless (finished (a_up t)) +
  2 * (length (written (dst (a_up t))) - carried_up t) + held (recv_of (gw t)) + open_reader (recv_of (gw t)) +
  gateway_work (gw t) +
  2 * (length (written (send_of (gw t))) - carried_down t) + held (src (a_down t)) + open_reader (src (a_down t)) +
  unless (finished (a_down t)).

Lemma copy_turn_work n d d' :
  copy_turn n d = Some d' → ∃ k j, held (src d) = (held (src d') + k)%nat ∧ (j ≤ k)%nat ∧
    length (written (dst d')) = (length (written (dst d)) + j)%nat ∧
    ended (src d') = ended (src d) ∧ finished d = false ∧ ((0 < k)%nat ∨ finished d' = true).
Proof.
  unfold copy_turn, held. intros H. destruct (finished d) eqn:Ef; [done|].
  destruct (take n (avail (src d))) as [|b bs'] eqn:Et.
  - destruct (avail (src d)) eqn:Ea; [|done]. destruct (ended (src d)) eqn:Ee; [|done]. injection H as <-.
    exists 0%nat, 0%nat. cbn. rewrite Ea. split_and!; cbn; try done; lia || by right.
  - pose proof (f_equal length (take_drop n (avail (src d)))) as Hl. rewrite Et, length_app in Hl. cbn [length] in Hl.
    unfold write_all in H. destruct (broken (dst d)); injection H as <-; cbn;
      [exists (S (length bs')), 0%nat|exists (S (length bs')), (S (length bs'))];
      rewrite ?length_app; cbn; split_and!; try done; lia || (left; lia).
Qed.

Lemma unless_le b : (unless b ≤ 1)%nat.
Proof. destruct b; cbn; lia. Qed.

(** Two directions' measures after a turn of one. *)
Lemma turn_work n d d' a b k :
  (b < a)%nat → (k ≤ length (written (dst d)))%nat → copy_turn n d = Some d' →
  (a * held (src d') + b * (length (written (dst d')) - k) + unless (finished d') <
   a * held (src d) + b * (length (written (dst d)) - k) + unless (finished d))%nat ∧
  open_reader (src d') = open_reader (src d).
Proof.
  intros Hab Hk H. destruct (copy_turn_work _ _ _ H) as (i & j & Hh & Hj & Hw & He & Hf & Hp).
  unfold open_reader. rewrite He, Hh, Hw, Hf. split; [|done]. pose proof (unless_le (finished d')). cbn [unless].
  destruct Hp as [?|Hp]; [|rewrite Hp; cbn [unless]]; nia.
Qed.

Lemma carry_work n w k r k' r' :
  carry n w k r = Some (k', r') →
  (held r' + 2 * (length (written w) - k') < held r + 2 * (length (written w) - k))%nat ∧
  open_reader r' = open_reader r.
Proof.
  intros (b & Hb & _ & -> & Hk & He & ->)%carry_Some. unfold held, open_reader. rewrite He. cbn.
  rewrite length_app. destruct b; [done|]. cbn [length] in *. split; [lia|done].
Qed.

Lemma close_work b w k r r' :
  close b w k r = Some r' → held r' = held r ∧ open_reader r = 1%nat ∧ open_reader r' = 0%nat.
Proof. unfold close, held, open_reader. intros. repeat case_match; by simplify_eq. Qed.

Lemma gateway_work_set_recv r g : gateway_work (set_recv r g) = gateway_work g.
Proof. by destruct g. Qed.
#[local] Hint Rewrite gateway_work_set_recv : link.

Lemma poll_work s : invariant s → ∀ s', session_exec s Poll = Some s' → (work (tun s') < work (tun s))%nat.
Proof.
  intros Hi s' H. apply session_exec_Some in H as (t & H & ->). cbn [exec] in H.
  apply bind_Some in H as (g & Hg & [= <-]). unfold work. cbn.
  destruct (gw (tun s)) as [recv send|?|?|?] eqn:Eg; try done.
  destruct (reading_polls _ _ _ _ Hi Eg Hg) as [(-> & _)|(rest & -> & _ & Hav)]; cbn; [lia|].
  unfold held, open_reader. rewrite Hav, length_app. cbn. lia.
Qed.

Lemma session_exec_work s c s' :
  invariant s → system c = true → session_exec s c = Some s' → (work (tun s') < work (tun s))%nat.
Proof.
  intros Hi Hc H. pose proof (i_carried _ Hi) as Hcu. pose proof (i_brought _ Hi) as Hcd.
  destruct c as [b|e|n|n|n| |n| | | | |ok|n|n|b|e]; try done; [..|by apply poll_work| | |].
  all: apply session_exec_Some in H as (t & H & ->); cbn [exec with_tun tun] in H |- *.
  - destruct (a_live (tun s)); [|done]. apply bind_Some in H as (u & Hu & [= <-]). unfold work; cbn.
    destruct (turn_work _ _ _ 3 2 (carried_up (tun s)) ltac:(lia) Hcu Hu). lia.
  - destruct (a_live (tun s)); [|done]. apply bind_Some in H as (u & Hu & [= <-]). unfold work; cbn.
    destruct (turn_work _ _ _ 1 0 0 ltac:(lia) ltac:(lia) Hu). lia.
  - apply bind_Some in H as ([k r] & Hk & [= <-]). unfold work; cbn. autorewrite with link.
    destruct (carry_work _ _ _ _ _ _ Hk). lia.
  - apply bind_Some in H as (r & Hr & [= <-]). unfold work; cbn. autorewrite with link.
    destruct (close_work _ _ _ _ _ Hr) as (-> & -> & ->). lia.
  - apply bind_Some in H as ([k r] & Hk & [= <-]). unfold work; cbn.
    destruct (carry_work _ _ _ _ _ _ Hk). lia.
  - apply bind_Some in H as (r & Hr & [= <-]). unfold work; cbn.
    destruct (close_work _ _ _ _ _ Hr) as (-> & -> & ->). lia.
  - destruct ok; [|done]. apply bind_Some in H as (g & Hg & [= <-]). unfold work; cbn.
    destruct (gw (tun s)) as [|? rest send| |]; try done. injection Hg as <-. cbn. lia.
  - apply bind_Some in H as (g & Hg & [= <-]). unfold work; cbn.
    apply in_splice_Some in Hg as (sp & sp' & -> & Hs & ->). apply bind_Some in Hs as (u & Hu & [= <-]).
    cbn. destruct (turn_work _ _ _ 1 0 0 ltac:(lia) ltac:(lia) Hu). lia.
  - apply bind_Some in H as (g & Hg & [= <-]). unfold work; cbn.
    apply in_splice_Some in Hg as (sp & sp' & Eg & Hs & ->). rewrite Eg in Hcd |- *.
    apply bind_Some in Hs as (u & Hu & [= <-]).
    cbn in Hcd |- *. destruct (turn_work _ _ _ 3 2 (carried_down (tun s)) ltac:(lia) Hcd Hu). lia.
Qed.

(** ** A link nothing has gone wrong on. *)
Definition sound_reader (r : reader) : Prop := ended r = None ∨ ended r = Some UnexpectedEof.
Definition sound_dir (d : direction) : Prop := sound_reader (src d) ∧ broken (dst d) = None.

Definition healthy_gateway (g : served) : Prop :=
  match g with
  | Reading r w | Dialling _ r w => sound_reader r ∧ broken w = None
  | Spliced sp => sound_dir (up sp) ∧ sound_dir (down sp)
  | Over _ _ => False
  end.

Record healthy (t : tunnel) : Prop := {
  h_live : a_live t = true;
  h_up : sound_dir (a_up t);
  h_down : sound_dir (a_down t);
  h_gw : healthy_gateway (gw t);
  h_closed : ended (src (a_down t)) ≠ None →
    carried_down t = length (written (send_of (gw t))) ∧ send_closed (gw t) = true;
}.

Lemma copy_turn_sound n d d' : copy_turn n d = Some d' → sound_dir d → sound_dir d' ∧ sound d' = true.
Proof.
  intros H [Hr Hb]. destruct (copy_turn_grows _ _ _ H) as (_ & _ & He).
  assert (broken (dst d') = None ∧ (finished d' = true → ended (src d') ≠ None)) as [Hb' Hf].
  { unfold copy_turn, write_all in H. rewrite Hb in H. repeat case_match; simplify_eq/=; split; congruence. }
  unfold sound_dir, sound_reader, sound. rewrite He, Hb' in *.
  destruct (finished d'); [|done]. destruct Hr as [Hr|Hr]; rewrite Hr in *; [by destruct Hf|auto].
Qed.

Lemma arrive_sound b d d' : arrive b d = Some d' → sound_dir d → sound_dir d'.
Proof. unfold arrive. intros H [Hr Hb]. case_match; [done|]. simplify_eq. split; [by left|done]. Qed.

Lemma eof_sound d r : ends UnexpectedEof (src d) = Some r → sound_dir d → sound_dir (on_src r d).
Proof. unfold ends. intros H [Hr Hb]. case_match; [done|]. simplify_eq. split; [by right|done]. Qed.

Lemma healthy_gateway_set_recv r g :
  sound_reader r → healthy_gateway g → healthy_gateway (set_recv r g).
Proof. intros Hr. destruct g; cbn; [by intros [_ ?]..| |done]. intros ([_ ?] & ?). by split. Qed.

Lemma healthy_recv g : healthy_gateway g → sound_reader (recv_of g) ∧ broken (send_of g) = None.
Proof. destruct g; cbn; [done..| |done]. by intros ([? _] & _ & ?). Qed.

Lemma healthy_set_gw g t :
  healthy t → healthy_gateway g →
  (send_closed (gw t) = true → written (send_of g) = written (send_of (gw t)) ∧ send_closed g = true) →
  healthy (set_gw g t).
Proof.
  intros [Hl Hu Hd Hg Hc] Hg' Hc'. split; cbn; try done. intros He. destruct (Hc He) as [-> Hs].
  by destruct (Hc' Hs) as [-> ?].
Qed.

(** The gateway's own steps. *)
Lemma healthy_gateway_step s c s' :
  invariant s → healthy (tun s) → gentle c = true → session_exec s c = Some s' →
  match c with Poll | Connected _ | SpliceUp _ | SpliceDown _ | TargetSends _ | TargetEnds _ => True | _ => False end →
  healthy (tun s').
Proof.
  intros Hi Hh Hgen H Hk. pose proof (h_gw _ Hh) as Hg.
  destruct c as [b|e|n|n|n| |n| | | | |ok|n|n|b|e]; try done; clear Hk;
    apply session_exec_Some in H as (t & H & ->); cbn [exec with_tun tun] in H |- *;
    apply bind_Some in H as (g & Hs & [= <-]); (apply healthy_set_gw; [done|..]).
  all: try (apply in_splice_Some in Hs as (sp & sp' & Eg & Hs & ->); rewrite Eg in *;
            apply bind_Some in Hs as (x & Hx & [= <-]); cbn in Hg |- *; destruct Hg as [Hgu Hgd]).
  - destruct (gw (tun s)) as [recv send| | |] eqn:Eg; try done. cbn in Hg. destruct Hg as [Hr Hb].
    destruct (reading_polls _ _ _ _ Hi Eg Hs) as [(-> & ? & ?)|(rest & -> & _)]; [by destruct Hr|]. by split.
  - by destruct (gw (tun s)) as [recv send| | |]; try done.
  - destruct (gw (tun s)) as [|? rest send| |]; try done. destruct ok; [|done]. injection Hs as <-. cbn in Hg |- *.
    destruct Hg as [Hr Hb]. split; split; cbn; try done. by left.
  - by destruct (gw (tun s)) as [|? rest send| |]; try done.
  - split; [|done]. by eapply copy_turn_sound.
  - done.
  - split; [done|]. by eapply copy_turn_sound.
  - intros Hf. apply copy_turn_grows in Hx as (Hf' & _). congruence.
  - split; [done|]. by eapply arrive_sound.
  - by destruct (arrive_keeps _ _ _ Hx) as [-> ->].
  - split; [done|]. unfold gentle in Hgen. cbn in Hgen. apply bool_decide_eq_true in Hgen as ->. by eapply eof_sound.
  - done.
Qed.

Lemma healthy_step s c s' :
  invariant s → healthy (tun s) → gentle c = true → session_exec s c = Some s' → healthy (tun s').
Proof.
  intros Hi Hh Hgen H. destruct c as [b|e|n|n|n| |n| | | | |ok|n|n|b|e]; try done;
    try (by eapply healthy_gateway_step); apply session_exec_Some in H as (t & H & ->); cbn [exec with_tun tun] in H |- *;
    destruct Hh as [Hl Hu Hd Hg Hc]; rewrite ?Hl in H; apply bind_Some in H as (x & Hx & H).
  - injection H as <-. split; cbn; try done. by eapply arrive_sound.
  - injection H as <-. split; cbn; try done. unfold gentle in Hgen. cbn in Hgen.
    apply bool_decide_eq_true in Hgen as ->. by eapply eof_sound.
  - injection H as <-. destruct (copy_turn_sound _ _ _ Hx Hu). by split.
  - injection H as <-. destruct (copy_turn_sound _ _ _ Hx Hd). split; cbn; try done.
    destruct (copy_turn_grows _ _ _ Hx) as (_ & _ & ->). done.
  - destruct x as [k r]. injection H as <-. apply carry_Some in Hx as (b & _ & _ & _ & _ & _ & ->).
    split; cbn; rewrite ?send_set_recv; try done; [by apply healthy_gateway_set_recv; [left|]|].
    intros He. destruct (Hc He) as [-> ?]. split; [done|]. by destruct (gw (tun s)).
  - injection H as <-. split; cbn; rewrite ?send_set_recv; try done.
    + apply healthy_gateway_set_recv; [|done]. unfold close in Hx. repeat case_match; simplify_eq. by right.
    + intros He. destruct (Hc He) as [-> ?]. split; [done|]. by destruct (gw (tun s)).
  - destruct x as [k r]. injection H as <-. apply carry_Some in Hx as (b & _ & _ & _ & _ & _ & ->).
    destruct Hd. split; cbn; try done. by split; [left|].
  - injection H as <-. destruct Hd as [_ Hb]. unfold close in Hx. repeat case_match; simplify_eq.
    split; cbn; try done; [by split; [right|]|]. intros _. rewrite andb_true_iff, Nat.eqb_eq in *. tauto.
Qed.

(** *** Once the nodes and QUIC have nothing left to do. *)
Definition idle (s : session) : Prop := ∀ c, system c = true → session_exec s c = None.

Lemma idle_exec s c : idle s → system c = true → exec (tun s) c = None.
Proof.
  intros Hq Hc. specialize (Hq c Hc). unfold session_exec in Hq. by destruct (exec (tun s) c).
Qed.

(** A direction no turn of which can move. *)
Lemma drained inn d :
  carries inn d → sound_dir d → copy_turn 1 d = None →
  written (dst d) = inn ∧ (ended (src d) ≠ None → finished d = true).
Proof.
  intros [_ Hf Hd] [_ Hb] Hq. destruct (finished d) eqn:E.
  - by destruct (Hd eq_refl Hb) as (_ & _ & ->).
  - specialize (Hf eq_refl). unfold copy_turn, write_all in Hq. rewrite E, Hb in Hq.
    destruct (avail (src d)) as [|b l]; cbn in Hq; [|done]. rewrite app_nil_r in Hf.
    split; [done|]. destruct (ended (src d)); [by destruct (finished d)|done].
Qed.

(** A half of a stream QUIC can move nothing on. *)
Lemma brought w k r :
  (k ≤ length (written w))%nat → carry 1 w k r = None →
  (ended r ≠ None → k = length (written w)) → take k (written w) = written w.
Proof.
  intros Hk Hc He. apply take_ge. unfold carry in Hc. destruct (ended r); [by rewrite He|].
  destruct (drop k (written w)) as [|b l] eqn:E; [|done].
  apply (f_equal length) in E. rewrite length_drop in E. cbn in E. lia.
Qed.

Lemma closed_when closed w k r :
  close closed w k r = None → broken w = None → closed = true → k = length (written w) → ended r ≠ None.
Proof.
  unfold close. intros H Hb -> ->. destruct (ended r); [done|]. by rewrite Hb, Nat.eqb_refl in H.
Qed.

Definition client_closed (s : session) : Prop := ended (src (a_up (tun s))) ≠ None.
Definition target_closed (s : session) : Prop :=
  match gw (tun s) with Spliced sp => ended (src (down sp)) ≠ None | _ => False end.

Record delivered (s : session) : Prop := {
  d_up : target_got s = sent s;
  d_down : client_got s = back s;
  d_dialled : dials s = [want s];
  d_target_eof : client_closed s → target_eof s = true;
  d_client_eof : target_closed s → client_eof s = true;
}.

Lemma idle_up s :
  invariant s → healthy (tun s) → idle s →
  take (carried_up (tun s)) (written (dst (a_up (tun s)))) = target_line (want s) ++ sent s ∧
  (client_closed s → ended (recv_of (gw (tun s))) ≠ None).
Proof.
  intros Hi Hh Hq. pose proof (idle_exec _ (TunnelUp 1) Hq eq_refl) as H1. cbn in H1. rewrite (h_live _ Hh) in H1.
  destruct (drained _ _ (i_up _ Hi) (h_up _ Hh)) as [Hw Hf].
  { by destruct (copy_turn 1 (a_up (tun s))). }
  pose proof (idle_exec _ (CarryUp 1) Hq eq_refl) as H2. cbn in H2.
  destruct (healthy_recv _ (h_gw _ Hh)) as [Hr _].
  assert (ended (recv_of (gw (tun s))) ≠ None → carried_up (tun s) = length (written (dst (a_up (tun s))))) as Hall.
  { intros He. destruct Hr as [?|Hr]; [done|]. by apply (i_closed _ Hi). }
  assert (take (carried_up (tun s)) (written (dst (a_up (tun s)))) = written (dst (a_up (tun s)))) as Ht.
  { apply (brought _ _ (recv_of (gw (tun s)))); [apply (i_carried _ Hi)| |exact Hall].
    by destruct (carry _ _ _ _) as [[]|]. }
  split; [by rewrite Ht|]. intros Hc. pose proof (idle_exec _ CloseUp Hq eq_refl) as H3. cbn in H3.
  apply bind_None in H3 as [H3|(? & _ & [=])].
  eapply closed_when; [exact H3|apply (h_up _ Hh)| |].
  - by rewrite (Hf Hc).
  - apply (f_equal length) in Ht. rewrite length_take in Ht. pose proof (i_carried _ Hi). lia.
Qed.

Lemma idle_spliced s :
  invariant s → healthy (tun s) → idle s → ∃ sp, gw (tun s) = Spliced sp.
Proof.
  intros Hi Hh Hq. destruct (idle_up _ Hi Hh Hq) as [Ht _]. pose proof (i_gateway _ Hi) as Ha.
  pose proof (h_gw _ Hh) as Hg. rewrite Ht in Ha.
  pose proof (idle_exec _ Poll Hq eq_refl) as H1. pose proof (idle_exec _ (Connected true) Hq eq_refl) as H2.
  cbn in H1, H2. destruct (gw (tun s)) as [[av e] send|t rest send|sp|r w]; [|done|by exists sp|done].
  cbn in Ha, H1. destruct Ha as [<- _]. by rewrite target_line_dials in H1 by apply (i_ok _ Hi).
Qed.

Lemma idle_delivered s : invariant s → healthy (tun s) → idle s → delivered s.
Proof.
  intros Hi Hh Hq. destruct (idle_up _ Hi Hh Hq) as [Ht Hc]. destruct (idle_spliced _ Hi Hh Hq) as [sp Eg].
  pose proof (i_gateway _ Hi) as Ha. pose proof (h_gw _ Hh) as Hg. pose proof (h_closed _ Hh) as Hcl.
  pose proof (i_down _ Hi) as Hd. pose proof (i_brought _ Hi) as Hb. rewrite Ht, Eg in Ha. rewrite Eg in Hg, Hc, Hcl, Hd, Hb.
  cbn in Ha, Hg, Hc, Hcl, Hd, Hb. destruct Ha as ((inn & E & Hu) & Hdn & Hds), Hg as [Hgu Hgd]. simplify_list_eq.
  assert (∀ c, system c = true → exec (tun s) c = None) as Hx by (intros; by apply idle_exec).
  pose proof (Hx (SpliceUp 1) eq_refl) as H1. pose proof (Hx (SpliceDown 1) eq_refl) as H2.
  pose proof (Hx (CarryDown 1) eq_refl) as H3. pose proof (Hx CloseDown eq_refl) as H4.
  pose proof (Hx (TunnelDown 1) eq_refl) as H5. cbn in H1, H2, H3, H4, H5.
  rewrite Eg in H1, H2, H3, H4. cbn in H1, H2, H3, H4. rewrite (h_live _ Hh) in H5.
  destruct (drained _ _ Hu Hgu) as [Hw1 Hf1]; [by destruct (copy_turn 1 (up sp))|].
  destruct (drained _ _ Hdn Hgd) as [Hw2 Hf2]; [by destruct (copy_turn 1 (down sp))|].
  destruct (drained _ _ Hd (h_down _ Hh)) as [Hw3 Hf3]; [by destruct (copy_turn 1 (a_down (tun s)))|].
  assert (take (carried_down (tun s)) (written (dst (down sp))) = written (dst (down sp))) as Ht2.
  { apply (brought _ _ (src (a_down (tun s)))); [done|by destruct (carry _ _ _ _) as [[]|]|].
    intros He. by destruct (Hcl He). }
  split; unfold target_got, client_got, target_eof, client_eof, client_closed, target_closed; rewrite ?Eg.
  - done.
  - by rewrite Hw3, Ht2.
  - done.
  - intros Hcc. apply Hf1, Hc, Hcc.
  - intros Htc. apply bind_None in H4 as [H4|(? & _ & [=])].
    apply Hf3. eapply closed_when; [exact H4|apply Hgd|by apply Hf2|].
    apply (f_equal length) in Ht2. rewrite length_take in Ht2. lia.
Qed.

(** ** Links. *)
Definition healthy_link (l : list session) : Prop := Forall (λ s, healthy (tun s)) l.

Lemma open_healthy head early : healthy (open_tunnel head early).
Proof. split; cbn; try done; by split; [left|]. Qed.

Lemma link_exec_healthy c e l l' :
  gentle_link e = true → link_exec c l e = Some l' → Forall invariant l → healthy_link l → healthy_link l'.
Proof.
  intros Hg H Hi Hl. unfold healthy_link in *. destruct e as [r early|k ev|]; [| |done]; cbn in H.
  - destruct (is_connect r); [|done]. repeat case_match; simplify_eq; try done.
    apply Forall_app. split; [done|]. constructor; [apply open_healthy|done].
  - apply bind_Some in H as (s & Hs & (s' & He & [= <-])%bind_Some).
    apply Forall_insert; [done|]. eapply healthy_step; [|exact (Forall_lookup_1 _ _ _ _ Hl Hs)|done|done].
    by eapply Forall_lookup_1.
Qed.

Lemma link_run_healthy c es l l' :
  Forall opens_well es → Forall (λ e, gentle_link e = true) es → link_run c es l = Some l' →
  Forall invariant l → healthy_link l → healthy_link l'.
Proof.
  intros Hes. revert l. induction Hes as [|e es He Hes IH]; intros l Hg; cbn [link_run]; [by intros [= <-]|].
  inversion_clear Hg. intros (l1 & H1 & H2)%bind_Some Hi Hl.
  eapply IH; [done|done| |]; [by eapply link_exec_invariant|by eapply link_exec_healthy].
Qed.

(** What is left to do on every tunnel. *)
Definition link_work (l : list session) : nat := sum_list_with (λ s, work (tun s)) l.

Lemma sum_list_with_update {A} (f : A → nat) l k x y :
  l !! k = Some x → (sum_list_with f (<[k:=y]> l) + f x = sum_list_with f l + f y)%nat.
Proof.
  revert k. induction l as [|z l IH]; intros [|k]; cbn; try done; [intros [= ->]; lia|].
  intros H. rewrite <- !Nat.add_assoc. f_equal. exact (IH k H).
Qed.

Definition system_link (e : link_event) : Prop := ∃ k c, e = Within k c ∧ system c = true.

Lemma system_opens_well e : system_link e → opens_well e.
Proof. by intros (k & c & -> & _). Qed.

Lemma system_run_bounded c cs l l' :
  Forall system_link cs → link_run c cs l = Some l' → Forall invariant l → (length cs ≤ link_work l)%nat.
Proof.
  intros Hcs. revert l. induction Hcs as [|e cs He Hcs IH]; intros l; cbn [link_run length]; [lia|].
  intros (l1 & H1 & H2)%bind_Some Hi.
  pose proof (link_exec_invariant _ _ _ _ (system_opens_well _ He) H1 Hi) as Hi1.
  specialize (IH l1 H2 Hi1). destruct He as (k & ev & -> & Hs). cbn in H1.
  apply bind_Some in H1 as (s & Hk & (s' & Hx & [= <-])%bind_Some).
  pose proof (sum_list_with_update (λ s, work (tun s)) l k s s' Hk) as Hsum. cbn beta in Hsum.
  pose proof (session_exec_work _ _ _ (Forall_lookup_1 _ _ _ _ Hi Hk) Hs Hx). unfold link_work in *. lia.
Qed.

Definition link_idle (c : circuit) (l : list session) : Prop :=
  ∀ e, system_link e → link_exec c l e = None.

Lemma link_idle_delivered c es l :
  Forall opens_well es → Forall (λ e, gentle_link e = true) es → link_run c es [] = Some l → link_idle c l →
  Forall delivered l.
Proof.
  intros Hes Hg H Hq. pose proof (link_run_invariant _ _ _ _ Hes H (Forall_nil_2 _)) as Hi.
  pose proof (link_run_healthy _ _ _ _ Hes Hg H (Forall_nil_2 _) (Forall_nil_2 _)) as Hh.
  apply Forall_lookup. intros k s Hk. apply idle_delivered; [by eapply Forall_lookup_1|by eapply (Forall_lookup_1 _ _ _ _ Hh)|].
  intros ev Hev. specialize (Hq (Within k ev) (ex_intro _ k (ex_intro _ ev (conj eq_refl Hev)))).
  cbn in Hq. rewrite Hk in Hq. cbn in Hq. by destruct (session_exec s ev).
Qed.

(** C1: an application's tunnels reach their targets through two nodes.
    However the steps of any number of tunnels of one link interleave with QUIC,
    the applications and the targets, and whatever fails on the way, each
    gateway task dials at most the target its tunnel was opened for, and what
    either end receives is a prefix of what the other sent.  The nodes' own work
    is finite: without new input no run of it is longer than [link_work].  And
    once it is done, if nothing has failed, every tunnel is dialled, both ends
    have received all that was sent, and an end that closed is seen closed. *)
Theorem link_delivers_every_tunnel (c : circuit) (es : list link_event) (l : list session) :
  Forall opens_well es → link_run c es [] = Some l →
  Forall faithful l ∧
  (∀ cs l', Forall system_link cs → link_run c cs l = Some l' → (length cs ≤ link_work l)%nat) ∧
  (Forall (λ e, gentle_link e = true) es → link_idle c l → Forall delivered l).
Proof.
  intros Hes H. pose proof (link_run_invariant _ _ _ _ Hes H (Forall_nil_2 _)) as Hi. split_and!.
  - eapply Forall_impl; [exact Hi|apply invariant_faithful].
  - intros cs l' Hcs Hr. by eapply system_run_bounded.
  - intros Hg Hq. by eapply link_idle_delivered.
Qed.

(** ** Two tunnels to two targets over one link, interleaved. *)
Definition demo_connect (a : string) : request := mkRequest true (bs "CONNECT") (Some (bs a)) None None None [] [].
Definition demo_link : list link_event :=
  [Open (demo_connect "a.org:443") (bs "hi"); Open (demo_connect "b.org:22") [];
   Within 0 (TunnelUp 9); Within 0 (CarryUp 99); Within 1 (CarryUp 3); Within 0 Poll; Within 1 (CarryUp 99);
   Within 0 (Connected true); Within 1 Poll; Within 1 (Connected true); Within 0 (SpliceUp 9);
   Within 1 (TargetSends (bs "ssh")); Within 1 (SpliceDown 9); Within 1 (CarryDown 9); Within 1 (TunnelDown 9);
   Within 0 (ClientEnds UnexpectedEof); Within 0 (TunnelUp 1); Within 0 CloseUp; Within 0 (SpliceUp 1)].

Lemma demo_opens_well : Forall opens_well demo_link.
Proof.
  repeat constructor; eexists; (split; [reflexivity|]); (split; [done|]);
    apply (bool_decide_unpack (Forall graphic _)); by vm_compute.
Qed.

Lemma link_delivers_every_tunnel_witness :
  ∃ l, link_run demo_circuit demo_link [] = Some l ∧ (length l = 2)%nat ∧ Forall delivered l ∧
    map target_got l = [bs "hi"; []] ∧ map client_got l = [[]; bs "ssh"] ∧ map target_eof l = [true; false].
Proof.
  eexists. split; [by vm_compute|]. split; [done|]. split; [|by vm_compute].
  eapply (link_delivers_every_tunnel demo_circuit demo_link);
    [exact demo_opens_well|by vm_compute|repeat constructor|].
  intros e (k & c & -> & Hc). destruct k as [|[|k]]; [| |done];
    destruct c as [| |n|n|n| |n| | | | | |n|n| |]; try done; try destruct n; by vm_compute.
Defined.
