(* ===== verification/Autopilot.v ===== *)
(** * The auto-promotion runtime: [crates/quicmix/src/autopilot.rs].

    The configuration read from the environment, the promotion decision, the
    certificate published over HTTP and fetched by peers, the directory a node
    keeps from its own start and the refresh loop, and one turn of the ingress
    loop. *)

From S2P Require Import Prelude RustFloat RustStr RustText Core Oracle Client Substrate Net Directory UdpFront Selection.
Open Scope Z_scope.

Definition DEFAULT_BOOTSTRAP : list str := bs <$> ["64.226.93.43:4433"; "68.183.148.148:4433"]%string.
Definition DIR_TTL : Z := from_secs 120.

Record Config := mkConfig {
  gw_bind : SocketAddr;
  ingress_bind : str;
  bootstrap : list SocketAddr;
  public_ip : option IpAddr;
  cert_out : option str;
  substrate : SubstrateChoice;
  metrics_ws_bind : option SocketAddr;
  stream_bridge_bind : option SocketAddr;
}.

Inductive config_error : Type := BadVar (var : str) | BadPeer (x : str) | BadChoice (e : choice_error).

Section FromEnv.
Variable env : environment.

(** [Ok(s) if !s.is_empty() => Some(s.parse()?), _ => None]. *)
Definition optional {A} (var : string) (parse : str → option A) : result config_error (option A) :=
  match env (bs var) with
  | Some (b :: s) => Some <$> ok_or (parse (b :: s)) (BadVar (bs var))
  | _ => Ok None
  end.

(** [collect::<Result<Vec<_>>>]: the first failure. *)
Fixpoint parse_peers (xs : list str) : result config_error (list SocketAddr) :=
  match xs with
  | [] => Ok []
  | x :: xs => a ← ok_or (parse_socket_addr x) (BadPeer x); l ← parse_peers xs; Ok (a :: l)
  end.

Definition bootstrap_from (v : option str) : result config_error (list SocketAddr) :=
  match v with
  | Some s => parse_peers (retain (λ x, negb (bool_decide (x = []))) (trim <$> split (zb 44) s))
  | None => parse_peers DEFAULT_BOOTSTRAP
  end.

Definition from_env : result config_error Config :=
  gw ← ok_or (parse_socket_addr (default (bs "0.0.0.0:4433") (env (bs "QUICMIX_GW_BIND"))))
         (BadVar (bs "QUICMIX_GW_BIND"));
  let ingress := default (bs "127.0.0.1:8888") (env (bs "QUICMIX_INGRESS_BIND")) in
  boot ← bootstrap_from (env (bs "QUICMIX_BOOTSTRAP"));
  pip ← optional "QUICMIX_PUBLIC_IP" parse_ip_addr;
  let out := match env (bs "QUICMIX_CERT_OUT") with Some (b :: s) => Some (b :: s) | _ => None end in
  choice ← map_err BadChoice (Selection.from_env env);
  ws ← optional "QUICMIX_METRICS_WS_BIND" parse_socket_addr;
  bridge ← optional "QUICMIX_STREAM_BRIDGE_BIND" parse_socket_addr;
  Ok (mkConfig gw ingress boot pip out choice ws bridge).
End FromEnv.

(** [autopilot::oracle]. *)
Definition direct_oracle : OracleParams := mkOracleParams 1 (from_millis 30) (S754_zero false) 0 1200.

(** ** The certificate over HTTP. *)
Definition cert_head (n : nat) : str :=
  bs "HTTP/1.0 200 OK" ++ CRLF ++ bs "Content-Type: application/octet-stream" ++ CRLF ++
  bs "Content-Length: " ++ show_uint (Z.of_nat n) ++ CRLF ++ bs "Connection: close" ++ CRLFCRLF.

(** What [serve_cert_http] writes, whatever the request. *)
Definition cert_response (cert : bytes) : bytes := cert_head (length cert) ++ cert.

Definition fetch_request (a : SocketAddr) : bytes :=
  bs "GET /cert HTTP/1.0" ++ CRLF ++ bs "Host: " ++ show_socket_addr a ++ CRLF ++
  bs "Connection: close" ++ CRLFCRLF.

Inductive fetch_error : Type :=
| ConnectTimedOut | ConnectFailed | WriteFailed | ReadTimedOut | ReadFailed
| NoTerminator | EmptyCert.

(** [read] is what the connection answers to the request: the bytes until the
    peer closes, or the error. *)
Definition fetch_cert (read : bytes → result fetch_error bytes) (a : SocketAddr) :
    result fetch_error bytes :=
  data ← read (fetch_request a);
  sep ← ok_or (find_window CRLFCRLF data) NoTerminator;
  let body := drop (sep + 4) data in
  if decide (body = []) then Err EmptyCert else Ok body.

(** ** The promotion decision. *)
Definition discover_egress_ip (bound connected : bool) (local : option SocketAddr) : option IpAddr :=
  if bound && connected then sa_ip <$> local else None.

Definition self_public (cfg : Config) (discovered : option IpAddr) : option SocketAddr :=
  let egress := match public_ip cfg with Some i => Some i | None => discovered end in
  ip ← egress;
  let a := socket_addr ip (sa_port (gw_bind cfg)) in
  if qualifies_as_gateway a then Some a else None.

Inductive run_error : Type := GatewayBindFailed | CertHttpBindFailed.

(** What [run] has done when it starts the loops. *)
Record started := mkStarted {
  role : option SocketAddr;                     (* the gateway's public address *)
  dir : GatewayDirectory;
  bridge_to : option (SocketAddr * SocketAddr); (* stream bridge: from TCP to the local QUIC *)
  wrote : option str;                           (* the file asked to hold the certificate *)
}.

Definition startup (cfg : Config) (discovered : option IpAddr) (gw_ok http_ok bridge_ok : bool)
    (cert : bytes) (now : Z) : result run_error started :=
  let d := Directory.new DIR_TTL in
  match self_public cfg discovered with
  | None => Ok (mkStarted None d None None)
  | Some a =>
      if negb gw_ok then Err GatewayBindFailed
      else if negb http_ok then Err CertHttpBindFailed
      else
        let local := SA4 (V4 127 0 0 1) (sa_port (gw_bind cfg)) in
        Ok (mkStarted (Some a) (announce a cert now d)
              (br ← stream_bridge_bind cfg; if bridge_ok then Some (br, local) else None)
              (cert_out cfg))
  end.

(** ** The refresh loop: one peer of a round; [outcome] and [now] are those of
    its fetch. *)
Definition refresh_peer (self : option SocketAddr) (a : SocketAddr) (outcome : result fetch_error bytes)
    (now : Z) (d : GatewayDirectory) : GatewayDirectory :=
  if decide (Some a = self) then d
  else match outcome with Ok cert => announce a cert now d | Err _ => d end.

(** The node's directory over time: peers refreshed, gateways sampled. *)
Inductive event : Type :=
| Refresh (a : SocketAddr) (outcome : result fetch_error bytes) (t : Z)
| Sample (rng : nat → nat) (t : Z).

Definition event_time (e : event) : Z := match e with Refresh _ _ t => t | Sample _ t => t end.

Definition node_exec (self : option SocketAddr) (d : GatewayDirectory) (e : event) : GatewayDirectory :=
  match e with
  | Refresh a o t => refresh_peer self a o t d
  | Sample rng t => snd (Directory.sample rng t d)
  end.

Definition node_run (self : option SocketAddr) (es : list event) (d : GatewayDirectory) : GatewayDirectory :=
  foldl (node_exec self) d es.

(** ** One turn of the ingress loop: the sampled gateway, the front resolved for
    it, the connection pinned to its certificate, the proxy.  [None]: the loop
    sleeps two seconds and tries again. *)
Record served := mkServed { via : GatewayInfo; front_addr : SocketAddr; pinned : bytes }.

Definition ingress_turn (gw : option GatewayInfo)
    (resolve_front : SocketAddr → result front_error SocketAddr)
    (connect_via : SocketAddr → bytes → bool) (serve_ok : bool) : option served :=
  g ← gw;
  f ← result_ok (resolve_front (Directory.addr g));
  if connect_via f (cert g) && serve_ok then Some (mkServed g f (cert g)) else None.

(** ** Certificates survive the trip. *)
Lemma find_head n b : find_window CRLFCRLF (cert_head n ++ b) = Some (length (cert_head n) - 4)%nat.
Proof.
  set (h1 := bs "HTTP/1.0 200 OK" ++ CRLF ++ bs "Content-Type: application/octet-stream" ++ CRLF ++
             bs "Content-Length: ").
  set (ds := show_uint (Z.of_nat n)).
  set (h2 := CRLF ++ bs "Connection: close").
  assert (cert_head n ++ b = h1 ++ ds ++ h2 ++ CRLFCRLF ++ b) as ->
    by (unfold cert_head, h1, h2; by rewrite <- !app_assoc).
  rewrite (find_window_skip _ h1), (find_window_skip _ ds), (find_window_skip _ h2), find_window_here.
  - unfold cert_head. fold ds. rewrite !length_app. cbn. f_equal. lia.
  - by vm_compute.
  - apply never_starts_notin. apply show_uint_notin. left. by vm_compute.
  - by vm_compute.
Qed.

(** What [serve_cert_http] publishes is what [fetch_cert] pins: the body is
    found behind the head whatever bytes it holds, even ones that look like a
    header terminator, and an empty one is refused.  The announced length [n]
    plays no part: a body cut short by the peer is pinned as it is. *)
Lemma fetched_cert_is_the_served_body (read : bytes → result fetch_error bytes) (a : SocketAddr)
    (n : nat) (b : bytes) :
  read (fetch_request a) = Ok (cert_head n ++ b) →
  fetch_cert read a = if decide (b = []) then Err EmptyCert else Ok b.
Proof.
  intros Hr. unfold fetch_cert. rewrite Hr. cbn [mbind result_bind].
  rewrite find_head. cbn [ok_or mbind result_bind].
  assert (drop (length (cert_head n) - 4 + 4) (cert_head n ++ b) = b) as ->.
  { rewrite Nat.sub_add, drop_app_length; [done|]. unfold cert_head. rewrite !length_app. cbn. lia. }
  done.
Qed.

(** ** The node's directory is a history of announcements and queries. *)
Definition history (self : option SocketAddr) (es : list event) : list op :=
  es ≫= λ e, match e with
  | Refresh a (Ok c) t => if decide (Some a = self) then [] else [Announce a c t]
  | Refresh _ (Err _) _ => []
  | Sample _ t => [Query t]
  end.

Lemma node_run_history self es d : node_run self es d = Directory.run (history self es) d.
Proof.
  revert d. induction es as [|e es IH]; intros d; [done|]. unfold history. rewrite bind_cons.
  fold (history self es). unfold Directory.run. rewrite foldl_app.
  change (node_run self (e :: es) d) with (node_run self es (node_exec self d e)).
  rewrite IH. unfold Directory.run. f_equal. destruct e as [a [c|] t|rng t]; cbn.
  - unfold refresh_peer. by case_decide.
  - unfold refresh_peer. by case_decide.
  - unfold Directory.sample. by destruct (live t d).
Qed.

Fixpoint in_order (t0 : Z) (es : list event) (now : Z) : Prop :=
  match es with
  | [] => t0 ≤ now
  | e :: es => t0 ≤ event_time e ∧ in_order (event_time e) es now
  end.

Lemma chronological_earlier t t' os now : t ≤ t' → chronological t' os now → chronological t os now.
Proof. destruct os; cbn; [lia|]. intros ? []. split; [lia|done]. Qed.

Lemma in_order_history self t0 es now : in_order t0 es now → chronological t0 (history self es) now.
Proof.
  revert t0. induction es as [|e es IH]; intros t0; [done|]. intros [Ht He%IH].
  unfold history. rewrite bind_cons. fold (history self es).
  destruct e as [a [c|] t|rng t]; cbn in *; [case_decide; cbn|..];
    eauto using chronological_earlier.
Qed.

Lemma latest_skips self es acc a :
  self = Some a → latest_from a acc (history self es) = acc.
Proof.
  intros ->. revert acc. induction es as [|e es IH]; intros acc; [done|].
  unfold history. rewrite bind_cons. fold (history (Some a) es).
  unfold latest_from. rewrite foldl_app. fold (latest_from a acc).
  destruct e as [b [c|] t|rng t]; cbn; [|apply IH..].
  case_decide as Hb; cbn; [apply IH|]. rewrite decide_False by congruence. apply IH.
Qed.

(** The last successful fetch of a peer. *)
Definition last_fetch (a : SocketAddr) (es : list event) : option GatewayInfo :=
  foldl (λ acc e, match e with
                  | Refresh b (Ok c) t => if decide (b = a) then Some (mkGatewayInfo a c t) else acc
                  | _ => acc
                  end) None es.

Lemma latest_last_fetch self es a :
  self ≠ Some a → latest_from a None (history self es) = last_fetch a es.
Proof.
  intros Hs. unfold last_fetch. generalize (@None GatewayInfo) as acc.
  induction es as [|e es IH]; intros acc; [done|].
  unfold history. rewrite bind_cons. fold (history self es).
  unfold latest_from. rewrite foldl_app. fold (latest_from a acc).
  destruct e as [b [c|] t|rng t]; cbn; [|apply IH..].
  case_decide as Hb; cbn; [|apply IH]. rewrite decide_False by congruence. apply IH.
Qed.


(** What a node starts with. *)
Lemma startup_directory cfg discovered bridge_ok c t0 st :
  startup cfg discovered true true bridge_ok c t0 = Ok st →
  ttl (dir st) = DIR_TTL ∧ filed (dir st) ∧
  ∀ a, gateways (dir st) !! a = if decide (role st = Some a) then Some (mkGatewayInfo a c t0) else None.
Proof.
  unfold startup. intros Hst. destruct (self_public cfg discovered) as [b|]; injection Hst as <-;
    cbn [role dir]; (split_and!; [done| |]).
  - intros k v. rewrite lookup_announce, lookup_new. case_decide; [|done]. by intros [= <-].
  - intros a. rewrite lookup_announce, lookup_new. repeat case_decide; congruence.
  - by intros k v.
  - intros a. by rewrite lookup_new.
Qed.

Lemma fresh_ttl now v : fresh_at now DIR_TTL v = true ↔ now < last_seen v + DIR_TTL.
Proof. unfold fresh_at, usat_sub. change DIR_TTL with 120000000000. lia. Qed.

Section Listing.
Context (cfg : Config) (discovered : option IpAddr) (bridge_ok : bool) (c : bytes) (t0 now : Z)
  (es : list event) (st : started).
Hypothesis started_ok : startup cfg discovered true true bridge_ok c t0 = Ok st.
Hypothesis ordered : in_order t0 es now.
#[local] Abbreviation listed := (fst (live now (node_run (role st) es (dir st)))).

(** The node's own entry is the one it announced at the start. *)
Lemma listed_self a v :
  role st = Some a → Directory.addr v = a →
  v ∈ listed ↔ v = mkGatewayInfo a c t0 ∧ now < t0 + DIR_TTL.
Proof.
  intros Ha Hv. destruct (startup_directory _ _ _ _ _ _ started_ok) as (Ht & Hf & Hg).
  specialize (Hg a). rewrite decide_True in Hg by done. rewrite node_run_history.
  rewrite (listed_latest _ _ _ _ _ _ v (in_order_history _ _ _ _ ordered) Hf Hg Hv), Ht, latest_skips by done.
  rewrite fresh_ttl. split; [intros [[= <-] ?]|intros [-> ?]]; done.
Qed.

Lemma listed_peer a v :
  role st ≠ Some a → Directory.addr v = a →
  v ∈ listed ↔ last_fetch a es = Some v ∧ now < last_seen v + DIR_TTL.
Proof.
  intros Ha Hv. destruct (startup_directory _ _ _ _ _ _ started_ok) as (Ht & Hf & Hg).
  specialize (Hg a). rewrite decide_False in Hg by done. rewrite node_run_history.
  rewrite (listed_latest _ _ _ _ _ _ v (in_order_history _ _ _ _ ordered) Hf Hg Hv), Ht, fresh_ttl.
  by rewrite latest_last_fetch.
Qed.
End Listing.

(** C16: the directory of a running node.  A promoted node lists itself for
    exactly one time to live after it starts: the refresh loop skips its own
    address, so nothing renews the entry and afterwards the node no longer
    serves itself.  Every other address is listed with the certificate of its
    last successful fetch, while that fetch is younger than the time to live. *)
Theorem node_directory_over_time (cfg : Config) (discovered : option IpAddr) (bridge_ok : bool)
    (c : bytes) (t0 now : Z) (es : list event) (st : started) :
  startup cfg discovered true true bridge_ok c t0 = Ok st → in_order t0 es now →
  let listed := fst (live now (node_run (role st) es (dir st))) in
  (∀ a, role st = Some a →
     ((∃ v, v ∈ listed ∧ Directory.addr v = a) ↔ now < t0 + DIR_TTL)) ∧
  (∀ a, role st ≠ Some a → ∀ v, Directory.addr v = a →
     (v ∈ listed ↔ last_fetch a es = Some v ∧ now < last_seen v + DIR_TTL)).
Proof.
  intros Hst Ho listed. split.
  - intros a Ha. split.
    + intros (v & Hv & E).
      by apply (listed_self cfg discovered bridge_ok c t0 now es st Hst Ho a v Ha E) in Hv as [_ ?].
    + intros Hn. exists (mkGatewayInfo a c t0). split; [|done].
      by apply (listed_self cfg discovered bridge_ok c t0 now es st Hst Ho a (mkGatewayInfo a c t0) Ha eq_refl).
  - intros a Ha v Hv. exact (listed_peer cfg discovered bridge_ok c t0 now es st Hst Ho a v Ha Hv).
Qed.

Definition demo_config : Config :=
  mkConfig (SA4 (V4 0 0 0 0) 4433) [] [] (Some (V4 64 226 93 43)) None Direct None None.
Definition demo_self : SocketAddr := SA4 (V4 64 226 93 43) 4433.
Definition demo_events : list event :=
  [Refresh demo_self (Ok (bs "other")) (from_secs 1); Refresh (SA4 (V4 68 183 148 148) 4433) (Ok (bs "peer")) (from_secs 70)].

Lemma node_directory_over_time_witness :
  ∃ st, startup demo_config None true true false (bs "mine") 0 = Ok st ∧ role st = Some demo_self ∧
    ¬ (∃ v, v ∈ fst (live (from_secs 130) (node_run (role st) demo_events (dir st))) ∧
         Directory.addr v = demo_self).
Proof.
  eexists. split; [by vm_compute|]. split; [by vm_compute|].
  destruct (node_directory_over_time demo_config None false (bs "mine") 0 (from_secs 130) demo_events _
    eq_refl) as [H _].
  - by vm_compute.
  - specialize (H demo_self). intros Hl. apply H in Hl; [|by vm_compute]. vm_compute in Hl. done.
Defined.
