(* ===== verification/NodeRun.v ===== *)
(** * A running node: the tasks [autopilot::run] leaves behind
    ([crates/quicmix/src/autopilot.rs]), interleaved in any order.

    The refresh loop fetches certificates, the ingress loop samples the
    directory, dials the sampled gateway pinned to its certificate and serves
    until the process ends, and a gateway answers certificate requests.  Peers,
    substrates and sockets are arguments of the events.  [main] is that of
    [crates/quicmix-node/src/main.rs]. *)

From S2P Require Import Prelude RustStr RustText Core Client Net Directory Selection Gateway Autopilot.
Open Scope Z_scope.

(** ** From the environment to the loops. *)
Inductive main_error : Type :=
| ConfigFailed (e : config_error) | NodeFailed (e : node_error) | RunFailed (e : run_error).

Section Main.
Variables (pr : profile) (itf : Z → option Z) (make_cert : option (bytes * bytes)).

(** [main], until [run] has spawned its tasks. *)
Definition main (env : environment) (discovered : option IpAddr) (gw_ok http_ok bridge_ok : bool) (now : Z) :
    result main_error (Gateway.Node * started) :=
  cfg ← map_err ConfigFailed (Autopilot.from_env env);
  node ← map_err NodeFailed (Gateway.new pr itf make_cert direct_oracle);
  st ← map_err RunFailed (startup cfg discovered gw_ok http_ok bridge_ok (Gateway.cert node) now);
  Ok (node, st).

Lemma main_started env discovered gw_ok http_ok bridge_ok now node st :
  main env discovered gw_ok http_ok bridge_ok now = Ok (node, st) →
  ∃ cfg, startup cfg discovered gw_ok http_ok bridge_ok (Gateway.cert node) now = Ok st.
Proof.
  unfold main. destruct (Autopilot.from_env env) as [cfg|]; [|done]. cbn [map_err mbind result_bind].
  destruct (Gateway.new _ _ _ _) as [n|]; [|done]. cbn [map_err mbind result_bind].
  destruct (startup _ _ _ _ _ _ _) as [s|] eqn:E; [|done]. intros [= <- <-]. by exists cfg.
Qed.
End Main.

Inductive node_event : Type :=
| Fetch (a : SocketAddr) (read : bytes → result fetch_error bytes) (t : Z)
    (* one peer of a refresh round; [read]: what its TCP port answers *)
| Attempt (rng : nat → nat) (resolve_front : SocketAddr → result front_error SocketAddr)
    (connects : SocketAddr → bytes → bool) (serve_ok : bool) (t : Z)
    (* a turn of the ingress loop *)
| CertConn (accept_ok : bool) (request : bytes) (t : Z).
    (* [accept] on the certificate listener; a failed one is passed over *)

Record running := mkRunning {
  directory : GatewayDirectory;
  ingress : option served;       (* the proxy, once it serves: the loop has ended *)
  answers : list bytes;          (* what the certificate listener has written *)
}.

Section Run.
Variables (self : option SocketAddr) (own : bytes).

Definition run_exec (n : running) (e : node_event) : running :=
  match e with
  | Fetch a read t => mkRunning (refresh_peer self a (fetch_cert read a) t (directory n)) (ingress n) (answers n)
  | Attempt rng resolve connects ok t =>
      match ingress n with
      | Some _ => n
      | None =>
          let (gw, d) := Directory.sample rng t (directory n) in
          mkRunning d (ingress_turn gw resolve connects ok) (answers n)
      end
  | CertConn ok _ _ =>
      if ok && is_some self then mkRunning (directory n) (ingress n) (answers n ++ [cert_response own]) else n
  end.

Definition run_node (es : list node_event) (n : running) : running := foldl run_exec n es.
End Run.

Definition boot (st : started) : running := mkRunning (dir st) None [].

(** ** The directory's own events. *)
Definition dir_event (e : node_event) : list Autopilot.event :=
  match e with
  | Fetch a read t => [Refresh a (fetch_cert read a) t]
  | Attempt rng _ _ _ t => [Sample rng t]
  | CertConn _ _ _ => []
  end.
Definition node_time (e : node_event) : Z :=
  match e with Fetch _ _ t | Attempt _ _ _ _ t | CertConn _ _ t => t end.

Fixpoint on_clock (t0 : Z) (es : list node_event) (now : Z) : Prop :=
  match es with
  | [] => t0 ≤ now
  | e :: es => t0 ≤ node_time e ∧ on_clock (node_time e) es now
  end.

Lemma on_clock_le t0 es now : on_clock t0 es now → t0 ≤ now.
Proof. revert t0. induction es as [|e es IH]; intros t0; cbn; [done|]. intros [? ?%IH]. lia. Qed.

Lemma on_clock_earlier t t' es now : t ≤ t' → on_clock t' es now → on_clock t es now.
Proof. destruct es; cbn; [lia|]. intros ? []. split; [lia|done]. Qed.

Lemma on_clock_in_order t0 es now : on_clock t0 es now → in_order t0 (es ≫= dir_event) now.
Proof.
  revert t0. induction es as [|e es IH]; intros t0; [done|]. intros [Ht He]. rewrite bind_cons.
  destruct e; cbn in *; [split; [done|by apply IH]..|]. apply IH. by eapply on_clock_earlier.
Qed.

Lemma on_clock_split t0 es1 e es2 now : on_clock t0 (es1 ++ e :: es2) now → on_clock t0 es1 (node_time e).
Proof. revert t0. induction es1 as [|e1 es1 IH]; intros t0; cbn; [by intros []|]. intros [? ?%IH]. done. Qed.

(** Until the ingress serves, its attempts are samples of the directory. *)
Lemma run_directory self own es n :
  ingress (run_node self own es n) = None →
  ingress n = None ∧ directory (run_node self own es n) = node_run self (es ≫= dir_event) (directory n).
Proof.
  revert n. induction es as [|e es IH] using rev_ind; intros n; [done|].
  unfold run_node. rewrite foldl_app. fold (run_node self own es n). cbn [foldl]. intros H.
  assert (ingress (run_node self own es n) = None) as H0.
  { destruct e; cbn in H; [done| |by destruct (accept_ok && is_some self)].
    destruct (ingress (run_node self own es n)) eqn:E; [|done]. congruence. }
  destruct (IH n H0) as [Hn Hd]. split; [done|].
  unfold node_run. rewrite bind_app, foldl_app. fold (node_run self (es ≫= dir_event) (directory n)).
  rewrite <- Hd. destruct e; cbn in *.
  - done.
  - by rewrite H0.
  - by destruct (accept_ok && is_some self).
Qed.

(** The proxy is the one some attempt opened. *)
Lemma ingress_opened self own es n s :
  ingress n = None → ingress (run_node self own es n) = Some s →
  ∃ es1 rng resolve connects ok t es2, es = es1 ++ Attempt rng resolve connects ok t :: es2 ∧
    ingress (run_node self own es1 n) = None ∧
    ingress_turn (fst (Directory.sample rng t (directory (run_node self own es1 n)))) resolve connects ok = Some s.
Proof.
  intros Hn. induction es as [|e es IH] using rev_ind; [intros H; cbn in H; congruence|].
  unfold run_node. rewrite foldl_app. fold (run_node self own es n). cbn [foldl]. intros H.
  destruct (ingress (run_node self own es n)) as [s'|] eqn:E.
  - assert (s' = s) as ->.
    { destruct e; cbn in H; [congruence|rewrite E in H; congruence|]. destruct (accept_ok && is_some self); cbn in H; congruence. }
    destruct (IH eq_refl) as (es1 & rng & resolve & cn & ok & t & es2 & -> & H1 & H2).
    exists es1, rng, resolve, cn, ok, t, (es2 ++ [e]). by rewrite <- app_assoc.
  - destruct e as [|rng resolve cn ok t|]; cbn in H; [congruence| |destruct (accept_ok && is_some self); cbn in H; congruence].
    rewrite E in H. exists es, rng, resolve, cn, ok, t, []. split_and!; [done|done|].
    exact H.
Qed.

(** Once the proxy is up it keeps its link: no later event, and no age of its
    gateway's entry, makes the node choose again. *)
Lemma ingress_never_moves self own es n s : ingress n = Some s → ingress (run_node self own es n) = Some s.
Proof.
  unfold run_node. revert n. induction es as [|e es IH]; intros n Hn; [done|]. apply IH.
  destruct e; cbn; [done|by rewrite Hn|by destruct (accept_ok && is_some self)].
Qed.

(** ** The last successful fetch, unfolded. *)
Lemma last_fetch_snoc a es e :
  last_fetch a (es ++ [e]) =
  match e with
  | Refresh b (Ok c) t => if decide (b = a) then Some (mkGatewayInfo a c t) else last_fetch a es
  | _ => last_fetch a es
  end.
Proof. unfold last_fetch. rewrite foldl_app. cbn. by destruct e as [b [c|] t|]. Qed.

Lemma last_fetch_event a es v :
  last_fetch a (es ≫= dir_event) = Some v →
  ∃ read, Fetch a read (last_seen v) ∈ es ∧ fetch_cert read a = Ok (Directory.cert v).
Proof.
  induction es as [|e es IH] using rev_ind; [done|]. rewrite bind_app. cbn. rewrite app_nil_r.
  assert (∀ read, Fetch a read (last_seen v) ∈ es → Fetch a read (last_seen v) ∈ es ++ [e]) as Hin
    by (intros; apply elem_of_app; by left).
  destruct e as [b read t|rng r cn ok t|]; cbn.
  - rewrite last_fetch_snoc. destruct (fetch_cert read b) as [c|] eqn:Ec; [case_decide as Hb|].
    + subst b. intros [= <-]. exists read. split; [|done]. apply elem_of_app. right. by left.
    + intros (rd & ? & ?)%IH. eauto.
    + intros (rd & ? & ?)%IH. eauto.
  - rewrite last_fetch_snoc. intros (rd & ? & ?)%IH. eauto.
  - rewrite app_nil_r. intros (rd & ? & ?)%IH. eauto.
Qed.

(** C40: an ingress only ever serves over a link pinned to what its gateway
    served.  Whatever the environment it is started in, and in every
    interleaving of its tasks, when the proxy is up some
    attempt dialled the front resolved for the gateway it sampled, pinned to the
    certificate listed for it.  If that gateway is another node, the certificate
    came from a fetch of that very address less than the time to live before,
    and it is the body of what the address answered; if it is the node itself
    (its own entry is sampled like any other), it is its own certificate, within
    one time to live of the start. *)
Theorem ingress_is_pinned_to_its_gateway (pr : profile) (itf : Z → option Z) (make_cert : option (bytes * bytes))
    (env : environment) (discovered : option IpAddr) (bridge_ok : bool)
    (t0 now : Z) (es : list node_event) (node : Gateway.Node) (st : started) (s : served) :
  main pr itf make_cert env discovered true true bridge_ok t0 = Ok (node, st) → on_clock t0 es now →
  ingress (run_node (role st) (Gateway.cert node) es (boot st)) = Some s →
  let a := Directory.addr (via s) in
  ∃ es1 rng resolve connects ok t es2, es = es1 ++ Attempt rng resolve connects ok t :: es2 ∧
    resolve a = Ok (front_addr s) ∧ connects (front_addr s) (pinned s) = true ∧
    (role st = Some a → pinned s = Gateway.cert node ∧ t < t0 + DIR_TTL) ∧
    (role st ≠ Some a → ∃ read t', Fetch a read t' ∈ es1 ∧ fetch_cert read a = Ok (pinned s) ∧
       t < t' + DIR_TTL ∧
       ∀ n b, read (fetch_request a) = Ok (cert_head n ++ b) → pinned s = b ∧ b ≠ []).
Proof.
  intros [cfg Hst]%main_started Hc H a.
  destruct (ingress_opened _ _ _ (boot st) _ eq_refl H) as (es1 & rng & resolve & cn & ok & t & es2 & -> & Hn & Ht).
  exists es1, rng, resolve, cn, ok, t, es2. destruct (run_directory _ _ _ _ Hn) as [_ Hd]. rewrite Hd in Ht.
  unfold ingress_turn in Ht. apply bind_Some in Ht as (g & Hg & Ht). apply sample_listed in Hg.
  apply bind_Some in Ht as (f & Hf & Ht). destruct (cn f (Directory.cert g) && ok) eqn:Eok; [|done].
  apply andb_true_iff in Eok as [Ecn _]. injection Ht as <-. cbn in *.
  apply on_clock_split, on_clock_in_order in Hc. cbn in Hc. split_and!; [done| |done| |].
  - revert Hf. subst a. cbn. destruct (resolve (Directory.addr g)); cbn; congruence.
  - intros Ha. apply (listed_self _ _ _ _ _ _ _ _ Hst Hc a g Ha eq_refl) in Hg as [Eg ?].
    by rewrite Eg.
  - intros Ha. apply (listed_peer _ _ _ _ _ _ _ _ Hst Hc a g Ha eq_refl) in Hg as [Hl Hage].
    apply last_fetch_event in Hl as (read & Hin & Hfetch). exists read, (last_seen g).
    split_and!; [done..|]. intros n b Hr. rewrite (fetched_cert_is_the_served_body _ _ _ _ Hr) in Hfetch.
    case_decide; [done|]. by injection Hfetch as <-.
Qed.

(** A promoted node that fetches a peer and then attempts; the peer is drawn. *)
Definition demo_peer : SocketAddr := SA4 (V4 68 183 148 148) 4433.
Definition demo_node_events : list node_event :=
  [CertConn true (bs "GET /cert HTTP/1.0") (from_secs 1);
   Fetch demo_self (λ _, Err Autopilot.ConnectFailed) (from_secs 2);
   Fetch demo_peer (λ _, Ok (cert_response (bs "peer"))) (from_secs 90);
   Attempt (λ _, 0%nat) Ok (λ _ _, false) true (from_secs 92);
   Attempt (λ _, 0%nat) Ok (λ _ _, true) true (from_secs 130)].

Definition demo_served : served :=
  mkServed (mkGatewayInfo demo_peer (bs "peer") (from_secs 90)) demo_peer (bs "peer").

Definition demo_env : environment :=
  λ v, if bool_decide (v = bs "QUICMIX_PUBLIC_IP") then Some (bs "64.226.93.43") else None.

Lemma ingress_is_pinned_to_its_gateway_witness :
  ∃ node st, main Release Some (Some (bs "mine", bs "key")) demo_env None true true false 0 = Ok (node, st) ∧
    role st = Some demo_self ∧
    ingress (run_node (role st) (Gateway.cert node) demo_node_events (boot st)) = Some demo_served ∧
    ∃ read t', Fetch demo_peer read t' ∈ demo_node_events ∧ fetch_cert read demo_peer = Ok (bs "peer").
Proof.
  eexists _, _. split; [by vm_compute|]. split; [by vm_compute|]. split; [by vm_compute|].
  destruct (ingress_is_pinned_to_its_gateway Release Some (Some (bs "mine", bs "key")) demo_env None false 0
    (from_secs 130) demo_node_events _ _ demo_served eq_refl)
    as (es1 & rng & rs & cn & ok & t & es2 & E & _ & _ & _ & H).
  - by vm_compute.
  - by vm_compute.
  - destruct H as (read & t' & Hin & Hf & _); [by vm_compute|].
    exists read, t'. split; [rewrite E; apply elem_of_app; by left|exact Hf].
Defined.
