(* ===== verification/MetricsWs.v ===== *)
(** * The live-metrics run: [crates/quicmix/src/metrics_ws.rs].

    What a run is asked for and where it dials, the page fetch carried over the
    link (URLs, redirects, HTTP responses, chunked bodies) and the bandwidth
    probe's reading loop.  The websocket, JSON and TLS are libraries; the bytes a
    stream answers are an argument. *)

From S2P Require Import Prelude RustFloat RustStr RustText Core Net ByteStream Tor Autopilot Selection.
Open Scope Z_scope.

Definition PROBE_CAP_BYTES : Z := 4 * 1024 * 1024.
Definition PROBE_CAP_TIME : Z := from_secs 5.
Definition PAGE_CAP : Z := 768 * 1024.

(** [resolve_gateway]. *)
Definition resolve_gateway (s : str) : option SocketAddr :=
  let s := trim s in
  let mapped := if decide (s = bs "fra1") then bs "64.226.93.43:4433"
                else if decide (s = bs "nyc3") then bs "68.183.148.148:4433" else s in
  match parse_socket_addr mapped with
  | Some a => Some a
  | None => ip ← parse_ip_addr mapped; Some (socket_addr ip 4433)
  end.

Definition tor_bridge_port (env : environment) : Z :=
  default 8443 (env (bs "QUICMIX_TOR_BRIDGE_PORT") ≫= parse_uint 16).
Definition tor_oracle : OracleParams := mkOracleParams 3 (from_millis 100) (S754_zero false) 0 1200.

(** Where the run's QUIC client dials: the gateway, or a front over a circuit to
    its stream bridge. *)
Inductive leg : Type := DirectLeg (a : SocketAddr) | TorLeg (bridge : str).
Definition leg_of (env : environment) (substrate : str) (gw : SocketAddr) : leg :=
  if decide (substrate = bs "tor")
  then TorLeg (show_ip (sa_ip gw) ++ bs ":" ++ show_uint (tor_bridge_port env))
  else DirectLeg gw.

Definition probe_size (env : environment) : Z :=
  default 3000000 (env (bs "QUICMIX_METRICS_PROBE_BYTES") ≫= parse_uint 64).

(** ** URLs. *)
Inductive scheme : Set := Http | Https.
#[global] Instance scheme_eq_dec : EqDecision scheme.
Proof. solve_decision. Defined.
Definition scheme_text (s : scheme) : str := match s with Http => bs "http" | Https => bs "https" end.
Definition default_port (s : scheme) : Z := match s with Http => 80 | Https => 443 end.

Definition split_url (url : str) : option (scheme * str * Z * str) :=
  let (sch, rest) :=
    match strip_prefix (bs "https://") url with
    | Some r => (Https, r)
    | None => match strip_prefix (bs "http://") url with
              | Some r => (Http, r)
              | None => (Https, url)
              end
    end in
  let (authority, path) :=
    match split_once (zb 47) rest with
    | Some (x, y) => (x, zb 47 :: y)
    | None => (rest, bs "/")
    end in
  let (host, port) :=
    match rsplit_once (zb 58) authority with
    | Some (h, p) => (h, default (default_port sch) (parse_uint 16 p))
    | None => (authority, default_port sch)
    end in
  if decide (host = []) then None else Some (sch, host, port, path).

Definition resolve_location (sch : scheme) (host loc : str) : str :=
  if starts_with (bs "http://") loc || starts_with (bs "https://") loc then loc
  else match strip_prefix (bs "/") loc with
  | Some stripped => scheme_text sch ++ bs "://" ++ host ++ bs "/" ++ stripped
  | None => scheme_text sch ++ bs "://" ++ host ++ bs "/" ++ loc
  end.

(** ** Responses. *)
Definition parse_header (l : str) : option (str * str) :=
  '(k, v) ← split_once (zb 58) l; Some (to_ascii_lowercase (trim k), trim v).

Definition parse_response (raw : bytes) : option (Z * list (str * str) * bytes) :=
  sep ← find_window CRLFCRLF raw;
  let body := drop (sep + 4) raw in
  let lines := split_str CRLF (from_utf8_lossy (take sep raw)) in
  let status := default [] (head lines) in
  let code := default 0 (split_whitespace status !! 1%nat ≫= parse_uint 16) in
  Some (code, omap parse_header (tail lines), body).

Definition header_value (hs : list (str * str)) (name : str) : option str :=
  '(_, (_, v)) ← list_find (λ kv, kv.1 = name) hs; Some (to_ascii_lowercase v).

(** ** Chunked bodies.  A task may panic: the position arithmetic of [usize]
    overflows (a checked build), or wraps below the slice's start (the slice
    panics).  [Endless]: still running after so many turns. *)
Inductive stop : Set := Panicked | Endless.

Definition chunk_size (line : bytes) : Z :=
  default 0 (from_str_radix 16 64
    (trim (default [] (head (split (zb 59) (trim (from_utf8_lossy line))))))).

Definition usize_max : Z := 2 ^ 64 - 1.

Fixpoint dechunk_loop (fuel : nat) (body : bytes) (i : nat) (out : bytes) : result stop bytes :=
  match fuel with
  | O => Err Endless
  | S fuel =>
      if negb (i <? length body)%nat then Ok out
      else match find_window CRLF (drop i body) with
      | None => Ok out
      | Some p =>
          let line_end := (i + p)%nat in
          let size := chunk_size (take p (drop i body)) in
          if size =? 0 then Ok out
          else
            let data_start := (line_end + 2)%nat in
            if usize_max <? Z.of_nat data_start + size then Err Panicked
            else
              let data_end := Z.to_nat (Z.min (Z.of_nat data_start + size) (Z.of_nat (length body))) in
              dechunk_loop fuel body (data_end + 2)
                (out ++ take (data_end - data_start) (drop data_start body))
      end
  end.
Definition dechunk (body : bytes) : result stop bytes := dechunk_loop (S (length body)) body 0 [].

(** ** The fetch. *)
Record Fetched := mkFetched {
  code : Z; fetched_body : bytes; content_type : str; final_url : str
}.
Inductive fetch_error : Type :=
| TooManyRedirects | EmptyHost | StreamFailed | NoHeaderEnd.

Definition page_request (host path : str) : bytes :=
  bs "GET " ++ path ++ bs " HTTP/1.1" ++ CRLF ++ bs "Host: " ++ host ++ CRLF ++
  bs "User-Agent: quicmix-demo/0.1" ++ CRLF ++ bs "Accept: text/html,*/*" ++ CRLF ++
  bs "Accept-Encoding: identity" ++ CRLF ++ bs "Connection: close" ++ CRLFCRLF.

Definition finish_page (url : str) (code : Z) (hs : list (str * str)) (body : bytes) :
    result stop (result fetch_error Fetched) :=
  let chunked := match header_value hs (bs "transfer-encoding") with
                 | Some v => is_some (find_window (bs "chunked") v) | None => false end in
  b ← (if chunked then dechunk body else Ok body);
  Ok (Ok (mkFetched code b (default [] (header_value hs (bs "content-type"))) url)).

Section Fetch.
(** A stream of the link: its target line, whether TLS runs over it, the request
    written; what [slurp] reads back ([None]: the stream, TLS or write failed). *)
Variable exchange : bytes → scheme → bytes → option bytes.

(** [redirects] is [4 - depth]. *)
Fixpoint fetch_loop (redirects : nat) (url : str) : result stop (result fetch_error Fetched) :=
  match redirects with
  | O => Ok (Err TooManyRedirects)
  | S k =>
      match split_url url with
      | None => Ok (Err EmptyHost)
      | Some (sch, host, port, path) =>
          match exchange (host ++ bs ":" ++ show_uint port ++ [LF]) sch (page_request host path) with
          | None => Ok (Err StreamFailed)
          | Some raw =>
              match parse_response raw with
              | None => Ok (Err NoHeaderEnd)
              | Some (code, hs, body) =>
                  match (if (300 <=? code) && (code <? 400) then header_value hs (bs "location") else None) with
                  | Some loc => fetch_loop k (resolve_location sch host loc)
                  | None => finish_page url code hs body
                  end
              end
          end
      end
  end.
Definition fetch_over_quicmix (url : str) : result stop (result fetch_error Fetched) := fetch_loop 4 url.
End Fetch.

(** [slurp]: what each read within its ten seconds returned. *)
Fixpoint slurp (cap : Z) (reads : list (option bytes)) (data : bytes) : bytes :=
  match reads with
  | Some (b :: buf) :: reads =>
      let data := data ++ b :: buf in
      if cap <=? Z.of_nat (length data) then data else slurp cap reads data
  | _ => data
  end.

(** The probe's reading loop: the bytes counted, given each read's size and the
    time since the start after it ([None]: end, error or six idle seconds). *)
Fixpoint probe_loop (reads : list (option Z * Z)) (body_bytes : Z) : Z :=
  match reads with
  | (Some n, elapsed) :: reads =>
      let body_bytes := body_bytes + n in
      if (PROBE_CAP_BYTES <=? body_bytes) || (PROBE_CAP_TIME <=? elapsed) then body_bytes
      else probe_loop reads body_bytes
  | _ => body_bytes
  end.

(** ** Hexadecimal sizes. *)
Lemma digit_hex d : 0 ≤ d < 16 → digit 16 (hex_digit d) = Some d.
Proof.
  intros Hd. pose proof (upto (λ d, bool_decide (digit 16 (hex_digit d) = Some d)) 16 d) as H.
  by apply (bool_decide_unpack _), Is_true_true, H; [vm_compute|lia].
Qed.

Lemma parse_show_hex_digits fuel n acc :
  0 ≤ n < 16 ^ Z.of_nat fuel → in_u 64 n →
  parse_digits 16 64 0 (show_hex_digits fuel n acc) = parse_digits 16 64 n acc.
Proof.
  revert n acc. induction fuel as [|fuel IH]; intros n acc Hn Hw.
  { simpl in Hn. replace n with 0 by lia. done. }
  rewrite Nat2Z.inj_succ, Z.pow_succ_r in Hn by lia. unfold in_u in *.
  pose proof (Z.mod_pos_bound n 16). pose proof (Z.div_mod n 16).
  cbn [show_hex_digits]. destruct (n <? 16) eqn:E.
  - cbn [parse_digits]. rewrite digit_hex by lia. simpl.
    rewrite Z.mod_small, decide_True by (unfold in_u; lia). done.
  - rewrite IH by lia. cbn [parse_digits]. rewrite digit_hex by lia. simpl.
    replace (n / 16 * 16 + n mod 16) with n by lia.
    by rewrite decide_True by (unfold in_u; lia).
Qed.

(** A byte of a hexadecimal number: a digit or a letter. *)
Definition is_hex (b : byte) : Prop := 48 ≤ bz b ≤ 57 ∨ 97 ≤ bz b ≤ 102.

#[global] Instance is_hex_dec b : Decision (is_hex b).
Proof. unfold is_hex; apply _. Defined.

Lemma hex_digit_hex d : 0 ≤ d < 16 → is_hex (hex_digit d).
Proof. intros. unfold is_hex, hex_digit. case_match; rewrite bz_zb by lia; lia. Qed.

Lemma show_hex_digits_hex fuel n acc :
  Forall is_hex acc → Forall is_hex (show_hex_digits fuel n acc).
Proof.
  revert n acc. induction fuel as [|fuel IH]; intros n acc Ha; simpl; [done|].
  pose proof (hex_digit_hex (n mod 16) (Z.mod_pos_bound n 16 ltac:(lia))).
  case_match; [|apply IH]; by constructor.
Qed.

Lemma show_hex_hex n : Forall is_hex (show_hex n).
Proof. by apply show_hex_digits_hex. Qed.

Lemma show_hex_digits_ne fuel n acc : show_hex_digits (S fuel) n acc ≠ [].
Proof.
  revert n acc. induction fuel as [|fuel IH]; intros n acc; cbn; case_match; try done. apply IH.
Qed.

Lemma is_hex_graphic b : is_hex b → graphic b.
Proof. unfold is_hex, graphic. lia. Qed.

Lemma is_hex_ne b c : is_hex b → bool_decide (is_hex c) = false → b ≠ c.
Proof. intros Hb Hc%bool_decide_eq_false ->. done. Qed.

Lemma parse_show_hex n : in_u 64 n → from_str_radix 16 64 (show_hex n) = Some n.
Proof.
  intros Hn. pose proof (show_hex_hex n) as Hh. unfold from_str_radix.
  destruct (show_hex n) as [|b l] eqn:E; [by destruct (show_hex_digits_ne 15 n [])|].
  rewrite decide_False.
  - rewrite <- E. unfold show_hex. rewrite parse_show_hex_digits; [done| |done].
    unfold in_u in Hn. change (16 ^ Z.of_nat 16) with (2 ^ 64). lia.
  - inversion Hh as [|? ? Hb]. subst. by apply is_hex_ne.
Qed.

(** The size line of a chunk. *)
Lemma chunk_size_hex n : in_u 64 n → chunk_size (show_hex n) = n.
Proof.
  intros Hn. pose proof (show_hex_hex n) as Hh.
  assert (Forall graphic (show_hex n)) as Hg by (eapply Forall_impl; [done|apply is_hex_graphic]).
  unfold chunk_size. rewrite utf8_lossy.
  2:{ apply utf8_ascii. eapply Forall_impl; [done|apply graphic_ascii]. }
  rewrite (trim_all_graphic (show_hex n)) by done.
  assert (head (split (zb 59) (show_hex n)) = Some (show_hex n)) as ->.
  { clear Hg. induction Hh as [|b l Hb Hl IH]; [done|]. cbn [split].
    rewrite decide_False by by apply is_hex_ne.
    destruct (split (zb 59) l); [done|]. cbn in *. congruence. }
  cbn [default from_option id]. by rewrite trim_all_graphic, parse_show_hex.
Qed.

Lemma chunk_size_nonneg l : 0 ≤ chunk_size l.
Proof.
  unfold chunk_size. destruct (from_str_radix _ _ _) as [v|] eqn:E; [|done].
  apply from_str_radix_range in E; [|lia]. apply E.
Qed.

(** ** Chunked encoding. *)
Definition chunk (c : bytes) : bytes := show_hex (Z.of_nat (length c)) ++ CRLF ++ c ++ CRLF.
Definition enchunk (cs : list bytes) : bytes := concat (chunk <$> cs) ++ bs "0" ++ CRLF.

Lemma find_size_line n r : find_window CRLF (show_hex n ++ CRLF ++ r) = Some (length (show_hex n)).
Proof.
  rewrite find_window_skip, find_window_here.
  - cbn. by rewrite Nat.add_0_r.
  - apply never_starts_notin. apply graphic_notin; [|left; by vm_compute].
    eapply Forall_impl; [apply show_hex_hex|apply is_hex_graphic].
Qed.

(** One chunk is one turn. *)
Lemma dechunk_turn fuel pre c rest out :
  c ≠ [] → Z.of_nat (length (pre ++ chunk c ++ rest)) ≤ usize_max →
  dechunk_loop (S fuel) (pre ++ chunk c ++ rest) (length pre) out =
    dechunk_loop fuel ((pre ++ chunk c) ++ rest) (length (pre ++ chunk c)) (out ++ c).
Proof.
  intros Hc Hl. rewrite (app_assoc pre) in *. set (body := (pre ++ chunk c) ++ rest) in *.
  assert (drop (length pre) body = chunk c ++ rest) as Hd
    by (unfold body; by rewrite <- app_assoc, drop_app_length).
  assert (length body = length pre + length (chunk c) + length rest)%nat as Hlen
    by (unfold body; rewrite !length_app; lia).
  clearbody body. pose proof (λ r, find_size_line (Z.of_nat (length c)) r) as Hf.
  pose proof (chunk_size_hex (Z.of_nat (length c))) as Hsz.
  unfold chunk in *. revert Hf Hsz Hd Hlen. generalize (show_hex (Z.of_nat (length c))) as h.
  intros h Hf Hsz Hd Hlen. rewrite <- !app_assoc in Hd. rewrite !length_app in *.
  change (length CRLF) with 2%nat in *.
  assert (0 < length c)%nat by (destruct c; [done|cbn; lia]).
  cbn [dechunk_loop]. rewrite (proj2 (Nat.ltb_lt _ _)) by lia. cbn [negb].
  rewrite Hd, Hf, take_app_length, Hsz by (unfold in_u, usize_max in *; lia).
  rewrite (proj2 (Z.eqb_neq _ _)) by lia.
  rewrite (proj2 (Z.ltb_ge _ _)) by lia.
  rewrite Z.min_l by lia. f_equal; [lia|f_equal].
  assert (drop (length pre + length h + 2) body = c ++ CRLF ++ rest) as ->.
  { rewrite <- Nat.add_assoc, <- drop_drop, Hd, <- drop_drop, drop_app_length. done. }
  replace (Z.to_nat _ - _)%nat with (length c) by lia. apply take_app_length.
Qed.

Lemma dechunk_chunks cs fuel pre rest out :
  Forall (λ c, c ≠ []) cs →
  Z.of_nat (length (pre ++ concat (chunk <$> cs) ++ rest)) ≤ usize_max →
  dechunk_loop (length cs + fuel) (pre ++ concat (chunk <$> cs) ++ rest) (length pre) out =
    dechunk_loop fuel (pre ++ concat (chunk <$> cs) ++ rest)
      (length (pre ++ concat (chunk <$> cs))) (out ++ concat cs).
Proof.
  intros Hcs. revert pre out. induction Hcs as [|c cs Hc _ IH]; intros pre out Hl.
  { cbn. by rewrite !app_nil_r. }
  rewrite fmap_cons in *. cbn [concat length Nat.add] in *. rewrite <- !(app_assoc (chunk c)) in *.
  rewrite dechunk_turn by done. rewrite (app_assoc pre (chunk c)) in *.
  rewrite IH by done. by rewrite <- !app_assoc.
Qed.

Lemma dechunk_last fuel pre rest out :
  dechunk_loop (S fuel) (pre ++ bs "0" ++ CRLF ++ rest) (length pre) out = Ok out.
Proof.
  cbn [dechunk_loop]. rewrite (proj2 (Nat.ltb_lt _ _)) by (rewrite !length_app; cbn; lia). cbn [negb].
  rewrite drop_app_length. change (bs "0") with (show_hex 0).
  rewrite find_size_line, take_app_length. by rewrite chunk_size_hex.
Qed.

(** Every turn moves past a line, so the turns allowed are enough, ... *)
Lemma dechunk_moves body i p size :
  find_window CRLF (drop i body) = Some p → 0 ≤ size → (i < length body)%nat →
  (length body - (Z.to_nat (Z.min (Z.of_nat (i + p + 2) + size) (Z.of_nat (length body))) + 2) < length body - i)%nat.
Proof.
  intros Ep Hs Hi. apply find_window_bound in Ep. rewrite length_drop in Ep. change (length CRLF) with 2%nat in Ep. lia.
Qed.

Lemma dechunk_ends f body i out : (length body - i < f)%nat → dechunk_loop f body i out ≠ Err Endless.
Proof.
  revert i out. induction f as [|f IH]; intros i out Hf; [lia|]. cbn [dechunk_loop].
  destruct (i <? length body)%nat eqn:Ei; [|done]. apply Nat.ltb_lt in Ei. cbn [negb].
  destruct (find_window CRLF (drop i body)) as [p|] eqn:Ep; [|done]. cbn zeta.
  destruct (chunk_size _ =? 0) eqn:E0; [done|]. destruct (usize_max <? _) eqn:Eo; [done|].
  apply IH. pose proof (dechunk_moves _ _ _ _ Ep (chunk_size_nonneg (take p (drop i body))) Ei). lia.
Qed.

(** ... and more of them change nothing. *)
Lemma dechunk_enough_fuel f f' body i out :
  (length body - i < f)%nat → (f ≤ f')%nat → dechunk_loop f' body i out = dechunk_loop f body i out.
Proof.
  revert f' i out. induction f as [|f IH]; intros f' i out Hf Hle; [lia|].
  destruct f' as [|f']; [lia|]. cbn [dechunk_loop].
  destruct (i <? length body)%nat eqn:Ei; [|done]. apply Nat.ltb_lt in Ei. cbn [negb].
  destruct (find_window CRLF (drop i body)) as [p|] eqn:Ep; [|done]. cbn zeta.
  destruct (chunk_size _ =? 0) eqn:E0; [done|]. destruct (usize_max <? _) eqn:Eo; [done|].
  apply IH; [|lia]. pose proof (dechunk_moves _ _ _ _ Ep (chunk_size_nonneg (take p (drop i body))) Ei). lia.
Qed.

Lemma dechunk_total body : dechunk body ≠ Err Endless.
Proof. apply dechunk_ends. lia. Qed.

(** A first size line so large that the position overflows. *)
Lemma dechunk_overflows n b :
  0 < n → in_u 64 n → usize_max < Z.of_nat (length (show_hex n)) + 2 + n → dechunk (show_hex n ++ CRLF ++ b) = Err Panicked.
Proof.
  intros Hp Hn Ho. pose proof (find_size_line n b) as Hf. pose proof (chunk_size_hex n Hn) as Hs.
  revert Hf Hs Ho. unfold dechunk. generalize (show_hex n) as h. intros h Hf Hs Ho. cbn [dechunk_loop].
  rewrite (proj2 (Nat.ltb_lt _ _)) by (rewrite !length_app; cbn; lia). cbn [negb Nat.add].
  rewrite drop_0, Hf, take_app_length, Hs. unfold in_u, usize_max in *.
  rewrite (proj2 (Z.eqb_neq _ _)) by lia. by rewrite (proj2 (Z.ltb_lt _ _)) by lia.
Qed.

(** C11: [dechunk] inverts chunked transfer coding: the chunks come back joined,
    whatever they contain and whatever follows the last one; and on any body at
    all its loop ends, within a turn per byte and one more.  A size at the end of
    [usize]'s range is a panic instead: an origin can end the run. *)
Theorem dechunk_inverts_chunking (cs : list bytes) (trailer b : bytes) (n : Z) :
  Forall (λ c, c ≠ []) cs → Z.of_nat (length (enchunk cs ++ trailer)) ≤ usize_max →
  usize_max - 2 < n ≤ usize_max →
  dechunk (enchunk cs ++ trailer) = Ok (concat cs) ∧
  (∀ body, dechunk body ≠ Err Endless) ∧
  dechunk (show_hex n ++ CRLF ++ b) = Err Panicked.
Proof.
  intros Hcs Hl Hn. split; [|split; [apply dechunk_total|]].
  - unfold enchunk in *. rewrite <- !app_assoc in *. unfold dechunk.
    pose proof (dechunk_chunks cs (S (length (concat (chunk <$> cs) ++ bs "0" ++ CRLF ++ trailer))) []
      (bs "0" ++ CRLF ++ trailer) [] Hcs Hl) as H. cbn [app length] in H.
    rewrite dechunk_last in H. rewrite <- H. symmetry. apply dechunk_enough_fuel; lia.
  - apply dechunk_overflows; unfold in_u, usize_max in *; lia.
Qed.

Lemma dechunk_inverts_chunking_witness :
  dechunk (enchunk [bs "hello "; bs "world"] ++ CRLF) = Ok (bs "hello world").
Proof.
  refine (proj1 (dechunk_inverts_chunking [bs "hello "; bs "world"] CRLF [] usize_max _ _ _)).
  - repeat constructor; done.
  - vm_compute. done.
  - by vm_compute.
Defined.

(** A redirect's path loses its case, and a port of its own. *)
Example redirect_case_lost : header_value [(bs "location", bs "/Ab")] (bs "location") = Some (bs "/ab").
Proof. reflexivity. Qed.
Example redirect_port_lost :
  resolve_location Https (bs "h") (bs "/x") = bs "https://h/x".
Proof. reflexivity. Qed.
Example split_url_port : split_url (bs "http://h:8080/p/q") = Some (Http, bs "h", 8080, bs "/p/q").
Proof. vm_compute. reflexivity. Qed.
