(* ===== verification/LiveRun.v ===== *)
(** * One live-metrics run, as the browser sees it:
    [handle] and [run_measure] of [crates/quicmix/src/metrics_ws.rs].

    The request read from the websocket, the link dialled directly or through a
    Tor circuit, and the frames sent back in order.  JSON text, the websocket and
    the network are libraries: their answers are arguments, and a frame is the
    JSON value given to [send_json].  One clock reading stands for the readings a
    turn of the probe loop takes. *)

From S2P Require Import Prelude Fallible RustFloat RustStr RustText Core Net ByteStream Tor Autopilot Selection MetricsWs.
Open Scope Z_scope.

(** ** [serde_json::Value].  [json!] of a float that is not finite is [null]. *)
Inductive json : Type :=
| JNull | JBool (b : bool) | JInt (z : Z) | JFloat (x : spec_float) | JStr (s : str)
| JArr (l : list json) | JObj (kvs : list (str * json)).

Definition js (s : string) : json := JStr (bs s).
Definition jf (x : spec_float) : json :=
  match x with S754_infinity _ | S754_nan => JNull | _ => JFloat x end.

Definition get (k : string) (v : json) : option json :=
  match v with JObj kvs => snd <$> (snd <$> list_find (λ kv, kv.1 = bs k) kvs) | _ => None end.
Definition as_str (v : json) : option str := match v with JStr s => Some s | _ => None end.
Definition field (k dflt : string) (v : json) : str := default (bs dflt) (get k v ≫= as_str).

(** ** Frames. *)
Inductive message : Type := Frame (v : json) | CloseFrame.

Record live_stats := mkLiveStats { l_rtt : Z; l_cwnd : Z; l_lost : Z; l_sent : Z }.

Definition millis_f64 (d : Z) : spec_float := fmul binary64 (as_secs_f64 d) (of_int binary64 1000).

Definition connected_frame (hs_ns : Z) (label : str) : json :=
  JObj [(bs "type", js "connected"); (bs "handshake_ms", jf (millis_f64 hs_ns)); (bs "substrate", JStr label)].
Definition egress_frame (ip : str) : json := JObj [(bs "type", js "egress"); (bs "ip", JStr ip)].
Definition error_frame (msg : str) : json := JObj [(bs "type", js "error"); (bs "msg", JStr msg)].

(** [chars().take(n)]: the first [n] scalar values of valid text. *)
Fixpoint take_chars (n : nat) (l : str) : str :=
  match n, l with
  | O, _ | _, [] => []
  | S n, l => let k := (utf8_step l).2 in take k l ++ take_chars n (drop k l)
  end.

Definition page_html (f : Fetched) : json :=
  if contains (bs "text/html") (content_type f)
  then JStr (take_chars (Z.to_nat PAGE_CAP) (from_utf8_lossy (fetched_body f))) else JNull.

Definition page_frame (f : Fetched) : json :=
  JObj [(bs "type", js "page"); (bs "code", JInt (code f));
        (bs "bytes", JInt (Z.of_nat (length (fetched_body f)))); (bs "url", JStr (final_url f));
        (bs "html", page_html f)].
Definition page_error_frame (url msg : str) : json :=
  JObj [(bs "type", js "page"); (bs "code", JInt 0); (bs "error", JStr msg); (bs "url", JStr url)].

(** A lower bound of a millisecond on every measured interval. *)
Definition floor_secs (x : spec_float) : spec_float := fmax x (lit binary64 1 1000).

Definition sample_frame (st : live_stats) (body_bytes : Z) (first : option Z) (now : Z) : json :=
  let secs := floor_secs (match first with Some f => as_secs_f64 (usat_sub now f) | None => S754_zero false end) in
  JObj [(bs "type", js "sample"); (bs "rtt_ms", jf (millis_f64 (l_rtt st)));
        (bs "throughput_bps", jf (fdiv binary64 (of_int binary64 body_bytes) secs));
        (bs "cwnd", JInt (l_cwnd st)); (bs "lost_packets", JInt (l_lost st)); (bs "sent_packets", JInt (l_sent st))].

Definition done_frame (st : live_stats) (code bytes : Z) (ttfb : spec_float) (body_bytes start : Z)
    (first : option Z) (now : Z) : json :=
  let secs := floor_secs (as_secs_f64 (usat_sub now (default start first))) in
  JObj [(bs "type", js "done"); (bs "rtt_ms", jf (millis_f64 (l_rtt st)));
        (bs "lost_packets", JInt (l_lost st)); (bs "sent_packets", JInt (l_sent st));
        (bs "fetch", JObj [(bs "code", JInt code); (bs "bytes", JInt bytes); (bs "ttfb", jf ttfb);
           (bs "total", jf (millis_f64 (usat_sub now start)));
           (bs "speed", jf (fdiv binary64 (of_int binary64 body_bytes) secs))])].

(** ** The run.  A computation sends frames and may fail. *)
Inductive live_error : Type :=
| WsFailed | BadJson | BadGateway | CertFailed (e : Autopilot.fetch_error)
| SocksUnreachable | CircuitFailed (e : tor_error) | FrontFailed (e : front_error)
| LinkFailed | SinkFailed | ProbeFailed
| Died (s : stop).                           (* no error of the code: the task panicked *)

Abbreviation M := (fallible (list message) live_error).

(** A turn of the probe: what [r.read] gave within its six seconds, when, and
    the connection's statistics then. *)
Record turn := mkTurn { got : option Z; at_time : Z; stats : live_stats }.

Record world := mkWorld {
  env : environment;
  cert_of : SocketAddr → result Autopilot.fetch_error bytes;
  socks : option (result io_error ());                       (* [tor_socks_reachable] *)
  circuit : str → result tor_error StreamDatagram.t;         (* [tor_stream_to] *)
  front_on : StreamDatagram.t → result front_error SocketAddr;
  links : SocketAddr → bytes → bool;                         (* [connect_via] *)
  handshake_ns : Z;
  exchange : bytes → scheme → bytes → option bytes;          (* a stream of the link *)
  ttfb_ns : Z;
  probes : bytes → bool;                                     (* [open_bi] and the probe's line *)
  started : Z;
  turns : list turn;
  ended_at : Z;
  end_stats : live_stats;
  show_error : live_error → str;
  show_fetch_error : MetricsWs.fetch_error → str;
  takes : nat → bool;                                        (* the websocket takes its [n]-th message *)
}.

Section Run.
Variable w : world.

Definition send (m : message) : M () := λ out,
  if takes w (length out) then (Ok (), out ++ [m]) else (Err SinkFailed, out).
Definition send_json (v : json) : M () := send (Frame v).

(** The front the client dials and its label. *)
Definition dial (gw : SocketAddr) (substrate : str) : result live_error (SocketAddr * str) :=
  match leg_of (env w) substrate gw with
  | DirectLeg a => Ok (a, bs "direct quicmix QUIC · 1 hop")
  | TorLeg bridge =>
      match socks w with
      | Some (Ok _) =>
          match circuit w bridge with
          | Err e => Err (CircuitFailed e)
          | Ok s =>
              match front_on w s with
              | Err e => Err (FrontFailed e)
              | Ok f => Ok (f, bs "tor (3-hop) → quicmix gateway " ++ show_ip (sa_ip gw))
              end
          end
      | _ => Err SocksUnreachable
      end
  end.

(** The probe's loop: the bytes counted and when the first one came. *)
Fixpoint probe (ts : list turn) (body_bytes : Z) (first : option Z) (last_sample : Z) : M (Z * option Z) :=
  match ts with
  | mkTurn (Some n) now st :: ts =>
      let first := match first with Some f => Some f | None => Some now end in
      let body_bytes := body_bytes + n in
      let stable := match first with Some f => from_millis 120 <=? usat_sub now f | None => false end in
      let due := stable && (from_millis 250 <=? usat_sub now last_sample) in
      _ ← (if due then send_json (sample_frame st body_bytes first now) else mret ());
      if (PROBE_CAP_BYTES <=? body_bytes) || (PROBE_CAP_TIME <=? usat_sub now (started w))
      then mret (body_bytes, first)
      else probe ts body_bytes first (if due then now else last_sample)
  | _ => mret (body_bytes, first)
  end.

Definition send_page (url : str) (page : result MetricsWs.fetch_error Fetched) : M () :=
  match page with
  | Ok f => send_json (page_frame f)
  | Err e => send_json (page_error_frame url (show_fetch_error w e))
  end.

Definition probe_line : bytes := bs "@measure " ++ show_uint (probe_size (env w)) ++ [LF].

Definition run_measure (gw : SocketAddr) (url substrate : str) : M () :=
  cert ← lift (map_err CertFailed (cert_of w gw));
  front ← lift (dial gw substrate);
  _ ← guard_ok (links w front.1 cert) LinkFailed;
  _ ← send_json (connected_frame (handshake_ns w) front.2);
  _ ← send_json (egress_frame (show_ip (sa_ip gw)));
  page ← lift (map_err Died (fetch_over_quicmix (exchange w) url));
  _ ← send_page url page;
  _ ← guard_ok (probes w probe_line) ProbeFailed;
  counted ← probe (turns w) 0 None (started w);
  let f := result_ok page in
  send_json (done_frame (end_stats w) (default 0 (code <$> f))
    (default 0 ((λ p, Z.of_nat (length (fetched_body p))) <$> f))
    (match f with Some _ => millis_f64 (ttfb_ns w) | None => S754_zero false end)
    counted.1 (started w) counted.2 (ended_at w)).

(** [handle], past the websocket handshake.  [first] is the first message;
    [parse] is [serde_json::from_str]. *)
Inductive inbound : Type := Text (t : str) | Closing | OtherMessage.

Definition handle (first : option (option inbound)) (parse : str → option json) :
    result live_error () * list message :=
  match first with
  | Some None => (Err WsFailed, [])
  | Some (Some (Text t)) =>
      match parse t with
      | None => (Err BadJson, [])
      | Some req =>
          match resolve_gateway (field "gateway" "" req) with
          | None => (Err BadGateway, [])
          | Some gw =>
              let url := field "url" "https://example.com" req in
              let substrate := to_ascii_lowercase (field "substrate" "direct" req) in
              match run_measure gw url substrate [] with
              | (Ok _, out) => (Ok (), (send CloseFrame out).2)
              | (Err (Died s), out) => (Err (Died s), out)
              | (Err e, out) => (Ok (), (send CloseFrame (send_json (error_frame (show_error w e)) out).2).2)
              end
          end
      end
  | _ => (Ok (), [])
  end.
End Run.

(** ** The frames' types, as the page that draws them reads them. *)
Inductive jty : Type :=
| TConst (s : string) | TStr | TInt | TNum | TOptStr | TObj (fields : list (string * jty)).

Fixpoint has_type (t : jty) (v : json) : bool :=
  match t, v with
  | TConst s, JStr s' => bool_decide (s' = bs s)
  | TStr, JStr _ | TInt, JInt _ | TNum, (JFloat _ | JNull) | TOptStr, (JStr _ | JNull) => true
  | TObj fields, JObj kvs =>
      (fix go (fields : list (string * jty)) (kvs : list (str * json)) : bool :=
         match fields, kvs with
         | [], [] => true
         | (k, t) :: fields, (k', v) :: kvs => bool_decide (k' = bs k) && has_type t v && go fields kvs
         | _, _ => false
         end) fields kvs
  | _, _ => false
  end.

Definition Connected : jty := TObj [("type", TConst "connected"); ("handshake_ms", TNum); ("substrate", TStr)]%string.
Definition Egress : jty := TObj [("type", TConst "egress"); ("ip", TStr)]%string.
Definition Page : jty :=
  TObj [("type", TConst "page"); ("code", TInt); ("bytes", TInt); ("url", TStr); ("html", TOptStr)]%string.
Definition PageError : jty := TObj [("type", TConst "page"); ("code", TInt); ("error", TStr); ("url", TStr)]%string.
Definition Sample : jty :=
  TObj [("type", TConst "sample"); ("rtt_ms", TNum); ("throughput_bps", TNum); ("cwnd", TInt);
        ("lost_packets", TInt); ("sent_packets", TInt)]%string.
Definition Done : jty :=
  TObj [("type", TConst "done"); ("rtt_ms", TNum); ("lost_packets", TInt); ("sent_packets", TInt);
        ("fetch", TObj [("code", TInt); ("bytes", TInt); ("ttfb", TNum); ("total", TNum); ("speed", TNum)])]%string.
Definition Error : jty := TObj [("type", TConst "error"); ("msg", TStr)]%string.

(** ** The protocol of a run. *)
Inductive phase : Set := Fresh | Linked | Exited | Paged | Finished | Failed | Closed.

#[global] Instance phase_eq_dec : EqDecision phase.
Proof. solve_decision. Defined.

Definition running (p : phase) : bool :=
  match p with Fresh | Linked | Exited | Paged => true | _ => false end.

Definition next (p : phase) (m : message) : option phase :=
  match m with
  | CloseFrame => if decide (p = Closed) then None else Some Closed
  | Frame v =>
      if running p && has_type Error v then Some Failed
      else match p with
      | Fresh => if has_type Connected v then Some Linked else None
      | Linked => if has_type Egress v then Some Exited else None
      | Exited => if has_type Page v || has_type PageError v then Some Paged else None
      | Paged => if has_type Sample v then Some Paged else if has_type Done v then Some Finished else None
      | _ => None
      end
  end.

Definition phase_of (out : list message) : option phase :=
  foldl (λ p m, p ≫= λ p, next p m) (Some Fresh) out.

Lemma phase_of_snoc out m : phase_of (out ++ [m]) = phase_of out ≫= λ p, next p m.
Proof. unfold phase_of. by rewrite foldl_app. Qed.

Definition at_phase (p : phase) (out : list message) : Prop := phase_of out = Some p.
Definition unfinished (out : list message) : Prop := ∃ p, at_phase p out ∧ running p = true.

(** How a run stops short: at an error with the frames not finished, or, dead
    with no further frame, where the page's chunked body made [dechunk] panic. *)
Definition cut_short (w : world) (url : str) (e : live_error) (out : list message) : Prop :=
  match e with
  | Died s => s = Panicked ∧ at_phase Exited out ∧ fetch_over_quicmix (exchange w) url = Err Panicked
  | _ => unfinished out
  end.

#[local] Abbreviation spec w url P m Q := (triple P m Q (cut_short w url)).

Lemma spec_lift {A F} w url p (f : F → live_error) (r : result F A) :
  running p = true → (∀ e s, f e ≠ Died s) → spec w url (at_phase p) (lift (map_err f r)) (λ _, at_phase p).
Proof.
  intros Hp Hf out Ho. unfold lift. destruct r as [a|e]; [done|]. cbn. specialize (Hf e).
  destruct (f e) as [| | | | | | | | | |s] eqn:E; try (by exists p). by destruct (Hf s).
Qed.

Lemma spec_guard w url p b e :
  running p = true → (∀ s, e ≠ Died s) → spec w url (at_phase p) (guard_ok b e) (λ _, at_phase p).
Proof.
  intros Hp He out Ho. unfold guard_ok. destruct b; [done|]. cbn.
  destruct e as [| | | | | | | | | |s]; try (by exists p). by destruct (He s).
Qed.

Lemma spec_send w url p v p' :
  running p = true → next p (Frame v) = Some p' →
  spec w url (at_phase p) (send_json w v) (λ _ out, at_phase p' out ∧ ∃ pre, out = pre ++ [Frame v] ∧ at_phase p pre).
Proof.
  intros Hr Hn out Hp. unfold send_json, send. destruct (takes w (length out)); [|by exists p].
  split; [|eauto]. unfold at_phase in *. by rewrite phase_of_snoc, Hp.
Qed.

Lemma spec_send_at w url p v p' :
  running p = true → next p (Frame v) = Some p' → spec w url (at_phase p) (send_json w v) (λ _, at_phase p').
Proof. intros. eapply triple_post; [by apply (spec_send w url p v p')|]. by intros _ out [? _]. Qed.

(** ** Every frame has its type. *)
Lemma jf_num x : has_type TNum (jf x) = true.
Proof. by destruct x. Qed.

(** A frame's type does not depend on its numbers. *)
Ltac typed :=
  repeat match goal with |- context [jf ?x] =>
    let H := fresh in pose proof (jf_num x) as H; revert H; generalize (jf x) end;
  intros; repeat match goal with x : json |- _ => destruct x; try done end.

Lemma connected_typed ns l : next Fresh (Frame (connected_frame ns l)) = Some Linked.
Proof. unfold connected_frame. typed. Qed.

Lemma page_typed f : next Exited (Frame (page_frame f)) = Some Paged.
Proof. unfold page_frame, page_html. by case_match. Qed.

Lemma sample_typed st b f now : next Paged (Frame (sample_frame st b f now)) = Some Paged.
Proof. unfold sample_frame. cbn zeta. typed. Qed.

Lemma done_typed st c b t n s f now : next Paged (Frame (done_frame st c b t n s f now)) = Some Finished.
Proof. unfold done_frame. cbn zeta. typed. Qed.

Lemma error_typed p msg : running p = true → next p (Frame (error_frame msg)) = Some Failed.
Proof. by destruct p. Qed.

#[local] Hint Resolve connected_typed page_typed sample_typed done_typed error_typed : live.

(** ** The run keeps to the protocol. *)
Definition counted (w : world) (ts : list turn) (b : Z) : Z :=
  probe_loop ((λ t, (got t, usat_sub (at_time t) (started w))) <$> ts) b.

Lemma probe_spec w url ts b f l :
  spec w url (at_phase Paged) (probe w ts b f l) (λ r out, at_phase Paged out ∧ r.1 = counted w ts b).
Proof.
  unfold counted. revert b f l.
  induction ts as [|[[n|] now st] ts IH]; intros b f l; cbn [probe]; [by apply triple_ret| |by apply triple_ret].
  eapply (triple_bind _ _ _ (λ _, at_phase Paged)).
  - case_match; [|by apply triple_ret]. apply spec_send_at; auto with live.
  - intros _. cbn [fmap list_fmap probe_loop got at_time].
    case_match; [by apply triple_ret|apply IH].
Qed.

Definition finished (w : world) (out : list message) : Prop :=
  ∃ pre c b t f, at_phase Paged pre ∧
    out = pre ++ [Frame (done_frame (end_stats w) c b t (counted w (turns w) 0) (started w) f (ended_at w))].

Lemma done_spec w url n c b t f :
  n = counted w (turns w) 0 →
  spec w url (at_phase Paged)
    (send_json w (done_frame (end_stats w) c b t n (started w) f (ended_at w))) (λ _, finished w).
Proof.
  intros ->. eapply triple_post; [apply spec_send; auto with live|].
  intros _ out (_ & pre & -> & Hpre). by repeat eexists.
Qed.

(** The page's fetch ends, so what stops it is a panic. *)
Lemma finish_page_total url c hs body : finish_page url c hs body ≠ Err Endless.
Proof.
  unfold finish_page. cbn zeta. case_match; [|done].
  pose proof (dechunk_total body). by destruct (dechunk body) as [|[]].
Qed.

Lemma fetch_loop_total ex k url : fetch_loop ex k url ≠ Err Endless.
Proof.
  revert url. induction k as [|k IH]; intros url; [done|]. cbn [fetch_loop].
  repeat (case_match; try done); auto using finish_page_total.
Qed.

Lemma fetch_spec w url :
  spec w url (at_phase Exited) (lift (map_err Died (fetch_over_quicmix (exchange w) url))) (λ _, at_phase Exited).
Proof.
  intros out Ho. unfold lift. destruct (fetch_over_quicmix (exchange w) url) as [a|[]] eqn:E; [done|done|].
  by destruct (fetch_loop_total (exchange w) 4 url).
Qed.

Lemma dial_lives w gw sub s : dial w gw sub ≠ Err (Died s).
Proof. unfold dial. by repeat case_match. Qed.

Lemma spec_dial w url p gw sub :
  running p = true → spec w url (at_phase p) (lift (dial w gw sub)) (λ _, at_phase p).
Proof.
  intros Hp out Ho. unfold lift. pose proof (dial_lives w gw sub) as Hd.
  destruct (dial w gw sub) as [a|e]; [done|]. destruct e as [| | | | | | | | | |s]; try (by exists p).
  by destruct (Hd s).
Qed.

Lemma run_measure_spec w gw url substrate :
  spec w url (at_phase Fresh) (run_measure w gw url substrate) (λ _, finished w).
Proof.
  unfold run_measure.
  eapply triple_bind; [by apply spec_lift|intros cert; cbn beta].
  eapply triple_bind; [by apply spec_dial|intros front; cbn beta].
  eapply triple_bind; [by apply spec_guard|intros ?; cbn beta].
  eapply triple_bind; [apply spec_send_at; auto with live|intros ?; cbn beta].
  eapply triple_bind; [by apply (spec_send_at w url Linked _ Exited)|intros ?; cbn beta].
  eapply triple_bind; [apply fetch_spec|intros page; cbn beta].
  eapply (triple_bind _ _ _ (λ _, at_phase Paged)).
  { unfold send_page. case_match; apply spec_send_at; auto with live. }
  intros _. eapply triple_bind; [by apply spec_guard|intros ?; cbn beta].
  eapply triple_bind; [apply probe_spec|]. intros [n f] out Hpn. destruct Hpn as [Hp Hn].
  by apply (done_spec w url n _ _ _ f Hn out Hp).
Qed.

(** The end of a run whose task lived: [done], or an [error], then the close. *)
Definition rounded_off (w : world) (out : list message) : Prop :=
  ∃ pre v, out = pre ++ [Frame v; CloseFrame] ∧
    ((∃ e, v = error_frame (show_error w e) ∧ unfinished pre) ∨ finished w (pre ++ [Frame v])).

(** The end of one whose task died in [dechunk], with the connection dropped. *)
Definition died_at (w : world) (url : str) (out : list message) : Prop :=
  at_phase Exited out ∧ fetch_over_quicmix (exchange w) url = Err Panicked.

Lemma finished_phase w out : finished w out → at_phase Finished out.
Proof.
  intros (pre & c & b & t & f & Hpre & ->). unfold at_phase. rewrite phase_of_snoc, Hpre. apply done_typed.
Qed.

(** Closing after [done], ... *)
Lemma close_done w out :
  finished w out → let out' := (send w CloseFrame out).2 in
  (∃ p, phase_of out' = Some p) ∧ ((∀ n, takes w n = true) → rounded_off w out').
Proof.
  intros Hf. pose proof (finished_phase w out Hf) as Hp. unfold send. cbn zeta. split.
  - destruct (takes w _); cbn [snd]; [|by exists Finished]. exists Closed. by rewrite phase_of_snoc, Hp.
  - intros Ht. rewrite Ht. cbn [snd]. destruct Hf as (pre & c & b & t & f & Hpre & ->). eexists pre, _.
    split; [by rewrite <- app_assoc|]. right. by repeat eexists.
Qed.

(** ... and after an [error]. *)
Lemma close_error w e out :
  unfinished out → let out' := (send w CloseFrame (send_json w (error_frame (show_error w e)) out).2).2 in
  (∃ p, phase_of out' = Some p) ∧ ((∀ n, takes w n = true) → rounded_off w out').
Proof.
  intros (p & Hp & Hr). unfold send_json, send. cbn zeta.
  assert (at_phase Failed (out ++ [Frame (error_frame (show_error w e))]))
    as He by (unfold at_phase; rewrite phase_of_snoc, Hp; by apply error_typed).
  split.
  - destruct (takes w (length out)); cbn [snd]; (destruct (takes w _); [exists Closed|]); cbn [snd]; eauto.
    + by rewrite phase_of_snoc, He.
    + rewrite phase_of_snoc, Hp. by destruct p.
  - intros Ht. rewrite Ht. cbn [snd]. rewrite Ht. cbn [snd]. eexists out, _.
    split; [by rewrite <- app_assoc|]. left. exists e. split; [done|by exists p].
Qed.

(** C19: what the browser is sent.  Every frame of a run has exactly the fields
    and types of its place in the protocol, in order: [connected], [egress],
    [page], any number of [sample]s, [done]; a run that fails sends one [error]
    instead of what was left, never a [done].  While the websocket takes every
    message, a served request ends with [done] or [error] and then the close, and
    the speed [done] reports is that of the bytes the probe counted; the one other
    end is the one a page's origin can force: its chunked body makes [dechunk]
    panic, the task dies, and after [connected] and [egress] the browser gets
    neither a page, nor [done], nor [error], nor a close. *)
Theorem live_run_speaks_its_protocol w first parse r out :
  handle w first parse = (r, out) →
  (∃ p, phase_of out = Some p) ∧
  ((∀ n, takes w n = true) → out ≠ [] →
     (r = Ok () ∧ rounded_off w out) ∨ (r = Err (Died Panicked) ∧ ∃ url, died_at w url out)).
Proof.
  unfold handle. intros H. assert (phase_of [] = Some Fresh) as H0 by done.
  destruct first as [[[t| |]|]|]; try (injection H as <- <-; split; [by exists Fresh|done]).
  destruct (parse t) as [req|]; [|injection H as <- <-; split; [by exists Fresh|done]].
  destruct (resolve_gateway _) as [gw|]; [|injection H as <- <-; split; [by exists Fresh|done]].
  cbn zeta in H. revert H. generalize (field "url" "https://example.com" req) as url. intros url H.
  pose proof (run_measure_spec w gw url (to_ascii_lowercase (field "substrate" "direct" req)) [] H0) as Hrun.
  destruct (run_measure _ _ _ _ _) as [[[]|e] o].
  - injection H as <- <-. destruct (close_done w o Hrun). eauto.
  - assert ((∃ s, e = Died s) ∨ (unfinished o ∧ (r, out) =
      (Ok (), (send w CloseFrame (send_json w (error_frame (show_error w e)) o).2).2))) as [[s ->]|[Ho E]]
      by (destruct e; eauto).
    + injection H as <- <-. destruct Hrun as (-> & Hp & Hf). split; [by exists Exited|]. right. split; [done|by exists url].
    + injection E as -> ->. destruct (close_error w e o Ho). eauto.
Qed.

(** ** A run against [fra1], its page and one probe read. *)
Definition demo_stats : live_stats := mkLiveStats (from_millis 30) 14720 0 40.
Definition demo_world : world :=
  mkWorld (λ _, None) (λ _, Ok (bs "cert")) None (λ _, Err (TorHost NoColon)) (λ _, Err SpawnFailed) (λ _ _, true)
    (from_millis 90) (λ _ _ _, Some (bs "HTTP/1.1 200 OK" ++ CRLF ++ CRLF ++ bs "hi"))
    (from_millis 60) (λ _, true) 0
    [mkTurn (Some 65536) (from_millis 10) demo_stats; mkTurn (Some 65536) (from_millis 300) demo_stats;
     mkTurn None (from_millis 320) demo_stats]
    (from_millis 320) demo_stats (λ _, bs "failed") (λ _, bs "fetch failed") (λ _, true).
Definition demo_request : json := JObj [(bs "gateway", js "fra1")].
Definition demo_run : result live_error () * list message :=
  handle demo_world (Some (Some (Text (bs "{gateway: fra1}")))) (λ _, Some demo_request).

Lemma live_run_speaks_its_protocol_witness :
  demo_run.1 = Ok () ∧ length demo_run.2 = 6%nat ∧ ∃ pre v,
    demo_run.2 = pre ++ [Frame v; CloseFrame] ∧ finished demo_world (pre ++ [Frame v]).
Proof.
  assert (demo_run.1 = Ok ()) as Hr by (by vm_compute).
  split; [exact Hr|]. split; [by vm_compute|].
  destruct (live_run_speaks_its_protocol demo_world _ _ demo_run.1 demo_run.2 (surjective_pairing demo_run))
    as (_ & H).
  destruct H as [[_ (pre & v & He & H)]|[H _]]; [done|by vm_compute| |rewrite Hr in H; discriminate H].
  exists pre, v. split; [exact He|]. destruct H as [(e & Hv & _)|H]; [|exact H].
  exfalso. rewrite Hv in He.
  apply (f_equal (λ l, nth 1 (rev l) CloseFrame)) in He. rewrite rev_app_distr in He. by vm_compute in He.
Defined.

(** An origin that kills the run: its first size line is [usize::MAX]. *)
Definition hostile_world : world :=
  mkWorld (λ _, None) (λ _, Ok (bs "cert")) None (λ _, Err (TorHost NoColon)) (λ _, Err SpawnFailed) (λ _ _, true)
    (from_millis 90)
    (λ _ _ _, Some (bs "HTTP/1.1 200 OK" ++ CRLF ++ bs "transfer-encoding: chunked" ++ CRLF ++ CRLF
                    ++ bs "ffffffffffffffff" ++ CRLF ++ bs "x"))
    (from_millis 60) (λ _, true) 0 [] (from_millis 320) demo_stats (λ _, bs "failed") (λ _, bs "fetch failed") (λ _, true).

Example hostile_page_kills_run :
  let run := handle hostile_world (Some (Some (Text (bs "{gateway: fra1}")))) (λ _, Some demo_request) in
  run.1 = Err (Died Panicked) ∧ length run.2 = 2%nat ∧ phase_of run.2 = Some Exited.
Proof. vm_compute. by repeat split. Qed.
