(* ===== verification/Emulator.v ===== *)
(** * The mixnet emulator: [crates/quicmix-eval/src/emulator.rs].

    One-way datagram pipe: base drop and random delay per datagram, then a
    finite egress buffer drained one cell per slot.  The random draws, the
    natural logarithm and the clock are arguments; the two stages, the delay
    tasks and the callers interleave step by step. *)

From S2P Require Import Prelude RustFloat Core.
From Stdlib Require Import Sorting.Permutation.
Open Scope Z_scope.

Record EmulatedMixnet := mkEmulated {
  params : OracleParams;
  max_queue : Z;
  in_open : bool;                (** the handle's [in_tx] *)
  in_q : list bytes;             (** stage 1's input *)
  sleeping : list (Z * bytes);   (** delay tasks: when they wake, what they carry *)
  ready : list bytes;            (** between the stages *)
  q : list bytes;                (** the egress buffer *)
  closed : bool;
  stage2 : bool;                 (** stage 2 still runs *)
  out : list bytes;
}.

Definition USIZE_MAX : Z := 2 ^ 64 - 1.

Definition with_queue (p : OracleParams) (max_queue : Z) : EmulatedMixnet :=
  mkEmulated p max_queue true [] [] [] [] false true [].
Definition new (p : OracleParams) : EmulatedMixnet := with_queue p USIZE_MAX.

Section Stages.
(** [f64::ln]. *)
Variable ln : spec_float → spec_float.

(** Stage 1's delay: the sum over the hops of [-mean * ln(max(u, 1e-12))];
    [None] is the panic of [from_secs_f64]. *)
Definition hop_secs (p : OracleParams) (us : list spec_float) : spec_float :=
  foldl (λ secs u,
    fadd binary64 secs
      (fmul binary64 (SFopp (as_secs_f64 (mean_hop_delay p)))
         (ln (fmax u (lit binary64 1 1000000000000)))))
    (S754_zero false) us.
Definition hop_delay (p : OracleParams) (us : list spec_float) : option Z :=
  from_secs_f64 (hop_secs p us).

Inductive op : Type :=
| Send (d : bytes)
| Stage1 (u0 : spec_float) (us : list spec_float) (now : Z)
| Wake (i : nat) (now : Z)
| Ready2                      (** stage 2 takes a ready datagram *)
| ReadyClosed                 (** stage 2 learns that no more will come *)
| Tick
| Recv
| DropHandle.

Inductive obs : Type :=
| Sent (d : bytes) | BaseDropped (d : bytes) | TailDropped (d : bytes) | Received (d : bytes) | Quiet.

Definition set (s : EmulatedMixnet) (i : list bytes) (sl : list (Z * bytes)) (r b o : list bytes) :
    EmulatedMixnet :=
  mkEmulated (params s) (max_queue s) (in_open s) i sl r b (closed s) (stage2 s) o.

Definition exec (o : op) (s : EmulatedMixnet) : option (obs * EmulatedMixnet) :=
  match o with
  | Send d =>
      if in_open s then Some (Sent d, set s (in_q s ++ [d]) (sleeping s) (ready s) (q s) (out s)) else None
  | Stage1 u0 us now =>
      match in_q s with
      | [] => None
      | dg :: i =>
          if negb (length us =? Z.to_nat (hops (params s)))%nat then None
          else
            delay ← hop_delay (params s) us;
            if SFltb u0 (drop_prob (params s))
            then Some (BaseDropped dg, set s i (sleeping s) (ready s) (q s) (out s))
            else Some (Quiet, set s i (sleeping s ++ [(now + delay, dg)]) (ready s) (q s) (out s))
      end
  | Wake k now =>
      '(t, dg) ← sleeping s !! k;
      if t <=? now
      then Some (Quiet, set s (in_q s) (delete k (sleeping s)) (ready s ++ [dg]) (q s) (out s))
      else None
  | Ready2 =>
      if negb (stage2 s) then None else
      match ready s with
      | [] => None
      | dg :: r =>
          if slot_interval (params s) =? 0
          then Some (Quiet, set s (in_q s) (sleeping s) r (q s) (out s ++ [dg]))
          else if Z.of_nat (length (q s)) <? max_queue s
          then Some (Quiet, set s (in_q s) (sleeping s) r (q s ++ [dg]) (out s))
          else Some (TailDropped dg, set s (in_q s) (sleeping s) r (q s) (out s))
      end
  | ReadyClosed =>
      if stage2 s && negb (in_open s) && bool_decide (in_q s = []) && bool_decide (sleeping s = [])
         && bool_decide (ready s = [])
      then Some (Quiet, mkEmulated (params s) (max_queue s) (in_open s) [] [] [] (q s) true
             (negb (slot_interval (params s) =? 0)) (out s))
      else None
  | Tick =>
      if negb (stage2 s) || (slot_interval (params s) =? 0) then None else
      match q s with
      | dg :: b => Some (Quiet, set s (in_q s) (sleeping s) (ready s) b (out s ++ [dg]))
      | [] =>
          Some (Quiet, mkEmulated (params s) (max_queue s) (in_open s) (in_q s) (sleeping s) (ready s) []
             (closed s) (negb (closed s)) (out s))
      end
  | Recv =>
      match out s with
      | [] => None
      | dg :: o => Some (Received dg, set s (in_q s) (sleeping s) (ready s) (q s) o)
      end
  | DropHandle =>
      Some (Quiet, mkEmulated (params s) (max_queue s) false (in_q s) (sleeping s) (ready s) (q s)
         (closed s) (stage2 s) (out s))
  end.

Fixpoint run (os : list op) (s : EmulatedMixnet) : option (list obs * EmulatedMixnet) :=
  match os with
  | [] => Some ([], s)
  | o :: os => '(b, s) ← exec o s; '(bs, s) ← run os s; Some (b :: bs, s)
  end.

(** ** Conservation. *)
Definition pick (f : obs → option bytes) (tr : list obs) : list bytes := omap f tr.
Definition is_sent (o : obs) : option bytes := match o with Sent d => Some d | _ => None end.
Definition is_base (o : obs) : option bytes := match o with BaseDropped d => Some d | _ => None end.
Definition is_tail (o : obs) : option bytes := match o with TailDropped d => Some d | _ => None end.
Definition is_received (o : obs) : option bytes := match o with Received d => Some d | _ => None end.

Definition inside (s : EmulatedMixnet) : list bytes :=
  in_q s ++ (snd <$> sleeping s) ++ ready s ++ q s ++ out s.

(** The datagrams a step takes out of the pipe, and puts in. *)
Definition removed (o : obs) : list bytes :=
  match o with BaseDropped d | TailDropped d | Received d => [d] | _ => [] end.
Definition added (o : obs) : list bytes := match o with Sent d => [d] | _ => [] end.

Lemma delete_perm {A} (l : list A) k x : l !! k = Some x → Permutation l (x :: delete k l).
Proof. apply delete_Permutation. Qed.

Ltac perm := simpl; rewrite ?fmap_app; simpl; solve_Permutation.

Record emu_ok (s : EmulatedMixnet) : Prop := {
  eo_cap : Z.of_nat (length (q s)) ≤ Z.max 0 (max_queue s);
  eo_pass : slot_interval (params s) = 0 → q s = [];
}.

Lemma exec_conserves o s b s' :
  emu_ok s → exec o s = Some (b, s') →
  Permutation (added b ++ inside s) (removed b ++ inside s') ∧ emu_ok s' ∧
  params s' = params s ∧ max_queue s' = max_queue s ∧
  (slot_interval (params s) = 0 → is_tail b = None).
Proof.
  intros [Hcap Hpass] Hx. destruct o as [d|u0 us now|k now| | | | |]; simpl in Hx.
  - destruct (in_open s); [|done]. injection Hx as <- <-. split_and!; [|by split|done..]. perm.
  - destruct (in_q s) as [|dg i] eqn:Ei; [done|]. destruct (negb _); [done|].
    apply bind_Some in Hx as (delay & _ & Hx).
    destruct (SFltb _ _); injection Hx as <- <-; (split_and!; [|by split|done..]); unfold inside;
      rewrite Ei; perm.
  - apply bind_Some in Hx as ([t dg] & Hk & Hx). destruct (t <=? now); [|done]. injection Hx as <- <-.
    split_and!; [|by split|done..]. unfold inside.
    rewrite (delete_perm _ _ _ Hk) at 1. perm.
  - destruct (stage2 s); [simpl in Hx|done]. destruct (ready s) as [|dg r] eqn:Er; [done|].
    destruct (Z.eqb_spec (slot_interval (params s)) 0) as [E|E];
      [|destruct (Z.ltb_spec (Z.of_nat (length (q s))) (max_queue s))];
      injection Hx as <- <-; unfold inside; rewrite Er.
    + split_and!; [perm|by split|done..].
    + split_and!; [perm|split; simpl; [rewrite length_app; simpl; lia|done]|done..].
    + split_and!; [perm|by split|done..].
  - destruct (_ && _) eqn:E in Hx; [|done]. injection Hx as <- <-.
    rewrite !andb_true_iff, !bool_decide_eq_true in E. destruct E as ((((_ & _) & E1) & E2) & E3).
    unfold inside. simpl. rewrite E1, E2, E3. split_and!; [done|by split|done..].
  - destruct (negb (stage2 s) || _) eqn:E; [done|]. apply orb_false_iff in E as [_ E%Z.eqb_neq].
    destruct (q s) as [|dg b0] eqn:Eq; injection Hx as <- <-; unfold inside; rewrite Eq.
    + split_and!; [perm|split; simpl; [lia|done]|done..].
    + split_and!; [perm|split; simpl; [simpl in Hcap; lia|done]|done..].
  - destruct (out s) as [|dg o] eqn:Eo; [done|]. injection Hx as <- <-.
    split_and!; [|by split|done..]. unfold inside. rewrite Eo. perm.
  - injection Hx as <- <-. split_and!; [done|by split|done..].
Qed.
End Stages.

Definition gone (tr : list obs) : list bytes :=
  omap is_base tr ++ omap is_tail tr ++ omap is_received tr.

Lemma removed_perm b tr : Permutation (gone (b :: tr)) (removed b ++ gone tr).
Proof. unfold gone. destruct b; simpl; solve_Permutation. Qed.

Lemma added_sent b tr : omap is_sent (b :: tr) = added b ++ omap is_sent tr.
Proof. by destruct b. Qed.

Lemma run_conserves ln os s tr s' :
  emu_ok s → run ln os s = Some (tr, s') →
  Permutation (omap is_sent tr ++ inside s) (gone tr ++ inside s') ∧ emu_ok s' ∧
  params s' = params s ∧ max_queue s' = max_queue s ∧
  (slot_interval (params s) = 0 → omap is_tail tr = []).
Proof.
  revert s tr. induction os as [|o os IH]; intros s tr Hok Hrun; simpl in Hrun.
  - injection Hrun as <- <-. split_and!; done.
  - apply bind_Some in Hrun as ([b s1] & Hx & Hrun). apply bind_Some in Hrun as ([bs s2] & Hrun & [= <- <-]).
    destruct (exec_conserves ln o s b s1 Hok Hx) as (Hp & Hok1 & Hpa & Hmq & Htl).
    destruct (IH s1 bs Hok1 Hrun) as (Hp' & Hok' & Hpa' & Hmq' & Htl').
    split_and!; [|done|congruence|congruence|].
    + rewrite added_sent, removed_perm, <- !app_assoc, <- Hp'.
      transitivity (omap is_sent bs ++ added b ++ inside s); [solve_Permutation|].
      rewrite Hp. solve_Permutation.
    + intros Hs. simpl. rewrite Htl by done. apply Htl'. by rewrite Hpa.
Qed.

(** A Stage 1 draw is a number in [0, 1): not below zero. *)
Definition draw_ok (o : op) : Prop :=
  match o with Stage1 u0 _ _ => SFltb u0 (S754_zero false) = false | _ => True end.

Lemma exec_no_base_drop ln o s b s' :
  draw_ok o → drop_prob (params s) = S754_zero false → exec ln o s = Some (b, s') → is_base b = None.
Proof.
  intros Hd Hp Hx. destruct o as [d|u0 us now|k now| | | | |]; simpl in Hx.
  - destruct (in_open s); [|done]. by injection Hx as <- <-.
  - destruct (in_q s); [done|]. destruct (negb _); [done|]. apply bind_Some in Hx as (t & _ & Hx).
    rewrite Hp, Hd in Hx. by injection Hx as <- <-.
  - apply bind_Some in Hx as ([t dg] & _ & Hx). destruct (t <=? now); [|done]. by injection Hx as <- <-.
  - repeat case_match; simplify_eq; done.
  - repeat case_match; simplify_eq; done.
  - repeat case_match; simplify_eq; done.
  - repeat case_match; simplify_eq; done.
  - by simplify_eq.
Qed.

Lemma run_no_base_drop ln os s tr s' :
  emu_ok s → Forall draw_ok os → drop_prob (params s) = S754_zero false →
  run ln os s = Some (tr, s') → omap is_base tr = [].
Proof.
  intros Hok Hos. revert s tr Hok. induction Hos as [|o os Ho Hos IH]; intros s tr Hok Hp Hrun; simpl in Hrun.
  - by injection Hrun as <- <-.
  - apply bind_Some in Hrun as ([b s1] & Hx & Hrun). apply bind_Some in Hrun as ([bs s2] & Hrun & [= <- <-]).
    destruct (exec_conserves ln o s b s1 Hok Hx) as (_ & Hok1 & Hpa & _).
    simpl. rewrite (exec_no_base_drop ln o s b s1) by done. apply (IH s1 bs Hok1); [congruence|done].
Qed.

(** The emulator conserves datagrams.  Whatever the draws, delays and
    schedule, every datagram sent is exactly once either lost to the base drop,
    tail-dropped, received, or still in the pipe; the egress buffer never holds
    more than [max_queue]; with no pacing nothing is tail-dropped, and with a
    drop probability of zero nothing is lost before the buffer, so an unpaced
    lossless emulator only delays and reorders. *)
Theorem emulator_conserves_datagrams ln os p mq tr s :
  0 ≤ mq → run ln os (with_queue p mq) = Some (tr, s) →
  Permutation (omap is_sent tr)
    (omap is_base tr ++ omap is_tail tr ++ omap is_received tr ++ inside s) ∧
  Z.of_nat (length (q s)) ≤ mq ∧
  (slot_interval p = 0 → omap is_tail tr = []) ∧
  (drop_prob p = S754_zero false → Forall draw_ok os → omap is_base tr = []).
Proof.
  intros Hmq Hrun. assert (emu_ok (with_queue p mq)) as Hok by (split; simpl; [lia|done]).
  destruct (run_conserves ln os _ tr s Hok Hrun) as (Hp & [Hcap _] & _ & Emq & Htl).
  split_and!.
  - unfold gone, inside at 1 in Hp. simpl in Hp. by rewrite app_nil_r, <- !app_assoc in Hp.
  - rewrite Emq in Hcap. simpl in Hcap. lia.
  - apply Htl.
  - intros Hd Hos. by eapply run_no_base_drop.
Qed.

(** Two datagrams overtaking each other, a third tail-dropped. *)
Definition demo_params : OracleParams := mkOracleParams 0 0 (S754_zero false) 1000 1200.
Definition demo_ops : list op :=
  [Send [Byte.x61]; Send [Byte.x62]; Stage1 (S754_zero false) [] 0; Stage1 (S754_zero false) [] 1;
   Wake 1 5; Wake 0 6; Ready2; Ready2; Tick; Recv].

Lemma emulator_conserves_datagrams_witness :
  ∃ tr s, run (λ x, x) demo_ops (with_queue demo_params 1) = Some (tr, s) ∧
    omap is_received tr = [[Byte.x62]] ∧ omap is_tail tr = [[Byte.x61]] ∧ Z.of_nat (length (q s)) ≤ 1.
Proof.
  eexists _, _. split; [by vm_compute|]. split; [reflexivity|]. split; [reflexivity|].
  edestruct (emulator_conserves_datagrams (λ x, x) demo_ops demo_params 1) as (_ & H & _);
    [lia|by vm_compute|exact H].
Defined.
