(* ===== verification/Striped.v ===== *)
(** * Striping over several substrates: [crates/quicmix-eval/src/striped.rs].

    Round-robin sends over the sub-transports, one receive task per
    sub-transport into a merged queue, and the blended oracle. *)

From S2P Require Import Prelude RustFloat Core.
Open Scope Z_scope.

Section Striped.
Context {T : Type} `{MixTransport T}.

(** [running]: which receive tasks are still alive (they hold the senders of
    the merged queue). *)
Record Striped := mkStriped {
  subs : list T;
  running : list bool;
  next : Z;
  merged : list bytes;
  s_oracle : OracleParams;
}.

Definition empty_oracle : OracleParams := mkOracleParams 1 0 (S754_zero false) 0 1200.

(** One iteration of [blend]'s loop over (rate, longest path, drop sum). *)
Definition blend_step (acc : spec_float * Z * spec_float) (p : OracleParams) :
    option (spec_float * Z * spec_float) :=
  let '(rate, max_path, drop_sum) := acc in
  let r := if slot_interval p =? 0 then of_int binary64 1000000000
           else fdiv binary64 (of_int binary64 (mtu p)) (as_secs_f64 (slot_interval p)) in
  path ← duration_mul (mean_hop_delay p) (hops p);
  Some (fadd binary64 rate r, Z.max max_path path, fadd binary64 drop_sum (drop_prob p)).

Fixpoint blend_loop (acc : spec_float * Z * spec_float) (ps : list OracleParams) :
    option (spec_float * Z * spec_float) :=
  match ps with
  | [] => Some acc
  | p :: ps => acc ← blend_step acc p; blend_loop acc ps
  end.

(** [blend]; [None] is a [Duration] panic. *)
Definition blend (ps : list OracleParams) : option OracleParams :=
  match ps with
  | [] => Some empty_oracle
  | p0 :: _ =>
      let m := mtu p0 in
      '(rate, max_path, drop_sum) ← blend_loop (S754_zero false, 0, S754_zero false) ps;
      slot ← (if SFltb (S754_zero false) rate
              then from_secs_f64 (fdiv binary64 (of_int binary64 m) rate)
              else Some 0);
      Some (mkOracleParams 1 max_path
              (fdiv binary64 drop_sum (of_int binary64 (Z.of_nat (length ps)))) slot m)
  end.

Definition new (ts : list T) : option Striped :=
  o ← blend (oracle <$> ts);
  Some (mkStriped ts (replicate (length ts) true) 0 [] o).

(** [send]. *)
Definition send (datagram : bytes) (s : Striped) : Striped :=
  if decide (subs s = []) then s
  else
    let i := Z.to_nat (next s mod Z.of_nat (length (subs s))) in
    mkStriped (alter (Core.send datagram) i (subs s)) (running s) (wrapping_incr 64 (next s))
      (merged s) (s_oracle s).

(** One turn of the [i]-th receive task. *)
Definition recv_task (i : nat) (s : Striped) : option Striped :=
  t ← subs s !! i;
  alive ← running s !! i;
  if negb alive then None
  else match Core.recv t with
  | Pending => None
  | Ready (Some dg, t') =>
      Some (mkStriped (<[i := t']> (subs s)) (running s) (next s) (merged s ++ [dg]) (s_oracle s))
  | Ready (None, t') =>
      Some (mkStriped (<[i := t']> (subs s)) (<[i := false]> (running s)) (next s) (merged s) (s_oracle s))
  end.

(** [recv]: [None] once every task has ended and the queue is empty. *)
Definition recv (s : Striped) : poll (option bytes * Striped) :=
  match merged s with
  | d :: q => Ready (Some d, mkStriped (subs s) (running s) (next s) q (s_oracle s))
  | [] => if existsb id (running s) then Pending else Ready (None, s)
  end.

#[global] Instance Striped_MixTransport : MixTransport Striped | 10 := {
  kind _ := default_kind;
  oracle := s_oracle;
  send := send;
  recv := recv;
  try_send := default_try_send send;
  try_recv := default_try_recv recv;
}.

(** ** Lemmas. *)

(** The datagrams of [ds] that round robin from [c] gives to path [i] of [n]. *)
Fixpoint share (n c i : Z) (ds : list bytes) : list bytes :=
  match ds with
  | [] => []
  | d :: ds => (if c mod n =? i then [d] else []) ++ share n (c + 1) i ds
  end.

Definition sends (ds : list bytes) (s : Striped) : Striped := foldl (λ s d, send d s) s ds.

Lemma sends_shares ds s :
  subs s ≠ [] → 0 ≤ next s → next s + Z.of_nat (length ds) < 2 ^ 64 →
  length (subs (sends ds s)) = length (subs s) ∧
  next (sends ds s) = next s + Z.of_nat (length ds) ∧
  ∀ i t, subs s !! i = Some t →
    subs (sends ds s) !! i
    = Some (foldl (λ t d, Core.send d t) t
              (share (Z.of_nat (length (subs s))) (next s) (Z.of_nat i) ds)).
Proof.
  revert s. induction ds as [|d ds IH]; intros s Hne H0 Hn.
  { split_and!; [done|simpl; lia|done]. }
  set (s1 := send d s).
  assert (length (subs s1) = length (subs s)) as Hl1.
  { unfold s1, send. case_decide; [done|]. simpl. apply length_alter. }
  assert (next s1 = next s + 1) as Hn1.
  { unfold s1, send. case_decide; [done|]. simpl. apply wrap_small. unfold in_u. simpl length in Hn. lia. }
  destruct (IH s1) as (Hl & Hnx & Hi).
  - destruct (subs s1); [|done]. destruct (subs s); done.
  - lia.
  - simpl length in Hn. lia.
  - change (sends (d :: ds) s) with (sends ds s1). split_and!; [congruence|simpl length; lia|].
    intros i t Ht. cbn [share]. rewrite foldl_app.
    set (n := Z.of_nat (length (subs s))) in *.
    assert (0 < n) by (unfold n; destruct (subs s); simpl; [done|lia]).
    assert (i < length (subs s))%nat by (by eapply lookup_lt_Some).
    pose proof (Z.mod_pos_bound (next s) n).
    rewrite Hl1, Hn1 in Hi. fold n in Hi. apply Hi. unfold s1, send. case_decide; [done|]. simpl.
    fold n. destruct (Z.eqb_spec (next s mod n) (Z.of_nat i)) as [E|E].
    + rewrite E, Nat2Z.id, list_lookup_alter_eq, Ht. done.
    + rewrite list_lookup_alter_ne by lia. done.
Qed.

Lemma sum_list_plus (f g : nat → nat) l :
  sum_list_with (λ i, f i + g i)%nat l = (sum_list_with f l + sum_list_with g l)%nat.
Proof. induction l as [|i l IH]; [done|]. cbn [sum_list_with]. rewrite IH. lia. Qed.

Lemma sum_list_zero (f : nat → nat) l : (∀ i, i ∈ l → f i = 0%nat) → sum_list_with f l = 0%nat.
Proof.
  intros Hf. induction l as [|i l IH]; simpl; [done|]. rewrite Hf, IH by set_solver. done.
Qed.

Lemma sum_list_with_ext (f g : nat → nat) l :
  (∀ i, f i = g i) → sum_list_with f l = sum_list_with g l.
Proof. intros Hf. induction l as [|i l IH]; [done|]. cbn [sum_list_with]. by rewrite IH, Hf. Qed.

Lemma sum_list_indicator k a m :
  (a ≤ k < a + m)%nat → sum_list_with (λ i, if decide (i = k) then 1 else 0)%nat (seq a m) = 1%nat.
Proof.
  revert a. induction m as [|m IH]; intros a Ha; simpl; [lia|].
  destruct (decide (a = k)) as [->|Hne]; [|rewrite IH by lia; done].
  rewrite sum_list_zero; [done|]. intros i Hi%elem_of_seq. by rewrite decide_False by lia.
Qed.

(** Every datagram is in exactly one share. *)
Lemma share_partition n c ds :
  (0 < n)%nat →
  sum_list_with (λ i, length (share (Z.of_nat n) c (Z.of_nat i) ds)) (seq 0 n) = length ds.
Proof.
  intros Hn. revert c. induction ds as [|d ds IH]; intros c; [by apply sum_list_zero|].
  pose proof (Z.mod_pos_bound c (Z.of_nat n)).
  rewrite (sum_list_with_ext _ (λ i, (if decide (i = Z.to_nat (c mod Z.of_nat n)) then 1 else 0)
    + length (share (Z.of_nat n) (c + 1) (Z.of_nat i) ds)))%nat.
  - rewrite sum_list_plus, IH, sum_list_indicator by lia. done.
  - intros i. cbn [share]. rewrite length_app.
    destruct (Z.eqb_spec (c mod Z.of_nat n) (Z.of_nat i)); case_decide; simpl; lia.
Qed.
End Striped.
Arguments Striped T : clear implicits.

(** C29: striping is an exact round robin that loses and duplicates nothing.
    After sending [ds], sub-transport [i] has been handed, in order, exactly the
    datagrams whose running number is [i] modulo the number of paths (short of
    the counter's 64-bit wrap), nothing else of it has changed, and the shares
    add up to all of [ds]. *)
Theorem striping_is_exact_round_robin {T} `{MixTransport T} (ds : list bytes) (s : Striped T) :
  subs s ≠ [] → 0 ≤ next s → next s + Z.of_nat (length ds) < 2 ^ 64 →
  let n := length (subs s) in
  length (subs (sends ds s)) = n ∧
  (∀ i t, subs s !! i = Some t →
     subs (sends ds s) !! i
     = Some (foldl (λ t d, Core.send d t) t (share (Z.of_nat n) (next s) (Z.of_nat i) ds))) ∧
  sum_list_with (λ i, length (share (Z.of_nat n) (next s) (Z.of_nat i) ds)) (seq 0 n) = length ds.
Proof.
  intros Hne H0 Hn n. destruct (sends_shares ds s Hne H0 Hn) as (Hl & _ & Hi).
  split_and!; [done|done|]. apply share_partition. unfold n. destruct (subs s); simpl; [done|lia].
Qed.

Definition two_paths : Striped Loopback.t :=
  let l := Loopback.mk [] empty_oracle in mkStriped [l; l] [true; true] 0 [] empty_oracle.

Lemma striping_is_exact_round_robin_witness :
  subs (sends [[Byte.x61]; [Byte.x62]; [Byte.x63]] two_paths) !! 0%nat
  = Some (Loopback.mk [[Byte.x61]; [Byte.x63]] empty_oracle).
Proof.
  destruct (striping_is_exact_round_robin [[Byte.x61]; [Byte.x62]; [Byte.x63]] two_paths) as (_ & H & _);
    [done|by vm_compute|by vm_compute|].
  exact (H 0%nat (Loopback.mk [] empty_oracle) eq_refl).
Defined.
