(* ===== verification/Rotation.v ===== *)
(** * Circuit rotation: [crates/quicmix/src/rotation.rs].

    Building a fresh circuit is a sequence of calls to code outside the
    repository (the front factory, rustls, quinn); their answers are the
    environment, and what the code asks of them is recorded in order. *)

From S2P Require Import Prelude RustFloat RustStr Core Oracle Client Net.
Open Scope Z_scope.

Record Circuit := mkCircuit { endpoint : nat; conn : nat; local : SocketAddr }.

(** The TLS client configuration the code builds. *)
Inductive Resumption : Set := Resumption_in_memory | Resumption_disabled.
Record ClientTls := mkClientTls { roots : list bytes; client_auth : bool; resumption : Resumption }.

(** What the code asks the outside world for. *)
Inductive call : Type :=
| MakeFront
| AddRoot (cert : bytes)
| BindEndpoint (bind : SocketAddr) (id : nat)
| Handshake (endpoint : nat) (front : SocketAddr) (server_name : str)
    (tls : ClientTls) (transport : option TransportConfig).

Inductive connect_error : Type := FrontFailed | RootRejected | QuicConfig | BindFailed | HandshakeFailed.

(** Answers of the environment, by how many calls were made before. *)
Record env := mkEnv {
  front_of : nat → option SocketAddr;
  root_ok : bytes → bool;
  quic_config_ok : bool;
  local_of : nat → option SocketAddr;
  handshake_ok : nat → bool;
}.

(** Endpoints created so far, and the calls, oldest first. *)
Record world := mkWorld { endpoints : nat; calls : list call }.

Definition say (c : call) (w : world) : world := mkWorld (endpoints w) (calls w ++ [c]).

Definition LOOPBACK_0 : SocketAddr := SA4 (V4 127 0 0 1) 0.

Section Connect.
Variable E : env.

Definition connect_fresh_with (server_cert : bytes) (transport : option TransportConfig)
    (w : world) : result connect_error Circuit * world :=
  let w1 := say MakeFront w in
  match front_of E (length (calls w)) with
  | None => (Err FrontFailed, w1)
  | Some front =>
      let w2 := say (AddRoot server_cert) w1 in
      if negb (root_ok E server_cert) then (Err RootRejected, w2) else
      let tls := mkClientTls [server_cert] false Resumption_disabled in
      if negb (quic_config_ok E) then (Err QuicConfig, w2) else
      let ep := endpoints w2 in
      let w3 := mkWorld (S ep) (calls w2 ++ [BindEndpoint LOOPBACK_0 ep]) in
      match local_of E ep with
      | None => (Err BindFailed, w3)
      | Some loc =>
          let w4 := say (Handshake ep front (bs "localhost") tls transport) w3 in
          if handshake_ok E (length (calls w3))
          then (Ok (mkCircuit ep ep loc), w4)
          else (Err HandshakeFailed, w4)
      end
  end.

(** [CircuitPool]: the warm circuits. *)
Definition CircuitPool := list Circuit.

Fixpoint prewarm_loop (n : nat) (cert : bytes) (transport : option TransportConfig)
    (warm : CircuitPool) (w : world) : result connect_error CircuitPool * world :=
  match n with
  | O => (Ok warm, w)
  | S n =>
      let (r, w) := connect_fresh_with cert transport w in
      match r with
      | Ok c => prewarm_loop n cert transport (warm ++ [c]) w
      | Err e => (Err e, w)
      end
  end.

Definition prewarm_with (n : nat) (cert : bytes) (transport : option TransportConfig)
    (w : world) : result connect_error CircuitPool * world :=
  prewarm_loop n cert transport [] w.
End Connect.

(** [take]: [Vec::pop]. *)
Definition take (p : CircuitPool) : option Circuit * CircuitPool :=
  match rev p with [] => (None, p) | c :: r => (Some c, rev r) end.
Definition len (p : CircuitPool) : nat := length p.

Fixpoint take_all (fuel : nat) (p : CircuitPool) : list Circuit :=
  match fuel with
  | O => []
  | S fuel => match take p with (Some c, p) => c :: take_all fuel p | (None, _) => [] end
  end.

(** [session_send]: what is written on a fresh stream, and the outcome given
    whether each call succeeds and the peer's acknowledgement. *)
Inductive stream_error : Type := OpenFailed | WriteFailed | FinishFailed | ReadFailed | AckTooLong.

Definition session_payload (session_id msg : bytes) : bytes := session_id ++ msg.

Definition session_send (open_ok write_ok finish_ok : bool) (ack : option bytes)
    (session_id msg : bytes) : result stream_error () * bytes :=
  if negb open_ok then (Err OpenFailed, [])
  else if negb write_ok then (Err WriteFailed, [])
  else if negb finish_ok then (Err FinishFailed, session_payload session_id msg)
  else match ack with
       | None => (Err ReadFailed, session_payload session_id msg)
       | Some a => ((if (64 <? length a)%nat then Err AckTooLong else Ok ()), session_payload session_id msg)
       end.

(** ** Lemmas. *)
Definition is_make_front (c : call) : bool := match c with MakeFront => true | _ => false end.
Definition fronts_made (w : world) : nat := length (retain is_make_front (calls w)).

(** The handshakes of a world: who dialled, under which TLS configuration. *)
Definition handshakes (w : world) : list (nat * ClientTls * option TransportConfig) :=
  omap (λ c, match c with Handshake ep _ _ tls t => Some (ep, tls, t) | _ => None end) (calls w).

Definition fresh_tls (cert : bytes) : ClientTls := mkClientTls [cert] false Resumption_disabled.

Lemma connect_fresh_Ok E cert t w c w' :
  connect_fresh_with E cert t w = (Ok c, w') →
  endpoint c = endpoints w ∧ conn c = endpoints w ∧ endpoints w' = S (endpoints w) ∧
  fronts_made w' = S (fronts_made w) ∧
  handshakes w' = handshakes w ++ [(endpoints w, fresh_tls cert, t)].
Proof.
  unfold connect_fresh_with, fronts_made, handshakes. intros H. repeat case_match; simplify_eq/=.
  rewrite !retain_app, !omap_app. simpl. split_and!; try done.
  - rewrite !length_app. unfold retain. simpl. lia.
  - by rewrite <- !app_assoc.
Qed.

Lemma prewarm_loop_Ok E n cert t warm w p w' :
  prewarm_loop E n cert t warm w = (Ok p, w') →
  (endpoint <$> p) = (endpoint <$> warm) ++ seq (endpoints w) n ∧
  endpoints w' = (endpoints w + n)%nat ∧ fronts_made w' = (fronts_made w + n)%nat ∧
  handshakes w' = handshakes w ++ ((λ ep, (ep, fresh_tls cert, t)) <$> seq (endpoints w) n).
Proof.
  revert warm w. induction n as [|n IH]; intros warm w; simpl.
  - intros [= <- <-]. rewrite !app_nil_r. split_and!; done || lia.
  - destruct (connect_fresh_with E cert t w) as [[c|e] w1] eqn:Ec; [|done].
    apply connect_fresh_Ok in Ec as (He & _ & Hn & Hf & Hh). intros H.
    apply IH in H as (Hp & Hn' & Hf' & Hh'). rewrite Hp, Hn', Hf', Hh', Hn, Hf, Hh, fmap_app, <- !app_assoc.
    simpl. rewrite He. split_and!; done || lia.
Qed.

Lemma take_snoc p c : take (p ++ [c]) = (Some c, p).
Proof. unfold take. rewrite rev_app_distr. simpl. by rewrite rev_involutive. Qed.

Lemma take_all_rev p k : take_all (length p + k) p = rev p.
Proof.
  induction p as [|c p IH] using rev_ind; [destruct k; done|].
  rewrite length_app, rev_app_distr. simpl. replace (length p + 1 + k)%nat with (S (length p + k)) by lia.
  cbn [take_all]. by rewrite take_snoc, IH.
Qed.

(** C26: rotation never reuses anything.  When pre-warming [n] circuits
    succeeds, exactly [n] fresh fronts were provisioned and [n] handshakes made,
    each from its own new endpoint, with resumption disabled, only the pinned
    certificate trusted and the caller's transport; all [n] endpoints differ
    from each other and from every earlier one, and taking circuits until the
    pool is empty hands each of them out exactly once. *)
Theorem prewarmed_circuits_are_fresh E n cert t w p w' :
  prewarm_with E n cert t w = (Ok p, w') →
  len p = n ∧ NoDup (endpoint <$> p) ∧
  (∀ c, c ∈ p → (endpoints w ≤ endpoint c < endpoints w')%nat) ∧
  fronts_made w' = (fronts_made w + n)%nat ∧
  (∃ new, handshakes w' = handshakes w ++ new ∧ length new = n ∧
     (endpoint <$> p) = (fst ∘ fst <$> new) ∧
     Forall (λ h, h.1.2 = fresh_tls cert ∧ resumption h.1.2 = Resumption_disabled ∧ h.2 = t) new) ∧
  take_all (S n) p = rev p.
Proof.
  intros (Hp & Hn & Hf & Hh)%prewarm_loop_Ok. simpl in Hp.
  assert (length p = n) as Hlen by (apply (f_equal length) in Hp; by rewrite length_fmap, length_seq in Hp).
  split_and!; [done| | |done| |].
  - rewrite Hp. apply NoDup_seq.
  - intros c Hc. apply (list_elem_of_fmap_2 endpoint) in Hc. rewrite Hp in Hc. apply elem_of_seq in Hc. lia.
  - eexists. split_and!; [done|by rewrite length_fmap, length_seq| |].
    + by rewrite Hp, <- list_fmap_compose, list_fmap_id.
    + apply Forall_fmap, Forall_forall. intros x _. done.
  - rewrite <- Hlen. rewrite <- (take_all_rev p 1). f_equal. lia.
Qed.

Definition demo_env : env :=
  mkEnv (λ _, Some (SA4 (V4 127 0 0 1) 7000)) (λ _, true) true
    (λ n, Some (SA4 (V4 127 0 0 1) (Z.of_nat n + 50000))) (λ _, true).

Lemma prewarmed_circuits_are_fresh_witness :
  ∃ p w', prewarm_with demo_env 3 (bs "cert") None (mkWorld 5 []) = (Ok p, w') ∧ len p = 3%nat.
Proof.
  eexists _, _. split; [by vm_compute|].
  eapply (prewarmed_circuits_are_fresh demo_env 3 (bs "cert") None (mkWorld 5 [])). by vm_compute.
Defined.

(** The session id is the first 8 bytes of what the peer reads, and the rest is
    the message: an acknowledged send delivered both. *)
Lemma session_send_Ok open_ok write_ok finish_ok ack id msg sent :
  length id = 8%nat →
  session_send open_ok write_ok finish_ok ack id msg = (Ok (), sent) →
  firstn 8 sent = id ∧ skipn 8 sent = msg ∧ ∃ a, ack = Some a ∧ (length a ≤ 64)%nat.
Proof.
  intros Hid. unfold session_send, session_payload. intros H.
  destruct open_ok, write_ok, finish_ok, ack as [a|]; simpl negb in H; cbv iota in H; try done.
  injection H as H <-. rewrite <- Hid, firstn_app, skipn_app, Nat.sub_diag, firstn_all, skipn_all.
  simpl. rewrite app_nil_r. split_and!; [done|done|]. exists a. split; [done|].
  destruct (Nat.ltb_spec 64 (length a)); [done|lia].
Qed.
