(* ===== verification/Sessions.v ===== *)
(** * A session over rotating circuits: the measurement program
    [substrates/quicmix-nym/src/bin/nym_rotate.rs] over [Rotation], and what
    [crates/quicmix-eval/examples/rotate.rs] (RotateDemo) shares with it.

    A server records, for every session id it reads at the head of a stream, the
    address the stream's connection came from.  The program times cold and warm
    rotations under throwaway ids and then sends one id over two circuits.  The two
    draw ids differently, from a mixed counter and from the operating system: the
    server and the steps are proved against the interface [DistinctIds].  What
    the endpoints of a circuit answer is [Rotation]'s environment; what quinn
    does with one stream is an argument. *)

From stdpp Require Import sorting.
From coqutil Require Import Word.LittleEndianList.
From S2P Require Import Prelude Fallible RustFloat RustStr Core Mix64 Oracle Client Net Rotation.
Open Scope Z_scope.

(** ** The server. *)
Record server := mkServer {
  sessions : gmap bytes (list SocketAddr);
  serving : gmap nat SocketAddr;   (* connections whose accept loop runs, and where they came from *)
}.

Definition READ_LIMIT : Z := Z.shiftl 1 20.

(** [incoming.await]: a failed handshake ends the task. *)
Definition accepted (c : nat) (remote : option SocketAddr) (s : server) : server :=
  match remote with
  | None => s
  | Some r => mkServer (sessions s) (<[c := r]> (serving s))
  end.

Definition read_to_end (data : option bytes) : option bytes :=
  d ← data; if READ_LIMIT <? Z.of_nat (length d) then None else Some d.

Definition record_session (data : bytes) (remote : SocketAddr) (m : gmap bytes (list SocketAddr)) :
    gmap bytes (list SocketAddr) :=
  if (8 <=? length data)%nat
  then let sid := firstn 8 data in <[sid := default [] (m !! sid) ++ [remote]]> m else m.

(** One stream of connection [c] ([None]: it was reset): the acknowledgement. *)
Definition serve_stream (c : nat) (data : option bytes) (s : server) : option bytes * server :=
  match serving s !! c with
  | None => (None, s)
  | Some remote =>
      match read_to_end data with
      | None => (None, mkServer (sessions s) (delete c (serving s)))
      | Some d => (Some (bs "k"), mkServer (record_session d remote (sessions s)) (serving s))
      end
  end.

(** ** The program. *)
Record stream_answers := mkAnswers { q_open : bool; q_write : bool; q_finish : bool; q_ack : bool }.

Record lab := mkLab { net : world; srv : server; ctr : Z }.

Inductive lab_error : Type := ConnectFailed (e : connect_error) | SendFailed (e : stream_error) | NoCircuit.

Definition ID_START : Z := 0x123456789abcdef0.

(** Where session ids come from, and the promise that its first [id_bound] ids
    are distinct. *)
Class IdSource := next_id : Z → bytes * Z.
Class DistinctIds (I : IdSource) := {
  ctr_at : Z → Z;
  ident : Z → bytes;
  id_bound : Z;
  next_id_at : ∀ k, 0 ≤ k < id_bound → next_id (ctr_at k) = (ident k, ctr_at (k + 1));
  ident_length : ∀ k, 0 ≤ k < id_bound → length (ident k) = 8%nat;
  ident_inj : ∀ a b, 0 ≤ a < id_bound → 0 ≤ b < id_bound → ident a = ident b → a = b;
}.

(** [rand_id] of nym_rotate. *)
#[local] Instance counter_ids : IdSource := mixed.

Section Program.
Context `{IdSource}.
Variable E : env.
Variable source_of : nat → SocketAddr.                       (* where the server sees a circuit's connection from *)
Variable quic : nat → bytes → stream_answers.                (* a stream of a connection, and what is sent on it *)
Variables (server_cert : bytes) (transport : option TransportConfig).

Abbreviation M := (fallible lab lab_error).

Definition rand_id : M bytes := λ l,
  let (id, c) := next_id (ctr l) in (Ok id, mkLab (net l) (srv l) c).

Definition arrive_circuit (c : Circuit) (s : server) : server := accepted (conn c) (Some (source_of (conn c))) s.

Definition connect : M Circuit := λ l,
  match connect_fresh_with E server_cert transport (net l) with
  | (Ok c, w) => (Ok c, mkLab w (arrive_circuit c (srv l)) (ctr l))
  | (Err e, w) => (Err (ConnectFailed e), mkLab w (srv l) (ctr l))
  end.

Definition prewarm (n : nat) : M CircuitPool := λ l,
  match prewarm_with E n server_cert transport (net l) with
  | (Ok p, w) => (Ok p, mkLab w (foldr arrive_circuit (srv l) p) (ctr l))
  | (Err e, w) => (Err (ConnectFailed e), mkLab w (srv l) (ctr l))
  end.

Definition send (c : Circuit) (sid msg : bytes) : M () := λ l,
  let payload := session_payload sid msg in
  let q := quic (conn c) payload in
  let (ack, s) :=
    if q_open q then serve_stream (conn c) (if q_write q && q_finish q then Some payload else None) (srv l)
    else (None, srv l) in
  let (r, _) := session_send (q_open q) (q_write q) (q_finish q) (if q_ack q then ack else None) sid msg in
  (map_err SendFailed r, mkLab (net l) s (ctr l)).

(** A timed sample under an id of its own. *)
Definition sample (c : Circuit) : M () := id ← rand_id; send c id (bs "x").

Fixpoint cold_loop (n : nat) (last : option Circuit) : M (option Circuit) :=
  match n with
  | O => mret last
  | S n => c ← connect; _ ← sample c; cold_loop n (Some c)
  end.

Fixpoint warm_loop (n : nat) (pool : CircuitPool) : M CircuitPool :=
  match n with
  | O => mret pool
  | S n =>
      match take pool with
      | (Some c, pool) => _ ← sample c; warm_loop n pool
      | (None, pool) => warm_loop n pool
      end
  end.

(** The timed samples: the last cold circuit, and the pool left. *)
Definition sample_all (n_cold n_warm : nat) : M (Circuit * CircuitPool) :=
  last ← cold_loop (n_cold `max` 1) None;
  cold_c ← lift (ok_or last NoCircuit);
  pool ← prewarm (n_warm + 1);
  pool ← warm_loop n_warm pool;
  mret (cold_c, pool).

(** One session over the cold circuit, then over one of the pool. *)
Definition continuity (cold_c : Circuit) (pool : CircuitPool) : M (bytes * Circuit * Circuit) :=
  sid ← rand_id;
  _ ← send cold_c sid (bs "a");
  warm_c ← (match take pool with (Some c, _) => mret c | (None, _) => connect end);
  _ ← send warm_c sid (bs "b");
  mret (sid, cold_c, warm_c).

Definition main (n_cold n_warm : nat) : M (bytes * Circuit * Circuit) :=
  x ← sample_all n_cold n_warm; continuity x.1 x.2.
End Program.

(** The verdict both programs end with: nym_rotate prints it, rotate.rs asserts
    its three parts in turn. *)
Definition carried_by (l : lab) (sid : bytes) : list SocketAddr := default [] (sessions (srv l) !! sid).
Definition unlinkable (l : lab) (out : bytes * Circuit * Circuit) : bool :=
  let '(sid, cold_c, warm_c) := out in
  let addrs := carried_by l sid in
  (length addrs =? 2)%nat && (length (remove_dups addrs) =? 2)%nat && bool_decide (local cold_c ≠ local warm_c).

(** nym_rotate's sample counts. *)
Definition sample_count (env : bytes → option str) (var : string) (dflt : Z) : Z :=
  default dflt (env (bs var) ≫= parse_uint 64).
Definition nym_cold (env : bytes → option str) : Z := sample_count env "NYM_COLD" 2.
Definition nym_warm (env : bytes → option str) : Z := sample_count env "NYM_WARM" 4.

(** What the program prints: medians, and ids in hexadecimal. *)
Definition median (v : list Z) : option spec_float :=
  let v := merge_sort Z.le v in if (length v =? 0)%nat then Some (S754_zero false) else as_secs_f64 <$> v !! (length v / 2)%nat.
Definition median_ms (v : list Z) : option spec_float :=
  (λ d, fmul binary64 (as_secs_f64 d) (of_int binary64 1000)) <$> merge_sort Z.le v !! (length v / 2)%nat.

Definition hex_digit (n : Z) : byte := zb (if n <? 10 then 48 + n else 87 + n).
Definition hex (b : bytes) : str :=
  b ≫= λ x, [hex_digit (bz x / 16); hex_digit (bz x mod 16)].

(** ** One stream at a time. *)
Definition id_at (k : Z) : bytes := (mixed (wrap 64 (ID_START + k * TOKEN_STEP))).1.

#[local] Instance counter_distinct : DistinctIds counter_ids.
Proof.
  refine {| ctr_at := λ k, wrap 64 (ID_START + k * TOKEN_STEP); ident := id_at; id_bound := 2 ^ 64 |}.
  - intros k _. unfold next_id, counter_ids, mixed, id_at. cbn. f_equal. rewrite wrap_add_l. f_equal. lia.
  - intros k _. unfold id_at, mixed. cbn [fst]. by rewrite length_le_split.
  - intros a b. apply mixed_inj.
Defined.

Definition from_source (source_of : nat → SocketAddr) (s : server) : Prop :=
  ∀ c r, serving s !! c = Some r → r = source_of c.

Definition add_source (sid : bytes) (r : SocketAddr) (m : gmap bytes (list SocketAddr)) : gmap bytes (list SocketAddr) :=
  <[sid := default [] (m !! sid) ++ [r]]> m.

Lemma serve_stream_effect src c data s ack s' :
  serve_stream c data s = (ack, s') → from_source src s →
  from_source src s' ∧
  (sessions s' = sessions s ∨ ∃ d, data = Some d ∧ sessions s' = record_session d (src c) (sessions s)) ∧
  (ack ≠ None → ∃ d, data = Some d ∧ sessions s' = record_session d (src c) (sessions s)).
Proof.
  unfold serve_stream. intros H Hs. destruct (serving s !! c) as [remote|] eqn:Ec; [|simplify_eq; naive_solver].
  rewrite (Hs _ _ Ec) in *. destruct (read_to_end data) as [d|] eqn:Ed; simplify_eq; cbn.
  - apply bind_Some in Ed as (d0 & -> & Hd). case_match; [done|]. simplify_eq. split_and!; [done|eauto..].
  - split_and!; [|by left|done]. intros c' r. cbn. rewrite lookup_delete_Some. intros [_ Hc']. by apply Hs.
Qed.

Lemma record_payload sid msg r m :
  length sid = 8%nat → record_session (session_payload sid msg) r m = add_source sid r m.
Proof.
  intros Hl. unfold record_session, session_payload, add_source.
  rewrite (proj2 (Nat.leb_le _ _)) by (rewrite length_app; lia).
  by rewrite <- Hl, firstn_app, Nat.sub_diag, firstn_all, app_nil_r.
Qed.

Lemma send_effect src quic c sid msg l r l' :
  send quic c sid msg l = (r, l') → length sid = 8%nat → from_source src (srv l) →
  net l' = net l ∧ ctr l' = ctr l ∧ from_source src (srv l') ∧
  (sessions (srv l') = sessions (srv l) ∨ sessions (srv l') = add_source sid (src (conn c)) (sessions (srv l))) ∧
  (r = Ok () → sessions (srv l') = add_source sid (src (conn c)) (sessions (srv l))).
Proof.
  unfold send. intros H Hl Hs. destruct (quic (conn c) (session_payload sid msg)) as [o w f a]. cbn in H.
  destruct o; [|injection H as <- <-; cbn; naive_solver].
  destruct (serve_stream _ _ _) as [ack s'] eqn:Es. apply (serve_stream_effect src) in Es as (Hs' & Hm & Ha); [|done].
  assert (∀ d, (if w && f then Some (session_payload sid msg) else None) = Some d →
    record_session d (src (conn c)) (sessions (srv l)) = add_source sid (src (conn c)) (sessions (srv l))) as Hd.
  { intros d Hd. destruct (w && f); [|done]. injection Hd as <-. by apply record_payload. }
  destruct (session_send _ _ _ _ _ _) as [r0 sent] eqn:E. injection H as <- <-. cbn. split_and!; [done|done|done| |].
  - destruct Hm as [?|(d & Hd' & ->)]; [by left|right; auto].
  - unfold session_send in E. intros Hr.
    destruct w, f, a, ack; cbn in E; simplify_eq; try done. destruct Ha as (d & Hd' & ->); auto.
Qed.

(** ** The program keeps its ids apart. *)
Section ProgramLemmas.
Context {I : IdSource} {Hids : DistinctIds I}.
Variables (E : env) (src : nat → SocketAddr).
Variables (server_cert : bytes) (transport : option TransportConfig) (w0 : world).

(** After [k] ids and [m] circuits. *)
Record state_at (k : Z) (m : nat) (l : lab) : Prop := {
  s_ctr : ctr l = ctr_at k;
  s_src : from_source src (srv l);
  s_ids : ∀ id v, sessions (srv l) !! id = Some v → ∃ j r, 0 ≤ j < k ∧ id = ident j ∧ v = [r];
  s_endpoints : endpoints (net l) = (endpoints w0 + m)%nat;
  s_handshakes : handshakes (net l) = handshakes w0 ++ ((λ ep, (ep, fresh_tls server_cert, transport)) <$> seq (endpoints w0) m);
}.

#[local] Abbreviation spec P m Q := (triple P m Q (λ _ _, True)).

(** An id fresh to the server. *)
Record fresh_id (k : Z) (m : nat) (id : bytes) (l : lab) : Prop := {
  fi_id : id = ident k;
  fi_new : sessions (srv l) !! id = None;
  fi_state : state_at (k + 1) m l;
}.

Lemma rand_id_spec k m : 0 ≤ k < id_bound → spec (state_at k m) rand_id (fresh_id k m).
Proof.
  intros Hk l [Hc Hs Hi He Hh]. unfold rand_id. rewrite Hc, next_id_at by done. split; cbn.
  - done.
  - apply eq_None_not_Some. intros [v Hv]. apply Hi in Hv as (j & r & Hj & E' & _).
    apply (ident_inj k j) in E'; lia.
  - split; cbn; try done.
    intros id v Hv. destruct (Hi id v Hv) as (j & r & ? & ? & ?). exists j, r. split_and!; [lia..|done|done].
Qed.

(** A circuit as [connect_fresh_with] makes it. *)
Definition made (c : Circuit) : Prop := endpoint c = conn c ∧ local_of E (endpoint c) = Some (local c).
Definition circuit_of (m : nat) (c : Circuit) : Prop := conn c = (endpoints w0 + m)%nat ∧ made c.

Lemma connect_fresh_made t w c w' : connect_fresh_with E server_cert t w = (Ok c, w') → made c.
Proof. unfold connect_fresh_with. intros H. repeat case_match; simplify_eq/=. by split. Qed.

(** New circuits leave the recorded sessions alone. *)
Lemma connect_frame (k : Z) (m : nat) (F : gmap bytes (list SocketAddr) → Prop) :
  spec (λ l, state_at k m l ∧ F (sessions (srv l))) (connect E src server_cert transport)
    (λ c l, circuit_of m c ∧ state_at k (m + 1) l ∧ F (sessions (srv l))).
Proof.
  intros l [[Hc Hs Hi He Hh] HF]. unfold connect.
  destruct (connect_fresh_with E server_cert transport (net l)) as [[c|e] w] eqn:Hx; [|done].
  pose proof (connect_fresh_made _ _ _ _ Hx) as Hm.
  apply connect_fresh_Ok in Hx as (Hep & Hcn & Hw & _ & Hhs). split_and!; [by split; [congruence|]| |done].
  split; cbn; try done.
  - intros c' r. cbn. rewrite lookup_insert_Some. intros [[<- <-]|[_ ?]]; [done|by apply Hs].
  - lia.
  - by rewrite Hhs, Hh, Nat.add_1_r, seq_S, fmap_app, <- app_assoc, He.
Qed.

Lemma connect_spec k m :
  spec (state_at k m) (connect E src server_cert transport) (λ c l, circuit_of m c ∧ state_at k (m + 1) l).
Proof.
  eapply triple_pre; [|eapply triple_post; [apply (connect_frame k m (λ _, True))|]]; [done|].
  by intros c l (? & ? & _).
Qed.

(** An id stays fresh while circuits are built. *)
Lemma fresh_connect_spec k m id :
  spec (fresh_id k m id) (connect E src server_cert transport) (λ c l, circuit_of m c ∧ fresh_id k (m + 1) id l).
Proof.
  eapply triple_pre; [|eapply triple_post; [apply (connect_frame (k + 1) m (λ s, id = ident k ∧ s !! id = None))|]].
  - by intros l [? ? ?].
  - intros c l (? & ? & ? & ?). by split.
Qed.

Lemma prewarm_loop_made n warm w p w' :
  prewarm_loop E n server_cert transport warm w = (Ok p, w') → Forall made warm → Forall made p.
Proof.
  revert warm w. induction n as [|n IH]; intros warm w; cbn [prewarm_loop]; [by intros [= <- <-]|].
  destruct (connect_fresh_with E server_cert transport w) as [[c|e] w1] eqn:Ec; [|done].
  apply connect_fresh_made in Ec. intros H Hw. eapply IH; [exact H|].
  apply Forall_app. split; [done|]. by constructor.
Qed.

Lemma arrive_all p s : from_source src s → from_source src (foldr (arrive_circuit src) s p).
Proof.
  intros Hs. induction p as [|c p IH]; [done|]. intros c' r. cbn. rewrite lookup_insert_Some.
  intros [[<- <-]|[_ ?]]; [done|by apply IH].
Qed.

Lemma arrive_all_sessions p s : sessions (foldr (arrive_circuit src) s p) = sessions s.
Proof. by induction p. Qed.

Lemma prewarm_frame (n : nat) (k : Z) (m : nat) (F : gmap bytes (list SocketAddr) → Prop) :
  spec (λ l, state_at k m l ∧ F (sessions (srv l))) (prewarm E src server_cert transport n)
    (λ p l, (endpoint <$> p = seq (endpoints w0 + m) n ∧ Forall made p) ∧ state_at k (m + n) l ∧ F (sessions (srv l))).
Proof.
  intros l [[Hc Hs Hi He Hh] HF]. unfold prewarm.
  destruct (prewarm_with E n server_cert transport (net l)) as [[p|e] w] eqn:Hx; [|done].
  pose proof (prewarm_loop_made _ _ _ _ _ Hx (Forall_nil_2 _)) as Hcn.
  apply prewarm_loop_Ok in Hx as (Hp & Hw & _ & Hhs). cbn in Hp. rewrite He in Hp, Hw.
  split_and!; [done|done| |cbn; by rewrite arrive_all_sessions]. split; cbn; try done.
  - by apply arrive_all.
  - rewrite arrive_all_sessions. exact Hi.
  - lia.
  - by rewrite Hhs, Hh, He, seq_app, fmap_app, app_assoc.
Qed.

Lemma prewarm_spec n k m :
  spec (state_at k m) (prewarm E src server_cert transport n)
    (λ p l, (endpoint <$> p = seq (endpoints w0 + m) n ∧ Forall made p) ∧ state_at k (m + n) l).
Proof.
  eapply triple_pre; [|eapply triple_post; [apply (prewarm_frame n k m (λ _, True))|]]; [done|].
  by intros c l (? & ? & _).
Qed.

Variable quic : nat → bytes → stream_answers.

(** One id over one circuit leaves one source. *)
Lemma send_fresh_spec k m c id msg :
  0 ≤ k < id_bound → spec (fresh_id k m id) (send quic c id msg)
    (λ _ l, state_at (k + 1) m l ∧ sessions (srv l) !! id = Some [src (conn c)] ∧ id = ident k).
Proof.
  intros Hk l [Hid Hnew [Hc Hs Hi He Hh]]. destruct (send quic c id msg l) as [[[]|] l'] eqn:Hx; [|done].
  destruct (send_effect _ _ _ _ _ _ _ _ Hx (eq_ind_r (λ x, length x = 8%nat) (ident_length k Hk) Hid) Hs)
    as (Hn & Hct & Hs' & _ & Hok). specialize (Hok eq_refl).
  unfold add_source in Hok. rewrite Hnew in Hok. cbn in Hok.
  split_and!; [|by rewrite Hok, lookup_insert_eq|done].
  split; [by rewrite Hct|done| |by rewrite Hn..].
  intros id' v. rewrite Hok, lookup_insert_Some. intros [[<- <-]|[_ Hv]]; [|by apply Hi].
  exists k, (src (conn c)). split_and!; [lia..|done|done].
Qed.

Lemma sample_spec k m c : 0 ≤ k < id_bound → spec (state_at k m) (sample quic c) (λ _, state_at (k + 1) m).
Proof.
  intros Hk. unfold sample. eapply triple_bind; [by apply rand_id_spec|]. intros id.
  eapply triple_post; [by apply send_fresh_spec|]. by intros [] l (? & _).
Qed.

(** The last circuit of the cold loop is the last one built. *)
Lemma cold_loop_spec n k m last :
  0 ≤ k → k + Z.of_nat n ≤ id_bound →
  spec (state_at k m) (cold_loop E src quic server_cert transport n last)
    (λ o l, state_at (k + Z.of_nat n) (m + n) l ∧
       (n = 0%nat ∧ o = last ∨ ∃ c, o = Some c ∧ circuit_of (m + n - 1) c)).
Proof.
  revert k m last. induction n as [|n IH]; intros k m last Hk Hn; cbn [cold_loop].
  { apply triple_ret. intros l Hl. rewrite Z.add_0_r, Nat.add_0_r. split; [done|by left]. }
  eapply triple_bind; [apply connect_spec|]. intros c. apply triple_pure. intros Hc.
  eapply triple_bind; [apply sample_spec; lia|]. intros [].
  eapply triple_post; [apply IH; lia|]. intros o l [Hl Ho].
  replace (k + Z.of_nat (S n)) with (k + 1 + Z.of_nat n) by lia.
  replace (m + S n)%nat with (m + 1 + n)%nat by lia. split; [done|right].
  destruct Ho as [[-> ->]|(c' & -> & Hc')]; [|by exists c'].
  exists c. split; [done|]. by replace (m + 1 + 0 - 1)%nat with m by lia.
Qed.

Lemma warm_loop_spec n k m pool :
  0 ≤ k → k + Z.of_nat n ≤ id_bound → (n ≤ length pool)%nat →
  spec (state_at k m) (warm_loop quic n pool)
    (λ p l, (∃ used, pool = p ++ used ∧ length used = n) ∧ state_at (k + Z.of_nat n) m l).
Proof.
  revert k pool. induction n as [|n IH]; intros k pool Hk Hn Hp; cbn [warm_loop].
  { apply triple_ret. intros l Hl. rewrite Z.add_0_r. split; [|done]. exists []. by rewrite app_nil_r. }
  destruct pool as [|c pool _] using rev_ind; [cbn in Hp; lia|].
  rewrite take_snoc. rewrite length_app in Hp. cbn in Hp.
  eapply triple_bind; [apply sample_spec; lia|]. intros [].
  eapply triple_post; [apply IH; lia|]. intros p l [(used & -> & Hu) Hl].
  replace (k + Z.of_nat (S n)) with (k + 1 + Z.of_nat n) by lia. split; [|done].
  exists (used ++ [c]). rewrite length_app, Hu, <- app_assoc. split; [done|]. cbn. lia.
Qed.

(** The same id over a second circuit. *)
Lemma send_again_spec k m c id msg r1 :
  0 ≤ k < id_bound →
  spec (λ l, state_at (k + 1) m l ∧ sessions (srv l) !! id = Some [r1] ∧ id = ident k) (send quic c id msg)
    (λ _ l, sessions (srv l) !! id = Some [r1; src (conn c)] ∧
       (∀ id' v, id' ≠ id → sessions (srv l) !! id' = Some v → length v = 1%nat) ∧
       handshakes (net l) = handshakes w0 ++ ((λ ep, (ep, fresh_tls server_cert, transport)) <$> seq (endpoints w0) m)).
Proof.
  intros Hk l [[Hc Hs Hi He Hh] [Hold Hid]]. destruct (send quic c id msg l) as [[[]|] l'] eqn:Hx; [|done].
  destruct (send_effect _ _ _ _ _ _ _ _ Hx (eq_ind_r (λ x, length x = 8%nat) (ident_length k Hk) Hid) Hs)
    as (Hn & _ & _ & _ & Hok). specialize (Hok eq_refl). unfold add_source in Hok. rewrite Hold in Hok. cbn in Hok.
  split_and!; [by rewrite Hok, lookup_insert_eq| |by rewrite Hn].
  intros id' v Hne. rewrite Hok, lookup_insert_ne by done. intros Hv.
  by destruct (Hi _ _ Hv) as (? & ? & _ & _ & ->).
Qed.

Definition total (n_cold n_warm : nat) : nat := (n_cold `max` 1 + (n_warm + 1))%nat.

(** How a run over [n] circuits ends. *)
Definition continued (n : nat) (out : bytes * Circuit * Circuit) (l : lab) : Prop :=
  let '(sid, c1, c2) := out in
  endpoint c1 ≠ endpoint c2 ∧ made c1 ∧ made c2 ∧
  sessions (srv l) !! sid = Some [src (conn c1); src (conn c2)] ∧
  (∀ id v, id ≠ sid → sessions (srv l) !! id = Some v → length v = 1%nat) ∧
  handshakes (net l) = handshakes w0 ++
    ((λ ep, (ep, fresh_tls server_cert, transport)) <$> seq (endpoints w0) n).

(** The samples leave the last cold circuit and one that was pre-warmed. *)
Lemma sample_all_spec n_cold n_warm :
  Z.of_nat (total n_cold n_warm) ≤ id_bound →
  spec (state_at 0 0) (sample_all E src quic server_cert transport n_cold n_warm)
    (λ x l, (circuit_of (n_cold `max` 1 - 1) x.1 ∧ ∃ c, x.2 = [c] ∧ endpoint c = (endpoints w0 + n_cold `max` 1)%nat ∧ made c) ∧
       state_at (Z.of_nat (n_cold `max` 1 + n_warm)) (total n_cold n_warm) l).
Proof.
  unfold total. intros Ht. unfold sample_all. set (nc := (n_cold `max` 1)%nat) in *.
  eapply triple_bind; [apply cold_loop_spec; lia|]. intros last. cbn beta.
  eapply (triple_bind _ _ _ (λ c l, circuit_of (nc - 1) c ∧ state_at (Z.of_nat nc) nc l)).
  { intros l [Hl Ho]. destruct Ho as [[Hz _]|(c & -> & Hc)]; [lia|]. by split. }
  intros c1. apply triple_pure. intros Hc1.
  eapply triple_bind; [apply prewarm_spec|]. intros pool. apply triple_pure. intros [Hp Hcn].
  assert (length pool = n_warm + 1)%nat as Hlen by (apply (f_equal length) in Hp; by rewrite length_fmap, length_seq in Hp).
  eapply triple_bind; [apply warm_loop_spec; lia|]. intros p'. apply triple_pure. intros (used & Hu & Hlu).
  assert (length p' = 1%nat) as Hl1 by (apply (f_equal length) in Hu; rewrite length_app in Hu; lia).
  destruct p' as [|c2 [|]]; try done. apply triple_ret. intros l Hl. rewrite Hu in Hp, Hcn. inversion_clear Hcn.
  rewrite (Nat.add_1_r n_warm) in Hp. cbn in Hp. injection Hp as Hp _.
  split; [split; [done|by exists c2]|]. by replace (Z.of_nat (nc + n_warm)) with (Z.of_nat nc + Z.of_nat n_warm) by lia.
Qed.

Lemma continuity_spec k m c1 c2 :
  0 ≤ k < id_bound → endpoint c1 ≠ endpoint c2 → made c1 → made c2 →
  spec (state_at k m) (continuity E src quic server_cert transport c1 [c2])
    (λ out l, continued m out l ∧ out = (ident k, c1, c2)).
Proof.
  intros Hk Hne H1 H2. unfold continuity. change [c2] with ([] ++ [c2]). rewrite take_snoc.
  eapply triple_bind; [by apply rand_id_spec|]. intros sid.
  eapply (triple_bind _ _ _ (λ _ l, sid = ident k ∧ state_at (k + 1) m l ∧ sessions (srv l) !! sid = Some [src (conn c1)])).
  { eapply triple_post; [by apply send_fresh_spec|]. intros [] l (? & ? & ?). by split_and!. }
  intros []. apply triple_pure. intros ->. apply triple_ret_bind.
  eapply triple_bind; [eapply triple_pre; [|by apply (send_again_spec k m c2 (ident k) (bs "b") (src (conn c1)))]|].
  { by intros l (? & ?). }
  intros []. apply triple_ret. intros l (Hs & Ho & Hh). by split_and!.
Qed.

Lemma send_net c sid msg l : net (send quic c sid msg l).2 = net l.
Proof. unfold send. repeat case_match; by simplify_eq. Qed.

(** The session builds no circuit of its own. *)
Lemma continuity_net c1 c2 l : net (continuity E src quic server_cert transport c1 [c2] l).2 = net l.
Proof.
  unfold continuity, mbind, fallible_bind, mret, fallible_ret. unfold rand_id.
  destruct (next_id (ctr l)) as [sid ct]. pose proof (send_net c1 sid (bs "a") (mkLab (net l) (srv l) ct)) as H1.
  destruct (send quic c1 sid _ _) as [[[]|e] l1]; [|exact H1]. change (take [c2]) with (Some c2, @nil Circuit). cbv iota beta.
  pose proof (send_net c2 sid (bs "b") l1) as H2. destruct (send quic c2 sid _ l1) as [[[]|e] l2]; cbn in *; congruence.
Qed.
End ProgramLemmas.

(** The verdict on a session two circuits carried. *)
Lemma unlinkable_two l sid c1 c2 a b :
  sessions (srv l) !! sid = Some [a; b] →
  unlinkable l (sid, c1, c2) = bool_decide (a ≠ b ∧ local c1 ≠ local c2).
Proof.
  intros Hs. unfold unlinkable, carried_by. rewrite Hs. cbn.
  destruct (decide_rel elem_of b []) as [Hb|_]; [by apply not_elem_of_nil in Hb|].
  destruct (decide_rel elem_of a [b]) as [Hab|Hab]; cbn;
    [rewrite bool_decide_eq_false_2; [done|]|apply bool_decide_ext];
    rewrite list_elem_of_singleton in Hab; naive_solver.
Qed.

(** C32: a logical session survives rotation and leaves nothing that links the
    circuits.  When a run of the program ends well, the session's id is new to
    the server, and the session runs over the last cold circuit and then over a
    circuit of the pool, dialled before the session began: no circuit is built
    from the session's start on.  The server then has the id under exactly two
    sources, in order, those of the two circuits, whose endpoints differ; every
    other id was carried by one circuit only; the program prints OK exactly when
    the two sources differ and so do the circuits' local addresses; and every
    circuit of the run was a full handshake of its own endpoint, with resumption
    disabled and only the server's certificate trusted. *)
Theorem session_continues_over_fresh_circuits E src quic cert transport w0 n_cold n_warm sid c1 c2 l :
  Z.of_nat (total n_cold n_warm) ≤ 2 ^ 64 →
  let l0 := mkLab w0 (mkServer ∅ ∅) ID_START in
  main E src quic cert transport n_cold n_warm l0 = (Ok (sid, c1, c2), l) →
  (∃ l1, sample_all E src quic cert transport n_cold n_warm l0 = (Ok (c1, [c2]), l1) ∧
     sessions (srv l1) !! sid = None ∧ net l = net l1) ∧
  endpoint c1 = (endpoints w0 + n_cold `max` 1 - 1)%nat ∧ endpoint c2 = (endpoints w0 + n_cold `max` 1)%nat ∧
  sessions (srv l) !! sid = Some [src (conn c1); src (conn c2)] ∧
  (∀ id v, id ≠ sid → sessions (srv l) !! id = Some v → length v = 1%nat) ∧
  unlinkable l (sid, c1, c2) = bool_decide (src (conn c1) ≠ src (conn c2) ∧ local c1 ≠ local c2) ∧
  ∃ new, handshakes (net l) = handshakes w0 ++ new ∧ length new = total n_cold n_warm ∧
    NoDup (fst ∘ fst <$> new) ∧ Forall (λ h, h.1.2 = mkClientTls [cert] false Resumption_disabled ∧ h.2 = transport) new.
Proof.
  intros Ht l0 Hm. unfold main, mbind, fallible_bind in Hm.
  pose proof (sample_all_spec E src cert transport w0 quic n_cold n_warm Ht l0) as H.
  destruct (sample_all _ _ _ _ _ n_cold n_warm l0) as [[[c1' pool]|e] l1]; [|done]. cbn [fst snd] in Hm.
  destruct H as [([Hc1 Hm1] & c2' & Hp & Hc2 & Hm2) Hst].
  { split; cbn; [by rewrite wrap_small|done|done|lia|by rewrite app_nil_r]. }
  cbn [fst snd] in Hc1, Hm1, Hp. subst pool. unfold total in Ht.
  set (k := Z.of_nat (n_cold `max` 1 + n_warm)) in *. assert (0 ≤ k < 2 ^ 64) as Hk by lia.
  assert (endpoint c1' ≠ endpoint c2') as Hne by (rewrite (proj1 Hm1); lia).
  pose proof (continuity_spec E src cert transport w0 quic k _ c1' c2' Hk Hne Hm1 Hm2 l1 Hst) as Hs.
  pose proof (continuity_net E src cert transport quic c1' c2' l1) as Hn. rewrite Hm in Hs, Hn.
  destruct Hs as [(_ & _ & _ & Hs & Ho & Hh) [= -> -> ->]].
  split_and!; [| |done|done|done|by apply unlinkable_two|].
  - exists l1. split_and!; [done| |done]. apply eq_None_not_Some. intros [v Hv].
    destruct (s_ids _ _ _ _ _ _ _ Hst _ _ Hv) as (j & r & Hj & E' & _).
    apply (ident_inj (DistinctIds := counter_distinct) k j) in E'; cbn; lia.
  - rewrite (proj1 Hm1), Hc1. lia.
  - eexists. split_and!; [exact Hh|by rewrite length_fmap, length_seq| |].
    + rewrite <- list_fmap_compose, list_fmap_id. apply NoDup_seq.
    + apply Forall_fmap, Forall_forall. by intros.
Qed.

Definition demo_quic (c : nat) (payload : bytes) : stream_answers := mkAnswers true true true true.
Definition demo_source (c : nat) : SocketAddr := SA4 (V4 127 0 0 1) (40000 + Z.of_nat c).

Definition demo_rotation : result lab_error (bytes * Circuit * Circuit) * lab :=
  main demo_env demo_source demo_quic (bs "cert") None 2 4 (mkLab (mkWorld 0 []) (mkServer ∅ ∅) ID_START).
Definition demo_sid : bytes := id_at 6.
Definition demo_cold : Circuit := mkCircuit 1 1 (SA4 (V4 127 0 0 1) 50001).
Definition demo_warm : Circuit := mkCircuit 2 2 (SA4 (V4 127 0 0 1) 50002).

Lemma session_continues_over_fresh_circuits_witness :
  hex demo_sid = bs "a2135cf8c1ee73dd" ∧ demo_rotation.1 = Ok (demo_sid, demo_cold, demo_warm) ∧
  sessions (srv demo_rotation.2) !! demo_sid = Some [demo_source 1; demo_source 2].
Proof.
  assert (demo_rotation.1 = Ok (demo_sid, demo_cold, demo_warm)) as H by (by vm_compute).
  split; [by vm_compute|]. split; [exact H|].
  refine (proj1 (proj2 (proj2 (proj2 (session_continues_over_fresh_circuits demo_env demo_source demo_quic (bs "cert") None
    (mkWorld 0 []) 2 4 demo_sid demo_cold demo_warm demo_rotation.2 _ _))))).
  - by vm_compute.
  - change (demo_rotation = (Ok (demo_sid, demo_cold, demo_warm), demo_rotation.2)).
    rewrite <- H. apply surjective_pairing.
Defined.
