(* ===== verification/RotateDemo.v ===== *)
(** * The rotation demo: [crates/quicmix-eval/examples/rotate.rs].

    The same server and measurements as nym_rotate (Sessions), over circuits
    through the emulator (EmulatedPath's [emulated_front]), with ids from the
    operating system's generator and its verdict asserted. *)

From S2P Require Import Prelude Fallible RustFloat RustStr Core Oracle Client Net Rotation Sessions.
Open Scope Z_scope.

(** [rand_id]: eight bytes a draw. *)
Definition random_ids (draw : Z → bytes) : IdSource := λ n, (draw n, n + 1).

Inductive demo_error : Type := Failed (e : lab_error) | AssertFailed.

Section Program.
Context {I : IdSource}.
Variable E : env.
Variable source_of : nat → SocketAddr.
Variable quic : nat → bytes → stream_answers.
Variable server_cert : bytes.

Abbreviation M := (fallible lab lab_error).

(** [emulator::connect_fresh] and [emulator::prewarm]: no transport of their own. *)
Definition connect_emulated : M Circuit := connect E source_of server_cert None.
Definition prewarm_emulated (n : nat) : M CircuitPool := prewarm E source_of server_cert None n.

(** COLD: a new circuit on the hot path each time. *)
Fixpoint cold_rotations (k : nat) : M () :=
  match k with
  | O => mret ()
  | S k => c ← connect_emulated; _ ← sample quic c; cold_rotations k
  end.

(** [while let Some(c) = pool.take()]; the pool shrinks. *)
Fixpoint warm_rotations (fuel : nat) (pool : CircuitPool) : M () :=
  match fuel with
  | O => mret ()
  | S fuel =>
      match take pool with
      | (Some c, pool) => _ ← sample quic c; warm_rotations fuel pool
      | (None, _) => mret ()
      end
  end.

Definition rotate (k : nat) : M (bytes * Circuit * Circuit) :=
  _ ← cold_rotations k;
  pool ← prewarm_emulated k;
  _ ← warm_rotations (S (len pool)) pool;
  sid ← rand_id;
  cold_c ← connect_emulated;
  _ ← send quic cold_c sid (bs "a");
  pool2 ← prewarm_emulated 1;
  warm_c ← lift (ok_or (take pool2).1 NoCircuit);
  _ ← send quic warm_c sid (bs "b");
  mret (sid, cold_c, warm_c).

(** The run, its three assertions last. *)
Definition rotate_main (k : nat) : fallible lab demo_error (bytes * Circuit * Circuit) := λ l,
  match rotate k l with
  | (Ok out, l) => (if unlinkable l out then Ok out else Err AssertFailed, l)
  | (Err e, l) => (Err (Failed e), l)
  end.
End Program.

Definition SAMPLES : nat := 11.

(** The emulated network: three hops of 10 ms, no loss, no pacing. *)
Definition mix : OracleParams := mkOracleParams 3 (from_millis 10) (S754_zero false) 0 1200.

(** ** What a run does. *)
Section Spec.
Context {I : IdSource} {Hids : DistinctIds I}.
Variables (E : env) (src : nat → SocketAddr) (quic : nat → bytes → stream_answers).
Variables (server_cert : bytes) (w0 : world).

#[local] Abbreviation at_ k m := (state_at src server_cert None w0 k m).
#[local] Abbreviation spec P m Q := (triple P m Q (λ _ _, True)).

Lemma cold_rotations_spec (k : Z) (m n : nat) :
  0 ≤ k → k + Z.of_nat n ≤ id_bound →
  spec (at_ k m) (cold_rotations E src quic server_cert n) (λ _, at_ (k + Z.of_nat n) (m + n)).
Proof.
  revert k m. induction n as [|n IH]; intros k m Hk Hn; cbn [cold_rotations].
  { apply triple_ret. intros l Hl. by rewrite Z.add_0_r, Nat.add_0_r. }
  eapply triple_bind; [apply connect_spec|]. intros c. apply triple_pure. intros _.
  eapply triple_bind; [apply sample_spec; lia|]. intros [].
  replace (k + Z.of_nat (S n)) with (k + 1 + Z.of_nat n) by lia.
  replace (m + S n)%nat with (m + 1 + n)%nat by lia. apply IH; lia.
Qed.

(** Every circuit of the pool is timed once. *)
Lemma warm_rotations_spec (k : Z) (m fuel : nat) (pool : CircuitPool) :
  0 ≤ k → k + Z.of_nat (length pool) ≤ id_bound → (length pool < fuel)%nat →
  spec (at_ k m) (warm_rotations quic fuel pool) (λ _, at_ (k + Z.of_nat (length pool)) m).
Proof.
  revert k pool. induction fuel as [|fuel IH]; intros k pool Hk Hn Hf; cbn [warm_rotations]; [lia|].
  destruct pool as [|c pool _] using rev_ind.
  { apply triple_ret. intros l Hl. by rewrite Z.add_0_r. }
  rewrite take_snoc. rewrite length_app in *. cbn in *.
  eapply triple_bind; [apply sample_spec; lia|]. intros [].
  replace (k + Z.of_nat (length pool + 1)) with (k + 1 + Z.of_nat (length pool)) by lia. apply IH; lia.
Qed.

Definition circuits (k : nat) : nat := (k + k + 1 + 1)%nat.

Lemma rotate_spec (k : nat) :
  Z.of_nat (k + k + 1) ≤ id_bound →
  spec (at_ 0 0) (rotate E src quic server_cert k) (continued E src server_cert None w0 (circuits k)).
Proof.
  intros Hk. unfold rotate, circuits.
  eapply triple_bind; [apply cold_rotations_spec; lia|]. intros []. cbn beta.
  eapply triple_bind; [apply prewarm_spec|]. intros pool. apply triple_pure. intros [Hp _].
  assert (length pool = k) as Hlen by (apply (f_equal length) in Hp; by rewrite length_fmap, length_seq in Hp).
  eapply triple_bind; [apply warm_rotations_spec; unfold len; lia|]. intros []. rewrite Hlen.
  eapply triple_bind; [apply rand_id_spec; lia|]. intros sid.
  eapply triple_bind; [apply fresh_connect_spec|]. intros c1. apply triple_pure. intros [Hc1 Hm1].
  eapply triple_bind; [apply send_fresh_spec; lia|]. intros [].
  eapply triple_bind.
  { eapply triple_pre; [|apply (prewarm_frame E src server_cert None w0 1
      (0 + Z.of_nat k + Z.of_nat k + 1) (0 + k + k + 1) (λ m, m !! sid = Some [src (conn c1)] ∧ sid = ident (0 + Z.of_nat k + Z.of_nat k)))].
    intros l (Hl & Hs & Hi). by split. }
  intros pool2. apply triple_pure. intros [Hp2 Hmade].
  destruct pool2 as [|c2 [|]]; try done. inversion_clear Hmade. cbn [take rev fst ok_or app].
  apply triple_ret_bind. eapply triple_bind.
  { eapply triple_pre; [|apply (send_again_spec src server_cert None w0 quic (0 + Z.of_nat k + Z.of_nat k)
      (0 + k + k + 1 + 1) c2 sid (bs "b") (src (conn c1))); lia]. done. }
  intros []. apply triple_ret. intros l (Hs & Ho & Hh). split_and!; [|done..].
  cbn in Hp2. injection Hp2 as Hp2. pose proof (proj1 Hm1) as He1. lia.
Qed.
End Spec.

(** The generator's first [n] draws, when they are distinct. *)
Definition distinct_draws (draw : Z → bytes) (n : Z) : Prop :=
  (∀ a, 0 ≤ a < n → length (draw a) = 8%nat) ∧ (∀ a b, 0 ≤ a < n → 0 ≤ b < n → draw a = draw b → a = b).

Definition random_distinct draw n : distinct_draws draw n → DistinctIds (random_ids draw) := λ H,
  {| ctr_at := id; ident := draw; id_bound := n; next_id_at := λ _ _, eq_refl;
     ident_length := proj1 H; ident_inj := proj2 H |}.

(** The demo shows what it claims.  With distinct ids, a run that ends well put
    one session over two different circuits that nothing links: two sources, two
    local addresses, each of the [2k + 2] circuits a full handshake of its own
    endpoint without resumption.  And its assertions only fail on a real
    coincidence: never when different endpoints have different local addresses
    and reach the server from different sources. *)
Theorem rotation_demo_holds E src quic cert k w0 draw :
  distinct_draws draw (Z.of_nat (k + k + 1)) →
  let (r, l) := @rotate_main (random_ids draw) E src quic cert k (mkLab w0 (mkServer ∅ ∅) 0) in
  (∀ sid c1 c2, r = Ok (sid, c1, c2) →
     sessions (srv l) !! sid = Some [src (conn c1); src (conn c2)] ∧ src (conn c1) ≠ src (conn c2) ∧
     local c1 ≠ local c2 ∧
     (∀ id v, id ≠ sid → sessions (srv l) !! id = Some v → length v = 1%nat) ∧
     handshakes (net l) = handshakes w0 ++ ((λ ep, (ep, fresh_tls cert, None)) <$> seq (endpoints w0) (circuits k))) ∧
  ((∀ a b, src a = src b → a = b) → (∀ a b x, local_of E a = Some x → local_of E b = Some x → a = b) →
   r ≠ Err AssertFailed).
Proof.
  intros Hd. pose proof (@rotate_spec _ (random_distinct draw _ Hd) E src quic cert w0 k (Z.le_refl _)
    (mkLab w0 (mkServer ∅ ∅) 0)) as H.
  unfold rotate_main. destruct (rotate E src quic cert k _) as [[[[sid c1] c2]|e] l]; [|by split].
  destruct H as (He & [Hm1 Hl1] & [Hm2 Hl2] & Hs & Ho & Hh).
  { split; cbn; [done..|by intros ? ? ?|lia|by rewrite app_nil_r]. }
  rewrite (unlinkable_two _ _ _ _ _ _ Hs). case_bool_decide as Hu; split.
  - intros ? ? ? [= <- <- <-]. by destruct Hu.
  - done.
  - done.
  - intros Hsrc Hloc _. apply Hu. split; [intros E1; apply He; rewrite Hm1, Hm2; by apply Hsrc|].
    intros E1. rewrite E1 in Hl1. by apply He, (Hloc _ _ _ Hl1).
Qed.

(** Eight-byte counters as draws, two samples of each kind. *)
Definition demo_draw (n : Z) : bytes := [zb n; zb 0; zb 0; zb 0; zb 0; zb 0; zb 0; zb 7].

Lemma rotation_demo_holds_witness :
  ∃ c1 c2 l, @rotate_main (random_ids demo_draw) demo_env demo_source demo_quic (bs "cert") 2
      (mkLab (mkWorld 0 []) (mkServer ∅ ∅) 0) = (Ok (demo_draw 4, c1, c2), l) ∧
    sessions (srv l) !! demo_draw 4 = Some [demo_source (conn c1); demo_source (conn c2)].
Proof.
  assert (distinct_draws demo_draw (Z.of_nat (2 + 2 + 1))) as Hd.
  { split; [done|]. intros a b Ha Hb H.
    injection H as H. apply (f_equal bz) in H. rewrite !bz_zb in H; unfold in_u; cbn in *; lia. }
  pose proof (rotation_demo_holds demo_env demo_source demo_quic (bs "cert") 2 (mkWorld 0 []) demo_draw Hd) as H.
  destruct (@rotate_main _ _ _ _ _ 2 _) as [r l] eqn:Em. destruct H as [H _].
  assert (∃ c1 c2, r = Ok (demo_draw 4, c1, c2)) as (c1 & c2 & ->).
  { apply (f_equal fst) in Em. cbn [fst] in Em. rewrite <- Em. eexists _, _. by vm_compute. }
  exists c1, c2, l. split; [done|]. by apply H.
Defined.
