(* ===== verification/WarmPool.v ===== *)
(** * The warm circuit pool: [crates/quicmix-eval/src/proxy.rs].

    The pool's critical sections are operations on one explicit state; requests,
    the maintainer task, connections dying and leases being dropped interleave
    as an arbitrary sequence of them.  The in-flight counter of a circuit is an
    [Arc] shared by its slot and by every lease on it, so counters live in a
    heap of cells and outlive the slot. *)

From S2P Require Import Prelude RustFloat Core Oracle Client.
Open Scope Z_scope.

(** ** Data. *)
Record PoolConfig := mkPoolConfig {
  target : Z;
  max_uses : option Z;
  max_age : option Z;
  tick : Z;
  drain_timeout : Z;
}.

Definition PoolConfig_default : PoolConfig :=
  mkPoolConfig 4 None None (from_millis 250) (from_secs 10).

Definition SAMPLE_EVERY : Z := from_secs 1.

(** A connection, and an [Arc<AtomicUsize>]: handles. *)
Abbreviation conn := nat (only parsing).
Abbreviation cell := nat (only parsing).

Record Slot := mkSlot {
  circuit : conn;
  local : Z;
  born : Z;
  uses : Z;
  active : cell;
  draining : option Z;
  last_sampled : option Z;
}.

Record Lease := mkLease { lease_conn : conn; lease_active : cell }.

#[global] Instance Slot_eq_dec : EqDecision Slot.
Proof. solve_decision. Defined.
#[global] Instance Lease_eq_dec : EqDecision Lease.
Proof. solve_decision. Defined.

(** The maintainer task: asleep (or at the count of [refill]), or with this
    many circuits still to build. *)
Inductive phase : Type := Idle | Counting | Building (n : nat).

Record WarmPool := mkWarmPool {
  slots : list Slot;
  rr : Z;
  fronts : nat;
  front_rr : Z;
  fixed_transport : option TransportConfig;
  measured : option MeasuredCc;
  cfg : PoolConfig;
  built : Z;
  retired : Z;
  build_errors : Z;
}.

(** The pool with what it shares with the rest of the program: the cells, the
    leases in flight, the connections that have closed, the next free handle. *)
Record st := mkSt {
  pool : WarmPool;
  cells : gmap cell Z;
  leases : list Lease;
  closed : gset conn;
  task : phase;
  next : nat;
}.

Definition with_slots (s : list Slot) (p : WarmPool) : WarmPool :=
  mkWarmPool s (rr p) (fronts p) (front_rr p) (fixed_transport p) (measured p) (cfg p)
    (built p) (retired p) (build_errors p).
Definition with_pool (p : WarmPool) (s : st) : st :=
  mkSt p (cells s) (leases s) (closed s) (task s) (next s).
Definition with_task (t : phase) (s : st) : st :=
  mkSt (pool s) (cells s) (leases s) (closed s) t (next s).

Definition set_uses (u : Z) (s : Slot) : Slot :=
  mkSlot (circuit s) (local s) (born s) u (active s) (draining s) (last_sampled s).
Definition set_draining (d : option Z) (s : Slot) : Slot :=
  mkSlot (circuit s) (local s) (born s) (uses s) (active s) d (last_sampled s).
Definition set_sampled (t : Z) (s : Slot) : Slot :=
  mkSlot (circuit s) (local s) (born s) (uses s) (active s) (draining s) (Some t).

(** [close_reason().is_none()]. *)
Definition alive (dead : gset conn) (s : Slot) : bool := bool_decide (circuit s ∉ dead).
Definition ready (dead : gset conn) (s : Slot) : bool :=
  is_none (draining s) && alive dead s.

(** ** Operations. *)
Section Ops.
Variable pr : profile.
Variable itf : Z → option Z.   (* quinn's [IdleTimeout::try_from] *)

(** [spawn] before its first refill. *)
Definition spawn (nfronts : nat) (transport : option TransportConfig)
    (m : option MeasuredCc) (c : PoolConfig) : option st :=
  if decide (nfronts = 0%nat) then None
  else Some (mkSt (mkWarmPool [] 0 nfronts 0 transport m c 0 0 0) ∅ [] ∅ Counting 0).

Definition len (s : st) : nat := length (retain (ready (closed s)) (slots (pool s))).

Definition next_front (p : WarmPool) : option (nat * WarmPool) :=
  i ← (if decide (fronts p = 0%nat) then None else Some (front_rr p mod Z.of_nat (fronts p)));
  Some (Z.to_nat i,
    mkWarmPool (slots p) (rr p) (fronts p) (wrapping_incr 64 (front_rr p)) (fixed_transport p)
      (measured p) (cfg p) (built p) (retired p) (build_errors p)).

(** The transport of the next circuit: rebuilt from the measured oracle. *)
Definition next_transport (p : WarmPool) :
    option (option TransportConfig * option MeasuredCc) :=
  match measured p with
  | Some m => '(t, m', _) ← MeasuredCc_transport pr itf m; Some (Some t, Some m')
  | None => Some (fixed_transport p, None)
  end.

(** [refill], first part: how many circuits are missing. *)
Definition refill_count (s : st) : st :=
  with_task (Building (Z.to_nat (usat_sub (target (cfg (pool s))) (Z.of_nat (len s))))) s.

(** [refill], one turn of its loop, with [build_one] inlined: [res] is what
    [connect_fresh_with] answers ([Some local] for a handshaked circuit).
    The first component of the result is the front dialled and its transport. *)
Definition refill_build (res : option Z) (now : Z) (s : st) :
    option (option (nat * option TransportConfig) * st) :=
  match task s with
  | Building (S n) =>
      '(t, m) ← next_transport (pool s);
      '(i, p) ← next_front (pool s);
      match res with
      | Some loc =>
          let slot := mkSlot (next s) loc now 0 (next s) None None in
          Some (Some (i, t),
            mkSt (mkWarmPool (slots p ++ [slot]) (rr p) (fronts p) (front_rr p) (fixed_transport p)
                    m (cfg p) (wrapping_incr 64 (built p)) (retired p) (build_errors p))
              (<[next s := 0]> (cells s)) (leases s) (closed s)
              (match n with O => Idle | _ => Building n end) (S (next s)))
      | None =>
          Some (Some (i, t),
            with_task Idle (with_pool
              (mkWarmPool (slots p) (rr p) (fronts p) (front_rr p) (fixed_transport p)
                 m (cfg p) (built p) (retired p) (wrapping_incr 64 (build_errors p))) s))
      end
  | Building O => Some (None, with_task Idle s)
  | _ => None
  end.

(** [pick]; the outer [None] is the overflow panic of [uses += 1]. *)
Definition idxs (l : list Slot) : list nat :=
  filter (λ i, draining <$> l !! i = Some None) (seq 0 (length l)).

Definition pick (s : st) : option (option Lease * st) :=
  let l := retain (alive (closed s)) (slots (pool s)) in
  let p := with_slots l (pool s) in
  match idxs l with
  | [] => Some (None, with_pool p s)
  | js =>
      i ← js !! Z.to_nat (rr p mod Z.of_nat (length js));
      x ← l !! i;
      u ← uadd pr 64 (uses x) 1;
      a ← cells s !! active x;
      let lease := mkLease (circuit x) (active x) in
      Some (Some lease,
        mkSt (mkWarmPool (<[i := set_uses u x]> l) (wrapping_incr 64 (rr p)) (fronts p) (front_rr p)
                (fixed_transport p) (measured p) (cfg p) (built p) (retired p) (build_errors p))
          (<[active x := wrapping_incr 64 a]> (cells s))
          (leases s ++ [lease]) (closed s) (task s) (next s))
  end.

(** Dropping the [k]-th lease in flight. *)
Definition drop_lease (k : nat) (s : st) : option st :=
  l ← leases s !! k;
  a ← cells s !! lease_active l;
  Some (mkSt (pool s) (<[lease_active l := wrap 64 (a - 1)]> (cells s))
          (delete k (leases s)) (closed s) (task s) (next s)).

(** One tick of [maintain]: retire, sample, reap, in one critical section. *)
Definition should_retire (c : PoolConfig) (now : Z) (x : Slot) : bool :=
  let aged := match max_age c with Some a => a <=? usat_sub now (born x) | None => false end in
  let used := match max_uses c with Some m => m <=? uses x | None => false end in
  aged || used.

Definition retire (c : PoolConfig) (now : Z) (x : Slot) : Slot :=
  if is_none (draining x) && should_retire c now x
  then set_draining (Some (now + drain_timeout c)) x else x.

Definition newly_retired (c : PoolConfig) (now : Z) (l : list Slot) : nat :=
  length (retain (λ x, is_none (draining x) && should_retire c now x) l).

Definition due (dead : gset conn) (now : Z) (x : Slot) : bool :=
  match last_sampled x with None => true | Some t => SAMPLE_EVERY <=? usat_sub now t end
  && alive dead x.

(** Sampling the live circuits, in slot order. *)
Definition sample (stats : conn → PathStats) (dead : gset conn) (now : Z)
    (m : option MeasuredCc) (l : list Slot) : option MeasuredCc * list Slot :=
  match m with
  | None => (None, l)
  | Some m =>
      (Some (foldl (λ m x, if due dead now x then observe (stats (circuit x)) m else m) m l),
       (λ x, if due dead now x then set_sampled now x else x) <$> l)
  end.

Definition keep (cs : gmap cell Z) (dead : gset conn) (now : Z) (x : Slot) : bool :=
  let drained := match draining x with
                 | None => false
                 | Some dl => (default 0 (cs !! active x) =? 0) || (dl <=? now)
                 end in
  negb (negb (alive dead x) || drained).

Definition maintain_tick (stats : conn → PathStats) (now : Z) (s : st) : st :=
  let p := pool s in
  let c := cfg p in
  let l1 := retire c now <$> slots p in
  let '(m, l2) := sample stats (closed s) now (measured p) l1 in
  let l3 := retain (keep (cells s) (closed s) now) l2 in
  mkSt (mkWarmPool l3 (rr p) (fronts p) (front_rr p) (fixed_transport p) m c (built p)
          (wrap 64 (retired p + Z.of_nat (newly_retired c now (slots p)))) (build_errors p))
    (cells s) (leases s) (closed s) Counting (next s).

(** ** Interleavings. *)
Inductive op : Type :=
| OpPick
| OpDrop (k : nat)
| OpClose (c : conn)
| OpTick (stats : conn → PathStats) (now : Z)
| OpCount
| OpBuild (res : option Z) (now : Z).

(** [None]: the operation is not possible in this state, or panics. *)
Definition exec (o : op) (s : st) : option st :=
  match o with
  | OpPick => snd <$> pick s
  | OpDrop k => drop_lease k s
  | OpClose c =>
      if decide (c < next s)%nat
      then Some (mkSt (pool s) (cells s) (leases s) ({[c]} ∪ closed s) (task s) (next s))
      else None
  | OpTick stats now =>
      match task s with Idle => Some (maintain_tick stats now s) | _ => None end
  | OpCount => match task s with Counting => Some (refill_count s) | _ => None end
  | OpBuild res now => snd <$> refill_build res now s
  end.

Fixpoint run (os : list op) (s : st) : option st :=
  match os with [] => Some s | o :: os => s' ← exec o s; run os s' end.

Definition reachable (s : st) : Prop :=
  ∃ nf t m c s0 os, spawn nf t m c = Some s0 ∧ run os s0 = Some s.
End Ops.

(** ** Invariant. *)

(** Leases in flight on a cell. *)
Definition inflight (s : st) (a : cell) : nat :=
  length (filter (λ l, lease_active l = a) (leases s)).

(** Slots that still take requests, dead or not. *)
Definition undrained (l : list Slot) : nat := length (retain (λ x, is_none (draining x)) l).

Record pool_ok (s : st) : Prop := {
  ok_ids : NoDup (circuit <$> slots (pool s));
  ok_slot : ∀ x, x ∈ slots (pool s) → active x = circuit x ∧ (circuit x < next s)%nat;
  ok_lease : ∀ l, l ∈ leases s → lease_active l = lease_conn l ∧ (lease_conn l < next s)%nat;
  ok_cells : ∀ a, (a < next s)%nat → cells s !! a = Some (wrap 64 (Z.of_nat (inflight s a)));
  ok_closed : ∀ c, c ∈ closed s → (c < next s)%nat;
  ok_built : built (pool s) = wrap 64 (Z.of_nat (next s));
  ok_retired : ∃ n, retired (pool s) = wrap 64 (Z.of_nat n) ∧ (n + undrained (slots (pool s)) ≤ next s)%nat;
}.

Lemma wrapping_incr_of_nat n : wrapping_incr 64 (wrap 64 (Z.of_nat n)) = wrap 64 (Z.of_nat (S n)).
Proof. unfold wrapping_incr. rewrite wrap_add_l. f_equal. lia. Qed.

(** The slot list changes only by dropping slots and updating fields other
    than the identity. *)
Definition keeps_id (f : Slot → Slot) : Prop :=
  ∀ x, circuit (f x) = circuit x ∧ active (f x) = active x.

Lemma ids_fmap f (l : list Slot) : keeps_id f → circuit <$> (f <$> l) = circuit <$> l.
Proof. intros Hf. rewrite <- list_fmap_compose. apply list_fmap_ext. intros; apply Hf. Qed.

Lemma undrained_app l k : undrained (l ++ k) = (undrained l + undrained k)%nat.
Proof. unfold undrained. by rewrite retain_app, length_app. Qed.

Lemma undrained_cons x l :
  undrained (x :: l) = ((if is_none (draining x) then 1 else 0) + undrained l)%nat.
Proof. unfold undrained. rewrite retain_cons. by destruct (is_none _). Qed.

Lemma undrained_sublist l k : l `sublist_of` k → (undrained l ≤ undrained k)%nat.
Proof. induction 1; rewrite ?undrained_cons; lia. Qed.

Lemma undrained_fmap f l :
  (∀ x, is_none (draining (f x)) = is_none (draining x)) → undrained (f <$> l) = undrained l.
Proof. intros Hf. induction l; [done|]. rewrite fmap_cons, !undrained_cons, Hf. lia. Qed.

Lemma retire_undrained c now l :
  (undrained (retire c now <$> l) + newly_retired c now l)%nat = undrained l.
Proof.
  unfold newly_retired. induction l as [|x l IH]; [done|].
  rewrite fmap_cons, !undrained_cons, retain_cons. unfold retire at 1.
  destruct (is_none (draining x)) eqn:Hx; simpl; [|rewrite Hx; lia].
  destruct (should_retire c now x); simpl; rewrite ?Hx; lia.
Qed.

Lemma retire_id c now : keeps_id (retire c now).
Proof. intros x. unfold retire. by case_match. Qed.

Definition sampled (dead : gset conn) (now : Z) (m : option MeasuredCc) (x : Slot) : Slot :=
  if (match m with Some _ => due dead now x | None => false end) then set_sampled now x else x.

Lemma sampled_id dead now m : keeps_id (sampled dead now m).
Proof. intros x. unfold sampled. by case_match. Qed.

Lemma sampled_draining dead now m x : draining (sampled dead now m x) = draining x.
Proof. unfold sampled. by case_match. Qed.

Lemma sample_slots stats dead now m l : snd (sample stats dead now m l) = sampled dead now m <$> l.
Proof. destruct m; simpl; [done|]. symmetry. apply list_fmap_id. Qed.

(** What a tick makes of the slots. *)
Definition ticked (s : st) (now : Z) (x : Slot) : Slot :=
  sampled (closed s) now (measured (pool s)) (retire (cfg (pool s)) now x).

Lemma ticked_id s now : keeps_id (ticked s now).
Proof.
  intros x. unfold ticked. destruct (sampled_id (closed s) now (measured (pool s)) (retire (cfg (pool s)) now x)) as [-> ->].
  apply retire_id.
Qed.

Lemma maintain_tick_slots stats now s :
  slots (pool (maintain_tick stats now s))
  = retain (keep (cells s) (closed s) now) (ticked s now <$> slots (pool s)).
Proof.
  unfold maintain_tick. pose proof (sample_slots stats (closed s) now (measured (pool s))
    (retire (cfg (pool s)) now <$> slots (pool s))) as Hs.
  destruct (sample _ _ _ _ _) as [m l2]. simpl in *. by rewrite Hs, <- list_fmap_compose.
Qed.

Lemma set_uses_ids (i : nat) x u (l : list Slot) : l !! i = Some x → circuit <$> <[i := set_uses u x]> l = circuit <$> l.
Proof.
  intros Hx. rewrite list_fmap_insert. apply list_insert_id. by rewrite list_lookup_fmap, Hx.
Qed.

Lemma set_uses_undrained (i : nat) x u (l : list Slot) : l !! i = Some x → undrained (<[i := set_uses u x]> l) = undrained l.
Proof.
  revert i. induction l as [|y l IH]; intros [|i]; simpl; try done.
  - intros [= ->]. by rewrite !undrained_cons.
  - intros Hx. by rewrite !undrained_cons, IH.
Qed.

(** ** Preservation. *)
Lemma sub_ids (l k : list Slot) : l `sublist_of` k → NoDup (circuit <$> k) → NoDup (circuit <$> l).
Proof. intros Hs Hk. eapply sublist_NoDup; [done|]. by apply (fmap_sublist circuit). Qed.

Lemma elem_sublist {A} (x : A) l k : l `sublist_of` k → x ∈ l → x ∈ k.
Proof. intros Hs Hx. by apply (sublist_subseteq l k Hs). Qed.

Lemma spawn_ok nf t m c s : spawn nf t m c = Some s → pool_ok s.
Proof.
  unfold spawn. case_decide; [done|]. intros [= <-].
  split; simpl; try set_solver; try done; try lia.
  - constructor.
  - by exists 0%nat.
Qed.

(** The pool's slots shrink and its counters stand still. *)
Lemma pool_ok_shrink s p :
  pool_ok s → slots p `sublist_of` slots (pool s) →
  built p = built (pool s) → retired p = retired (pool s) → pool_ok (with_pool p s).
Proof.
  intros [Hi Hs Hl Hc Hd Hb (n & Hr & Hn)] Hsub Eb Er. split; simpl.
  - by eapply sub_ids.
  - eauto using elem_sublist.
  - done.
  - done.
  - done.
  - congruence.
  - exists n. split; [congruence|]. pose proof (undrained_sublist _ _ Hsub). lia.
Qed.

Lemma inflight_snoc s l a :
  length (filter (λ x, lease_active x = a) (leases s ++ [l]))
  = (inflight s a + (if decide (lease_active l = a) then 1 else 0))%nat.
Proof. unfold inflight. rewrite filter_app, length_app, filter_cons. by case_decide. Qed.

Lemma idxs_lookup l i : i ∈ idxs l → ∃ x, l !! i = Some x ∧ draining x = None.
Proof.
  unfold idxs. rewrite (list_elem_of_filter (λ i, draining <$> l !! i = Some None)).
  intros [H _]. destruct (l !! i) as [x|]; naive_solver.
Qed.

Lemma pick_inv pr s r s' :
  pick pr s = Some (r, s') →
  let l := retain (alive (closed s)) (slots (pool s)) in
  match r with
  | None => idxs l = [] ∧ s' = with_pool (with_slots l (pool s)) s
  | Some lease => ∃ i x u a,
      idxs l !! Z.to_nat (rr (pool s) mod Z.of_nat (length (idxs l))) = Some i ∧
      l !! i = Some x ∧ draining x = None ∧ uadd pr 64 (uses x) 1 = Some u ∧
      cells s !! active x = Some a ∧ lease = mkLease (circuit x) (active x) ∧
      slots (pool s') = <[i := set_uses u x]> l ∧ rr (pool s') = wrapping_incr 64 (rr (pool s)) ∧
      cells s' = <[active x := wrapping_incr 64 a]> (cells s) ∧
      leases s' = leases s ++ [lease] ∧ closed s' = closed s ∧ task s' = task s ∧ next s' = next s ∧
      built (pool s') = built (pool s) ∧ retired (pool s') = retired (pool s) ∧
      build_errors (pool s') = build_errors (pool s) ∧ cfg (pool s') = cfg (pool s)
  end.
Proof.
  unfold pick. destruct (idxs _) as [|j js] eqn:E; [by intros [= <- <-]|].
  intros (i & Hi & (x & Hx & (u & Hu & (a & Ha & [= <- <-])%bind_Some)%bind_Some)%bind_Some)%bind_Some.
  exists i, x, u, a. simpl. split_and!; try done.
  assert (i ∈ idxs (retain (alive (closed s)) (slots (pool s)))) as Hin.
  { rewrite E. by eapply list_elem_of_lookup_2. }
  apply idxs_lookup in Hin as (y & Hy & Hd). congruence.
Qed.

Lemma pick_ok pr s r s' : pool_ok s → pick pr s = Some (r, s') → pool_ok s'.
Proof.
  intros Hok Hp. apply pick_inv in Hp. pose proof (retain_sublist (alive (closed s)) (slots (pool s))) as Hsub.
  destruct r as [lease|]; [|destruct Hp as [_ ->]; by apply pool_ok_shrink].
  destruct Hp as (i & x & u & a & _ & Hx & _ & _ & Ha & -> & Esl & _ & Ec & El & Ecl & _ & En & Eb & Er & _).
  destruct Hok as [Hi Hs Hl Hc Hd Hb (n & Hr & Hn)].
  assert (x ∈ slots (pool s)) as Hxs by (eapply elem_sublist; [done|by eapply list_elem_of_lookup_2]).
  destruct (Hs x Hxs) as [Hax Hlt]. split; rewrite ?Esl, ?Ec, ?El, ?Ecl, ?En, ?Eb, ?Er.
  - rewrite (set_uses_ids _ x) by done. by eapply sub_ids.
  - intros y Hy. apply list_elem_of_lookup in Hy as [j Hj]. apply list_lookup_insert_Some in Hj as [(<- & <- & _)|[_ Hj]]; [done|].
    apply list_elem_of_lookup_2 in Hj. eauto using elem_sublist.
  - intros l Hin. apply elem_of_app in Hin as [Hin|Hin]; [auto|].
    apply list_elem_of_singleton in Hin as ->. by split.
  - intros b Hb'. unfold inflight. rewrite El, inflight_snoc. simpl.
    destruct (decide (active x = b)) as [<-|Hne].
    + rewrite lookup_insert_eq. rewrite Hc in Ha by lia. injection Ha as <-.
      rewrite wrapping_incr_of_nat. do 3 f_equal. lia.
    + rewrite lookup_insert_ne, Nat.add_0_r by done. auto.
  - done.
  - done.
  - exists n. split; [done|]. rewrite (set_uses_undrained _ x) by done.
    pose proof (undrained_sublist _ _ Hsub). lia.
Qed.

Lemma inflight_delete s k l a :
  leases s !! k = Some l →
  inflight s a = (length (filter (λ x, lease_active x = a) (delete k (leases s)))
                  + (if decide (lease_active l = a) then 1 else 0))%nat.
Proof.
  unfold inflight. intros Hk. rewrite (delete_take_drop (leases s) k).
  rewrite <- (take_drop_middle _ _ _ Hk) at 1.
  rewrite !filter_app, !length_app, filter_cons. case_decide; simpl; lia.
Qed.

Lemma drop_lease_ok k s s' : pool_ok s → drop_lease k s = Some s' → pool_ok s'.
Proof.
  intros [Hi Hs Hl Hc Hcl Hb Hr] (l & Hk & (a & Ha & [= <-])%bind_Some)%bind_Some.
  assert (l ∈ leases s) as Hin by (by eapply list_elem_of_lookup_2).
  destruct (Hl l Hin) as [Hll Hlt]. split; simpl; try done.
  - intros x Hx. apply Hl. eapply elem_sublist; [apply sublist_delete|done].
  - intros b Hb'. unfold inflight at 1. simpl.
    pose proof (inflight_delete s k l b Hk) as Hd. destruct (decide (lease_active l = b)) as [<-|Hne].
    + rewrite lookup_insert_eq. rewrite Hc in Ha by lia. injection Ha as <-.
      unfold wrap at 1. rewrite Hd. unfold wrap. rewrite Zminus_mod_idemp_l. do 2 f_equal. lia.
    + rewrite lookup_insert_ne by done. rewrite Hc by done. do 3 f_equal. lia.
Qed.

Lemma elem_of_ticked s now y :
  y ∈ ticked s now <$> slots (pool s) → ∃ x, y = ticked s now x ∧ x ∈ slots (pool s).
Proof. apply list_elem_of_fmap. Qed.

Lemma ticked_undrained s now :
  undrained (ticked s now <$> slots (pool s))
  = undrained (retire (cfg (pool s)) now <$> slots (pool s)).
Proof.
  unfold ticked. rewrite (list_fmap_compose (retire (cfg (pool s)) now)
    (sampled (closed s) now (measured (pool s)))).
  apply undrained_fmap. intros x. by rewrite sampled_draining.
Qed.

Lemma maintain_tick_rest stats now s :
  let s' := maintain_tick stats now s in
  cells s' = cells s ∧ leases s' = leases s ∧ closed s' = closed s ∧ next s' = next s ∧
  task s' = Counting ∧ built (pool s') = built (pool s) ∧
  retired (pool s') = wrap 64 (retired (pool s) + Z.of_nat (newly_retired (cfg (pool s)) now (slots (pool s)))) ∧
  cfg (pool s') = cfg (pool s).
Proof. unfold maintain_tick. by destruct (sample _ _ _ _ _). Qed.

Lemma maintain_tick_ok stats now s : pool_ok s → pool_ok (maintain_tick stats now s).
Proof.
  intros [Hi Hs Hl Hc Hd Hb (n & Hr & Hn)].
  pose proof (maintain_tick_rest stats now s) as (Ec & El & Ecl & En & _ & Eb & Er & _).
  pose proof (retain_sublist (keep (cells s) (closed s) now) (ticked s now <$> slots (pool s))) as Hsub.
  split; rewrite ?maintain_tick_slots, ?Ec, ?El, ?Ecl, ?En, ?Eb, ?Er.
  - eapply sub_ids; [done|]. by rewrite ids_fmap by apply ticked_id.
  - intros y Hy. eapply elem_sublist in Hy; [|done]. apply elem_of_ticked in Hy as (x & -> & Hx).
    destruct (ticked_id s now x) as [-> ->]. auto.
  - done.
  - intros a Ha. unfold inflight. rewrite El. by apply Hc.
  - done.
  - done.
  - exists (n + newly_retired (cfg (pool s)) now (slots (pool s)))%nat. split.
    + rewrite Hr, wrap_add_l. f_equal. lia.
    + pose proof (undrained_sublist _ _ Hsub). rewrite ticked_undrained in *.
      pose proof (retire_undrained (cfg (pool s)) now (slots (pool s))). lia.
Qed.

Lemma list_filter_none {A} (P : A → Prop) `{∀ x, Decision (P x)} l :
  (∀ x, x ∈ l → ¬ P x) → filter P l = [].
Proof.
  intros Hl. induction l as [|x l IH]; [done|]. rewrite filter_cons, decide_False by set_solver.
  apply IH. set_solver.
Qed.

Lemma next_front_Some p i p' :
  next_front p = Some (i, p') →
  i = Z.to_nat (front_rr p mod Z.of_nat (fronts p)) ∧ (i < fronts p)%nat ∧
  slots p' = slots p ∧ rr p' = rr p ∧ fronts p' = fronts p ∧
  front_rr p' = wrapping_incr 64 (front_rr p) ∧ cfg p' = cfg p ∧
  built p' = built p ∧ retired p' = retired p ∧ build_errors p' = build_errors p.
Proof.
  unfold next_front. case_decide; [done|]. simpl. intros [= <- <-]. simpl.
  split_and!; try done. pose proof (Z.mod_pos_bound (front_rr p) (Z.of_nat (fronts p))). lia.
Qed.

(** The successful and the failed turn of the refill loop. *)
Lemma refill_build_inv pr itf res now s d s' :
  refill_build pr itf res now s = Some (d, s') →
  (task s = Building 0 ∧ d = None ∧ s' = with_task Idle s) ∨
  ∃ n i t, task s = Building (S n) ∧ d = Some (i, t) ∧
    i = Z.to_nat (front_rr (pool s) mod Z.of_nat (fronts (pool s))) ∧ (i < fronts (pool s))%nat ∧
    front_rr (pool s') = wrapping_incr 64 (front_rr (pool s)) ∧ rr (pool s') = rr (pool s) ∧
    cfg (pool s') = cfg (pool s) ∧ retired (pool s') = retired (pool s) ∧ fronts (pool s') = fronts (pool s) ∧
    leases s' = leases s ∧ closed s' = closed s ∧
    match res with
    | Some loc =>
        slots (pool s') = slots (pool s) ++ [mkSlot (next s) loc now 0 (next s) None None] ∧
        cells s' = <[next s := 0]> (cells s) ∧ next s' = S (next s) ∧
        built (pool s') = wrapping_incr 64 (built (pool s)) ∧
        build_errors (pool s') = build_errors (pool s) ∧
        task s' = (match n with O => Idle | _ => Building n end)
    | None =>
        slots (pool s') = slots (pool s) ∧ cells s' = cells s ∧ next s' = next s ∧
        built (pool s') = built (pool s) ∧
        build_errors (pool s') = wrapping_incr 64 (build_errors (pool s)) ∧ task s' = Idle
    end.
Proof.
  unfold refill_build. destruct (task s) as [| |[|n]]; try done; [intros [= <- <-]; auto|].
  intros ([t m] & Ht & ([i p] & Hf & H)%bind_Some)%bind_Some. right. exists n, i, t.
  apply next_front_Some in Hf as (-> & ? & Es & Er & Ef & Efr & Ec & Eb & Ere & Ebe).
  destruct res as [loc|]; injection H as <- <-; simpl; split_and!; congruence || auto.
Qed.

Lemma refill_build_ok pr itf res now s d s' :
  pool_ok s → refill_build pr itf res now s = Some (d, s') → pool_ok s'.
Proof.
  intros [Hi Hs Hl Hc Hd Hb (n & Hr & Hn)] H.
  apply refill_build_inv in H as [(_ & _ & ->)|(k & i & t & _ & _ & _ & _ & _ & _ & _ & Er & _ & El & Ecl & H)].
  { split; simpl; eauto. }
  destruct res as [loc|]; destruct H as (Es & Ec & En & Eb & _ & _).
  - split; rewrite ?Es, ?Ec, ?En, ?Eb, ?Er, ?El, ?Ecl.
    + rewrite fmap_app. apply NoDup_app. split_and!; [done| |by apply NoDup_singleton].
      intros c [x [-> Hx]]%list_elem_of_fmap Hin%list_elem_of_singleton. destruct (Hs x Hx). simpl in *. lia.
    + intros x Hx. apply elem_of_app in Hx as [Hx|Hx].
      * destruct (Hs x Hx). split; [done|lia].
      * apply list_elem_of_singleton in Hx as ->. simpl. lia.
    + intros l Hin. destruct (Hl l Hin). split; [done|lia].
    + intros a Ha. unfold inflight. rewrite El. destruct (decide (a = next s)) as [->|Hne].
      * rewrite lookup_insert_eq. enough (filter (λ l, lease_active l = next s) (leases s) = []) as -> by done.
        apply list_filter_none. intros l Hin. destruct (Hl l Hin). lia.
      * rewrite lookup_insert_ne by done. apply Hc. lia.
    + intros c Hin%Hd. lia.
    + by rewrite Hb, wrapping_incr_of_nat.
    + exists n. split; [done|]. rewrite undrained_app. unfold undrained at 2. simpl. lia.
  - split; rewrite ?Es, ?Ec, ?En, ?Eb, ?Er, ?El, ?Ecl; try done; [|eauto].
    intros a Ha. unfold inflight. rewrite El. auto.
Qed.

Lemma exec_ok pr itf o s s' : pool_ok s → exec pr itf o s = Some s' → pool_ok s'.
Proof.
  intros Hok. destruct o as [|k|c|stats now| |res now]; simpl.
  - intros ([r s1] & H & ->)%fmap_Some. simpl. eauto using pick_ok.
  - apply drop_lease_ok, Hok.
  - case_decide; [|done]. intros [= <-]. destruct Hok. split; try done. set_solver.
  - case_match; [|done..]. intros [= <-]. by apply maintain_tick_ok.
  - case_match; [done| |done]. intros [= <-]. by destruct Hok.
  - intros ([d s1] & H & ->)%fmap_Some. simpl. eauto using refill_build_ok.
Qed.

Lemma run_ok pr itf os s s' : pool_ok s → run pr itf os s = Some s' → pool_ok s'.
Proof.
  revert s. induction os as [|o os IH]; simpl; intros s Hok; [by intros [= <-]|].
  intros (s1 & H1 & H2)%bind_Some. eauto using exec_ok.
Qed.

Lemma reachable_ok pr itf s : reachable pr itf s → pool_ok s.
Proof. intros (nf & t & m & c & s0 & os & H0 & H). eauto using spawn_ok, run_ok. Qed.

#[export] Hint Resolve reachable_ok spawn_ok pick_ok drop_lease_ok maintain_tick_ok refill_build_ok : quicmix.

(** ** Picking. *)
Lemma idxs_cons x l :
  idxs (x :: l) = (if is_none (draining x) then [0%nat] else []) ++ (S <$> idxs l).
Proof.
  unfold idxs. cbn [length seq]. rewrite filter_cons. cbn [lookup list_lookup fmap option_fmap option_map].
  rewrite <- fmap_S_seq. 
  assert (∀ js : list nat, filter (λ i : nat, draining <$> (x :: l) !! i = Some None) (S <$> js)
    = S <$> filter (λ i : nat, draining <$> l !! i = Some None) js) as ->.
  { induction js as [|j js IH]; [done|]. rewrite fmap_cons, !filter_cons. simpl. case_decide; by rewrite IH. }
  destruct (draining x) eqn:E; case_decide as Hd; simpl in *; rewrite ?E in Hd; done || congruence.
Qed.

Lemma idxs_spec l k :
  retain (λ x, is_none (draining x)) l !! k = (i ← idxs l !! k; l !! i) ∧
  length (idxs l) = undrained l.
Proof.
  unfold undrained. revert k. induction l as [|x l IH]; intros k; [done|].
  rewrite idxs_cons, retain_cons. destruct (is_none (draining x)); simpl.
  - split; [|rewrite length_fmap; f_equal; apply (IH 0%nat)].
    destruct k as [|k]; [done|]. simpl. destruct (IH k) as [-> _].
    rewrite list_lookup_fmap. by destruct (idxs l !! k).
  - split; [|rewrite length_fmap; apply (IH 0%nat)]. destruct (IH k) as [-> _].
    rewrite list_lookup_fmap. by destruct (idxs l !! k).
Qed.

Lemma retain_ready dead l :
  retain (λ x, is_none (draining x)) (retain (alive dead) l) = retain (ready dead) l.
Proof.
  induction l as [|x l IH]; [done|]. rewrite !(retain_cons _ x). unfold ready at 1.
  destruct (alive dead x); rewrite ?retain_cons, IH.
  all: by destruct (is_none (draining x)).
Qed.

Lemma idxs_nil l dead :
  idxs (retain (alive dead) l) = [] ↔ retain (ready dead) l = [].
Proof.
  rewrite <- retain_ready. pose proof (idxs_spec (retain (alive dead) l) 0) as [_ H]. unfold undrained in H.
  split; intros E; rewrite E in H; simpl in H.
  - by apply nil_length_inv.
  - by apply nil_length_inv.
Qed.

Lemma alter_insert_lookup (f : Z → Z) (c : cell) n (m : gmap cell Z) :
  m !! c = Some n → alter f c m = <[c := f n]> m.
Proof.
  intros Hm. apply map_eq. intros j. destruct (decide (j = c)) as [->|Hj].
  - by rewrite lookup_alter_eq, lookup_insert_eq, Hm.
  - by rewrite lookup_alter_ne, lookup_insert_ne.
Qed.

(** The slot the next [pick] uses: round robin over the ready ones. *)
Definition next_slot (s : st) : option Slot :=
  let ready_slots := retain (ready (closed s)) (slots (pool s)) in
  ready_slots !! Z.to_nat (rr (pool s) mod Z.of_nat (length ready_slots)).

Lemma next_slot_idxs s :
  let l := retain (alive (closed s)) (slots (pool s)) in
  next_slot s = (i ← idxs l !! Z.to_nat (rr (pool s) mod Z.of_nat (length (idxs l))); l !! i).
Proof.
  intros l. unfold next_slot. rewrite <- retain_ready. fold l.
  destruct (idxs_spec l (Z.to_nat (rr (pool s) mod Z.of_nat (length (idxs l))))) as [<- Hlen].
  unfold undrained in Hlen. by rewrite Hlen.
Qed.

Lemma next_slot_None s : next_slot s = None ↔ retain (ready (closed s)) (slots (pool s)) = [].
Proof.
  unfold next_slot. destruct (retain _ _) as [|x l]; [done|]. split; [|done].
  intros H%lookup_ge_None.
  pose proof (Z.mod_pos_bound (rr (pool s)) (Z.of_nat (length (x :: l)))). simpl length in *. lia.
Qed.

Definition with_rr (r : Z) (p : WarmPool) : WarmPool :=
  mkWarmPool (slots p) r (fronts p) (front_rr p) (fixed_transport p) (measured p) (cfg p)
    (built p) (retired p) (build_errors p).

(** The state after a request took a use and a lease of [x], the [i]-th live slot. *)
Definition leased (i : nat) (x : Slot) (s : st) : st :=
  mkSt (with_rr (wrapping_incr 64 (rr (pool s)))
          (with_slots (<[i := set_uses (uses x + 1) x]> (retain (alive (closed s)) (slots (pool s)))) (pool s)))
    (alter (wrapping_incr 64) (active x) (cells s)) (leases s ++ [mkLease (circuit x) (active x)])
    (closed s) (task s) (next s).

(** C20: a request only ever gets a circuit that is alive and not draining, in
    round-robin order, and gets one whenever there is one.  From any reachable
    state whose use counters are not at their maximum, [pick] returns.  It leases
    the ready slot the counter points at, drops closed circuits from the slots,
    adds one to that slot's uses, one to its atomic in-flight counter, one to the
    round-robin counter, and changes nothing else of the pool, of the other
    circuits' counters, of the leases or of the maintainer; afterwards every
    circuit's counter is the number of leases in flight on it (mod 2^64).  It
    returns nothing, having only dropped closed circuits, exactly when no circuit
    is ready. *)
Theorem pick_leases_ready_round_robin pr itf s :
  reachable pr itf s → (∀ x, x ∈ slots (pool s) → in_u 64 (uses x + 1)) →
  ∃ r s', pick pr s = Some (r, s') ∧
    (∀ c, (c < next s')%nat → cells s' !! c = Some (wrap 64 (Z.of_nat (inflight s' c)))) ∧
    match next_slot s with
    | None => r = None ∧ s' = with_pool (with_slots (retain (alive (closed s)) (slots (pool s))) (pool s)) s
    | Some x =>
        r = Some (mkLease (circuit x) (active x)) ∧ circuit x ∉ closed s ∧ draining x = None ∧
        (∃ n, cells s !! active x = Some n ∧ cells s' !! active x = Some (wrapping_incr 64 n)) ∧
        ∃ i, retain (alive (closed s)) (slots (pool s)) !! i = Some x ∧ s' = leased i x s
    end.
Proof.
  intros Hok%reachable_ok Hu. pose proof (next_slot_idxs s) as Hn. simpl in Hn.
  assert (∀ r s', pick pr s = Some (r, s') →
    ∀ c, (c < next s')%nat → cells s' !! c = Some (wrap 64 (Z.of_nat (inflight s' c)))) as Hcount
    by (intros r s' Hp; exact (ok_cells s' (pick_ok _ _ _ _ Hok Hp))).
  destruct (next_slot s) as [x|] eqn:Ens.
  - symmetry in Hn. apply bind_Some in Hn as (i & Hi & Hx).
    assert (x ∈ retain (ready (closed s)) (slots (pool s))) as Hr
      by (unfold next_slot in Ens; by eapply list_elem_of_lookup_2).
    apply elem_of_retain in Hr as [Hr Hxs]. apply andb_true_iff in Hr as [Hd%is_none_true Ha%bool_decide_eq_true].
    destruct (ok_slot s Hok x Hxs) as [Hax Hlt]. destruct (cells s !! active x) as [n|] eqn:Ec.
    2:{ rewrite (ok_cells s Hok) in Ec by lia. done. }
    assert (pick pr s = Some (Some (mkLease (circuit x) (active x)), leased i x s)) as Hp.
    { unfold pick. destruct (idxs _) as [|j js] eqn:E; [done|]. cbn [with_slots rr]. rewrite Hi.
      cbn [mbind option_bind]. rewrite Hx. cbn [mbind option_bind]. unfold uadd. rewrite uint_in by auto.
      cbn [mbind option_bind]. rewrite Ec. cbn [mbind option_bind]. unfold leased. do 4 f_equal.
      symmetry. by apply alter_insert_lookup. }
    eexists _, _. split; [exact Hp|]. split; [by apply (Hcount _ _ Hp)|]. split_and!; [done..| |eauto].
    exists n. split; [done|]. unfold leased. cbn [cells]. by rewrite lookup_alter_eq, Ec.
  - apply next_slot_None in Ens. apply idxs_nil in Ens.
    assert (pick pr s = Some (None, with_pool (with_slots (retain (alive (closed s)) (slots (pool s))) (pool s)) s))
      as Hp by (unfold pick; by rewrite Ens).
    eexists _, _. split; [exact Hp|]. split; [by apply (Hcount _ _ Hp)|done].
Qed.

(** ** Maintenance. *)
Lemma cell_zero s x :
  pool_ok s → x ∈ slots (pool s) → Z.of_nat (length (leases s)) < 2 ^ 64 →
  (default 0 (cells s !! active x) =? 0) = bool_decide (inflight s (active x) = 0%nat).
Proof.
  intros Hok Hx Hl. destruct (ok_slot s Hok x Hx) as [Ha Hlt].
  rewrite (ok_cells s Hok) by lia. simpl.
  assert (inflight s (active x) ≤ length (leases s))%nat by apply length_filter.
  rewrite wrap_small by (unfold in_u; lia).
  destruct (Z.eqb_spec (Z.of_nat (inflight s (active x))) 0); case_bool_decide; lia || done.
Qed.

Lemma ticked_fields s now x :
  uses (ticked s now x) = uses x ∧ born (ticked s now x) = born x ∧
  circuit (ticked s now x) = circuit x ∧ active (ticked s now x) = active x ∧
  draining (ticked s now x)
  = (if is_none (draining x) && should_retire (cfg (pool s)) now x
     then Some (now + drain_timeout (cfg (pool s))) else draining x).
Proof.
  destruct (ticked_id s now x) as [Hc Ha]. unfold ticked, sampled, retire in *.
  split_and!; try done; repeat case_match; done.
Qed.

Lemma keep_true s now y :
  keep (cells s) (closed s) now y = true ↔
  circuit y ∉ closed s ∧
  (∀ dl, draining y = Some dl → now < dl ∧ (default 0 (cells s !! active y) =? 0) = false).
Proof.
  unfold keep, alive. rewrite negb_true_iff, orb_false_iff, negb_false_iff, bool_decide_eq_true.
  apply and_iff_compat_l. destruct (draining y) as [dl|]; [|naive_solver].
  rewrite orb_false_iff. split; [intros [? ?] ? [= <-]; split; [lia|done]|].
  intros H. destruct (H dl eq_refl). split; [done|lia].
Qed.

(** A live circuit with a request in flight stays, before its deadline. *)
Lemma tick_keeps stats now s x :
  pool_ok s → Z.of_nat (length (leases s)) < 2 ^ 64 → x ∈ slots (pool s) →
  circuit x ∉ closed s → (0 < inflight s (active x))%nat →
  match draining x with Some dl => now < dl | None => 0 < drain_timeout (cfg (pool s)) end →
  ticked s now x ∈ slots (pool (maintain_tick stats now s)).
Proof.
  intros Hok Hl Hx Ha Hin Hd. destruct (ticked_fields s now x) as (_ & _ & Hc & Hac & Hdr).
  rewrite maintain_tick_slots. apply elem_of_retain. split; [|by apply list_elem_of_fmap_2].
  apply keep_true. rewrite Hc, Hac, Hdr. split; [done|]. intros dl Hdl. split.
  - destruct (draining x) as [d|]; simpl in Hdl; [by simplify_eq|]. case_match; simplify_eq; lia.
  - rewrite cell_zero by done. apply bool_decide_eq_false_2. lia.
Qed.

(** A connection has one slot. *)
Lemma same_slot s x x' :
  pool_ok s → x ∈ slots (pool s) → x' ∈ slots (pool s) → circuit x = circuit x' → x = x'.
Proof.
  intros Hok [i Hi]%list_elem_of_lookup [j Hj]%list_elem_of_lookup E.
  assert (i = j) as <- by (eapply (NoDup_lookup (circuit <$> slots (pool s)));
    [apply (ok_ids s Hok)|by rewrite list_lookup_fmap, Hi|by rewrite list_lookup_fmap, Hj; cbn; congruence]).
  congruence.
Qed.

(** A circuit that is (or gets) retired leaves once nothing is in flight on it. *)
Lemma tick_reaps stats now s x :
  pool_ok s → Z.of_nat (length (leases s)) < 2 ^ 64 → x ∈ slots (pool s) →
  inflight s (active x) = 0%nat → is_some (draining x) || should_retire (cfg (pool s)) now x = true →
  circuit x ∉ circuit <$> slots (pool (maintain_tick stats now s)).
Proof.
  intros Hok Hl Hx Hin Hr (y & Hcy & Hy)%list_elem_of_fmap. rewrite maintain_tick_slots in Hy.
  apply elem_of_retain in Hy as [Hk Hy]. apply elem_of_ticked in Hy as (x' & -> & Hx').
  destruct (ticked_fields s now x') as (_ & _ & Hc & Hac & Hdr).
  assert (x' = x) as -> by (apply (same_slot s); congruence).
  apply keep_true in Hk as [_ Hk]. rewrite Hdr, Hac in Hk.
  destruct (draining x) as [dl|]; cbn in Hr, Hk.
  - destruct (Hk dl eq_refl) as [_ Hz]. rewrite cell_zero, Hin in Hz by done. done.
  - rewrite Hr in Hk. destruct (Hk _ eq_refl) as [_ Hz]. rewrite cell_zero, Hin in Hz by done. done.
Qed.

(** Aged or over-used: what rotation retires. *)
Definition worn (c : PoolConfig) (now : Z) (x : Slot) : Prop :=
  (∃ a, max_age c = Some a ∧ a ≤ Z.max 0 (now - born x)) ∨ (∃ m, max_uses c = Some m ∧ m ≤ uses x).

Lemma should_retire_worn c now x : should_retire c now x = true ↔ worn c now x.
Proof.
  unfold should_retire, worn, usat_sub. rewrite orb_true_iff.
  destruct (max_age c) as [a|], (max_uses c) as [m|]; rewrite ?Z.leb_le; naive_solver.
Qed.

(** The drain deadline of a circuit once the tick has retired what is worn. *)
Inductive deadline (c : PoolConfig) (now : Z) (x : Slot) : option Z → Prop :=
| DrainingAlready dl : draining x = Some dl → deadline c now x (Some dl)
| JustRetired : draining x = None → worn c now x → deadline c now x (Some (now + drain_timeout c))
| NotDraining : draining x = None → ¬ worn c now x → deadline c now x None.

Lemma ticked_deadline s now x : deadline (cfg (pool s)) now x (draining (ticked s now x)).
Proof.
  destruct (ticked_fields s now x) as (_ & _ & _ & _ & ->).
  destruct (draining x) as [dl|] eqn:E; [by constructor|]. cbn.
  destruct (should_retire _ now x) eqn:Er; [apply JustRetired|apply NotDraining]; try done.
  - by apply should_retire_worn.
  - rewrite <- should_retire_worn. by rewrite Er.
Qed.

Lemma deadline_fun c now x d d' : deadline c now x d → deadline c now x d' → d = d'.
Proof. intros [] []; congruence. Qed.

(** C21: rotation is graceful and bounded.  One maintainer tick keeps exactly
    the circuits that are alive and, if draining after the retirement of this
    very tick, are before their deadline and still have a request in flight; an
    idle, live circuit that is not draining, nor aged or over-used now, stays.
    The deadline of a circuit the tick retires is [now + drain_timeout]; one that
    drained already keeps its own.  What is kept keeps its order, connection,
    counter, birth and uses. *)
Theorem rotation_is_graceful_and_bounded pr itf stats now s :
  reachable pr itf s → Z.of_nat (length (leases s)) < 2 ^ 64 →
  let s' := maintain_tick stats now s in
  (∀ x, x ∈ slots (pool s) →
     (circuit x ∈ circuit <$> slots (pool s') ↔
      circuit x ∉ closed s ∧
      ∀ dl, deadline (cfg (pool s)) now x (Some dl) → now < dl ∧ (0 < inflight s (active x))%nat)) ∧
  (circuit <$> slots (pool s')) `sublist_of` (circuit <$> slots (pool s)) ∧
  (∀ y, y ∈ slots (pool s') → ∃ x, x ∈ slots (pool s) ∧
     circuit y = circuit x ∧ active y = active x ∧ local y = local x ∧ born y = born x ∧ uses y = uses x ∧
     deadline (cfg (pool s)) now x (draining y)) ∧
  closed s' = closed s ∧ leases s' = leases s ∧ cells s' = cells s.
Proof.
  intros Hok%reachable_ok Hl s'. subst s'.
  pose proof (maintain_tick_rest stats now s) as (Ece & El & Ecl & _). rewrite maintain_tick_slots.
  split_and!; [| | |done..].
  - intros x Hx. destruct (ticked_fields s now x) as (_ & _ & Hc & Hac & _).
    assert (circuit x ∈ circuit <$> retain (keep (cells s) (closed s) now) (ticked s now <$> slots (pool s)) ↔
      keep (cells s) (closed s) now (ticked s now x) = true) as ->.
    { rewrite list_elem_of_fmap. split.
      - intros (y & Hcy & [Hk Hy]%elem_of_retain). apply elem_of_ticked in Hy as (x' & -> & Hx').
        destruct (ticked_fields s now x') as (_ & _ & Hc' & _). rewrite Hc' in Hcy.
        by rewrite (same_slot s x x' Hok).
      - intros Hk. exists (ticked s now x). split; [done|]. apply elem_of_retain.
        split; [done|by apply list_elem_of_fmap_2]. }
    rewrite keep_true, Hc, Hac. apply and_iff_compat_l. pose proof (ticked_deadline s now x) as Hd.
    split; intros H dl Hdl.
    + pose proof (deadline_fun _ _ _ _ _ Hd Hdl) as E. destruct (H dl E) as [? Hz]. split; [done|].
      rewrite cell_zero in Hz by done. apply bool_decide_eq_false in Hz. lia.
    + rewrite Hdl in Hd. destruct (H dl Hd). split; [done|]. rewrite cell_zero by done.
      apply bool_decide_eq_false_2. lia.
  - rewrite <- (ids_fmap (ticked s now) (slots (pool s))) by apply ticked_id.
    apply fmap_sublist, retain_sublist.
  - intros y [_ Hy]%elem_of_retain. apply elem_of_ticked in Hy as (x & -> & Hx).
    exists x. destruct (ticked_fields s now x) as (? & ? & ? & ? & _). split_and!; try done.
    + unfold ticked, sampled, retire. by repeat case_match.
    + apply ticked_deadline.
Qed.

(** ** Refilling. *)
Definition builds (results : list (option Z)) (now : Z) : list op := (λ r, OpBuild r now) <$> results.

(** [refill] with nothing interleaved: count, then build while it succeeds. *)
Definition refill_ops (results : list (option Z)) (now : Z) : list op := OpCount :: builds results now.

Lemma len_fresh s loc now l :
  pool_ok s →
  length (retain (ready (closed s)) (l ++ [mkSlot (next s) loc now 0 (next s) None None]))
  = S (length (retain (ready (closed s)) l)).
Proof.
  intros Hok. rewrite retain_app, length_app. unfold retain at 2. rewrite filter_cons.
  rewrite decide_True; [simpl; lia|]. unfold ready, alive. simpl.
  apply bool_decide_eq_true. intros Hin%(ok_closed s Hok). lia.
Qed.

Lemma refill_build_fixed pr itf res now s n :
  pool_ok s → measured (pool s) = None → fronts (pool s) ≠ 0%nat → task s = Building (S n) →
  ∃ d s', refill_build pr itf res now s = Some (Some d, s') ∧
    measured (pool s') = None ∧ fronts (pool s') ≠ 0%nat ∧
    match res with
    | Some _ => len s' = S (len s) ∧ build_errors (pool s') = build_errors (pool s) ∧
        task s' = (match n with O => Idle | _ => Building n end)
    | None => len s' = len s ∧ task s' = Idle ∧
        build_errors (pool s') = wrapping_incr 64 (build_errors (pool s))
    end.
Proof.
  intros Hok Hm Hf Ht. unfold refill_build, next_transport, next_front. rewrite Ht, Hm. simpl.
  rewrite decide_False by done. simpl. destruct res as [loc|]; eexists _, _; split; try done; simpl.
  split_and!; try done. unfold len. simpl. by apply len_fresh.
Qed.

Lemma builds_run pr itf results now s n :
  pool_ok s → measured (pool s) = None → fronts (pool s) ≠ 0%nat → task s = Building (S n) →
  Forall is_Some results → length results = S n →
  ∃ s', run pr itf (builds results now) s = Some s' ∧ len s' = (len s + S n)%nat ∧
    task s' = Idle ∧ build_errors (pool s') = build_errors (pool s).
Proof.
  intros Hok Hm Hf Ht Hres. revert s n Hok Hm Hf Ht.
  induction Hres as [|r results [loc ->] Hres IH]; intros s n Hok Hm Hf Ht Hlen; [done|].
  destruct (refill_build_fixed pr itf (Some loc) now s n Hok Hm Hf Ht) as (d & s1 & E & Hm1 & Hf1 & Hl1 & Hb1 & Ht1).
  unfold builds. rewrite fmap_cons. cbn [run exec]. rewrite E. simpl.
  assert (pool_ok s1) as Hok1 by eauto using refill_build_ok.
  destruct n as [|n].
  - destruct results; [|done]. simpl. exists s1. split_and!; [done|lia|done|done].
  - destruct (IH s1 n Hok1 Hm1 Hf1 Ht1 ltac:(simpl in Hlen; lia)) as (s' & Hr & Hl & Hi & Hb).
    exists s'. split_and!; [done|lia|done|congruence].
Qed.

(** [refill] restores the target.  Over fixed transports (no estimator to
    fail) and with every connection attempt succeeding, counting and building
    exactly the missing circuits leaves [max(ready, target)] ready circuits,
    no build error and the maintainer asleep again; if the first attempt fails,
    one build error is counted, nothing is added and the loop stops until the
    next tick. *)
Theorem refill_restores_target pr itf results now s :
  reachable pr itf s → measured (pool s) = None → fronts (pool s) ≠ 0%nat → task s = Counting →
  0 ≤ target (cfg (pool s)) → Forall is_Some results →
  length results = Z.to_nat (usat_sub (target (cfg (pool s))) (Z.of_nat (len s))) →
  (results ≠ [] →
   ∃ s', run pr itf (refill_ops results now) s = Some s' ∧ task s' = Idle ∧
    Z.of_nat (len s') = Z.max (Z.of_nat (len s)) (target (cfg (pool s))) ∧
    build_errors (pool s') = build_errors (pool s) ∧ pool_ok s') ∧
  (results ≠ [] →
   ∃ s', run pr itf (refill_ops [None] now) s = Some s' ∧ task s' = Idle ∧ len s' = len s ∧
    build_errors (pool s') = wrapping_incr 64 (build_errors (pool s))) ∧
  (results = [] → target (cfg (pool s)) ≤ Z.of_nat (len s)).
Proof.
  intros Hok%reachable_ok Hm Hf Ht Htg Hres Hlen. unfold refill_ops. cbn [run exec]. rewrite Ht.
  cbn [mbind option_bind]. unfold refill_count. rewrite <- Hlen.
  set (s1 := with_task (Building (length results)) s).
  assert (pool_ok s1) as Hok1 by (by destruct Hok). split_and!.
  - intros Hne. destruct (length results) as [|n] eqn:En; [by apply nil_length_inv in En|].
    destruct (builds_run pr itf results now s1 n) as (s' & Hr & Hl & Hi & Hb); try done.
    exists s'. split_and!; try done.
    + change (len s1) with (len s) in Hl. unfold usat_sub in Hlen. lia.
    + by eapply run_ok.
  - intros Hne. destruct (length results) as [|n] eqn:En; [by apply nil_length_inv in En|].
    destruct (refill_build_fixed pr itf None now s1 n) as (d & s' & E & _ & _ & Hl & Hi & Hb); try done.
    exists s'. simpl. rewrite E. simpl. auto.
  - intros ->. unfold usat_sub in Hlen. simpl in Hlen. lia.
Qed.

(** ** A concrete pool: two circuits, one request in flight. *)
Definition demo_cfg : PoolConfig := mkPoolConfig 2 (Some 1) None (from_millis 250) (from_secs 10).
Definition demo_ops : list op :=
  [OpCount; OpBuild (Some 1001) 0; OpBuild (Some 1002) 0; OpPick].
Definition demo (os : list op) : option st :=
  s ← spawn 1 None None demo_cfg; run Debug Some os s.
Definition demo_state (os : list op) : st :=
  default (mkSt (mkWarmPool [] 0 1 0 None None demo_cfg 0 0 0) ∅ [] ∅ Counting 0) (demo os).

Definition has_run (os : list op) : bool := match demo os with Some _ => true | None => false end.

Lemma demo_reachable os : has_run os = true → reachable Debug Some (demo_state os).
Proof.
  unfold has_run, demo_state, demo. destruct (spawn _ _ _ _) as [s0|] eqn:E; [simpl|done].
  destruct (run Debug Some os s0) as [s|] eqn:Er; [|done]. intros _. simpl.
  by exists 1%nat, None, None, demo_cfg, s0, os.
Qed.

Definition no_stats (c : conn) : PathStats := mkPathStats 0 0 0 0 0.

Lemma pick_leases_ready_round_robin_witness :
  ∃ r s', pick Debug (demo_state demo_ops) = Some (r, s') ∧ r = Some (mkLease 1 1).
Proof.
  destruct (pick_leases_ready_round_robin Debug Some (demo_state demo_ops)) as (r & s' & H & _ & Hm).
  - apply demo_reachable. by vm_compute.
  - change (slots (pool (demo_state demo_ops)))
      with [mkSlot 0 1001 0 1 0 None None; mkSlot 1 1002 0 0 1 None None].
    intros x Hx. repeat (apply elem_of_cons in Hx as [->|Hx]; [vm_compute; split; congruence|]).
    by apply not_elem_of_nil in Hx.
  - exists r, s'. split; [exact H|exact (proj1 Hm)].
Defined.

(** The used circuit is retired with its request in flight, the idle one stays. *)
Lemma rotation_is_graceful_and_bounded_witness :
  circuit <$> slots (pool (maintain_tick no_stats 5 (demo_state demo_ops))) = [0%nat; 1%nat] ∧
  1%nat ∈ circuit <$> slots (pool (maintain_tick no_stats 5 (demo_state demo_ops))).
Proof.
  split; [by vm_compute|].
  destruct (rotation_is_graceful_and_bounded Debug Some no_stats 5 (demo_state demo_ops)) as [H _].
  - apply demo_reachable. by vm_compute.
  - reflexivity.
  - refine (proj2 (H (mkSlot 1 1002 0 0 1 None None) _) _).
    + change (slots (pool (demo_state demo_ops)))
        with [mkSlot 0 1001 0 1 0 None None; mkSlot 1 1002 0 0 1 None None]. right. left.
    + split; [change (closed (demo_state demo_ops)) with (∅ : gset nat); apply not_elem_of_empty|].
      intros dl Hd. exfalso. change (cfg (pool (demo_state demo_ops))) with demo_cfg in Hd.
      inversion Hd as [? Hx|_ [(a & Ha & _)|(m & Hm & Hle)] E|]; [done|done|].
      change (Some 1 = Some m) in Hm. injection Hm as <-. cbn in Hle. lia.
Defined.

(** ** Balance. *)

(** How often [n] consecutive values of the counter, from [r], select index [i] of [m]. *)
Fixpoint hits (r m i : Z) (n : nat) : Z :=
  match n with
  | O => 0
  | S n => (if r mod m =? i then 1 else 0) + hits (r + 1) m i n
  end.

Lemma hits_add r m i a b : hits r m i (a + b) = hits r m i a + hits (r + Z.of_nat a) m i b.
Proof.
  revert r. induction a as [|a IH]; intros r; [simpl; by rewrite Z.add_0_r|].
  cbn [Nat.add hits]. rewrite IH. replace (r + 1 + Z.of_nat a) with (r + Z.of_nat (S a)) by lia.
  apply Z.add_assoc.
Qed.

Lemma mod_hit r m i n : 0 < m → 0 ≤ i < m → 0 ≤ n < m → ((r + n) mod m =? i) = ((i - r) mod m =? n).
Proof.
  intros Hm Hi Hn.
  assert ((r + n) mod m = i ↔ (i - r) mod m = n) as H.
  { split; intros H; subst.
    - rewrite Zminus_mod_idemp_l. replace (r + n - r) with n by lia. by apply Z.mod_small.
    - rewrite Zplus_mod_idemp_r. replace (r + (i - r)) with i by lia. by apply Z.mod_small. }
  destruct (Z.eqb_spec ((r + n) mod m) i), (Z.eqb_spec ((i - r) mod m) n); tauto.
Qed.

Lemma hits_partial r m i (n : nat) :
  0 < m → 0 ≤ i < m → Z.of_nat n ≤ m →
  hits r m i n = if (i - r) mod m <? Z.of_nat n then 1 else 0.
Proof.
  intros Hm Hi. pose proof (Z.mod_pos_bound (i - r) m Hm). induction n as [|n IH]; intros Hn.
  - cbn [hits]. destruct (Z.ltb_spec ((i - r) mod m) (Z.of_nat 0)); lia.
  - rewrite <- Nat.add_1_r, hits_add, IH by lia. cbn [hits]. rewrite mod_hit by lia.
    destruct (Z.ltb_spec ((i - r) mod m) (Z.of_nat n)), (Z.eqb_spec ((i - r) mod m) (Z.of_nat n)),
      (Z.ltb_spec ((i - r) mod m) (Z.of_nat (n + 1))); lia.
Qed.

Lemma hits_rounds r (m : nat) i (q : nat) : 0 ≤ i < Z.of_nat m → hits r (Z.of_nat m) i (q * m) = Z.of_nat q.
Proof.
  intros Hi. revert r. induction q as [|q IH]; intros r; [done|].
  cbn [Nat.mul]. rewrite hits_add, IH, hits_partial by lia.
  pose proof (Z.mod_pos_bound (i - r) (Z.of_nat m)).
  destruct (Z.ltb_spec ((i - r) mod Z.of_nat m) (Z.of_nat m)); lia.
Qed.

(** Every circuit of the pool is ready. *)
Definition all_ready (s : st) : Prop := ∀ x, x ∈ slots (pool s) → ready (closed s) x = true.

Lemma retain_all {A} (f : A → bool) l : (∀ x, x ∈ l → f x = true) → retain f l = l.
Proof.
  intros Hf. induction l as [|x l IH]; [done|]. rewrite retain_cons, Hf, IH; set_solver.
Qed.

Lemma idxs_all l : (∀ x, x ∈ l → draining x = None) → idxs l = seq 0 (length l).
Proof.
  intros Hl. induction l as [|x l IH]; [done|]. rewrite idxs_cons, IH, Hl by set_solver.
  simpl. by rewrite fmap_S_seq.
Qed.

Lemma ready_true dead x : ready dead x = true ↔ draining x = None ∧ circuit x ∉ dead.
Proof. unfold ready, alive. by rewrite andb_true_iff, is_none_true, bool_decide_eq_true. Qed.

Lemma pick_all_ready pr s i x :
  pool_ok s → all_ready s → slots (pool s) !! i = Some x →
  Z.of_nat i = rr (pool s) mod Z.of_nat (length (slots (pool s))) → in_u 64 (uses x + 1) →
  ∃ r s', pick pr s = Some (r, s') ∧ slots (pool s') = <[i := set_uses (uses x + 1) x]> (slots (pool s)) ∧
    rr (pool s') = wrapping_incr 64 (rr (pool s)) ∧ closed s' = closed s.
Proof.
  intros Hok Hall Hx Hi Hu. unfold pick.
  rewrite retain_all by (intros y Hy%Hall; apply andb_true_iff in Hy; tauto).
  rewrite idxs_all by (intros y Hy%Hall; apply ready_true in Hy; tauto).
  assert (i < length (slots (pool s)))%nat as Hlt by (by eapply lookup_lt_Some).
  destruct (seq 0 _) as [|j js] eqn:E; [apply (f_equal length) in E; rewrite length_seq in E; simpl in E; lia|].
  rewrite <- E, length_seq. cbn [with_slots rr]. rewrite <- Hi, Nat2Z.id, lookup_seq_lt by lia. simpl.
  rewrite Hx. simpl. unfold uadd. rewrite uint_in by done. simpl.
  destruct (ok_slot s Hok x) as [Ha Hn]; [by eapply list_elem_of_lookup_2|].
  rewrite (ok_cells s Hok) by lia. simpl. eauto 10.
Qed.

Lemma set_uses_all_ready s s' i x u :
  all_ready s → slots (pool s) !! i = Some x →
  slots (pool s') = <[i := set_uses u x]> (slots (pool s)) → closed s' = closed s → all_ready s'.
Proof.
  intros Hall Hx Es Ec y. rewrite Es, Ec. intros [j Hj]%list_elem_of_lookup.
  apply list_lookup_insert_Some in Hj as [(<- & <- & _)|[_ Hj]].
  - apply list_elem_of_lookup_2 in Hx. by apply Hall in Hx.
  - apply list_elem_of_lookup_2 in Hj. auto.
Qed.

Lemma picks_hits pr itf n s :
  pool_ok s → all_ready s → slots (pool s) ≠ [] → 0 ≤ rr (pool s) →
  rr (pool s) + Z.of_nat n < 2 ^ 64 →
  (∀ x, x ∈ slots (pool s) → 0 ≤ uses x ∧ uses x + Z.of_nat n < 2 ^ 64) →
  ∃ s', run pr itf (repeat OpPick n) s = Some s' ∧ length (slots (pool s')) = length (slots (pool s)) ∧
    ∀ i x, slots (pool s) !! i = Some x → ∃ x', slots (pool s') !! i = Some x' ∧ circuit x' = circuit x ∧
      uses x' = uses x + hits (rr (pool s)) (Z.of_nat (length (slots (pool s)))) (Z.of_nat i) n.
Proof.
  revert s. induction n as [|n IH]; intros s Hok Hall Hne H0 Hrr Hu.
  { exists s. split_and!; [done|done|]. intros i x Hx. exists x. split_and!; [done|done|simpl; lia]. }
  assert (0 < length (slots (pool s)))%nat as Hlen by (destruct (slots (pool s)); simpl; [done|lia]).
  pose proof (Z.mod_pos_bound (rr (pool s)) (Z.of_nat (length (slots (pool s)))) ltac:(lia)) as Hm.
  set (k := Z.to_nat (rr (pool s) mod Z.of_nat (length (slots (pool s))))).
  assert (Z.of_nat k = rr (pool s) mod Z.of_nat (length (slots (pool s)))) as Hk by lia.
  destruct (lookup_lt_is_Some_2 (slots (pool s)) k ltac:(lia)) as [y Hy].
  assert (y ∈ slots (pool s)) as Hyin by (by eapply list_elem_of_lookup_2).
  destruct (Hu y Hyin).
  destruct (pick_all_ready pr s k y) as (r & s1 & Hp & Es & Er & Ec); try done; [unfold in_u; lia|].
  assert (rr (pool s1) = rr (pool s) + 1) as Er' by (rewrite Er; apply wrap_small; unfold in_u; lia).
  assert (length (slots (pool s1)) = length (slots (pool s))) as El by (by rewrite Es, length_insert).
  destruct (IH s1) as (s' & Hrun & Hl & Hx').
  - by eapply pick_ok.
  - by eapply set_uses_all_ready.
  - intros E. rewrite E in El. simpl in El. lia.
  - lia.
  - lia.
  - rewrite Es. intros z [j Hj]%list_elem_of_lookup.
    apply list_lookup_insert_Some in Hj as [(<- & <- & _)|[_ Hj]]; [simpl; lia|].
    apply list_elem_of_lookup_2 in Hj. destruct (Hu z Hj). lia.
  - exists s'. cbn [repeat run exec]. rewrite Hp. simpl. split_and!; [done|congruence|].
    intros i x Hx. rewrite El, Er' in Hx'. destruct (decide (i = k)) as [->|Hne'].
    + rewrite Hy in Hx. injection Hx as <-.
      destruct (Hx' k (set_uses (uses y + 1) y)) as (x' & ? & ? & Eu).
      { rewrite Es. by apply list_lookup_insert_eq, (lookup_lt_Some _ _ y). }
      exists x'. split_and!; try done. rewrite Eu. cbn [hits]. rewrite <- Hk, Z.eqb_refl. simpl. lia.
    + destruct (Hx' i x) as (x' & ? & ? & Eu); [by rewrite Es, list_lookup_insert_ne|].
      exists x'. split_and!; try done. rewrite Eu. cbn [hits]. rewrite <- Hk.
      destruct (Z.eqb_spec (Z.of_nat k) (Z.of_nat i)); lia.
Qed.

(** Round robin is exactly fair.  While all [m] circuits of the pool are
    ready and nothing else happens, [q * m] requests put exactly [q] more uses
    on every circuit, whatever the counter's starting point (short of the wrap
    of the 64-bit counters). *)
Theorem pick_is_fair pr itf q s :
  reachable pr itf s → all_ready s → slots (pool s) ≠ [] → 0 ≤ rr (pool s) →
  let n := (q * length (slots (pool s)))%nat in
  rr (pool s) + Z.of_nat n < 2 ^ 64 →
  (∀ x, x ∈ slots (pool s) → 0 ≤ uses x ∧ uses x + Z.of_nat n < 2 ^ 64) →
  ∃ s', run pr itf (repeat OpPick n) s = Some s' ∧ length (slots (pool s')) = length (slots (pool s)) ∧
    ∀ i x, slots (pool s) !! i = Some x →
      ∃ x', slots (pool s') !! i = Some x' ∧ circuit x' = circuit x ∧ uses x' = uses x + Z.of_nat q.
Proof.
  intros Hok%reachable_ok Hall Hne H0 n Hrr Hu.
  destruct (picks_hits pr itf n s) as (s' & ? & ? & Hx); try done.
  exists s'. split_and!; try done. intros i x Hi. destruct (Hx i x Hi) as (x' & ? & ? & Eu).
  exists x'. split_and!; try done. rewrite Eu. unfold n. rewrite hits_rounds; [done|].
  apply lookup_lt_Some in Hi. lia.
Qed.

Lemma pick_is_fair_witness :
  ∃ s', run Debug Some (repeat OpPick 6) (demo_state demo_ops) = Some s' ∧ length (slots (pool s')) = 2%nat.
Proof.
  destruct (pick_is_fair Debug Some 3 (demo_state demo_ops)) as (s' & H1 & H2 & _).
  - apply demo_reachable. by vm_compute.
  - change (slots (pool (demo_state demo_ops)))
      with [mkSlot 0 1001 0 1 0 None None; mkSlot 1 1002 0 0 1 None None].
    intros x Hx. repeat (apply elem_of_cons in Hx as [->|Hx]; [by vm_compute|]).
    by apply not_elem_of_nil in Hx.
  - by vm_compute.
  - by vm_compute.
  - by vm_compute.
  - change (slots (pool (demo_state demo_ops)))
      with [mkSlot 0 1001 0 1 0 None None; mkSlot 1 1002 0 0 1 None None].
    intros x Hx. repeat (apply elem_of_cons in Hx as [->|Hx]; [vm_compute; split; congruence|]).
    by apply not_elem_of_nil in Hx.
  - exists s'. split; [exact H1|exact H2].
Defined.
