(* ===== verification/Metrics.v ===== *)
(** * The observability contract: [crates/quicmix-eval/src/metrics.rs].

    The exported snapshot, how its parts are merged, and the Prometheus text it
    is rendered to, with the [Display] of [f64] (shortest digits that read back
    to the same number, no exponent). *)

From S2P Require Import Prelude RustFloat RustStr Core Oracle Client Substrate WarmPool.
Open Scope Z_scope.

(** ** [Display] of [f64]. *)
Section ShowF64.
(** The value [m * 2 ^ e] against the decimal [d * 10 ^ q]: both sides scaled
    to integers; [num_scale]/[den_scale] clear the negative exponents. *)
Definition pow_pos (b k : Z) : Z := if 0 <=? k then b ^ k else 1.
Definition pow_neg (b k : Z) : Z := if 0 <=? k then 1 else b ^ (- k).

(** Sign of [d * 10 ^ q - n / 4 * 2 ^ e]. *)
Definition cmp_dec (d q n e : Z) : comparison :=
  (d * 4 * pow_pos 10 q * pow_neg 2 e ?= n * pow_pos 2 e * pow_neg 10 q).

(** The number of decimal digits before the point: [10 ^ (p-1) <= x < 10 ^ p]. *)
Definition dec_point (m e : Z) : Z :=
  let p := (Z.log2 m + e) * 30103 / 100000 + 1 in
  let p := match cmp_dec 1 p (4 * m) e with Gt => p | _ => p + 1 end in
  match cmp_dec 1 (p - 1) (4 * m) e with Gt => p - 1 | _ => p end.

(** Does [d * 10 ^ q] read back as [m * 2 ^ e]?  Inside the rounding interval,
    its ends included when the significand is even. *)
Definition reads_back (m e : Z) (d q : Z) : bool :=
  let lo := if (m =? 2 ^ 52) && negb (e =? -1074) then 4 * m - 1 else 4 * m - 2 in
  let hi := 4 * m + 2 in
  match cmp_dec d q lo e with
  | Lt => false
  | Eq => Z.even m
  | Gt => match cmp_dec d q hi e with Lt => true | Eq => Z.even m | Gt => false end
  end.

(** [floor (x / 10 ^ q)]. *)
Definition floor_dec (m e q : Z) : Z := (m * pow_pos 2 e * pow_neg 10 q) / (pow_neg 2 e * pow_pos 10 q).

(** The shortest digits: the first precision with a candidate that reads back. *)
Fixpoint shortest (fuel : nat) (m e p k : Z) : Z * Z :=
  let q := p - k in
  let f := floor_dec m e q in
  let okf := reads_back m e f q in
  let okc := reads_back m e (f + 1) q in
  let nearer_c := match cmp_dec (2 * f + 1) q (8 * m) e with Lt => true | Eq => negb (Z.even f) | Gt => false end in
  if okf && (negb okc || negb nearer_c) then (f, q)
  else if okc then (f + 1, q)
  else match fuel with O => (f, q) | S fuel => shortest fuel m e p (k + 1) end.

(** Digits [d] with exponent [q], without trailing zeros, in plain notation. *)
Fixpoint strip_zeros (fuel : nat) (d q : Z) : Z * Z :=
  match fuel with
  | O => (d, q)
  | S fuel => if (d mod 10 =? 0) && negb (d =? 0) then strip_zeros fuel (d / 10) (q + 1) else (d, q)
  end.
Definition plain (d q : Z) : str :=
  let (d, q) := strip_zeros 20 d q in
  let ds := show_uint d in
  if 0 <=? q then ds ++ replicate (Z.to_nat q) (zb 48)
  else
    let n := Z.to_nat (- q) in
    if (n <? length ds)%nat
    then take (length ds - n) ds ++ zb 46 :: drop (length ds - n) ds
    else zb 48 :: zb 46 :: replicate (n - length ds) (zb 48) ++ ds.

Definition show_f64 (x : spec_float) : str :=
  match x with
  | S754_nan => bs "NaN"
  | S754_infinity s => if s then bs "-inf" else bs "inf"
  | S754_zero s => if s then bs "-0" else bs "0"
  | S754_finite s m e =>
      let m := Zpos m in
      let (d, q) := shortest 17 m e (dec_point m e) 1 in
      (if s then [zb 45] else []) ++ plain d q
  end.
End ShowF64.

Example show_f64_a : show_f64 (lit binary64 3 100) = bs "0.03". Proof. vm_compute. reflexivity. Qed.
Example show_f64_b : show_f64 (lit binary64 1 3) = bs "0.3333333333333333". Proof. vm_compute. reflexivity. Qed.
Example show_f64_c : show_f64 (of_int binary64 1500) = bs "1500". Proof. vm_compute. reflexivity. Qed.
Example show_f64_d : show_f64 (fadd binary64 (lit binary64 1 10) (lit binary64 2 10)) = bs "0.30000000000000004".
Proof. vm_compute. reflexivity. Qed.

(** ** [QuicStats]. *)
Record QuicStats := mkQuicStats { q_sent : Z; q_lost : Z; q_lost_bytes : Z; q_events : Z }.
Definition QuicStats_default : QuicStats := mkQuicStats 0 0 0 0.

Definition QuicStats_observe (pr : profile) (c : PathStats) (s : QuicStats) : option QuicStats :=
  a ← uadd pr 64 (q_sent s) (sent_packets c);
  b ← uadd pr 64 (q_lost s) (lost_packets c);
  l ← uadd pr 64 (q_lost_bytes s) (lost_bytes c);
  e ← uadd pr 64 (q_events s) (congestion_events c);
  Some (mkQuicStats a b l e).

(** ** [Snapshot]. *)
Record Snapshot := mkSnapshot {
  substrate_sent_total : Z; substrate_recv_total : Z; substrate_send_errors_total : Z;
  substrate_dropped_total : Z; substrate_queue_depth : Z; substrate_enqueue_latency_us : Z;
  quic_sent_packets_total : Z; quic_lost_packets_total : Z; quic_lost_bytes_total : Z;
  quic_congestion_events_total : Z;
  oracle_rtt_p50_seconds : spec_float; oracle_rtt_p90_seconds : spec_float;
  oracle_rtt_p99_seconds : spec_float;
  circuits_built_total : Z; circuits_retired_total : Z; circuits_build_errors_total : Z;
  circuits_ready : Z;
}.

Definition Snapshot_default : Snapshot :=
  mkSnapshot 0 0 0 0 0 0 0 0 0 0 (S754_zero false) (S754_zero false) (S754_zero false) 0 0 0 0.

Definition with_substrate (m : MetricsSnapshot) (s : Snapshot) : Snapshot :=
  mkSnapshot (s_sent m) (s_received m) (s_send_errors m) (s_dropped m) (s_queue_depth m)
    (s_enqueue_latency_us m)
    (quic_sent_packets_total s) (quic_lost_packets_total s) (quic_lost_bytes_total s)
    (quic_congestion_events_total s) (oracle_rtt_p50_seconds s) (oracle_rtt_p90_seconds s)
    (oracle_rtt_p99_seconds s) (circuits_built_total s) (circuits_retired_total s)
    (circuits_build_errors_total s) (circuits_ready s).

Definition with_quic (q : QuicStats) (s : Snapshot) : Snapshot :=
  mkSnapshot (substrate_sent_total s) (substrate_recv_total s) (substrate_send_errors_total s)
    (substrate_dropped_total s) (substrate_queue_depth s) (substrate_enqueue_latency_us s)
    (q_sent q) (q_lost q) (q_lost_bytes q) (q_events q)
    (oracle_rtt_p50_seconds s) (oracle_rtt_p90_seconds s) (oracle_rtt_p99_seconds s)
    (circuits_built_total s) (circuits_retired_total s) (circuits_build_errors_total s) (circuits_ready s).

Definition with_oracle_rtt (p50 p90 p99 : Z) (s : Snapshot) : Snapshot :=
  mkSnapshot (substrate_sent_total s) (substrate_recv_total s) (substrate_send_errors_total s)
    (substrate_dropped_total s) (substrate_queue_depth s) (substrate_enqueue_latency_us s)
    (quic_sent_packets_total s) (quic_lost_packets_total s) (quic_lost_bytes_total s)
    (quic_congestion_events_total s) (as_secs_f64 p50) (as_secs_f64 p90) (as_secs_f64 p99)
    (circuits_built_total s) (circuits_retired_total s) (circuits_build_errors_total s) (circuits_ready s).

Definition with_circuits (built retired build_errors ready : Z) (s : Snapshot) : Snapshot :=
  mkSnapshot (substrate_sent_total s) (substrate_recv_total s) (substrate_send_errors_total s)
    (substrate_dropped_total s) (substrate_queue_depth s) (substrate_enqueue_latency_us s)
    (quic_sent_packets_total s) (quic_lost_packets_total s) (quic_lost_bytes_total s)
    (quic_congestion_events_total s) (oracle_rtt_p50_seconds s) (oracle_rtt_p90_seconds s)
    (oracle_rtt_p99_seconds s) built retired build_errors ready.

Definition loss_ratio (s : Snapshot) : spec_float :=
  if quic_sent_packets_total s =? 0 then S754_zero false
  else fdiv binary64 (of_int binary64 (quic_lost_packets_total s))
         (of_int binary64 (quic_sent_packets_total s)).

(** A metric: kind, name, help, value. *)
Record metric := mkMetric { kind : str; name : str; help : str; value : str }.

Definition counter (n h : string) (v : Z) : metric := mkMetric (bs "counter") (bs n) (bs h) (show_uint v).
Definition gauge (n h : string) (v : str) : metric := mkMetric (bs "gauge") (bs n) (bs h) v.

Definition metrics_of (s : Snapshot) : list metric :=
  [ counter "substrate_sent_total" "datagrams handed to the inner substrate" (substrate_sent_total s);
    counter "substrate_recv_total" "datagrams received from the inner substrate" (substrate_recv_total s);
    counter "substrate_send_errors_total" "inner-substrate send failures (typed SubstrateError)" (substrate_send_errors_total s);
    counter "substrate_dropped_total" "datagrams dropped by the lossy send path under backpressure" (substrate_dropped_total s);
    counter "quic_sent_packets_total" "QUIC packets sent across live circuits" (quic_sent_packets_total s);
    counter "quic_lost_packets_total" "QUIC packets declared lost (the retransmission trigger)" (quic_lost_packets_total s);
    counter "quic_lost_bytes_total" "QUIC bytes in lost packets (the volume retransmitted)" (quic_lost_bytes_total s);
    counter "quic_congestion_events_total" "QUIC congestion events across live circuits" (quic_congestion_events_total s);
    counter "circuits_built_total" "circuits ever built (pre-warm + refill + rotation)" (circuits_built_total s);
    counter "circuits_retired_total" "circuits retired into draining for rotation/age/use" (circuits_retired_total s);
    counter "circuits_build_errors_total" "failed circuit builds during refill" (circuits_build_errors_total s);
    gauge "substrate_queue_depth" "current paced send-queue depth" (show_uint (substrate_queue_depth s));
    gauge "substrate_enqueue_latency_us" "age (microseconds) of the most-recently-sent queued datagram" (show_uint (substrate_enqueue_latency_us s));
    gauge "circuits_ready" "warm, non-draining circuits ready to serve" (show_uint (circuits_ready s));
    gauge "oracle_rtt_p50_seconds" "measured RTT median" (show_f64 (oracle_rtt_p50_seconds s));
    gauge "oracle_rtt_p90_seconds" "measured RTT 90th percentile" (show_f64 (oracle_rtt_p90_seconds s));
    gauge "oracle_rtt_p99_seconds" "measured RTT 99th percentile" (show_f64 (oracle_rtt_p99_seconds s));
    gauge "quic_loss_ratio" "lost/sent packets across live circuits" (show_f64 (loss_ratio s)) ].

Definition NL : byte := zb 10.
Definition metric_lines (m : metric) : list str :=
  [bs "# HELP " ++ name m ++ bs " " ++ help m;
   bs "# TYPE " ++ name m ++ bs " " ++ kind m;
   name m ++ bs " " ++ value m].

Definition render_prometheus (s : Snapshot) : str :=
  concat ((λ l, l ++ [NL]) <$> (metrics_of s ≫= metric_lines)).

(** ** [WarmPool::metrics] (proxy.rs): the live circuits, oracle and counters. *)
Fixpoint observe_all (pr : profile) (cs : list PathStats) (q : QuicStats) : option QuicStats :=
  match cs with [] => Some q | c :: cs => q ← QuicStats_observe pr c q; observe_all pr cs q end.

Definition pool_metrics (pr : profile) (stats : nat → PathStats) (s : st) : option Snapshot :=
  let live := retain (alive (closed s)) (slots (pool s)) in
  q ← observe_all pr ((λ x, stats (circuit x)) <$> live) QuicStats_default;
  '(p50, p90, p99) ← match measured (pool s) with
                     | Some m => MeasuredCc_rtt_percentiles m
                     | None => Some (0, 0, 0)
                     end;
  Some (with_circuits (built (pool s)) (retired (pool s)) (build_errors (pool s))
          (Z.of_nat (length (retain (λ x, is_none (draining x)) live)))
          (with_oracle_rtt p50 p90 p99 (with_quic q Snapshot_default))).

(** ** Scraping the text back. *)
Definition scrape (n text : str) : list str := omap (strip_prefix (n ++ bs " ")) (split NL text).

Lemma strip_name n m v :
  zb 32 ∉ n → zb 32 ∉ m →
  strip_prefix (n ++ bs " ") (m ++ bs " " ++ v) = if decide (n = m) then Some v else None.
Proof.
  intros Hn Hm. change (bs " ") with [zb 32]. case_decide as E.
  - subst. apply strip_prefix_Some. by rewrite <- app_assoc.
  - destruct (strip_prefix _ _) as [r|] eqn:Es; [|done]. exfalso. apply strip_prefix_Some in Es.
    rewrite <- app_assoc in Es. simpl in Es.
    pose proof (split_once_app (zb 32) m v Hm) as H1. rewrite Es, split_once_app in H1 by done. congruence.
Qed.

(** What a metric must not contain for its lines to be unambiguous. *)
Record metric_ok (m : metric) : Prop := {
  mo_space : zb 32 ∉ name m;
  mo_hash : head (name m) ≠ Some (zb 35);
  mo_ne : name m ≠ [];
  mo_lines : NL ∉ name m ++ kind m ++ help m;
  mo_value : NL ∉ value m;
}.

Lemma metric_lines_ok m : metric_ok m → Forall (λ l, NL ∉ l) (metric_lines m).
Proof.
  intros [_ _ _ Hl Hv]. rewrite !not_elem_of_app in Hl. destruct Hl as (Hn & Hk & Hh).
  assert (NL ∉ bs " ") by (apply (bool_decide_unpack _); by vm_compute).
  assert (NL ∉ bs "# HELP ") by (apply (bool_decide_unpack _); by vm_compute).
  assert (NL ∉ bs "# TYPE ") by (apply (bool_decide_unpack _); by vm_compute).
  unfold metric_lines. rewrite !Forall_cons, !not_elem_of_app. split_and!; auto.
Qed.

Lemma strip_hash n p r : head n ≠ Some (zb 35) → n ≠ [] → strip_prefix (n ++ bs " ") (zb 35 :: p ++ r) = None.
Proof. destruct n as [|b n]; [done|]. simpl. intros Hb _. by rewrite decide_False by congruence. Qed.

Lemma scrape_metric n m :
  zb 32 ∉ n → head n ≠ Some (zb 35) → n ≠ [] → metric_ok m →
  omap (strip_prefix (n ++ bs " ")) (metric_lines m) = if decide (n = name m) then [value m] else [].
Proof.
  intros Hn Hh Hne Hm. unfold metric_lines.
  change (bs "# HELP ") with (zb 35 :: bs " HELP "). change (bs "# TYPE ") with (zb 35 :: bs " TYPE ").
  cbn [omap list_omap]. rewrite <- !app_comm_cons, !strip_hash by done. cbn [omap list_omap].
  rewrite strip_name by (done || apply Hm). by case_decide.
Qed.

Lemma omap_bind_metric n ms :
  zb 32 ∉ n → head n ≠ Some (zb 35) → n ≠ [] → Forall metric_ok ms →
  omap (strip_prefix (n ++ bs " ")) (ms ≫= metric_lines) = value <$> filter (λ m, n = name m) ms.
Proof.
  intros Hn Hh Hne. induction 1 as [|m ms Hm Hms IH]; [done|].
  rewrite bind_cons, omap_app, IH, scrape_metric, filter_cons by done. by case_decide.
Qed.

Lemma filter_name_unique ms m :
  NoDup (name <$> ms) → m ∈ ms → filter (λ x, name m = name x) ms = [m].
Proof.
  induction ms as [|x ms IH]; simpl; intros Hnd Hm; [by apply not_elem_of_nil in Hm|].
  apply NoDup_cons in Hnd as [Hx Hnd]. rewrite filter_cons. apply elem_of_cons in Hm as [->|Hm].
  - rewrite decide_True by done. f_equal. apply list_filter_none. intros y Hy E. apply Hx. rewrite E.
    by apply list_elem_of_fmap_2.
  - rewrite decide_False; [auto|]. intros E. apply Hx. rewrite <- E. by apply list_elem_of_fmap_2.
Qed.

Lemma plain_no_nl d q : NL ∉ plain d q.
Proof.
  assert (∀ k, NL ∉ show_uint k) as Hs by (intros k; apply show_uint_notin; left; by vm_compute).
  assert (∀ k, NL ∉ replicate k (zb 48)) as Hr.
  { intros k [E _]%elem_of_replicate. by vm_compute in E. }
  assert (NL ≠ zb 46) by (by vm_compute). assert (NL ≠ zb 48) by (by vm_compute).
  unfold plain. destruct (strip_zeros 20 d q) as [d' q']. case_match; [|case_match].
  - apply not_elem_of_app. auto.
  - apply not_elem_of_app. split; [|apply not_elem_of_cons; split; [done|]];
      intros Hin; eapply (Hs d'), elem_sublist; [|exact Hin| |exact Hin];
      [apply sublist_take|apply sublist_drop].
  - rewrite !not_elem_of_cons, not_elem_of_app. auto.
Qed.

Lemma show_f64_no_nl x : NL ∉ show_f64 x.
Proof.
  destruct x as [s|s| |s m e];
    [destruct s; apply (bool_decide_unpack _); by vm_compute
    |destruct s; apply (bool_decide_unpack _); by vm_compute
    |apply (bool_decide_unpack _); by vm_compute|].
  unfold show_f64. destruct (shortest _ _ _ _ _) as [d q]. apply not_elem_of_app.
  split; [|apply plain_no_nl]. destruct s; apply (bool_decide_unpack _); by vm_compute.
Qed.

(** The names and help texts do not depend on the values. *)
Definition metric_names : list str := name <$> metrics_of Snapshot_default.

Definition label_ok (l : str * str * str) : bool :=
  let '(n, k, h) := l in
  bool_decide (zb 32 ∉ n) && negb (bool_decide (head n = Some (zb 35))) && negb (bool_decide (n = [])) &&
  bool_decide (NL ∉ n ++ k ++ h).

Definition labels (s : Snapshot) : list (str * str * str) :=
  (λ m, (name m, kind m, help m)) <$> metrics_of s.

Lemma labels_const s : labels s = labels Snapshot_default.
Proof. reflexivity. Qed.

Lemma metrics_of_ok s : Forall metric_ok (metrics_of s) ∧ NoDup (name <$> metrics_of s).
Proof.
  split.
  - apply Forall_forall. intros m Hm.
    assert (label_ok (name m, kind m, help m) = true) as Hl.
    { assert (forallb label_ok (labels Snapshot_default) = true) as H by (by vm_compute).
      rewrite forallb_forall in H. apply H. rewrite <- (labels_const s). apply list_elem_of_In.
      by apply (list_elem_of_fmap_2 (λ m, (name m, kind m, help m))). }
    unfold label_ok in Hl. rewrite !andb_true_iff, !negb_true_iff, !bool_decide_eq_true, !bool_decide_eq_false in Hl.
    destruct Hl as (((Hs & Hh) & Hn) & Hk). split; try done.
    assert (Forall (λ m, NL ∉ value m) (metrics_of s)) as Hv.
    { assert (∀ k, NL ∉ show_uint k) as Hu by (intros k; apply show_uint_notin; left; by vm_compute).
      unfold metrics_of. repeat (apply Forall_cons; split;
        [cbn [value counter gauge]; match goal with |- _ ∉ show_uint _ => apply Hu | _ => apply show_f64_no_nl end|]).
      constructor. }
    rewrite Forall_forall in Hv. auto.
  - change (name <$> metrics_of s) with metric_names. apply (bool_decide_unpack _). by vm_compute.
Qed.

(** ** The contract: what each name exports of the parts merged. *)
Section Contract.
Variables (m : MetricsSnapshot) (q : QuicStats) (p50 p90 p99 built retired build_errors ready : Z).

Definition exported : list (string * Z) :=
  [("substrate_sent_total", s_sent m); ("substrate_recv_total", s_received m);
   ("substrate_send_errors_total", s_send_errors m); ("substrate_dropped_total", s_dropped m);
   ("quic_sent_packets_total", q_sent q); ("quic_lost_packets_total", q_lost q);
   ("quic_lost_bytes_total", q_lost_bytes q); ("quic_congestion_events_total", q_events q);
   ("circuits_built_total", built); ("circuits_retired_total", retired);
   ("circuits_build_errors_total", build_errors); ("substrate_queue_depth", s_queue_depth m);
   ("substrate_enqueue_latency_us", s_enqueue_latency_us m); ("circuits_ready", ready)]%string.

Definition exported_floats : list (string * spec_float) :=
  [("oracle_rtt_p50_seconds", as_secs_f64 p50); ("oracle_rtt_p90_seconds", as_secs_f64 p90);
   ("oracle_rtt_p99_seconds", as_secs_f64 p99);
   ("quic_loss_ratio",
     if decide (q_sent q = 0) then S754_zero false
     else fdiv binary64 (of_int binary64 (q_lost q)) (of_int binary64 (q_sent q)))]%string.

(** A pool's snapshot with a boundary's counters merged in. *)
Definition merged (s0 : Snapshot) : Snapshot :=
  with_substrate m (with_circuits built retired build_errors ready (with_oracle_rtt p50 p90 p99 (with_quic q s0))).

Lemma merged_exports s0 :
  (λ x, (name x, value x)) <$> metrics_of (merged s0) =
  ((λ x, (bs x.1, show_uint x.2)) <$> exported) ++ ((λ x, (bs x.1, show_f64 x.2)) <$> exported_floats).
Proof.
  unfold exported_floats. replace (if decide (q_sent q = 0) then S754_zero false else _) with (loss_ratio (merged s0)); [reflexivity|].
  unfold loss_ratio. change (quic_sent_packets_total (merged s0)) with (q_sent q).
  change (quic_lost_packets_total (merged s0)) with (q_lost q).
  destruct (Z.eqb_spec (q_sent q) 0); by case_decide.
Qed.
End Contract.

Lemma scrape_name s n :
  zb 32 ∉ n → head n ≠ Some (zb 35) → n ≠ [] →
  scrape n (render_prometheus s) = value <$> filter (λ m, n = name m) (metrics_of s).
Proof.
  destruct (metrics_of_ok s) as [Hok _]. intros Hn Hh Hne.
  assert (split NL (render_prometheus s) = (metrics_of s ≫= metric_lines) ++ [[]]) as Hsplit.
  { apply (split_lines NL). induction Hok as [|m ms Hm Hms IH]; [constructor|].
    rewrite bind_cons. apply Forall_app. auto using metric_lines_ok. }
  unfold scrape. rewrite Hsplit, omap_app, omap_bind_metric by done.
  destruct n; [done|]. simpl. by rewrite app_nil_r.
Qed.

Lemma scrape_exported s n v :
  (n, v) ∈ (λ x, (name x, value x)) <$> metrics_of s → scrape n (render_prometheus s) = [v].
Proof.
  intros (m & [= -> ->] & Hm)%list_elem_of_fmap. destruct (metrics_of_ok s) as [Hok Hnd].
  rewrite Forall_forall in Hok. destruct (Hok m Hm) as [? ? ? _ _].
  rewrite scrape_name by done. by rewrite filter_name_unique.
Qed.

(** C31: the exposition text is a faithful, unambiguous contract.  Whatever
    boundary, QUIC, oracle and pool figures are merged into a snapshot, scraping
    the text by name finds exactly one sample for each of the 18 metrics: each
    of the 14 counters and gauges of 64-bit integers reads back as the very figure
    its name says ([exported]); the three RTT percentiles and the loss ratio (lost
    over sent packets, 0 if none was sent) are found as Rust prints them
    ([exported_floats]).  A name that is not part of the contract is not found. *)
Theorem rendered_metrics_scrape_back m q p50 p90 p99 built retired build_errors ready s0 :
  let text := render_prometheus (merged m q p50 p90 p99 built retired build_errors ready s0) in
  let ints := exported m q built retired build_errors ready in
  let floats := exported_floats q p50 p90 p99 in
  (∀ n v, (n, v) ∈ ints → in_u 64 v → parse_uint 64 <$> scrape (bs n) text = [Some v]) ∧
  (∀ n x, (n, x) ∈ floats → scrape (bs n) text = [show_f64 x]) ∧
  (∀ n, zb 32 ∉ n → head n ≠ Some (zb 35) → n ≠ [] →
     n ∉ bs <$> (ints.*1 ++ floats.*1) → scrape n text = []) ∧
  NoDup (bs <$> (ints.*1 ++ floats.*1)).
Proof.
  intros text ints floats.
  pose proof (merged_exports m q p50 p90 p99 built retired build_errors ready s0) as Hx.
  split_and!.
  - intros n v Hn Hv. unfold text. rewrite (scrape_exported _ (bs n) (show_uint v)).
    + cbn [fmap list_fmap]. by rewrite parse_show_uint by (done || lia).
    + rewrite Hx. apply elem_of_app. left. by apply (list_elem_of_fmap_2 (λ x, (bs x.1, show_uint x.2))) in Hn.
  - intros n x Hn. apply scrape_exported. rewrite Hx. apply elem_of_app. right.
    by apply (list_elem_of_fmap_2 (λ x, (bs x.1, show_f64 x.2))) in Hn.
  - intros n Hn Hh Hne Hnin. unfold text. rewrite scrape_name by done. rewrite list_filter_none; [done|].
    intros x Hin ->. apply Hnin. clear -Hin.
    apply (list_elem_of_fmap_2 name) in Hin. exact Hin.
  - apply (bool_decide_unpack (NoDup metric_names)). by vm_compute.
Qed.

Definition demo_boundary : MetricsSnapshot := mkMetricsSnapshot 5 4 1 2 3 250.

Lemma rendered_metrics_scrape_back_witness :
  let text := render_prometheus (merged demo_boundary (mkQuicStats 1000 7 8400 2) (from_millis 700) (from_millis 1800)
                (from_millis 2800) 12 3 1 4 Snapshot_default) in
  parse_uint 64 <$> scrape (bs "substrate_dropped_total") text = [Some 2] ∧
  scrape (bs "oracle_rtt_p50_seconds") text = [bs "0.7"].
Proof.
  destruct (rendered_metrics_scrape_back demo_boundary (mkQuicStats 1000 7 8400 2) (from_millis 700) (from_millis 1800)
    (from_millis 2800) 12 3 1 4 Snapshot_default) as (Hi & Hf & _).
  split.
  - apply Hi; [by do 3 right; left|by vm_compute].
  - rewrite (Hf "oracle_rtt_p50_seconds"%string (as_secs_f64 (from_millis 700))); [by vm_compute|left].
Defined.
