(* ===== verification/PoolProxy.v ===== *)
(** * The pooled proxy: [WarmPool]'s public entry points
    ([crates/quicmix-eval/src/proxy.rs]) over the shared ingress
    ([crates/quicmix/src/ingress.rs]).

    [serve] asks the pool for a lease per request; the lease is an owned value
    that the request's futures hold and drop.  Its life is what ties the
    ingress to the maintainer: a circuit is in use while a lease on it lives. *)

From S2P Require Import Ingress.
From S2P Require Import Prelude RustFloat RustStr Core Oracle Client WarmPool.
Open Scope Z_scope.

(** ** Starting a pool. *)
Definition start (fronts : nat) (transport : option TransportConfig) (c : PoolConfig) : option st :=
  spawn fronts transport None c.
Definition start_measured (fronts : nat) (m : MeasuredCc) (c : PoolConfig) : option st :=
  spawn fronts None (Some m) c.

(** Distinct local source addresses over the live slots. *)
Definition distinct_sources (s : st) : nat := length (remove_dups (local <$> slots (pool s))).

(** ** Requests in flight.  [Running]: the service's future, which owns the
    lease; [Tunnelling]: the task a CONNECT leaves behind, which owns it until
    the splice ends; [Streaming]: a response whose head has been returned, its
    body still coming over the circuit. *)
Inductive life : Type :=
| Running (r : Ingress.request) (l : Lease)
| Tunnelling (authority : str) (l : Lease)
| Streaming (c : conn).

Definition lease_of (x : life) : option Lease :=
  match x with Running _ l | Tunnelling _ l => Some l | Streaming _ => None end.

Record proxied := mkProxied { ps : st; reqs : list life; statuses : list Z }.

Section Serve.
Variable pr : profile.
Variable itf : Z → option Z.

(** Dropping a lease. *)
Definition release (l : Lease) (s : st) : option st :=
  '(k, _) ← list_find (λ l', l' = l) (leases s); drop_lease k s.

(** What a request becomes once [proxy] has answered it over circuit [c]. *)
Definition answered (r : Ingress.request) (l : Lease) (c : Ingress.circuit) : option life :=
  if Ingress.is_connect r then (λ a, Tunnelling a l) <$> Ingress.authority r
  else match (Ingress.forward r c).1 with
       | Ok _ => Some (Streaming (lease_conn l))
       | Err _ => None
       end.

(** [Cancel]: the client goes away before the answer, the future is dropped. *)
Inductive pop : Type :=
| Request (r : Ingress.request)
| Head (k : nat) (c : Ingress.circuit)
| Cancel (k : nat)
| Finish (k : nat)
| Pool (o : op).

Definition settle (k : nat) (next : option life) (l : list life) : list life :=
  match next with Some y => <[k := y]> l | None => delete k l end.

Definition pexec (o : pop) (q : proxied) : option proxied :=
  match o with
  | Request r =>
      '(p, s) ← pick pr (ps q);
      Some (match p with
            | None => mkProxied s (reqs q) (statuses q ++ [Ingress.status (Ingress.serve None r false).1])
            | Some l => mkProxied s (reqs q ++ [Running r l]) (statuses q)
            end)
  | Head k c =>
      x ← reqs q !! k;
      match x with
      | Running r l =>
          let next := answered r l c in
          s ← (if is_some (next ≫= lease_of) then Some (ps q) else release l (ps q));
          Some (mkProxied s (settle k next (reqs q))
                  (statuses q ++ [Ingress.status (Ingress.proxy r c false).1]))
      | _ => None
      end
  | Cancel k =>
      x ← reqs q !! k;
      match x with
      | Running _ l => s ← release l (ps q); Some (mkProxied s (delete k (reqs q)) (statuses q))
      | _ => None
      end
  | Finish k =>
      x ← reqs q !! k;
      match x with
      | Tunnelling _ l => s ← release l (ps q); Some (mkProxied s (delete k (reqs q)) (statuses q))
      | Streaming _ => Some (mkProxied (ps q) (delete k (reqs q)) (statuses q))
      | Running _ _ => None
      end
  | Pool (OpPick | OpDrop _) => None
  | Pool o => s ← exec pr itf o (ps q); Some (mkProxied s (reqs q) (statuses q))
  end.

Fixpoint prun (os : list pop) (q : proxied) : option proxied :=
  match os with [] => Some q | o :: os => q' ← pexec o q; prun os q' end.

(** A proxy over a pool of any history of its own, without requests. *)
Definition serves (q : proxied) : Prop :=
  ∃ s os, reachable pr itf s ∧ leases s = [] ∧ prun os (mkProxied s [] []) = Some q.
End Serve.

(** ** Every lease in flight belongs to one request. *)
Definition held (q : proxied) : list Lease := omap lease_of (reqs q).

Record proxied_ok pr itf (q : proxied) : Prop := {
  po_pool : reachable pr itf (ps q);
  po_leases : held q ≡ₚ leases (ps q);
}.

Lemma run_snoc pr itf os o s s1 s2 :
  run pr itf os s = Some s1 → exec pr itf o s1 = Some s2 → run pr itf (os ++ [o]) s = Some s2.
Proof.
  revert s. induction os as [|o' os IH]; cbn [app run]; intros s H1 H2.
  - injection H1 as ->. rewrite H2. done.
  - apply bind_Some in H1 as (s' & -> & H1). cbn [mbind option_bind]. eauto.
Qed.

Lemma reachable_step pr itf o s s' : reachable pr itf s → exec pr itf o s = Some s' → reachable pr itf s'.
Proof.
  intros (nf & t & m & c & s0 & os & H0 & H) He.
  exists nf, t, m, c, s0, (os ++ [o]). split; [done|]. by eapply run_snoc.
Qed.

Lemma release_Some l s s' :
  release l s = Some s' → ∃ k, exec Debug Some (OpDrop k) s = Some s' ∧ leases s ≡ₚ l :: leases s'.
Proof.
  unfold release. intros ([k l'] & [Hk [-> _]]%list_find_Some & H)%bind_Some.
  exists k. split; [exact H|]. cbn in H. unfold drop_lease in H.
  rewrite Hk in H. cbn [mbind option_bind] in H. apply bind_Some in H as (a & _ & [= <-]).
  cbn [leases]. by apply delete_Permutation.
Qed.

Lemma release_reachable pr itf l s s' : reachable pr itf s → release l s = Some s' → reachable pr itf s'.
Proof. intros Hr (k & He & _)%release_Some. by apply (reachable_step pr itf (OpDrop k) s). Qed.

(** The pool's own operations leave the leases alone. *)
Lemma exec_leases pr itf o s s' :
  exec pr itf o s = Some s' → match o with OpPick | OpDrop _ => True | _ => leases s' = leases s end.
Proof.
  destruct o as [|k|c|stats now| |res now]; cbn; try done.
  - case_decide; [|done]. by intros [= <-].
  - destruct (task s); try done. intros [= <-].
    pose proof (maintain_tick_rest stats now s) as (_ & El & _). exact El.
  - destruct (task s); try done. by intros [= <-].
  - intros ([d s1] & H & ->)%fmap_Some. cbn [snd].
    apply refill_build_inv in H as [(_ & _ & ->)|(n & i & t & _ & _ & _ & _ & _ & _ & _ & _ & _ & El & _)]; done.
Qed.

Lemma pick_leases pr s p s' : pick pr s = Some (p, s') → leases s' = leases s ++ option_list p.
Proof.
  intros H. apply pick_inv in H. destruct p as [l|].
  - destruct H as (i & x & u & a & _ & _ & _ & _ & _ & _ & _ & _ & _ & El & _). exact El.
  - destruct H as [_ ->]. cbn. by rewrite app_nil_r.
Qed.

Lemma held_delete k x (l : list life) :
  l !! k = Some x → omap lease_of l ≡ₚ option_list (lease_of x) ++ omap lease_of (delete k l).
Proof.
  intros Hk. rewrite (delete_Permutation _ _ _ Hk) at 1. cbn. by destruct (lease_of x).
Qed.

Lemma held_insert k x y (l : list life) :
  l !! k = Some x → lease_of x = lease_of y → omap lease_of (<[k := y]> l) = omap lease_of l.
Proof.
  revert k. induction l as [|z l IH]; intros [|k]; try done; cbn.
  - intros [= ->] ->. done.
  - intros Hk Hxy. destruct (lease_of z); [f_equal|]; by apply IH.
Qed.

Lemma held_settle k x next (l : list life) :
  l !! k = Some x → next ≫= lease_of = None →
  omap lease_of (settle k next l) = omap lease_of (delete k l).
Proof.
  destruct next as [y|]; [|done]. cbn [mbind option_bind settle]. intros Hk Hy.
  revert k Hk. induction l as [|z l IH]; intros [|k] Hk; try done; cbn.
  - by rewrite Hy.
  - destruct (lease_of z); [f_equal|]; by apply IH.
Qed.

(** Releasing the lease of the [k]-th request as it leaves. *)
Lemma release_held pr itf q k x l s next :
  proxied_ok pr itf q → reqs q !! k = Some x → lease_of x = Some l →
  next ≫= lease_of = None → release l (ps q) = Some s →
  reachable pr itf s ∧ omap lease_of (settle k next (reqs q)) ≡ₚ leases s.
Proof.
  intros [Hr Hl] Hk Hx Hn Hs. split; [by eapply release_reachable|].
  apply release_Some in Hs as (j & _ & Hp).
  rewrite (held_settle _ _ _ _ Hk Hn). unfold held in Hl.
  rewrite (held_delete _ _ _ Hk), Hx, Hp in Hl. cbn in Hl. by apply Permutation_cons_inv in Hl.
Qed.

Lemma answered_lease r l c y : answered r l c = Some y → lease_of y = Some l ∨ lease_of y = None.
Proof.
  unfold answered. destruct (Ingress.is_connect r).
  - destruct (Ingress.authority r); [|done]. intros [= <-]. by left.
  - destruct (Ingress.forward r c).1; [|done]. intros [= <-]. by right.
Qed.

Lemma pexec_ok pr itf o q q' : proxied_ok pr itf q → pexec pr itf o q = Some q' → proxied_ok pr itf q'.
Proof.
  intros Hok H. pose proof Hok as [Hr Hl].
  destruct o as [r|k c|k|k|o]; cbn in H.
  - apply bind_Some in H as ([p s] & Hp & [= <-]).
    assert (reachable pr itf s) by (eapply (reachable_step pr itf OpPick); [done|cbn; by rewrite Hp]).
    apply pick_leases in Hp. destruct p as [l|]; split; try done; unfold held; cbn [reqs ps].
    + rewrite Hp, omap_app. cbn. by apply Permutation_app_tail.
    + by rewrite Hp, app_nil_r.
  - apply bind_Some in H as (x & Hk & H). destruct x as [r l|a l|c']; try done.
    destruct (is_some _) eqn:En; apply bind_Some in H as (s & Hs & [= <-]).
    + injection Hs as <-. split; [done|]. unfold held. cbn [reqs ps].
      destruct (answered r l c) as [y|] eqn:Ea; [|done].
      apply answered_lease in Ea as [Ea|Ea]; [|cbn in En; by rewrite Ea in En].
      cbn [settle]. by rewrite (held_insert _ _ _ _ Hk).
    + eapply release_held in Hs as [? ?]; [by split|done..|].
      by destruct (answered r l c ≫= lease_of).
  - apply bind_Some in H as (x & Hk & H). destruct x as [r l|a l|c']; try done.
    apply bind_Some in H as (s & Hs & [= <-]).
    eapply (release_held _ _ _ _ _ _ _ None) in Hs as [? ?]; [by split|done..].
  - apply bind_Some in H as (x & Hk & H). destruct x as [r l|a l|c']; [done| |].
    + apply bind_Some in H as (s & Hs & [= <-]).
      eapply (release_held _ _ _ _ _ _ _ None) in Hs as [? ?]; [by split|done..].
    + injection H as <-. split; [done|]. unfold held in *. cbn [reqs ps].
      rewrite <- Hl. by rewrite (held_delete _ _ _ Hk).
  - assert (∃ s, exec pr itf o (ps q) = Some s ∧ q' = mkProxied s (reqs q) (statuses q) ∧ leases s = leases (ps q))
      as (s & Hs & -> & El).
    { destruct o; try done; apply bind_Some in H as (s & Hs & [= <-]);
        exists s; (split_and!; [done..|]); by apply exec_leases in Hs. }
    split; [by eapply reachable_step|]. cbn [ps]. by rewrite El.
Qed.

Lemma prun_ok pr itf os q q' : proxied_ok pr itf q → prun pr itf os q = Some q' → proxied_ok pr itf q'.
Proof.
  revert q. induction os as [|o os IH]; cbn; intros q Hok H; [by injection H as <-|].
  apply bind_Some in H as (q1 & H1 & H). eauto using pexec_ok.
Qed.

Lemma serves_ok pr itf q : serves pr itf q → proxied_ok pr itf q.
Proof.
  intros (s & os & Hr & Hl & H). eapply prun_ok; [|done]. split; [done|]. cbn. by rewrite Hl.
Qed.

Lemma inflight_pos s l a : l ∈ leases s → lease_active l = a → (0 < inflight s a)%nat.
Proof.
  intros Hl Ha. unfold inflight.
  assert (l ∈ filter (λ l, lease_active l = a) (leases s)) as H by (by apply list_elem_of_filter).
  destruct (filter _ _); [by apply not_elem_of_nil in H|cbn; lia].
Qed.

Lemma inflight_zero s a : (∀ l, l ∈ leases s → lease_active l ≠ a) → inflight s a = 0%nat.
Proof. intros H. unfold inflight. by rewrite list_filter_none. Qed.

Lemma held_elem q l : l ∈ held q ↔ ∃ e, e ∈ reqs q ∧ lease_of e = Some l.
Proof. unfold held. rewrite list_elem_of_omap. naive_solver. Qed.

Lemma held_length q : (length (held q) ≤ length (reqs q))%nat.
Proof.
  unfold held. induction (reqs q) as [|x l IH]; [done|]. cbn. destruct (lease_of x); cbn; lia.
Qed.

(** C3: a request holds its circuit while its future or its tunnel owns the
    lease, and no longer.  In every history of a pooled proxy the leases in
    flight are exactly those of the requests being answered and of the open
    tunnels, so a maintainer tick keeps each of their live circuits in the pool
    before the drain deadline.  A cleartext response whose head has been
    returned holds no lease: a tick drops its retired circuit at once, however
    much of the body is still to come. *)
Theorem requests_hold_their_circuits pr itf stats now q :
  serves pr itf q → Z.of_nat (length (reqs q)) < 2 ^ 64 →
  let s := ps q in let s' := maintain_tick stats now s in
  held q ≡ₚ leases s ∧
  (∀ e l x, e ∈ reqs q → lease_of e = Some l → x ∈ slots (pool s) → circuit x = lease_conn l →
     circuit x ∉ closed s →
     match draining x with Some dl => now < dl | None => 0 < drain_timeout (cfg (pool s)) end →
     circuit x ∈ circuit <$> slots (pool s')) ∧
  (∀ x, Streaming (circuit x) ∈ reqs q → x ∈ slots (pool s) →
     (∀ e l, e ∈ reqs q → lease_of e = Some l → lease_conn l ≠ circuit x) →
     is_some (draining x) || should_retire (cfg (pool s)) now x = true →
     circuit x ∉ circuit <$> slots (pool s')).
Proof.
  intros [Hr Hp]%serves_ok Hn s s'. pose proof (reachable_ok _ _ _ Hr) as Hok.
  assert (Z.of_nat (length (leases s)) < 2 ^ 64) as Hlen.
  { pose proof (held_length q). unfold s. rewrite <- Hp. lia. }
  split_and!; [done|..].
  - intros e l x He Hl Hx Hc Ha Hd. apply list_elem_of_fmap. exists (ticked s now x).
    split; [symmetry; apply ticked_id|]. apply tick_keeps; try done.
    assert (l ∈ leases s) as Hin by (unfold s; rewrite <- Hp; apply held_elem; eauto).
    apply (inflight_pos s l); [done|]. destruct (ok_lease s Hok l Hin) as [-> _].
    destruct (ok_slot s Hok x Hx) as [-> _]. done.
  - intros x _ Hx Hno Hret. apply tick_reaps; try done. apply inflight_zero. intros l Hin.
    destruct (ok_lease s Hok l Hin) as [-> _]. destruct (ok_slot s Hok x Hx) as [-> _].
    unfold s in Hin. rewrite <- Hp in Hin. apply held_elem in Hin as (e & He & Hl). eauto.
Qed.

Definition demo_get : Ingress.request :=
  Ingress.mkRequest false (bs "GET") None (Some (bs "example.com")) None None [] [].
Definition demo_connect : Ingress.request :=
  Ingress.mkRequest true (bs "CONNECT") (Some (bs "example.com:443")) None None None [] [].
Definition demo_up : Ingress.circuit :=
  Ingress.mkCircuit true (λ _, true) (Some true) (λ _, true) (λ _ _, Some (Ingress.mkResponse 200 [] (bs "page"))).
Definition demo_pool : st := demo_state [OpCount; OpBuild (Some 1001) 0; OpBuild (Some 1002) 0].
Definition demo_traffic : list pop :=
  [Request demo_get; Head 0 demo_up; Request demo_connect; Head 1 demo_up].
Definition demo_proxied : proxied :=
  default (mkProxied demo_pool [] []) (prun Debug Some demo_traffic (mkProxied demo_pool [] [])).

(** A page half sent and an open tunnel: the page's circuit goes, the tunnel's stays. *)
Lemma requests_hold_their_circuits_witness :
  0%nat ∉ circuit <$> slots (pool (maintain_tick no_stats 5 (ps demo_proxied))) ∧
  1%nat ∈ circuit <$> slots (pool (maintain_tick no_stats 5 (ps demo_proxied))).
Proof.
  destruct (requests_hold_their_circuits Debug Some no_stats 5 demo_proxied) as (_ & Hkeep & Hreap).
  - exists demo_pool, demo_traffic. split_and!; [apply demo_reachable; by vm_compute|by vm_compute..].
  - by vm_compute.
  - change (slots (pool (ps demo_proxied)))
      with [mkSlot 0 1001 0 1 0 None None; mkSlot 1 1002 0 1 1 None None] in *.
    change (reqs demo_proxied) with [Streaming 0; Tunnelling (bs "example.com:443") (mkLease 1 1)] in *.
    split.
    + apply (Hreap (mkSlot 0 1001 0 1 0 None None)); [left|left| |by vm_compute].
      intros e l [->|[->|[]%not_elem_of_nil]%elem_of_cons]%elem_of_cons; by intros [= <-].
    + apply (Hkeep (Tunnelling (bs "example.com:443") (mkLease 1 1)) (mkLease 1 1)
        (mkSlot 1 1002 0 1 1 None None)); [right; left|done|right; left|done|by vm_compute|by vm_compute].
Defined.
