(* ===== verification/Katzenpost.v ===== *)
(** * The Katzenpost substrate: [substrates/quicmix-katzenpost/src/lib.rs].

    The thin-client protocol over the daemon's socket: frames, the handshake,
    the PKI document's wrappers, service resolution, the transport and its
    tokens.  CBOR ([ciborium]) and the hash ([blake2]) are other crates: their
    encoders, decoders and digest are parameters of the model. *)

From S2P Require Import Prelude RustFloat RustStr Core ByteStream Mix64.
From coqutil Require Import Word.LittleEndianList.
Open Scope Z_scope.

(** ** Tokens. *)
Definition TOKEN_START : Z := 0xA5A55A5A12349E37.

(** [instance_token]: two [fetch_add]s on the static counter. *)
Definition instance_token (ctr : Z) : bytes * Z :=
  let c1 := wrap 64 (ctr + TOKEN_STEP) in
  let c2 := wrap 64 (c1 + TOKEN_STEP) in
  (le_split 8 (token_mix ctr) ++ le_split 8 (token_mix c1), c2).

(** ** Messages. *)
Record Service := mkService { destination_id_hash : bytes; recipient_queue_id : bytes }.

Record SendMessage := mkSendMessage {
  with_surb : bool;
  surbid : option bytes;
  sm_destination_id_hash : bytes;
  sm_recipient_queue_id : bytes;
  sm_payload : bytes;
}.

Record Request := mkRequest { session_token : option bytes; send_message : option SendMessage }.
Definition Request_default : Request := mkRequest None None.

Definition with_reply_surb (service : Service) (payload : bytes) (ctr : Z) : SendMessage * Z :=
  let (tok, ctr) := instance_token ctr in
  (mkSendMessage true (Some tok) (destination_id_hash service) (recipient_queue_id service) payload, ctr).

Record MessageReplyEvent := mkReply { re_payload : bytes; re_error_code : Z }.

Record Response := mkResponse {
  connection_status_event : option bool;      (** [is_connected] *)
  new_pki_document_event : option bytes;      (** [payload] *)
  session_token_reply : option bool;          (** [resumed] *)
  message_reply_event : option MessageReplyEvent;
}.

(** CBOR values, as far as the code looks at them. *)
Inductive Value : Type :=
| VMap
| VBytes (b : bytes)
| VTag (tag : Z) (v : Value)
| VText (s : str)
| VOther.

Record MixDescriptor := mkDescriptor {
  identity_key : bytes;
  kaetzchen : gmap str (gmap str Value);
}.

Inductive kp_error : Type :=
| KpIo (e : io_error)
| FrameTooLarge (n : Z)
| BadCbor
| NotCbor | BadDocument | TaggedDoc | TopLevel | TooDeep
| NoIdentityKey | ServiceNotFound
| ExpectedStatus | ExpectedPki | ExpectedTokenReply
| Offline | NoReplyInTime.

Record Handshake := mkHandshake { is_connected : bool; pki_doc : bytes; session_resumed : bool }.

Definition MAX_KP_FRAME : Z := Z.shiftl 1 24.

Section Katzenpost.
Variable enc : Request → bytes.                        (* ciborium::into_writer *)
Variable dec : bytes → option Response.                (* ciborium::from_reader *)
Variable dec_value : bytes → option Value.
Variable dec_document : bytes → option (list bytes).   (* [Document]: ServiceNodes *)
Variable dec_descriptor : bytes → option MixDescriptor.
Variable blake2b256 : bytes → bytes.

(** ** Frames. *)
Definition write_frame (req : Request) (w : writer) : result io_error () * writer :=
  let buf := enc req in
  let (r1, w) := write_all (u32_to_be_bytes (wrap 32 (Z.of_nat (length buf)))) w in
  match r1 with
  | Err e => (Err e, w)
  | Ok _ =>
      let (r2, w) := write_all buf w in
      match r2 with Err e => (Err e, w) | Ok _ => flush w end
  end.

Definition read_frame (r : reader) : poll (result kp_error Response * reader) :=
  match read_exact 4 r with
  | Pending => Pending
  | Ready (Err e, r) => Ready (Err (KpIo e), r)
  | Ready (Ok len, r) =>
      let n := u32_from_be_bytes len in
      if MAX_KP_FRAME <? n then Ready (Err (FrameTooLarge n), r)
      else match read_exact (Z.to_nat n) r with
      | Pending => Pending
      | Ready (Err e, r) => Ready (Err (KpIo e), r)
      | Ready (Ok buf, r) => Ready (ok_or (dec buf) BadCbor, r)
      end
  end.

(** [read_until_reply]; [None] when the fuel runs out. *)
Fixpoint read_until_reply_fuel (fuel : nat) (r : reader) :
    option (poll (result kp_error MessageReplyEvent * reader)) :=
  match fuel with
  | O => None
  | S fuel =>
      match read_frame r with
      | Pending => Some Pending
      | Ready (Err e, r) => Some (Ready (Err e, r))
      | Ready (Ok m, r) =>
          match message_reply_event m with
          | Some ev => Some (Ready (Ok ev, r))
          | None => read_until_reply_fuel fuel r
          end
      end
  end.

(** Each turn consumes at least the four length bytes. *)
Definition read_until_reply (r : reader) : poll (result kp_error MessageReplyEvent * reader) :=
  default Pending (read_until_reply_fuel (S (length (avail r))) r).

(** ** The PKI document. *)
Fixpoint decode_document_loop (turns : nat) (cur : bytes) : result kp_error (list bytes) :=
  match turns with
  | O => Err TooDeep
  | S turns =>
      val ← ok_or (dec_value cur) NotCbor;
      match val with
      | VMap => ok_or (dec_document cur) BadDocument
      | VBytes inner => decode_document_loop turns inner
      | VTag _ (VBytes inner) => decode_document_loop turns inner
      | VTag _ _ => Err TaggedDoc
      | _ => Err TopLevel
      end
  end.
Definition decode_document (b : bytes) : result kp_error (list bytes) := decode_document_loop 4 b.

Fixpoint find_service (nodes : list bytes) (capability : str) : result kp_error Service :=
  match nodes with
  | [] => Err ServiceNotFound
  | raw :: nodes =>
      match dec_descriptor raw with
      | None => find_service nodes capability
      | Some node =>
          match inner ← kaetzchen node !! capability; inner !! bs "endpoint" with
          | Some (VText endpoint) =>
              if decide (identity_key node = []) then Err NoIdentityKey
              else Ok (mkService (blake2b256 (identity_key node)) endpoint)
          | _ => find_service nodes capability
          end
      end
  end.

Definition resolve_service (pki : bytes) (capability : str) : result kp_error Service :=
  nodes ← decode_document pki; find_service nodes capability.

(** ** The handshake: the token counter is threaded, the socket is both halves. *)
Definition connect_and_handshake (r : reader) (w : writer) (ctr : Z) :
    poll (result kp_error Handshake * reader * writer * Z) :=
  match read_frame r with
  | Pending => Pending
  | Ready (Err e, r) => Ready (Err e, r, w, ctr)
  | Ready (Ok m1, r) =>
  match connection_status_event m1 with
  | None => Ready (Err ExpectedStatus, r, w, ctr)
  | Some connected =>
  match read_frame r with
  | Pending => Pending
  | Ready (Err e, r) => Ready (Err e, r, w, ctr)
  | Ready (Ok m2, r) =>
  match new_pki_document_event m2 with
  | None => Ready (Err ExpectedPki, r, w, ctr)
  | Some pki =>
  let (tok, ctr) := instance_token ctr in
  let (rw, w) := write_frame (mkRequest (Some tok) None) w in
  match rw with
  | Err e => Ready (Err (KpIo e), r, w, ctr)
  | Ok _ =>
  match read_frame r with
  | Pending => Pending
  | Ready (Err e, r) => Ready (Err e, r, w, ctr)
  | Ready (Ok m3, r) =>
  match session_token_reply m3 with
  | None => Ready (Err ExpectedTokenReply, r, w, ctr)
  | Some resumed => Ready (Ok (mkHandshake connected pki resumed), r, w, ctr)
  end end end end end end end.

(** [request_reply] once the handshake is done; [timed_out]: the reply's
    deadline passes before the read resolves. *)
Definition request_reply (capability : str) (payload : bytes) (timed_out : bool)
    (hs : Handshake) (r : reader) (w : writer) (ctr : Z) :
    poll (result kp_error (Service * MessageReplyEvent) * reader * writer * Z) :=
  if negb (is_connected hs) then Ready (Err Offline, r, w, ctr)
  else match resolve_service (pki_doc hs) capability with
  | Err e => Ready (Err e, r, w, ctr)
  | Ok service =>
      let (sm, ctr) := with_reply_surb service payload ctr in
      let (rw, w) := write_frame (mkRequest None (Some sm)) w in
      match rw with
      | Err e => Ready (Err (KpIo e), r, w, ctr)
      | Ok _ =>
          match read_until_reply r with
          | Ready (Ok ev, r) => Ready (Ok (service, ev), r, w, ctr)
          | Ready (Err e, r) => Ready (Err e, r, w, ctr)
          | Pending => if timed_out then Ready (Err NoReplyInTime, r, w, ctr) else Pending
          end
      end
  end.

(** ** The substrate. *)
Record KatzenpostSubstrate := mkKp {
  kp_read : reader; kp_write : writer; service : Service; kp_oracle : OracleParams;
  token_ctr : Z;   (* the static counter *)
}.

Definition io_text (e : io_error) : string :=
  match e with UnexpectedEof => "early eof" | OtherIo m => m end.

Definition try_send (datagram : bytes) (s : KatzenpostSubstrate) :
    result SubstrateError () * KatzenpostSubstrate :=
  let (sm, ctr) := with_reply_surb (service s) datagram (token_ctr s) in
  let (r, w) := write_frame (mkRequest None (Some sm)) (kp_write s) in
  (map_err (λ e, Io ("katzenpost write: " +:+ io_text e)) r,
   mkKp (kp_read s) w (service s) (kp_oracle s) ctr).

Definition try_recv (s : KatzenpostSubstrate) : poll (result SubstrateError bytes * KatzenpostSubstrate) :=
  match read_until_reply (kp_read s) with
  | Pending => Pending
  | Ready (r, rd) =>
      Ready (match r with Ok ev => Ok (re_payload ev) | Err _ => Err Closed end,
             mkKp rd (kp_write s) (service s) (kp_oracle s) (token_ctr s))
  end.

#[global] Instance Kp_MixTransport : MixTransport KatzenpostSubstrate := {
  kind _ := default_kind;
  oracle := kp_oracle;
  send := send_of_try_send try_send;
  recv := recv_of_try_recv try_recv;
  try_send := try_send;
  try_recv := try_recv;
}.

#[global] Instance Kp_laws : MixTransportLaws KatzenpostSubstrate.
Proof. by split. Qed.

(** [connect_service]: the handshake, then the capability's service. *)
Definition connect_service (capability : str) (oracle : OracleParams) (r : reader) (w : writer) (ctr : Z) :
    poll (result kp_error (KatzenpostSubstrate * Handshake)) :=
  match connect_and_handshake r w ctr with
  | Pending => Pending
  | Ready (Err e, _, _, _) => Ready (Err e)
  | Ready (Ok hs, r, w, ctr) =>
      Ready (s ← resolve_service (pki_doc hs) capability; Ok (mkKp r w s oracle ctr, hs))
  end.
End Katzenpost.

Definition katzenpost_oracle : OracleParams :=
  mkOracleParams 3 (from_millis 50) (S754_zero false) (from_millis 30) 1200.

(** ** The token generator is injective. *)
(** The first [k] tokens of a process whose counter starts at [ctr]. *)
Fixpoint tokens (k : nat) (ctr : Z) : list bytes :=
  match k with O => [] | S k => fst (instance_token ctr) :: tokens k (snd (instance_token ctr)) end.

Lemma instance_token_ctr ctr : snd (instance_token ctr) = wrap 64 (ctr + 2 * TOKEN_STEP).
Proof. unfold instance_token. cbn [snd]. rewrite wrap_add_l. f_equal. lia. Qed.

Lemma tokens_lookup k n ctr t :
  in_u 64 ctr → tokens n ctr !! k = Some t →
  t = fst (instance_token (wrap 64 (ctr + 2 * Z.of_nat k * TOKEN_STEP))).
Proof.
  revert k ctr. induction n as [|n IH]; intros k ctr Hc; [done|]. cbn [tokens].
  destruct k as [|k]; cbn [lookup list_lookup].
  - intros E. apply (inj Some) in E as <-. rewrite Z.mul_0_r, Z.mul_0_l, Z.add_0_r. by rewrite wrap_small.
  - rewrite instance_token_ctr. intros Hk.
    rewrite (IH _ _ (wrap_range 64 _ ltac:(lia)) Hk), wrap_add_l. do 3 f_equal. lia.
Qed.

Lemma tokens_length n ctr : length (tokens n ctr) = n.
Proof. revert ctr. induction n as [|n IH]; intros ctr; [done|]. cbn [tokens length]. by rewrite IH. Qed.

Lemma instance_token_inj c d : in_u 64 c → in_u 64 d → fst (instance_token c) = fst (instance_token d) → c = d.
Proof.
  intros Hc Hd E. unfold instance_token in E. cbn [fst] in E.
  apply app_inj_1 in E as [E _]; [|by rewrite !length_le_split].
  apply le_split_8_inj in E; auto using token_mix_range, token_mix_inj.
Qed.

(** Tokens do not repeat within a process.  From any start of the 64-bit
    counter, the first 2^63 calls of [instance_token] return pairwise different
    16-byte tokens: the step is odd and the mixing is a bijection on 64-bit
    words. *)
Theorem instance_tokens_are_distinct n ctr j k t u :
  in_u 64 ctr → Z.of_nat n ≤ 2 ^ 63 →
  tokens n ctr !! j = Some t → tokens n ctr !! k = Some u → t = u → j = k.
Proof.
  intros Hc Hn Hj Hk ->.
  pose proof (lookup_lt_Some _ _ _ Hj) as Hlj. pose proof (lookup_lt_Some _ _ _ Hk) as Hlk.
  rewrite tokens_length in Hlj, Hlk.
  apply tokens_lookup in Hj as E; [|done]. apply tokens_lookup in Hk as E'; [|done].
  rewrite E' in E. apply instance_token_inj in E; [|by apply wrap_range..].
  apply step_inj in E; lia.
Qed.

(** ** Receiving. *)
Section Receive.
Variable dec : bytes → option Response.

Definition kp_fits (b : bytes) : Prop := Z.of_nat (length b) ≤ 16 * 2 ^ 20.
(** A frame carrying an event that is not a reply. *)
Definition event_frame (b : bytes) : Prop :=
  kp_fits b ∧ ∃ m, dec b = Some m ∧ message_reply_event m = None.

Lemma read_frame_app b y e :
  kp_fits b → read_frame dec (mkReader (frame b ++ y) e) = Ready (ok_or (dec b) BadCbor, mkReader y e).
Proof.
  unfold kp_fits. intros Hb.
  unfold read_frame, frame. rewrite <- app_assoc, read_exact_app by apply u32_to_be_bytes_length.
  rewrite frame_header by lia. unfold MAX_KP_FRAME. change (Z.shiftl 1 24) with 16777216.
  replace (16777216 <? Z.of_nat (length b)) with false by lia.
  by rewrite Nat2Z.id, read_exact_app.
Qed.

(** A successful read consumes the length bytes. *)
Lemma read_frame_consumes r m r' :
  read_frame dec r = Ready (Ok m, r') → (length (avail r') + 4 ≤ length (avail r))%nat.
Proof.
  unfold read_frame, read_exact. intros H. repeat case_decide; simpl in *;
    repeat case_match; simplify_eq/=; rewrite ?length_drop in *; lia.
Qed.

Lemma read_until_reply_total fuel r :
  (length (avail r) < fuel)%nat → is_Some (read_until_reply_fuel dec fuel r).
Proof.
  revert r. induction fuel as [|fuel IH]; intros r Hr; [lia|]. simpl.
  destruct (read_frame dec r) as [[[m|e] r']|] eqn:E; [|by eexists|by eexists].
  destruct (message_reply_event m); [by eexists|]. apply IH.
  apply read_frame_consumes in E. lia.
Qed.

Lemma read_until_reply_events bs fuel y e :
  Forall event_frame bs →
  read_until_reply_fuel dec (length bs + fuel) (mkReader (frames bs ++ y) e)
  = read_until_reply_fuel dec fuel (mkReader y e).
Proof.
  induction 1 as [|b bs (Hf & m & Hd & Hm) Hbs IH]; [done|].
  rewrite frames_cons, <- app_assoc. cbn [length Nat.add read_until_reply_fuel].
  rewrite read_frame_app by done. rewrite Hd. cbn [ok_or]. by rewrite Hm.
Qed.

Lemma frames_length_ge bs : (length bs ≤ length (frames bs))%nat.
Proof. induction bs as [|b bs IH]; [done|]. rewrite frames_cons, length_app, frame_length. simpl. lia. Qed.

Lemma read_until_reply_skip bs y e :
  Forall event_frame bs →
  ∃ fuel, (length y < fuel)%nat ∧
    read_until_reply dec (mkReader (frames bs ++ y) e)
    = default Pending (read_until_reply_fuel dec fuel (mkReader y e)).
Proof.
  intros Hbs. pose proof (frames_length_ge bs). unfold read_until_reply. simpl avail.
  exists (S (length (frames bs ++ y)) - length bs)%nat. rewrite length_app. split; [lia|].
  rewrite <- (read_until_reply_events bs _ y e) by done.
  replace (length bs + (S (length (frames bs) + length y) - length bs))%nat
    with (S (length (frames bs) + length y)) by lia. done.
Qed.
End Receive.

(** C33: receiving skips everything that is not a reply and stops at the first
    reply.  Whatever status, PKI or acknowledgement frames come first, [try_recv]
    returns the payload of the first reply and leaves the rest of the stream
    untouched; with only such events it waits, or reports [Closed] once the
    daemon has closed the socket; and a header announcing a frame above 16 MiB,
    with none of that frame read, or a frame that is not CBOR, is [Closed] too.
    The loop always ends: no stream exhausts it. *)
Theorem kp_recv_first_reply dec bs b y m ev w sv o ctr :
  Forall (event_frame dec) bs → kp_fits b → dec b = Some m → message_reply_event m = Some ev →
  (∀ e, try_recv dec (mkKp (mkReader (frames bs ++ frame b ++ y) e) w sv o ctr)
        = Ready (Ok (re_payload ev), mkKp (mkReader y e) w sv o ctr)) ∧
  try_recv dec (mkKp (mkReader (frames bs) None) w sv o ctr) = Pending ∧
  (∀ e, try_recv dec (mkKp (mkReader (frames bs) (Some e)) w sv o ctr)
        = Ready (Err Closed, mkKp (mkReader [] (Some e)) w sv o ctr)) ∧
  (∀ len e, length len = 4%nat → 16 * 2 ^ 20 < u32_from_be_bytes len →
     try_recv dec (mkKp (mkReader (frames bs ++ len ++ y) e) w sv o ctr)
     = Ready (Err Closed, mkKp (mkReader y e) w sv o ctr)) ∧
  (∀ c e, kp_fits c → dec c = None →
     try_recv dec (mkKp (mkReader (frames bs ++ frame c ++ y) e) w sv o ctr)
     = Ready (Err Closed, mkKp (mkReader y e) w sv o ctr)) ∧
  (∀ r, is_Some (read_until_reply_fuel dec (S (length (avail r))) r)).
Proof.
  intros Hbs Hb Hd Hm. split_and!.
  - intros e. unfold try_recv. cbn [kp_read].
    destruct (read_until_reply_skip dec bs (frame b ++ y) e Hbs) as (fuel & Hf & ->).
    destruct fuel as [|fuel]; [lia|]. cbn [read_until_reply_fuel].
    rewrite read_frame_app by done. rewrite Hd. cbn [ok_or]. by rewrite Hm.
  - unfold try_recv. cbn [kp_read]. rewrite <- (app_nil_r (frames bs)).
    destruct (read_until_reply_skip dec bs [] None Hbs) as (fuel & Hf & ->).
    by destruct fuel as [|fuel].
  - intros e. unfold try_recv. cbn [kp_read]. rewrite <- (app_nil_r (frames bs)).
    destruct (read_until_reply_skip dec bs [] (Some e) Hbs) as (fuel & Hf & ->).
    destruct fuel as [|fuel]; [simpl in Hf; lia|]. done.
  - intros len e Hl Hlen. unfold try_recv. cbn [kp_read].
    destruct (read_until_reply_skip dec bs (len ++ y) e Hbs) as (fuel & Hf & ->).
    destruct fuel as [|fuel]; [lia|]. cbn [read_until_reply_fuel]. unfold read_frame.
    rewrite read_exact_app by done. cbv zeta. unfold MAX_KP_FRAME. change (Z.shiftl 1 24) with (16 * 2 ^ 20).
    by rewrite (proj2 (Z.ltb_lt _ _) Hlen).
  - intros c e Hc Hdc. unfold try_recv. cbn [kp_read].
    destruct (read_until_reply_skip dec bs (frame c ++ y) e Hbs) as (fuel & Hf & ->).
    destruct fuel as [|fuel]; [lia|]. cbn [read_until_reply_fuel].
    rewrite read_frame_app by done. by rewrite Hdc.
  - intros r. apply read_until_reply_total. lia.
Qed.

(** A one-letter wire format standing for CBOR. *)
Definition demo_dec (b : bytes) : option Response :=
  match b with
  | c :: d => if decide (c = Byte.x72) then Some (mkResponse None None None (Some (mkReply d 0)))
              else Some (mkResponse (Some true) None None None)
  | [] => None
  end.

Lemma kp_recv_first_reply_witness :
  try_recv demo_dec (mkKp (mkReader (frames [bs "s"] ++ frame (bs "rhi") ++ []) None)
    (mkWriter [] None) (mkService [] []) katzenpost_oracle 0)
  = Ready (Ok (bs "hi"), mkKp (mkReader [] None) (mkWriter [] None) (mkService [] []) katzenpost_oracle 0).
Proof.
  destruct (kp_recv_first_reply demo_dec [bs "s"] (bs "rhi") [] (mkResponse None None None (Some (mkReply (bs "hi") 0)))
    (mkReply (bs "hi") 0) (mkWriter [] None) (mkService [] []) katzenpost_oracle 0) as (H & _).
  - constructor; [|constructor]. split; [by vm_compute|]. eexists. split; reflexivity.
  - by vm_compute.
  - reflexivity.
  - reflexivity.
  - exact (H None).
Defined.

(** ** Resolution. *)

(** One layer the daemon may wrap the document in. *)
Definition unwrap (v : Value) : option bytes :=
  match v with VBytes b => Some b | VTag _ (VBytes b) => Some b | _ => None end.

Inductive wrapped (dec_value : bytes → option Value) : nat → bytes → bytes → Prop :=
| wrapped_map b : dec_value b = Some VMap → wrapped dec_value 0 b b
| wrapped_layer n b v i d :
    dec_value b = Some v → unwrap v = Some i → wrapped dec_value n i d → wrapped dec_value (S n) b d.

Lemma decode_document_loop_Ok dec_value dec_document turns b nodes :
  decode_document_loop dec_value dec_document turns b = Ok nodes ↔
  ∃ n d, (n < turns)%nat ∧ wrapped dec_value n b d ∧ dec_document d = Some nodes.
Proof.
  revert b. induction turns as [|turns IH]; intros b; simpl.
  { split; [done|]. intros (n & d & ? & _). lia. }
  destruct (dec_value b) as [v|] eqn:Ev; simpl.
  2:{ split; [done|]. intros (n & d & _ & Hw & _). inversion Hw; congruence. }
  assert (∀ i, unwrap v = Some i →
    decode_document_loop dec_value dec_document turns i = Ok nodes ↔
    ∃ n d, (n < S turns)%nat ∧ wrapped dec_value n b d ∧ dec_document d = Some nodes) as Hlayer.
  { intros i Hi. rewrite IH. split.
    - intros (n & d & ? & Hw & ?). exists (S n), d. split_and!; [lia| |done]. by econstructor.
    - intros (n & d & ? & Hw & ?). inversion Hw; subst; [rewrite Ev in *; simplify_eq; done|].
      exists n0, d. split_and!; [lia| |done]. congruence. }
  assert (unwrap v = None → v ≠ VMap →
    ¬ ∃ n d, (n < S turns)%nat ∧ wrapped dec_value n b d ∧ dec_document d = Some nodes) as Hno.
  { intros Hu Hv (n & d & _ & Hw & _). inversion Hw; subst; congruence. }
  destruct v as [|i|t [| i| | |]| |]; try (by apply Hlayer); try (split; [done|]; intros H; destruct (Hno eq_refl ltac:(done) H)).
  split.
  - destruct (dec_document b) eqn:Ed; [|done]. intros [= <-]. exists 0%nat, b.
    split_and!; [lia|by constructor|done].
  - intros (n & d & _ & Hw & Hd). inversion Hw; subst; [by rewrite Hd|].
    rewrite Ev in *. simplify_eq.
Qed.

(** A node that offers [cap] at [endpoint]. *)
Definition offers (dec_descriptor : bytes → option MixDescriptor) (cap : str) (raw : bytes) :
    option (MixDescriptor * str) :=
  node ← dec_descriptor raw;
  inner ← kaetzchen node !! cap;
  match inner !! bs "endpoint" with Some (VText e) => Some (node, e) | _ => None end.

Lemma find_service_first dec_descriptor h nodes cap :
  find_service dec_descriptor h nodes cap =
  match omap (offers dec_descriptor cap) nodes with
  | [] => Err ServiceNotFound
  | (node, e) :: _ =>
      if decide (identity_key node = []) then Err NoIdentityKey
      else Ok (mkService (h (identity_key node)) e)
  end.
Proof.
  induction nodes as [|raw nodes IH]; [done|]. simpl. unfold offers at 1.
  destruct (dec_descriptor raw) as [node|]; simpl; [|done].
  destruct (kaetzchen node !! cap) as [inner|]; simpl; [|done].
  destruct (inner !! bs "endpoint") as [[]|]; simpl; done.
Qed.

(** C34: service resolution.  It succeeds exactly when the document is a CBOR
    map under at most three byte-string or tagged-byte-string wrappers and the
    first service node, in document order, that decodes and offers the capability
    with a text endpoint has an identity key; the service is then the hash of
    that key and that endpoint.  Undecodable nodes, and nodes without the
    capability or with another kind of endpoint, are passed over. *)
Theorem resolve_service_spec dec_value dec_document dec_descriptor h pki cap service :
  resolve_service dec_value dec_document dec_descriptor h pki cap = Ok service ↔
  ∃ n d nodes before raw after node e,
    (n ≤ 3)%nat ∧ wrapped dec_value n pki d ∧ dec_document d = Some nodes ∧
    nodes = before ++ raw :: after ∧ Forall (λ r, offers dec_descriptor cap r = None) before ∧
    offers dec_descriptor cap raw = Some (node, e) ∧ identity_key node ≠ [] ∧
    service = mkService (h (identity_key node)) e.
Proof.
  unfold resolve_service, decode_document. split.
  - destruct (decode_document_loop _ _ _ _) as [nodes|] eqn:Ed; [|done]. simpl.
    apply decode_document_loop_Ok in Ed as (n & d & Hn & Hw & Hd). rewrite find_service_first.
    intros H. assert (∃ before raw after, nodes = before ++ raw :: after ∧
      Forall (λ r, offers dec_descriptor cap r = None) before ∧
      ∃ node e, offers dec_descriptor cap raw = Some (node, e) ∧ identity_key node ≠ [] ∧
        service = mkService (h (identity_key node)) e) as (before & raw & after & Hs & Hb & node & e & Ho & Hi & ->).
    { clear -H. induction nodes as [|raw nodes IH]; [done|]. simpl in H.
      destruct (offers dec_descriptor cap raw) as [[node e]|] eqn:Eo.
      - exists [], raw, nodes. split_and!; [done|constructor|]. case_decide; [done|].
        injection H as <-. eauto.
      - destruct (IH H) as (before & raw' & after & -> & Hb & Hx). exists (raw :: before), raw', after.
        split_and!; [done|by constructor|done]. }
    exists n, d, nodes, before, raw, after, node, e. split_and!; try done. lia.
  - intros (n & d & nodes & before & raw & after & node & e & Hn & Hw & Hd & -> & Hb & Ho & Hi & ->).
    replace (decode_document_loop dec_value dec_document 4 pki) with (Ok (E := kp_error) (before ++ raw :: after)).
    2:{ symmetry. apply decode_document_loop_Ok. exists n, d. split_and!; [lia|done..]. }
    simpl. rewrite find_service_first. clear Hd. induction Hb as [|r before Hr Hb IH]; simpl.
    + by rewrite Ho, decide_False.
    + rewrite Hr. apply IH.
Qed.
