(* ===== verification/Mixnets.v ===== *)
(** * The HOPR, Nym and Tor substrates: [substrates/quicmix-hopr],
    [substrates/quicmix-nym] and [substrates/quicmix-tor] ([src/lib.rs] each).

    What these crates compute themselves; the HTTP client, the Nym SDK and the
    operating system's sockets appear as their answers. *)

From S2P Require Import Katzenpost.
From S2P Require Import Prelude RustFloat RustStr Core Oracle Client ByteStream Tor Substrate Net UdpFront.
Open Scope Z_scope.

(** ** HOPR. *)
Module Hopr.
(** What [map_reqwest] asks of a [reqwest::Error]. *)
Record http_error := mkHttpError { is_timeout : bool; is_connect : bool; text : string }.

Definition map_reqwest (e : http_error) : SubstrateError :=
  if is_timeout e then Timeout
  else if is_connect e then Closed
  else Io ("hopr http: " +:+ text e).

(** [is_server_error]: 500 to 599. *)
Definition status_error (show_code : Z → string) (c : Z) : SubstrateError :=
  if (c =? 401) || (c =? 403) then AuthFailed
  else if (500 <=? c) && (c <? 600) then RemoteRejected
  else Io ("hopr HTTP " +:+ show_code c).

Definition hopr_oracle (hops : Z) : OracleParams :=
  mkOracleParams (Z.max hops 1) (from_millis 100) (S754_zero false) (from_millis 50) 1200.

Record SessionOpts := mkSessionOpts {
  so_hops : Z; target : str; listen_host : str; data_host : option str; http_timeout : Z;
}.
Definition SessionOpts_default : SessionOpts :=
  mkSessionOpts 0 (bs "127.0.0.1:9999") (bs "0.0.0.0:0") None (from_secs 30).

(** The body of the session-create call. *)
Record CreateSessionBody := mkBody {
  capabilities : list str; destination : str; body_listen_host : str;
  forward_hops : Z; return_hops : Z; target_plain : str; response_buffer : str;
}.
Definition session_body (dest : str) (opts : SessionOpts) : CreateSessionBody :=
  mkBody [bs "Segmentation"] dest (listen_host opts) (so_hops opts) (so_hops opts) (target opts) (bs "4MiB").

Record SessionResp := mkSession { protocol : str; ip : str; port : Z }.

Inductive connect_error : Type :=
| HttpFailed (e : SubstrateError)
| OpenFailed (e : SubstrateError)
| MalformedResponse
| BadSessionAddr (s : str)
| BindFailed
| SocketFailed.

(** Where the datagrams go. *)
Definition data_host_of (opts : SessionOpts) (session : SessionResp) : str :=
  match data_host opts with
  | Some h => h
  | None =>
      if bool_decide (ip session = bs "0.0.0.0") || bool_decide (ip session = bs "::")
      then bs "127.0.0.1" else ip session
  end.

(** [connect], given the HTTP exchange and the local socket: the reply is its
    status and, when the body is a session, that session; the socket may fail to
    bind, or to connect to an address. *)
Definition connect (show_code : Z → string) (opts : SessionOpts)
    (reply : result http_error (Z * option SessionResp)) (bind_ok : bool) (connect_ok : SocketAddr → bool) :
    result connect_error (SocketAddr * SessionResp) :=
  '(st, body) ← map_err (λ e, HttpFailed (map_reqwest e)) reply;
  if negb ((200 <=? st) && (st <? 300)) then Err (OpenFailed (status_error show_code st))
  else
    session ← ok_or body MalformedResponse;
    let text := data_host_of opts session ++ bs ":" ++ show_uint (port session) in
    addr ← ok_or (parse_socket_addr text) (BadSessionAddr text);
    if negb bind_ok then Err BindFailed
    else if negb (connect_ok addr) then Err SocketFailed else Ok (addr, session).

(** The URL of [close]. *)
Definition close_url (api : str) (s : SessionResp) : str :=
  api ++ bs "/api/v4/session/" ++ protocol s ++ bs "/" ++ ip s ++ bs "/" ++ show_uint (port s).

(** The connected UDP socket of a session: what it sent, how a send fails, what
    arrived and whether receiving fails. *)
Record HoprSubstrate := mkHopr {
  sent_out : list bytes; send_fails : option string;
  arrived : list bytes; recv_fails : bool; hopr_params : OracleParams;
}.

Definition try_send (d : bytes) (s : HoprSubstrate) : result SubstrateError () * HoprSubstrate :=
  match send_fails s with
  | Some e => (Err (Io ("hopr session send: " +:+ e)), s)
  | None => (Ok (), mkHopr (sent_out s ++ [d]) None (arrived s) (recv_fails s) (hopr_params s))
  end.

Definition try_recv (s : HoprSubstrate) : poll (result SubstrateError bytes * HoprSubstrate) :=
  match arrived s with
  | d :: q => Ready (Ok (take (Z.to_nat 65535) d),
                mkHopr (sent_out s) (send_fails s) q (recv_fails s) (hopr_params s))
  | [] => if recv_fails s then Ready (Err Closed, s) else Pending
  end.

#[global] Instance Hopr_MixTransport : MixTransport HoprSubstrate := {
  kind _ := default_kind;
  oracle := hopr_params;
  send := send_of_try_send try_send;
  recv := recv_of_try_recv try_recv;
  try_send := try_send;
  try_recv := try_recv;
}.

#[global] Instance Hopr_laws : MixTransportLaws HoprSubstrate.
Proof. by split. Qed.
End Hopr.

(** ** Nym. *)
Module Nym.
Definition nym_oracle : OracleParams :=
  mkOracleParams 3 (from_millis 470) (S754_zero false) (from_millis 158) 1200.

(** The client's substrate: each datagram goes to [recipient] with [surbs] reply
    blocks; [refuses] is the SDK's answer to [send_message]. *)
Record NymSubstrate := mkNym {
  recipient : str; surbs : Z; refuses : bytes → option string;
  outgoing : list (str * bytes * Z); incoming : list bytes; client_down : bool; nym_params : OracleParams;
}.

Definition try_send (d : bytes) (s : NymSubstrate) : result SubstrateError () * NymSubstrate :=
  match refuses s d with
  | Some e => (Err (Io ("nym send_message: " +:+ e)), s)
  | None =>
      (Ok (), mkNym (recipient s) (surbs s) (refuses s) (outgoing s ++ [(recipient s, d, surbs s)])
                (incoming s) (client_down s) (nym_params s))
  end.

Definition try_recv (s : NymSubstrate) : poll (result SubstrateError bytes * NymSubstrate) :=
  match incoming s with
  | d :: q => Ready (Ok d, mkNym (recipient s) (surbs s) (refuses s) (outgoing s) q
                             (client_down s) (nym_params s))
  | [] => if client_down s then Ready (Err Closed, s) else Pending
  end.

#[global] Instance Nym_MixTransport : MixTransport NymSubstrate := {
  kind _ := default_kind;
  oracle := nym_params;
  send := send_of_try_send try_send;
  recv := recv_of_try_recv try_recv;
  try_send := try_send;
  try_recv := try_recv;
}.

#[global] Instance Nym_laws : MixTransportLaws NymSubstrate.
Proof. by split. Qed.

(** The SDK: its parser of addresses, and the ephemeral clients it bootstraps,
    one per call of [build_client] ([None]: it fails): the client's own address
    and its answers to [send_message]. *)
Record client := mkClient { nym_address : str; answers : bytes → option string }.
Record sdk := mkSdk { recipient_of : str → option str; build_client : nat → option client }.

Inductive nym_error : Type := BadRecipient | ClientFailed | BridgeFailed.

Definition parse_recipient (k : sdk) (s : str) : result nym_error str := ok_or (recipient_of k s) BadRecipient.

(** [connect]; [n] counts the clients built before. *)
Definition connect (k : sdk) (n : nat) (gateway : str) (surbs : Z) (oracle : OracleParams) :
    result nym_error NymSubstrate :=
  r ← parse_recipient k gateway;
  c ← ok_or (build_client k n) ClientFailed;
  Ok (mkNym r surbs (answers c) [] [] false oracle).

(** [NymGateway::connect] and its address. *)
Definition gateway_connect (k : sdk) (n : nat) : result nym_error client := ok_or (build_client k n) ClientFailed.

(** [spawn_client_bridge] is the same bridge as the shared front. *)
Definition spawn_client_bridge {T} `{MixTransport T} (pr : profile) (t : T) (now : Z) :
    option (front T) :=
  depth ← bdp_packets pr (oracle t);
  Some (mkFront (new_pipe t (Z.to_nat depth) now) None).

(** [nym_front]: the [n]-th call of the factory bootstraps the [n]-th client;
    [bound] is the local address of its socket. *)
Definition nym_front (pr : profile) (k : sdk) (gateway : str) (surbs : Z) (oracle : OracleParams)
    (bound : nat → option SocketAddr) (now : Z) (n : nat) :
    result nym_error (SocketAddr * front NymSubstrate) :=
  sub ← connect k n gateway surbs oracle;
  f ← ok_or (spawn_client_bridge pr sub now) BridgeFailed;
  a ← ok_or (bound n) BridgeFailed;
  Ok (a, f).

(** The reply leg: send-only.  [accepts] is the SDK's answer to [send_reply]. *)
Record NymReplyTransport := mkReply {
  tag : nat; accepts : bytes → option string; replies : list bytes; r_oracle : OracleParams;
}.

Definition reply_try_send (d : bytes) (t : NymReplyTransport) :
    result SubstrateError () * NymReplyTransport :=
  match accepts t d with
  | None => (Ok (), mkReply (tag t) (accepts t) (replies t ++ [d]) (r_oracle t))
  | Some e => (Err (Io ("nym send_reply: " +:+ e)), t)
  end.

#[global] Instance Reply_MixTransport : MixTransport NymReplyTransport := {
  kind _ := default_kind;
  oracle := r_oracle;
  send := send_of_try_send reply_try_send;
  recv t := Ready (None, t);
  try_send := reply_try_send;
  try_recv _ := Pending;
}.

(** A message out of the mix. *)
Record message := mkMessage { sender_tag : option nat; payload : bytes }.

(** The gateway's loop: the socket of each sender, what each socket has sent
    to the server, and the reply pump behind it. *)
Record gateway := mkGateway {
  socks : gmap nat nat;
  forwarded : list (nat * bytes);
  pumps : gmap nat (pipe NymReplyTransport);
  next_sock : nat;
}.
Definition gateway0 : gateway := mkGateway ∅ [] ∅ 0.

Section Run.
Variable pr : profile.
Variable accept : nat → bytes → option string.   (* the SDK, per sender tag *)

Inductive gw_error : Type := BindFailed | Panicked.

(** One turn of [run]'s loop; [bind_ok] answers the socket calls.  [forwarded]
    is what was given to [sock.send], whose failure the code ignores. *)
Definition handle_message (msg : message) (bind_ok : bool) (now : Z) (g : gateway) :
    result gw_error gateway :=
  match sender_tag msg with
  | None => Ok g
  | Some t =>
      match socks g !! t with
      | Some s => Ok (mkGateway (socks g) (forwarded g ++ [(s, payload msg)]) (pumps g) (next_sock g))
      | None =>
          if negb bind_ok then Err BindFailed
          else
            depth ← ok_or (bdp_packets pr nym_oracle) Panicked;
            let s := next_sock g in
            let reply := mkReply t (accept t) [] nym_oracle in
            Ok (mkGateway (<[t := s]> (socks g)) (forwarded g ++ [(s, payload msg)])
                  (<[s := new_pipe reply (Z.to_nat depth) now]> (pumps g)) (S s))
      end
  end.

(** [run] over the messages that arrive, each with its time. *)
Fixpoint run (msgs : list (message * Z)) (g : gateway) : result gw_error gateway :=
  match msgs with
  | [] => Ok g
  | (m, now) :: msgs => g ← handle_message m true now g; run msgs g
  end.
End Run.

(** What the server sees on the socket of a sender. *)
Definition on_socket (s : nat) (g : gateway) : list bytes :=
  omap (λ x, if decide (x.1 = s) then Some x.2 else None) (forwarded g).
Definition from_sender (t : nat) (msgs : list (message * Z)) : list bytes :=
  omap (λ x, if decide (sender_tag x.1 = Some t) then Some (payload x.1) else None) msgs.

Record gw_inv (msgs : list (message * Z)) (g : gateway) : Prop := {
  gi_inj : ∀ t t' s, socks g !! t = Some s → socks g !! t' = Some s → t = t';
  gi_lt : ∀ t s, socks g !! t = Some s → (s < next_sock g)%nat;
  gi_flow : ∀ t s, socks g !! t = Some s → on_socket s g = from_sender t msgs;
  gi_none : ∀ t, socks g !! t = None → from_sender t msgs = [];
  gi_fresh : ∀ s d, (s, d) ∈ forwarded g → (s < next_sock g)%nat;
  gi_pump : ∀ t s, socks g !! t = Some s →
    ∃ p, pumps g !! s = Some p ∧ tag (inner (sub p)) = t;
}.
End Nym.

(** ** Tor: the substrate delegates every method to its framed circuit. *)
Module TorSubstrate.
Record t := mk { circuit : StreamDatagram.t; own_daemon : bool }.

Definition connect (gateway : str) (oracle : OracleParams) (c : connection) :
    result tor_error (bytes * poll (result tor_error t)) :=
  match tor_stream_to gateway oracle c with
  | Err e => Err e
  | Ok (w, Pending) => Ok (w, Pending)
  | Ok (w, Ready (Err e)) => Ok (w, Ready (Err e))
  | Ok (w, Ready (Ok s)) => Ok (w, Ready (Ok (mk s false)))
  end.

Definition lift {A} (s : t) (x : A * StreamDatagram.t) : A * t := (x.1, mk x.2 (own_daemon s)).

#[global] Instance transport : MixTransport t := {
  kind _ := Stream;
  oracle s := StreamDatagram.sd_oracle (circuit s);
  send d s := mk (Core.send d (circuit s)) (own_daemon s);
  recv s := lift s <$> Core.recv (circuit s);
  try_send d s := lift s (Core.try_send d (circuit s));
  try_recv s := lift s <$> Core.try_recv (circuit s);
}.
End TorSubstrate.

(** ** Shipped timing models. *)

(** The window is bounded and sane. *)
Definition bounded (pr : profile) (p : OracleParams) : bool :=
  match bdp_bytes pr p, bdp_packets pr p with
  | Some w, Some n => (2 * mtu p <=? w) && (w <=? 2 ^ 21) && (w <? UNCAPPED_WINDOW) && (16 <=? n) && (n <=? 1100)
  | _, _ => false
  end.

(** Every shipped mixnet profile gives a bounded window.  For Katzenpost's,
    Nym's and HOPR's oracle (any [u8] path length) the bandwidth-delay window
    and the queue depth exist in both build profiles, the window is at least two
    datagrams and at most 2 MiB, far below the uncapped window of an unpaced
    link, and the depth at most 1100 datagrams. *)
Theorem shipped_profiles_are_bounded pr hops_u8 :
  in_u 8 hops_u8 →
  bounded pr katzenpost_oracle = true ∧ bounded pr Nym.nym_oracle = true ∧
  bounded pr (Hopr.hopr_oracle hops_u8) = true.
Proof.
  intros Hh. split_and!; [by destruct pr; vm_compute..|].
  apply (upto (λ h, bounded pr (Hopr.hopr_oracle h)) 256); [|unfold in_u in Hh; lia].
  by destruct pr; vm_compute.
Qed.

Lemma shipped_profiles_are_bounded_witness : bounded Debug (Hopr.hopr_oracle 255) = true.
Proof. apply (shipped_profiles_are_bounded Debug 255). by vm_compute. Defined.

(** ** HOPR's data endpoint. *)

Lemma hopr_connect_ok show_code opts sess st conn :
  200 ≤ st < 300 →
  Hopr.connect show_code opts (Ok (st, Some sess)) true conn =
  match parse_socket_addr (Hopr.data_host_of opts sess ++ bs ":" ++ show_uint (Hopr.port sess)) with
  | Some addr => if conn addr then Ok (addr, sess) else Err Hopr.SocketFailed
  | None => Err (Hopr.BadSessionAddr (Hopr.data_host_of opts sess ++ bs ":" ++ show_uint (Hopr.port sess)))
  end.
Proof.
  intros Hst. unfold Hopr.connect. simpl. replace (negb ((200 <=? st) && (st <? 300))) with false by lia. simpl.
  destruct (parse_socket_addr _) as [addr|]; simpl; [|done]. by destruct (conn addr).
Qed.

(** C36: where HOPR's datagrams go.  With any 2xx reply carrying a session, a local
    socket that binds and connects, and no override, an IPv4 session address is
    used as it is and a wildcard one becomes loopback, with the session's port.
    A 2xx reply without a session is malformed; 401 and 403 are [AuthFailed], any
    5xx is [RemoteRejected], every other status outside 2xx an I/O error.  No IPv6
    session address other than [::] can be used: whatever text has a colon and no
    bracket before it is, joined to the port, not a socket address. *)
Theorem hopr_connect_spec show_code opts sess :
  Hopr.data_host opts = None → in_u 16 (Hopr.port sess) →
  (∀ st, 200 ≤ st < 300 →
     (∀ a b c d conn, ip_ok (V4 a b c d) → Hopr.ip sess = show_v4 a b c d →
        let addr := SA4 (if decide (V4 a b c d = V4 0 0 0 0) then V4 127 0 0 1 else V4 a b c d) (Hopr.port sess) in
        Hopr.connect show_code opts (Ok (st, Some sess)) true conn =
        if conn addr then Ok (addr, sess) else Err Hopr.SocketFailed) ∧
     (Hopr.ip sess = bs "::" →
        Hopr.connect show_code opts (Ok (st, Some sess)) true (λ _, true) =
        Ok (SA4 (V4 127 0 0 1) (Hopr.port sess), sess)) ∧
     (zb 58 ∈ Hopr.ip sess → head (Hopr.ip sess) ≠ Some (zb 91) → Hopr.ip sess ≠ bs "::" →
        Hopr.connect show_code opts (Ok (st, Some sess)) true (λ _, true)
        = Err (Hopr.BadSessionAddr (Hopr.ip sess ++ bs ":" ++ show_uint (Hopr.port sess)))) ∧
     (∀ ok conn, Hopr.connect show_code opts (Ok (st, None)) ok conn = Err Hopr.MalformedResponse)) ∧
  (∀ st body ok conn, (st < 200 ∨ 300 ≤ st) →
     Hopr.connect show_code opts (Ok (st, body)) ok conn
     = Err (Hopr.OpenFailed
         (if decide (st = 401 ∨ st = 403) then AuthFailed
          else if decide (500 ≤ st < 600) then RemoteRejected else Io ("hopr HTTP " +:+ show_code st)))).
Proof.
  intros Ho Hp. split; [intros st0 Hst0; split_and!|].
  - intros a b c d conn Hip Eip. cbv zeta. rewrite hopr_connect_ok by done. unfold Hopr.data_host_of. rewrite Ho, Eip.
    assert (show_v4 a b c d = bs "0.0.0.0" ↔ V4 a b c d = V4 0 0 0 0) as Hw.
    { split; [|by intros [= -> -> -> ->]]. intros E%(f_equal parse_ip_addr).
      change (show_v4 a b c d) with (show_ip (V4 a b c d)) in E. rewrite parse_show_ip_v4 in E by done.
      change (parse_ip_addr (bs "0.0.0.0")) with (Some (V4 0 0 0 0)) in E. by injection E as -> -> -> ->. }
    assert (show_v4 a b c d ≠ bs "::") as Hn.
    { intros E%(f_equal parse_ip_addr). change (show_v4 a b c d) with (show_ip (V4 a b c d)) in E.
      rewrite parse_show_ip_v4 in E by done. by vm_compute in E. }
    rewrite (bool_decide_eq_false_2 _ Hn), orb_false_r.
    case_bool_decide as Hb; case_decide as Hd; try tauto.
    + change (bs "127.0.0.1") with (show_v4 127 0 0 1).
      change (show_v4 127 0 0 1 ++ bs ":" ++ show_uint (Hopr.port sess))
        with (show_socket_addr (SA4 (V4 127 0 0 1) (Hopr.port sess))).
      rewrite parse_show_socket_addr_v4; [done| |done]. by vm_compute.
    + change (show_v4 a b c d ++ bs ":" ++ show_uint (Hopr.port sess))
        with (show_socket_addr (SA4 (V4 a b c d) (Hopr.port sess))).
      by rewrite parse_show_socket_addr_v4.
  - intros Eip. rewrite hopr_connect_ok by done. unfold Hopr.data_host_of. rewrite Ho, Eip.
    change (bool_decide (bs "::" = bs "0.0.0.0") || bool_decide (bs "::" = bs "::")) with true. cbv iota.
    change (bs "127.0.0.1") with (show_v4 127 0 0 1). 
    change (show_v4 127 0 0 1 ++ bs ":" ++ show_uint (Hopr.port sess))
      with (show_socket_addr (SA4 (V4 127 0 0 1) (Hopr.port sess))).
    rewrite parse_show_socket_addr_v4; [done| |done]. by vm_compute.
  - intros Hc Hb Hw. rewrite hopr_connect_ok by done. unfold Hopr.data_host_of.
    rewrite Ho, (bool_decide_eq_false_2 (_ = bs "::") Hw), bool_decide_eq_false_2.
    + cbn [orb]. change (bs ":" ++ ?t) with (zb 58 :: t). by rewrite parse_socket_addr_unbracketed.
    + intros E. rewrite E in Hc. revert Hc. apply (bool_decide_unpack (zb 58 ∉ bs "0.0.0.0")). by vm_compute.
  - intros ok conn. unfold Hopr.connect. cbn [map_err mbind result_bind].
    by replace (negb ((200 <=? st0) && (st0 <? 300))) with false by lia.
  - intros st body ok conn Hst. unfold Hopr.connect. cbn [map_err mbind result_bind].
    replace (negb ((200 <=? st) && (st <? 300))) with true by lia. do 2 f_equal.
    unfold Hopr.status_error.
    destruct (Z.eqb_spec st 401), (Z.eqb_spec st 403), (Z.leb_spec 500 st), (Z.ltb_spec st 600);
      simpl; repeat case_decide; try lia; done.
Qed.

Lemma hopr_connect_spec_witness :
  Hopr.connect (λ _, "x") Hopr.SessionOpts_default
    (Ok (201, Some (Hopr.mkSession (bs "udp") (bs "10.1.2.3") 9000))) true (λ _, true)
  = Ok (SA4 (V4 10 1 2 3) 9000, Hopr.mkSession (bs "udp") (bs "10.1.2.3") 9000).
Proof.
  destruct (hopr_connect_spec (λ _, "x"%string) Hopr.SessionOpts_default
    (Hopr.mkSession (bs "udp") (bs "10.1.2.3") 9000)) as [H _]; [done|by vm_compute|].
  destruct (H 201) as [H4 _]; [lia|]. exact (H4 10 1 2 3 (λ _, true) ltac:(by vm_compute) eq_refl).
Defined.

(** ** Nym's gateway. *)
Section NymLemmas.
Import Nym.

Lemma from_sender_snoc t msgs m now :
  from_sender t (msgs ++ [(m, now)])
  = from_sender t msgs ++ (if decide (sender_tag m = Some t) then [payload m] else []).
Proof. unfold from_sender. rewrite omap_app. simpl. by case_decide. Qed.

Lemma on_socket_snoc s l s' d soc pu n :
  on_socket s (mkGateway soc (l ++ [(s', d)]) pu n)
  = on_socket s (mkGateway soc l pu n) ++ (if decide (s' = s) then [d] else []).
Proof. unfold on_socket. simpl. rewrite omap_app. simpl. by case_decide. Qed.

Lemma on_socket_fresh s (g : gateway) :
  (∀ s' d, (s', d) ∈ forwarded g → (s' < next_sock g)%nat) → (next_sock g ≤ s)%nat → on_socket s g = [].
Proof.
  unfold on_socket. intros Hf Hs. induction (forwarded g) as [|[s' d] l IH]; [done|]. simpl.
  rewrite decide_False. { apply IH. intros. eapply Hf. by right. }
  assert ((s' < next_sock g)%nat) by (eapply Hf; by left). simpl. lia.
Qed.

Lemma nym_depth pr : ∃ depth, bdp_packets pr nym_oracle = Some depth.
Proof. destruct pr; eexists; by vm_compute. Qed.

Lemma handle_message_inv pr accept msgs m now g :
  gw_inv msgs g →
  ∃ g', handle_message pr accept m true now g = Ok g' ∧ gw_inv (msgs ++ [(m, now)]) g'.
Proof.
  intros [Hinj Hlt Hflow Hnone Hfresh Hpump]. unfold handle_message.
  destruct (sender_tag m) as [t|] eqn:Et.
  2:{ exists g. split; [done|]. split; try done.
      - intros t s Hs. rewrite from_sender_snoc, Et, app_nil_r. auto.
      - intros t Hs. rewrite from_sender_snoc, Et, app_nil_r. auto. }
  destruct (socks g !! t) as [s|] eqn:Es.
  - eexists. split; [done|]. split; simpl; try done.
    + intros t' s' Hs'. rewrite on_socket_snoc, from_sender_snoc, Et.
      f_equal; [by apply Hflow|]. destruct (decide (s = s')) as [->|Hne].
      * rewrite decide_True; [done|]. f_equal. eauto.
      * rewrite decide_False; [done|]. intros [= ->]. congruence.
    + intros t' Ht'. rewrite from_sender_snoc, Et, (Hnone t' Ht'), decide_False; [done|]. congruence.
    + intros s' d [Hin|Hin]%elem_of_app; [eauto|]. apply list_elem_of_singleton in Hin as [= -> ->]. eauto.
  - destruct (nym_depth pr) as [depth Hd]. cbn [negb]. rewrite Hd. cbn [ok_or mbind result_bind]. clear Hd.
    eexists. split; [done|]. set (s := next_sock g). split; simpl.
    + intros t1 t2 s' H1 H2. apply lookup_insert_Some in H1 as [[<- <-]|[Hn1 H1]];
        apply lookup_insert_Some in H2 as [[<- E]|[Hn2 H2]]; try done.
      * apply Hlt in H2. unfold s in *. lia.
      * subst s'. apply Hlt in H1. unfold s in *. lia.
      * eauto.
    + intros t1 s' H1. apply lookup_insert_Some in H1 as [[<- <-]|[_ H1]]; [lia|]. apply Hlt in H1. unfold s. lia.
    + intros t1 s' H1. rewrite on_socket_snoc, from_sender_snoc, Et.
      apply lookup_insert_Some in H1 as [[<- <-]|[Hn1 H1]].
      * rewrite !decide_True by done. f_equal. rewrite Hnone by done.
        apply (on_socket_fresh s g); [done|unfold s; lia].
      * pose proof (Hlt _ _ H1). rewrite !decide_False by (congruence || (unfold s; lia)).
        f_equal. by apply Hflow.
    + intros t1 H1. apply lookup_insert_None in H1 as [H1 Hn1].
      rewrite from_sender_snoc, Et, Hnone, decide_False by (done || congruence). done.
    + intros s' d [Hin|Hin]%elem_of_app; [apply Hfresh in Hin; unfold s; lia|].
      apply list_elem_of_singleton in Hin as [= -> ->]. unfold s. lia.
    + intros t1 s' H1. apply lookup_insert_Some in H1 as [[<- <-]|[Hn1 H1]].
      * rewrite lookup_insert_eq. by eexists.
      * rewrite lookup_insert_ne; [eauto|]. pose proof (Hlt _ _ H1). unfold s. lia.
Qed.

Lemma run_inv pr accept done_ msgs g :
  gw_inv done_ g → ∃ g', run pr accept msgs g = Ok g' ∧ gw_inv (done_ ++ msgs) g'.
Proof.
  revert done_ g. induction msgs as [|[m now] msgs IH]; intros done_ g Hg; simpl.
  - exists g. by rewrite app_nil_r.
  - destruct (handle_message_inv pr accept done_ m now g Hg) as (g1 & -> & Hg1). simpl.
    destruct (IH _ _ Hg1) as (g' & -> & Hg'). exists g'. by rewrite <- app_assoc in Hg'.
Qed.

Lemma gateway0_inv : gw_inv [] gateway0.
Proof.
  split; simpl; try done; try (intros *; by rewrite lookup_empty). intros s d Hin. by apply not_elem_of_nil in Hin.
Qed.
End NymLemmas.

(** The Nym gateway demultiplexes by sender.  Over any sequence of messages
    (socket calls succeeding), it keeps running; each sender tag seen has a
    socket of its own, different from every other sender's; that socket carries
    exactly that sender's payloads in order, so the server sees one source per
    client; its reply pump ships through that very tag; messages without a tag
    reach no socket. *)
Theorem nym_gateway_one_socket_per_sender pr accept msgs :
  ∃ g, Nym.run pr accept msgs Nym.gateway0 = Ok g ∧
    (∀ t t' s, Nym.socks g !! t = Some s → Nym.socks g !! t' = Some s → t = t') ∧
    (∀ t s, Nym.socks g !! t = Some s →
       Nym.on_socket s g = Nym.from_sender t msgs ∧
       ∃ p, Nym.pumps g !! s = Some p ∧ Nym.tag (inner (sub p)) = t) ∧
    (∀ t, Nym.from_sender t msgs ≠ [] → is_Some (Nym.socks g !! t)).
Proof.
  destruct (run_inv pr accept [] msgs Nym.gateway0 gateway0_inv) as (g & Hr & [Hinj _ Hflow Hnone _ Hpump]).
  exists g. split_and!; [done|done| |].
  - intros t s Hs. eauto.
  - intros t Ht. destruct (Nym.socks g !! t) eqn:E; [by eexists|]. by rewrite Hnone in Ht.
Qed.
