(* ===== verification/Sidecars.v ===== *)
(** * Sidecar processes and the supervised Tor daemon:
    [crates/quicmix/src/tor.rs] ([TorDaemon], [tor_socks_addr],
    [tor_socks_reachable]), [TorSubstrate::connect_managed], and the [main] of
    [quicmix-tor/src/bin/tor_sidecar.rs] and [quicmix-nym/src/bin/nym_sidecar.rs].

    A sidecar is a process: its environment, what it prints, and the front it
    serves.  The client of [Selection] spawns it; here both ends meet. *)

From S2P Require Import Mixnets.
From S2P Require Import Prelude RustFloat RustStr RustText Core Oracle Client ByteStream Tor Substrate Net UdpFront Selection Autopilot.
Open Scope Z_scope.

(** ** The native Tor daemon. *)
Definition DEFAULT_TOR_SOCKS : SocketAddr := SA4 (V4 127 0 0 1) 9050.

Definition tor_socks_addr (env : environment) : SocketAddr :=
  default DEFAULT_TOR_SOCKS (env (bs "QUICMIX_TOR_SOCKS") ≫= parse_socket_addr).

(** [attempt] is what connecting to the proxy gives within two seconds. *)
Definition tor_socks_reachable (attempt : option (result io_error ())) : bool :=
  match attempt with Some (Ok _) => true | _ => false end.

(** The machine: the port the kernel hands out, the temporary directory, this
    process's id, what a [tor] started with these arguments prints within 90 s
    (and whether it ended), and what a TCP connection answers. *)
Record machine := mkMachine {
  free_port : option Z;
  temp_dir : str;
  process_id : Z;
  run_tor : list str → option (bytes * bool);
  tcp : SocketAddr → option connection;
}.

Inductive launch_error : Type :=
| NoFreePort | LaunchPanicked | TorNotSpawned | TorIo | TorExited | NoBootstrapIn90s.

Record TorDaemon := mkTorDaemon { daemon : child; socks : SocketAddr; data_dir : str }.

(** [Path::join] of a relative name. *)
Definition path_join (dir name : str) : str :=
  match list.last dir with
  | None => name
  | Some b => if decide (b = zb 47) then dir ++ name else dir ++ bs "/" ++ name
  end.

Definition tor_args (port : Z) (dir : str) : list str :=
  [bs "--SocksPort"; show_uint port; bs "--DataDirectory"; from_utf8_lossy dir;
   bs "--Log"; bs "notice stdout"; bs "--ClientOnly"; bs "1"].

Definition BOOTED : str := bs "Bootstrapped 100%".
Definition booted (line : str) : option (result launch_error ()) :=
  if is_some (find_window BOOTED line) then Some (Ok ()) else None.

Definition launch (m : machine) : result launch_error TorDaemon :=
  port ← ok_or (free_port m) NoFreePort;
  socks ← ok_or (parse_socket_addr (bs "127.0.0.1:" ++ show_uint port)) LaunchPanicked;
  let dir := path_join (temp_dir m) (bs "quicmix-tor-" ++ show_uint (process_id m)) in
  let args := tor_args port dir in
  '(out, e) ← ok_or (run_tor m args) TorNotSpawned;
  _ ← for_lines TorIo TorExited NoBootstrapIn90s booted (split LF out) e;
  Ok (mkTorDaemon (mkChild (bs "tor") args [] out e) socks dir).

(** [tor_stream_to] with the TCP connection to the proxy. *)
Inductive dial_error : Type := ProxyUnreachable | TorFailed (e : tor_error).

Definition tor_dial (m : machine) (socks : SocketAddr) (gateway : str) (oracle : OracleParams) :
    result dial_error (bytes * poll (result tor_error StreamDatagram.t)) :=
  match split_host_port gateway, tcp m socks with
  | Err e, _ => Err (TorFailed (TorHost e))
  | Ok _, None => Err ProxyUnreachable
  | Ok _, Some r => map_err TorFailed (tor_stream_to gateway oracle r)
  end.

Inductive managed_error : Type := LaunchFailed (e : launch_error) | DialFailed (e : dial_error).

(** [TorSubstrate::connect_managed]: the daemon is owned by the substrate. *)
Definition owned (r : result tor_error StreamDatagram.t) : result tor_error TorSubstrate.t :=
  match r with Ok s => Ok (TorSubstrate.mk s true) | Err e => Err e end.

Definition connect_managed (m : machine) (gateway : str) (oracle : OracleParams) :
    result managed_error (TorDaemon * poll (result tor_error TorSubstrate.t)) :=
  match launch m with
  | Err e => Err (LaunchFailed e)
  | Ok d =>
      match tor_dial m (socks d) gateway oracle with
      | Err e => Err (DialFailed e)
      | Ok (_, p) => Ok (d, owned <$> p)
      end
  end.

(** ** A sidecar process. *)
Inductive sidecar_error : Type :=
| NoTarget | TorFailure (e : managed_error) | CircuitFailed (e : tor_error)
| NymFailure (e : Nym.nym_error) | FrontFailure (e : front_error).

Inductive process : Type :=
| Starting                                  (* the circuit is not open yet *)
| Exited (e : sidecar_error)
| Serving (out : bytes) (f : Front).

(** [println!("FRONT {front}")], flushed, then pending for ever. *)
Definition announcement (a : SocketAddr) : bytes := bs "FRONT " ++ show_socket_addr a ++ [LF].

Definition announce_front (r : result front_error Front) : process :=
  match r with
  | Err e => Exited (FrontFailure e)
  | Ok f => Serving (announcement (addr f)) f
  end.

(** What the parent sees of it. *)
Definition seen (p : process) : bytes * bool :=
  match p with Starting => ([], false) | Exited _ => ([], true) | Serving out _ => (out, false) end.

(** The child's environment: the parent's, overridden. *)
Definition with_env (adds : list (str * str)) (base : environment) : environment :=
  λ v, match list_find (λ kv, kv.1 = v) adds with Some (_, kv) => Some kv.2 | None => base v end.

(** [tor_sidecar]'s [main]. *)
Definition tor_oracle : OracleParams := mkOracleParams 3 (from_millis 100) (S754_zero false) 0 1200.

Definition tor_target (env : environment) : option str :=
  match env SIDECAR_TARGET_ENV with Some t => Some t | None => env (bs "QUICMIX_TOR_GATEWAY") end.

Definition tor_dyn (s : TorSubstrate.t) : dyn := mkDyn TorSubstrate.t TorSubstrate.transport s.

Definition tor_sidecar (pr : profile) (m : machine) (env : environment) (bound : option SocketAddr)
    (now : Z) : process :=
  match tor_target env with
  | None => Exited NoTarget
  | Some target =>
      match connect_managed m target tor_oracle with
      | Err e => Exited (TorFailure e)
      | Ok (_, Pending) => Starting
      | Ok (_, Ready (Err e)) => Exited (CircuitFailed e)
      | Ok (_, Ready (Ok sub)) => announce_front (bridge pr (tor_dyn sub) bound now)
      end
  end.

(** [nym_sidecar]'s [main]: the gateway is a mixnet address of its own variable. *)
Definition nym_surbs (env : environment) (dflt : Z) (var : string) : Z :=
  default dflt (env (bs var) ≫= parse_uint 32).

Definition nym_dyn (s : Nym.NymSubstrate) : dyn := mkDyn Nym.NymSubstrate Nym.Nym_MixTransport s.

Definition nym_sidecar (pr : profile) (sdk : Nym.sdk) (env : environment) (bound : option SocketAddr)
    (now : Z) : process :=
  match env (bs "QUICMIX_NYM_GATEWAY") with
  | None => Exited NoTarget
  | Some gateway =>
      match Nym.connect sdk 0 gateway (nym_surbs env 4 "QUICMIX_NYM_SURBS") Nym.nym_oracle with
      | Err e => Exited (NymFailure e)
      | Ok sub =>
          announce_front
            (match @Nym.spawn_client_bridge _ Nym.Nym_MixTransport pr sub now with
             | None => Err FrontPanicked
             | Some f => a ← ok_or bound FrontBindFailed; Ok (mkFrontOf a (Bridge (nym_dyn sub) f))
             end)
      end
  end.

(** ** A supervised daemon comes up. *)
Lemma booted_line x y : booted (x ++ BOOTED ++ y) = Some (Ok ()).
Proof. unfold booted. by destruct (find_window_app BOOTED x y) as [i ->]. Qed.

Lemma parse_loopback p : in_u 16 p → parse_socket_addr (bs "127.0.0.1:" ++ show_uint p) = Some (SA4 (V4 127 0 0 1) p).
Proof.
  intros Hp. change (bs "127.0.0.1:" ++ show_uint p) with (show_socket_addr (SA4 (V4 127 0 0 1) p)).
  apply parse_show_socket_addr_v4; [by vm_compute|done].
Qed.

Lemma launch_boots m p before x y after e :
  free_port m = Some p → in_u 16 p → Forall (noise booted) before →
  LF ∉ x ++ BOOTED ++ y → utf8 (x ++ BOOTED ++ y) = true → strip_cr (x ++ BOOTED ++ y) = x ++ BOOTED ++ y →
  (∀ args, run_tor m args = Some (as_lines before ++ (x ++ BOOTED ++ y) ++ [LF] ++ after, e)) →
  ∃ d, launch m = Ok d ∧ socks d = SA4 (V4 127 0 0 1) p ∧ program (daemon d) = bs "tor".
Proof.
  intros Hf Hp Hb Hlf Hu Hc Hr. unfold launch. rewrite Hf. cbn [ok_or mbind result_bind].
  rewrite parse_loopback by done. cbn [ok_or mbind result_bind]. rewrite Hr.
  cbn [ok_or mbind result_bind]. erewrite for_lines_found; [|done..|by rewrite Hc, booted_line].
  cbn [mbind result_bind]. eauto.
Qed.

(** ** The circuit asks for the target it was given. *)
Lemma split_shown_v4 a b c d p :
  in_u 16 p → split_host_port (show_socket_addr (SA4 (V4 a b c d) p)) = Ok (show_v4 a b c d, p).
Proof.
  intros Hp. unfold split_host_port. cbn [show_socket_addr show_ip].
  change (bs ":" ++ show_uint p) with (zb 58 :: show_uint p).
  rewrite rsplit_once_app by (apply show_uint_notin; right; by vm_compute).
  cbn [ok_or mbind result_bind]. by rewrite parse_show_uint by done.
Qed.

Lemma show_uint_length n : 0 ≤ n < 256 → (length (show_uint n) ≤ 3)%nat.
Proof.
  intros Hn. pose proof (upto (λ n, bool_decide (length (show_uint n) ≤ 3)%nat) 256 n) as H.
  apply (bool_decide_unpack _), Is_true_true, H; [by vm_compute|].
  clear H. lia.
Qed.

Lemma show_v4_length a b c d : ip_ok (V4 a b c d) → (length (show_v4 a b c d) ≤ 255)%nat.
Proof.
  intros (Ha & Hb & Hc & Hd). unfold in_u in *. unfold show_v4. rewrite !length_app.
  pose proof (show_uint_length a Ha). pose proof (show_uint_length b Hb).
  pose proof (show_uint_length c Hc). pose proof (show_uint_length d Hd).
  change (length (bs ".")) with 1%nat. lia.
Qed.

(** The whole bring-up, past a daemon that boots and a proxy that accepts. *)
Lemma tor_sidecar_serves pr m env p d a b c e gp reply y re wf bound now :
  launch m = Ok d → socks d = SA4 (V4 127 0 0 1) p →
  ip_ok (V4 a b c e) → in_u 16 gp →
  tor_target env = Some (show_socket_addr (SA4 (V4 a b c e) gp)) →
  tcp m (SA4 (V4 127 0 0 1) p) = Some (mkConnection (mkReader (reply ++ y) re) wf) → takes_both wf → connect_reply reply →
  tor_sidecar pr m env (Some bound) now =
    announce_front (bridge pr (tor_dyn (TorSubstrate.mk (StreamDatagram.mk (mkReader y re)
      (mkWriter (socks_greeting ++ socks_request (show_v4 a b c e) gp) None) tor_oracle) true))
      (Some bound) now).
Proof.
  intros Hl Hs Hip Hgp Ht Htcp Hwf Hr. unfold tor_sidecar. rewrite Ht. unfold connect_managed.
  rewrite Hl. unfold tor_dial. rewrite split_shown_v4, Hs, Htcp by done.
  unfold tor_stream_to. rewrite split_shown_v4 by done.
  by rewrite socks5_connect_reply by auto using show_v4_length.
Qed.

Lemma tor_bridge pr s bound now :
  StreamDatagram.sd_oracle (TorSubstrate.circuit s) = tor_oracle →
  ∃ f, bridge pr (tor_dyn s) (Some bound) now = Ok (mkFrontOf bound (Bridge (tor_dyn s) f)) ∧
       inner (sub (fpipe f)) = s.
Proof.
  intros Ho. unfold bridge, spawn_substrate_front. cbn [tor_dyn dyn_transport dyn_value dyn_type].
  change (@oracle _ TorSubstrate.transport s) with (StreamDatagram.sd_oracle (TorSubstrate.circuit s)).
  rewrite Ho. destruct (bdp_packets pr tor_oracle) as [n|] eqn:E; [|by destruct pr].
  cbn. eauto.
Qed.

(** The client's [spawn] when the command is the Tor sidecar. *)
Definition tor_command (pr : profile) (m : machine) (base : environment) (bound : option SocketAddr) (now : Z)
    (program : str) (args : list str) (adds : list (str * str)) : option (bytes * bool) :=
  Some (seen (tor_sidecar pr m (with_env adds base) bound now)).

Lemma with_env_target v base : tor_target (with_env [(SIDECAR_TARGET_ENV, v)] base) = Some v.
Proof. reflexivity. Qed.

Lemma spawn_reads_announcement spawn program args gateway a b c e p :
  ip_ok (V4 a b c e) → in_u 16 p →
  spawn program args [(SIDECAR_TARGET_ENV, show_socket_addr gateway)] =
    Some (announcement (SA4 (V4 a b c e) p), false) →
  fst <$> spawn_sidecar spawn program args gateway = Ok (SA4 (V4 a b c e) p).
Proof.
  intros Hip Hp Hs. unfold spawn_sidecar, await_front. rewrite Hs.
  destruct (front_line_announces a b c e p Hip Hp) as (Hlf & Hu & Hon).
  pose proof (for_lines_found SidecarIo SidecarExited NoFrontIn30s announced [] _ _ [] false
    (Forall_nil_2 _) Hlf Hu Hon) as H.
  unfold announcement. change (bs "FRONT ") with FRONT_LINE.
  cbn [as_lines fmap list_fmap concat app] in H. rewrite <- app_assoc in H.
  by rewrite H.
Qed.

(** An HTTP head is no frame: the first four bytes are a length past the cap. *)
Lemma cert_endpoint_is_malformed cert re w :
  StreamDatagram.try_recv (StreamDatagram.mk (mkReader (cert_response cert) re) w tor_oracle) =
  Ready (Err Malformed, StreamDatagram.mk (mkReader (drop 4 (cert_response cert)) re) w tor_oracle).
Proof.
  unfold cert_response, cert_head. rewrite <- !app_assoc.
  change (bs "HTTP/1.0 200 OK") with (bs "HTTP" ++ bs "/1.0 200 OK").
  rewrite <- app_assoc. unfold StreamDatagram.try_recv. cbn [StreamDatagram.read].
  rewrite read_exact_app by done. by rewrite drop_app_length' by done.
Qed.

(** C17: the client and the Tor sidecar it spawns, end to end, for an IPv4 gateway
    and front.  When the daemon the sidecar supervises boots and its proxy accepts
    and takes both writes, the client dials the front the sidecar serves, and
    behind it runs the framed stream of a circuit whose exit was asked for exactly
    the address the client passed: the gateway's own [ip:port].  On a gateway that TCP port is the certificate's
    HTTP endpoint, and the circuit's first read of its answer is [Malformed]. *)
Theorem spawned_tor_sidecar_dials_the_gateway pr m base now
    (fp p gp a b c e g1 g2 g3 g4 : Z) before x y after en reply peer re wf program args :
  let front := SA4 (V4 a b c e) fp in
  let gateway := SA4 (V4 g1 g2 g3 g4) gp in
  let line := x ++ BOOTED ++ y in
  ip_ok (V4 a b c e) → in_u 16 fp → ip_ok (V4 g1 g2 g3 g4) → in_u 16 gp → in_u 16 p →
  free_port m = Some p → Forall (noise booted) before →
  LF ∉ line → utf8 line = true → strip_cr line = line →
  (∀ args, run_tor m args = Some (as_lines before ++ line ++ [LF] ++ after, en)) →
  tcp m (SA4 (V4 127 0 0 1) p) = Some (mkConnection (mkReader (reply ++ peer) re) wf) → takes_both wf →
  connect_reply reply →
  fst <$> spawn_sidecar (tor_command pr m base (Some front) now) program args gateway = Ok front ∧
  (∃ s (f : UdpFront.front TorSubstrate.t), tor_sidecar pr m (with_env [(SIDECAR_TARGET_ENV, show_socket_addr gateway)] base) (Some front) now =
       Serving (announcement front) (mkFrontOf front (Bridge (tor_dyn s) f)) ∧
     inner (sub (fpipe f)) = s ∧
     StreamDatagram.write (TorSubstrate.circuit s) =
       mkWriter (socks_greeting ++ socks_request (show_v4 g1 g2 g3 g4) gp) None ∧
     ∀ cert, peer = cert_response cert →
       ∃ s', StreamDatagram.try_recv (TorSubstrate.circuit s) = Ready (Err Malformed, s')).
Proof.
  intros front gateway line Hf Hfp Hg Hgp Hp Hport Hb Hlf Hu Hcr Hrun Htcp Hwf Hrep.
  destruct (launch_boots m p before x y after en) as (d & Hd & Hs & _); try done.
  pose proof (tor_sidecar_serves pr m (with_env [(SIDECAR_TARGET_ENV, show_socket_addr gateway)] base)
    p d g1 g2 g3 g4 gp reply peer re wf front now Hd Hs Hg Hgp (with_env_target _ _) Htcp Hwf Hrep) as Hm.
  destruct (tor_bridge pr (TorSubstrate.mk (StreamDatagram.mk (mkReader peer re)
      (mkWriter (socks_greeting ++ socks_request (show_v4 g1 g2 g3 g4) gp) None) tor_oracle) true)
      front now eq_refl) as (f & Hbr & Hi).
  rewrite Hbr in Hm. split.
  - apply spawn_reads_announcement; [done..|]. unfold tor_command. by rewrite Hm.
  - eexists _, f. split_and!; [exact Hm|exact Hi|done|]. intros cert ->.
    cbn [TorSubstrate.circuit]. rewrite cert_endpoint_is_malformed. eauto.
Qed.

Definition demo_reply : bytes := [zb 5; zb 0; zb 5; zb 0; zb 0; zb 1; zb 0; zb 0; zb 0; zb 0; zb 0; zb 0].
Definition demo_machine (peer : bytes) : machine :=
  mkMachine (Some 9150) (bs "/tmp") 4242
    (λ _, Some (as_lines [bs "Bootstrapped 10% (conn): Connecting"] ++
                (bs "" ++ BOOTED ++ bs " (done): Done") ++ [LF] ++ [], false))
    (λ a, if decide (a = SA4 (V4 127 0 0 1) 9150) then Some (mkConnection (mkReader (demo_reply ++ peer) None) (λ _, None)) else None).

Lemma spawned_tor_sidecar_dials_the_gateway_witness :
  fst <$> spawn_sidecar (tor_command Debug (demo_machine (cert_response (bs "der"))) (λ _, None)
      (Some (SA4 (V4 127 0 0 1) 40000)) 0) (bs "tor_sidecar") [] (SA4 (V4 64 226 93 43) 4433)
  = Ok (SA4 (V4 127 0 0 1) 40000).
Proof.
  refine (proj1 (spawned_tor_sidecar_dials_the_gateway Debug (demo_machine (cert_response (bs "der")))
    (λ _, None) 0 40000 9150 4433 127 0 0 1 64 226 93 43 [bs "Bootstrapped 10% (conn): Connecting"]
    (bs "") (bs " (done): Done") [] false demo_reply (cert_response (bs "der")) None (λ _, None) (bs "tor_sidecar") []
    _ _ _ _ _ _ _ _ _ _ _ _ _ _)).
  1-5: by vm_compute.
  - done.
  - constructor; [|constructor].
    split; [apply (bool_decide_unpack (LF ∉ _)); by vm_compute | reflexivity | reflexivity].
  - apply (bool_decide_unpack (LF ∉ _)); by vm_compute.
  - done.
  - done.
  - done.
  - done.
  - by split.
  - exists (zb 5), (zb 0), [zb 1; zb 0; zb 0; zb 0; zb 0], [zb 0; zb 0]. split_and!; [by apply BoundV4|done|done].
Defined.
