(* ===== verification/Probes.v ===== *)
(** * The measurement programs: [substrates/quicmix-nym/src/bin/nym_probe.rs],
    [substrates/quicmix-katzenpost/src/bin/kp_echo.rs] and [kp_probe.rs],
    [substrates/quicmix-hopr/src/bin/hopr_probe.rs] and
    [substrates/quicmix-tor/src/bin/tor_probe.rs].

    What each sends, what it takes for an answer, and what it concludes; the
    figures are printed by the programs and are values here.  Clocks, messages
    and the circuits are arguments. *)

From stdpp Require Import sorting.
From S2P Require Import Prelude RustFloat RustStr RustText Core Mixnets.
Open Scope Z_scope.

(** [arg(n, default)]. *)
Definition arg {A} (parse : str → option A) (argv : list str) (n : nat) (dflt : A) : A :=
  default dflt (argv !! n ≫= parse).

(** ** [nym_probe]: pings to oneself through the mixnet. *)
Definition tag (i : nat) : str := bs "ping-" ++ show_uint (Z.of_nat i).

(** [Vec::resize(mtu, 0)]. *)
Definition resize (k : nat) (l : bytes) : bytes := take k l ++ replicate (k - length l) (zb 0).
Definition ping (mtu i : nat) : bytes := resize mtu (tag i).

(** The tag a reply leads with. *)
Definition lead_tag (msg : bytes) : option str :=
  let lead := take 16 msg in
  if utf8 lead then match split (zb 0) lead with t :: _ => Some t | [] => None end else None.

Record drain := mkDrain { outstanding : gmap str Z; rtts : list Z; arrivals : list Z }.

Inductive reply : Type := Message (msg : bytes) | StreamEnded | TimedOut.
(** A turn of the loop: the clock when it starts, what [client.next()] gives
    within the time left, and the clock then. *)
Record turn := mkTurn { checked : Z; answer : reply; now : Z }.

Section NymProbe.
Variable n : nat.
Variable window : Z.
Variable clock : nat → Z.      (* when ping [i] is sent *)
Variable sends : nat → bool.

(** All pings, first to last; [None]: a send failed and the program stops. *)
Fixpoint fire (k i : nat) (m : gmap str Z) : option (gmap str Z) :=
  match k with
  | O => Some m
  | S k => if sends i then fire k (S i) (<[tag i := clock i]> m) else None
  end.

Definition on_message (msg : bytes) (t : Z) (d : drain) : drain :=
  match lead_tag msg with
  | Some tg =>
      match outstanding d !! tg with
      | Some sent => mkDrain (delete tg (outstanding d)) (rtts d ++ [usat_sub t sent]) (arrivals d ++ [t])
      | None => d
      end
  | None => d
  end.

Fixpoint drain_loop (start : Z) (ts : list turn) (d : drain) : drain :=
  match ts with
  | [] => d
  | mkTurn c a t :: ts =>
      if (length (rtts d) <? n)%nat && (usat_sub c start <? window) then
        match a with
        | Message msg => drain_loop start ts (on_message msg t d)
        | StreamEnded | TimedOut => d
        end
      else d
  end.
End NymProbe.

(** *** What is concluded. *)
Definition pct (v : list Z) (p : spec_float) : option Z :=
  if (length v =? 0)%nat then Some 0
  else v !! Z.to_nat (as_u 64 (fround binary64
         (fmul binary64 (fadd binary64 (of_int binary64 (Z.of_nat (length v))) (SFopp (of_int binary64 1))) p))).

Definition loss (received n : nat) : spec_float :=
  fadd binary64 (of_int binary64 1)
    (SFopp (fdiv binary64 (of_int binary64 (Z.of_nat received)) (of_int binary64 (Z.of_nat n)))).

(** Messages per second over the span of the arrivals. *)
Definition throughput (arrivals : list Z) : spec_float :=
  let v := merge_sort Z.le arrivals in
  match v, last v with
  | first :: _ :: _, Some final =>
      fdiv binary64 (of_int binary64 (Z.of_nat (length v) - 1))
        (fmax (as_secs_f64 (usat_sub final first)) (lit binary64 1 1000000))
  | _, _ => S754_zero false
  end.

Definition as_millis (d : Z) : Z := d / 1000000.

(** The [OracleParams] printed to be pasted: the durations are whole
    milliseconds, the loss is shown to three places ([shown]). *)
Definition measured_oracle (pr : profile) (shown : spec_float → spec_float) (n mtu : nat) (hops : Z) (d : drain) :
    option OracleParams :=
  p50 ← pct (merge_sort Z.le (rtts d)) (lit binary64 50 100);
  legs ← umul pr 32 2 (Z.max hops 1);
  mean ← (if legs =? 0 then None else Some (p50 / legs));
  let thru := throughput (arrivals d) in
  slot ← (if SFltb (S754_zero false) thru then from_secs_f64 (fdiv binary64 (of_int binary64 1) thru) else Some 0);
  Some (mkOracleParams hops (from_millis (as_millis mean)) (shown (loss (length (rtts d)) n))
    (from_millis (as_millis slot)) (Z.of_nat mtu)).

(** ** [kp_echo]: a nonce to the echo service and back. *)
Definition nonce : bytes :=
  (λ i, zb (wrap 8 (wrap 8 (Z.of_nat i * 37) + 11))) <$> seq 0 32.
Definition echoed (error_code : Z) (payload : bytes) : bool :=
  (error_code =? 0) && is_some (find_window nonce payload).
Definition kp_daemon (argv : list str) : str := default (bs "127.0.0.1:64331") (argv !! 1%nat).
Definition kp_echo_args (argv : list str) : str * str := (kp_daemon argv, default (bs "echo") (argv !! 2%nat)).

Inductive echo_error (E : Type) : Type := RequestFailed (e : E) | NotOurPayload (error_code : Z) (back : nat).
Arguments RequestFailed {E} e.
Arguments NotOurPayload {E} error_code back.
(** [reply]: what [request_reply] answers within 90 s. *)
Definition kp_echo {E} (reply : result E (Z * bytes)) : result (echo_error E) () :=
  r ← map_err RequestFailed reply;
  if echoed r.1 r.2 then Ok () else Err (NotOurPayload r.1 (length r.2)).

(** ** [hopr_probe]: one datagram into a session; [None]: the usage is printed. *)
Record hopr_run := mkHoprRun { api : str; token : str; dest : str; opts : Hopr.SessionOpts; path : OracleParams }.
Definition hopr_args (argv : list str) : option hopr_run :=
  if (length argv <? 5)%nat then None
  else
    api ← argv !! 1%nat; token ← argv !! 2%nat; dest ← argv !! 3%nat; target ← argv !! 4%nat;
    let hops := arg (parse_uint 8) argv 5 0 in
    Some (mkHoprRun api token dest
      (Hopr.mkSessionOpts hops target (default (bs "127.0.0.1:0") (argv !! 7%nat)) (argv !! 6%nat)
         (Hopr.http_timeout Hopr.SessionOpts_default))
      (Hopr.hopr_oracle hops)).

Definition hopr_payload : bytes := bs "quicmix-hopr-probe".
Inductive hopr_error : Type :=
| SessionFailed (e : Hopr.connect_error) | SendFailed (e : SubstrateError) | RecvFailed (e : SubstrateError) | NoEcho.
(** [heard]: what [try_recv] answers within 30 s. *)
Definition hopr_probe (opened : result Hopr.connect_error Hopr.HoprSubstrate)
    (heard : option (result SubstrateError bytes)) : result hopr_error bytes :=
  s ← map_err SessionFailed opened;
  _ ← map_err SendFailed (Hopr.try_send hopr_payload s).1;
  match heard with
  | Some (Ok got) => Ok got
  | Some (Err e) => Err (RecvFailed e)
  | None => Err NoEcho
  end.

(** ** [tor_probe]: where the circuit goes. *)
Definition probe_target (arg : option str) : str * Z :=
  let target := default (bs "check.torproject.org:80") arg in
  let '(host, port) := default (target, bs "80") (rsplit_once (zb 58) target) in
  (host, default 80 (parse_uint 16 port)).
Definition probe_request (host : str) : bytes :=
  bs "GET / HTTP/1.0" ++ CRLF ++ bs "Host: " ++ host ++ CRLFCRLF.

(** ** Tags. *)
Lemma split_none c l : c ∉ l → split c l = [l].
Proof.
  induction l as [|b l IH]; intros Hl; [done|]. apply not_elem_of_cons in Hl as [Hb Hl].
  cbn [split]. rewrite decide_False by congruence. by rewrite IH.
Qed.

Lemma tag_digits i : Forall (λ b, is_ascii b ∧ b ≠ zb 0) (tag i).
Proof.
  unfold tag. apply Forall_app. split.
  - repeat constructor; by vm_compute.
  - eapply Forall_impl; [apply show_uint_digits|]. intros b Hb. split; [by apply is_digit_ascii|].
    apply is_digit_ne; [done|]. left. by vm_compute.
Qed.

Lemma tag_inj i j : Z.of_nat i < 2 ^ 64 → Z.of_nat j < 2 ^ 64 → tag i = tag j → i = j.
Proof.
  intros Hi Hj E. unfold tag in E. apply app_inv_head in E.
  apply (f_equal (parse_uint 64)) in E. rewrite !parse_show_uint in E by (unfold in_u; lia).
  injection E. lia.
Qed.

(** What comes back of a ping that fits its packet is recognised as that ping. *)
Lemma ping_lead mtu i : (length (tag i) ≤ mtu)%nat → (length (tag i) ≤ 16)%nat → lead_tag (ping mtu i) = Some (tag i).
Proof.
  intros Hm H16. pose proof (tag_digits i) as Hd.
  assert (zb 0 ∉ tag i) as H0 by (intros Hin; by apply (proj1 (Forall_forall _ _) Hd) in Hin as [_ ?]).
  unfold lead_tag, ping, resize.
  rewrite (take_ge (tag i)) by done.
  assert (take 16 (tag i ++ replicate (mtu - length (tag i)) (zb 0)) =
    tag i ++ replicate ((16 - length (tag i)) `min` (mtu - length (tag i))) (zb 0)) as ->.
  { rewrite take_app_ge by done. f_equal. apply take_replicate. }
  rewrite utf8_ascii.
  - destruct (_ `min` _)%nat as [|k]; cbn [replicate].
    + by rewrite app_nil_r, split_none.
    + by rewrite split_line.
  - apply Forall_app. split; [by eapply Forall_impl; [done|]; intros ? []|].
    apply Forall_forall. intros b Hb. apply elem_of_replicate in Hb as [-> _]. by vm_compute.
Qed.

(** ** Which replies count. *)
Section Hits.
Variables (n : nat) (window start : Z) (clock : nat → Z).
Hypothesis small : Z.of_nat n ≤ 2 ^ 64.

Definition heard (ts : list turn) (i : nat) (t : Z) : Prop :=
  ∃ c msg, mkTurn c (Message msg) t ∈ ts ∧ lead_tag msg = Some (tag i).

(** Nothing but messages, and all within the window. *)
Definition in_time (x : turn) : Prop :=
  usat_sub (checked x) start < window ∧ match answer x with Message _ => True | _ => False end.

Lemma small_inj i j : (i < n)%nat → (j < n)%nat → tag i = tag j → i = j.
Proof. intros. apply tag_inj; [lia..|done]. Qed.

Record counted (hits : list (nat * Z)) (d : drain) : Prop := {
  c_rtts : rtts d = (λ h, usat_sub h.2 (clock h.1)) <$> hits;
  c_arrivals : arrivals d = hits.*2;
  c_once : NoDup hits.*1;
  c_range : Forall (λ i, (i < n)%nat) hits.*1;
  c_left : ∀ tg s, outstanding d !! tg = Some s ↔ ∃ i, (i < n)%nat ∧ i ∉ hits.*1 ∧ tg = tag i ∧ s = clock i;
}.

Lemma fire_spec sends k i m m' :
  fire clock sends k i m = Some m' → (i + k = n)%nat →
  (∀ tg s, m !! tg = Some s ↔ ∃ j, (j < i)%nat ∧ tg = tag j ∧ s = clock j) →
  ∀ tg s, m' !! tg = Some s ↔ ∃ j, (j < n)%nat ∧ tg = tag j ∧ s = clock j.
Proof.
  revert i m. induction k as [|k IH]; intros i m; cbn [fire].
  { intros [= <-] Hi H. by replace n with i by lia. }
  destruct (sends i); [|done]. intros H Hi Hm. eapply (IH (S i)); [exact H|lia|].
  intros tg s. rewrite lookup_insert_Some, Hm. split.
  - intros [[<- <-]|(_ & j & ? & ? & ?)]; [exists i|exists j]; split_and!; (done || lia).
  - intros (j & Hj & -> & ->). destruct (decide (j = i)) as [->|]; [by left|right].
    split; [|exists j; split_and!; (done || lia)]. intros E. apply small_inj in E; lia.
Qed.

Lemma fire_counted sends m : fire clock sends n 0 ∅ = Some m → counted [] (mkDrain m [] []).
Proof.
  intros H. split; cbn; [done|done|constructor|constructor|]. intros tg s. rewrite (fire_spec sends n 0 ∅ m H).
  - split; [intros (j & ? & ? & ?)|intros (j & ? & _ & ? & ?)]; exists j; [|done].
    split_and!; [done|apply not_elem_of_nil|done..].
  - done.
  - intros ? ?. rewrite lookup_empty. split; [done|]. intros (? & ? & _). lia.
Qed.

Lemma on_message_counted hits d msg t :
  counted hits d →
  (∃ i, lead_tag msg = Some (tag i) ∧ i ∉ hits.*1 ∧ counted (hits ++ [(i, t)]) (on_message msg t d)) ∨
  on_message msg t d = d ∧ ∀ i, (i < n)%nat → lead_tag msg = Some (tag i) → i ∈ hits.*1.
Proof.
  intros [Hr Ha Ho Hg Hl]. unfold on_message. destruct (lead_tag msg) as [tg|] eqn:Et; [|by right].
  destruct (outstanding d !! tg) as [s|] eqn:Es.
  - left. apply Hl in Es as (i & Hi & Hn & -> & ->). exists i. split_and!; [done|done|].
    split; cbn.
    + by rewrite Hr, fmap_app.
    + by rewrite Ha, fmap_app.
    + rewrite fmap_app. cbn. apply NoDup_app. split_and!; [done| |apply NoDup_singleton].
      intros x Hx ->%list_elem_of_singleton. done.
    + rewrite fmap_app. apply Forall_app. split; [done|]. by repeat constructor.
    + intros tg s. rewrite lookup_delete_Some, Hl, fmap_app. cbn. split.
      * intros (Hne & j & Hj & Hnj & -> & ->). exists j. split_and!; [done| |done..].
        rewrite not_elem_of_app, list_elem_of_singleton. split; [done|]. by intros ->.
      * intros (j & Hj & Hnj & -> & ->). rewrite not_elem_of_app, list_elem_of_singleton in Hnj.
        destruct Hnj as [Hnj Hne]. split; [|by exists j]. intros E. apply Hne. symmetry. by apply small_inj.
  - right. split; [done|]. intros i Hi [= ->].
    destruct (decide (i ∈ hits.*1)) as [|Hn]; [done|]. exfalso.
    assert (outstanding d !! tag i = Some (clock i)) as H by (apply Hl; by exists i). congruence.
Qed.

Lemma all_hit hits d i : counted hits d → (n ≤ length (rtts d))%nat → (i < n)%nat → i ∈ hits.*1.
Proof.
  intros [Hr _ Ho Hg _] Hn Hi. rewrite Hr, length_fmap in Hn.
  assert (hits.*1 ≡ₚ seq 0 n) as ->; [|apply elem_of_seq; lia].
  apply submseteq_length_Permutation.
  - apply NoDup_submseteq; [done|]. intros x Hx. apply elem_of_seq.
    pose proof (proj1 (Forall_forall _ _) Hg x Hx). cbn in *. lia.
  - by rewrite length_seq, length_fmap.
Qed.

Lemma not_heard i t : ¬ heard [] i t.
Proof. intros (? & ? & Hin & _). by apply not_elem_of_nil in Hin. Qed.

Lemma heard_cons x ts i t : heard ts i t → heard (x :: ts) i t.
Proof. intros (c & msg & Hin & Ht). exists c, msg. split; [by right|done]. Qed.

Lemma drain_loop_counted ts d hits :
  counted hits d →
  ∃ new, counted (hits ++ new) (drain_loop n window start ts d) ∧
    (∀ i t, (i, t) ∈ new → heard ts i t) ∧
    (Forall in_time ts → ∀ i, (i < n)%nat → (∃ t, heard ts i t) → i ∈ (hits ++ new).*1).
Proof.
  revert d hits. induction ts as [|[c a t] ts IH]; intros d hits Hc; cbn [drain_loop].
  { exists []. rewrite app_nil_r. split_and!; [done|by intros ? ? ?%not_elem_of_nil|]. by intros _ i _ (t & ?%not_heard). }
  destruct (Nat.ltb_spec (length (rtts d)) n) as [Hlt|Hge]; cbn [andb].
  2:{ exists []. rewrite app_nil_r. split_and!; [done|by intros ? ? ?%not_elem_of_nil|]. intros _ i Hi _. by eapply all_hit. }
  destruct (Z.ltb_spec (usat_sub c start) window) as [Hw|Hw].
  2:{ exists []. rewrite app_nil_r. split_and!; [done|by intros ? ? ?%not_elem_of_nil|].
      intros Hin. inversion_clear Hin as [|? ? [Hx _] _]. cbn in Hx. lia. }
  destruct a as [msg| |];
    [|exists []; rewrite app_nil_r; split_and!; [done|by intros ? ? ?%not_elem_of_nil|];
      intros Hin; inversion_clear Hin as [|? ? [_ Hx] _]; done..].
  destruct (on_message_counted _ _ msg t Hc) as [(i & Ht & Hn & Hc')|[-> Hseen]].
  - destruct (IH _ _ Hc') as (new & Hnew & Hh & Hall). rewrite <- app_assoc in Hnew, Hall. cbn in Hnew, Hall.
    exists ((i, t) :: new). split_and!; [done| |].
    + intros j u [[= -> ->]|Hin]%elem_of_cons; [exists c, msg; split; [by left|done]|by apply heard_cons, Hh].
    + intros Hin j Hj (u & c' & m' & [[= -> -> ->]|Hx]%elem_of_cons & Hm).
      * rewrite Ht in Hm. apply (inj Some) in Hm. assert (i = j) as ->; [|rewrite fmap_app; apply elem_of_app; right; by left].
        apply small_inj; [|done|done].
        pose proof (c_range _ _ Hc') as Hg. rewrite fmap_app in Hg. apply Forall_app in Hg as [_ Hg].
        by inversion_clear Hg.
      * apply Hall; [by inversion_clear Hin|done|]. by exists u, c', m'.
  - destruct (IH _ _ Hc) as (new & Hnew & Hh & Hall). exists new. split_and!; [done| |].
    + intros j u Hin. by apply heard_cons, Hh.
    + intros Hin j Hj (u & c' & m' & [[= -> -> ->]|Hx]%elem_of_cons & Hm).
      * rewrite fmap_app. apply elem_of_app. left. by apply Hseen.
      * apply Hall; [by inversion_clear Hin|done|]. by exists u, c', m'.
Qed.
End Hits.

(** ** The oracle it prints predicts the round trip it measured. *)
Lemma whole_millis_below p legs :
  0 ≤ p → 0 < legs → p - legs * 1000000 < legs * from_millis (as_millis (p / legs)) ≤ p.
Proof. intros Hp Hl. unfold from_millis, as_millis. Z.to_euclidean_division_equations. nia. Qed.

Lemma measured_oracle_rtt pr shown n mtu hops d o p50 :
  1 ≤ hops → 2 * hops < 2 ^ 32 → duration_ok p50 →
  pct (merge_sort Z.le (rtts d)) (lit binary64 50 100) = Some p50 →
  measured_oracle pr shown n mtu hops d = Some o →
  ∃ r, Core.rtt o = Some r ∧ p50 - 2 * hops * 1000000 < r ≤ p50.
Proof.
  intros Hh Hu Hp Hpct H. unfold measured_oracle in H. rewrite Hpct in H. cbn [mbind option_bind] in H.
  replace (Z.max hops 1) with hops in H by lia.
  assert (umul pr 32 2 hops = Some (2 * hops)) as Hm by (apply uint_in; unfold in_u; lia).
  rewrite Hm in H. cbn [mbind option_bind] in H. replace (2 * hops =? 0) with false in H by lia.
  cbn [mbind option_bind] in H. apply bind_Some in H as (slot & _ & [= <-]).
  pose proof (whole_millis_below p50 (2 * hops) (proj1 Hp) ltac:(lia)) as Hb.
  set (m := from_millis (as_millis (p50 / (2 * hops)))) in *. unfold Core.rtt. cbn [Core.mean_hop_delay Core.hops].
  assert (0 ≤ m) as Hm0 by (subst m; unfold from_millis, as_millis; repeat apply Z.mul_nonneg_nonneg; repeat apply Z.div_pos; lia || apply Hp).
  unfold duration_ok in Hp.
  rewrite (proj2 (duration_mul_Some m hops (m * hops))) by (split; [done|unfold duration_ok; nia]).
  cbn [mbind option_bind].
  exists (m * hops * 2). split; [|lia]. apply duration_mul_Some. split; [done|]. unfold duration_ok. nia.
Qed.

Lemma pct_elem v p x : pct v p = Some x → x = 0 ∨ x ∈ v.
Proof.
  unfold pct. destruct (length v =? 0)%nat; [intros [= <-]; by left|]. intros Hx%list_elem_of_lookup_2. by right.
Qed.


(** Two pings; the second comes back first, then again, then a foreign message,
    then the first. *)
Definition demo_clock (i : nat) : Z := from_millis (Z.of_nat i).
Definition demo_turns : list turn :=
  [mkTurn (from_millis 5) (Message (ping 1200 1)) (from_millis 2801);
   mkTurn (from_millis 2801) (Message (ping 1200 1)) (from_millis 2900);
   mkTurn (from_millis 2900) (Message (bs "cover")) (from_millis 2950);
   mkTurn (from_millis 2950) (Message (ping 1200 0)) (from_millis 3000)].
Definition demo_fired : gmap str Z := default ∅ (fire demo_clock (λ _, true) 2 0 ∅).
Definition demo_drain : drain := drain_loop 2 (from_secs 120) (from_millis 5) demo_turns (mkDrain demo_fired [] []).


(** A packet smaller than the tag cuts it: nothing that comes back is counted. *)
Example short_ping_is_lost : lead_tag (ping 5 7) = Some (bs "ping-") ∧ tag 7 = bs "ping-7".
Proof. by split; vm_compute. Qed.

(** A slot under a millisecond is printed as none, which reads as an uncapped
    substrate. *)
Example fast_substrate_prints_no_slot :
  (Core.slot_interval <$> measured_oracle Debug id 3 1200 3
    (mkDrain ∅ [from_millis 90; from_millis 90; from_millis 90] [0; 500000; 1000000])) = Some 0.
Proof. by vm_compute. Qed.
