(* ===== verification/Uploads.v ===== *)
(** * The transfer benchmarks: [crates/quicmix-eval/examples/bench.rs] and
    [multipath.rs], [substrates/quicmix-nym/src/bin/nym_bench.rs].

    Each measures one upload: a client writes a payload on a unidirectional
    stream and waits for the server, which reads the stream to its end, to close
    the connection.  The two tasks and QUIC run interleaved; what quinn answers
    is in the events.  Then what the programs compute from a run; Programs has the
    circuits they build for it. *)

From S2P Require Import Prelude RustFloat RustStr Core Oracle Client Net Selection Emulator Striped Mixnets.
Open Scope Z_scope.

(** ** One upload. *)

(** Why an end of the connection is closed. *)
Inductive why : Set := ApplicationClosed | LocallyClosed | ConnectionLost.
#[global] Instance why_eq_dec : EqDecision why.
Proof. solve_decision. Defined.

Inductive read_error : Set := TooLong | ReadLost.
Inductive upload_error : Set := HandshakeFailed | OpenFailed | WriteFailed | FinishFailed.

(** [Unserved]: the endpoint closed before a connection came. *)
Inductive server_task : Set := Accepting | Unserved | Incoming | AcceptingUni | ReadingToEnd | Gone.
Inductive client_task : Set :=
| Connecting | Opening | Writing (todo : bytes) | Finishing | AwaitingClose
| Done (reason : why) | Failed (e : upload_error).

Record upload := mkUpload {
  s_conn : option why; c_conn : option why;      (* each end of the connection *)
  written : bytes; fin : bool;                   (* the client's end of the stream *)
  arrived : bytes; fin_arrived : bool;           (* the server's *)
  srv : server_task; read : option (result read_error bytes);
  cli : client_task;
}.

Definition start : upload := mkUpload None None [] false [] false Accepting None Connecting.

Inductive event : Type :=
| EAccept (some : bool) | EIncoming (ok : bool) | EAcceptUni | EReadToEnd (answer : result read_error bytes)
| EConnect (ok : bool) | EOpenUni (ok : bool) | EWrite (n : nat) | EWriteFails | EFinish (ok : bool) | EClosed
| ECarry (n : nat) | ECarryFin | ECloseArrives | EServerLost | EClientLost.

Definition set_srv (t : server_task) (u : upload) : upload :=
  mkUpload (s_conn u) (c_conn u) (written u) (fin u) (arrived u) (fin_arrived u) t (read u) (cli u).
Definition set_cli (t : client_task) (u : upload) : upload :=
  mkUpload (s_conn u) (c_conn u) (written u) (fin u) (arrived u) (fin_arrived u) (srv u) (read u) t.
Definition set_conns (s c : option why) (u : upload) : upload :=
  mkUpload s c (written u) (fin u) (arrived u) (fin_arrived u) (srv u) (read u) (cli u).
Definition or_else (o : option why) (w : why) : option why := match o with Some x => Some x | None => Some w end.

Section Upload.
(** [window]: what quinn lets a stream hold that the peer has not read (its
    receive window, or the sender's buffer). *)
Variables (payload : bytes) (limit : Z) (window : nat).

(** What [read_to_end(limit)] may answer. *)
Definition may_answer (a : result read_error bytes) (u : upload) : bool :=
  match a with
  | Ok d => fin_arrived u && bool_decide (d = arrived u) && (Z.of_nat (length d) <=? limit)
  | Err TooLong => limit <? Z.of_nat (length (arrived u))
  | Err ReadLost => is_some (s_conn u)
  end.

(** The server's task. *)
Definition serve_exec (e : event) (u : upload) : option upload :=
  match e, srv u with
  | EAccept some, Accepting => Some (set_srv (if some then Incoming else Unserved) u)
  | EIncoming ok, Incoming => Some (set_srv (if ok then AcceptingUni else Gone) u)
  | EAcceptUni, AcceptingUni =>
      if negb (bool_decide (arrived u = [])) || fin_arrived u then Some (set_srv ReadingToEnd u)
      else match s_conn u with Some _ => Some (set_srv Gone u) | None => None end
  | EReadToEnd a, ReadingToEnd =>
      if may_answer a u
      then Some (mkUpload (or_else (s_conn u) LocallyClosed) (c_conn u) (written u) (fin u) (arrived u)
                   (fin_arrived u) Gone (Some a) (cli u))
      else None
  | _, _ => None
  end.

(** The handshake the client waits for starts once the server has taken the
    connection ([incoming.await]). *)
Definition served (t : server_task) : bool := match t with Accepting | Unserved => false | _ => true end.

(** How much of the stream the client may have written by now: [read_to_end]
    takes what arrives, and frees its room. *)
Definition credit (u : upload) : nat :=
  window + match srv u with
           | ReadingToEnd => length (arrived u)
           | Gone => if is_some (read u) then length (arrived u) else 0
           | _ => 0
           end.

(** The client's. *)
Definition after_write (todo : bytes) : client_task := match todo with [] => Finishing | _ => Writing todo end.
Definition client_exec (e : event) (u : upload) : option upload :=
  match e, cli u with
  | EConnect ok, Connecting =>
      if ok && negb (served (srv u)) then None
      else Some (set_cli (if ok then Opening else Failed HandshakeFailed) u)
  | EOpenUni ok, Opening => Some (set_cli (if ok then after_write payload else Failed OpenFailed) u)
  | EWrite n, Writing todo =>
      let k := (n `min` (credit u - length (written u)))%nat in
      match c_conn u, take k todo with
      | None, (_ :: _) as b =>
          Some (mkUpload (s_conn u) (c_conn u) (written u ++ b) (fin u) (arrived u) (fin_arrived u) (srv u)
                  (read u) (after_write (drop k todo)))
      | _, _ => None
      end
  | EWriteFails, Writing _ => Some (set_cli (Failed WriteFailed) u)
  | EFinish ok, Finishing =>
      Some (if ok
            then mkUpload (s_conn u) (c_conn u) (written u) true (arrived u) (fin_arrived u) (srv u) (read u) AwaitingClose
            else set_cli (Failed FinishFailed) u)
  | EClosed, AwaitingClose => w ← c_conn u; Some (set_cli (Done w) u)
  | _, _ => None
  end.

(** QUIC between them. *)
Definition quic_exec (e : event) (u : upload) : option upload :=
  match e with
  | ECarry n =>
      match s_conn u, take n (drop (length (arrived u)) (written u)) with
      | None, (_ :: _) as b =>
          Some (mkUpload (s_conn u) (c_conn u) (written u) (fin u) (arrived u ++ b) (fin_arrived u) (srv u) (read u) (cli u))
      | _, _ => None
      end
  | ECarryFin =>
      if fin u && negb (fin_arrived u) && is_none (s_conn u) && (length (arrived u) =? length (written u))%nat
      then Some (mkUpload (s_conn u) (c_conn u) (written u) (fin u) (arrived u) true (srv u) (read u) (cli u))
      else None
  | ECloseArrives =>
      match s_conn u, c_conn u with
      | Some LocallyClosed, None => Some (set_conns (s_conn u) (Some ApplicationClosed) u)
      | _, _ => None
      end
  | EServerLost => if is_none (s_conn u) then Some (set_conns (Some ConnectionLost) (c_conn u) u) else None
  | EClientLost => if is_none (c_conn u) then Some (set_conns (s_conn u) (Some ConnectionLost) u) else None
  | _ => None
  end.

Definition exec (u : upload) (e : event) : option upload :=
  match e with
  | EAccept _ | EIncoming _ | EAcceptUni | EReadToEnd _ => serve_exec e u
  | EConnect _ | EOpenUni _ | EWrite _ | EWriteFails | EFinish _ | EClosed => client_exec e u
  | _ => quic_exec e u
  end.

Fixpoint run (es : list event) (u : upload) : option upload :=
  match es with [] => Some u | e :: es => u ← exec u e; run es u end.
End Upload.

(** [payload_len + 4096] *)
Definition read_limit (pr : profile) (payload_len : Z) : option Z := uadd pr 64 payload_len 4096.

(** ** What a program computes from a run. *)
Record Sample := mkSample { fct : Z; goodput : spec_float; lost_packets : Z; sent_packets : Z }.

Definition rate (payload_len fct : Z) : spec_float := fdiv binary64 (of_int binary64 payload_len) (as_secs_f64 fct).

(** [run_once]: the wait for the close looks at its time only. *)
Definition outcome (payload_len fct lost sent : Z) (u : upload) : option (result upload_error Sample) :=
  match cli u with
  | Done _ => Some (Ok (mkSample fct (rate payload_len fct) lost sent))
  | Failed e => Some (Err e)
  | _ => None
  end.

Definition loss_pct (s : Sample) : spec_float :=
  if 0 <? sent_packets s
  then fdiv binary64 (fmul binary64 (of_int binary64 100) (of_int binary64 (lost_packets s))) (of_int binary64 (sent_packets s))
  else S754_zero false.

(** [mb * 1024 * 1024] *)
Definition payload_of_mb (pr : profile) (mb : Z) : option Z := k ← umul pr 64 mb 1024; umul pr 64 k 1024.
(** [args().nth(1).and_then(parse).unwrap_or(d)] *)
Definition arg_or (d : Z) (arg : option str) : Z := default d (arg ≫= parse_uint 64).

(** *** [bench.rs]: three arms over one emulated path. *)
Definition bench_path : OracleParams :=
  mkOracleParams 3 (from_millis 5) (lit binary64 2 100) (from_millis 1) 1200.

Record row := mkRow { arm : string; secs : spec_float; mb_per_s : spec_float; retransmits : Z * Z; pct : spec_float; ratio : option spec_float }.

Definition mega (x : spec_float) : spec_float := fdiv binary64 x (of_int binary64 1000000).
Definition bench_row (baseline : option spec_float) (cc : Congestion) (s : Sample) : row :=
  mkRow (Client.label cc) (as_secs_f64 (fct s)) (mega (goodput s)) (lost_packets s, sent_packets s) (loss_pct s)
    (fdiv binary64 (goodput s) <$> baseline).

(** *** [multipath.rs]: two paths, alone and striped. *)
Definition prof (slot_us hops delay_ms : Z) : OracleParams :=
  mkOracleParams hops (from_millis delay_ms) (lit binary64 1 100) (slot_us * 1000) 1200.
Definition fast : EmulatedMixnet := with_queue (prof 500 2 3) 128.
Definition slow : EmulatedMixnet := with_queue (prof 2000 5 15) 128.

(** *** [nym_bench.rs]: one arm over the live network. *)
Definition nym_arm (env : environment) : Congestion :=
  let v := env (bs "QUICMIX_CC") in
  if bool_decide (v = Some (bs "stock")) then Stock
  else if bool_decide (v = Some (bs "timers")) then Timers else Quicmix.
Definition nym_payload (pr : profile) (env : environment) : option Z :=
  umul pr 64 (arg_or 16 (env (bs "QUICMIX_KB"))) 1024.
(** Goodput in KB/s and the share of packets lost. *)
Definition nym_figure (s : Sample) : spec_float * spec_float :=
  (fdiv binary64 (goodput s) (of_int binary64 1024), loss_pct s).

(** ** What always holds of an upload. *)
Section Invariant.
Variables (payload : bytes) (limit : Z) (window : nat).
Hypothesis room : Z.of_nat (length payload) ≤ limit.

(** What the client has still to write. *)
Definition unwritten (c : client_task) : option bytes :=
  match c with
  | Connecting | Opening => Some payload
  | Writing todo => Some todo
  | Finishing | AwaitingClose | Done _ => Some []
  | Failed _ => None
  end.
Definition past_finish (c : client_task) : bool := match c with AwaitingClose | Done _ => true | _ => false end.

Record invariant (u : upload) : Prop := {
  i_written : written u `prefix_of` payload;
  i_todo : ∀ t, unwritten (cli u) = Some t → written u ++ t = payload;
  i_writing : ∀ t, cli u = Writing t → t ≠ [];
  i_arrived : arrived u `prefix_of` written u;
  i_fin : fin u = past_finish (cli u);
  i_fin_arrived : fin_arrived u = true → fin u = true ∧ arrived u = written u;
  i_read : ∀ a, read u = Some a → srv u = Gone ∧ s_conn u ≠ None ∧
    (a = Ok payload ∧ fin u = true ∨ a = Err ReadLost ∧ s_conn u = Some ConnectionLost);
  i_local : s_conn u = Some LocallyClosed → read u = Some (Ok payload);
  i_server : s_conn u ≠ Some ApplicationClosed;
  i_closed : c_conn u = Some ApplicationClosed → s_conn u = Some LocallyClosed;
  i_client : c_conn u ≠ Some LocallyClosed;
  i_done : ∀ w, cli u = Done w → c_conn u = Some w;
}.

Lemma past_finish_written u : invariant u → fin u = true → written u = payload.
Proof.
  intros I Hf. pose proof (i_fin u I) as E. rewrite Hf in E. pose proof (i_todo u I []) as Ht.
  rewrite app_nil_r in Ht. apply Ht. by destruct (cli u).
Qed.

Lemma start_invariant : invariant start.
Proof. split; cbn; try done; [apply prefix_nil|congruence]. Qed.

Lemma unread u : invariant u → srv u ≠ Gone → read u = None.
Proof. intros I Hs. destruct (read u) as [a|] eqn:E; [|done]. by destruct (i_read u I a E). Qed.

Lemma set_srv_invariant t u : srv u ≠ Gone → invariant u → invariant (set_srv t u).
Proof. intros Hs I. pose proof (unread u I Hs). destruct I. split; cbn; try done. congruence. Qed.

Lemma answer_invariant a u :
  srv u = ReadingToEnd → may_answer limit a u = true → invariant u →
  invariant (mkUpload (or_else (s_conn u) LocallyClosed) (c_conn u) (written u) (fin u) (arrived u)
               (fin_arrived u) Gone (Some a) (cli u)).
Proof.
  intros Hs Ea I. assert (read u = None) as Hr by (apply unread; [done|by rewrite Hs]). pose proof I as [].
  assert (s_conn u = None ∨ s_conn u = Some ConnectionLost) as Hc.
  { destruct (s_conn u) as [[]|]; [done|specialize (i_local0 eq_refl); congruence|by right|by left]. }
  assert (a = Ok payload ∧ fin u = true ∨ a = Err ReadLost ∧ s_conn u = Some ConnectionLost) as Hp.
  { destruct a as [d|[]]; cbn in Ea.
    - left. apply andb_true_iff in Ea as [[Hf Hd%bool_decide_eq_true]%andb_true_iff _].
      destruct (i_fin_arrived0 Hf) as [Hfin Ha]. by rewrite Hd, Ha, past_finish_written.
    - apply Z.ltb_lt in Ea. apply prefix_length in i_arrived0, i_written0. lia.
    - right. destruct Hc as [Hc|Hc]; rewrite Hc in Ea; done. }
  split; cbn; try done.
  - intros ? [= <-]. split_and!; [done|by destruct (s_conn u)|].
    destruct Hp as [?|[-> Hsc]]; [by left|right]. by rewrite Hsc.
  - destruct Hp as [[-> _]|[-> Hsc]]; [done|]. by rewrite Hsc.
  - destruct Hc as [->| ->]; cbn; congruence.
  - intros Ha. specialize (i_closed0 Ha). destruct Hc; congruence.
Qed.

Lemma serve_invariant e u u' : serve_exec limit e u = Some u' → invariant u → invariant u'.
Proof.
  intros H I. unfold serve_exec in H.
  destruct e as [[]|[]| |a| | | | | | | | | | |], (srv u) eqn:Es; try done; cbn in H.
  1-5: repeat case_match; simplify_eq; (apply set_srv_invariant; [by rewrite Es|done]).
  destruct (may_answer limit a u) eqn:Ea; [|done]. injection H as <-. by apply answer_invariant.
Qed.

Lemma after_write_todo t : unwritten (after_write t) = Some t.
Proof. by destruct t. Qed.
Lemma after_write_past t : past_finish (after_write t) = false.
Proof. by destruct t. Qed.
Lemma after_write_writing t x : after_write t = Writing x → x ≠ [].
Proof. destruct t; [done|]. by intros [= <-]. Qed.
Lemma after_write_done t w : after_write t ≠ Done w.
Proof. by destruct t. Qed.

(** A client's step that leaves the connection alone. *)
Lemma client_step_invariant w f t u :
  w `prefix_of` payload → written u `prefix_of` w → fin u = false → f = past_finish t →
  (∀ x, unwritten t = Some x → w ++ x = payload) → (∀ x, t = Writing x → x ≠ []) →
  (∀ x, t = Done x → c_conn u = Some x) → invariant u →
  invariant (mkUpload (s_conn u) (c_conn u) w f (arrived u) (fin_arrived u) (srv u) (read u) t).
Proof.
  intros Hw Hu Hf -> Ht Hwr Hd []. split; cbn; try done; [by etrans| |].
  - intros Ha. destruct (i_fin_arrived0 Ha). congruence.
  - intros a Ha. destruct (i_read0 a Ha) as (? & ? & [[_ ?]|?]); [congruence|auto].
Qed.

Lemma client_exec_invariant e u u' : client_exec payload window e u = Some u' → invariant u → invariant u'.
Proof.
  intros H I. pose proof I as []. unfold client_exec in H.
  destruct e as [| | | |ok|ok|n| |ok| | | | | |], (cli u) eqn:Ec; try done.
  - destruct (ok && negb (served (srv u))); [done|]. injection H as <-.
    apply client_step_invariant; try done; by destruct ok.
  - injection H as <-. specialize (i_todo0 _ eq_refl). destruct ok; apply client_step_invariant; try done.
    + by rewrite after_write_past.
    + intros x. rewrite after_write_todo. by intros [= <-].
    + apply after_write_writing.
    + by intros x ?%after_write_done.
  - cbv zeta in H. set (k := (n `min` (credit window u - length (written u)))%nat) in H.
    destruct (c_conn u) eqn:Ecc; [done|]. destruct (take k todo) as [|b0 b] eqn:Eb; [done|].
    injection H as <-. rewrite <- Ecc, <- Eb. specialize (i_todo0 _ eq_refl).
    assert ((written u ++ take k todo) ++ drop k todo = payload) as Hp by (by rewrite <- app_assoc, take_drop).
    apply client_step_invariant; try done.
    + by eexists.
    + by eexists.
    + by rewrite after_write_past.
    + intros x. rewrite after_write_todo. by intros [= <-].
    + apply after_write_writing.
    + by intros x ?%after_write_done.
  - injection H as <-. by apply client_step_invariant.
  - specialize (i_todo0 _ eq_refl). injection H as <-. destruct ok; apply client_step_invariant; try done.
    by intros x [= <-].
  - destruct (c_conn u) as [w|] eqn:Ecc; [|done]. injection H as <-. specialize (i_todo0 _ eq_refl).
    destruct I. split; cbn; rewrite ?Ec in *; try done; congruence.
Qed.

Lemma quic_invariant e u u' : quic_exec e u = Some u' → invariant u → invariant u'.
Proof.
  intros H I. pose proof I as []. unfold quic_exec in H.
  destruct e as [| | | | | | | | | |n| | | |]; try done.
  - destruct (s_conn u) eqn:Es; [done|]. destruct (take n _) as [|b0 b] eqn:Eb; [done|]. injection H as <-.
    assert (arrived u ++ b0 :: b `prefix_of` written u) as Hp.
    { rewrite <- Eb. destruct i_arrived0 as [k Hk]. rewrite Hk at 1.
      rewrite drop_app_length, Hk. apply prefix_app, prefix_take. }
    split; cbn; rewrite ?Es; try done. intros Ha. destruct (i_fin_arrived0 Ha) as [? E].
    rewrite E, drop_all, take_nil in Eb. done.
  - destruct (fin u) eqn:Ef, (fin_arrived u) eqn:Ea, (s_conn u) eqn:Es; try done. cbn in H.
    destruct (length (arrived u) =? length (written u))%nat eqn:El; [|done]. apply Nat.eqb_eq in El. injection H as <-.
    split; cbn; rewrite ?Ef, ?Es; try done. intros _. split; [done|]. destruct i_arrived0 as [k Hk]. rewrite Hk in *.
    rewrite length_app in El. assert (k = []) as -> by (apply length_zero_iff_nil; lia). by rewrite app_nil_r.
  - destruct (s_conn u) as [[]|] eqn:Es, (c_conn u) eqn:Ec; try done. injection H as <-.
    split; cbn; rewrite ?Es, ?Ec; try done. intros w Hw. specialize (i_done0 w Hw). congruence.
  - destruct (s_conn u) eqn:Es; [done|]. injection H as <-. split; cbn; rewrite ?Es; try done.
    + intros a Ha. by destruct (i_read0 a Ha) as (_ & ? & _).
    + intros Hc. by specialize (i_closed0 Hc).
  - destruct (c_conn u) eqn:Ec; [done|]. injection H as <-. split; cbn; try done.
    intros w Hw. specialize (i_done0 w Hw). congruence.
Qed.

Lemma exec_invariant u e u' : exec payload limit window u e = Some u' → invariant u → invariant u'.
Proof. destruct e; first [apply serve_invariant|apply client_exec_invariant|apply quic_invariant]. Qed.

Lemma run_invariant es u u' : run payload limit window es u = Some u' → invariant u → invariant u'.
Proof.
  revert u. induction es as [|e es IH]; intros u H I; cbn in H; [by simplify_eq|].
  apply bind_Some in H as (u1 & H1 & H). eauto using exec_invariant.
Qed.
End Invariant.

(** ** An upload is finite. *)
Definition steps_of_server (t : server_task) : nat :=
  match t with Accepting => 4 | Incoming => 3 | AcceptingUni => 2 | ReadingToEnd => 1 | Gone | Unserved => 0 end.
Definition steps_of_client (t : client_task) : nat :=
  match t with
  | Connecting => 5 | Opening => 4 | Writing _ => 3 | Finishing => 2 | AwaitingClose => 1 | Done _ | Failed _ => 0
  end.
Definition still (b : bool) : nat := if b then 1 else 0.

Definition work (payload : bytes) (u : upload) : nat :=
  steps_of_server (srv u) + steps_of_client (cli u) + 2 * (length payload - length (written u)) +
  (length (written u) - length (arrived u)) + still (negb (fin_arrived u)) +
  still (is_none (s_conn u)) + still (is_none (c_conn u)).

Lemma after_write_steps t : (steps_of_client (after_write t) ≤ 3)%nat.
Proof. destruct t; cbn; lia. Qed.

Lemma exec_work payload limit window u e u' :
  Z.of_nat (length payload) ≤ limit →
  exec payload limit window u e = Some u' → invariant payload u → (work payload u' < work payload u)%nat.
Proof.
  intros Hr H I. pose proof (exec_invariant payload limit window Hr _ _ _ H I) as I'.
  pose proof (prefix_length _ _ (i_written _ _ I')). pose proof (prefix_length _ _ (i_arrived _ _ I')).
  pose proof (after_write_steps payload). unfold work.
  destruct e; cbn in H; unfold serve_exec, client_exec, quic_exec in H.
  all: repeat case_match; simplify_eq; cbn in *; rewrite ?length_app in *; cbn in *; try lia.
  all: try match goal with |- context [after_write (drop ?n ?t)] => pose proof (after_write_steps (drop n t)); lia end.
  1-2: destruct (s_conn u) eqn:?; simplify_eq; cbn; lia.
  - apply bind_Some in H as (w & _ & [= <-]). cbn. lia.
  - destruct (fin_arrived u); [by rewrite andb_false_r in *|cbn; lia].
Qed.

Lemma run_work payload limit window es u u' :
  Z.of_nat (length payload) ≤ limit →
  run payload limit window es u = Some u' → invariant payload u → (length es + work payload u' ≤ work payload u)%nat.
Proof.
  intros Hr. revert u. induction es as [|e es IH]; intros u H I; cbn in H; [by simplify_eq|].
  apply bind_Some in H as (u1 & H1 & H). pose proof (exec_work _ _ _ _ _ _ Hr H1 I).
  specialize (IH _ H (exec_invariant _ _ _ Hr _ _ _ H1 I)). cbn. lia.
Qed.

(** ** Nothing fails. *)
Definition smooth (e : event) : bool :=
  match e with
  | EAccept ok | EIncoming ok | EConnect ok | EOpenUni ok | EFinish ok => ok
  | EReadToEnd (Err _) | EWriteFails | EServerLost | EClientLost => false
  | _ => true
  end.

Record unharmed (u : upload) : Prop := {
  h_server : s_conn u ≠ Some ConnectionLost;
  h_client : c_conn u ≠ Some ConnectionLost;
  h_cli : ∀ e, cli u ≠ Failed e;
  h_gone : srv u = Gone → read u ≠ None;
  h_served : srv u ≠ Unserved;
}.

Lemma after_write_failed t e : after_write t ≠ Failed e.
Proof. by destruct t. Qed.

(** The server meets a closed connection only when it was lost. *)
Lemma accept_uni_lost payload u w : invariant payload u → srv u ≠ Gone → s_conn u = Some w → w = ConnectionLost.
Proof.
  intros I Hs Hw. pose proof (unread _ _ I Hs). destruct I, w; [congruence| |done].
  specialize (i_local0 Hw). congruence.
Qed.

Lemma smooth_unharmed payload limit window u e u' :
  exec payload limit window u e = Some u' → smooth e = true → invariant payload u → unharmed u → unharmed u'.
Proof.
  intros H Hs I []. destruct e; cbn in H; unfold serve_exec, client_exec, quic_exec in H.
  all: repeat case_match; simplify_eq; split; cbn; auto using after_write_failed.
  all: try by apply bind_Some in H as (w & _ & [= <-]).
  - congruence.
  - rewrite (accept_uni_lost payload u w) in h_server0; [done|done|congruence|done].
  - destruct (s_conn u) as [[]|] eqn:E; cbn; congruence.
Qed.

Lemma smooth_run payload limit window es u u' :
  Z.of_nat (length payload) ≤ limit → run payload limit window es u = Some u' → Forall (λ e, smooth e = true) es →
  invariant payload u → unharmed u → unharmed u'.
Proof.
  intros Hr. revert u. induction es as [|e es IH]; intros u H Hs I Hu; cbn in H; [by simplify_eq|].
  apply bind_Some in H as (u1 & H1 & H). apply Forall_cons in Hs as [? ?].
  eauto using exec_invariant, smooth_unharmed.
Qed.

(** A run in which nothing fails and nothing is left to do has ended well. *)
Section Quiet.
Variables (payload : bytes) (limit : Z) (window : nat) (u : upload).
Hypothesis (wide : (0 < window)%nat).
Hypotheses (room : Z.of_nat (length payload) ≤ limit) (inv : invariant payload u) (ok : unharmed u).
Hypothesis quiet : ∀ e, smooth e = true → exec payload limit window u e = None.

(** While the client writes, its stream has room. *)
Lemma quiet_room t : cli u = Writing t → (length (written u) < credit window u)%nat.
Proof.
  intros Hc. pose proof (quiet (EAccept true) eq_refl) as S1. pose proof (quiet (EIncoming true) eq_refl) as S2.
  pose proof (quiet EAcceptUni eq_refl) as S3. pose proof (quiet (ECarry (length (written u))) eq_refl) as Q.
  cbn in S1, S2, S3, Q. destruct inv, ok. rewrite Hc in *. cbn in i_fin0.
  assert (read u = None) as Hr.
  { destruct (read u) as [a|] eqn:E; [|done]. destruct (i_read0 a eq_refl) as (_ & _ & [[_ ?]|[_ ?]]); congruence. }
  assert (s_conn u = None) as Hs.
  { destruct (s_conn u) as [[]|]; [done|specialize (i_local0 eq_refl); congruence|done|done]. }
  rewrite Hs in *. destruct i_arrived0 as [k Hk]. rewrite Hk, drop_app_length in Q.
  rewrite take_ge in Q by (rewrite length_app; lia). destruct k; [|done]. rewrite app_nil_r in Hk. unfold credit.
  destruct (srv u); try done.
  - rewrite Hk. destruct (arrived u); cbn in *; [lia|done].
  - rewrite Hk. lia.
  - by destruct h_gone0.
Qed.

Lemma quiet_client : c_conn u = None → cli u = AwaitingClose.
Proof.
  intros Hc. pose proof (quiet (EAccept true) eq_refl) as S1.
  pose proof (quiet (EConnect true) eq_refl) as Q1. pose proof (quiet (EOpenUni true) eq_refl) as Q2.
  pose proof (quiet (EWrite (length payload)) eq_refl) as Q3. pose proof (quiet (EFinish true) eq_refl) as Q4.
  cbn in S1, Q1, Q2, Q3, Q4. pose proof quiet_room as Hroom. pose proof inv as []. pose proof ok as [].
  destruct (cli u) as [| |t| | |w|e] eqn:E; try done.
  - destruct (srv u); done.
  - rewrite Hc in Q3. specialize (i_todo0 t eq_refl). specialize (i_writing0 t eq_refl). specialize (Hroom t eq_refl).
    apply (f_equal length) in i_todo0. rewrite length_app in i_todo0.
    destruct (length payload `min` (credit window u - length (written u)))%nat as [|k] eqn:Ek; [|by destruct t].
    destruct t; [done|cbn in *; lia].
  - specialize (i_done0 w eq_refl). congruence.
  - by destruct (h_cli0 e).
Qed.

Lemma quiet_arrived : s_conn u = None → cli u = AwaitingClose → fin_arrived u = true ∧ arrived u = payload.
Proof.
  intros Hs Hc. pose proof (quiet (ECarry (length (written u))) eq_refl) as Q1. pose proof (quiet ECarryFin eq_refl) as Q2.
  cbn in Q1, Q2. destruct inv. rewrite Hc in *. specialize (i_todo0 _ eq_refl). rewrite app_nil_r in i_todo0.
  rewrite Hs, i_fin0 in *. cbn in Q2. destruct i_arrived0 as [k Hk]. rewrite Hk, drop_app_length in Q1.
  rewrite take_ge in Q1 by (rewrite length_app; lia). destruct k; [|done]. rewrite app_nil_r in Hk.
  rewrite Hk, Nat.eqb_refl in Q2. destruct (fin_arrived u); [|done]. split; congruence.
Qed.

Lemma quiet_upload : cli u = Done ApplicationClosed.
Proof.
  pose proof (quiet ECloseArrives eq_refl) as Q1. pose proof (quiet EClosed eq_refl) as Q2. cbn in Q1, Q2.
  pose proof inv as []. pose proof ok as []. destruct (c_conn u) as [[]|] eqn:Ec; try done.
  - specialize (i_closed0 eq_refl). destruct (i_read0 _ (i_local0 i_closed0)) as (_ & _ & [[_ Hf]|[? _]]); [|done].
    rewrite i_fin0 in Hf. destruct (cli u) as [| | | | |w|] eqn:E; try done. by specialize (i_done0 w eq_refl) as [= <-].
  - pose proof (quiet_client Ec) as Hcli. destruct (s_conn u) as [[]|] eqn:Es; try done.
    destruct (quiet_arrived Es Hcli) as [Hfa Ha].
    pose proof (quiet (EAccept true) eq_refl) as S1. pose proof (quiet (EIncoming true) eq_refl) as S2.
    pose proof (quiet EAcceptUni eq_refl) as S3. pose proof (quiet (EReadToEnd (Ok payload)) eq_refl) as S4.
    cbn in S1, S2, S3, S4. rewrite Hfa, Ha, bool_decide_true, orb_true_r in * by done.
    exfalso. destruct (srv u) eqn:Esrv; try done.
    + cbn in S4. by rewrite (proj2 (Z.leb_le _ _) room) in S4.
    + destruct (read u) as [a|] eqn:Er; [|by apply h_gone0]. by destruct (i_read0 a eq_refl) as (_ & ? & _).
Qed.
End Quiet.

(** ** An upload whose connection is lost once the last byte is written. *)
Section Lost.
Variables (payload : bytes) (limit : Z) (window : nat).
Hypothesis wide : (0 < window)%nat.
#[local] Abbreviation run := (run payload limit window).

(** The client writes [todo], its server at [t] with [got] arrived of [sent]. *)
Definition midway (t : server_task) (sent got todo : bytes) : upload :=
  mkUpload None None sent false got false t None (after_write todo).
(** The end of it. *)
Definition lost_end (t : server_task) (sent got : bytes) : upload :=
  mkUpload None (Some ConnectionLost) sent true got false t None (Done ConnectionLost).

Lemma last_write t sent got todo :
  (length todo ≤ credit window (midway t sent got todo) - length sent)%nat →
  ∃ es, run es (midway t sent got todo) = Some (lost_end t (sent ++ todo) got).
Proof.
  intros Hl. exists ((match todo with [] => [] | _ => [EWrite (length todo)] end) ++ [EFinish true; EClientLost; EClosed]).
  destruct todo as [|b todo]; [by rewrite app_nil_r|]. cbn [app Uploads.run exec].
  unfold midway at 1. unfold client_exec. cbn [after_write cli c_conn]. cbv zeta.
  change (mkUpload None None sent false got false t None (Writing (b :: todo))) with (midway t sent got (b :: todo)).
  cbn [written midway]. rewrite Nat.min_l by done. rewrite firstn_all, drop_all. reflexivity.
Qed.

(** With the server reading, block after block: one is written, and arrives. *)
Lemma write_block sent todo :
  todo ≠ [] → exec payload limit window (midway ReadingToEnd sent sent todo) (EWrite window) =
    Some (midway ReadingToEnd (sent ++ take window todo) sent (drop window todo)).
Proof.
  intros Ht. destruct todo as [|b todo]; [done|].
  assert (window `min` (credit window (midway ReadingToEnd sent sent (b :: todo)) - length sent) = window)%nat as Hk
    by (unfold credit; cbn; lia).
  revert Hk. unfold midway at 2 3. cbn [exec client_exec after_write cli c_conn written]. cbv zeta.
  change (mkUpload None None sent false sent false ReadingToEnd None (Writing (b :: todo)))
    with (midway ReadingToEnd sent sent (b :: todo)).
  intros ->. destruct window as [|w]; [lia|]. reflexivity.
Qed.

Lemma carry_block sent c todo n :
  c ≠ [] → (length c ≤ n)%nat → exec payload limit window (midway ReadingToEnd (sent ++ c) sent todo) (ECarry n) =
    Some (midway ReadingToEnd (sent ++ c) (sent ++ c) todo).
Proof.
  intros Hc Hn. cbn [exec quic_exec midway s_conn arrived written]. rewrite drop_app_length, take_ge by done.
  by destruct c.
Qed.

Lemma blocks n sent todo :
  (length todo ≤ n)%nat → ∃ es got, run es (midway ReadingToEnd sent sent todo) = Some (lost_end ReadingToEnd (sent ++ todo) got) ∧
    (todo ≠ [] → (length got < length (sent ++ todo))%nat).
Proof.
  revert sent todo. induction n as [|n IH]; intros sent todo Hn;
    destruct (decide (length todo ≤ window)%nat) as [Hw|Hw]; try lia.
  1, 2: destruct (last_write ReadingToEnd sent sent todo) as [es Hes]; [unfold credit; cbn; lia|]; exists es, sent; split; [done|];
    intros Ht; rewrite length_app; destruct todo; [done|cbn; lia].
  destruct (IH (sent ++ take window todo) (drop window todo)) as (es & got & Hes & Hg); [rewrite length_drop; lia|].
  rewrite <- app_assoc, take_drop in Hes, Hg.
  assert (drop window todo ≠ []) as Hne by (intros E; apply (f_equal length) in E; rewrite length_drop in E; cbn in E; lia).
  exists (EWrite window :: ECarry window :: es), got. split; [|intros _; by apply Hg].
  cbn [Uploads.run]. rewrite write_block by (destruct todo; [cbn in Hw; lia|done]). cbn [mbind option_bind].
  rewrite carry_block; [exact Hes| |rewrite length_take; lia].
  intros E. apply (f_equal length) in E. rewrite length_take in E. cbn in E. lia.
Qed.

Lemma lost_upload :
  ∃ es t got, run es start = Some (lost_end t payload got) ∧
    ((length payload ≤ window)%nat → got = []) ∧ (payload ≠ [] → (length got < length payload)%nat).
Proof.
  destruct (decide (length payload ≤ window)%nat) as [Hw|Hw].
  - destruct (last_write Incoming [] [] payload) as [es Hes]; [unfold credit; cbn; lia|].
    exists ([EAccept true; EConnect true; EOpenUni true] ++ es), Incoming, []. split; [exact Hes|].
    split; [done|]. intros Hp. destruct payload; [done|cbn; lia].
  - destruct payload as [|b p] eqn:Ep; [cbn in Hw; lia|].
    destruct (blocks (length p) [b] p (le_n _)) as (es & got & Hes & Hg).
    exists ([EAccept true; EConnect true; EOpenUni true; EIncoming true; EWrite 1; ECarry 1; EAcceptUni] ++ es), ReadingToEnd, got.
    split; [|split; [lia|]].
    + rewrite Ep in Hes. destruct window as [|w]; [lia|]. exact Hes.
    + intros _. apply Hg. destruct p; [cbn in Hw; lia|done].
Qed.
End Lost.

Lemma read_limit_room pr (payload : bytes) limit :
  Z.of_nat (length payload) < 2 ^ 63 → read_limit pr (Z.of_nat (length payload)) = Some limit →
  Z.of_nat (length payload) ≤ limit.
Proof.
  unfold read_limit, uadd. intros Hp. rewrite uint_in by (unfold in_u; lia). intros [= <-]. lia.
Qed.

(** Whatever fails. *)
Lemma upload_outcome (payload : bytes) (limit : Z) (window : nat) (es : list event) (u : upload) :
  Z.of_nat (length payload) ≤ limit → run payload limit window es start = Some u →
  (length es ≤ 2 * length payload + 12)%nat ∧
  (∀ d, read u = Some (Ok d) → d = payload) ∧ read u ≠ Some (Err TooLong) ∧
  (cli u = Done ApplicationClosed → read u = Some (Ok payload)).
Proof.
  intros Hr H. pose proof (run_invariant _ _ _ Hr _ _ _ H (start_invariant payload)) as I. split_and!.
  - pose proof (run_work _ _ _ _ _ _ Hr H (start_invariant payload)) as Hwk. unfold work at 2 in Hwk. cbn in Hwk. lia.
  - intros d Hread. destruct (i_read _ _ I _ Hread) as (_ & _ & [[[= ->] _]|[? _]]); done.
  - intros Hread. destruct (i_read _ _ I _ Hread) as (_ & _ & [[? _]|[? _]]); done.
  - intros Hd. apply (i_local _ _ I), (i_closed _ _ I), (i_done _ _ I), Hd.
Qed.

(** What a benchmark's figure says.  An upload is over in a bounded number
    of steps whatever fails.  What the server reads to the end is the payload,
    whose length is always within its limit, and when the client's wait ended
    because the server closed, the server has read all of it.  When nothing fails
    that is how every upload ends, and the goodput reported is the payload's.
    But the wait does not look at why the connection closed: an upload whose
    connection is lost after the last write reports the same goodput, with its
    last bytes, or all of a payload within the window, not delivered. *)
Theorem benchmark_goodput_is_of_the_upload (pr : profile) (payload : bytes) (limit : Z) (window : nat) (fct lost sent : Z)
    (es : list event) (u : upload) :
  Z.of_nat (length payload) < 2 ^ 63 → read_limit pr (Z.of_nat (length payload)) = Some limit → (0 < window)%nat →
  run payload limit window es start = Some u →
  let n := Z.of_nat (length payload) in
  let reported := Some (Ok (mkSample fct (rate n fct) lost sent)) in
  (length es ≤ 2 * length payload + 12)%nat ∧
  (∀ d, read u = Some (Ok d) → d = payload) ∧ read u ≠ Some (Err TooLong) ∧
  (cli u = Done ApplicationClosed → read u = Some (Ok payload)) ∧
  (Forall (λ e, smooth e = true) es → (∀ e, smooth e = true → exec payload limit window u e = None) →
     outcome n fct lost sent u = reported ∧ read u = Some (Ok payload)) ∧
  (∃ es' u', run payload limit window es' start = Some u' ∧ outcome n fct lost sent u' = reported ∧ read u' = None ∧
     ((length payload ≤ window)%nat → arrived u' = [])).
Proof.
  intros Hp Hl Hw H n reported. pose proof (read_limit_room _ _ _ Hp Hl) as Hr.
  pose proof (run_invariant _ _ _ Hr _ _ _ H (start_invariant payload)) as I.
  destruct (upload_outcome payload limit window es u Hr H) as (H1 & H2 & H3 & Hd).
  split_and!; [exact H1|exact H2|exact H3|exact Hd| |].
  - intros Hs Hq. assert (unharmed u) as Hu by (eapply smooth_run; [done|done|done|by apply start_invariant|by split]).
    pose proof (quiet_upload _ _ _ _ Hw Hr I Hu Hq) as Hc. split; [|auto]. unfold outcome. by rewrite Hc.
  - destruct (lost_upload payload limit window Hw) as (es' & t & got & Hes & Hg & _).
    exists es', (lost_end t payload got). by split_and!.
Qed.

Definition demo_payload : bytes := bs "xyz".
Definition demo_upload : list event :=
  [EAccept true; EConnect true; EOpenUni true; EWrite 2; EIncoming true; ECarry 1; EAcceptUni; EWrite 9; EFinish true;
   ECarry 9; ECarryFin; EReadToEnd (Ok (bs "xyz")); ECloseArrives; EClosed].
Definition demo_end : upload :=
  mkUpload (Some LocallyClosed) (Some ApplicationClosed) demo_payload true demo_payload true Gone
    (Some (Ok demo_payload)) (Done ApplicationClosed).

Lemma benchmark_goodput_is_of_the_upload_witness :
  run demo_payload 4099 2 demo_upload start = Some demo_end ∧
  outcome 3 (from_millis 2) 0 4 demo_end = Some (Ok (mkSample (from_millis 2) (rate 3 (from_millis 2)) 0 4)) ∧
  read demo_end = Some (Ok demo_payload).
Proof.
  split; [by vm_compute|].
  destruct (benchmark_goodput_is_of_the_upload Release demo_payload 4099 2 (from_millis 2) 0 4 demo_upload demo_end)
    as (_ & _ & _ & _ & H & _).
  - by vm_compute.
  - by vm_compute.
  - lia.
  - by vm_compute.
  - apply H; [by repeat constructor|].
    intros [[]|[]| |[d|[]]|[]|[]|n| |[]| |n| | | |] Hs; try done; cbn; by destruct n.
Defined.
