(* ===== verification/Fetch.v ===== *)
(** * The self-tests: one HTTP fetch through a node's own proxy
    ([crates/quicmix-eval/examples/selftest.rs] and [proxy.rs],
    [substrates/quicmix-nym/src/bin/nym_e2e.rs]).

    The application's side of a CONNECT, byte by byte, against the tunnel that
    [TwoNodes] carries.  Serialising the proxy's response is [hyper]'s: its bytes
    are an argument. *)

From S2P Require Import Prelude RustFloat RustStr RustText Core Oracle Client Net Selection ByteStream Gateway Ingress TwoNodes WarmPool.
Open Scope Z_scope.

Definition ends_with (p l : str) : bool := bool_decide (drop (length l - length p) l = p) && (length p <=? length l)%nat.

(** [read_until_blank]: one byte at a time; an error ends the head. *)
Fixpoint head_loop (fuel limit : nat) (out : bytes) (r : reader) : poll (bytes * reader) :=
  match fuel with
  | O => Pending
  | S fuel =>
      match read_exact 1 r with
      | Pending => Pending
      | Ready (Err _, r) => Ready (out, r)
      | Ready (Ok b, r) =>
          let out := out ++ b in
          if ends_with CRLFCRLF out || (limit <? length out)%nat then Ready (out, r) else head_loop fuel limit out r
      end
  end.
Definition read_until_blank (limit : nat) (r : reader) : poll (bytes * reader) :=
  head_loop (S (length (avail r))) limit [] r.

(** [read_to_end] *)
Definition read_to_end (r : reader) : poll (result io_error bytes) :=
  match ended r with
  | None => Pending
  | Some UnexpectedEof => Ready (Ok (avail r))
  | Some e => Ready (Err e)
  end.

Definition connect_request (o : SocketAddr) : bytes :=
  bs "CONNECT " ++ show_socket_addr o ++ bs " HTTP/1.1" ++ CRLF ++ bs "Host: " ++ show_socket_addr o ++ CRLFCRLF.
Definition get_request (o : SocketAddr) : bytes :=
  bs "GET / HTTP/1.0" ++ CRLF ++ bs "Host: " ++ show_socket_addr o ++ CRLFCRLF.

(** The fetch: whether the head says 200, and what came after it.  [r], [w]: the
    connection to the proxy. *)
Definition fetch (limit : nat) (o : SocketAddr) (r : reader) (w : writer) : poll (result io_error (bool * bytes) * writer) :=
  match write_all (connect_request o) w with
  | (Err e, w) => Ready (Err e, w)
  | (Ok _, w) =>
      match read_until_blank limit r with
      | Pending => Pending
      | Ready (head, r) =>
          match write_all (get_request o) w with
          | (Err e, w) => Ready (Err e, w)
          | (Ok _, w) =>
              match read_to_end r with
              | Pending => Pending
              | Ready a => Ready ((λ resp, (contains (bs "200") (from_utf8_lossy head), resp)) <$> a, w)
              end
          end
      end
  end.

Definition SELFTEST_LIMIT : nat := Z.to_nat 8192.
Definition PROXY_LIMIT : nat := Z.to_nat 4096.

Definition body_ok (needle : str) (resp : bytes) : bool := contains needle (from_utf8_lossy resp).
(** [selftest] and [nym_e2e] fail unless both hold; [proxy]'s [fetch_once] looks at the body alone. *)
Definition round_trip_ok (needle : str) (v : bool * bytes) : bool := v.1 && body_ok needle v.2.

(** [fetch_once] of [proxy.rs]. *)
Definition fetch_once (o : SocketAddr) (r : reader) (w : writer) : poll (result io_error bool * writer) :=
  match fetch PROXY_LIMIT o r w with
  | Pending => Pending
  | Ready (a, w) => Ready ((λ v, body_ok (bs "hello via pooled quicmix proxy") v.2) <$> a, w)
  end.
(** The counts [proxy.rs] prints: fetches that succeeded, circuits rotated. *)
Definition succeeded (rs : list (result io_error bool)) : nat := length (retain (λ r, bool_decide (r = Ok true)) rs).
Definition rotations (built target : Z) : Z := usat_sub built target.
Definition demo_pool : PoolConfig := mkPoolConfig 4 (Some 3) None (from_millis 100) (drain_timeout PoolConfig_default).

Inductive test_error : Type := TestIo (e : io_error) | RoundTripFailed | FetchTimedOut.

(** The end of [selftest]'s and [nym_e2e]'s [main]; [in_time]: the fetch was
    over within [nym_e2e]'s 180 s. *)
Definition verdict (needle : str) (in_time : bool) (a : result io_error (bool * bytes)) : result test_error () :=
  if in_time
  then v ← map_err TestIo a; if round_trip_ok needle v then Ok () else Err RoundTripFailed
  else Err FetchTimedOut.

(** The origin: whatever it is asked. *)
Definition origin_response (b : str) : bytes :=
  bs "HTTP/1.0 200 OK" ++ CRLF ++ bs "Content-Length: " ++ show_uint (Z.of_nat (length b)) ++ CRLFCRLF ++ b.

Definition selftest_path : OracleParams :=
  mkOracleParams 3 (from_millis 5) (lit binary64 1 100) (from_millis 1) 1200.

(** ** The head is read, and nothing behind it. *)
Definition well_headed (limit : nat) (h : bytes) : bool :=
  ends_with CRLFCRLF h && forallb (λ n, negb (ends_with CRLFCRLF (take n h))) (seq 1 (length h - 1)) &&
  (length h <=? S limit)%nat.

Lemma head_loop_app limit h2 h1 rest e fuel :
  h2 ≠ [] → well_headed limit (h1 ++ h2) = true → (length h2 < fuel)%nat →
  head_loop fuel limit h1 (mkReader (h2 ++ rest) e) = Ready (h1 ++ h2, mkReader rest e).
Proof.
  intros Hne Hw. pose proof Hw as [[He Hf]%andb_true_iff Hl%Nat.leb_le]%andb_true_iff. rewrite forallb_forall in Hf.
  revert h1 fuel Hw He Hf Hl. induction h2 as [|b h2 IH]; intros h1 fuel Hw He Hf Hl Hfuel; [done|].
  destruct fuel as [|fuel]; [lia|]. cbn [head_loop]. unfold read_exact. cbn [avail length app].
  rewrite decide_True by lia. cbn [firstn skipn ended]. rewrite take_0, drop_0.
  destruct h2 as [|b2 h2].
  { by rewrite He. }
  replace (h1 ++ b :: b2 :: h2) with ((h1 ++ [b]) ++ b2 :: h2) in * by (by rewrite <- app_assoc).
  rewrite !length_app in Hl, Hf. cbn [length] in *.
  assert (ends_with CRLFCRLF (h1 ++ [b]) = false) as ->.
  { apply negb_true_iff. rewrite <- (take_app_length (h1 ++ [b]) (b2 :: h2)) at 1. apply Hf.
    apply list_elem_of_In, elem_of_seq. rewrite length_app. cbn. lia. }
  rewrite (proj2 (Nat.ltb_ge _ _)) by (rewrite length_app; cbn; lia). cbn [orb].
  apply IH; try done.
  - intros x. rewrite !length_app. apply Hf.
  - rewrite !length_app. cbn. lia.
  - lia.
Qed.

Lemma read_head limit h rest e :
  well_headed limit h = true → read_until_blank limit (mkReader (h ++ rest) e) = Ready (h, mkReader rest e).
Proof.
  intros Hw. unfold read_until_blank. apply (head_loop_app limit h []); [|done|cbn; rewrite length_app; lia].
  by intros ->.
Qed.

(** Whatever the tunnel brings, the fetch returns it. *)
Lemma fetch_reads limit o h got :
  well_headed limit h = true →
  fetch limit o (mkReader (h ++ got) (Some UnexpectedEof)) (mkWriter [] None) =
  Ready (Ok (contains (bs "200") (from_utf8_lossy h), got), mkWriter (connect_request o ++ get_request o) None).
Proof. intros Hw. unfold fetch, write_all. cbn [broken written app]. by rewrite read_head. Qed.

(** A tunnel that was never dialled brings nothing back. *)
Lemma undialled_silent s : TwoNodes.invariant s → dials s = [] → client_got s = [].
Proof.
  intros I Hd. pose proof (f_down _ (invariant_faithful _ I)) as Hp. pose proof (i_gateway _ I) as Hg.
  assert (back s = []) as Hb.
  { destruct (gw (tun s)); cbn in Hg; destruct_and! Hg; congruence. }
  rewrite Hb in Hp. by apply prefix_nil_inv in Hp.
Qed.

Lemma origin_body_ok b needle x y :
  b = x ++ needle ++ y → Forall is_ascii b → body_ok needle (origin_response b) = true.
Proof.
  intros -> Hb. unfold body_ok. rewrite utf8_lossy.
  - unfold origin_response. rewrite !app_assoc. rewrite <- (app_assoc _ needle y). apply contains_app.
  - apply utf8_ascii. unfold origin_response. generalize dependent (x ++ needle ++ y). intros b Hb.
    rewrite !Forall_app. split_and!; [..|done].
    4: eapply Forall_impl; [apply show_uint_digits|]; intros ?; apply is_digit_ascii.
    all: apply (bool_decide_unpack (Forall is_ascii _)); by vm_compute.
Qed.

(** C28: What a self-test proves.  Over any link of two nodes, in any
    interleaving and whatever fails: when the connection to the proxy ends, the
    fetch returns exactly what its tunnel brought back, which is a prefix of what
    the one target it can have reached sent, and it wrote exactly its two
    requests.  The test cannot pass unless that target was dialled, although the
    tunnel is reported as established either way: the proxy answers 200 before it
    opens the stream.  And once the nodes are done and nothing failed, a test
    whose origin has answered passes. *)
Theorem self_test_proves_the_path (limit : nat) (o : SocketAddr) (h : bytes) (c : Ingress.circuit)
    (es : list link_event) (l : list session) (k : nat) (s : session) (needle b x y : str) :
  well_headed limit h = true → contains (bs "200") (from_utf8_lossy h) = true → needle ≠ [] →
  Forall opens_well es → link_run c es [] = Some l → l !! k = Some s → want s = show_socket_addr o →
  let answer := fetch limit o (mkReader (h ++ client_got s) (Some UnexpectedEof)) (mkWriter [] None) in
  answer = Ready (Ok (true, client_got s), mkWriter (connect_request o ++ get_request o) None) ∧
  client_got s `prefix_of` back s ∧ dials s `prefix_of` [show_socket_addr o] ∧
  (round_trip_ok needle (true, client_got s) = true → dials s = [show_socket_addr o]) ∧
  (Forall (λ e, gentle_link e = true) es → link_idle c l →
   back s = origin_response b → b = x ++ needle ++ y → Forall is_ascii b →
   round_trip_ok needle (true, client_got s) = true).
Proof.
  intros Hw H2 Hn Hes Hl Hk Hwant answer.
  pose proof (link_run_invariant _ _ _ _ Hes Hl (Forall_nil_2 _)) as Hi.
  pose proof (Forall_lookup_1 _ _ _ _ Hi Hk) as I. pose proof (invariant_faithful _ I) as [Fd Fu Fb].
  rewrite Hwant in Fd. split_and!; [| done|done| |].
  - unfold answer. by rewrite fetch_reads, H2.
  - intros Hok. destruct (dials s) as [|d ds] eqn:Ed.
    + rewrite (undialled_silent _ I Ed) in Hok. by destruct needle.
    + destruct Fd as [z Hz]. destruct ds; [|done]. by injection Hz as <- _.
  - intros Hg Hq Hb Hxy Ha. pose proof (link_idle_delivered _ _ _ Hes Hg Hl Hq) as Hd.
    pose proof (d_down _ (Forall_lookup_1 _ _ _ _ Hd Hk)) as ->. rewrite Hb. by eapply origin_body_ok.
Qed.

(** ** A self-test over one link. *)
Definition demo_origin : SocketAddr := SA4 (V4 127 0 0 1) 8080.
Definition demo_head : bytes := bs "HTTP/1.1 200 OK" ++ CRLFCRLF.
Definition demo_needle : str := bs "hello from origin via quicmix".
Definition demo_body : str := demo_needle ++ [LF].
Definition demo_fetch : list link_event :=
  [Open (mkRequest true (bs "CONNECT") (Some (show_socket_addr demo_origin)) None None None [] []) []] ++
  (Within 0 <$> [CarryUp 99; Poll; Connected true; ClientSends (get_request demo_origin); ClientEnds UnexpectedEof;
     TunnelUp 99; CarryUp 99; SpliceUp 99; TunnelUp 1; CloseUp; SpliceUp 1;
     TargetSends (origin_response demo_body); TargetEnds UnexpectedEof; SpliceDown 50; CarryDown 20; SpliceDown 99;
     TunnelDown 99; CarryDown 99; SpliceDown 1; CloseDown; TunnelDown 99; TunnelDown 1]).

Lemma self_test_proves_the_path_witness :
  ∃ l s, link_run demo_circuit demo_fetch [] = Some l ∧ l !! 0%nat = Some s ∧
    client_got s = origin_response demo_body ∧ round_trip_ok demo_needle (true, client_got s) = true ∧
    fetch SELFTEST_LIMIT demo_origin (mkReader (demo_head ++ client_got s) (Some UnexpectedEof)) (mkWriter [] None) =
      Ready (Ok (true, client_got s), mkWriter (connect_request demo_origin ++ get_request demo_origin) None).
Proof.
  eexists _, _. split; [by vm_compute|]. split; [reflexivity|]. split; [by vm_compute|].
  destruct (self_test_proves_the_path SELFTEST_LIMIT demo_origin demo_head demo_circuit demo_fetch _ 0 _
    demo_needle demo_body [] [LF] ltac:(by vm_compute) ltac:(by vm_compute) ltac:(done)
    ltac:(apply Forall_cons; split; [|repeat constructor]; eexists; (split; [reflexivity|]); (split; [done|]);
          apply (bool_decide_unpack (Forall graphic _)); by vm_compute)
    ltac:(by vm_compute) eq_refl ltac:(by vm_compute)) as (Ha & _ & _ & _ & Hok).
  split; [apply Hok|exact Ha].
  - by repeat constructor.
  - intros e (k & c & -> & Hc). destruct k as [|k]; [|done].
    destruct c as [| |n|n|n| |n| | | | | |n|n| |]; try done; try destruct n; by vm_compute.
  - by vm_compute.
  - done.
  - apply (bool_decide_unpack (Forall is_ascii _)). by vm_compute.
Defined.
