(* ===== verification/Duplex.v ===== *)
(** * Fronts over a network the program only hands datagrams to.

    The Nym SDK, the socket of a HOPR session: what is sent there leaves the
    program, what has come waits to be received.  [Duplex] is what such a
    transport says of its two queues and [DuplexLaws] what it promises; against
    that interface a boundary and its sockets (the pipes of UdpFront) account for
    every datagram that arrived. *)

From S2P Require Import Prelude RustFloat RustStr Core Oracle Client Substrate Net UdpFront Mixnets.
From Stdlib Require Import Sorting.Permutation.
Open Scope Z_scope.

Class Duplex (T : Type) `{MixTransport T} := {
  sent : T → list bytes;       (* what it took, oldest first *)
  pending : T → list bytes;    (* what has come and is not received yet *)
  setup : Type;
  fixed : T → setup;           (* what no call changes *)
}.

Class DuplexLaws (T : Type) `{Duplex T} : Prop := {
  dx_send d t r t' : Core.try_send d t = (r, t') →
    sent t' = sent t ++ (if is_err r then [] else [d]) ∧ pending t' = pending t ∧ fixed t' = fixed t;
  dx_recv r t t' : Core.try_recv t = Ready (r, t') →
    sent t' = sent t ∧ fixed t' = fixed t ∧ pending t = match r with Ok d => [d] | Err _ => [] end ++ pending t';
  dx_refuse d t t' : fixed t = fixed t' → (Core.try_send d t).1 = (Core.try_send d t').1;
}.

(** A transport that takes every datagram. *)
Definition takes_all {T} `{MixTransport T} (t : T) : Prop := ∀ d, is_err (Core.try_send d t).1 = false.

(** What was handed over was taken or refused. *)
Definition taken (hs : list (Z * Z * Z * bytes * result SubstrateError ())) : list bytes :=
  omap (λ h, if is_err (h_res h) then None else Some (h_dg h)) hs.

Lemma taken_split hs :
  taken hs `sublist_of` (h_dg <$> hs) ∧
  ∃ no, Permutation (h_dg <$> hs) (taken hs ++ no) ∧ (taken hs = h_dg <$> hs → no = []).
Proof.
  induction hs as [|h hs (IHs & no & IHp & IHn)]; [split; [done|by exists []]|].
  unfold taken in *. cbn. destruct (is_err (h_res h)); (split; [by constructor|]).
  - exists (h_dg h :: no). split; [rewrite IHp; solve_Permutation|]. intros E.
    apply sublist_length in IHs. rewrite E in IHs. cbn in IHs. lia.
  - exists no. split; [cbn; by rewrite IHp|]. intros [= E]. by apply IHn.
Qed.

Section Pipe.
Context {T : Type} `{DuplexLaws T}.

(** The network brings datagrams, and may end. *)
Definition brings (ds : list bytes) (t t' : T) : Prop :=
  sent t' = sent t ∧ fixed t' = fixed t ∧ pending t' = pending t ++ ds.

(** ** The boundary over it. *)
Record duplex_inv (t0 : T) (got : list bytes) (tr : list obs) (s : Substrate T) : Prop := {
  dx_fixed : fixed (inner s) = fixed t0;
  dx_sent : sent (inner s) = sent t0 ++ sent_ok tr;
  dx_got : pending t0 ++ got = read_ok tr ++ pending (inner s);
  dx_all : takes_all t0 → sent_ok tr = h_dg <$> handed tr;
}.

Lemma duplex_inv_new t n now : duplex_inv t [] [] (Substrate.new t n now).
Proof. split; cbn; rewrite ?app_nil_r; done. Qed.

Lemma duplex_inv_quiet t0 got tr o s s' :
  duplex_inv t0 got tr s → handed [o] = [] → reads [o] = [] → inner s' = inner s → duplex_inv t0 got (tr ++ [o]) s'.
Proof.
  intros [Hf Hs Hg Ha] Ho Hr Hi.
  assert (sent_ok [o] = []) as Eo by (unfold sent_ok; by rewrite Ho).
  assert (read_ok [o] = []) as Er by (unfold read_ok; by rewrite Hr).
  split; rewrite ?sent_ok_snoc, ?read_ok_snoc, ?handed_snoc, ?Eo, ?Er, ?Ho, ?app_nil_r, ?Hi; done.
Qed.

Lemma duplex_inv_exec t0 got tr c o s s' :
  duplex_inv t0 got tr s → (∀ t, c ≠ CInner t) → Substrate.exec c s = Some (o, s') → duplex_inv t0 got (tr ++ [o]) s'.
Proof.
  intros Hd Hc Hx. pose proof (exec_effect _ _ _ _ Hx) as Heff. pose proof Hd as [Hf Hs Hg Ha].
  destruct Heff as [| | | | |start fin d r t _ _ Ht|r t rp q m _ Ht _ _|r Hrp _|r q _|_ _|p'|t|];
    try by eapply duplex_inv_quiet.
  - destruct (dx_send _ _ _ _ Ht) as (Et & Ep & Ef).
    assert (sent_ok [OHanded start fin (slot_interval (oracle_cell s)) d r] = if is_err r then [] else [d]) as Eo
      by (by destruct r).
    split; rewrite ?sent_ok_snoc, ?read_ok_snoc, ?handed_snoc, ?app_nil_r; cbn [inner set_pump].
    + by rewrite Ef.
    + by rewrite Et, Hs, Eo, app_assoc.
    + by rewrite Ep.
    + intros Hall. rewrite fmap_app, Ha by done. f_equal. rewrite Eo.
      specialize (Hall d). rewrite <- (dx_refuse d (inner s) t0 Hf), Ht in Hall. cbn in Hall. by rewrite Hall.
  - destruct (dx_recv _ _ _ Ht) as (Et & Ef & Ep).
    assert (read_ok [ORead r] = match r with Ok d => [d] | Err _ => [] end) as Eo by (by destruct r).
    split; rewrite ?sent_ok_snoc, ?read_ok_snoc, ?handed_snoc, ?app_nil_r; cbn [inner set_recv].
    + by rewrite Ef.
    + by rewrite Et.
    + by rewrite Hg, Ep, Eo, app_assoc.
    + exact Ha.
  - eapply duplex_inv_quiet; try done. by apply (silent_inner c).
Qed.

(** ** Pipes over it. *)
Variables (t0 : T) (n : nat) (now : Z).

(** [arr] arrived at the socket, [got] came out of the network, [outs] was put
    out. *)
Definition duplex (arr : list (SocketAddr * bytes)) (got : list bytes) (outs : list (option SocketAddr * bytes))
    (pi : pipe T) : Prop :=
  ∃ tr, pipe_inv (Substrate.new t0 n now) arr outs pi tr ∧ duplex_inv t0 got tr (sub pi).

Lemma duplex_new : duplex [] [] [] (new_pipe t0 n now).
Proof. exists []. split; [apply new_pipe_inv|apply duplex_inv_new]. Qed.

(** A step of the pipe's own; what it hands over is added at the end. *)
Lemma duplex_own arr got outs pi dest c src o pi' :
  own c = true → duplex arr got outs pi → pexec dest c pi = Some (src, o, pi') →
  duplex (arr ++ arrival c) got (outs ++ match o with Some x => [x] | None => [] end) pi' ∧
  sent (inner (sub pi)) `prefix_of` sent (inner (sub pi')) ∧
  (∀ a, src = Some a → a ∈ fst <$> arr) ∧ (∀ x, o = Some x → x.1 = dest).
Proof.
  intros Ho (tr & Hp & Hd) Hx.
  destruct (pexec_inv _ _ _ _ _ _ _ _ _ _ Hp Hx) as ((tr1 & Hp1 & Hext) & Hsrc & Hdst).
  rewrite (own_foreign _ Ho) in Hext.
  assert (duplex_inv t0 got tr1 (sub pi') ∧ ∃ x, tr1 = tr ++ x) as [Hd1 [x ->]].
  { destruct Hext as [[-> ->]|(cm & ob & -> & Hex & Hin)]; [split; [done|exists []; by rewrite app_nil_r]|].
    split; [|by eexists]. eapply duplex_inv_exec; [done| |done]. intros t Ht. by specialize (Hin t Ht). }
  split_and!; [by exists (tr ++ x)| |done..].
  rewrite (dx_sent _ _ _ _ Hd), (dx_sent _ _ _ _ Hd1). unfold sent_ok, handed. rewrite !omap_app.
  apply prefix_app, prefix_app_r. done.
Qed.

(** A step of the network. *)
Lemma duplex_brings arr got outs pi ds t :
  duplex arr got outs pi → brings ds (inner (sub pi)) t → duplex arr (got ++ ds) outs (at_inner t pi).
Proof.
  intros (tr & Hp & [Hf Hs Hg Ha]) (Es & Ef & Ep). exists (tr ++ [OSilent]). split; [by apply pipe_inv_net|].
  split; rewrite ?sent_ok_snoc, ?read_ok_snoc, ?handed_snoc, ?app_nil_r; cbn [inner sub at_inner set_recv];
    [by rewrite Ef|by rewrite Es| |done].
  by rewrite Ep, !app_assoc, Hg.
Qed.

(** What waits on either side of the boundary. *)
Definition waiting (pi : pipe T) : list bytes :=
  in_hand (sub pi) ++ (send_q (sub pi)).*2 ++ held pi ++ ((λ x, buffered x.2) <$> inbox pi).
Definition unread (pi : pipe T) : list bytes :=
  omap result_ok (recv_q (sub pi) ++ Substrate.held (sub pi)) ++ pending (inner (sub pi)).

(** Towards the network: each datagram that arrived was taken by it, refused, or
    waits; the network sees them in the order they arrived. *)
Lemma duplex_out arr got outs pi :
  duplex arr got outs pi → sent t0 = [] →
  sent (inner (sub pi)) `sublist_of` ((λ x, buffered x.2) <$> arr) ∧
  ∃ refused, Permutation ((λ x, buffered x.2) <$> arr) (sent (inner (sub pi)) ++ refused ++ waiting pi) ∧
    (takes_all t0 → pump_alive (sub pi) = true → refused = []).
Proof.
  intros (tr & Hp & [_ Hs _ Ha]) Hz. rewrite Hz in Hs. cbn [app] in Hs.
  destruct (pipe_inv_order _ _ _ _ _ _ _ Hp) as [Ho Hl].
  destruct (taken_split (handed tr)) as (Hsub & no & Hno & Hall). change (taken (handed tr)) with (sent_ok tr) in *.
  split.
  - rewrite Hs, <- Ho. by apply sublist_inserts_r.
  - exists (no ++ lost tr). split.
    + rewrite <- Ho, Hno, Hs. unfold waiting. solve_Permutation.
    + intros Ht Hpa. by rewrite (Hall (Ha Ht)), (Hl Hpa).
Qed.

(** From the network: each datagram that came was put out or is still to be
    received, in order. *)
Lemma duplex_in arr got outs pi :
  duplex arr got outs pi → pending t0 = [] → got = (snd <$> outs) ++ unread pi.
Proof.
  intros (tr & Hp & [_ _ Hg _]) Hz. rewrite Hz in Hg. cbn [app] in Hg.
  rewrite Hg, (pi_out _ _ _ _ _ Hp). unfold read_ok, unread.
  by rewrite (reads_accounted _ _ _ _ _ (pi_steps _ _ _ _ _ Hp)), <- app_assoc.
Qed.

(** ** A front over it. *)
Record front_ok (arr : list (SocketAddr * bytes)) (got : list bytes) (outs : list (option SocketAddr * bytes))
    (f : front T) : Prop := {
  fo_pipe : duplex arr got outs (fpipe f);
  fo_peer : ∀ a, peer f = Some a → a ∈ arr.*1;
  fo_dest : ∀ x a, x ∈ outs → x.1 = Some a → a ∈ arr.*1;
}.

Lemma front_ok_new : front_ok [] [] [] (mkFront (new_pipe t0 n now) None).
Proof. split; [apply duplex_new|done|]. intros x a Hx. by apply not_elem_of_nil in Hx. Qed.

Lemma front_own arr got outs f c o f' :
  own c = true → front_ok arr got outs f → fexec c f = Some (o, f') →
  front_ok (arr ++ arrival c) got (outs ++ option_list o) f' ∧
  sent (inner (sub (fpipe f))) `prefix_of` sent (inner (sub (fpipe f'))).
Proof.
  intros Ho [Hp Hpe Hde] Hx. unfold fexec in Hx. apply bind_Some in Hx as ([[src o'] p] & Hx & [= -> <-]).
  destruct (duplex_own _ _ _ _ _ _ _ _ _ Ho Hp Hx) as (Hp' & Hpre & Hsrc & Hdst). split; [|done].
  split; [by destruct o| |]; rewrite fmap_app.
  - intros a Ha. apply elem_of_app. left. destruct src; cbn in Ha; [simplify_eq; auto|auto].
  - intros x a [Hin|Hin]%elem_of_app Ha; apply elem_of_app; left; [eauto|].
    destruct o as [y|]; [|by apply not_elem_of_nil in Hin]. apply list_elem_of_singleton in Hin as ->.
    apply Hpe. by rewrite <- (Hdst y eq_refl).
Qed.

Lemma front_brings arr got outs f ds t :
  front_ok arr got outs f → brings ds (inner (sub (fpipe f))) t →
  front_ok arr (got ++ ds) outs (mkFront (at_inner t (fpipe f)) (peer f)).
Proof. intros [Hp Hpe Hde] Hb. split; [by apply duplex_brings|done..]. Qed.
End Pipe.

(** ** The transports. *)
#[export] Instance Hopr_Duplex : Duplex Hopr.HoprSubstrate := {
  sent := Hopr.sent_out;
  pending s := take (Z.to_nat 65535) <$> Hopr.arrived s;
  fixed s := (Hopr.send_fails s, Hopr.hopr_params s);
}.

#[export] Instance Hopr_DuplexLaws : DuplexLaws Hopr.HoprSubstrate.
Proof.
  split.
  - intros d [so [e|] ar rf p] r t'; cbn; intros [= <- <-]; by rewrite ?app_nil_r.
  - intros r [so sf [|a ar] [] p] t'; cbn; try done; by intros [= <- <-].
  - intros d [so sf ar rf p] [so' sf' ar' rf' p']. cbn. intros [= -> _]. by destruct sf'.
Qed.

#[export] Instance Nym_Duplex : Duplex Nym.NymSubstrate := {
  sent s := (λ x, x.1.2) <$> Nym.outgoing s;
  pending := Nym.incoming;
  fixed s := (Nym.recipient s, Nym.surbs s, Nym.refuses s, Nym.nym_params s);
}.

#[export] Instance Nym_DuplexLaws : DuplexLaws Nym.NymSubstrate.
Proof.
  split.
  - intros d [r0 sb rf og ic cd p] r t'. cbn. unfold Nym.try_send. cbn. destruct (rf d); intros [= <- <-]; cbn.
    + by rewrite app_nil_r.
    + by rewrite fmap_app.
  - intros r [r0 sb rf og [|a ic] [] p] t'; cbn; try done; by intros [= <- <-].
  - intros d [r0 sb rf og ic cd p] [r0' sb' rf' og' ic' cd' p']. cbn. intros [= _ _ -> _].
    unfold Nym.try_send. cbn. by destruct (rf' d).
Qed.

#[export] Instance Reply_Duplex : Duplex Nym.NymReplyTransport := {
  sent := Nym.replies;
  pending _ := [];
  fixed t := (Nym.tag t, Nym.accepts t, Nym.r_oracle t);
}.

#[export] Instance Reply_DuplexLaws : DuplexLaws Nym.NymReplyTransport.
Proof.
  split.
  - intros d [tg ac rp o] r t'. cbn. unfold Nym.reply_try_send. cbn. destruct (ac d); intros [= <- <-]; cbn.
    + by rewrite app_nil_r.
    + done.
  - done.
  - intros d [tg ac rp o] [tg' ac' rp' o']. cbn. intros [= _ -> _]. unfold Nym.reply_try_send. cbn. by destruct (ac' d).
Qed.
