(* ===== verification/HoprPath.v ===== *)
(** * QUIC over a HOPR session ([substrates/quicmix-hopr/src/lib.rs]): the front of
    [spawn_substrate_front] over the session's UDP socket.  The HOPR node takes what
    the socket sends and puts in it what the exit returns, when it likes. *)

From S2P Require Import Prelude RustFloat RustStr Core Oracle Client Substrate Net Mixnets UdpFront Duplex.
From Stdlib Require Import Sorting.Permutation.
Open Scope Z_scope.

#[local] Abbreviation HoprSubstrate := Hopr.HoprSubstrate.

Inductive hcmd : Type :=
| Local (c : pcmd HoprSubstrate)   (* the front's loops, the boundary's pumps, its socket *)
| Datagram (d : bytes)             (* the node returns a datagram *)
| ReadError.                       (* the session's socket reports an error *)

Definition node_step (c : hcmd) (s : HoprSubstrate) : HoprSubstrate :=
  match c with
  | Local _ => s
  | Datagram d =>
      Hopr.mkHopr (Hopr.sent_out s) (Hopr.send_fails s) (Hopr.arrived s ++ [d]) (Hopr.recv_fails s) (Hopr.hopr_params s)
  | ReadError => Hopr.mkHopr (Hopr.sent_out s) (Hopr.send_fails s) (Hopr.arrived s) true (Hopr.hopr_params s)
  end.

Definition hexec (c : hcmd) (f : front HoprSubstrate) :
    option (option (option SocketAddr * bytes) * front HoprSubstrate) :=
  match c with
  | Local c => if own c then fexec c f else None
  | c => Some (None, mkFront (at_inner (node_step c (inner (sub (fpipe f)))) (fpipe f)) (peer f))
  end.

Fixpoint hrun (cs : list hcmd) (f : front HoprSubstrate) :
    option (list (option SocketAddr * bytes) * front HoprSubstrate) :=
  match cs with
  | [] => Some ([], f)
  | c :: cs => '(o, f) ← hexec c f; '(os, f) ← hrun cs f; Some (option_list o ++ os, f)
  end.

Definition dialled (cs : list hcmd) : list (SocketAddr * bytes) :=
  cs ≫= λ c, match c with Local c => arrival c | _ => [] end.
Definition returned (cs : list hcmd) : list bytes :=
  cs ≫= λ c, match c with Datagram d => [buffered d] | _ => [] end.

Lemma hrun_ok t0 n now cs arr got outs f os f' :
  front_ok t0 n now arr got outs f → hrun cs f = Some (os, f') →
  front_ok t0 n now (arr ++ dialled cs) (got ++ returned cs) (outs ++ os) f'.
Proof.
  revert arr got outs f os. induction cs as [|c cs IH]; intros arr got outs f os Hf Hx; cbn [hrun] in Hx.
  - injection Hx as <- <-. by rewrite !app_nil_r.
  - apply bind_Some in Hx as ([o f1] & Hx & Hr). apply bind_Some in Hr as ([os1 f2] & Hr & [= <- <-]).
    unfold dialled, returned. rewrite !bind_cons, !app_assoc. apply (IH _ _ _ f1); [|done].
    destruct c as [c|d|]; cbn [hexec] in Hx.
    + destruct (own c) eqn:Ho; [|done]. rewrite app_nil_r. by eapply front_own.
    + injection Hx as <- <-. rewrite !app_nil_r. eapply front_brings; [done|]. split_and!; [done..|].
      cbn. by rewrite fmap_app.
    + injection Hx as <- <-. rewrite !app_nil_r. rewrite <- (app_nil_r got). eapply front_brings; [done|].
      split_and!; [done..|]. cbn. by rewrite app_nil_r.
Qed.

(** A HOPR session's front accounts for every datagram.  The session's socket has
    sent, in order, some of those that arrived at the front; the others were refused
    by it or wait, and none is refused while the socket sends and the pump lives.
    Those the node returned, each cut to the receive buffer, were put out in
    order or wait; and the front puts out only to addresses that dialled it. *)
Theorem hopr_front_accounts pr s now f0 cs os f :
  Hopr.sent_out s = [] → Hopr.arrived s = [] →
  spawn_substrate_front pr s now = Some f0 → hrun cs f0 = Some (os, f) →
  Hopr.sent_out (inner (sub (fpipe f))) `sublist_of` ((λ x, buffered x.2) <$> dialled cs) ∧
  (∃ refused, Permutation ((λ x, buffered x.2) <$> dialled cs)
       (Hopr.sent_out (inner (sub (fpipe f))) ++ refused ++ waiting (fpipe f)) ∧
     (Hopr.send_fails s = None → pump_alive (sub (fpipe f)) = true → refused = [])) ∧
  returned cs = (snd <$> os) ++ unread (fpipe f) ∧
  (∀ x a, x ∈ os → x.1 = Some a → a ∈ (dialled cs).*1).
Proof.
  intros Hs Ha Hf Hr. apply bind_Some in Hf as (depth & _ & [= <-]).
  pose proof (hrun_ok _ _ _ _ _ _ _ _ _ _ (front_ok_new s (Z.to_nat depth) now) Hr) as [Hp _ Hd]. cbn [app] in Hp, Hd.
  destruct (duplex_out _ _ _ _ _ _ _ Hp Hs) as (Hsub & no & Hno & Hz). split_and!; [done| |by eapply duplex_in; [|cbn; rewrite Ha]|exact Hd].
  exists no. split; [done|]. intros Hsf. apply Hz. intros d. cbn. unfold Hopr.try_send. by rewrite Hsf.
Qed.
