(* ===== verification/NymPath.v ===== *)
(** * QUIC over Nym, end to end: every client's front, the mixnet between, and
    the gateway ([substrates/quicmix-nym/src/lib.rs]).

    Each client is [spawn_client_bridge]'s front over a [NymSubstrate] of its own;
    the gateway is [NymGateway::run] with a socket and a reply pump for each sender
    tag.  Between them the mixnet may hold a message as long as it likes, pass it
    on in any order, or lose it; it tags what a client sends with that client's
    sender tag, and gives a reply to the client its tag belongs to.  Messages of
    others reach the gateway as well. *)

From S2P Require Import Prelude RustFloat RustStr Core Oracle Client Substrate Net Mixnets UdpFront Duplex.
From Stdlib Require Import Sorting.Permutation.
Open Scope Z_scope.

#[local] Abbreviation NymSubstrate := Nym.NymSubstrate.
#[local] Abbreviation message := Nym.message.

Record world := mkWorld {
  clients : list (front NymSubstrate);
  up_mix : list (nat * bytes);       (* on their way from a client *)
  arrived : list message;            (* out of the mix, for [client.next()] *)
  gw : Nym.gateway;
  deaf : gset nat;                   (* sockets whose [reader.recv] has failed *)
  over : bool;                       (* [run] has returned *)
  down_mix : list (nat * bytes);     (* replies on their way, by tag *)
}.

(** What a step of a pipe handed over to the network. *)
Definition news {T} `{Duplex T} (p p' : pipe T) : list bytes :=
  drop (length (sent (inner (sub p)))) (sent (inner (sub p'))).

Definition with_incoming (d : bytes) (s : NymSubstrate) : NymSubstrate :=
  Nym.mkNym (Nym.recipient s) (Nym.surbs s) (Nym.refuses s) (Nym.outgoing s) (Nym.incoming s ++ [d])
    (Nym.client_down s) (Nym.nym_params s).
Definition disconnected (s : NymSubstrate) : NymSubstrate :=
  Nym.mkNym (Nym.recipient s) (Nym.surbs s) (Nym.refuses s) (Nym.outgoing s) (Nym.incoming s) true (Nym.nym_params s).

(** The network's step on a client's transport. *)
Definition on_client (f : NymSubstrate → NymSubstrate) (x : front NymSubstrate) : front NymSubstrate :=
  mkFront (at_inner (f (inner (sub (fpipe x)))) (fpipe x)) (peer x).

Definition set_clients (cs : list (front NymSubstrate)) (um : list (nat * bytes)) (w : world) : world :=
  mkWorld cs um (arrived w) (gw w) (deaf w) (over w) (down_mix w).
Definition set_mix (um : list (nat * bytes)) (ms : list message) (w : world) : world :=
  mkWorld (clients w) um ms (gw w) (deaf w) (over w) (down_mix w).
Definition set_down (dm : list (nat * bytes)) (w : world) : world :=
  mkWorld (clients w) (up_mix w) (arrived w) (gw w) (deaf w) (over w) dm.
Definition set_gw (ms : list message) (g : Nym.gateway) (ov : bool) (w : world) : world :=
  mkWorld (clients w) (up_mix w) ms g (deaf w) ov (down_mix w).
Definition set_pump (s : nat) (p : pipe Nym.NymReplyTransport) (dm : list (nat * bytes)) (w : world) : world :=
  let g := gw w in
  mkWorld (clients w) (up_mix w) (arrived w)
    (Nym.mkGateway (Nym.socks g) (Nym.forwarded g) (<[s := p]> (Nym.pumps g)) (Nym.next_sock g)) (deaf w) (over w) dm.
Definition set_deaf (s : nat) (w : world) : world :=
  mkWorld (clients w) (up_mix w) (arrived w) (gw w) ({[s]} ∪ deaf w) (over w) (down_mix w).

Inductive ncmd : Type :=
| OfClient (i : nat) (c : pcmd NymSubstrate)        (* the front of a client, its boundary's pumps, its socket *)
| LoseUp (k : nat) | DeliverUp (k : nat) | Stray (m : message)
| Turn (bind_ok : bool) (now : Z)                   (* one turn of [run] *)
| OfReply (s : nat) (c : pcmd Nym.NymReplyTransport) (* a socket of the gateway: its reader, the reply pump *)
| ReadFails (s : nat)                               (* [reader.recv] returns an error *)
| Shutdown                                          (* [client.next()] returns [None] *)
| LoseDown (k : nat) | DeliverDown (i k : nat)
| Disconnect (i : nat).

(** What a client's front put out, with the client. *)
#[local] Abbreviation output := (nat * (option SocketAddr * bytes))%type.

Section System.
Variable pr : profile.
Variable tag_of : nat → nat.                      (* the sender tag of a client *)
Variable accept : nat → bytes → option string.    (* [send_reply], by tag *)

Definition start (subs : list NymSubstrate) (now : Z) : option world :=
  fs ← mapM (λ t, Nym.spawn_client_bridge pr t now) subs;
  Some (mkWorld fs [] [] Nym.gateway0 ∅ false []).

(** A message of somebody else, or without a tag. *)
Definition stray (n : nat) (m : message) : bool :=
  bool_decide (Nym.sender_tag m ∉ Some ∘ tag_of <$> seq 0 n).

(** The steps of a gateway socket: nobody takes anything off the reply leg, and
    a reader that has failed reads no more. *)
Definition replying (w : world) (s : nat) (c : pcmd Nym.NymReplyTransport) : bool :=
  match c with PIn _ => bool_decide (s ∉ deaf w) | POut => false | _ => own c end.

Definition client_step (i : nat) (c : pcmd NymSubstrate) (w : world) : option (option output * world) :=
  f ← (if own c then clients w !! i else None);
  r ← fexec c f;
  Some (fmap (M := option) (i,.) r.1,
        set_clients (<[i := r.2]> (clients w)) (up_mix w ++ ((i,.) <$> news (fpipe f) (fpipe r.2))) w).

Definition net_step (i : nat) (f : NymSubstrate → NymSubstrate) (w : world) : option world :=
  x ← clients w !! i; Some (set_clients (<[i := on_client f x]> (clients w)) (up_mix w) w).

Definition reply_step (s : nat) (c : pcmd Nym.NymReplyTransport) (w : world) : option world :=
  p ← (if replying w s c then Nym.pumps (gw w) !! s else None);
  r ← pexec None c p;
  Some (set_pump s r.2 (down_mix w ++ ((Nym.tag (inner (sub p)),.) <$> news p r.2)) w).

Definition turn (bind_ok : bool) (now : Z) (w : world) : option world :=
  match over w, arrived w with
  | false, m :: q =>
      Some match Nym.handle_message pr accept m bind_ok now (gw w) with
           | Ok g => set_gw q g false w
           | Err _ => set_gw q (gw w) true w
           end
  | _, _ => None
  end.

(** The step, and what a client's front put out. *)
Definition nexec (c : ncmd) (w : world) : option (option output * world) :=
  match c with
  | OfClient i c => client_step i c w
  | LoseUp k => match up_mix w !! k with
      | Some _ => Some (None, set_mix (delete k (up_mix w)) (arrived w) w)
      | None => None end
  | DeliverUp k => match up_mix w !! k with
      | Some (i, d) => Some (None, set_mix (delete k (up_mix w)) (arrived w ++ [Nym.mkMessage (Some (tag_of i)) d]) w)
      | None => None end
  | Stray m =>
      if stray (length (clients w)) m then Some (None, set_mix (up_mix w) (arrived w ++ [m]) w) else None
  | Turn bind_ok now => (None,.) <$> turn bind_ok now w
  | OfReply s c => (None,.) <$> reply_step s c w
  | ReadFails s => match Nym.pumps (gw w) !! s with Some _ => Some (None, set_deaf s w) | None => None end
  | Shutdown => if over w then None else Some (None, set_gw (arrived w) (gw w) true w)
  | LoseDown k => match down_mix w !! k with
      | Some _ => Some (None, set_down (delete k (down_mix w)) w)
      | None => None end
  | DeliverDown i k => match down_mix w !! k with
      | Some (t, d) =>
          if decide (tag_of i = t)
          then (None,.) <$> net_step i (with_incoming d) (set_down (delete k (down_mix w)) w) else None
      | None => None end
  | Disconnect i => (None,.) <$> net_step i disconnected w
  end.

Fixpoint nrun (cs : list ncmd) (w : world) : option (list output * world) :=
  match cs with
  | [] => Some ([], w)
  | c :: cs => '(o, w) ← nexec c w; '(os, w) ← nrun cs w; Some (option_list o ++ os, w)
  end.

(** The gateway's socket of a client, what it has sent to the server, and the
    reply pump behind it. *)
Definition socket_of (w : world) (i : nat) : option nat := Nym.socks (gw w) !! tag_of i.
Definition seen (w : world) (i : nat) : list bytes :=
  match socket_of w i with Some s => Nym.on_socket s (gw w) | None => [] end.
Definition reply_pump (w : world) (i : nat) : option (pipe Nym.NymReplyTransport) :=
  s ← socket_of w i; Nym.pumps (gw w) !! s.
Definition replied (w : world) (i : nat) : list bytes :=
  match reply_pump w i with Some p => Nym.replies (inner (sub p)) | None => [] end.

(** The payloads of one tag. *)
Definition tagged (t : nat) (ms : list message) : list bytes :=
  omap (λ m, if decide (Nym.sender_tag m = Some t) then Some (Nym.payload m) else None) ms.

(** On their way to the server, and to the client. *)
Definition under_way (w : world) (i : nat) (f : front NymSubstrate) : list bytes :=
  waiting (fpipe f) ++ keyed i (up_mix w) ++ tagged (tag_of i) (arrived w).
Definition coming_back (w : world) (i : nat) (f : front NymSubstrate) : list bytes :=
  match reply_pump w i with Some p => waiting p | None => [] end ++ keyed (tag_of i) (down_mix w) ++ unread (fpipe f).
End System.

(** What arrived on the socket of a client's front, and on a gateway's socket. *)
Definition dialled (i : nat) (cs : list ncmd) : list (SocketAddr * bytes) :=
  cs ≫= λ c, match c with OfClient j c => if decide (j = i) then arrival c else [] | _ => [] end.
Definition answered (s : nat) (cs : list ncmd) : list (SocketAddr * bytes) :=
  cs ≫= λ c, match c with OfReply j c => if decide (j = s) then arrival c else [] | _ => [] end.

(** Nothing was lost in the mix, no socket call failed, and the gateway's client
    was not shut down. *)
Definition harmless (c : ncmd) : bool :=
  match c with LoseUp _ | LoseDown _ | Turn false _ | Shutdown => false | _ => true end.
Definition lossless (cs : list ncmd) : Prop := Forall (λ c, harmless c = true) cs.

(** ** Flows: what entered is at the far end, on its way, or gone. *)
Definition flow (whole : Prop) (src dst mid : list bytes) : Prop :=
  ∃ gone, Permutation src (dst ++ mid ++ gone) ∧ (whole → gone = []).

Lemma flow_nil P : flow P [] [] [].
Proof. by exists []. Qed.

Lemma flow_enter (P : Prop) src dst mid ds : flow P src dst mid → flow P (src ++ ds) dst (mid ++ ds).
Proof. intros (gone & Hp & Hn). exists gone. split; [rewrite Hp; solve_Permutation|done]. Qed.

Lemma flow_perm (P Q : Prop) src dst mid dst' mid' :
  (Q → P) → Permutation (dst ++ mid) (dst' ++ mid') → flow P src dst mid → flow Q src dst' mid'.
Proof.
  intros HQ Hp (gone & Hg & Hn). exists gone. split; [|auto].
  by rewrite Hg, !app_assoc, Hp.
Qed.

Lemma flow_lose (P Q : Prop) src dst mid ds dst' mid' :
  (Q → P) → (Q → ds = []) → Permutation (dst ++ mid) (dst' ++ mid' ++ ds) → flow P src dst mid → flow Q src dst' mid'.
Proof.
  intros HQ Hds Hp (gone & Hg & Hn). exists (ds ++ gone). split.
  - rewrite Hg, app_assoc, Hp. solve_Permutation.
  - intros q. by rewrite (Hds q), (Hn (HQ q)).
Qed.

(** ** The invariant of a run. *)
Lemma news_app {T} `{Duplex T} (p p' : pipe T) :
  sent (inner (sub p)) `prefix_of` sent (inner (sub p')) → sent (inner (sub p')) = sent (inner (sub p)) ++ news p p'.
Proof. unfold news. intros [k ->]. by rewrite drop_app_length. Qed.

Lemma dialled_snoc i cs c : dialled i (cs ++ [c]) = dialled i cs ++ dialled i [c].
Proof. apply bind_app. Qed.
Lemma answered_snoc s cs c : answered s (cs ++ [c]) = answered s cs ++ answered s [c].
Proof. apply bind_app. Qed.
Lemma lossless_snoc cs c : lossless (cs ++ [c]) → lossless cs ∧ harmless c = true.
Proof. intros [H1 H2]%Forall_app. by inversion H2. Qed.

Lemma tagged_app t l l' : tagged t (l ++ l') = tagged t l ++ tagged t l'.
Proof. apply omap_app. Qed.

(** A command that puts nothing in a socket. *)
Definition silent (c : ncmd) : bool := match c with OfClient _ _ | OfReply _ _ => false | _ => true end.
Lemma silent_dialled i c : silent c = true → dialled i [c] = [].
Proof. by destruct c. Qed.
Lemma silent_answered s c : silent c = true → answered s [c] = [].
Proof. by destruct c. Qed.

Section Invariant.
Variable pr : profile.
Variable tag_of : nat → nat.
Context `{!Inj (=) (=) tag_of}.
Variable accept : nat → bytes → option string.
Variables (subs : list NymSubstrate) (now : Z).

Abbreviation leg t := (Nym.mkReply t (accept t) [] Nym.nym_oracle).

(** A client: its front, and the two flows between it and the gateway; [ds] is
    what the gateway has handled. *)
Record client_ok (cs : list ncmd) (os : list output) (ds : list (message * Z)) (w : world) (i : nat)
    (f : front NymSubstrate) : Prop := {
  co_front : ∃ t0 n got, subs !! i = Some t0 ∧ front_ok t0 n now (dialled i cs) got (keyed i os) f ∧
    flow (lossless cs) (replied tag_of w i) got (keyed (tag_of i) (down_mix w));
  co_up : flow (lossless cs) (sent (inner (sub (fpipe f)))) (Nym.from_sender (tag_of i) ds)
    (keyed i (up_mix w) ++ tagged (tag_of i) (arrived w));
}.

Definition pumps_ok (cs : list ncmd) (g : Nym.gateway) : Prop := ∀ s,
  match Nym.pumps g !! s with
  | Some p => ∃ t n at_ outs, Nym.socks g !! t = Some s ∧ duplex (leg t) n at_ (answered s cs) [] outs p
  | None => answered s cs = []
  end.

Record net_inv (cs : list ncmd) (os : list output) (ds : list (message * Z)) (w : world) : Prop := {
  ni_gw : Nym.gw_inv ds (gw w);
  ni_len : length (clients w) = length subs;
  ni_clients : ∀ i f, clients w !! i = Some f → client_ok cs os ds w i f;
  ni_pumps : pumps_ok cs (gw w);
}.

Lemma pumps_ok_silent cs c g : silent c = true → pumps_ok cs g → pumps_ok (cs ++ [c]) g.
Proof. intros Hc Hp s. rewrite answered_snoc, (silent_answered _ _ Hc), app_nil_r. exact (Hp s). Qed.

(** A silent step that leaves a client's front and its replies alone. *)
Lemma client_ok_silent cs os ds ds' c w w' i f :
  silent c = true → client_ok cs os ds w i f →
  replied tag_of w' i = replied tag_of w i →
  (∀ src dst, flow (lossless cs) src dst (keyed (tag_of i) (down_mix w)) →
     flow (lossless (cs ++ [c])) src dst (keyed (tag_of i) (down_mix w'))) →
  (∀ src, flow (lossless cs) src (Nym.from_sender (tag_of i) ds) (keyed i (up_mix w) ++ tagged (tag_of i) (arrived w)) →
     flow (lossless (cs ++ [c])) src (Nym.from_sender (tag_of i) ds')
       (keyed i (up_mix w') ++ tagged (tag_of i) (arrived w'))) →
  client_ok (cs ++ [c]) os ds' w' i f.
Proof.
  intros Hc [(t0 & n & got & Ht & Hf & Hd) Hu] Hr Hdn Hup. split; [|by apply Hup].
  exists t0, n, got. rewrite dialled_snoc, (silent_dialled _ _ Hc), app_nil_r, Hr. split_and!; [done..|]. by apply Hdn.
Qed.

Lemma flow_keep cs c src dst mid : flow (lossless cs) src dst mid → flow (lossless (cs ++ [c])) src dst mid.
Proof. apply flow_perm; [by intros [? _]%lossless_snoc|done]. Qed.

(** The mix towards the gateway, and what has come out of it. *)
Lemma mix_inv cs os ds c um ms w :
  silent c = true → net_inv cs os ds w →
  (∀ i src dst, i < length (clients w) →
     flow (lossless cs) src dst (keyed i (up_mix w) ++ tagged (tag_of i) (arrived w)) →
     flow (lossless (cs ++ [c])) src dst (keyed i um ++ tagged (tag_of i) ms))%nat →
  net_inv (cs ++ [c]) os ds (set_mix um ms w).
Proof.
  intros Hc [Hg Hl Hcl Hp] Hm. split; [done|done| |by apply pumps_ok_silent].
  intros i f Hi. eapply client_ok_silent; [done|by apply Hcl|done| |].
  - intros. by apply flow_keep.
  - intros src. apply Hm. by eapply lookup_lt_Some.
Qed.

Lemma lose_up_inv cs os ds k x w :
  net_inv cs os ds w → up_mix w !! k = Some x → net_inv (cs ++ [LoseUp k]) os ds (set_mix (delete k (up_mix w)) (arrived w) w).
Proof.
  intros Hn Hk. apply mix_inv; [done|done|]. intros i src dst _.
  apply (flow_lose _ _ _ _ _ (keyed i [x])); [by intros [? _]%lossless_snoc|by intros [_ ?]%lossless_snoc|].
  rewrite (keyed_delete i k _ _ Hk). solve_Permutation.
Qed.

Lemma deliver_up_inv cs os ds k i d w :
  net_inv cs os ds w → up_mix w !! k = Some (i, d) →
  net_inv (cs ++ [DeliverUp k]) os ds
    (set_mix (delete k (up_mix w)) (arrived w ++ [Nym.mkMessage (Some (tag_of i)) d]) w).
Proof.
  intros Hn Hk. apply mix_inv; [done|done|]. intros j src dst _.
  apply flow_perm; [by intros [? _]%lossless_snoc|]. rewrite (keyed_delete j k _ _ Hk), tagged_app.
  assert (tagged (tag_of j) [Nym.mkMessage (Some (tag_of i)) d] = keyed j [(i, d)]) as ->; [|solve_Permutation].
  unfold tagged, keyed. cbn. destruct (decide (i = j)) as [->|Hne]; [by rewrite decide_True|].
  rewrite decide_False; [done|]. by intros [= ?%(inj _)].
Qed.

Lemma stray_inv cs os ds m w :
  net_inv cs os ds w → stray tag_of (length (clients w)) m = true →
  net_inv (cs ++ [Stray m]) os ds (set_mix (up_mix w) (arrived w ++ [m]) w).
Proof.
  intros Hn Hs. apply mix_inv; [done|done|]. intros i src dst Hi.
  apply flow_perm; [by intros [? _]%lossless_snoc|]. rewrite tagged_app.
  assert (tagged (tag_of i) [m] = []) as ->; [|by rewrite app_nil_r].
  unfold tagged. cbn. rewrite decide_False; [done|]. intros E. apply bool_decide_eq_true in Hs. apply Hs.
  rewrite E. apply list_elem_of_fmap. exists i. split; [done|]. apply elem_of_seq. lia.
Qed.

(** A step of a client's own. *)
Lemma client_step_inv cs os ds i c w o w' :
  net_inv cs os ds w → client_step i c w = Some (o, w') →
  net_inv (cs ++ [OfClient i c]) (os ++ option_list o) ds w'.
Proof.
  intros [Hg Hl Hcl Hp] Hx. apply bind_Some in Hx as (f & Hf & Hx). destruct (own c) eqn:Ho; [|done].
  apply bind_Some in Hx as ([o' f'] & Hx & [= <- <-]). cbn [fst snd].
  assert (∀ j, keyed j (os ++ option_list (fmap (M := option) (i,.) o')) =
    keyed j os ++ (if decide (i = j) then option_list o' else [])) as Hos.
  { intros j. rewrite keyed_app. f_equal. destruct o' as [x|]; unfold keyed; cbn; by case_decide. }
  split; [done|by cbn; rewrite length_insert| |].
  - intros j fj Hj. cbn in Hj. apply list_lookup_insert_Some in Hj as [(<- & <- & _)|(Hne & Hj)].
    + destruct (Hcl _ _ Hf) as [(t0 & n & got & Ht & Hfo & Hd) Hu].
      destruct (front_own _ _ _ _ _ _ _ _ _ _ Ho Hfo Hx) as [Hfo' Hpre%news_app].
      assert (dialled i [OfClient i c] = arrival c) as Ed by (cbn; by rewrite decide_True, app_nil_r).
      split.
      * exists t0, n, got. rewrite dialled_snoc, Ed, Hos, decide_True by done.
        split_and!; [done|done|]. by apply flow_keep.
      * rewrite Hpre. apply flow_keep. cbn [up_mix arrived set_clients]. rewrite keyed_app, keyed_same.
        eapply flow_perm; [exact id| |by apply flow_enter]. solve_Permutation.
    + destruct (Hcl _ _ Hj) as [(t0 & n & got & Ht & Hfo & Hd) Hu].
      assert (dialled j [OfClient i c] = []) as Ed by (cbn; by rewrite decide_False).
      split.
      * exists t0, n, got. rewrite dialled_snoc, Ed, Hos, decide_False, !app_nil_r by done.
        split_and!; [done|done|]. by apply flow_keep.
      * apply flow_keep. cbn [up_mix arrived set_clients]. by rewrite keyed_app, keyed_other, app_nil_r.
  - intros s. rewrite answered_snoc. cbn. rewrite app_nil_r. exact (Hp s).
Qed.

(** A turn of the gateway. *)
Lemma handle_Ok m b at_ g g' :
  Nym.handle_message pr accept m b at_ g = Ok g' →
  Nym.handle_message pr accept m true at_ g = Ok g' ∧
  ((Nym.socks g' = Nym.socks g ∧ Nym.pumps g' = Nym.pumps g) ∨
   ∃ t n, Nym.socks g !! t = None ∧ Nym.socks g' = <[t := Nym.next_sock g]> (Nym.socks g) ∧
     Nym.pumps g' = <[Nym.next_sock g := new_pipe (leg t) n at_]> (Nym.pumps g)).
Proof.
  unfold Nym.handle_message. destruct (Nym.sender_tag m) as [t|]; [|intros [= <-]; auto].
  destruct (Nym.socks g !! t) as [s|] eqn:Es; [intros [= <-]; auto|].
  destruct b; [|done]. destruct (nym_depth pr) as [depth Hd]. cbn [negb]. rewrite Hd.
  cbn [ok_or mbind result_bind]. clear Hd. intros [= <-]. split; [done|]. right. by eexists _, _.
Qed.

Lemma handle_Err m b at_ g e : Nym.handle_message pr accept m b at_ g = Err e → b = false.
Proof.
  unfold Nym.handle_message. destruct (Nym.sender_tag m) as [t|]; [|done].
  destruct (Nym.socks g !! t) as [s|]; [done|]. destruct b; [|done].
  destruct (nym_depth pr) as [depth Hd]. cbn [negb]. rewrite Hd. done.
Qed.

Lemma fresh_socket cs ds g : Nym.gw_inv ds g → pumps_ok cs g → Nym.pumps g !! Nym.next_sock g = None.
Proof.
  intros Hg Hp. specialize (Hp (Nym.next_sock g)). destruct (_ !! _) as [p|]; [|done].
  destruct Hp as (t & _ & _ & _ & Ht & _). apply (Nym.gi_lt _ _ Hg) in Ht. lia.
Qed.

Lemma handle_pumps_ok cs ds m b at_ g g' :
  Nym.gw_inv ds g → pumps_ok cs g → Nym.handle_message pr accept m b at_ g = Ok g' → pumps_ok cs g'.
Proof.
  intros Hg Hp [_ [[Es Ep]|(t & n & Ht & Es & Ep)]]%handle_Ok s.
  - rewrite Ep, Es. exact (Hp s).
  - rewrite Ep, Es. pose proof (fresh_socket _ _ _ Hg Hp) as Hf. pose proof (Hp s) as Hs.
    destruct (decide (s = Nym.next_sock g)) as [->|Hne].
    + rewrite lookup_insert_eq. rewrite Hf in Hs. exists t, n, at_, []. rewrite lookup_insert_eq, Hs.
      split; [done|apply duplex_new].
    + rewrite lookup_insert_ne by done. destruct (Nym.pumps g !! s) as [p|]; [|done].
      destruct Hs as (t' & n' & at' & outs & Ht' & Hd). exists t', n', at', outs.
      rewrite lookup_insert_ne; [done|]. intros ->. congruence.
Qed.

Lemma handle_replied cs ds m b at_ q ov w g' i :
  Nym.gw_inv ds (gw w) → pumps_ok cs (gw w) → Nym.handle_message pr accept m b at_ (gw w) = Ok g' →
  replied tag_of (set_gw q g' ov w) i = replied tag_of w i.
Proof.
  intros Hg Hp [_ [[Es Ep]|(t & n & Ht & Es & Ep)]]%handle_Ok; unfold replied, reply_pump, socket_of; cbn; rewrite Es, Ep; [done|].
  pose proof (fresh_socket _ _ _ Hg Hp) as Hf. destruct (decide (t = tag_of i)) as [->|Hne].
  - by rewrite Ht, lookup_insert_eq; cbn; rewrite lookup_insert_eq.
  - rewrite lookup_insert_ne by done. destruct (Nym.socks (gw w) !! tag_of i) as [s|] eqn:E; [cbn|done].
    rewrite lookup_insert_ne; [done|]. apply (Nym.gi_lt _ _ Hg) in E. lia.
Qed.

Lemma turn_inv cs os ds b at_ w w' :
  net_inv cs os ds w → turn pr accept b at_ w = Some w' →
  ∃ ds', net_inv (cs ++ [Turn b at_]) os ds' w'.
Proof.
  unfold turn. intros [Hg Hl Hcl Hp] Hx. destruct (over w); [done|].
  destruct (arrived w) as [|m q] eqn:Ea; [done|]. injection Hx as <-.
  destruct (Nym.handle_message pr accept m b at_ (gw w)) as [g'|e] eqn:Eh.
  - exists (ds ++ [(m, at_)]). split.
    + destruct (handle_message_inv pr accept ds m at_ _ Hg) as (g1 & H1 & Hg1).
      apply handle_Ok in Eh as [Eh _]. rewrite Eh in H1. by injection H1 as <-.
    + done.
    + intros i f Hi. eapply client_ok_silent; [done|by apply Hcl|by eapply handle_replied| |].
      * intros src dst. by apply flow_keep.
      * intros src. apply flow_perm; [by intros [? _]%lossless_snoc|].
        rewrite from_sender_snoc, Ea. unfold tagged. cbn. case_decide; cbn; solve_Permutation.
    + apply pumps_ok_silent; [done|]. by eapply handle_pumps_ok.
  - apply handle_Err in Eh as ->. exists ds. split; [done|done| |by apply pumps_ok_silent].
    intros i f Hi. eapply client_ok_silent; [done|by apply Hcl|done| |].
    + intros src dst. by apply flow_keep.
    + intros src. apply (flow_lose _ _ _ _ _ (tagged (tag_of i) [m])); [by intros [? _]%lossless_snoc|by intros [_ ?]%lossless_snoc|].
      rewrite Ea. unfold tagged. cbn. case_decide; cbn; solve_Permutation.
Qed.

(** A step of a gateway socket. *)
Lemma reply_step_inv cs os ds s c w w' :
  net_inv cs os ds w → reply_step s c w = Some w' → net_inv (cs ++ [OfReply s c]) os ds w'.
Proof.
  intros [Hg Hl Hcl Hp] Hx. apply bind_Some in Hx as (p & Hs & Hx).
  destruct (replying w s c) eqn:Hr; [|done].
  assert (own c = true) as Ho by (by destruct c).
  apply bind_Some in Hx as ([[src o] p'] & Hx & [= <-]). cbn [snd].
  pose proof (Hp s) as Hps. rewrite Hs in Hps. destruct Hps as (t & n & at_ & outs & Ht & Hd).
  destruct (duplex_own _ _ _ _ _ _ _ _ _ _ _ _ Ho Hd Hx) as (Hd' & Hpre%news_app & _).
  destruct (Nym.gi_pump _ _ Hg _ _ Ht) as (p0 & Hp0 & Htag). rewrite Hs in Hp0. injection Hp0 as <-.
  assert (Nym.tag (inner (sub p')) = t) as Htag'.
  { destruct Hd' as (tr & _ & Hdi). pose proof (dx_fixed _ _ _ _ Hdi) as Hf. by injection Hf. }
  rewrite Htag. split; [|done| |].
  - destruct Hg as [Hinj Hlt Hflow Hnone Hfresh Hpump]. split; try done.
    intros t1 s1 H1. cbn. destruct (decide (s = s1)) as [<-|Hne].
    + rewrite lookup_insert_eq. exists p'. split; [done|]. rewrite Htag'. by eapply Hinj.
    + rewrite lookup_insert_ne by done. by apply Hpump.
  - intros i f Hi. destruct (Hcl _ _ Hi) as [(t0 & n0 & got & Ht0 & Hfo & Hdn) Hu].
    assert (dialled i [OfReply s c] = []) as Ed by done. split; [|by apply flow_keep].
    exists t0, n0, got. rewrite dialled_snoc, Ed, app_nil_r. split_and!; [done|done|]. apply flow_keep.
    cbn [down_mix set_pump]. rewrite keyed_app. unfold replied, reply_pump, socket_of in *.
    cbn [gw set_pump Nym.socks Nym.pumps]. destruct (decide (t = tag_of i)) as [->|Hne].
    + rewrite keyed_same. rewrite Ht in *. cbn [mbind option_bind] in *. rewrite Hs in Hdn. rewrite lookup_insert_eq.
      change (Nym.replies (inner (sub p'))) with (sent (inner (sub p'))). rewrite Hpre.
      by apply flow_enter.
    + rewrite keyed_other, app_nil_r by done.
      destruct (Nym.socks (gw w) !! tag_of i) as [s'|] eqn:E; [cbn in *|done].
      rewrite lookup_insert_ne; [done|]. intros ->. apply Hne. by eapply (Nym.gi_inj _ _ Hg).
  - intros s1. rewrite answered_snoc. cbn. destruct (decide (s = s1)) as [<-|Hne].
    + rewrite lookup_insert_eq, app_nil_r. by eexists t, n, at_, _.
    + rewrite lookup_insert_ne, app_nil_r by done. exact (Hp s1).
Qed.

Lemma read_fails_inv cs os ds s w : net_inv cs os ds w → net_inv (cs ++ [ReadFails s]) os ds (set_deaf s w).
Proof.
  intros [Hg Hl Hcl Hp]. split; [done|done| |by apply pumps_ok_silent].
  intros i f Hi. eapply client_ok_silent; [done|by apply Hcl|done|intros ??; by apply flow_keep|intros ?; by apply flow_keep].
Qed.

Lemma shutdown_inv cs os ds w : net_inv cs os ds w → net_inv (cs ++ [Shutdown]) os ds (set_gw (arrived w) (gw w) true w).
Proof.
  intros [Hg Hl Hcl Hp]. split; [done|done| |by apply pumps_ok_silent].
  intros i f Hi. eapply client_ok_silent; [done|by apply Hcl|done|intros ??; by apply flow_keep|intros ?; by apply flow_keep].
Qed.

Lemma lose_down_inv cs os ds k x w :
  net_inv cs os ds w → down_mix w !! k = Some x →
  net_inv (cs ++ [LoseDown k]) os ds (set_down (delete k (down_mix w)) w).
Proof.
  intros [Hg Hl Hcl Hp] Hk. split; [done|done| |by apply pumps_ok_silent].
  intros i f Hi. eapply client_ok_silent; [done|by apply Hcl|done| |intros ?; by apply flow_keep].
  intros src dst. apply (flow_lose _ _ _ _ _ (keyed (tag_of i) [x]));
    [by intros [? _]%lossless_snoc|by intros [_ ?]%lossless_snoc|].
  cbn [down_mix set_down]. rewrite (keyed_delete _ k _ _ Hk). solve_Permutation.
Qed.

(** The network's step on a client's transport brings it [xs]. *)
Lemma net_step_inv cs os ds c i g xs dm w w' :
  silent c = true → net_inv cs os ds w → (∀ t, brings xs t (g t)) →
  (∀ j, Permutation (keyed (tag_of j) (down_mix w)) ((if decide (i = j) then xs else []) ++ keyed (tag_of j) dm)) →
  net_step i g (set_down dm w) = Some w' → net_inv (cs ++ [c]) os ds w'.
Proof.
  intros Hc [Hg Hl Hcl Hp] Hb Hdm Hx. apply bind_Some in Hx as (f & Hf & [= <-]). cbn [clients set_down] in Hf.
  split; [done|by cbn; rewrite length_insert| |by apply pumps_ok_silent].
  intros j fj Hj. cbn in Hj. apply list_lookup_insert_Some in Hj as [(<- & <- & _)|(Hne & Hj)].
  - destruct (Hcl _ _ Hf) as [(t0 & n & got & Ht & Hfo & Hd) Hu]. specialize (Hb (inner (sub (fpipe f)))). split.
    + exists t0, n, (got ++ xs). rewrite dialled_snoc, (silent_dialled _ _ Hc), app_nil_r.
      split_and!; [done|by eapply front_brings|]. revert Hd. apply flow_perm; [by intros [? _]%lossless_snoc|].
      cbn [down_mix set_clients set_down]. rewrite (Hdm i), decide_True by done. solve_Permutation.
    + apply flow_keep. cbn [fpipe on_client sub at_inner inner set_recv]. by rewrite (proj1 Hb).
  - eapply client_ok_silent; [done|by apply Hcl|done| |intros ?; by apply flow_keep].
    intros src dst. apply flow_perm; [by intros [? _]%lossless_snoc|].
    cbn [down_mix set_clients set_down]. by rewrite (Hdm j), decide_False by done.
Qed.

Lemma nexec_inv cs os ds c w o w' :
  net_inv cs os ds w → nexec pr tag_of accept c w = Some (o, w') →
  ∃ ds', net_inv (cs ++ [c]) (os ++ option_list o) ds' w'.
Proof.
  intros Hn Hx. destruct c as [i c|k|k|m|b at_|s c|s| |k|i k|i]; cbn [nexec] in Hx.
  - exists ds. by eapply client_step_inv.
  - destruct (up_mix w !! k) eqn:E; [|done]. injection Hx as <- <-. rewrite app_nil_r. exists ds. by eapply lose_up_inv.
  - destruct (up_mix w !! k) as [[i d]|] eqn:E; [|done]. injection Hx as <- <-. rewrite app_nil_r.
    exists ds. by eapply deliver_up_inv.
  - destruct (stray _ _ _) eqn:E; [|done]. injection Hx as <- <-. rewrite app_nil_r. exists ds. by apply stray_inv.
  - apply fmap_Some in Hx as (w1 & Hx & [= -> ->]). rewrite app_nil_r. by eapply turn_inv.
  - apply fmap_Some in Hx as (w1 & Hx & [= -> ->]). rewrite app_nil_r. exists ds. by eapply reply_step_inv.
  - destruct (_ !! s); [|done]. injection Hx as <- <-. rewrite app_nil_r. exists ds. by apply read_fails_inv.
  - destruct (over w); [done|]. injection Hx as <- <-. rewrite app_nil_r. exists ds. by apply shutdown_inv.
  - destruct (down_mix w !! k) eqn:E; [|done]. injection Hx as <- <-. rewrite app_nil_r. exists ds. by eapply lose_down_inv.
  - destruct (down_mix w !! k) as [[t d]|] eqn:E; [|done]. case_decide as Ht; [|done].
    apply fmap_Some in Hx as (w1 & Hx & [= -> ->]). rewrite app_nil_r. exists ds.
    eapply (net_step_inv _ _ _ _ i (with_incoming d) [d]); [done|done|done| |done].
    intros j. rewrite (keyed_delete _ k _ _ E). apply Permutation_app_tail. unfold keyed. cbn.
    destruct (decide (i = j)) as [<-|Hne]; [by rewrite decide_True|]. rewrite decide_False; [done|].
    rewrite <- Ht. by intros ?%(inj _).
  - apply fmap_Some in Hx as (w1 & Hx & [= -> ->]). rewrite app_nil_r. exists ds.
    eapply (net_step_inv _ _ _ _ i disconnected [] (down_mix w)); [done|done| |intros j; by case_decide|by destruct w].
    intros t. split_and!; [done|done|]. by rewrite app_nil_r.
Qed.

Lemma nrun_inv cs os ds cs' w os' w' :
  net_inv cs os ds w → nrun pr tag_of accept cs' w = Some (os', w') →
  ∃ ds', net_inv (cs ++ cs') (os ++ os') ds' w'.
Proof.
  revert cs os ds w os'. induction cs' as [|c cs' IH]; intros cs os ds w os' Hn Hx; cbn [nrun] in Hx.
  - injection Hx as <- <-. rewrite !app_nil_r. by exists ds.
  - apply bind_Some in Hx as ([o w1] & Hx & Hr). apply bind_Some in Hr as ([os1 w2] & Hr & [= <- <-]).
    destruct (nexec_inv _ _ _ _ _ _ _ Hn Hx) as (ds1 & Hn1).
    destruct (IH _ _ _ _ _ Hn1 Hr) as (ds2 & Hn2). exists ds2. by rewrite <- !app_assoc in Hn2.
Qed.

Lemma start_inv w :
  Forall (λ t, Nym.outgoing t = [] ∧ Nym.incoming t = []) subs → start pr subs now = Some w → net_inv [] [] [] w.
Proof.
  intros Hs Hx. apply bind_Some in Hx as (fs & Hfs & [= <-]). apply mapM_Some in Hfs.
  split; cbn.
  - apply gateway0_inv.
  - symmetry. by eapply Forall2_length.
  - intros i f Hi. destruct (Forall2_lookup_r _ _ _ _ _ Hfs Hi) as (t & Ht & Hf).
    apply bind_Some in Hf as (depth & _ & [= <-]). pose proof (Forall_lookup_1 _ _ _ _ Hs Ht) as [Ho _].
    split; cbn.
    + exists t, (Z.to_nat depth), []. split_and!; [done|apply front_ok_new|].
      apply flow_nil.
    + rewrite Ho. apply flow_nil.
  - by intros s.
Qed.
End Invariant.

(** ** What a run comes to. *)
Lemma seen_sender tag_of ds w i : Nym.gw_inv ds (gw w) → seen tag_of w i = Nym.from_sender (tag_of i) ds.
Proof.
  intros Hg. unfold seen, socket_of. destruct (_ !! _) eqn:E; [by apply (Nym.gi_flow _ _ Hg)|].
  symmetry. by apply (Nym.gi_none _ _ Hg).
Qed.

Lemma from_sender_all t at_ ds ms : Nym.from_sender t (ds ++ ((λ m, (m, at_)) <$> ms)) = Nym.from_sender t ds ++ tagged t ms.
Proof.
  unfold Nym.from_sender, tagged. rewrite omap_app. f_equal.
  induction ms as [|m ms IH]; [done|]. cbn. case_decide; cbn; [by f_equal|done].
Qed.

(** As many turns as messages have arrived hand all of them on. *)
Lemma turns_drain pr tag_of accept at_ ds w :
  Nym.gw_inv ds (gw w) → over w = false →
  ∃ w', nrun pr tag_of accept (replicate (length (arrived w)) (Turn true at_)) w = Some ([], w') ∧
    Nym.gw_inv (ds ++ ((λ m, (m, at_)) <$> arrived w)) (gw w') ∧ arrived w' = [].
Proof.
  remember (arrived w) as ms eqn:E. revert ds w E. induction ms as [|m ms IH]; intros ds w E Hg Ho.
  - exists w. rewrite app_nil_r. done.
  - destruct (handle_message_inv pr accept ds m at_ _ Hg) as (g' & Hh & Hg').
    destruct (IH (ds ++ [(m, at_)]) (set_gw ms g' false w)) as (w' & Hr & Hg2 & Ha); [done..|].
    exists w'. split_and!; [|by rewrite <- app_assoc in Hg2|done].
    cbn [length replicate nrun nexec]. unfold turn. rewrite Ho, <- E, Hh. cbn [fmap option_fmap option_map mbind option_bind].
    by rewrite Hr.
Qed.

(** The loop returns only when a socket call fails or the client is shut down; then nothing more is
    handed on, for no client. *)
Lemma nexec_over pr tag_of accept c w o w' :
  nexec pr tag_of accept c w = Some (o, w') →
  (over w = false → harmless c = true → over w' = false) ∧
  (over w = true → over w' = true ∧ Nym.forwarded (gw w') = Nym.forwarded (gw w) ∧ Nym.socks (gw w') = Nym.socks (gw w)).
Proof.
  intros Hx. destruct c as [i c|k|k|m|b at_|s c|s| |k|i k|i]; cbn [nexec] in Hx.
  - apply bind_Some in Hx as (f & _ & Hx). apply bind_Some in Hx as (r & _ & [= <- <-]). done.
  - by destruct (up_mix w !! k); simplify_eq/=.
  - by destruct (up_mix w !! k) as [[? ?]|]; simplify_eq/=.
  - by destruct (stray _ _ _); simplify_eq/=.
  - apply fmap_Some in Hx as (w1 & Hx & [= -> ->]). unfold turn in Hx.
    destruct (over w); [done|]. split; [|done]. destruct (arrived w) as [|m q]; [done|]. injection Hx as <-.
    destruct b; [intros _ _|done]. destruct (Nym.handle_message _ _ _ _ _ _) eqn:E; [done|by apply handle_Err in E].
  - apply fmap_Some in Hx as (w1 & Hx & [= -> ->]). apply bind_Some in Hx as (p & _ & Hx).
    apply bind_Some in Hx as (r & _ & [= <-]). done.
  - by destruct (_ !! s); simplify_eq/=.
  - by destruct (over w); simplify_eq/=.
  - by destruct (down_mix w !! k); simplify_eq/=.
  - destruct (down_mix w !! k) as [[t d]|]; [|done]. case_decide; [|done].
    apply fmap_Some in Hx as (w1 & Hx & [= -> ->]). apply bind_Some in Hx as (f & _ & [= <-]). done.
  - apply fmap_Some in Hx as (w1 & Hx & [= -> ->]). apply bind_Some in Hx as (f & _ & [= <-]). done.
Qed.

Lemma nrun_running pr tag_of accept cs w os w' :
  nrun pr tag_of accept cs w = Some (os, w') → over w = false → lossless cs → over w' = false.
Proof.
  revert w os. induction cs as [|c cs IH]; intros w os Hx Ho Hl; cbn [nrun] in Hx; [by injection Hx as <- <-|].
  apply bind_Some in Hx as ([o w1] & Hx & Hr). apply bind_Some in Hr as ([os1 w2] & Hr & [= <- <-]).
  inversion Hl; subst. eapply IH; [exact Hr| |done]. by apply (proj1 (nexec_over _ _ _ _ _ _ _ Hx)).
Qed.

(** One failed [bind] or [connect] ends the gateway for every client. *)
Theorem returned_is_final pr tag_of accept cs w os w' :
  over w = true → nrun pr tag_of accept cs w = Some (os, w') →
  over w' = true ∧ ∀ i, seen tag_of w' i = seen tag_of w i.
Proof.
  revert w os. induction cs as [|c cs IH]; intros w os Ho Hx; cbn [nrun] in Hx; [by injection Hx as <- <-|].
  apply bind_Some in Hx as ([o w1] & Hx & Hr). apply bind_Some in Hr as ([os1 w2] & Hr & [= <- <-]).
  destruct (proj2 (nexec_over _ _ _ _ _ _ _ Hx) Ho) as (Ho1 & Hf & Hs). destruct (IH _ _ Ho1 Hr) as [Ho2 Hseen].
  split; [done|]. intros i. rewrite Hseen. unfold seen, socket_of, Nym.on_socket. by rewrite Hs, Hf.
Qed.

Section Accounts.
Variable tag_of : nat → nat.
Context `{!Inj (=) (=) tag_of}.
Variables (accept : nat → bytes → option string) (subs : list NymSubstrate) (now : Z).

(** What arrived on the gateway's socket of a client. *)
Definition answers (w : world) (i : nat) (cs : list ncmd) : list (SocketAddr * bytes) :=
  match socket_of tag_of w i with Some s => answered s cs | None => [] end.

Lemma account_up cs os ds w i f t0 :
  Forall (λ t, Nym.outgoing t = [] ∧ Nym.incoming t = []) subs →
  net_inv tag_of accept subs now cs os ds w → clients w !! i = Some f → subs !! i = Some t0 →
  ∃ lost, Permutation ((λ x, buffered x.2) <$> dialled i cs) (seen tag_of w i ++ lost ++ under_way tag_of w i f) ∧
    (lossless cs → takes_all t0 → pump_alive (sub (fpipe f)) = true → lost = []).
Proof.
  intros Hs Hn Hf Ht. destruct (ni_clients _ _ _ _ _ _ _ _ Hn _ _ Hf) as [(t0' & n & got & Ht' & Hfo & _) (gone & Hp & Hz)].
  simplify_eq. destruct (Forall_lookup_1 _ _ _ _ Hs Ht) as [Ho _].
  destruct (duplex_out _ _ _ _ _ _ _ (fo_pipe _ _ _ _ _ _ _ Hfo)) as (_ & no & Hno & Hnz); [by cbn; rewrite Ho|].
  rewrite (seen_sender _ _ _ _ (ni_gw _ _ _ _ _ _ _ _ Hn)). exists (gone ++ no). split.
  - rewrite Hno, Hp. unfold under_way. solve_Permutation.
  - intros Hl Hta Hpa. by rewrite (Hz Hl), (Hnz Hta Hpa).
Qed.

Lemma account_down cs os ds w i f t0 :
  Forall (λ t, Nym.outgoing t = [] ∧ Nym.incoming t = []) subs →
  net_inv tag_of accept subs now cs os ds w → clients w !! i = Some f → subs !! i = Some t0 →
  ∃ lost, Permutation ((λ x, buffered x.2) <$> answers w i cs) ((snd <$> keyed i os) ++ lost ++ coming_back tag_of w i f) ∧
    (lossless cs → (∀ d, accept (tag_of i) d = None) →
     (∀ p, reply_pump tag_of w i = Some p → pump_alive (sub p) = true) → lost = []).
Proof.
  intros Hs Hn Hf Ht. destruct (ni_clients _ _ _ _ _ _ _ _ Hn _ _ Hf) as [(t0' & n & got & Ht' & Hfo & gone & Hp & Hz) _].
  simplify_eq. destruct (Forall_lookup_1 _ _ _ _ Hs Ht) as [_ Hi].
  pose proof (duplex_in _ _ _ _ _ _ _ (fo_pipe _ _ _ _ _ _ _ Hfo) Hi) as Hgot. rewrite Hgot in Hp.
  assert (∃ no, Permutation ((λ x, buffered x.2) <$> answers w i cs)
      (replied tag_of w i ++ no ++ match reply_pump tag_of w i with Some p => waiting p | None => [] end) ∧
    ((∀ d, accept (tag_of i) d = None) → (∀ p, reply_pump tag_of w i = Some p → pump_alive (sub p) = true) → no = []))
    as (no & Hno & Hnz).
  { unfold answers, replied, reply_pump. destruct (socket_of tag_of w i) as [s|] eqn:Es; cbn [mbind option_bind]; [|by exists []].
    destruct (Nym.gi_pump _ _ (ni_gw _ _ _ _ _ _ _ _ Hn) _ _ Es) as (p & Hpu & Htag).
    pose proof (ni_pumps _ _ _ _ _ _ _ _ Hn s) as Hps. rewrite Hpu in *.
    destruct Hps as (t & n' & at_ & outs & Hsk & Hd).
    assert (t = tag_of i) as -> by (by eapply (Nym.gi_inj _ _ (ni_gw _ _ _ _ _ _ _ _ Hn))).
    destruct (duplex_out _ _ _ _ _ _ _ Hd eq_refl) as (_ & no & Hno & Hnz). exists no. split; [exact Hno|].
    intros Hacc Hal. apply Hnz; [|by apply Hal]. intros d. cbn. unfold Nym.reply_try_send. cbn. by rewrite Hacc. }
  exists (gone ++ no). split.
  - rewrite Hno, Hp. unfold coming_back. solve_Permutation.
  - intros Hl Hacc Hal. by rewrite (Hz Hl), (Hnz Hacc Hal).
Qed.
End Accounts.

(** A reader that has failed (a connected socket reports [ECONNREFUSED]) never
    reads again, and its socket stays its client's: whatever the server answers
    from then on is left in the socket. *)
Lemma nexec_deaf tag_of accept subs now pr cs os ds c w o w' s t p :
  net_inv tag_of accept subs now cs os ds w → nexec pr tag_of accept c w = Some (o, w') →
  s ∈ deaf w → Nym.socks (gw w) !! t = Some s → Nym.pumps (gw w) !! s = Some p →
  s ∈ deaf w' ∧ Nym.socks (gw w') !! t = Some s ∧
  ∃ p', Nym.pumps (gw w') !! s = Some p' ∧ inbox p' = inbox p ++ answered s [c].
Proof.
  intros Hn Hx Hd Ht Hp. assert (silent c = true → ∃ p', Some p = Some p' ∧ inbox p' = inbox p ++ answered s [c]) as Hq.
  { intros Hc. exists p. by rewrite (silent_answered _ _ Hc), app_nil_r. }
  destruct c as [i c|k|k|m|b at_|s' c|s'| |k|i k|i]; cbn [nexec] in Hx.
  - apply bind_Some in Hx as (f & _ & Hx). apply bind_Some in Hx as (r & _ & [= <- <-]).
    split_and!; [done..|]. exists p. cbn. by rewrite app_nil_r.
  - destruct (up_mix w !! k); [|done]. injection Hx as <- <-. cbn. rewrite Hp. auto.
  - destruct (up_mix w !! k) as [[? ?]|]; [|done]. injection Hx as <- <-. cbn. rewrite Hp. auto.
  - destruct (stray _ _ _); [|done]. injection Hx as <- <-. cbn. rewrite Hp. auto.
  - apply fmap_Some in Hx as (w1 & Hx & [= -> ->]). unfold turn in Hx.
    destruct (over w); [done|]. destruct (arrived w) as [|m q]; [done|]. injection Hx as <-.
    destruct (Nym.handle_message _ _ _ _ _ _) as [g'|e] eqn:E; [|by cbn; rewrite Hp; auto].
    pose proof (fresh_socket _ _ _ _ (ni_gw _ _ _ _ _ _ _ _ Hn) (ni_pumps _ _ _ _ _ _ _ _ Hn)) as Hf.
    destruct (handle_Ok _ _ _ _ _ _ _ E) as [_ [[Es Ep]|(t' & n & Ht' & Es & Ep)]]; cbn; rewrite Es, Ep.
    + rewrite Hp. auto.
    + rewrite !lookup_insert_ne by congruence. rewrite Hp. auto.
  - apply fmap_Some in Hx as (w1 & Hx & [= -> ->]). apply bind_Some in Hx as (p0 & Hp0 & Hx).
    destruct (replying w s' c) eqn:Hr; [|done].
    apply bind_Some in Hx as ([[src o'] p'] & Hx & [= <-]). cbn. rewrite app_nil_r. split_and!; [done..|].
    destruct (decide (s' = s)) as [->|Hne].
    + rewrite lookup_insert_eq. exists p'. split; [done|]. rewrite Hp in Hp0. injection Hp0 as <-.
      destruct c as [a d|at_| |c]; cbn in Hr.
      * by injection Hx as <- <- <-.
      * by apply bool_decide_eq_true in Hr.
      * done.
      * cbn in Hx. destruct (internal c); [|done]. apply bind_Some in Hx as ([? ?] & _ & [= <- <- <-]).
        cbn. by rewrite app_nil_r.
    + rewrite lookup_insert_ne by done. exists p. by rewrite app_nil_r.
  - destruct (_ !! s'); [|done]. injection Hx as <- <-. cbn. rewrite Hp. split; [set_solver|auto].
  - destruct (over w); [done|]. injection Hx as <- <-. cbn. rewrite Hp. auto.
  - destruct (down_mix w !! k); [|done]. injection Hx as <- <-. cbn. rewrite Hp. auto.
  - destruct (down_mix w !! k) as [[? d]|]; [|done]. case_decide; [|done].
    apply fmap_Some in Hx as (w1 & Hx & [= -> ->]). apply bind_Some in Hx as (f & _ & [= <-]). cbn. rewrite Hp. auto.
  - apply fmap_Some in Hx as (w1 & Hx & [= -> ->]). apply bind_Some in Hx as (f & _ & [= <-]). cbn. rewrite Hp. auto.
Qed.

Theorem failed_reader_is_not_replaced tag_of `{!Inj (=) (=) tag_of} accept subs now pr cs os ds cs' w os' w' s t p :
  net_inv tag_of accept subs now cs os ds w → nrun pr tag_of accept cs' w = Some (os', w') →
  s ∈ deaf w → Nym.socks (gw w) !! t = Some s → Nym.pumps (gw w) !! s = Some p →
  Nym.socks (gw w') !! t = Some s ∧ ∃ p', Nym.pumps (gw w') !! s = Some p' ∧ inbox p' = inbox p ++ answered s cs'.
Proof.
  revert cs os ds w os' p. induction cs' as [|c cs' IH]; intros cs os ds w os' p Hn Hx Hd Ht Hp; cbn [nrun] in Hx.
  - injection Hx as <- <-. split; [done|]. exists p. by rewrite app_nil_r.
  - apply bind_Some in Hx as ([o w1] & Hx & Hr). apply bind_Some in Hr as ([os1 w2] & Hr & [= <- <-]).
    destruct (nexec_deaf _ _ _ _ _ _ _ _ _ _ _ _ _ _ _ Hn Hx Hd Ht Hp) as (Hd1 & Ht1 & p1 & Hp1 & Hi1).
    destruct (nexec_inv _ _ _ _ _ _ _ _ _ _ _ _ Hn Hx) as (ds1 & Hn1).
    destruct (IH _ _ _ _ _ _ Hn1 Hr Hd1 Ht1 Hp1) as (Ht2 & p2 & Hp2 & Hi2). split; [done|].
    exists p2. split; [done|]. rewrite Hi2, Hi1, <- app_assoc. f_equal. symmetry. apply (bind_app _ [c]).
Qed.

(** C37: QUIC over Nym, end to end.  Clients' fronts, the mixnet (which may hold,
    reorder or lose a message, and carries others' messages too), the gateway's
    loop and the reply pump of each of its sockets run in any interleaving.  No
    two clients share a socket of the gateway.  Every datagram that arrived at a
    client's front has been handed to that client's socket towards the server, is
    on its way, or was lost; every answer that arrived on that socket has been put
    out by that client's front, is on its way back (where the answers of a reply
    pump whose reader failed stay), or was lost; nobody else's datagram is
    ever among them, and the front puts out only to addresses that dialled it.
    Nothing is lost unless the mix loses it, a socket call of the gateway's loop
    fails, the SDK refuses a message or a boundary's pump is torn down.  The loop
    runs on while no socket call fails and its client is not shut down, and as
    many turns as messages have arrived hand all of them to their sockets. *)
Theorem nym_path_end_to_end pr tag_of accept subs now w0 cs os w at_ :
  Inj (=) (=) tag_of →
  Forall (λ t, Nym.outgoing t = [] ∧ Nym.incoming t = []) subs →
  start pr subs now = Some w0 → nrun pr tag_of accept cs w0 = Some (os, w) →
  (∀ i j s, socket_of tag_of w i = Some s → socket_of tag_of w j = Some s → i = j) ∧
  (∀ i f t0, clients w !! i = Some f → subs !! i = Some t0 →
     (∃ lost, Permutation ((λ x, buffered x.2) <$> dialled i cs) (seen tag_of w i ++ lost ++ under_way tag_of w i f) ∧
        (lossless cs → takes_all t0 → pump_alive (sub (fpipe f)) = true → lost = [])) ∧
     (∃ lost, Permutation ((λ x, buffered x.2) <$> answers tag_of w i cs)
          ((snd <$> keyed i os) ++ lost ++ coming_back tag_of w i f) ∧
        (lossless cs → (∀ d, accept (tag_of i) d = None) →
         (∀ p, reply_pump tag_of w i = Some p → pump_alive (sub p) = true) → lost = [])) ∧
     (∀ x a, x ∈ keyed i os → x.1 = Some a → a ∈ (dialled i cs).*1)) ∧
  (lossless cs → over w = false) ∧
  (over w = false → ∃ w', nrun pr tag_of accept (replicate (length (arrived w)) (Turn true at_)) w = Some ([], w') ∧
     arrived w' = [] ∧ ∀ i, seen tag_of w' i = seen tag_of w i ++ tagged (tag_of i) (arrived w)).
Proof.
  intros Hinj Hs Hst Hr. destruct (nrun_inv pr tag_of accept subs now _ _ _ _ _ _ _ (start_inv _ _ accept _ _ _ Hs Hst) Hr)
    as (ds & Hn). cbn [app] in Hn. pose proof (ni_gw _ _ _ _ _ _ _ _ Hn) as Hg. split_and!.
  - intros i j s Hi Hj. by apply (inj tag_of), (Nym.gi_inj _ _ Hg _ _ s).
  - intros i f t0 Hf Ht. split_and!; [by eapply account_up|by eapply account_down|].
    destruct (ni_clients _ _ _ _ _ _ _ _ Hn _ _ Hf) as [(? & ? & ? & _ & Hfo & _) _]. exact (fo_dest _ _ _ _ _ _ _ Hfo).
  - apply bind_Some in Hst as (fs & _ & [= <-]). by apply (nrun_running _ _ _ _ _ _ _ Hr).
  - intros Ho. destruct (turns_drain pr tag_of accept at_ _ _ Hg Ho) as (w' & Hrun & Hg' & Ha). exists w'.
    split_and!; [done..|]. intros i.
    by rewrite (seen_sender _ _ _ _ Hg'), (seen_sender _ _ _ _ Hg), from_sender_all.
Qed.

(** Two clients: the second's message overtakes the first's in the mix, the
    server answers both, and a stranger's message goes to a socket of its own. *)
Definition demo_nym : NymSubstrate := Nym.mkNym (bs "gw") 5 (λ _, None) [] [] false Nym.nym_oracle.
Definition demo_server : SocketAddr := SA4 (V4 127 0 0 1) 4433.
Definition demo_nym_steps : list ncmd :=
  [OfClient 0 (PArrive demo_peer (bs "one")); OfClient 0 (PIn 5);
   OfClient 0 (PSub (CTake 7)); OfClient 0 (PSub (CBegin 7)); OfClient 0 (PSub (CSendPump 8));
   OfClient 1 (PArrive demo_peer (bs "two")); OfClient 1 (PIn 5);
   OfClient 1 (PSub (CTake 7)); OfClient 1 (PSub (CBegin 7)); OfClient 1 (PSub (CSendPump 8));
   DeliverUp 1; Turn true 20; Stray (Nym.mkMessage (Some 99%nat) (bs "else")); Turn true 21; DeliverUp 0; Turn true 22;
   OfReply 2 (PArrive demo_server (bs "ack")); OfReply 2 (PIn 30);
   OfReply 2 (PSub (CTake 31)); OfReply 2 (PSub (CBegin 31)); OfReply 2 (PSub (CSendPump 32));
   DeliverDown 0 0; OfClient 0 (PSub CRecvPump); OfClient 0 POut].

Lemma nym_path_end_to_end_witness :
  ∃ w0 os w, start Debug [demo_nym; demo_nym] 0 = Some w0 ∧
    nrun Debug (λ i, i) (λ _ _, None) demo_nym_steps w0 = Some (os, w) ∧
    os = [(0%nat, (Some demo_peer, bs "ack"))] ∧
    (seen (λ i, i) w <$> [0; 1; 99]%nat) = [[bs "one"]; [bs "two"]; [bs "else"]] ∧
    over w = false.
Proof.
  eexists _, _, _. split; [by vm_compute|]. split; [by vm_compute|]. split; [reflexivity|]. split; [by vm_compute|].
  assert (Inj (=) (=) (λ i : nat, i)) as Hi by (by intros i j).
  assert (Forall (λ t, Nym.outgoing t = [] ∧ Nym.incoming t = []) [demo_nym; demo_nym]) as Hs
    by (apply (bool_decide_unpack _); by vm_compute).
  pose proof (λ w0 os w, nym_path_end_to_end Debug (λ i, i) (λ _ _, None) [demo_nym; demo_nym] 0 w0 demo_nym_steps
    os w 40 Hi Hs) as H.
  edestruct H as (_ & _ & Hover & _); [by vm_compute|by vm_compute|].
  apply Hover. apply (bool_decide_unpack _). by vm_compute.
Defined.
