(* ===== verification/TorPath.v ===== *)
(** * A QUIC datagram over Tor, end to end.

    The parts [front.rs] (the local front), [substrate.rs] (its boundary),
    [tor.rs] (the framed circuit) and [stream_bridge.rs] (the gateway's end)
    composed: what the client's QUIC stack sends to the front, what the bridge
    injects into the gateway's listener, and the way back.  The Tor network is
    the only thing between them: it delivers a prefix of what either side
    writes, in order. *)

From S2P Require Import Mixnets StreamBridge Tor ByteStream.
From S2P Require Import Prelude RustFloat RustStr Core Oracle Client Substrate Net UdpFront.
Open Scope Z_scope.

#[local] Abbreviation circuit_of s := (TorSubstrate.circuit (inner s)).

(** ** What the network does to the client's end of the circuit. *)
Inductive net : Type :=
| Bytes (b : bytes)           (* bytes arrive *)
| End (e : io_error)          (* the read half ends *)
| Break (e : io_error).       (* the write half breaks *)

Definition arriving (n : net) : bytes := match n with Bytes b => b | _ => [] end.

Definition with_circuit (c : StreamDatagram.t) (s : TorSubstrate.t) : TorSubstrate.t :=
  TorSubstrate.mk c (TorSubstrate.own_daemon s).

Definition wire (n : net) (s : TorSubstrate.t) : option TorSubstrate.t :=
  let c := TorSubstrate.circuit s in
  let r := StreamDatagram.read c in
  let w := StreamDatagram.write c in
  let o := StreamDatagram.sd_oracle c in
  match n, ended r with
  | Bytes b, None => Some (with_circuit (StreamDatagram.mk (mkReader (avail r ++ b) None) w o) s)
  | End e, None => Some (with_circuit (StreamDatagram.mk (mkReader (avail r) (Some e)) w o) s)
  | Break e, _ => Some (with_circuit (StreamDatagram.mk r (mkWriter (written w) (Some e)) o) s)
  | _, _ => None
  end.

(** The front's own steps, and the network's. *)
Inductive tcmd : Type := Local (c : pcmd TorSubstrate.t) | Net (n : net).

Definition command (c : tcmd) (f : front TorSubstrate.t) : option (pcmd TorSubstrate.t) :=
  match c with
  | Local (PSub (CInner _)) => None
  | Local c => Some c
  | Net n => t ← wire n (inner (sub (fpipe f))); Some (PSub (CInner t))
  end.

Fixpoint trun (cs : list tcmd) (f : front TorSubstrate.t) :
    option (list (option SocketAddr * bytes) * front TorSubstrate.t) :=
  match cs with
  | [] => Some ([], f)
  | c :: cs =>
      pc ← command c f;
      '(o, f) ← fexec pc f; '(os, f) ← trun cs f;
      Some (match o with Some x => [x] | None => [] end ++ os, f)
  end.

(** Datagrams that reached the front's socket, and bytes the circuit brought. *)
Definition dialled (cs : list tcmd) : list (SocketAddr * bytes) :=
  cs ≫= λ c, match c with Local (PArrive a d) => [(a, d)] | _ => [] end.
Definition brought (cs : list tcmd) : bytes :=
  cs ≫= λ c, match c with Net n => arriving n | _ => [] end.

(** ** The circuit as the boundary drives it. *)
Record wire_inv (hdr : bytes) (got : bytes) (tr : list obs) (s : Substrate TorSubstrate.t) : Prop := {
  wi_out : written (StreamDatagram.write (circuit_of s)) = hdr ++ frames (sent_ok tr);
  wi_all : broken (StreamDatagram.write (circuit_of s)) = None → sent_ok tr = h_dg <$> handed tr;
  wi_order : sent_ok tr `prefix_of` (h_dg <$> handed tr);
  wi_in : ∃ rest, got = frames (read_ok tr) ++ rest ∧
            (reading_ended s = false → rest = avail (StreamDatagram.read (circuit_of s)));
  wi_fits : Forall fits (read_ok tr);
}.

Lemma wire_inv_new s n now :
  wire_inv (written (StreamDatagram.write (TorSubstrate.circuit s)))
    (avail (StreamDatagram.read (TorSubstrate.circuit s))) [] (Substrate.new s n now).
Proof. split; cbn; try done; [by rewrite app_nil_r|]. by eexists. Qed.

(** Sending a frame. *)
Lemma tor_send d c :
  Z.of_nat (length d) < 2 ^ 32 →
  match broken (StreamDatagram.write c) with
  | None => StreamDatagram.try_send d c = (Ok (), StreamDatagram.mk (StreamDatagram.read c)
      (mkWriter (written (StreamDatagram.write c) ++ frame d) None) (StreamDatagram.sd_oracle c))
  | Some e => StreamDatagram.try_send d c = (Err (map_io e), c)
  end.
Proof.
  intros Hd. destruct (broken (StreamDatagram.write c)) eqn:Hb; [|by apply try_send_ok].
  destruct c as [r [w b] o]. cbn in Hb. subst b. done.
Qed.

(** Receiving one. *)
Lemma tor_recv_ok c d c' :
  StreamDatagram.try_recv c = Ready (Ok d, c') →
  fits d ∧ avail (StreamDatagram.read c) = frame d ++ avail (StreamDatagram.read c') ∧
  StreamDatagram.write c' = StreamDatagram.write c.
Proof.
  unfold StreamDatagram.try_recv. intros H.
  destruct (read_exact 4 (StreamDatagram.read c)) as [[[len|e] r1]|] eqn:E1; try done.
  apply read_exact_Ok in E1 as (H1 & Hl & _).
  destruct (MAX_FRAME <? _) eqn:Ec; [done|]. pose proof (u32_from_be_bytes_range len Hl) as Hr.
  destruct (read_exact _ r1) as [[[buf|e] r2]|] eqn:E2; try done.
  apply read_exact_Ok in E2 as (H2 & Hb & _). injection H as <- <-.
  unfold in_u in Hr. assert (Z.of_nat (length buf) = u32_from_be_bytes len) as Hn by lia.
  split_and!; [unfold fits; lia| |done]. cbn. unfold frame.
  rewrite Hn, u32_to_from_be_bytes, H1, H2 by done. apply app_assoc.
Qed.

Lemma tor_recv_write c r c' : StreamDatagram.try_recv c = Ready (r, c') → StreamDatagram.write c' = StreamDatagram.write c.
Proof.
  unfold StreamDatagram.try_recv. intros H. repeat case_match; by simplify_eq/=.
Qed.

(** Steps that neither hand over nor read. *)
Lemma wire_inv_quiet hdr got tr o s s' :
  wire_inv hdr got tr s → handed [o] = [] → reads [o] = [] → inner s' = inner s →
  reading_ended s' = reading_ended s → wire_inv hdr got (tr ++ [o]) s'.
Proof.
  intros [Ho Ha Hp Hi Hf] Hh Hr Hin Hre.
  assert (sent_ok [o] = []) as Hs by (unfold sent_ok; by rewrite Hh).
  assert (read_ok [o] = []) as Hrd by (unfold read_ok; by rewrite Hr).
  split; rewrite ?sent_ok_snoc, ?read_ok_snoc, ?handed_snoc, ?Hs, ?Hrd, ?Hh, ?app_nil_r, ?Hin, ?Hre; done.
Qed.

Lemma wire_inv_hand hdr got tr now fin slot d r s s' t :
  wire_inv hdr got tr s → Z.of_nat (length d) < 2 ^ 32 →
  Core.try_send d (inner s) = (r, t) → inner s' = t → reading_ended s' = reading_ended s →
  wire_inv hdr got (tr ++ [OHanded now fin slot d r]) s'.
Proof.
  intros [Ho Ha Hp Hi Hf] Hd Ht Hin Hre. cbn in Ht. unfold TorSubstrate.lift in Ht.
  pose proof (tor_send d (circuit_of s) Hd) as Hsend. cbn in Ht.
  assert (read_ok [OHanded now fin slot d r] = []) as Hrd by done.
  destruct (broken (StreamDatagram.write (circuit_of s))) as [e|] eqn:Eb; rewrite Hsend in Ht; injection Ht as <- <-.
  - assert (sent_ok [OHanded now fin slot d (Err (map_io e))] = []) as Hs by done.
    split; rewrite ?sent_ok_snoc, ?read_ok_snoc, ?Hs, ?Hrd, ?app_nil_r, ?Hre, ?Hin; cbn; try done.
    + by rewrite Eb.
    + rewrite handed_snoc, fmap_app. by apply prefix_app_r.
  - assert (sent_ok [OHanded now fin slot d (Ok ())] = [d]) as Hs by done.
    split; rewrite ?sent_ok_snoc, ?read_ok_snoc, ?Hs, ?Hrd, ?app_nil_r, ?Hre, ?Hin; cbn; try done.
    + rewrite frames_app, app_assoc, Ho. unfold frames at 3. cbn. by rewrite app_nil_r.
    + intros _. rewrite handed_snoc, fmap_app, Ha by done. done.
    + rewrite handed_snoc, fmap_app, Ha by done. done.
Qed.

Lemma wire_inv_read hdr got tr r s s' t :
  wire_inv hdr got tr s → recv_pump s = RpReading → Core.try_recv (inner s) = Ready (r, t) →
  inner s' = t → reading_ended s' = is_err r →
  wire_inv hdr got (tr ++ [ORead r]) s'.
Proof.
  intros [Ho Ha Hp (rest & Hg & Hrest) Hf] Hrp Ht Hin Hre. cbn in Ht.
  destruct (StreamDatagram.try_recv (circuit_of s)) as [[r' c']|] eqn:Er; [|done].
  cbn in Ht. injection Ht as -> <-. pose proof (tor_recv_write _ _ _ Er) as Hw.
  assert (sent_ok [ORead r] = []) as Hs by done.
  assert (rest = avail (StreamDatagram.read (circuit_of s))) as -> by (apply Hrest; unfold reading_ended; by rewrite Hrp).
  split; rewrite ?sent_ok_snoc, ?handed_snoc, ?Hs, ?app_nil_r, ?Hin; cbn; rewrite ?app_nil_r, ?Hw; try done.
  - rewrite read_ok_snoc, Hre. destruct r as [d|e]; cbn.
    + apply tor_recv_ok in Er as (_ & Hav & _). exists (avail (StreamDatagram.read c')). split; [|done].
      rewrite Hg, Hav, frames_app, <- app_assoc. unfold frames at 3. cbn. by rewrite app_nil_r.
    + rewrite app_nil_r. eexists. by split.
  - rewrite read_ok_snoc. apply Forall_app. split; [done|]. destruct r as [d|e]; cbn; [|done].
    apply tor_recv_ok in Er as (Hd & _). by constructor.
Qed.

Lemma wire_inv_exec hdr got tr c o s s' :
  wire_inv hdr got tr s → (∀ t, c ≠ CInner t) → exec c s = Some (o, s') →
  (∀ d, d ∈ h_dg <$> handed [o] → Z.of_nat (length d) < 2 ^ 32) →
  wire_inv hdr got (tr ++ [o]) s'.
Proof.
  intros Hw Hc He Hd. pose proof (exec_effect _ _ _ _ He) as Heff.
  destruct Heff as [called now d Ht Hp Hl|now d e|now d|now enq d q|now enq d m|start fin d r t Ht Hp Hs
    |r t rp q m Hrp Hr -> Hroom|r Hrp Hroom|r q Hq|Hq Hrp|p|t|].
  1-5: by eapply wire_inv_quiet.
  - eapply wire_inv_hand; [done| |exact Hs|done|done]. apply Hd. cbn. set_solver.
  - eapply wire_inv_read; [done|done|exact Hr|done|].
    destruct Hroom as [(_ & _ & ->)|(_ & _ & ->)]; cbn; by destruct r.
  - eapply wire_inv_quiet; try done. cbn. unfold reading_ended. rewrite Hrp. by destruct r.
  - by eapply wire_inv_quiet.
  - by eapply wire_inv_quiet.
  - by eapply wire_inv_quiet.
  - eapply wire_inv_quiet; try done. by apply (silent_inner c).
  - by eapply wire_inv_quiet.
Qed.

(** ** Runs of the front over the circuit. *)
Lemma buffered_length d : (length (buffered d) ≤ Z.to_nat 65535)%nat.
Proof. unfold buffered. rewrite length_take. lia. Qed.

Lemma wire_inv_extends hdr got t0 n now arr outs p tr tr' s :
  pipe_inv (Substrate.new t0 n now) arr outs p tr' → wire_inv hdr got tr s →
  extends None tr tr' s (sub p) → wire_inv hdr got tr' (sub p).
Proof.
  intros Hinv Hw [[-> ->]|(c & o & -> & He & Hc)]; [done|].
  destruct (pipe_inv_order _ _ _ _ _ _ _ Hinv) as [Ho _].
  eapply wire_inv_exec; [done| |exact He|].
  - intros t Ht. by specialize (Hc t Ht).
  - intros d Hd. assert (d ∈ (λ x : SocketAddr * bytes, buffered x.2) <$> arr) as Hin.
    { rewrite <- Ho, handed_snoc, fmap_app. set_solver. }
    apply list_elem_of_fmap in Hin as (x & -> & _). pose proof (buffered_length x.2). lia.
Qed.

Lemma wire_Some n s t :
  wire n s = Some t →
  let c := TorSubstrate.circuit s in let c' := TorSubstrate.circuit t in
  written (StreamDatagram.write c') = written (StreamDatagram.write c) ∧
  (broken (StreamDatagram.write c') = None → broken (StreamDatagram.write c) = None) ∧
  avail (StreamDatagram.read c') = avail (StreamDatagram.read c) ++ arriving n.
Proof.
  unfold wire. destruct n; repeat case_match; intros; simplify_eq/=; by rewrite ?app_nil_r.
Qed.

Lemma wire_inv_net hdr got tr n t (p : pipe TorSubstrate.t) :
  wire_inv hdr got tr (sub p) → wire n (inner (sub p)) = Some t →
  wire_inv hdr (got ++ arriving n) (tr ++ [OSilent]) (sub (at_inner t p)).
Proof.
  intros [Ho Ha Hp (rest & Hg & Hrest) Hf] (Hw & Hb & Hav)%wire_Some.
  assert (sent_ok [OSilent] = []) as Hs by done. assert (read_ok [OSilent] = []) as Hr by done.
  split; rewrite ?sent_ok_snoc, ?read_ok_snoc, ?handed_snoc, ?Hs, ?Hr, ?app_nil_r; cbn; try done.
  - by rewrite Hw.
  - intros H%Hb. by apply Ha.
  - exists (rest ++ arriving n). rewrite Hg, <- app_assoc. split; [done|].
    change (reading_ended (set_recv ?s _ _ _ _)) with (reading_ended s).
    intros Hre%Hrest. by rewrite Hav, Hre.
Qed.

Lemma trun_inv hdr t0 n now cs f os f' arr outs got tr :
  pipe_inv (Substrate.new t0 n now) arr outs (fpipe f) tr → wire_inv hdr got tr (sub (fpipe f)) →
  trun cs f = Some (os, f') →
  ∃ tr', pipe_inv (Substrate.new t0 n now) (arr ++ dialled cs) (outs ++ os) (fpipe f') tr' ∧
    wire_inv hdr (got ++ brought cs) tr' (sub (fpipe f')).
Proof.
  unfold dialled, brought.
  revert f os arr outs got tr. induction cs as [|c cs IH]; intros f os arr outs got tr Hp Hw Hrun.
  { injection Hrun as <- <-. rewrite !app_nil_r. eauto. }
  cbn [trun] in Hrun. apply bind_Some in Hrun as (pc & Hc & Hrun).
  apply bind_Some in Hrun as ([o f1] & Hx & Hrun). apply bind_Some in Hrun as ([os1 f2] & Hrun & [= <- <-]).
  unfold fexec in Hx. apply bind_Some in Hx as ([[src o'] p] & Hx & [= -> <-]).
  rewrite !bind_cons, !app_assoc. destruct c as [c|nt]; cbn in Hc.
  - assert (pc = c ∧ foreign pc = None ∧ arrival pc = match c with PArrive a d => [(a, d)] | _ => [] end)
      as (-> & Hfo & Harr) by (by destruct c as [| | |[]]; simplify_eq/=).
    destruct (pexec_inv _ _ _ _ _ _ _ _ _ _ Hp Hx) as ((tr1 & Hp1 & Hext) & _ & _).
    rewrite Hfo in Hext. rewrite Harr in Hp1. rewrite app_nil_r.
    apply (IH (mkFront p (learn (peer f) src)) os1 _ _ _ tr1 Hp1); [|exact Hrun].
    by eapply wire_inv_extends.
  - apply bind_Some in Hc as (t & Ht & [= <-]). cbn in Hx. injection Hx as <- <- <-.
    rewrite !app_nil_r. apply (IH (mkFront (at_inner t (fpipe f)) (learn (peer f) None)) os1 _ _ _ (tr ++ [OSilent]));
      [by apply pipe_inv_net|by apply wire_inv_net|exact Hrun].
Qed.

(** What the writing loop takes off the boundary goes to the peer known then;
    once known it stays known, so discards come first. *)
Lemma pexec_dest {T} `{MixTransport T} dest c p src x p' :
  pexec (T:=T) dest c p = Some (src, Some x, p') → x.1 = dest.
Proof.
  destruct c; cbn [pexec]; intros Hx; simplify_eq/=.
  - case_match; [done|]. by apply bind_Some in Hx as ([? ?] & _ & [=]).
  - apply bind_Some in Hx as ([o q] & Ho & [= <- -> <-]). unfold out_turn in Ho. by repeat case_match; simplify_eq/=.
  - case_match; [|done]. by apply bind_Some in Hx as ([? ?] & _ & [=]).
Qed.

Lemma trun_discards cs f os f' :
  trun cs f = Some (os, f') →
  ∃ n, Forall (λ x, x.1 = None) (take n os) ∧ Forall (λ x, x.1 ≠ None) (drop n os) ∧ (is_Some (peer f) → n = 0%nat).
Proof.
  revert f os. induction cs as [|c cs IH]; intros f os Hrun.
  { injection Hrun as <- <-. exists 0%nat. by repeat constructor. }
  cbn [trun] in Hrun. apply bind_Some in Hrun as (pc & _ & Hrun).
  apply bind_Some in Hrun as ([o f1] & Hx & Hrun). apply bind_Some in Hrun as ([os1 f2] & Hrun & [= <- <-]).
  unfold fexec in Hx. apply bind_Some in Hx as ([[src o'] p] & Hx & [= -> <-]).
  destruct (IH _ _ Hrun) as (n & H1 & H2 & H3). cbn [peer] in H3.
  assert (is_Some (peer f) → n = 0%nat) as H0 by (intros Hp; apply H3; by destruct src).
  destruct o as [x|]; [|by exists n]. pose proof (pexec_dest _ _ _ _ _ _ Hx) as Hd. cbn [app].
  destruct (peer f) as [a|] eqn:E.
  - exists 0%nat. rewrite (H0 ltac:(done)) in H2. split_and!; [constructor| |done]. constructor; [by rewrite Hd|done].
  - exists (S n). cbn. split_and!; [by constructor|done|by intros []].
Qed.

(** ** Both ends together. *)
Lemma frame_prefix a b x y :
  fits a → fits b → frame a ++ x `prefix_of` frame b ++ y → a = b ∧ x `prefix_of` y.
Proof.
  intros Ha Hb [k Hk]. unfold frame in Hk. rewrite <- !app_assoc in Hk.
  apply app_inj_1 in Hk as [Hh Ht]; [|by rewrite !u32_to_be_bytes_length].
  apply (f_equal u32_from_be_bytes) in Hh. rewrite !frame_header in Hh by auto using fits_u32.
  apply app_inj_1 in Ht as [-> Ht]; [|lia]. split; [done|by exists k].
Qed.

Lemma frames_prefix ks rs :
  Forall fits ks → Forall fits rs → frames ks `prefix_of` frames rs → ks `prefix_of` rs.
Proof.
  intros Hk. revert rs. induction Hk as [|a ks Ha _ IH]; intros rs Hrs Hp; [by exists rs|].
  destruct Hrs as [|b rs Hb Hrs]; rewrite ?frames_cons in Hp.
  - apply prefix_nil_inv, (f_equal length) in Hp. rewrite length_app, frame_length in Hp. cbn in Hp. lia.
  - apply frame_prefix in Hp as [-> Hp]; [|done..]. by apply prefix_cons, IH.
Qed.

Lemma prefix_omap {A B} (f : A → option B) l k : l `prefix_of` k → omap f l `prefix_of` omap f k.
Proof. intros [r ->]. rewrite omap_app. by apply prefix_app_r. Qed.

(** What leaves the boundary is what was read. *)
Lemma returned_prefix (t0 : TorSubstrate.t) n now tr s :
  steps (Substrate.new t0 n now) tr s → omap result_ok (returned tr) `prefix_of` read_ok tr.
Proof. intros Hst. unfold read_ok. rewrite (reads_accounted _ _ _ _ _ Hst). by apply prefix_app_r. Qed.

(** C14: QUIC over Tor, end to end.  The client sends datagrams to the front of
    a circuit; boundary, framing, the Tor network and the gateway's bridge run
    in any interleaving.  Let every datagram be non-empty and at most 1 MiB, every
    reply at most 65535 bytes, and every UDP send of the bridge succeed.  Then,
    whatever prefix of the written stream has reached the bridge, what it injects
    into the gateway's listener is a prefix of what the client sent, unchanged
    and in order; and once the front is idle, its circuit unbroken and the stream
    has arrived, enough turns of a bridge still running inject all of it.  On the
    way back, whatever prefix of the bridge's output has come back, the front
    takes off its boundary a prefix of the gateway's replies; those it took
    before a client had sent anything are discarded, and every later one is put
    out on its socket, in order. *)
Theorem tor_path_end_to_end pr s now f0 f cs os p q e send rs sched :
  spawn_substrate_front pr s now = Some f0 → trun cs f0 = Some (os, f) →
  Forall carried ((λ x, buffered x.2) <$> dialled cs) →
  (∀ d, send d = true) → Forall (λ d, (length d ≤ Z.to_nat 65535)%nat) rs →
  written (StreamDatagram.write (circuit_of (sub (fpipe f)))) =
    written (StreamDatagram.write (TorSubstrate.circuit s)) ++ p ++ q →
  let '(c, running) := handle (mkReader p e) (mkWriter [] None) send (Ok <$> rs) sched in
  injected c `prefix_of` ((λ x, buffered x.2) <$> dialled cs) ∧
  (send_q (sub (fpipe f)) = [] → pump_state (sub (fpipe f)) = SpIdle → pump_alive (sub (fpipe f)) = true → loop (fpipe f) = Receiving →
   inbox (fpipe f) = [] → broken (StreamDatagram.write (circuit_of (sub (fpipe f)))) = None →
   q = [] → running = true → (length (dialled cs) ≤ polls true sched)%nat →
   injected c = (λ x, buffered x.2) <$> dialled cs) ∧
  (avail (StreamDatagram.read (TorSubstrate.circuit s)) ++ brought cs `prefix_of` written (wr c) →
   snd <$> os `prefix_of` rs ∧ outbox (fpipe f) = sent_to os ∧
   ∃ n, Forall (λ x, x.1 = None) (take n os) ∧ Forall (λ x, x.1 ≠ None) (drop n os)).
Proof.
  intros Hf Hrun Hd Hs Hrs Hw. apply bind_Some in Hf as (depth & _ & [= <-]).
  destruct (trun_inv _ _ _ _ _ (mkFront (new_pipe s (Z.to_nat depth) now) None) _ _ [] [] _ []
    (new_pipe_inv s (Z.to_nat depth) now)
    (wire_inv_new s (Z.to_nat depth) now) Hrun) as (tr & Hp & Hwi). cbn [app] in Hp.
  destruct Hwi as [Ho Ha Hpre (rest & Hg & _) Hfr]. destruct (pipe_inv_order _ _ _ _ _ _ _ Hp) as [Hord Hlost].
  rewrite Hw in Ho. apply app_inv_head in Ho.
  assert (sent_ok tr `prefix_of` (λ x : SocketAddr * bytes, buffered x.2) <$> dialled cs) as Hsent.
  { etrans; [exact Hpre|]. rewrite <- Hord. by apply prefix_app_r. }
  assert (Forall carried (sent_ok tr)) as Hc.
  { destruct Hsent as [k Hk]. rewrite Hk in Hd. by apply Forall_app in Hd as [? _]. }
  pose proof (select_carries sched (sent_ok tr) rs p q e (mkConn (mkReader p e) (mkWriter [] None) send [] (Ok <$> rs))
    Hc (eq_sym Ho) eq_refl (λ d _, Hs d) eq_refl eq_refl Hrs) as H.
  unfold handle. destruct (select _ _) as [c running]. destruct H as (k & m & Hin & Hout & H). cbn in Hin, Hout.
  split_and!.
  - rewrite Hin. etrans; [apply prefix_take|exact Hsent].
  - intros Hq Hst Hal Hl Hi Hb -> -> Hn. rewrite app_nil_r in Ho. subst p.
    assert (sent_ok tr = (λ x : SocketAddr * bytes, buffered x.2) <$> dialled cs) as Hall.
    { rewrite Ha, <- Hord, (Hlost Hal), Hq by done. unfold held, in_hand. rewrite Hst. rewrite Hl, Hi. cbn. by rewrite app_nil_r. }
    destruct H as (Hk & _). rewrite Hin, Hk, whole_all, <- Hall. apply take_ge.
    apply (f_equal length) in Hall. rewrite length_fmap in Hall. lia.
  - intros Hb. rewrite Hg in Hb. split_and!; [|exact (pi_outbox _ _ _ _ _ Hp)|].
    2:{ destruct (trun_discards _ _ _ _ Hrun) as (n & ? & ? & _). by exists n. }
    rewrite (pi_out _ _ _ _ _ Hp). etrans; [eapply returned_prefix, (pi_steps _ _ _ _ _ Hp)|]. etrans; [|apply (prefix_take rs m)].
    apply frames_prefix; [done| |].
    + apply Forall_take. eapply Forall_impl; [done|]. apply reply_fits.
    + rewrite <- Hout. etrans; [by apply prefix_app_r|exact Hb].
Qed.

Definition demo_tor : TorSubstrate.t :=
  TorSubstrate.mk (StreamDatagram.mk (mkReader [] None) (mkWriter (socks_request (bs "gw") 8443) None) circuit_oracle) true.
Definition demo_tor_steps : list tcmd :=
  [Local (PArrive demo_peer (bs "hi")); Local (PIn 5); Local (PSub (CTake 7)); Local (PSub (CBegin 7)); Local (PSub (CSendPump 8));
   Net (Bytes (frame (bs "ok"))); Local (PSub CRecvPump); Local POut].

Lemma tor_path_end_to_end_witness :
  ∃ f0 os f, spawn_substrate_front Debug demo_tor 0 = Some f0 ∧ trun demo_tor_steps f0 = Some (os, f) ∧
    injected (handle (mkReader (frame (bs "hi")) None) (mkWriter [] None) (λ _, true) (Ok <$> [bs "ok"]) [true; false]).1
      = [bs "hi"] ∧ os = [(Some demo_peer, bs "ok")].
Proof.
  eexists _, _, _. split; [by vm_compute|]. split; [by vm_compute|]. split; [|reflexivity].
  pose proof (λ f0 f os, tor_path_end_to_end Debug demo_tor 0 f0 f demo_tor_steps os (frame (bs "hi")) [] None
    (λ _, true) [bs "ok"] [true; false]) as H.
  edestruct H as (_ & Hall & _); [by vm_compute|by vm_compute| | | |by vm_compute|].
  - apply (bool_decide_unpack _). by vm_compute.
  - done.
  - apply (bool_decide_unpack _). by vm_compute.
  - apply Hall; reflexivity || (cbn; lia).
Defined.
