(* ===== verification/RelayPath.v ===== *)
(** * A relay over any network that conserves datagrams.

    [start_relay] of [crates/quicmix/src/relay.rs] takes any [MixTransport].
    [Network] is what a transport says of the network inside it: its own steps,
    what it holds, and what makes it lossy or stuck; [NetworkLaws] is what it
    promises.  Against that interface alone: sockets, the relay's four loops, the
    boundaries with their pumps and the network's steps, all interleaving, only
    ever delay and reorder what the network itself does not lose. *)

From S2P Require Import Prelude RustFloat RustStr Core Oracle Client Substrate Net UdpFront.
From Stdlib Require Import Sorting.Permutation.
Open Scope Z_scope.

Class Network (T : Type) `{MixTransport T} := {
  op : Type;
  net : op → T → option (list bytes * T);   (* a step of the network, and what it loses *)
  within : T → list bytes;                  (* the datagrams it holds *)
  good : T → Prop;
  keeps_all : Z → T → Prop;                 (* it loses nothing while it holds at most so many *)
  movable : T → Prop;
  load : T → nat;                           (* how far what it holds is from the receiver *)
  send_cost : nat;
}.

(** The fixed qualities of a network persist. *)
Definition follows {T} `{Network T} (t t' : T) : Prop :=
  good t' ∧ (∀ n, keeps_all n t → keeps_all n t') ∧ (movable t → movable t').

Class NetworkLaws (T : Type) `{Network T} : Prop := {
  net_send d t : good t →
    ∃ t', Core.try_send d t = (Ok (), t') ∧ follows t t' ∧ Permutation (d :: within t) (within t') ∧
      (load t' ≤ load t + send_cost)%nat;
  net_recv r t t' : good t → Core.try_recv t = Ready (r, t') →
    ∃ d, r = Ok d ∧ follows t t' ∧ Permutation (within t) (d :: within t') ∧ (load t' < load t)%nat;
  net_step o gone t t' : good t → net o t = Some (gone, t') →
    follows t t' ∧ Permutation (within t) (gone ++ within t') ∧
    (∀ n, keeps_all n t → Z.of_nat (length (within t)) ≤ n → gone = []);
  net_moves t : good t → movable t → load t ≠ 0%nat →
    (∃ r t', Core.try_recv t = Ready (r, t')) ∨
    (∃ o gone t', net o t = Some (gone, t') ∧ (load t' < load t)%nat);
  net_empty t : load t = 0%nat → within t = [];
}.

Section Relay.
Context {T : Type} `{NetworkLaws T}.

(** ** Steps. *)

(** A step of one leg: of its pipe, or of the network inside it. *)
Inductive lcmd : Type := Own (c : pcmd T) | Inside (o : op).

Definition leg (c : lcmd) (pi : pipe T) : option (pcmd T) :=
  match c with
  | Own c => if own c then Some c else None
  | Inside o => '(_, t) ← net o (inner (sub pi)); Some (PSub (CInner t))
  end.

Inductive ecmd : Type := Up (c : lcmd) | Down (c : lcmd).

Definition command (c : ecmd) (r : relay T) : option (rcmd T) :=
  match c with
  | Up c => RUp <$> leg c (up r)
  | Down c => RDown <$> leg c (down r)
  end.

Fixpoint erun (server_addr : SocketAddr) (cs : list ecmd) (r : relay T) :
    option (list (option SocketAddr * bytes) * relay T) :=
  match cs with
  | [] => Some ([], r)
  | c :: cs =>
      rc ← command c r;
      '(o, r) ← rexec server_addr rc r; '(os, r) ← erun server_addr cs r;
      Some (match o with Some x => [x] | None => [] end ++ os, r)
  end.

(** What the client, and the server, put on the relay's sockets. *)
Definition arriving (c : lcmd) : list (SocketAddr * bytes) := match c with Own c => arrival c | Inside _ => [] end.
Definition client_arrival (c : ecmd) : list (SocketAddr * bytes) := match c with Up c => arriving c | Down _ => [] end.
Definition server_arrival (c : ecmd) : list (SocketAddr * bytes) := match c with Down c => arriving c | Up _ => [] end.
Definition from_client (cs : list ecmd) : list (SocketAddr * bytes) := cs ≫= client_arrival.
Definition from_server (cs : list ecmd) : list (SocketAddr * bytes) := cs ≫= server_arrival.

(** ** The boundary over a network. *)
Record net_inv (t0 : T) (tr : list obs) (s : Substrate T) : Prop := {
  ni_good : good (inner s);
  ni_reads : Forall (λ r, is_err r = false) (reads tr);
  ni_movable : movable t0 → movable (inner s);
  ni_keeps : ∀ n, keeps_all n t0 → keeps_all n (inner s);
  ni_perm : ∃ gone, Permutation (h_dg <$> handed tr) (omap result_ok (reads tr) ++ gone ++ within (inner s)) ∧
    ∀ n, keeps_all n t0 → Z.of_nat (length (handed tr)) ≤ n → gone = [];
}.

Lemma net_inv_new t n now : good t → within t = [] → net_inv t [] (Substrate.new t n now).
Proof. intros Hg Hw. split; try done. exists []. cbn. by rewrite Hw. Qed.

Lemma net_inv_quiet t0 tr o s s' :
  net_inv t0 tr s → handed [o] = [] → reads [o] = [] → inner s' = inner s → net_inv t0 (tr ++ [o]) s'.
Proof.
  intros [Hg Hr Hm Hk Hp] Ho Hr' Hi.
  split; rewrite ?handed_snoc, ?reads_snoc, ?Ho, ?Hr', ?app_nil_r, ?Hi; done.
Qed.

Lemma net_inv_hand t0 tr now fin slot d r t s s' :
  net_inv t0 tr s → Core.try_send d (inner s) = (r, t) → inner s' = t →
  net_inv t0 (tr ++ [OHanded now fin slot d r]) s'.
Proof.
  intros [Hg Hr Hm Hk (gone & Hp & Hn)] Ht Hi.
  destruct (net_send d (inner s) Hg) as (t' & Ht' & (Hg' & Hk' & Hm') & Hw & _).
  rewrite Ht in Ht'. injection Ht' as -> ->.
  split; rewrite ?reads_snoc, ?app_nil_r, ?Hi; [done|done|auto|auto|].
  exists gone. rewrite handed_snoc, fmap_app, length_app. split.
  - rewrite <- Hw, Hp. cbn. solve_Permutation.
  - intros n Hn' Hl. apply (Hn n); [done|]. lia.
Qed.

Lemma net_inv_read t0 tr r t s s' :
  net_inv t0 tr s → Core.try_recv (inner s) = Ready (r, t) → inner s' = t → net_inv t0 (tr ++ [ORead r]) s'.
Proof.
  intros [Hg Hr Hm Hk (gone & Hp & Hn)] Ht Hi.
  destruct (net_recv r (inner s) t Hg Ht) as (d & -> & (Hg' & Hk' & Hm') & Hw & _).
  split; rewrite ?reads_snoc, ?handed_snoc, ?app_nil_r, ?Hi; [done| |auto|auto|].
  - apply Forall_app. split; [done|by constructor].
  - exists gone. split; [|done]. rewrite omap_app, Hp, Hw. cbn. solve_Permutation.
Qed.

Lemma net_inv_exec t0 tr c o s s' :
  net_inv t0 tr s → (∀ t, c ≠ CInner t) → Substrate.exec c s = Some (o, s') → net_inv t0 (tr ++ [o]) s'.
Proof.
  intros He Hc Hx. pose proof (exec_effect _ _ _ _ Hx) as Heff.
  destruct Heff as [| | | | |start fin d r t _ _ Hs|r t rp q m _ Hr _ _|r Hrp _|r q _|_ _|p'|t|];
    try by eapply net_inv_quiet.
  - by eapply net_inv_hand.
  - by eapply net_inv_read.
  - eapply net_inv_quiet; try done. by apply (silent_inner c).
Qed.

Lemma net_inv_net t0 tr o gone t s s' :
  net_inv t0 tr s → net o (inner s) = Some (gone, t) → inner s' = t → net_inv t0 (tr ++ [OSilent]) s'.
Proof.
  intros [Hg Hr Hm Hk (gone0 & Hp & Hn)] Ht Hi.
  destruct (net_step o gone (inner s) t Hg Ht) as ((Hg' & Hk' & Hm') & Hw & Hl).
  split; rewrite ?reads_snoc, ?handed_snoc, ?app_nil_r, ?Hi; [done|done|auto|auto|].
  exists (gone0 ++ gone). split.
  - rewrite Hp, Hw. solve_Permutation.
  - intros n Hn' Hlen. rewrite (Hn n), (Hl n); [done|auto| |done|done].
    apply Permutation_length in Hp. rewrite length_fmap, !length_app in Hp. lia.
Qed.

(** ** Pipes over a network. *)
Section Pipe.
Variables (t0 : T) (n : nat) (now : Z).

Definition over (arr : list (SocketAddr * bytes)) (outs : list (option SocketAddr * bytes)) (pi : pipe T) : Prop :=
  ∃ tr, pipe_inv (Substrate.new t0 n now) arr outs pi tr ∧ net_inv t0 tr (sub pi).

Lemma over_new : good t0 → within t0 = [] → over [] [] (new_pipe t0 n now).
Proof. intros Hg Hw. exists []. split; [apply new_pipe_inv|by apply net_inv_new]. Qed.

Lemma leg_keeps c pi pc : leg c pi = Some pc → keeps over pc pi ∧ arrival pc = arriving c.
Proof.
  destruct c as [c|o]; cbn.
  - destruct (own c) eqn:Hc; [|done]. intros [= <-]. split; [|done].
    intros dest arr outs src o pi' (tr & Hp & He) Hx.
    destruct (pexec_inv _ _ _ _ _ _ _ _ _ _ Hp Hx) as ((tr1 & Hp1 & Hext) & ? & ?). split_and!; [|done..].
    exists tr1. split; [done|].
    destruct Hext as [[-> ->]|(cm & ob & -> & Hex & Hin)]; [done|].
    eapply net_inv_exec; [done| |done]. intros t Ht. specialize (Hin t Ht). by destruct c as [| | |[]].
  - destruct (net o _) as [[gone t]|] eqn:Es; [|done]. intros [= <-]. split; [|done].
    intros dest arr outs src ob pi' (tr & Hp & Hn) [= <- <- <-].
    rewrite !app_nil_r. split_and!; [|done..]. exists (tr ++ [OSilent]).
    split; [exact (pipe_inv_net _ _ _ _ _ t Hp)|]. by eapply net_inv_net.
Qed.

(** What a pipe still holds: on its socket, in the suspended [send], in the
    boundary's queues, with its pumps, and inside the network. *)
Definition in_transit (pi : pipe T) : list bytes :=
  ((λ x, buffered x.2) <$> inbox pi) ++ held pi ++ (send_q (sub pi)).*2 ++ in_hand (sub pi) ++ within (inner (sub pi)) ++
    omap result_ok (recv_q (sub pi) ++ Substrate.held (sub pi)).

(** What a pipe in this state has delivered, lost and still holds. *)
Definition accounts (arr : list (SocketAddr * bytes)) (delivered : list bytes) (pi : pipe T) : Prop :=
  ∃ gone, Permutation ((λ x, buffered x.2) <$> arr) (delivered ++ gone ++ in_transit pi) ∧
    (keeps_all (Z.of_nat (length arr)) t0 → pump_alive (sub pi) = true → gone = []).

Lemma path_conserves arr outs pi : over arr outs pi → accounts arr (snd <$> outs) pi.
Proof.
  intros (tr & Hp & [_ _ _ _ (gone & Hn & Hg)]). destruct (pipe_inv_order _ _ _ _ _ _ _ Hp) as [Ho Hlost].
  pose proof (reads_accounted _ _ _ _ _ (pi_steps _ _ _ _ _ Hp)) as Hrd.
  exists (lost tr ++ gone). split.
  - rewrite <- Ho, (pi_out _ _ _ _ _ Hp), Hn, Hrd. unfold in_transit. solve_Permutation.
  - intros Hk Ha. rewrite (Hlost Ha). apply (Hg _ Hk).
    apply (f_equal length) in Ho. rewrite !length_app, !length_fmap in Ho. lia.
Qed.

(** A leg whose pump lives goes on: nothing it reads is an error. *)
Lemma leg_live arr outs pi :
  over arr outs pi → pump_alive (sub pi) = true →
  out_alive pi = true ∧ (recv_pump (sub pi) = RpReading ∨ ∃ d, recv_pump (sub pi) = RpBlocked (Ok d)) ∧
  (∃ ds, recv_q (sub pi) = Ok <$> ds) ∧ (1 ≤ depth (sub pi))%nat ∧ (∀ d, loop pi ≠ Stopped d).
Proof.
  intros (tr & Hp & [_ Hok _ _ _]) Ha. pose proof (pi_steps _ _ _ _ _ Hp) as Hst.
  destruct (steps_effect_ind recv_inv _ (recv_inv_new _ n now) recv_inv_step _ _ Hst)
    as [(k & rs & Hret & Hrd & Hk) [ds Hsh]].
  destruct (steps_effect_ind fifo_inv _ (fifo_inv_new _ n now) fifo_inv_step _ _ Hst) as [_ _ _ Hdep _ _ _].
  assert (reading_ended (sub pi) = false) as Hend.
  { destruct (reading_ended (sub pi)); [|done]. destruct Hsh as [e Hsh]. rewrite Hsh in Hok.
    apply Forall_app in Hok as [_ Hok]. by inversion Hok. }
  rewrite Hrd, !Forall_app in Hok. destruct Hok as (Hrs & Hq & _).
  assert (k = 0%nat) as ->.
  { destruct k; [done|]. destruct (Hk (Nat.neq_succ_0 _)) as [_ Hd]. unfold reading_ended in Hend. by rewrite Hd in Hend. }
  rewrite app_nil_r in Hret. split_and!.
  - destruct (out_alive pi) eqn:Eo; [done|]. destruct (pi_alive _ _ _ _ _ Hp Eo) as [e He].
    rewrite Hret in He. rewrite Forall_forall in Hrs. by specialize (Hrs _ He).
  - unfold reading_ended in Hend. destruct (recv_pump (sub pi)) as [|[d|]|]; eauto; done.
  - clear -Hq. induction Hq as [|[d|] l Hd _ [ds ->]]; [by exists []|by exists (d :: ds)|done].
  - done.
  - intros d Hd. pose proof (pi_loop _ _ _ _ _ Hp d Hd). congruence.
Qed.
End Pipe.

(** ** Draining: each step towards the far end makes a leg lighter. *)
Definition pump_weight (s : send_pump_state) : nat :=
  match s with SpIdle => 0 | SpTaken _ _ => 3 * send_cost + 2 | SpSending _ _ => 3 * send_cost + 1 end.
Definition weight (pi : pipe T) : nat :=
  ((3 * send_cost + 5) * length (inbox pi) + (3 * send_cost + 4) * length (held pi) +
   (3 * send_cost + 3) * length (send_q (sub pi)) + pump_weight (pump_state (sub pi)) + 3 * load (inner (sub pi)) +
   2 * length (Substrate.held (sub pi)) + length (recv_q (sub pi)))%nat.

#[local] Arguments weight : simpl never.
#[local] Arguments Nat.mul : simpl never.
Ltac weigh := unfold weight, held, Substrate.held; cbn.

Lemma weightless pi : weight pi = 0%nat → in_transit pi = [].
Proof.
  unfold weight, in_transit. intros Hw.
  assert (inbox pi = [] ∧ held pi = [] ∧ send_q (sub pi) = [] ∧ Substrate.held (sub pi) = [] ∧ recv_q (sub pi) = [])
    as (-> & -> & -> & -> & ->) by (split_and!; apply length_zero_iff_nil; nia).
  assert (in_hand (sub pi) = []) as ->.
  { unfold in_hand. destruct (pump_state (sub pi)); cbn in Hw; [done|lia..]. }
  rewrite net_empty by lia. done.
Qed.

Definition lighter (pi : pipe T) (c : lcmd) : Prop :=
  arriving c = [] ∧ ∃ pc, leg c pi = Some pc ∧
    ∀ dest, ∃ src o pi', pexec dest pc pi = Some (src, o, pi') ∧ (weight pi' < weight pi)%nat ∧
      pump_alive (sub pi') = true.

Lemma out_progress pi r q' :
  out_alive pi = true → pump_alive (sub pi) = true → recv_q (sub pi) = Ok r :: q' → lighter pi (Own POut).
Proof.
  intros Ho Ha Hq. split; [done|]. exists POut. split; [done|]. intros dest. cbn. unfold out_turn.
  rewrite Ho. cbn. unfold Substrate_recv, mpsc_recv. rewrite Hq. cbn. eexists _, _, _. split; [reflexivity|].
  split; [|done]. weigh. rewrite Hq. cbn. lia.
Qed.

Lemma in_progress pi :
  pump_alive (sub pi) = true → (1 ≤ depth (sub pi))%nat → (∀ d, loop pi ≠ Stopped d) → send_q (sub pi) = [] →
  (held pi ≠ [] ∨ inbox pi ≠ []) → lighter pi (Own (PIn (clock (sub pi)))).
Proof.
  intros Ha Hd Hl Hq Hh. split; [done|]. exists (PIn (clock (sub pi))). split; [done|]. intros dest. cbn.
  rewrite Z.ltb_irrefl. unfold in_turn, feed, Substrate_send, mpsc_send, has_room.
  rewrite Ha, Hq. cbn. rewrite bool_decide_eq_true_2 by lia. cbn.
  destruct (loop pi) as [|called d|d] eqn:El.
  - destruct (inbox pi) as [|[a d] i] eqn:Ei; [unfold held in Hh; rewrite El in Hh; naive_solver|].
    eexists _, _, _. split; [reflexivity|]. split; [|done]. weigh. rewrite El, Hq, Ei. cbn. lia.
  - eexists _, _, _. split; [reflexivity|]. split; [|done]. weigh. rewrite El, Hq. cbn. lia.
  - by destruct (Hl d).
Qed.

Lemma take_progress pi x q' :
  pump_alive (sub pi) = true → pump_state (sub pi) = SpIdle → send_q (sub pi) = x :: q' →
  lighter pi (Own (PSub (CTake (clock (sub pi) `max` pump_wake (sub pi))))).
Proof.
  intros Ha Hs Hq. split; [done|]. eexists. split; [done|]. intros dest. cbn.
  rewrite (proj2 (Z.ltb_ge _ _)) by lia. unfold pump_take. rewrite Ha, (proj2 (Z.leb_le _ _)), Hs, Hq by lia.
  destruct x as [enq d]. cbn. eexists _, _, _. split; [reflexivity|]. split; [|exact Ha].
  weigh. rewrite Hs, Hq. cbn. lia.
Qed.

Lemma begin_progress pi enq d :
  pump_alive (sub pi) = true → pump_state (sub pi) = SpTaken enq d → lighter pi (Own (PSub (CBegin (clock (sub pi))))).
Proof.
  intros Ha Hs. split; [done|]. eexists. split; [done|]. intros dest. cbn.
  rewrite Z.ltb_irrefl. unfold pump_begin. rewrite Hs. cbn. eexists _, _, _. split; [reflexivity|]. split; [|exact Ha].
  weigh. rewrite Hs. cbn. lia.
Qed.

Lemma pump_progress pi start d :
  good (inner (sub pi)) → pump_alive (sub pi) = true → pump_state (sub pi) = SpSending start d →
  lighter pi (Own (PSub (CSendPump (clock (sub pi))))).
Proof.
  intros Hg Ha Hs. split; [done|]. eexists. split; [done|]. intros dest. cbn.
  rewrite Z.ltb_irrefl. unfold send_pump. rewrite Hs. destruct (net_send d (inner (sub pi)) Hg) as (t' & Ht & _ & _ & Hl).
  cbn. rewrite Ht. cbn. eexists _, _, _. split; [reflexivity|]. split; [|exact Ha].
  weigh. rewrite Hs. cbn. nia.
Qed.

Lemma read_progress pi r t' :
  good (inner (sub pi)) → pump_alive (sub pi) = true → (1 ≤ depth (sub pi))%nat → recv_q (sub pi) = [] →
  recv_pump (sub pi) = RpReading → Core.try_recv (inner (sub pi)) = Ready (r, t') → lighter pi (Own (PSub CRecvPump)).
Proof.
  intros Hg Ha Hd Hq Hr Ht. destruct (net_recv r _ t' Hg Ht) as (d & -> & _ & _ & Hl).
  split; [done|]. eexists. split; [done|]. intros dest. cbn.
  unfold recv_pump_turn, push_recv, recv_room. rewrite Hr, Ht. cbn.
  rewrite Hq, bool_decide_eq_true_2 by (cbn; lia). cbn. eexists _, _, _. split; [reflexivity|].
  split; [|exact Ha]. weigh. rewrite Hr, Hq. cbn. lia.
Qed.

Lemma unblock_progress pi d :
  pump_alive (sub pi) = true → (1 ≤ depth (sub pi))%nat → recv_q (sub pi) = [] → recv_pump (sub pi) = RpBlocked (Ok d) →
  lighter pi (Own (PSub CRecvPump)).
Proof.
  intros Ha Hd Hq Hr. split; [done|]. eexists. split; [done|]. intros dest. cbn.
  unfold recv_pump_turn, push_recv, recv_room. rewrite Hr, Hq, bool_decide_eq_true_2 by (cbn; lia). cbn.
  eexists _, _, _. split; [reflexivity|]. split; [|exact Ha]. weigh. rewrite Hr, Hq. cbn. lia.
Qed.

Lemma inside_progress pi o gone t' :
  pump_alive (sub pi) = true → net o (inner (sub pi)) = Some (gone, t') → (load t' < load (inner (sub pi)))%nat →
  lighter pi (Inside o).
Proof.
  intros Ha Hs Hw. split; [done|]. exists (PSub (CInner t')). split; [cbn; by rewrite Hs|]. intros dest. cbn.
  eexists _, _, _. split; [reflexivity|]. split; [|exact Ha]. weigh. lia.
Qed.

(** A leg with something in transit can always move it on. *)
Lemma leg_progress t0 n now arr outs pi :
  over t0 n now arr outs pi → pump_alive (sub pi) = true → movable t0 → weight pi ≠ 0%nat → ∃ c, lighter pi c.
Proof.
  intros Ho Ha Hm Hw. destruct (leg_live _ _ _ _ _ _ Ho Ha) as (Hoa & Hrp & [ds Hds] & Hd & Hl).
  destruct Ho as (tr & _ & [Hg _ Hm' _ _]). specialize (Hm' Hm).
  destruct ds as [|d ds]; [|eexists; by eapply out_progress].
  destruct Hrp as [Hrp|[d Hrp]]; [|eexists; by eapply unblock_progress].
  destruct (decide (load (inner (sub pi)) = 0%nat)) as [Hz|Hz].
  - destruct (pump_state (sub pi)) as [|enq d|start d] eqn:Es;
      [|eexists; by eapply begin_progress|eexists; by eapply pump_progress].
    destruct (send_q (sub pi)) as [|x q'] eqn:Eq; [|eexists; by eapply take_progress].
    eexists. apply in_progress; try done. unfold weight in Hw. rewrite Hz, Eq, Hds, Es in Hw.
    unfold Substrate.held in Hw. rewrite Hrp in Hw. cbn in Hw.
    destruct (held pi); [right; intros E; rewrite E in Hw; cbn in Hw; lia|by left].
  - destruct (net_moves _ Hg Hm' Hz) as [(r & t' & Hr)|(o & gone & t' & Hs & Hlt)].
    + eexists. by eapply read_progress.
    + eexists. by eapply inside_progress.
Qed.

(** ** Runs of the relay. *)
Section Runs.
Variables (server : SocketAddr) (tu td : T) (nu nd : nat) (now : Z).

Definition legs_inv : list (SocketAddr * bytes) → list (SocketAddr * bytes) → relay T → Prop :=
  relay_inv server (over tu nu now) (over td nd now).

Lemma ecmd_inv c ups downs r rc o r' :
  legs_inv ups downs r → command c r = Some rc → rexec server rc r = Some (o, r') →
  legs_inv (ups ++ client_arrival c) (downs ++ server_arrival c) r'.
Proof.
  intros Hr Hc Hx. destruct c as [c|c]; cbn in Hc; destruct (leg c _) as [pc|] eqn:El; try done; injection Hc as <-.
  - destruct (leg_keeps tu nu now c _ pc El) as [Hk Ha]. cbn. rewrite <- Ha.
    by eapply (rexec_inv _ _ _ _ _ _ (RUp pc)).
  - destruct (leg_keeps td nd now c _ pc El) as [Hk Ha]. cbn. rewrite <- Ha.
    by eapply (rexec_inv _ _ _ _ _ _ (RDown pc)).
Qed.

Lemma erun_inv cs ups downs r os r' :
  legs_inv ups downs r → erun server cs r = Some (os, r') →
  legs_inv (ups ++ from_client cs) (downs ++ from_server cs) r'.
Proof.
  revert ups downs r os. induction cs as [|c cs IH]; intros ups downs r os Hr Hrun.
  { injection Hrun as <- <-. by rewrite !app_nil_r. }
  cbn [erun] in Hrun. apply bind_Some in Hrun as (rc & Hc & Hrun).
  apply bind_Some in Hrun as ([o r1] & Hx & Hrun). apply bind_Some in Hrun as ([os1 r2] & Hrun & [= <- <-]).
  unfold from_client, from_server. rewrite !bind_cons, !app_assoc.
  eapply IH; [|exact Hrun]. by eapply ecmd_inv.
Qed.

Definition pumps_alive (r : relay T) : Prop :=
  pump_alive (sub (up r)) = true ∧ pump_alive (sub (down r)) = true.

Lemma relay_progress ups downs r :
  legs_inv ups downs r → pumps_alive r → movable tu → movable td → (weight (up r) + weight (down r) ≠ 0)%nat →
  ∃ c rc o r', command c r = Some rc ∧ rexec server rc r = Some (o, r') ∧ pumps_alive r' ∧
    client_arrival c = [] ∧ server_arrival c = [] ∧
    (weight (up r') + weight (down r') < weight (up r) + weight (down r))%nat.
Proof.
  intros [(ou & Hu & _) (od & Hd & _) _] [Hau Had] Hmu Hmd Hw.
  destruct (decide (weight (up r) = 0%nat)) as [Hz|Hz].
  - assert (weight (down r) ≠ 0%nat) as Hz' by lia.
    destruct (leg_progress _ _ _ _ _ _ Hd Had Hmd Hz') as (c & Hc & pc & Hl & Hx).
    destruct (Hx (client_addr r)) as (src & o & pi' & Hex & Hlt & Ha).
    exists (Down c), (RDown pc). eexists _, _. cbn. rewrite Hl, Hex. cbn. rewrite Hc.
    split_and!; [done..|cbn; lia].
  - destruct (leg_progress _ _ _ _ _ _ Hu Hau Hmu Hz) as (c & Hc & pc & Hl & Hx).
    destruct (Hx (Some server)) as (src & o & pi' & Hex & Hlt & Ha).
    exists (Up c), (RUp pc). eexists _, _. cbn. rewrite Hl, Hex. cbn. rewrite Hc.
    split_and!; [done..|cbn; lia].
Qed.

Lemma relay_drains ups downs r :
  legs_inv ups downs r → pumps_alive r → movable tu → movable td →
  ∃ cs os r', erun server cs r = Some (os, r') ∧ from_client cs = [] ∧ from_server cs = [] ∧ pumps_alive r' ∧
    in_transit (up r') = [] ∧ in_transit (down r') = [].
Proof.
  intros Hr Hp Hmu Hmd. remember (weight (up r) + weight (down r))%nat as k eqn:Hk.
  revert ups downs r Hr Hp Hk. induction (lt_wf k) as [k _ IH]; intros ups downs r Hr Hp ->.
  destruct (decide (weight (up r) + weight (down r) = 0)%nat) as [Hz|Hz].
  { exists [], [], r. split_and!; try done; apply Hp || (apply weightless; lia). }
  destruct (relay_progress _ _ _ Hr Hp Hmu Hmd Hz) as (c & rc & o & r1 & Hc & Hx & Hp1 & Hfc & Hfs & Hlt).
  destruct (IH _ Hlt _ _ r1 (ecmd_inv _ _ _ _ _ _ _ Hr Hc Hx) Hp1 eq_refl) as (cs & os & r' & Hrun & Hf & Hs & Hrest).
  exists (c :: cs). cbn [erun]. rewrite Hc. cbn [mbind option_bind]. rewrite Hx. cbn [mbind option_bind].
  rewrite Hrun. eexists _, _. split; [reflexivity|].
  unfold from_client, from_server in *. by rewrite !bind_cons, Hfc, Hfs, Hf, Hs.
Qed.

Lemma sent_to_all a outs : (∀ x, x ∈ outs → x.1 = Some a) → sent_to outs = (a,.) <$> (snd <$> outs).
Proof.
  intros Ha. induction outs as [|x outs IH]; [done|]. cbn. rewrite (Ha x) by set_solver. cbn. f_equal.
  apply IH. intros y Hy. apply Ha. set_solver.
Qed.

Lemma legs_account ups downs r :
  legs_inv ups downs r →
  (∃ outs : list (option SocketAddr * bytes),
     accounts tu ups (snd <$> outs) (up r) ∧ outbox (up r) = (server,.) <$> (snd <$> outs)) ∧
  (∃ outs : list (option SocketAddr * bytes),
     accounts td downs (snd <$> outs) (down r) ∧ outbox (down r) = sent_to outs ∧
     (∀ x a, x ∈ outs → x.1 = Some a → a ∈ fst <$> ups)).
Proof.
  intros [(ou & Hu & Hou) (od & Hd & Hod) _]. split.
  - exists ou. split; [by eapply path_conserves|]. destruct Hu as (tr & Hp & _).
    rewrite (pi_outbox _ _ _ _ _ Hp). by apply sent_to_all.
  - exists od. split_and!; [by eapply path_conserves| |done]. destruct Hd as (tr & Hp & _). apply Hp.
Qed.
End Runs.

(** What a relay does to its datagrams: it delivers, or still holds, all that
    neither network lost; replies only go to a client that has sent something;
    and nothing is stuck. *)
Definition only_delays (server : SocketAddr) (tu td : T) (cs : list ecmd) (r : relay T) : Prop :=
  (∃ outs : list (option SocketAddr * bytes),
     accounts tu (from_client cs) (snd <$> outs) (up r) ∧ outbox (up r) = (server,.) <$> (snd <$> outs)) ∧
  (∃ outs : list (option SocketAddr * bytes),
     accounts td (from_server cs) (snd <$> outs) (down r) ∧ outbox (down r) = sent_to outs ∧
     (∀ x a, x ∈ outs → x.1 = Some a → a ∈ fst <$> from_client cs)) ∧
  (movable tu → movable td → pumps_alive r →
     ∃ cs' os' r', erun server cs' r = Some (os', r') ∧ from_client cs' = [] ∧ from_server cs' = [] ∧
       in_transit (up r') = [] ∧ in_transit (down r') = [] ∧
       (keeps_all (Z.of_nat (length (from_client cs))) tu →
        Permutation ((λ x, buffered x.2) <$> from_client cs) (snd <$> outbox (up r')))).

Theorem relay_only_delays pr server tu td now cs os r0 r :
  good tu → good td → within tu = [] → within td = [] →
  start_relay pr tu td now = Some r0 → erun server cs r0 = Some (os, r) → only_delays server tu td cs r.
Proof.
  intros Hgu Hgd Hwu Hwd. unfold start_relay. intros (du & _ & (dd & _ & [= <-])%bind_Some)%bind_Some Hrun.
  assert (legs_inv server tu td (Z.to_nat du) (Z.to_nat dd) now (from_client cs) (from_server cs) r) as Hr.
  { eapply (erun_inv _ _ _ _ _ _ cs [] []); [|exact Hrun]. by apply new_relay_inv; apply over_new. }
  destruct (legs_account _ _ _ _ _ _ _ _ _ Hr) as [Hup Hdown]. split_and!; [done..|].
  intros Hmu Hmd Hp.
  destruct (relay_drains _ _ _ _ _ _ _ _ _ Hr Hp Hmu Hmd) as (cs' & os' & r' & Hrun' & Hc & Hs & Hp' & Hu & Hd).
  exists cs', os', r'. split_and!; try done. intros Hk.
  pose proof (erun_inv _ _ _ _ _ _ _ _ _ _ _ _ Hr Hrun') as Hr'. rewrite Hc, Hs, !app_nil_r in Hr'.
  destruct (legs_account _ _ _ _ _ _ _ _ _ Hr') as [(outs & (gone & Hperm & Hg) & Ho) _].
  rewrite Hperm, (Hg Hk (proj1 Hp')), Hu, Ho, !app_nil_r, <- list_fmap_compose. by rewrite list_fmap_id.
Qed.
End Relay.
Arguments lcmd T {_ _}.
Arguments ecmd T {_ _}.
