(* ===== verification/EmulatedPath.v ===== *)
(** * A QUIC datagram over the emulated mixnet, both ways.

    The relay of [crates/quicmix/src/relay.rs] over two emulators of
    [crates/quicmix-eval/src/emulator.rs], as [emulated_front] stands it up for
    every circuit of the evaluation programs: sockets, the two loops of each
    pipe, the boundaries with their pumps, and the stages of each emulator, all
    interleaving. *)

From S2P Require Import Emulator.
From S2P Require Import Prelude RustFloat RustStr Core Oracle Client Substrate Net UdpFront RelayPath Rotation.
From Stdlib Require Import Sorting.Permutation.
Open Scope Z_scope.

(** ** The emulator as a [MixTransport]. *)
Definition Emulated_send (datagram : bytes) (s : EmulatedMixnet) : EmulatedMixnet :=
  if in_open s then set s (in_q s ++ [datagram]) (sleeping s) (ready s) (q s) (out s) else s.

(** The receiver ends when stage 2, which holds the sender, has. *)
Definition Emulated_recv (s : EmulatedMixnet) : poll (option bytes * EmulatedMixnet) :=
  match out s with
  | dg :: o => Ready (Some dg, set s (in_q s) (sleeping s) (ready s) (q s) o)
  | [] => if stage2 s then Pending else Ready (None, s)
  end.

#[global] Instance Emulated_MixTransport : MixTransport EmulatedMixnet := {
  kind _ := default_kind;
  oracle := Emulator.params;
  send := Emulated_send;
  recv := Emulated_recv;
  try_send := default_try_send Emulated_send;
  try_recv := default_try_recv Emulated_recv;
}.

#[global] Instance Emulated_laws : MixTransportLaws EmulatedMixnet.
Proof. split; [done|]. apply default_recv_law. Qed.

(** ** [emulated_front], [connect_fresh], [prewarm]. *)
Definition emulated_front (pr : profile) (p : OracleParams) (now : Z) : option (relay EmulatedMixnet) :=
  start_relay pr (Emulator.new p) (Emulator.new p) now.

Definition connect_fresh (E : env) (server_cert : bytes) (w : world) : result connect_error Circuit * world :=
  connect_fresh_with E server_cert None w.
Definition prewarm (E : env) (n : nat) (server_cert : bytes) (w : world) : result connect_error CircuitPool * world :=
  prewarm_with E n server_cert None w.

(** ** The emulator as a network: its stages, between the boundary's calls. *)
Section Network.
Variable ln : spec_float → spec_float.

(** The stages' own steps; a draw of [gen::<f64>()] is not below zero. *)
Definition stage (o : Emulator.op) (s : EmulatedMixnet) : option (Emulator.obs * EmulatedMixnet) :=
  match o with
  | Send _ | Recv | DropHandle => None
  | Stage1 u0 _ _ => if SFltb u0 (S754_zero false) then None else Emulator.exec ln o s
  | _ => Emulator.exec ln o s
  end.

(** Its handle is held, so both stages run. *)
Definition live (e : EmulatedMixnet) : Prop := in_open e = true ∧ closed e = false ∧ stage2 e = true.

(** Every hop's delay can be drawn. *)
Definition drawable (p : OracleParams) (us : list spec_float) : Prop :=
  length us = Z.to_nat (hops p) ∧ is_Some (hop_delay ln p us).

Definition eweight (e : EmulatedMixnet) : nat :=
  (7 * length (in_q e) + 6 * length (sleeping e) + 5 * length (ready e) + 4 * length (q e) + 3 * length (out e))%nat.

#[export] Instance Emulated_Network : Network EmulatedMixnet := {
  op := Emulator.op;
  net o e := '(b, e') ← stage o e; Some (removed b, e');
  within := inside;
  good e := emu_ok e ∧ live e;
  keeps_all n e := drop_prob (Emulator.params e) = S754_zero false ∧ n ≤ max_queue e;
  movable e := 0 < max_queue e ∧ ∃ us, drawable (Emulator.params e) us;
  load := eweight;
  send_cost := 7;
}.

(** A datagram is only tail-dropped by a full buffer. *)
Lemma exec_tail o e b e' d :
  Emulator.exec ln o e = Some (b, e') → is_tail b = Some d → max_queue e ≤ Z.of_nat (length (q e)).
Proof.
  intros Hx Hb. destruct b as [| |d'| |]; try done.
  destruct o; cbn in Hx; repeat case_match; try (apply bind_Some in Hx as (? & _ & Hx));
    repeat case_match; simplify_eq. lia.
Qed.

Lemma exec_live o e b e' :
  live e → o ≠ DropHandle → Emulator.exec ln o e = Some (b, e') → live e'.
Proof.
  unfold live. intros (Hi & Hc & Hs) Ho Hx. destruct o; cbn in Hx; try done.
  - rewrite Hi in Hx. by simplify_eq.
  - destruct (in_q e); [done|]. case_match; [done|]. apply bind_Some in Hx as (? & _ & Hx).
    case_match; by simplify_eq.
  - apply bind_Some in Hx as ([? ?] & _ & Hx). case_match; by simplify_eq.
  - rewrite Hs in Hx. repeat case_match; by simplify_eq.
  - rewrite Hs, Hi in Hx. done.
  - rewrite Hs in Hx. repeat case_match; simplify_eq/=; rewrite ?Hc; done.
  - case_match; by simplify_eq.
Qed.

(** What any step of a live emulator keeps. *)
Lemma exec_follows o e b e' :
  good e → o ≠ DropHandle → Emulator.exec ln o e = Some (b, e') →
  follows e e' ∧ Permutation (added b ++ inside e) (removed b ++ inside e').
Proof.
  intros [Hok Hl] Ho Hx. destruct (exec_conserves ln o e b e' Hok Hx) as (Hp & Hok' & Hpa & Hmq & _).
  split; [|done]. split; [split; [done|by eapply exec_live]|]. cbn. by rewrite Hpa, Hmq.
Qed.

Lemma stage_exec o e b e' :
  stage o e = Some (b, e') →
  o ≠ DropHandle ∧ draw_ok o ∧ Emulator.exec ln o e = Some (b, e') ∧ added b = [] ∧ is_received b = None.
Proof.
  intros Hs. assert (o ≠ DropHandle ∧ draw_ok o ∧ Emulator.exec ln o e = Some (b, e')) as (Hd & Hu & Hx).
  { destruct o; cbn in Hs; try done. destruct (SFltb u0 _) eqn:E; [done|]. by split_and!. }
  split_and!; try done;
    destruct o; cbn in Hs, Hx; repeat case_match; try (apply bind_Some in Hx as (? & _ & Hx)); repeat case_match;
    by simplify_eq.
Qed.

Lemma stage_lossless o e b e' n :
  good e → stage o e = Some (b, e') → keeps_all n e → Z.of_nat (length (inside e)) ≤ n → removed b = [].
Proof.
  intros Hg Hs [Hz Hmq] Hn. apply stage_exec in Hs as (Hd & Hu & Hx & Ha & Hr).
  destruct (exec_follows _ _ _ _ Hg Hd Hx) as [_ Hp]. pose proof (exec_no_base_drop ln o e b e' Hu Hz Hx) as Hb.
  destruct b as [d|d|d|d|]; try done. pose proof (exec_tail _ _ _ _ _ Hx eq_refl) as Hq.
  assert (∃ dg r, o = Ready2 ∧ ready e = dg :: r) as (dg & r & -> & Hrd).
  { destruct o; cbn in Hx; repeat case_match; try (apply bind_Some in Hx as (? & _ & Hx)); repeat case_match;
      simplify_eq; eauto. }
  unfold inside in Hn. rewrite Hrd, !length_app in Hn. cbn [length] in Hn. lia.
Qed.

Lemma stage_progress e :
  good e → movable e → out e = [] → eweight e ≠ 0%nat →
  ∃ o b e', stage o e = Some (b, e') ∧ (eweight e' < eweight e)%nat.
Proof.
  intros [[_ Hpass] (Hi & Hc & Hs)] [Hmq (us & Hl & d & Hd)] Ho Hw. unfold eweight in *.
  destruct (q e) as [|dg b] eqn:Eq.
  - destruct (ready e) as [|dg r] eqn:Er.
    + destruct (sleeping e) as [|[t dg] sl] eqn:Es.
      * destruct (in_q e) as [|dg i] eqn:Ei; [by rewrite Ho in Hw|].
        exists (Stage1 (S754_zero false) us 0). cbn. rewrite Ei, Hl, Nat.eqb_refl. cbn. rewrite Hd. cbn.
        case_match; eexists _, _; (split; [reflexivity|]); cbn; rewrite ?length_app, ?Es, ?Er, ?Eq, ?Ho; cbn; lia.
      * exists (Wake 0 t). cbn. rewrite Es. cbn. rewrite Z.leb_refl. eexists _, _. split; [reflexivity|].
        cbn. rewrite length_app, Er, Eq, Ho. cbn. lia.
    + exists Ready2. cbn. rewrite Hs, Er, Eq. cbn. rewrite (proj2 (Z.ltb_lt _ _)) by (cbn; lia).
      case_match; eexists _, _; (split; [reflexivity|]); cbn; rewrite ?length_app, ?Ho; cbn; lia.
  - exists Tick. cbn. rewrite Hs, Eq. cbn. rewrite (proj2 (Z.eqb_neq _ _)) by (by intros ?%Hpass).
    eexists _, _. split; [reflexivity|]. cbn. rewrite length_app. cbn. lia.
Qed.

#[export] Instance Emulated_NetworkLaws : NetworkLaws EmulatedMixnet.
Proof.
  split.
  - intros d e Hg. pose proof Hg as [_ (Hi & _)].
    assert (Emulator.exec ln (Send d) e = Some (Sent d, Emulated_send d e)) as Hx by (cbn; unfold Emulated_send; by rewrite Hi).
    destruct (exec_follows (Send d) _ _ _ Hg ltac:(done) Hx) as [Hf Hp].
    eexists. split; [reflexivity|]. split_and!; [done|exact Hp|]. unfold Emulated_send. rewrite Hi.
    cbn. unfold eweight. cbn. rewrite length_app. cbn. lia.
  - intros r e e' Hg Ht. pose proof Hg as [_ (_ & _ & Hs)]. cbn in Ht. unfold default_try_recv, Emulated_recv in Ht.
    destruct (out e) as [|d o] eqn:Eo; [by rewrite Hs in Ht|]. cbn in Ht. injection Ht as <- <-.
    exists d. split; [done|].
    eassert (Emulator.exec ln Recv e = Some (Received d, _)) as Hx by (cbn; by rewrite Eo).
    destruct (exec_follows Recv _ _ _ Hg ltac:(done) Hx) as [Hf Hp]. split_and!; [exact Hf|exact Hp|].
    unfold eweight. cbn. rewrite Eo. cbn. lia.
  - intros o gone e e' Hg Hn. cbn in Hn. apply bind_Some in Hn as ([b e1] & Hs & [= <- <-]).
    pose proof Hs as (Hd & _ & Hx & Ha & _)%stage_exec. destruct (exec_follows _ _ _ _ Hg Hd Hx) as [Hf Hp].
    rewrite Ha in Hp. split_and!; [exact Hf|exact Hp|]. intros n Hk Hl. by eapply stage_lossless.
  - intros e Hg Hm Hl. destruct (out e) as [|d o] eqn:Eo.
    + right. destruct (stage_progress _ Hg Hm Eo Hl) as (o & b & e' & Hs & Hlt).
      exists o, (removed b), e'. cbn. by rewrite Hs.
    + left. eexists _, _. cbn. unfold default_try_recv, Emulated_recv. rewrite Eo. reflexivity.
  - intros e. cbn. unfold eweight, inside. intros Hl.
    assert (in_q e = [] ∧ sleeping e = [] ∧ ready e = [] ∧ q e = [] ∧ out e = []) as (-> & -> & -> & -> & ->); [|done].
    split_and!; apply length_zero_iff_nil; lia.
Qed.

Lemma with_queue_good p mq : 0 ≤ mq → good (with_queue p mq).
Proof. intros. split; [|done]. split; cbn; [lia|done]. Qed.

(** C30: a circuit over the emulator only delays and reorders.  Over any
    interleaving of arrivals, loops, pumps and emulator stages, the datagrams the
    client put on the relay's socket are, as a multiset, those sent to the server,
    those lost, and those still inside; and so back, where what comes out before a
    client is known is discarded.  With a zero drop
    probability, fewer than 2^64 datagrams and both pumps alive none is lost.
    Replies only go to a client that has sent something.  And nothing is stuck:
    if delays can be drawn, some continuation without new arrivals empties both
    legs, so that a lossless circuit then has delivered exactly what was sent. *)
Theorem emulated_front_only_delays pr p now server cs os r0 r :
  emulated_front pr p now = Some r0 → erun server cs r0 = Some (os, r) →
  only_delays server (Emulator.new p) (Emulator.new p) cs r.
Proof.
  intros Hf Hr. by eapply relay_only_delays; [apply with_queue_good|apply with_queue_good|..].
Qed.
End Network.

(** Two datagrams overtaking each other on the way up. *)
Definition demo_server : SocketAddr := SA4 (V4 127 0 0 1) 4433.
Definition demo_client : SocketAddr := SA4 (V4 127 0 0 1) 40000.
Definition demo_oracle : OracleParams := mkOracleParams 0 0 (S754_zero false) 0 1200.
#[local] Abbreviation demo_cmd := (@ecmd EmulatedMixnet _ (Emulated_Network (λ x, x))).
#[local] Abbreviation demo_run := (@erun EmulatedMixnet _ (Emulated_Network (λ x, x)) demo_server).
Definition up_own (c : pcmd EmulatedMixnet) : demo_cmd := Up (Own c).
Definition up_inside (o : Emulator.op) : demo_cmd := Up (@Inside _ _ (Emulated_Network (λ x, x)) o).
Definition demo_transfer : list demo_cmd :=
  map up_own [PArrive demo_client (bs "a"); PArrive demo_client (bs "b"); PIn 0; PIn 0;
    PSub (CTake 0); PSub (CBegin 0); PSub (CSendPump 0); PSub (CTake 0); PSub (CBegin 0); PSub (CSendPump 0)].
Definition demo_crossing : list demo_cmd :=
  map up_inside [Stage1 (S754_zero false) [] 0; Stage1 (S754_zero false) [] 0; Wake 1 0; Wake 0 0; Ready2; Ready2] ++
  map up_own [PSub CRecvPump; PSub CRecvPump; POut; POut].

Lemma emulated_front_only_delays_witness :
  ∃ r0 os r, emulated_front Debug demo_oracle 0 = Some r0 ∧ demo_run demo_transfer r0 = Some (os, r) ∧
    (∃ os' r', demo_run demo_crossing r = Some (os', r') ∧
       outbox (up r') = [(demo_server, bs "b"); (demo_server, bs "a")]) ∧
    ∃ cs' os' r', demo_run cs' r = Some (os', r') ∧ Permutation [bs "a"; bs "b"] (snd <$> outbox (up r')).
Proof.
  eexists _, _, _. split; [by vm_compute|]. split; [by vm_compute|].
  split; [eexists _, _; split; by vm_compute|].
  edestruct (emulated_front_only_delays (λ x, x) Debug demo_oracle 0 demo_server demo_transfer)
    as (_ & _ & H); [by vm_compute|by vm_compute|].
  assert (@movable _ _ (Emulated_Network (λ x, x)) (Emulator.new demo_oracle)) as Hm by (split; [done|]; exists []; split; [done|by eexists]).
  destruct (H Hm Hm) as (cs' & os' & r' & Hrun & _ & _ & _ & _ & Hperm); [split; by vm_compute|].
  exists cs', os', r'. split; [exact Hrun|]. apply Hperm. split; [done|by vm_compute].
Defined.
