(* ===== verification/StripedPath.v ===== *)
(** * A circuit striped over several networks: [Striped] of
    [crates/quicmix-eval/src/striped.rs] under the relay, as [striped_front] of
    [crates/quicmix-eval/examples/proxy.rs] sets it up.

    Striping networks that conserve datagrams is such a network again, so a
    striped circuit inherits what RelayPath shows of any relay. *)

From S2P Require Import Prelude RustFloat RustStr Core Oracle Client Substrate Net UdpFront RelayPath.
From S2P Require Emulator EmulatedPath.
From S2P Require Import Striped.
From Stdlib Require Import Sorting.Permutation.
Open Scope Z_scope.

(** One element of a list changed. *)
Lemma bind_insert {A B} (f : A → list B) (l : list A) i x y :
  l !! i = Some x → ∃ rest, Permutation (l ≫= f) (f x ++ rest) ∧ Permutation (<[i:=y]> l ≫= f) (f y ++ rest).
Proof.
  revert i. induction l as [|a l IH]; intros [|i] Hi; try done.
  - injection Hi as ->. by exists (l ≫= f).
  - destruct (IH i Hi) as (rest & H1 & H2). exists (f a ++ rest). cbn. rewrite H1, H2. split; solve_Permutation.
Qed.

Lemma alter_is_insert {A} (f : A → A) (l : list A) i x : l !! i = Some x → alter f i l = <[i:=f x]> l.
Proof. revert i. induction l as [|a l IH]; intros [|i] Hi; try done; cbn; [by injection Hi as ->|by f_equal; apply IH]. Qed.

Lemma sum_insert {A} (f : A → nat) (l : list A) i x y :
  l !! i = Some x → (sum_list_with f (<[i:=y]> l) + f x = sum_list_with f l + f y)%nat.
Proof.
  revert i. induction l as [|a l IH]; intros [|i] Hi; try done.
  - injection Hi as ->. cbn. lia.
  - change (<[S i:=y]> (a :: l)) with (a :: <[i:=y]> l). cbn [sum_list_with]. pose proof (IH i Hi). lia.
Qed.

Lemma sum_nonzero {A} (f : A → nat) (l : list A) :
  sum_list_with f l ≠ 0%nat → ∃ i x, l !! i = Some x ∧ f x ≠ 0%nat.
Proof.
  induction l as [|a l IH]; cbn; [done|]. intros Hl. destruct (decide (f a = 0%nat)) as [E|E].
  - destruct IH as (i & x & Hi & Hx); [lia|]. by exists (S i), x.
  - by exists 0%nat, a.
Qed.

Section Network.
Context {T : Type} `{Hn : NetworkLaws T} `{Hl : !MixTransportLaws T}.

Definition with_sub (i : nat) (t : T) (s : Striped T) : Striped T :=
  mkStriped (<[i:=t]> (subs s)) (running s) (next s) (merged s) (s_oracle s).

(** A step of one path's network, or of its receive task. *)
Definition sop : Type := nat * op + nat.

Definition snet (c : sop) (s : Striped T) : option (list bytes * Striped T) :=
  match c with
  | inl (i, o) => t ← subs s !! i; '(gone, t) ← net o t; Some (gone, with_sub i t s)
  | inr i => s ← recv_task i s; Some ([], s)
  end.

#[export] Instance Striped_Network : Network (Striped T) := {
  op := sop;
  net := snet;
  within s := (subs s ≫= within) ++ merged s;
  good s := subs s ≠ [] ∧ Forall good (subs s) ∧ running s = replicate (length (subs s)) true;
  keeps_all n s := Forall (keeps_all n) (subs s);
  movable s := Forall movable (subs s);
  load s := (2 * sum_list_with load (subs s) + length (merged s))%nat;
  send_cost := (2 * send_cost)%nat;
}.

(** A path that follows leaves the whole following. *)
Lemma with_sub_follows i t t' s m :
  good s → subs s !! i = Some t → follows t t' →
  follows s (mkStriped (<[i:=t']> (subs s)) (running s) m (merged s) (s_oracle s)).
Proof.
  intros (Hne & Hg & Hr) Hi (Hg' & Hk & Hm). split; [|split]; cbn.
  - split_and!; [|by apply Forall_insert|by rewrite length_insert].
    intros E. apply (f_equal length) in E. rewrite length_insert in E. by destruct (subs s).
  - intros n Hf. apply Forall_insert; [done|]. apply Hk. by eapply Forall_lookup_1.
  - intros Hf. apply Forall_insert; [done|]. apply Hm. by eapply Forall_lookup_1.
Qed.

Lemma send_spec d s :
  good s → ∃ i t t', subs s !! i = Some t ∧ Core.try_send d t = (Ok (), t') ∧ good t ∧
    Striped.send d s = mkStriped (<[i:=t']> (subs s)) (running s) (wrapping_incr 64 (next s)) (merged s) (s_oracle s).
Proof.
  intros (Hne & Hg & _). unfold Striped.send. rewrite decide_False by done.
  set (i := Z.to_nat (next s mod Z.of_nat (length (subs s)))).
  assert (i < length (subs s))%nat as Hi.
  { assert (length (subs s) ≠ 0%nat) by (by destruct (subs s)).
    pose proof (Z.mod_pos_bound (next s) (Z.of_nat (length (subs s)))). unfold i. lia. }
  destruct (lookup_lt_is_Some_2 _ _ Hi) as [t Ht]. pose proof (Forall_lookup_1 _ _ _ _ Hg Ht) as Hgt.
  destruct (net_send d t Hgt) as (t' & Hs & _). exists i, t, t'. split_and!; try done.
  f_equal. rewrite (alter_is_insert _ _ _ t) by done. by rewrite send_try_send, Hs.
Qed.

Lemma recv_task_spec i s s' :
  good s → recv_task i s = Some s' →
  ∃ t d t', subs s !! i = Some t ∧ good t ∧ Core.try_recv t = Ready (Ok d, t') ∧
    s' = mkStriped (<[i:=t']> (subs s)) (running s) (next s) (merged s ++ [d]) (s_oracle s).
Proof.
  intros (_ & Hg & Hr). unfold recv_task. intros Hx. apply bind_Some in Hx as (t & Ht & Hx).
  apply bind_Some in Hx as (a & Ha & Hx). rewrite Hr in Ha. apply lookup_replicate in Ha as [-> _]. cbn in Hx.
  pose proof (Forall_lookup_1 _ _ _ _ Hg Ht) as Hgt. rewrite recv_try_recv in Hx.
  destruct (Core.try_recv t) as [[r t']|] eqn:Er; [|done].
  destruct (net_recv r t t' Hgt Er) as (d & -> & _). cbn in Hx. injection Hx as <-. by exists t, d, t'.
Qed.

#[export] Instance Striped_NetworkLaws : NetworkLaws (Striped T).
Proof.
  split.
  - intros d s Hg. destruct (send_spec d s Hg) as (i & t & t' & Hi & Ht & Hgt & Hs).
    destruct (net_send d t Hgt) as (t1 & Ht1 & Hf & Hp & Hld). rewrite Ht in Ht1. injection Ht1 as <-.
    eexists. split; [reflexivity|]. cbn. rewrite Hs. split_and!; [by eapply with_sub_follows| |].
    + destruct (bind_insert within _ i t t' Hi) as (rest & H1 & H2). cbn. rewrite H1, H2, <- Hp. cbn. done.
    + cbn. pose proof (sum_insert load _ i t t' Hi). lia.
  - intros r s s' Hg Ht. pose proof Hg as (Hne & Hgs & Hr). cbn in Ht. unfold default_try_recv, recv in Ht.
    destruct (merged s) as [|d q] eqn:Em.
    { rewrite Hr in Ht. by destruct (subs s). }
    cbn in Ht. injection Ht as <- <-. exists d. split; [done|]. cbn. rewrite Em. split_and!.
    + split; [by split_and!|]. by split.
    + solve_Permutation.
    + cbn. lia.
  - intros [[i o]|i] gone s s' Hg Hx; cbn in Hx.
    + apply bind_Some in Hx as (t & Hi & Hx). apply bind_Some in Hx as ([g t'] & Hx & [= <- <-]).
      pose proof Hg as (_ & Hgs & _). pose proof (Forall_lookup_1 _ _ _ _ Hgs Hi) as Hgt.
      destruct (net_step o g t t' Hgt Hx) as (Hf & Hp & Hlost).
      destruct (bind_insert within _ i t t' Hi) as (rest & H1 & H2). split_and!.
      * by eapply with_sub_follows.
      * cbn. rewrite H1, H2, Hp. solve_Permutation.
      * intros n Hk Hlen. apply (Hlost n); [exact (Forall_lookup_1 _ _ _ _ Hk Hi)|]. cbn in Hlen.
        rewrite H1, !length_app in Hlen. lia.
    + apply bind_Some in Hx as (s1 & Hx & [= <- <-]).
      destruct (recv_task_spec i s s1 Hg Hx) as (t & d & t' & Hi & Hgt & Ht & ->).
      destruct (net_recv _ t t' Hgt Ht) as (d' & [= <-] & Hf & Hp & _).
      destruct (bind_insert within _ i t t' Hi) as (rest & H1 & H2). split_and!.
      * by apply (with_sub_follows i t t' (mkStriped (subs s) (running s) (next s) (merged s ++ [d]) (s_oracle s))).
      * cbn. rewrite H1, H2, Hp. solve_Permutation.
      * done.
  - intros s Hg Hm Hld. pose proof Hg as (_ & Hgs & Hr). cbn in Hld. destruct (merged s) as [|d q] eqn:Em.
    + right. destruct (sum_nonzero load (subs s)) as (i & t & Hi & Hz); [cbn in Hld; lia|].
      pose proof (Forall_lookup_1 _ _ _ _ Hgs Hi) as Hgt. pose proof (Forall_lookup_1 _ _ _ _ Hm Hi) as Hmt.
      destruct (net_moves t Hgt Hmt Hz) as [(r & t' & Ht)|(o & gone & t' & Ht & Hlt)].
      * destruct (net_recv r t t' Hgt Ht) as (d & -> & _ & _ & Hlt). exists (inr i).
        assert (running s !! i = Some true) as Hri.
        { rewrite Hr. apply lookup_replicate_2. by eapply lookup_lt_Some. }
        cbn. unfold recv_task. rewrite Hi. cbn. rewrite Hri. cbn. rewrite recv_try_recv, Ht. cbn.
        eexists _, _. split; [reflexivity|]. cbn. rewrite Em. pose proof (sum_insert load _ i t t' Hi). cbn. lia.
      * exists (inl (i, o)). cbn. rewrite Hi. cbn. rewrite Ht. cbn. eexists _, _. split; [reflexivity|].
        cbn. rewrite Em. pose proof (sum_insert load _ i t t' Hi). cbn. lia.
    + left. cbn. unfold default_try_recv, recv. rewrite Em. by eexists _, _.
  - intros s. cbn. intros Hld. assert (merged s = []) as -> by (apply length_zero_iff_nil; lia).
    assert (sum_list_with load (subs s) = 0%nat) as Hs by lia. clear Hld. induction (subs s) as [|t l IH]; [done|].
    cbn in Hs. cbn. rewrite (net_empty t) by lia. apply IH. lia.
Qed.

Lemma new_good (ts : list T) s :
  ts ≠ [] → Forall good ts → Forall (λ t, within t = []) ts → Striped.new ts = Some s → good s ∧ within s = [].
Proof.
  intros Hne Hg Hw (o & _ & [= <-])%bind_Some. split; [done|]. cbn. rewrite app_nil_r. clear Hne Hg.
  induction Hw as [|t ts Ht _ IH]; [done|]. cbn. by rewrite Ht.
Qed.
End Network.

(** ** [striped_front]: each leg of the circuit stripes over two emulators. *)
Import Emulator EmulatedPath.

Definition striped_leg (p : OracleParams) (buf : Z) : option (Striped EmulatedMixnet) :=
  Striped.new [with_queue p buf; with_queue p buf].

Definition striped_front (pr : profile) (p : OracleParams) (buf now : Z) : option (relay (Striped EmulatedMixnet)) :=
  tup ← striped_leg p buf; tdown ← striped_leg p buf; start_relay pr tup tdown now.

(** The demo's network, and the buffer it gives each emulator. *)
Definition demo_mix : OracleParams := mkOracleParams 3 (from_millis 5) (lit binary64 1 100) (from_millis 1) 1200.
Definition demo_buf (pr : profile) : option Z := bdp_packets pr demo_mix.

(** C23: a circuit striped over two emulators only delays and reorders, and
    always gets through.  However arrivals, the relay's loops and pumps, the
    stages of all four emulators and the merging tasks interleave, what the
    client sent is delivered to the server, lost by an emulator, or still in
    transit, each datagram once; with a zero drop probability and at most as many
    datagrams as an emulator's buffer holds, none is lost; and, with the pumps
    alive, a positive buffer and delays that can be drawn, some continuation
    without new arrivals delivers all that is not. *)
Theorem striped_front_only_delays ln pr p buf now server cs os r0 r :
  0 ≤ buf → striped_front pr p buf now = Some r0 →
  @erun _ _ (@Striped_Network _ _ (Emulated_Network ln)) server cs r0 = Some (os, r) →
  ∃ leg, striped_leg p buf = Some leg ∧ @only_delays _ _ (@Striped_Network _ _ (Emulated_Network ln)) server leg leg cs r.
Proof.
  intros Hb (t & Ht & (t' & Ht' & Hr)%bind_Some)%bind_Some Hrun. rewrite Ht in Ht'. injection Ht' as <-.
  exists t. split; [done|].
  destruct (@new_good _ _ (Emulated_Network ln) [with_queue p buf; with_queue p buf] t) as [Hg Hw];
    [done|by repeat (constructor; [by apply with_queue_good|])|by repeat constructor|done|].
  by eapply relay_only_delays.
Qed.

#[local] Abbreviation demo_cmd := (@ecmd _ _ (@Striped_Network _ _ (Emulated_Network (λ x, x)))).
Definition up_stage (i : nat) (o : Emulator.op) : demo_cmd :=
  Up (@Inside _ _ (@Striped_Network _ _ (Emulated_Network (λ x, x))) (inl (i, o))).
Definition up_merge (i : nat) : demo_cmd :=
  Up (@Inside _ _ (@Striped_Network _ _ (Emulated_Network (λ x, x))) (inr i)).
Definition up_own (c : pcmd (Striped EmulatedMixnet)) : demo_cmd := Up (Own c).

(** Two datagrams, one on each path; the second path is quicker. *)
Definition demo_striped : list demo_cmd :=
  map up_own [PArrive demo_client (bs "a"); PArrive demo_client (bs "b"); PIn 0; PIn 0;
    PSub (CTake 0); PSub (CBegin 0); PSub (CSendPump 0); PSub (CTake 2000000000); PSub (CBegin 2000000000); PSub (CSendPump 2000000000)] ++
  [up_stage 1 (Stage1 (S754_zero false) [] 0); up_stage 1 (Wake 0 0); up_stage 1 Ready2; up_merge 1] ++
  map up_own [PSub CRecvPump; POut].

Lemma striped_front_only_delays_witness :
  ∃ r0 os r, striped_front Debug demo_oracle 5 0 = Some r0 ∧
    @erun _ _ (@Striped_Network _ _ (Emulated_Network (λ x, x))) demo_server demo_striped r0 = Some (os, r) ∧
    outbox (up r) = [(demo_server, bs "b")] ∧
    ∃ cs' os' r', @erun _ _ (@Striped_Network _ _ (Emulated_Network (λ x, x))) demo_server cs' r = Some (os', r') ∧
      Permutation [bs "a"; bs "b"] (snd <$> outbox (up r')).
Proof.
  eexists _, _, _. split; [by vm_compute|]. split; [by vm_compute|]. split; [reflexivity|].
  edestruct (striped_front_only_delays (λ x, x) Debug demo_oracle 5 0 demo_server demo_striped)
    as (leg & Hleg & _ & _ & H); [done|by vm_compute|by vm_compute|].
  apply bind_Some in Hleg as (o & _ & [= <-]).
  assert (Forall (@movable _ _ (Emulated_Network (λ x, x))) [with_queue demo_oracle 5; with_queue demo_oracle 5]) as Hm.
  { repeat constructor; exists []; (split; [done|by eexists]). }
  destruct (H Hm Hm) as (cs' & os' & r' & Hrun & _ & _ & _ & _ & Hperm); [split; by vm_compute|].
  exists cs', os', r'. split; [exact Hrun|]. apply Hperm. by repeat constructor.
Defined.
