(* ===== verification/Loopback.v ===== *)
(** * The machine the measurement programs run on: QUIC endpoints and fronts on
    loopback sockets.

    Each program serves QUIC on one socket, puts a front before it (a relay, or a
    Nym circuit and its gateway), and dials the front.  The calls are those of
    [Node] (TwoNodes), of [start_relay] (UdpFront) and of the Nym substrate
    (Mixnets); what they leave behind is who serves at an address and where a
    front's datagrams go.  The answers of rcgen, rustls, quinn, the SDK and the
    operating system are arguments. *)

From stdpp Require Import gmap.
From S2P Require Import Prelude Fallible RustFloat RustStr Core Oracle Client Substrate Net Mixnets UdpFront Gateway TwoNodes.
Open Scope Z_scope.

Record outside := mkOutside {
  rcgen : nat → option (bytes * bytes);                    (* the [n]-th certificate and key *)
  single_cert_ok : list bytes → bytes → bool;
  root_ok : bytes → bool;
  verifier_ok : list bytes → bool;
  port_of : nat → option SocketAddr;                       (* the [n]-th socket bound to 127.0.0.1:0 *)
  dial_ok : SocketAddr → string → bool;                    (* [Endpoint::connect], before the handshake *)
  handshakes : ServerConfig → ClientConfig → string → bool; (* the handshake between these two ends *)
  nym : Nym.sdk;
}.

(** Where a front sends what it is given. *)
Inductive route : Type := ByUdp (server : SocketAddr) | ByNym (recipient : str).

Record host := mkHost {
  certs : nat; sockets : nat; nym_clients : nat;           (* made so far *)
  listening : gmap SocketAddr ServerConfig;
  routes : gmap SocketAddr route;
  gateways : gmap str SocketAddr;                          (* where a Nym gateway's datagrams go *)
}.
Definition new_host : host := mkHost 0 0 0 ∅ ∅ ∅.

Inductive setup_error : Type := CertRefused | Refused (e : link_error) | NymRefused (e : Nym.nym_error) | Panicked.

(** The server a datagram sent to [a] arrives at. *)
Definition server_behind (h : host) (a : SocketAddr) : option ServerConfig :=
  match routes h !! a with
  | Some (ByUdp server) => listening h !! server
  | Some (ByNym r) => server ← gateways h !! r; listening h !! server
  | None => listening h !! a
  end.

Section Calls.
Variables (O : outside) (pr : profile).
Abbreviation M := (fallible host setup_error).

Definition make_cert : M (bytes * bytes) := λ h,
  (ok_or (rcgen O (certs h)) CertRefused,
   mkHost (S (certs h)) (sockets h) (nym_clients h) (listening h) (routes h) (gateways h)).

(** Binding a UDP socket to 127.0.0.1:0 and asking for its address. *)
Definition bind_loopback : M SocketAddr := λ h,
  (ok_or (port_of O (sockets h)) (Refused BindFailed),
   mkHost (certs h) (S (sockets h)) (nym_clients h) (listening h) (routes h) (gateways h)).

Definition set_listening (a : SocketAddr) (sc : ServerConfig) : M () := λ h,
  (Ok (), mkHost (certs h) (sockets h) (nym_clients h) (<[a := sc]> (listening h)) (routes h) (gateways h)).
Definition set_route (a : SocketAddr) (r : route) : M () := λ h,
  (Ok (), mkHost (certs h) (sockets h) (nym_clients h) (listening h) (<[a := r]> (routes h)) (gateways h)).
Definition set_gateway (n : str) (a : SocketAddr) : M () := λ h,
  (Ok (), mkHost (certs h) (sockets h) (nym_clients h) (listening h) (routes h) (<[n := a]> (gateways h))).
Definition next_client : M nat := λ h,
  (Ok (nym_clients h), mkHost (certs h) (sockets h) (S (nym_clients h)) (listening h) (routes h) (gateways h)).

(** [with_single_cert], [transport_config], [Endpoint::server], [local_addr]. *)
Definition listen (tc : TransportConfig) (cert key : bytes) : M SocketAddr :=
  _ ← guard_ok (single_cert_ok O [cert] key) (Refused BadCert);
  a ← bind_loopback;
  _ ← set_listening a (mkServerConfig [cert] key tc);
  mret a.

(** [roots.add], [with_root_certificates], [transport_config],
    [Endpoint::client], [connect(front, "localhost")], the handshake: with
    whoever serves behind the front. *)
Definition handshake (front : SocketAddr) (cc : ClientConfig) : M ClientConfig := λ h,
  (match server_behind h front with
   | Some sc => if handshakes O sc cc "localhost" then Ok cc else Err (Refused HandshakeFailed)
   | None => Err (Refused HandshakeFailed)
   end, h).

Definition dial (tc : TransportConfig) (cert : bytes) (front : SocketAddr) : M ClientConfig :=
  _ ← guard_ok (root_ok O cert) (Refused RootRejected);
  _ ← guard_ok (verifier_ok O [cert]) (Refused VerifierFailed);
  _ ← bind_loopback;
  _ ← guard_ok (dial_ok O front "localhost") (Refused ConnectFailed);
  handshake front (mkClientConfig [cert] tc).

(** [start_relay]: its boundaries, its front socket and its back socket. *)
Definition relay_to {T} `{MixTransport T} (server : SocketAddr) (tup tdown : T) (now : Z) : M (SocketAddr * relay T) :=
  r ← lift (ok_or (start_relay pr tup tdown now) Panicked);
  front ← bind_loopback;
  _ ← bind_loopback;
  _ ← set_route front (ByUdp server);
  mret (front, r).

(** [NymGateway::connect], then [run(server)] in a task; its address. *)
Definition serve_nym (server : SocketAddr) : M str :=
  n ← next_client;
  c ← lift (map_err NymRefused (Nym.gateway_connect (nym O) n));
  _ ← set_gateway (Nym.nym_address c) server;
  mret (Nym.nym_address c).

(** [NymSubstrate::connect], then [spawn_client_bridge]: a front whose datagrams
    go to the recipient. *)
Definition nym_circuit (gateway : str) (surbs : Z) (p : OracleParams) (now : Z) : M (SocketAddr * front Nym.NymSubstrate) :=
  n ← next_client;
  sub ← lift (map_err NymRefused (Nym.connect (nym O) n gateway surbs p));
  f ← lift (ok_or (Nym.spawn_client_bridge pr sub now) Panicked);
  a ← bind_loopback;
  _ ← set_route a (ByNym (Nym.recipient sub));
  mret (a, f).

(** The calls are [Node]'s own. *)
Lemma listen_is_serve_gateway n h :
  (listen (node_transport n) (Gateway.cert n) (Gateway.key n) h).1 =
  map_err Refused (snd <$> serve_gateway (single_cert_ok O) (λ _, port_of O (sockets h)) n).
Proof.
  unfold listen, serve_gateway, serve_gateway_at, guard_ok, mbind, fallible_bind.
  destruct (single_cert_ok O _ _); [|done]. cbn. by destruct (port_of O (sockets h)).
Qed.

Lemma dial_is_connect n peer front h :
  (dial (node_transport n) peer front h).1 =
  map_err Refused (connect (root_ok O) (verifier_ok O) (λ _, port_of O (sockets h))
    (λ a name, if dial_ok O a name
               then Some (λ cc, match server_behind h a with Some sc => handshakes O sc cc name | None => false end)
               else None) n front peer).
Proof.
  unfold dial, connect, connect_via, guard_ok, mbind, fallible_bind.
  destruct (root_ok O peer); [|done]. destruct (verifier_ok O [peer]); [|done].
  cbn -[server_behind]. destruct (port_of O (sockets h)); [|done].
  cbn -[server_behind]. destruct (dial_ok O front "localhost"); [|done].
  unfold handshake. change (server_behind _ front) with (server_behind h front) at 1.
  destruct (server_behind h front); [|done]. by destruct (handshakes O _ _ _).
Qed.
End Calls.

(** ** What the calls leave behind. *)
Definition serves (sc : ServerConfig) (a : SocketAddr) (h : host) : Prop := listening h !! a = Some sc.
Definition bridged (sc : ServerConfig) (n : str) (h : host) : Prop := ∃ a, gateways h !! n = Some a ∧ serves sc a h.
Definition reaches (sc : ServerConfig) (front : SocketAddr) (h : host) : Prop := server_behind h front = Some sc.

(** Hosts that differ in how much was made so far only. *)
Definition same_net (h h' : host) : Prop :=
  listening h = listening h' ∧ routes h = routes h' ∧ gateways h = gateways h'.

#[export] Instance same_net_equiv : Equivalence same_net.
Proof. unfold same_net. split; intros ?; [done|naive_solver|]. intros ?? (-> & -> & ->). naive_solver. Qed.
#[export] Instance listening_proper : Proper (same_net ==> eq) listening.
Proof. by intros h h' (? & _ & _). Qed.
#[export] Instance routes_proper : Proper (same_net ==> eq) routes.
Proof. by intros h h' (_ & ? & _). Qed.
#[export] Instance gateways_proper : Proper (same_net ==> eq) gateways.
Proof. by intros h h' (_ & _ & ?). Qed.
#[export] Instance serves_proper sc a : Proper (same_net ==> iff) (serves sc a).
Proof. intros h h' Hh. unfold serves. by rewrite Hh. Qed.
#[export] Instance bridged_proper sc n : Proper (same_net ==> iff) (bridged sc n).
Proof. intros h h' Hh. unfold bridged. by setoid_rewrite Hh. Qed.
#[export] Instance server_behind_proper : Proper (same_net ==> eq ==> eq) server_behind.
Proof. intros h h' (Hl & Hr & Hg) a ? <-. unfold server_behind. by rewrite Hl, Hr, Hg. Qed.
#[export] Instance reaches_proper sc a : Proper (same_net ==> iff) (reaches sc a).
Proof. intros h h' Hh. unfold reaches. by rewrite Hh. Qed.

Section Specs.
Variables (O : outside) (pr : profile).

(** A certificate of this process, an address of one of its sockets, the address
    of one of its Nym clients. *)
Definition own_cert (c k : bytes) : Prop := ∃ n, rcgen O n = Some (c, k).
Definition own_port (a : SocketAddr) : Prop := ∃ n, port_of O n = Some a.
Definition own_address (r : str) : Prop := ∃ n c, Nym.build_client (nym O) n = Some c ∧ Nym.nym_address c = r.

(** What the calls answer on a machine where nothing goes wrong: a self-signed
    certificate the client has as a root passes, and a socket's address can be
    dialled. *)
Record healthy : Prop := {
  h_rcgen : ∀ n, is_Some (rcgen O n);
  h_cert : ∀ c k, own_cert c k → single_cert_ok O [c] k = true ∧ root_ok O c = true ∧ verifier_ok O [c] = true;
  h_port : ∀ n, is_Some (port_of O n);
  h_dial : ∀ a, own_port a → dial_ok O a "localhost" = true;
  h_handshake : ∀ c k ts tc, own_cert c k → handshakes O (mkServerConfig [c] k ts) (mkClientConfig [c] tc) "localhost" = true;
  h_client : ∀ n, is_Some (Nym.build_client (nym O) n);
}.

(** The SDK parses the addresses it prints. *)
Definition addresses_parse : Prop := ∀ r, own_address r → Nym.recipient_of (nym O) r = Some r.

(** An error is the outside's: a healthy machine gives none. *)
Abbreviation spec P m Q := (triple P m Q (λ _ _, ¬ healthy)).

(** Calls that only count. *)
Lemma counted (P : host → Prop) `{!Proper (same_net ==> iff) P} h h' : same_net h h' → P h → P h'.
Proof. by intros ->. Qed.

Lemma make_cert_spec (P : host → Prop) `{!Proper (same_net ==> iff) P} :
  spec P (make_cert O) (λ ck h, own_cert ck.1 ck.2 ∧ P h).
Proof.
  intros h Hh. unfold make_cert. destruct (rcgen O (certs h)) as [[c k]|] eqn:E; cbn.
  - split; [by eexists|by apply (counted P h)].
  - intros Hy. destruct (h_rcgen Hy (certs h)). congruence.
Qed.

Lemma bind_spec (P : host → Prop) `{!Proper (same_net ==> iff) P} :
  spec P (bind_loopback O) (λ a h, own_port a ∧ P h).
Proof.
  intros h Hh. unfold bind_loopback. destruct (port_of O (sockets h)) as [a|] eqn:E; cbn.
  - split; [by eexists|by apply (counted P h)].
  - intros Hy. destruct (h_port Hy (sockets h)). congruence.
Qed.

Lemma next_client_spec (P : host → Prop) `{!Proper (same_net ==> iff) P} :
  spec P next_client (λ _, P).
Proof. intros h Hh. cbn. by apply (counted P h). Qed.

Lemma listen_spec tc c k :
  own_cert c k → spec (λ _, True) (listen O tc c k) (λ a h, own_port a ∧ serves (mkServerConfig [c] k tc) a h).
Proof.
  intros Hc. unfold listen. eapply triple_bind.
  { apply triple_check. intros Hf ? _ Hy. destruct (h_cert Hy _ _ Hc). congruence. }
  intros []. apply triple_pure. intros _.
  eapply triple_bind; [by apply (bind_spec (λ _, True))|]. intros a. apply triple_pure. intros Ha.
  intros h _. cbn. split; [done|apply lookup_insert_eq].
Qed.

Lemma dial_spec tc ts c k f :
  own_cert c k → own_port f →
  spec (reaches (mkServerConfig [c] k ts) f) (dial O tc c f)
    (λ cc h, (cc = mkClientConfig [c] tc ∧ handshakes O (mkServerConfig [c] k ts) cc "localhost" = true) ∧
       reaches (mkServerConfig [c] k ts) f h).
Proof.
  intros Hc Hf. unfold dial. eapply triple_bind.
  { apply triple_check. intros ? ? _ Hy. destruct (h_cert Hy _ _ Hc) as (? & ? & ?). congruence. }
  intros []. apply triple_pure. intros _. eapply triple_bind.
  { apply triple_check. intros ? ? _ Hy. destruct (h_cert Hy _ _ Hc) as (? & ? & ?). congruence. }
  intros []. apply triple_pure. intros _.
  eapply triple_bind; [by apply bind_spec, _|]. intros a. apply triple_pure. intros _. eapply triple_bind.
  { apply triple_check. intros ? ? _ Hy. pose proof (h_dial Hy _ Hf). congruence. }
  intros []. apply triple_pure. intros _.
  intros h Hr. unfold handshake. pose proof Hr as Hr'. unfold reaches in Hr'. rewrite Hr'.
  destruct (handshakes O _ _ _) eqn:Eh; [done|]. intros Hy. by rewrite (h_handshake Hy _ _ _ _ Hc) in Eh.
Qed.

Lemma relay_spec {T} `{MixTransport T} server sc (tup tdown : T) now r :
  start_relay pr tup tdown now = Some r →
  spec (serves sc server) (relay_to O pr server tup tdown now)
    (λ fr h, (own_port fr.1 ∧ fr.2 = r) ∧ reaches sc fr.1 h).
Proof.
  intros Hr. unfold relay_to. rewrite Hr. eapply triple_bind; [by apply triple_answer|].
  intros r'. apply triple_pure. intros [= <-].
  eapply triple_bind; [by apply bind_spec, _|]. intros f. apply triple_pure. intros Hf.
  eapply triple_bind; [by apply bind_spec, _|]. intros b. apply triple_pure. intros _.
  intros h Hs. cbn. split; [done|]. unfold reaches, server_behind. cbn. by rewrite lookup_insert_eq.
Qed.

Lemma serve_nym_spec server sc :
  spec (serves sc server) (serve_nym O server) (λ n h, own_address n ∧ bridged sc n h).
Proof.
  unfold serve_nym. eapply triple_bind; [by apply next_client_spec, _|]. intros n.
  eapply triple_bind.
  { apply triple_answer. intros e He ? _ Hy. destruct (h_client Hy n) as [c Hc].
    unfold Nym.gateway_connect in He. by rewrite Hc in He. }
  intros c. apply triple_pure. unfold Nym.gateway_connect. intros Hc.
  destruct (Nym.build_client (nym O) n) as [c'|] eqn:E; [|done]. injection Hc as ->.
  intros h Hs. cbn. split; [by eexists _, _|]. exists server. split; [apply lookup_insert_eq|done].
Qed.

Lemma nym_circuit_spec gateway sc surbs p now :
  addresses_parse → own_address gateway → is_Some (bdp_packets pr p) →
  spec (bridged sc gateway) (nym_circuit O pr gateway surbs p now)
    (λ fb h, own_port fb.1 ∧ reaches sc fb.1 h).
Proof.
  intros Hp Hg [depth Hd]. unfold nym_circuit. eapply triple_bind; [by apply next_client_spec, _|]. intros n.
  unfold Nym.connect, Nym.parse_recipient. rewrite (Hp _ Hg). cbn [ok_or mbind result_bind].
  eapply triple_bind.
  { apply triple_answer. intros e He ? _ Hy. destruct (h_client Hy n) as [c Hc]. by rewrite Hc in He. }
  intros sub. apply triple_pure. intros Hs. destruct (Nym.build_client (nym O) n) as [c|]; [|done].
  injection Hs as <-. unfold Nym.spawn_client_bridge. cbn. rewrite Hd. cbn.
  apply triple_ret_bind. eapply triple_bind; [by apply bind_spec, _|]. intros a. apply triple_pure. intros Ha.
  intros h (s & Hgw & Hs). cbn. split; [done|]. unfold reaches, server_behind. cbn.
  rewrite lookup_insert_eq. by rewrite Hgw.
Qed.
End Specs.
