(* ===== verification/Programs.v ===== *)
(** * The measurement programs: [bench.rs], [multipath.rs], [selftest.rs],
    [proxy.rs] and [rotate.rs] of [crates/quicmix-eval/examples],
    [nym_bench.rs], [nym_e2e.rs] and [nym_rotate.rs] of
    [substrates/quicmix-nym/src/bin].

    What each builds on its machine (Loopback) before it measures: a server, a
    front to it over its mix network, a client; then the benchmarks' runs of one
    upload each (Uploads) and the tables they print. *)

From S2P Require Import Prelude Fallible RustFloat RustStr Core Oracle Client Substrate Net Selection Mixnets UdpFront TwoNodes Loopback Uploads.
From S2P Require Emulator Striped EmulatedPath StripedPath Gateway Fetch WarmPool.
Open Scope Z_scope.

#[local] Abbreviation EmulatedMixnet := Emulator.EmulatedMixnet.
#[local] Abbreviation with_queue := Emulator.with_queue.

(** How an upload went: what happened, the window quinn gave its stream, and what
    the program measured of it. *)
Record timing := mkTiming {
  began : Z; happened : list event; window : nat; took : Z; lost : Z; sent : Z;
}.

(** [StillRunning]: not an error of the program, which is at one of its awaits. *)
Inductive program_error : Type := Setup (e : setup_error) | UploadFailed (e : upload_error) | StillRunning.

(** [vec![0u8; n]]: a capacity over [isize::MAX] panics. *)
Definition zeros (n : Z) : option bytes := if n <? 2 ^ 63 then Some (repeat (zb 0) (Z.to_nat n)) else None.

Section Programs.
Variables (O : outside) (pr : profile) (itf : Z → option Z).
#[local] Abbreviation M := (fallible host setup_error).
#[local] Abbreviation P := (fallible host program_error).

Definition or_panic {A} (o : option A) : M A := lift (ok_or o Panicked).
Definition transport_of (cc : Congestion) (p : OracleParams) : M TransportConfig := or_panic (transport pr itf cc p).

(** ** Set-ups.  The front dialled, and the client's end. *)
Definition link : Type := SocketAddr * ClientConfig.

(** [bench.rs], [run_once]: an emulator each way, with a buffer of one
    bandwidth-delay product. *)
Definition bench_link (cc : Congestion) (p : OracleParams) (now : Z) : M (link * relay EmulatedMixnet) :=
  '(cert, key) ← make_cert O;
  tc ← transport_of cc p;
  server ← listen O tc cert key;
  buf ← or_panic (bdp_packets pr p);
  '(front, r) ← relay_to O pr server (with_queue p buf) (with_queue p buf) now;
  client ← dial O tc cert front;
  mret ((front, client), r).

(** [multipath.rs], [run]: whatever transports it is given. *)
Definition multipath_link {T} `{MixTransport T} (up down : T) (now : Z) : M (link * relay T) :=
  '(cert, key) ← make_cert O;
  tc ← transport_of Quicmix (oracle up);
  server ← listen O tc cert key;
  '(front, r) ← relay_to O pr server up down now;
  client ← dial O tc cert front;
  mret ((front, client), r).

Definition nym_surbs (env : environment) : Z := default 8 (env (bs "NYM_SURBS") ≫= parse_uint 32).

(** [nym_bench.rs]: through a Nym gateway of its own. *)
Definition nym_bench_link (env : environment) (now : Z) : M (link * front Nym.NymSubstrate) :=
  tc ← transport_of (nym_arm env) Nym.nym_oracle;
  '(cert, key) ← make_cert O;
  server ← listen O tc cert key;
  gateway ← serve_nym O server;
  '(front, bridge) ← nym_circuit O pr gateway (nym_surbs env) Nym.nym_oracle now;
  client ← dial O tc cert front;
  mret ((front, client), bridge).

(** [Node::new]. *)
Definition node_failed (e : Gateway.node_error) : setup_error :=
  match e with Gateway.CertFailed => CertRefused | Gateway.TransportPanicked => Panicked end.
Definition node (p : OracleParams) : M Gateway.Node :=
  ck ← make_cert O; lift (map_err node_failed (Gateway.new pr itf (Some ck) p)).
Definition serve (n : Gateway.Node) : M SocketAddr := listen O (Gateway.node_transport n) (Gateway.cert n) (Gateway.key n).

(** [selftest.rs]: node A, through a relay, to node B. *)
Definition selftest_link (now : Z) : M (link * relay EmulatedMixnet) :=
  let p := Fetch.selftest_path in
  b ← node p;
  a ← node p;
  gateway ← serve b;
  buf ← or_panic (bdp_packets pr p);
  '(front, r) ← relay_to O pr gateway (with_queue p buf) (with_queue p buf) now;
  client ← dial O (Gateway.node_transport a) (Gateway.cert b) front;
  mret ((front, client), r).

(** [nym_e2e.rs]: the same over Nym. *)
Definition nym_e2e_link (env : environment) (now : Z) : M (link * front Nym.NymSubstrate) :=
  let p := Nym.nym_oracle in
  b ← node p;
  server ← serve b;
  gateway ← serve_nym O server;
  '(front, bridge) ← nym_circuit O pr gateway (nym_surbs env) p now;
  a ← node p;
  client ← dial O (Gateway.node_transport a) (Gateway.cert b) front;
  mret ((front, client), bridge).

(** [proxy.rs]: the gateway, and the pool before its first refill; then what one
    call of its front factory builds. *)
Definition pooled_setup : M (Gateway.Node * SocketAddr * Z * WarmPool.st) :=
  let p := StripedPath.demo_mix in
  buf ← or_panic (StripedPath.demo_buf pr);
  b ← node p;
  gateway ← serve b;
  tc ← transport_of Quicmix p;
  pool ← or_panic (WarmPool.spawn 2 (Some tc) None Fetch.demo_pool);
  mret (b, gateway, buf, pool).
Definition pooled_front (gateway : SocketAddr) (buf now : Z) : M (SocketAddr * relay (Striped.Striped EmulatedMixnet)) :=
  up ← or_panic (StripedPath.striped_leg StripedPath.demo_mix buf);
  down ← or_panic (StripedPath.striped_leg StripedPath.demo_mix buf);
  relay_to O pr gateway up down now.

(** [nym_rotate.rs]: its server under the transport of its circuits; each
    circuit is a Nym client of its own. *)
Definition nym_rotate_setup : M (bytes * str * option TransportConfig) :=
  '(cert, key) ← make_cert O;
  server_tc ← transport_of Quicmix Nym.nym_oracle;
  server ← listen O server_tc cert key;
  tc ← transport_of Quicmix Nym.nym_oracle;
  gateway ← serve_nym O server;
  mret (cert, gateway, Some tc).
Definition nym_rotate_front (gateway : str) (now : Z) : M (SocketAddr * front Nym.NymSubstrate) :=
  nym_circuit O pr gateway 8 Nym.nym_oracle now.

(** [rotate.rs]: no transport is set at either end. *)
Definition rotate_server : M (bytes * SocketAddr) :=
  '(cert, key) ← make_cert O;
  server ← listen O TransportConfig_default cert key;
  mret (cert, server).

(** ** The benchmarks. *)
Definition transfer (n : Z) (t : timing) : P Sample := lift
  match zeros n, read_limit pr n with
  | Some payload, Some limit =>
      match run payload limit (window t) (happened t) start ≫= outcome n (took t) (lost t) (sent t) with
      | Some r => map_err UploadFailed r
      | None => Err StillRunning
      end
  | _, _ => Err (Setup Panicked)
  end.

Definition run_once (cc : Congestion) (n : Z) (p : OracleParams) (t : timing) : P Sample :=
  _ ← with_err Setup (bench_link cc p (began t));
  transfer n t.

(** The rows printed, and the error that ended the program. *)
Fixpoint arms (n : Z) (p : OracleParams) (ts : Congestion → timing) (baseline : option spec_float) (ccs : list Congestion)
    (h : host) : list row * option program_error * host :=
  match ccs with
  | [] => ([], None, h)
  | cc :: ccs =>
      match run_once cc n p (ts cc) h with
      | (Err e, h) => ([], Some e, h)
      | (Ok s, h) =>
          let '(rows, e, h) := arms n p ts (Some (default (goodput s) baseline)) ccs h in
          (bench_row baseline cc s :: rows, e, h)
      end
  end.
Definition ARMS : list Congestion := [Stock; Timers; Quicmix].
Definition bench (n : Z) (ts : Congestion → timing) (h : host) : list row * option program_error * host :=
  arms n bench_path ts None ARMS h.
Definition bench_main (arg : option str) (ts : Congestion → timing) (h : host) : list row * option program_error * host :=
  match payload_of_mb pr (arg_or 4 arg) with
  | Some n => bench n ts h
  | None => ([], Some (Setup Panicked), h)
  end.

Definition multipath_run {T} `{MixTransport T} (up down : T) (n : Z) (t : timing) : P spec_float :=
  _ ← with_err Setup (multipath_link up down (began t));
  s ← transfer n t;
  mret (goodput s).

Definition multipath (arg : option str) (t1 t2 t3 : timing) : P (spec_float * spec_float * spec_float) :=
  n ← with_err Setup (or_panic (payload_of_mb pr (arg_or 2 arg)));
  g_fast ← multipath_run fast fast n t1;
  g_slow ← multipath_run slow slow n t2;
  up ← with_err Setup (or_panic (Striped.new [fast; slow]));
  down ← with_err Setup (or_panic (Striped.new [fast; slow]));
  g_combo ← multipath_run up down n t3;
  mret (mega g_fast, mega g_slow, mega g_combo).

Definition nym_bench (env : environment) (t : timing) : P (spec_float * spec_float) :=
  n ← with_err Setup (or_panic (nym_payload pr env));
  _ ← with_err Setup (nym_bench_link env (began t));
  s ← transfer n t;
  mret (nym_figure s).
End Programs.

(** ** What a set-up makes: a connection with the program's own server. *)
Section Specs.
Variables (O : outside) (pr : profile) (itf : Z → option Z).

(** Behind the front is a server of this process; the client trusts its
    certificate and no other, both run [tc], and their handshake succeeds. *)
Definition linked (tc : TransportConfig) (l : link) (h : host) : Prop :=
  ∃ c k, own_cert O c k ∧ reaches (mkServerConfig [c] k tc) l.1 h ∧ l.2 = mkClientConfig [c] tc ∧
    handshakes O (mkServerConfig [c] k tc) l.2 "localhost" = true.

#[local] Abbreviation spec P m Q := (triple P m Q (λ _ _, ¬ healthy O)).

Lemma or_panic_spec {A} (o : option A) (a : A) (P : host → Prop) :
  o = Some a → spec P (or_panic o) (λ x h, x = a ∧ P h).
Proof. intros -> h Hh. by split. Qed.

(** The arithmetic of the set-ups does not overflow. *)
Lemma transports_build cc :
  (is_Some (transport pr itf cc bench_path) ∧ is_Some (transport pr itf cc Nym.nym_oracle)) ∧
  is_Some (transport pr itf cc Fetch.selftest_path) ∧ is_Some (transport pr itf cc StripedPath.demo_mix).
Proof. destruct pr, cc; split_and!; vm_compute; by eexists. Qed.

Lemma buffers_build :
  (is_Some (bdp_packets pr bench_path) ∧ is_Some (bdp_packets pr Nym.nym_oracle)) ∧
  is_Some (bdp_packets pr Fetch.selftest_path) ∧ is_Some (bdp_packets pr StripedPath.demo_mix).
Proof. destruct pr; split_and!; vm_compute; by eexists. Qed.

(** A relay between two emulators of one path. *)
Lemma emulated_relay p buf now :
  bdp_packets pr p = Some buf →
  start_relay pr (with_queue p buf) (with_queue p buf) now =
  Some (mkRelay (new_pipe (with_queue p buf) (Z.to_nat buf) now) (new_pipe (with_queue p buf) (Z.to_nat buf) now) None).
Proof. intros Hb. unfold start_relay. change (oracle (with_queue p buf)) with p. by rewrite Hb. Qed.

(** One call of a set-up: its specification, and what that says of its answer. *)
#[local] Tactic Notation "call" uconstr(lem) :=
  eapply triple_bind; [eapply lem; solve [eassumption | eauto with typeclass_instances]|];
  let x := fresh in intros x; apply triple_pure; revert x.

Lemma link_spec tc ts c k f (A : Type) (x : A) :
  own_cert O c k → own_port O f → ts = tc →
  spec (reaches (mkServerConfig [c] k ts) f)
    (client ← dial O tc c f; mret ((f, client), x)) (λ lx h, lx.2 = x ∧ linked tc lx.1 h).
Proof.
  intros Hc Hf ->. eapply triple_bind; [by apply dial_spec|]. intros cc. apply triple_pure. intros [-> Hh].
  apply triple_ret. intros h Hr. split; [done|]. by exists c, k.
Qed.

Lemma bench_link_spec cc now tc buf :
  transport pr itf cc bench_path = Some tc → bdp_packets pr bench_path = Some buf →
  spec (λ _, True) (bench_link O pr itf cc bench_path now)
    (λ lr h, lr.2 = mkRelay (new_pipe (with_queue bench_path buf) (Z.to_nat buf) now)
                      (new_pipe (with_queue bench_path buf) (Z.to_nat buf) now) None ∧ linked tc lr.1 h).
Proof.
  intros Ht Hb. pose proof (emulated_relay _ _ now Hb) as Hrel. unfold bench_link. call (make_cert_spec O (λ _, True)). intros [c k] Hc.
  call or_panic_spec. intros t ->. call listen_spec. intros server _. call or_panic_spec. intros b ->.
  call relay_spec. intros [f r] [Hf Hr]. cbn in *. subst. by apply link_spec.
Qed.

Lemma multipath_link_spec {T} `{MixTransport T} (tup tdown : T) now tc r :
  transport pr itf Quicmix (oracle tup) = Some tc → start_relay pr tup tdown now = Some r →
  spec (λ _, True) (multipath_link O pr itf tup tdown now) (λ lr h, lr.2 = r ∧ linked tc lr.1 h).
Proof.
  intros Ht Hr. unfold multipath_link. call (make_cert_spec O (λ _, True)). intros [c k] Hc.
  call or_panic_spec. intros t ->. call listen_spec. intros server _.
  call relay_spec. intros [f r'] [Hf Hr']. cbn in *. subst. by apply link_spec.
Qed.

(** A node under a transport, its certificate its own. *)
Definition node_of (tc : TransportConfig) (n : Gateway.Node) : Prop :=
  own_cert O (Gateway.cert n) (Gateway.key n) ∧ Gateway.node_transport n = tc.

Lemma node_spec (P : host → Prop) `{!Proper (same_net ==> iff) P} p tc :
  transport pr itf Quicmix p = Some tc → spec P (node O pr itf p) (λ n h, node_of tc n ∧ P h).
Proof.
  intros Ht. unfold node. call make_cert_spec. intros [c k] Hc.
  unfold Gateway.new, Gateway.with_congestion. rewrite Ht. by apply triple_ret.
Qed.

Lemma serve_spec tc n :
  node_of tc n → spec (λ _, True) (serve O n) (λ a h, own_port O a ∧ serves (mkServerConfig [Gateway.cert n] (Gateway.key n) tc) a h).
Proof. intros [Hc <-]. by apply listen_spec. Qed.

Lemma selftest_link_spec now tc buf :
  transport pr itf Quicmix Fetch.selftest_path = Some tc → bdp_packets pr Fetch.selftest_path = Some buf →
  spec (λ _, True) (selftest_link O pr itf now)
    (λ lr h, lr.2 = mkRelay (new_pipe (with_queue Fetch.selftest_path buf) (Z.to_nat buf) now)
                      (new_pipe (with_queue Fetch.selftest_path buf) (Z.to_nat buf) now) None ∧ linked tc lr.1 h).
Proof.
  intros Ht Hb. pose proof (emulated_relay _ _ now Hb) as Hrel. unfold selftest_link.
  call (node_spec (λ _, True)). intros b Hnb. call (node_spec (λ _, True)). intros a [Ha1 Ha2]. call serve_spec. intros server _. call or_panic_spec. intros n ->.
  call relay_spec. intros [f r] [Hf Hr]. destruct Hnb. cbn in *. rewrite Ha2. subst. by apply link_spec.
Qed.

(** ** Over Nym. *)
Hypothesis Hparse : addresses_parse O.

Lemma nym_bench_link_spec env now tc :
  transport pr itf (nym_arm env) Nym.nym_oracle = Some tc →
  spec (λ _, True) (nym_bench_link O pr itf env now) (λ lr, linked tc lr.1).
Proof.
  intros Ht. pose proof (proj2 (proj1 buffers_build)) as Hb. unfold nym_bench_link.
  call or_panic_spec. intros t ->. call (make_cert_spec O (λ _, True)). intros [c k] Hc.
  call listen_spec. intros server _. call serve_nym_spec. intros gw Hgw.
  call nym_circuit_spec. intros [f b] Hf. cbn in *.
  eapply triple_post; [by apply link_spec|]. by intros x h [_ ?].
Qed.

Lemma nym_e2e_link_spec env now tc :
  transport pr itf Quicmix Nym.nym_oracle = Some tc →
  spec (λ _, True) (nym_e2e_link O pr itf env now) (λ lr, linked tc lr.1).
Proof.
  intros Ht. pose proof (proj2 (proj1 buffers_build)) as Hb. unfold nym_e2e_link.
  call (node_spec (λ _, True)). intros b Hnb. call serve_spec. intros server _.
  call serve_nym_spec. intros gw Hgw. call nym_circuit_spec. intros [f br] Hf.
  call node_spec. intros a [Ha1 Ha2]. destruct Hnb. cbn in *. rewrite Ha2.
  eapply triple_post; [by apply link_spec|]. by intros x h [_ ?].
Qed.

(** Nym's circuits of nym_rotate: every front leads to the one server, under the
    transport its circuits are given. *)
Lemma nym_rotate_spec tc :
  transport pr itf Quicmix Nym.nym_oracle = Some tc →
  spec (λ _, True) (nym_rotate_setup O pr itf)
    (λ x h, ∃ k, own_cert O x.1.1 k ∧ x.2 = Some tc ∧ own_address O x.1.2 ∧ bridged (mkServerConfig [x.1.1] k tc) x.1.2 h).
Proof.
  intros Ht. unfold nym_rotate_setup. call (make_cert_spec O (λ _, True)). intros [c k] Hc.
  call or_panic_spec. intros t ->. call listen_spec. intros server _. call or_panic_spec. intros t ->.
  call serve_nym_spec. intros gw Hgw. apply triple_ret. intros h Hh. by exists k.
Qed.

Lemma nym_rotate_front_spec sc gateway now :
  own_address O gateway →
  spec (bridged sc gateway) (nym_rotate_front O pr gateway now) (λ fb h, own_port O fb.1 ∧ reaches sc fb.1 h).
Proof. intros Hg. apply nym_circuit_spec; [done|done|]. apply buffers_build. Qed.

(** ** The pooled proxy and the rotation demo. *)
Lemma pooled_spec tc :
  transport pr itf Quicmix StripedPath.demo_mix = Some tc →
  spec (λ _, True) (pooled_setup O pr itf)
    (λ x h, (node_of tc x.1.1.1 ∧ WarmPool.fixed_transport (WarmPool.pool x.2) = Some tc) ∧
       serves (mkServerConfig [Gateway.cert x.1.1.1] (Gateway.key x.1.1.1) tc) x.1.1.2 h).
Proof.
  intros Ht. destruct (proj2 (proj2 buffers_build)) as [buf Hb]. unfold pooled_setup, StripedPath.demo_buf. call or_panic_spec. intros n ->.
  call (node_spec (λ _, True)). intros b Hnb. call serve_spec. intros gw Hgw. call or_panic_spec. intros t ->.
  call or_panic_spec. intros p ->.
  apply triple_ret. intros h Hh. split; [by split|exact Hh].
Qed.

Lemma pooled_front_spec sc gateway buf leg now r :
  StripedPath.striped_leg StripedPath.demo_mix buf = Some leg → start_relay pr leg leg now = Some r →
  spec (serves sc gateway) (pooled_front O pr gateway buf now) (λ fr h, (own_port O fr.1 ∧ fr.2 = r) ∧ reaches sc fr.1 h).
Proof.
  intros Hl Hr. unfold pooled_front. call or_panic_spec. intros u ->. call or_panic_spec. intros d ->. by apply relay_spec.
Qed.

Lemma rotate_server_spec :
  spec (λ _, True) (rotate_server O)
    (λ x h, ∃ k, own_cert O x.1 k ∧ serves (mkServerConfig [x.1] k TransportConfig_default) x.2 h).
Proof.
  unfold rotate_server. call (make_cert_spec O (λ _, True)). intros [c k] Hc. call listen_spec. intros a Ha.
  apply triple_ret. intros h Hh. by exists k.
Qed.
End Specs.

(** ** The table of [bench.rs]. *)
Section Bench.
Variables (O : outside) (pr : profile) (itf : Z → option Z) (n : Z) (ts : Congestion → timing).
Hypothesis Hn : 0 ≤ n.

Definition sample_of (t : timing) : Sample := mkSample (took t) (rate n (took t)) (lost t) (sent t).

(** The upload an arm ran, over: its client got as far as printing. *)
Definition uploaded (t : timing) (payload : bytes) (u : upload) (w : why) : Prop :=
  ∃ limit, zeros n = Some payload ∧ read_limit pr n = Some limit ∧
    run payload limit (window t) (happened t) start = Some u ∧ cli u = Done w.

Lemma transfer_spec P t :
  triple P (transfer pr n t) (λ s h, (s = sample_of t ∧ ∃ payload u w, uploaded t payload u w) ∧ P h)
    (λ _ _, ¬ ∃ payload u w, uploaded t payload u w).
Proof.
  intros h Hh. unfold transfer, lift, uploaded.
  destruct (zeros n) as [payload|] eqn:Hz; [|intros (? & ? & ? & ? & ? & ? & ? & ?); congruence].
  destruct (read_limit pr n) as [limit|] eqn:Hl; [|intros (? & ? & ? & ? & ? & ? & ? & ?); congruence]. unfold outcome.
  destruct (run payload limit (window t) (happened t) start) as [u|] eqn:Hr; cbn; [destruct (cli u) as [| | | | |w|e] eqn:Hc; cbn|];
    try (intros (? & ? & ? & ? & ? & ? & ? & ?); congruence).
  split; [|done]. split; [done|]. by exists payload, u, w, limit.
Qed.

(** What is known of an upload that is over. *)
Definition well_read (t : timing) (payload : bytes) (u : upload) (w : why) : Prop :=
  (length (happened t) ≤ 2 * length payload + 12)%nat ∧
  (∀ d, read u = Some (Ok d) → d = payload) ∧ read u ≠ Some (Err TooLong) ∧
  (w = ApplicationClosed → read u = Some (Ok payload)) ∧
  (Forall (λ e, smooth e = true) (happened t) → w = ApplicationClosed).

(** An arm's set-up and its upload. *)
Definition measured (cc : Congestion) : Prop :=
  ∃ tc buf l r h0 h1 payload u w,
    transport pr itf cc bench_path = Some tc ∧ bdp_packets pr bench_path = Some buf ∧
    bench_link O pr itf cc bench_path (began (ts cc)) h0 = (Ok (l, r), h1) ∧ linked O tc l h1 ∧
    start_relay pr (with_queue bench_path buf) (with_queue bench_path buf) (began (ts cc)) = Some r ∧
    uploaded (ts cc) payload u w ∧ well_read (ts cc) payload u w.

Lemma zeros_length payload : zeros n = Some payload → Z.of_nat (length payload) = n ∧ n < 2 ^ 63.
Proof. unfold zeros. destruct (Z.ltb_spec n (2 ^ 63)); [|done]. intros [= <-]. rewrite repeat_length. lia. Qed.

Lemma uploaded_well_read t payload u w : uploaded t payload u w → well_read t payload u w.
Proof.
  intros (limit & Hz & Hl & Hr & Hc). destruct (zeros_length _ Hz) as [Hlen Hlt]. rewrite <- Hlen in Hl, Hlt.
  pose proof (read_limit_room _ _ _ Hlt Hl) as Hroom.
  pose proof (run_invariant _ _ _ Hroom _ _ _ Hr (start_invariant payload)) as I.
  destruct (upload_outcome payload limit (window t) _ u Hroom Hr) as (H1 & H2 & H3 & H4).
  split_and!; [done|done|done|by intros ->; apply H4|]. intros Hs.
  assert (unharmed u) as [_ Hu _ _ _]
    by (eapply smooth_run; [done|done|done|by apply start_invariant|by split]).
  pose proof (i_done _ _ I _ Hc) as Hd. pose proof (i_client _ _ I). destruct w; [done| |]; congruence.
Qed.

Lemma run_once_spec cc :
  triple (λ _, True) (run_once O pr itf cc n bench_path (ts cc)) (λ s _, s = sample_of (ts cc) ∧ measured cc)
    (λ _ _, healthy O → ¬ ∃ payload u w, uploaded (ts cc) payload u w).
Proof.
  destruct (proj1 (proj1 (transports_build pr itf cc))) as [tc Ht].
  destruct (proj1 (proj1 (buffers_build pr))) as [buf Hb].
  intros h _. pose proof (bench_link_spec O pr itf cc (began (ts cc)) tc buf Ht Hb h I) as Hl.
  unfold run_once, with_err, mbind, fallible_bind.
  destruct (bench_link O pr itf cc bench_path (began (ts cc)) h) as [[[l r]|e] h1] eqn:El;
    cbv beta iota zeta delta [map_err fst snd] in Hl |- *; [|tauto].
  destruct Hl as [Er Hl]. pose proof (transfer_spec (λ _, True) (ts cc) h1 I) as Hs.
  destruct (transfer pr n (ts cc) h1) as [[s|e] h2]; [|tauto]. destruct Hs as [[-> (payload & u & w & Hu)] _].
  split; [reflexivity|]. exists tc, buf, l, r, h, h1, payload, u, w.
  split_and!; [exact Ht|exact Hb|exact El|exact Hl|rewrite Er; exact (emulated_relay _ _ _ _ Hb)|exact Hu|].
  by apply uploaded_well_read.
Qed.

(** The other benchmarks: a set-up, an upload, and what is computed of it. *)
Lemma measured_run {A B} (m : fallible host setup_error A) (Q : A → host → Prop) (k : Sample → B) t :
  triple (λ _, True) m Q (λ _ _, ¬ healthy O) →
  triple (λ _, True) (_ ← with_err Setup m; s ← transfer pr n t; mret (k s))
    (λ b _, b = k (sample_of t) ∧ (∃ a h, Q a h) ∧ ∃ payload u w, uploaded t payload u w ∧ well_read t payload u w)
    (λ _ _, healthy O → ¬ ∃ payload u w, uploaded t payload u w).
Proof.
  intros Hm h _. specialize (Hm h I). unfold with_err, mbind, fallible_bind.
  destruct (m h) as [[a|e] h1]; cbn beta iota zeta delta [map_err]; [|tauto].
  pose proof (transfer_spec (λ _, True) t h1 I) as Hs. destruct (transfer pr n t h1) as [[s|e] h2]; [|tauto].
  destruct Hs as [[-> (payload & u & w & Hu)] _]. split_and!; [done|by exists a, h1|].
  exists payload, u, w. split; [done|by apply uploaded_well_read].
Qed.

Lemma nym_bench_run env t :
  addresses_parse O → nym_payload pr env = Some n →
  triple (λ _, True) (nym_bench O pr itf env t)
    (λ f _, f = nym_figure (sample_of t) ∧
       (∃ tc (l : link) h, transport pr itf (nym_arm env) Nym.nym_oracle = Some tc ∧ linked O tc l h) ∧
       ∃ payload u w, uploaded t payload u w ∧ well_read t payload u w)
    (λ _ _, healthy O → ¬ ∃ payload u w, uploaded t payload u w).
Proof.
  intros Hp Hk. unfold nym_bench. rewrite Hk.
  destruct (proj2 (proj1 (transports_build pr itf (nym_arm env)))) as [tc Ht].
  eapply triple_post; [exact (measured_run _ _ nym_figure t (nym_bench_link_spec O pr itf Hp env (began t) tc Ht))|].
  intros f h (Hf & (lr & h1 & Hl) & Hu). split_and!; [done|by exists tc, lr.1, h1|done].
Qed.

Lemma multipath_run_spec {T} `{MixTransport T} (tup tdown : T) t tc r :
  transport pr itf Quicmix (oracle tup) = Some tc → start_relay pr tup tdown (began t) = Some r →
  triple (λ _, True) (multipath_run O pr itf tup tdown n t)
    (λ g _, g = rate n (took t) ∧ (∃ lr h, lr.2 = r ∧ linked O tc lr.1 h) ∧
       ∃ payload u w, uploaded t payload u w ∧ well_read t payload u w)
    (λ _ _, healthy O → ¬ ∃ payload u w, uploaded t payload u w).
Proof. intros Ht Hr. exact (measured_run _ _ goodput t (multipath_link_spec O pr itf tup tdown (began t) tc r Ht Hr)). Qed.

(** What the program prints when every arm is over. *)
Fixpoint rows_from (baseline : option spec_float) (ccs : list Congestion) : list row :=
  match ccs with
  | [] => []
  | cc :: ccs =>
      let s := sample_of (ts cc) in
      bench_row baseline cc s :: rows_from (Some (default (goodput s) baseline)) ccs
  end.

Lemma arms_spec baseline ccs h rows e h' :
  arms O pr itf n bench_path ts baseline ccs h = (rows, e, h') →
  rows `prefix_of` rows_from baseline ccs ∧
  (∀ i cc, ccs !! i = Some cc → (i < length rows)%nat → measured cc) ∧
  (healthy O → (∀ cc, ∃ payload u w, uploaded (ts cc) payload u w) → rows = rows_from baseline ccs ∧ e = None).
Proof.
  revert baseline h rows e h'. induction ccs as [|cc ccs IH]; intros baseline h rows e h' Hx; cbn in Hx.
  { simplify_eq. split_and!; [done|by intros i cc ? ?%Nat.nlt_0_r|done]. }
  pose proof (run_once_spec cc h I) as Hs. destruct (run_once _ _ _ _ _ _ _ h) as [[s|e1] h1].
  - destruct Hs as [-> Hm]. destruct (arms _ _ _ _ _ _ _ ccs h1) as [[rows1 e1] h2] eqn:E. simplify_eq.
    destruct (IH _ _ _ _ _ E) as (Hp & Hi & Hall). split_and!.
    + by apply prefix_cons.
    + intros [|i] c Hc Hlt; cbn in *; [by simplify_eq|]. apply (Hi i); [done|lia].
    + intros Hy Hu. destruct (Hall Hy Hu) as [-> ->]. done.
  - simplify_eq. split_and!; [apply prefix_nil|by intros i c ? ?%Nat.nlt_0_r|].
    intros Hy Hu. by destruct (Hs Hy).
Qed.
End Bench.

Lemma setup_answer {A} (a : A) (P : host → Prop) X :
  triple P (with_err Setup (or_panic (Some a))) (λ x h, x = a ∧ P h) X.
Proof. by intros h Hh. Qed.

(** [multipath.rs]: its three runs' arithmetic does not overflow, so it is only
    refused, never panics, and on a machine that refuses nothing it prints the
    three goodputs. *)
Lemma multipath_ends O pr itf arg n t1 t2 t3 :
  payload_of_mb pr (arg_or 2 arg) = Some n → 0 ≤ n →
  triple (λ _, True) (multipath O pr itf arg t1 t2 t3)
    (λ g _, g = (mega (rate n (took t1)), mega (rate n (took t2)), mega (rate n (took t3))))
    (λ _ _, healthy O → ¬ ∀ t, t ∈ [t1; t2; t3] → ∃ payload u w, uploaded pr n t payload u w).
Proof.
  intros Hk Hn. assert (t1 ∈ [t1; t2; t3] ∧ t2 ∈ [t1; t2; t3] ∧ t3 ∈ [t1; t2; t3]) as (Hm1 & Hm2 & Hm3) by set_solver.
  assert (∃ u tf ts tc, Striped.new [fast; slow] = Some u ∧ transport pr itf Quicmix (oracle fast) = Some tf ∧
    transport pr itf Quicmix (oracle slow) = Some ts ∧ transport pr itf Quicmix (oracle u) = Some tc ∧
    ∀ now, is_Some (start_relay pr fast fast now) ∧ is_Some (start_relay pr slow slow now) ∧ is_Some (start_relay pr u u now))
    as (u & tf & ts & tc & Hu & Hf & Hs & Hc & Hr).
  { destruct pr; eexists _, _, _, _; (split_and!; [vm_compute; reflexivity..|]);
      intros now; split_and!; vm_compute; by eexists. }
  unfold multipath. rewrite Hk, Hu.
  destruct (Hr (began t1)) as ([r1 H1] & _ & _), (Hr (began t2)) as (_ & [r2 H2] & _), (Hr (began t3)) as (_ & _ & [r3 H3]).
  assert (∀ T (H : MixTransport T) (up down : T) t tc r,
    t ∈ [t1; t2; t3] → transport pr itf Quicmix (oracle up) = Some tc → start_relay pr up down (began t) = Some r →
    triple (λ _, True) (multipath_run O pr itf up down n t) (λ g _, g = rate n (took t) ∧ True)
      (λ _ _, healthy O → ¬ ∀ t, t ∈ [t1; t2; t3] → ∃ payload u w, uploaded pr n t payload u w)) as Hrun.
  { intros T HT up down t tc' r Ht Htc Hst h _.
    pose proof (multipath_run_spec O pr itf n Hn up down t tc' r Htc Hst h I) as Hx.
    destruct (multipath_run _ _ _ _ _ _ _ h) as [[g|e] h']; [destruct Hx as (Hg & _ & _); exact (conj Hg I)|].
    intros Hy Hall. exact (Hx Hy (Hall t Ht)). }
  eapply triple_bind; [apply setup_answer|]. intros n'. apply triple_pure. intros ->.
  eapply triple_bind; [exact (Hrun _ _ fast fast t1 tf r1 Hm1 Hf H1)|]. intros g1. apply triple_pure. intros ->.
  eapply triple_bind; [exact (Hrun _ _ slow slow t2 ts r2 Hm2 Hs H2)|]. intros g2. apply triple_pure. intros ->.
  do 2 (eapply triple_bind; [apply setup_answer|]; intros u'; apply triple_pure; intros ->).
  eapply triple_bind; [exact (Hrun _ _ u u t3 tc r3 Hm3 Hc H3)|]. intros g3. apply triple_pure. intros ->.
  apply triple_ret. intros. reflexivity.
Qed.

(** One choice per arm. *)
Lemma congestion_choice {A} (P : Congestion → A → Prop) :
  (∀ cc, ∃ a, P cc a) → ∃ f, ∀ cc, P cc (f cc).
Proof.
  intros H. destruct (H Stock) as [a Ha], (H Timers) as [b Hb], (H Quicmix) as [c Hc].
  exists (λ cc, match cc with Stock => a | Timers => b | Quicmix => c end). by intros [].
Qed.

(** C22: What the table of [bench.rs] says.  Each row is of its arm: the arm's
    client was connected, through a relay of two emulators of the path, to the
    server of that arm and no other, both under the arm's own transport, and what
    the row reports was measured of one upload between them, ratios against the
    first arm.  No arm is printed before its upload is over; an upload takes a
    bounded number of steps, what its server read is the payload, all of it if the
    wait ended because the server closed, as it does whenever nothing fails.  On a
    machine where nothing is refused, when the uploads end all three rows are
    printed.  But the wait does not look at why the connection closed: within the
    same stream windows, the same table can be printed of uploads none of which
    the server read to its end, whose last bytes never arrived, nor any at all of
    a payload that fits the window. *)
Theorem benchmark_table_is_of_its_arms O pr itf n ts h rows e h' :
  0 ≤ n < 2 ^ 63 → (∀ cc, (0 < window (ts cc))%nat) → bench O pr itf n ts h = (rows, e, h') →
  let base := rate n (took (ts Stock)) in
  let table := [bench_row None Stock (sample_of n (ts Stock)); bench_row (Some base) Timers (sample_of n (ts Timers));
                bench_row (Some base) Quicmix (sample_of n (ts Quicmix))] in
  rows `prefix_of` table ∧
  (∀ i cc, ARMS !! i = Some cc → (i < length rows)%nat → measured O pr itf n ts cc) ∧
  (healthy O → (∀ cc, ∃ payload u w, uploaded pr n (ts cc) payload u w) → rows = table ∧ e = None) ∧
  (healthy O → ∃ lost_ts : Congestion → timing,
     (∀ cc, sample_of n (lost_ts cc) = sample_of n (ts cc) ∧ window (lost_ts cc) = window (ts cc)) ∧
     (bench O pr itf n lost_ts h).1 = (table, None) ∧
     ∀ cc payload u w, uploaded pr n (lost_ts cc) payload u w → read u = None ∧
       (0 < n → Z.of_nat (length (arrived u)) < n) ∧ (n ≤ Z.of_nat (window (ts cc)) → arrived u = [])).
Proof.
  intros [Hn Hn'] Hwin Hx base table.
  destruct (arms_spec O pr itf n ts Hn None ARMS h rows e h' Hx) as (Hp & Hm & Hall).
  split_and!; [exact Hp|exact Hm|exact Hall|]. intros Hy.
  destruct (zeros n) as [payload|] eqn:Hz; [|unfold zeros in Hz; destruct (Z.ltb_spec n (2 ^ 63)); [done|lia]].
  assert (Z.of_nat (length payload) = n) as Hlen
    by (unfold zeros in Hz; destruct (n <? 2 ^ 63); [injection Hz as <-; rewrite repeat_length; lia|done]).
  assert (∃ limit, read_limit pr n = Some limit) as [limit Hl]
    by (eexists; unfold read_limit, uadd; apply uint_in; unfold in_u; lia).
  assert (∀ cc, ∃ es t got, run payload limit (window (ts cc)) es start = Some (lost_end t payload got) ∧
    ((length payload ≤ window (ts cc))%nat → got = []) ∧ (payload ≠ [] → (length got < length payload)%nat)) as Hlost
    by (intros cc; by apply lost_upload).
  destruct (congestion_choice _ Hlost) as [es Hes].
  exists (λ cc, mkTiming (began (ts cc)) (es cc) (window (ts cc)) (took (ts cc)) (lost (ts cc)) (sent (ts cc))).
  set (lost_ts := λ cc, mkTiming _ _ _ _ _ _). split; [done|]. split.
  - destruct (bench O pr itf n lost_ts h) as [[rows1 e1] h1] eqn:E.
    destruct (arms_spec O pr itf n lost_ts Hn None ARMS h rows1 e1 h1 E) as (_ & _ & H). destruct H as [-> ->]; [done| |done].
    intros cc. destruct (Hes cc) as (t & got & Hr & _). by exists payload, (lost_end t payload got), ConnectionLost, limit.
  - intros cc p u w (limit' & Hz' & Hl' & Hr & _). rewrite Hz in Hz'. injection Hz' as <-. rewrite Hl in Hl'. injection Hl' as <-.
    destruct (Hes cc) as (t & got & Hr' & Hg & Hlt). cbn [happened window lost_ts] in Hr. rewrite Hr' in Hr. injection Hr as <-.
    cbn [read arrived lost_end]. split_and!; [done| |intros; apply Hg; lia].
    intros H0. assert (payload ≠ []) as Hne by (intros ->; cbn in Hlen; lia). specialize (Hlt Hne). lia.
Qed.

(** A machine where nothing is refused, and a table of three bytes an arm. *)
Definition demo_machine : outside :=
  mkOutside (λ n, Some (bs "cert", bs "key")) (λ _ _, true) (λ _, true) (λ _, true)
    (λ n, Some (SA4 (V4 127 0 0 1) (40000 + Z.of_nat n))) (λ _ _, true)
    (λ sc cc _, bool_decide (chain sc = roots cc))
    (Nym.mkSdk (λ r, Some r) (λ n, Some (Nym.mkClient (bs "nym") (λ _, None)))).

Lemma demo_machine_healthy : healthy demo_machine.
Proof. by split; intros; cbn; rewrite ?bool_decide_true; try done; eexists. Qed.

Definition demo_bench_upload : list event :=
  [EAccept true; EConnect true; EOpenUni true; EWrite 2; EIncoming true; ECarry 1; EAcceptUni; EWrite 9; EFinish true;
   ECarry 9; ECarryFin; EReadToEnd (Ok (repeat (zb 0) 3)); ECloseArrives; EClosed].
Definition demo_times (cc : Congestion) : timing :=
  mkTiming 0 demo_bench_upload 4 (from_millis (match cc with Stock => 8 | Timers => 4 | Quicmix => 2 end)) 0 4.
Definition demo_timeout (t : Z) : option Z := Some t.

Lemma benchmark_table_is_of_its_arms_witness :
  ∃ rows h', bench demo_machine Release demo_timeout 3 demo_times new_host = (rows, None, h') ∧
    length rows = 3%nat ∧ measured demo_machine Release demo_timeout 3 demo_times Quicmix ∧ sockets h' = 12%nat.
Proof.
  destruct (bench demo_machine Release demo_timeout 3 demo_times new_host) as [[rows e] h'] eqn:E.
  destruct (benchmark_table_is_of_its_arms demo_machine Release demo_timeout 3 demo_times new_host rows e h')
    as (_ & Hm & Hall & _); [lia|by intros []; cbn; lia|exact E|].
  destruct (Hall demo_machine_healthy) as [Hrows ->].
  { intros cc. eexists _, _, ApplicationClosed, _. split_and!; [by vm_compute|by vm_compute| |]; by destruct cc; vm_compute. }
  exists rows, h'. split; [done|]. split; [by rewrite Hrows|]. split; [apply (Hm 2%nat); [done|rewrite Hrows; cbn; lia]|].
  apply (f_equal snd) in E. cbn [snd] in E. rewrite <- E. by vm_compute.
Defined.
